(* ===== verification/_CoqProject ===== *)
-Q . S2P
Prelude.v
BinarySearch.v
Strs.v
Xds.v
Json.v
Http.v
DiscoveryTypes.v
IpParse.v
StdText.v
Dns.v
AgentTypes.v
RouteSet.v
Discovery.v
DiscoveryWorkloads.v
DiscoveryServices.v
DiscoverySpec.v
Routing.v
Filters.v
Cel.v
Transformation.v
A2a.v
BufList.v
Copy.v
Parse.v
TraceParent.v
LlmTypes.v
LlmGuard.v
Replay.v
RateLimit.v
AgentXds.v
BindStore.v
BindPolicies.v
BindStaging.v
BindEvents.v
HttpProxy.v
AccessLog.v
HttpHeaders.v
Hbone.v
HboneStream.v
Drain.v
App.v
ConnPool.v
Client.v
Tls.v
CaClient.v
Config.v
Stream.v
HyperClient.v
Connected.v
ProxyMatcher.v
Auth.v
Tunnel.v
RequestBuilder.v
ExtProc.v
Llm.v
PolicyChain.v
OpenApi.v
McpRelay.v
McpServe.v
LocalConfig.v
LocalReload.v
RequestPath.v
TcpProxy.v
Gateway.v
