(* ===== verification/Prelude.v ===== *)
(** Verification of the agentgateway data plane.

    The gateway receives its configuration (binds, listeners, routes, backends,
    policies) and its view of the mesh (workloads, services) over xDS or from a
    local file and keeps both in two stores.  For each request it chooses a listener,
    a route and a backend, runs the policies of the route, and sends the request,
    possibly several times; requests to model providers are translated, and a backend
    of MCP servers is served by a relay.  This development translates these parts of
    [src/crates] into executable definitions and proves what makes them correct.

    * Parts of the program and files of the development

    Foundations:
    - [Prelude] (this file): Rust results ([result]) and panics ([comp]), loops,
      64-bit arithmetic, the iteration orders of hash tables ([HashIter],
      [SetIter]: every theorem about code that iterates over a [HashMap] holds for
      each order), searches in lists, and comparison functions with their laws.
      [BinarySearch] is [binary_search_by] of the Rust library, probe for probe;
      [Strs] are the [str] methods on byte strings; [Json] has JSON values and
      [json.rs]; [Http] models [http/mod.rs] over an interface to the header map of the
      [http] crate ([HeaderMapOps], [HeaderMapLaws], instance [gmap_headers]).
    - [BufList] ([http/buflist.rs]), [Parse] ([parse/*.rs], observed and transformed
      bodies over any codec), [TraceParent] ([telemetry/trc.rs], [telemetry/log.rs]).

    Configuration and its stores:
    - [Xds] models [xds/src/client.rs]: the subscription state, typed handlers
      ([wrapper_handle]), the answers on the stream ([handle_stream_event]),
      demands, the client's loop over a list of events, and the reconnection
      backoff.
    - [DiscoveryTypes] and [IpParse] model [types/discovery.rs] (with the address
      parser of the standard library); [Discovery] models [store/discovery.rs],
      one Module per table ([WorkloadByAddr], [WorkloadStore], [ServiceStore],
      [DiscoveryStore]); [DiscoveryWorkloads] and [DiscoveryServices] hold the
      invariants of the tables; [DiscoverySpec] has the abstract store (workloads
      by uid, services by name, endpoints by service), the simulation between the
      two and the theorems on runs of the xDS handler.
    - [AgentTypes] models the resource types of [types/agent.rs], [RouteSet] its
      route tables and host-name matching, [AgentXds] the conversions of
      [types/agent_xds.rs], [Routing] the listener sets and [http/route.rs].
    - [BindStore] models [store/binds.rs]; [BindPolicies] and [BindStaging] hold
      the theorems on policies and on the staging of what arrives early, [BindEvents] those
      on the events it sends.
    - [Config] models the configuration of the process ([config.rs], [lib.rs]): what each
      variable of the environment and each setting of the file means; [StdText] are the
      parsers of the standard library it uses (integers, booleans, decimal fractions), with
      their errors.
    - [LocalConfig] models the local file ([types/local.rs], [http/backendtls.rs]) and its
      reload ([state_manager.rs]); [LocalReload] has its theorems.

    Connections:
    - [Gateway] models [proxy/gateway.rs]: which binds the gateway listens on as events
      arrive, and how a connection is served; [Drain] the life of one bind ([run_bind]) with
      [core/src/drain.rs] and [core/src/readiness.rs], as an interleaving of its futures;
      [Hbone] the pool of tunnels and the counting of their streams ([hbone/src/*.rs]), as an
      interleaving of requests; [Copy] the copying between two connections
      ([core/src/copy.rs]).
    - [Stream] models a connection with its layers, its extensions and its counts of bytes
      ([transport/stream.rs], the connector of [client/mod.rs] and [client/hyperrustls]);
      [HboneStream] the stream of a tunnel as a reader and a writer, the server's loop and
      the pings ([hbone/src/lib.rs], [hbone/src/server.rs]).
    - [App] models the life of the process: start, readiness, log levels and the end
      ([app.rs], [management/readiness_server.rs], [management/admin.rs], [core/src/signal.rs]).
    - [Tls] models the verification of peers ([transport/tls.rs]); [CaClient] the gateway's
      own certificate and its renewal ([control/caclient.rs], [control/mod.rs]).

    The request path:
    - [Filters] ([http/filters.rs], [http/cors.rs]); [RateLimit]
      ([http/localratelimit.rs], as the sequential code [Ratelimiter] and as threads
      that interleave at the atomic operations, [RatelimiterThreads]); [Replay] (the
      request body that can be sent again, [http/retry/body.rs], a system of clones
      around a shared cell); [HttpHeaders] (the normalisation of requests).
    - [Cel] ([cel/mod.rs], [mcp/rbac.rs]) and [Transformation]
      ([http/transformation_cel.rs]); [Auth] ([http/jwt.rs], [http/auth.rs],
      [http/ext_authz.rs], [http/remoteratelimit.rs]); [ExtProc] ([http/ext_proc.rs], an
      interleaving of the tasks of a message with the processor); [A2a] ([a2a/mod.rs]).
    - [AccessLog] models the end of a request: its record, its span and its line
      ([telemetry/log.rs], [telemetry/trc.rs], [core/src/telemetry.rs]).
    - [HttpProxy] models filters, backends, load balancing and the retry loop of
      [proxy/httpproxy.rs] and [proxy/mod.rs]; [PolicyChain] the policies of a request
      and of its response; [RequestPath] composes everything from the incoming request
      to the answer ([RequestPath.proxy]); [TcpProxy] has the decisions of
      [proxy/tcpproxy.rs].
    - [Client] and [Dns]: the upstream client ([client/mod.rs]) and the resolver's cache
      ([client/dns.rs]) as an interleaving of clients and background tasks; [ConnPool] and
      [HyperClient], the HTTP client behind it
      ([hyper-util-fork/src/client/legacy/pool.rs], [client.rs]): the pool of connections as
      a transition system, and the race for a connection, the form of requests on the wire
      and the repetition of requests that were never sent; [ProxyMatcher] decides which
      proxy a destination goes to ([client/proxy/matcher.rs]) and [Tunnel] makes the tunnel
      through it ([connect/proxy/tunnel.rs]); [Connected] is what the client knows of a
      transport and how a caller sees it ([connect/mod.rs], [connect/capture.rs]), and a
      connection under a drain ([core/src/drain.rs]); [RequestBuilder] models
      [proxy/request_builder.rs].

    Model providers: [LlmTypes] (the messages of [llm/*.rs] and their translations),
    [LlmGuard] ([llm/policy.rs], [llm/pii]), [Llm] ([llm/mod.rs]: setup, token counting,
    streams, charging of limiters).

    The MCP relay: [OpenApi] (API descriptions as tools, [mcp/openapi/mod.rs]),
    [McpRelay] (the relay, its pool and its upstreams, [mcp/relay/*.rs]), [McpServe] (the
    HTTP client of servers, the SSE sessions, the OAuth metadata, [mcp/sse.rs]).

    State is explicit: an operation takes the store and returns the new one.
    Errors are values of [result]; [expect], [unwrap], indexing and slicing out of
    range are [Panic].  Where the code mutates and then fails, the model returns
    the mutated state with the error.  Parts compose as the code composes them: the
    policies of [PolicyChain] come from [BindStore], the limiters they charge are those
    that [Llm] amends, [RequestPath.proxy] calls [Routing], [Filters], [HttpProxy] and
    [Client], and a reload of [LocalConfig] goes through [BindStore.sync_local].

    * What is proved

    - Discovery: the store simulates its specification over every run of
      responses ([discovery_refinement]); no endpoint refers to a missing workload,
      virtual IPs and staged endpoints are consistent ([discovery_consistent]); the
      order of arrival does not matter ([discovery_arrival_order]); the tables by
      uid and by address agree under insertion and removal.
    - Routes: tables stay sorted and complete ([routeset_insert],
      [routeset_remove], [routeset_lookup]); selection finds a best route and
      nothing only when nothing matches ([select_best_route_best]); listeners are
      chosen exactly, then by the longest wildcard ([listener_best_match]); path
      prefixes match by segments ([path_prefix_segments]).
    - xDS client: what a response does ([xds_response]), that it is answered once
      ([xds_answer]), when the client is ready ([xds_ready]).
    - Bind store: the policy index is exact ([policy_index]), policies are chosen
      by precedence ([route_policies_precedence]), binds, listeners and
      routes may arrive in any order ([arrival_order]), and its events say exactly how the
      binds change ([bind_events]).
    - Gateway: from the two sources through the store and its events to the binds it
      listens on, in the multithreaded mode ([gateway_listens]); what is configured with TLS is served over TLS
      ([connection_served]); drains cut off nothing early and end ([bind_drain_graceful],
      [bind_drain_ends]); readiness ([ready_exact]); tunnels are opened one at a time per
      key, without a deadlock of the locks ([hbone_pool_exclusive], [hbone_pool_progress]).
      Copying is exact and ends ([copy_exact], [copy_returns],
      [copy_bidirectional_result]).
      A tunnel delivers the bytes of its frames once and in order ([tunnel_bytes]), its
      halves are the reader and the writer that [Copy] works on ([h2_reader_refines],
      [h2_writer_refines]); connections keep their addresses under any layers
      ([socket_layers]) and count their bytes ([socket_bytes], [upstream_connection]).
    - Process: where each setting comes from, and which variables are never ignored when
      they are invalid ([config_settings], [config_invalid_env], [address_roundtrip]); the
      process is ready only with something to serve, unless its start has failed
      ([boot_ready]), and ends gracefully ([term_graceful], [serve_drains]).
    - Identity: peers are who they say ([tls_peer_verified]), and the gateway shows its own
      identity while the authority works ([ca_identity], [ca_never_expires]).
    - Local file: while the file is followed, which an error of the watcher or a panic of
      the conversion ends, the store holds exactly what the last convertible version says
      ([local_reload]), and a request meets
      exactly the policies written for its rule ([local_route_policies]).
    - Rate limits: the tokens granted are bounded by the rate ([ratelimit_rate]),
      calls do not panic and return ([ratelimit_request],
      [ratelimit_terminates]), and the sequential code is a run of the atomic
      steps ([ratelimit_refines]).
    - Requests: the whole path ([proxy_guarded], [backend_tls_kept],
      [upgrade_forwarded]); the policy chain ([policy_chain_limits],
      [policy_chain_admits], [response_headers_precedence]); hop-by-hop headers
      ([hop_by_hop_headers_forwarded]), header modifiers, prefix rewrites and CORS
      ([header_modifier_apply], [rewrite_path_prefix], [cors_apply]); the target
      of a call to a service of a reachable store ([service_call_target]); bodies
      are replayed exactly ([replay_prefix], [replay_available],
      [replay_ownership]); the retry loop ([send_request_attempts]); the destination of
      a call ([client_call_destination]) and the resolver ([dns_cache],
      [dns_waiter_served]); HTTP/1 connections are exclusive and waiters are not lost
      ([pool_exclusive], [pool_waiters], [pool_connecting_lock]), new connections follow the
      pool's protocol ([hyper_connect_refines]), and requests are sent at most once, in the
      right form ([hyper_at_most_once], [hyper_request_form]); which proxy is used
      ([intercept_from_env], [no_proxy_domains]) and how a tunnel is made through it
      ([tunnel_accepted], [tunnel_credentials]); requests that are built
      ([builder_first_error], [builder_headers], [request_roundtrip]); what is known of a
      transport ([connected_extras], [connected_poison], [capture_metadata],
      [graceful_connection]); TCP connections ([tcp_route_selected]).
    - Bodies: a list of non-empty chunks is a flat buffer ([buflist_flat]); observing or
      transforming a body does not depend on how it is cut into frames
      ([passthrough_transparent], [transform_equivalent]).
    - External processing: the processor gets the message, and its answers are applied
      ([ext_proc_forwards], [ext_proc_result], [ext_proc_completes]). The record of a
      request: [log_outcome], [log_line_exact], [log_registered].
    - Authentication: [jwt_apply], [jwt_passthrough_roundtrip], [ext_authz_outcome];
      expressions and rules: [cel_attributes_cover], [rbac_validate],
      [transformation_apply].
    - Model providers: the two translations to Anthropic models agree
      ([bedrock_anthropic_agree]); tokens are charged exactly
      for complete answers and for streams that are passed through
      ([llm_token_accounting], [llm_stream_accounting]); guards
      ([guard_reject_exact], [guard_mask_last]).
    - MCP: the operations of the relay return what they send beside their result. A listed
      tool can be called and reaches its target, when no target's name has an underscore
      ([relay_listed_tools]); no call sends what the policies do not permit
      ([relay_only_permitted]);
      initialization ([relay_pool_initialize]), sessions ([mcp_sse_sessions]), the
      requests to servers ([mcp_requests_to_backend]) and the metadata
      ([mcp_redirect_url], [mcp_authorization_metadata]); references of API
      descriptions, but for those under [additionalProperties], are resolved exactly when
      the description is finite ([openapi_resolution_terminates]), and tools and their calls say what the
      description says ([openapi_tool_schema], [openapi_path_params]).
    - Some theorems state behaviour that differs from what the code means to do, among
      them: updating a route under its key ([routeset_update_stale]), stale endpoints of
      the local source ([sync_local_stale_endpoint]), dropped waiters ([xds_demand]),
      removals of staged resources ([remove_staged_ignored]), large bodies that are lost
      ([inspect_body_keeps]), unchecked issuers ([jwt_issuer_unchecked]), panics of the
      trace and phone number readers ([traceparent_panics], [phone_recognizer_panics]),
      shared inline backends ([local_backends_shared]), names with the delimiter
      ([relay_delimiter_in_target]), recursive schemas ([openapi_recursive_schema]),
      references that are kept ([openapi_additional_properties]), unencoded arguments ([openapi_arguments_ambiguous]), listeners left behind
      ([gateway_address_stuck]), TLS clients of plain listeners ([connection_panics]), the
      minimum deadline ([bind_drain_minimum]), stalled tunnels ([hbone_pool_stalls]) and the
      count of streams ([hbone_stream_count]), bodies that a processor streams
      ([ext_proc_stalls]), renewals that fail ([ca_failed_renewal]), lines that cannot be
      written ([log_partial_line]), settings that are never read
      ([config_unread_settings]), answers to CONNECT that come in pieces
      ([tunnel_short_read]), a failed start that says it is ready ([boot_failed_ready]) and
      the log levels of modules ([logging_levels]).

    * Bounds and fuel

    The binary search runs with the length of the slice as fuel, which its
    specification shows to be enough.  A call of the rate limiter takes the list
    of the clock readings it will make; [ratelimit_terminates] bounds how many are
    needed.  The retry loop has the number of attempts as fuel, the range it
    iterates over.  The client's loop runs over a finite list of events.  Decoders are
    given the number of bytes they may take.  References of API descriptions take fuel
    because a description can be infinite; [openapi_resolution_terminates] says when
    there is enough.  Integers are [N] or [Z]; where a width matters (tokens and clock
    readings in 64 bits, ports in 16, attempts in 8) the conversion or the wrap-around is
    written out, and theorems that need the absence of overflow say so in a hypothesis.

    * What is not modelled

    Serialization attributes, metrics, tracing and the setup of logging; the system's sockets,
    handshakes and asynchronous scheduling (an asynchronous call is a parameter that gives
    its outcome, or an event of a transition system); cryptography, regular expressions,
    YAML, the CEL interpreter, form decoding and the loops of the MCP library, which are
    libraries and appear as parameters. Of the rest of the source: the dumps and profiles of
    the management server and the static pages (I/O); the fields of the messages of [a2a-sdk],
    which are read by derived code and not looked into; the adapters between hyper and tokio and the setters of
    the client's builder (no logic); the macOS and Windows settings of the proxy matcher (not
    built for the gateway); and the harness of the tests. *)

From Stdlib Require Export Sorting.Sorted Ascii.
From stdpp Require Export base gmap strings sorting numbers list.

#[export] Set Default Goal Selector "!".
#[export] Set Warnings "-clear-no-such-hyp".

(** * Rust results and panics *)

Inductive result (A E : Type) : Type :=
| Ok (a : A)
| Err (e : E).
Arguments Ok {_ _} _.
Arguments Err {_ _} _.

(** Rust's [?] operator. *)
Definition and_then {A B E} (r : result A E) (k : A → result B E) : result B E :=
  match r with Ok a => k a | Err e => Err e end.

Declare Scope rust_scope.
Delimit Scope rust_scope with rust.
Open Scope rust_scope.
Notation "'let?' x := r 'in' k" := (and_then r (λ x, k))
  (at level 10, x pattern, k at level 200,
   format "'let?'  x  :=  r  'in' '//' k") : rust_scope.

Definition map_err {A E F} (f : E → F) (r : result A E) : result A F :=
  match r with Ok a => Ok a | Err e => Err (f e) end.

(** [iter.map(f).collect::<Result<Vec<_>, _>>()]: the first error wins. *)
Fixpoint try_map {A B E} (f : A → result B E) (l : list A) : result (list B) E :=
  match l with
  | [] => Ok []
  | x :: l => let? y := f x in let? ys := try_map f l in Ok (y :: ys)
  end.

Lemma and_then_Ok {A B E} (r : result A E) (k : A → result B E) b :
  and_then r k = Ok b ↔ ∃ a, r = Ok a ∧ k a = Ok b.
Proof. destruct r; simpl; naive_solver. Qed.

Lemma try_map_Ok {A B E} (f : A → result B E) l l' :
  try_map f l = Ok l' ↔ Forall2 (λ x y, f x = Ok y) l l'.
Proof.
  revert l'. induction l as [|x l IH]; intros l'; simpl.
  - split; [by intros [= <-]|]. by inversion 1.
  - rewrite and_then_Ok. setoid_rewrite and_then_Ok. setoid_rewrite IH. split.
    + intros (y & ? & ys & ? & [= <-]). by constructor.
    + inversion 1; subst. eauto.
Qed.

Definition is_ok {A E} (r : result A E) : bool :=
  match r with Ok _ => true | Err _ => false end.

Definition ok {A E} (r : result A E) : option A :=
  match r with Ok a => Some a | Err _ => None end.

Definition ok_or {A E} (o : option A) (e : E) : result A E :=
  match o with Some a => Ok a | None => Err e end.

(** A computation that may panic ([expect], [unwrap], indexing out of range,
    arithmetic overflow in a checked build). *)
Inductive comp (A : Type) : Type :=
| Ret (a : A)
| Panic.
Arguments Ret {_} _.
Arguments Panic {_}.

#[export] Instance comp_mret : MRet comp := λ A a, Ret a.
#[export] Instance comp_mbind : MBind comp := λ A B k c,
  match c with Ret a => k a | Panic => Panic end.
#[export] Instance comp_fmap : FMap comp := λ A B f c,
  match c with Ret a => Ret (f a) | Panic => Panic end.

Definition expect {A} (o : option A) : comp A :=
  match o with Some a => Ret a | None => Panic end.

(** [for x in l { s = f(s, x) }] where a step may panic. *)
Fixpoint foldM {A S} (f : S → A → comp S) (l : list A) (s : S) : comp S :=
  match l with
  | [] => Ret s
  | x :: l => s' ← f s x; foldM f l s'
  end.

Lemma comp_bind_Ret {A B} (c : comp A) (k : A → comp B) b :
  (c ≫= k) = Ret b ↔ ∃ a, c = Ret a ∧ k a = Ret b.
Proof. destruct c; simpl; split; [eauto| naive_solver | done | naive_solver]. Qed.

Lemma comp_bind_ret_l {A B} (a : A) (k : A → comp B) : (Ret a ≫= k) = k a.
Proof. done. Qed.

(** An invariant established by every step of a loop holds at its end, and
    the loop does not panic. *)
Lemma foldM_inv {A S} (f : S → A → comp S) (I : list A → S → Prop) l s :
  I [] s →
  (∀ done x s, x ∈ l → I done s → ∃ s', f s x = Ret s' ∧ I (done ++ [x]) s') →
  ∃ s', foldM f l s = Ret s' ∧ I l s'.
Proof.
  intros H0 Hstep.
  cut (∀ rest d s, (∀ x, x ∈ rest → x ∈ l) → I d s →
         ∃ s', foldM f rest s = Ret s' ∧ I (d ++ rest) s').
  { intros Hc. apply (Hc l [] s); auto. }
  clear s H0. induction rest as [|x rest IH]; intros d s Hsub Hd; simpl.
  - exists s. by rewrite app_nil_r.
  - destruct (Hstep d x s) as (s' & -> & Hs'); [set_solver|done|]. simpl.
    destruct (IH (d ++ [x]) s') as (s'' & -> & Hs''); [set_solver|done|].
    exists s''. split; [done|]. by rewrite <-app_assoc in Hs''.
Qed.

(** * Fixed-width integers *)

Definition u16_max : Z := 2 ^ 16 - 1.
Definition u32_max : Z := 2 ^ 32 - 1.
Definition u64_max : Z := 2 ^ 64 - 1.
Definition wrap64 (z : Z) : Z := z mod 2 ^ 64.
Definition saturating_add64 (a b : Z) : Z := Z.min u64_max (a + b).
Definition saturating_sub64 (a b : Z) : Z := Z.max 0 (a - b).

Lemma elem_of_concat {A} (ls : list (list A)) x : x ∈ concat ls ↔ ∃ l, x ∈ l ∧ l ∈ ls.
Proof. induction ls as [|l ls IH]; csimpl; [set_solver|]. rewrite elem_of_app, IH. set_solver. Qed.

(** * Iteration over hash tables

    [std::collections::HashMap] iterates in an order that depends on a
    per-process random seed.  A [HashIter] is one such order; every theorem
    about code that iterates over a table holds for each of them. *)
Class HashIter (K V : Type) `{Countable K} := {
  hm_iter : gmap K V → list (K * V);
  hm_iter_perm : ∀ m, hm_iter m ≡ₚ map_to_list m
}.

Definition hm_iter_default `{Countable K} {V} : HashIter K V :=
  {| hm_iter := map_to_list; hm_iter_perm := λ m, Permutation_refl _ |}.

Definition hm_values `{HashIter K V} (m : gmap K V) : list V := (hm_iter m).*2.

Lemma elem_of_hm_iter `{HashIter K V} (m : gmap K V) k v :
  (k, v) ∈ hm_iter m ↔ m !! k = Some v.
Proof. rewrite hm_iter_perm. apply elem_of_map_to_list. Qed.

Lemma elem_of_hm_values `{HashIter K V} (m : gmap K V) v :
  v ∈ hm_values m ↔ ∃ k, m !! k = Some v.
Proof.
  unfold hm_values. rewrite list_elem_of_fmap. split.
  - intros [[k v'] [-> Hin]]. exists k. by apply elem_of_hm_iter.
  - intros [k Hk]. exists (k, v). by rewrite elem_of_hm_iter.
Qed.

Lemma NoDup_hm_iter `{HashIter K V} (m : gmap K V) : NoDup (hm_iter m).*1.
Proof. rewrite (fmap_Permutation fst _ _ (hm_iter_perm m)). apply NoDup_fst_map_to_list. Qed.

Lemma list_to_map_hm_iter `{HashIter K V} (m : gmap K V) : list_to_map (hm_iter m) = m.
Proof.
  apply map_eq. intros k. apply option_eq. intros v.
  rewrite <-elem_of_list_to_map by apply NoDup_hm_iter. apply elem_of_hm_iter.
Qed.

Lemma hm_iter_empty `{HashIter K V} : hm_iter (∅ : gmap K V) = [].
Proof. apply Permutation_nil_r. by rewrite hm_iter_perm, map_to_list_empty. Qed.

Lemma hm_iter_singleton `{HashIter K V} k v : hm_iter ({[k := v]} : gmap K V) = [(k, v)].
Proof. apply Permutation_singleton_r. by rewrite hm_iter_perm, map_to_list_singleton. Qed.

Lemma size_one_inv `{Countable K} {V} (m : gmap K V) : size m = 1 → ∃ k v, m = {[k := v]}.
Proof.
  intros Hm. destruct (map_size_ne_0_lookup_1 m) as (k & v & Hk); [lia|]. exists k, v.
  rewrite <-(insert_delete_id m k v Hk). rewrite (map_size_empty_inv (delete k m)); [done|].
  rewrite map_size_delete_Some by eauto. lia.
Qed.

(** The iteration orders of sets. *)
Class SetIter (K : Type) `{Countable K} := {
  hs_iter : gset K → list K;
  hs_iter_perm : ∀ s, hs_iter s ≡ₚ elements s
}.

Definition hs_iter_default `{Countable K} : SetIter K :=
  {| hs_iter := elements; hs_iter_perm := λ s, Permutation_refl _ |}.

Lemma elem_of_hs_iter `{SetIter K} (s : gset K) k : k ∈ hs_iter s ↔ k ∈ s.
Proof. rewrite hs_iter_perm. apply elem_of_elements. Qed.

(** * [Iterator::find], [find_map], [Vec::insert], [Vec::retain] *)

Fixpoint find {A} (p : A → bool) (l : list A) : option A :=
  match l with
  | [] => None
  | x :: l => if p x then Some x else find p l
  end.

Fixpoint find_map {A B} (f : A → option B) (l : list A) : option B :=
  match l with
  | [] => None
  | x :: l => match f x with Some b => Some b | None => find_map f l end
  end.

(** [Vec::insert] panics when the index is past the end. *)
Definition vec_insert {A} (k : nat) (x : A) (l : list A) : comp (list A) :=
  if decide (k ≤ length l) then Ret (take k l ++ x :: drop k l) else Panic.

Lemma find_Some {A} (p : A → bool) l x :
  find p l = Some x →
  ∃ l1 l2, l = l1 ++ x :: l2 ∧ p x = true ∧ Forall (λ y, p y = false) l1.
Proof.
  induction l as [|y l IH]; simpl; [done|].
  destruct (p y) eqn:Hp; intros; simplify_eq.
  - by exists [], l.
  - destruct IH as (l1 & l2 & -> & ? & ?); [done|].
    exists (y :: l1), l2. by repeat constructor.
Qed.

Lemma find_Some_elem {A} (p : A → bool) l x :
  find p l = Some x → x ∈ l ∧ p x = true.
Proof. intros (l1 & l2 & -> & ? & ?)%find_Some. set_solver. Qed.

Lemma find_None {A} (p : A → bool) l :
  find p l = None ↔ ∀ x, x ∈ l → p x = false.
Proof.
  rewrite <-(Forall_forall (λ x, p x = false)).
  induction l as [|y l IH]; simpl; [by split; auto|].
  rewrite Forall_cons, <-IH. destruct (p y); naive_solver.
Qed.

Lemma find_map_Some {A B} (f : A → option B) l b :
  find_map f l = Some b →
  ∃ l1 x l2, l = l1 ++ x :: l2 ∧ f x = Some b ∧ Forall (λ y, f y = None) l1.
Proof.
  induction l as [|y l IH]; simpl; [done|].
  destruct (f y) eqn:Hf; intros; simplify_eq.
  - by exists [], y, l.
  - destruct IH as (l1 & x & l2 & -> & ? & ?); [done|].
    exists (y :: l1), x, l2. by repeat constructor.
Qed.

Lemma find_map_None {A B} (f : A → option B) l :
  find_map f l = None ↔ ∀ x, x ∈ l → f x = None.
Proof.
  rewrite <-(Forall_forall (λ x, f x = None)).
  induction l as [|y l IH]; simpl; [by split; auto|].
  rewrite Forall_cons, <-IH. destruct (f y); naive_solver.
Qed.

Lemma find_map_app {A B} (f : A → option B) l1 l2 :
  find_map f (l1 ++ l2) =
  match find_map f l1 with Some b => Some b | None => find_map f l2 end.
Proof. induction l1 as [|x l1 IH]; simpl; [done|]. by destruct (f x). Qed.

(** Induction on the length of a list. *)
Lemma length_ind {A} (P : list A → Prop) :
  (∀ l, (∀ l', length l' < length l → P l') → P l) → ∀ l, P l.
Proof.
  intros Hstep l. cut (∀ n l, length l < n → P l); [eauto|]. clear l.
  induction n as [|n IH]; intros l Hn; [lia|]. apply Hstep. intros l' Hl'. apply IH. lia.
Qed.

(** * Comparators *)

(** A comparator that is a total preorder. *)
Class TotalCmp {A} (c : A → A → comparison) : Prop := {
  cmp_opp : ∀ x y, c y x = CompOpp (c x y);
  cmp_trans : ∀ x y z, c x y ≠ Gt → c y z ≠ Gt → c x z ≠ Gt
}.

Arguments cmp_opp {A} c {_} _ _.
Arguments cmp_trans {A} c {_} _ _ _ _ _.

Definition cmp_le {A} (c : A → A → comparison) (x y : A) : Prop := c x y ≠ Gt.

Definition lex_cmp {A} (c1 c2 : A → A → comparison) (x y : A) : comparison :=
  match c1 x y with Eq => c2 x y | r => r end.

Definition rev_cmp {A} (c : A → A → comparison) (x y : A) : comparison :=
  CompOpp (c x y).

Definition on_cmp {A B} (f : A → B) (c : B → B → comparison) (x y : A) : comparison :=
  c (f x) (f y).

Section total_cmp.
Context {A : Type} (c : A → A → comparison) `{!TotalCmp c}.

Lemma cmp_refl x : c x x = Eq.
Proof. pose proof (cmp_opp c x x) as H. by destruct (c x x). Qed.

Lemma cmp_gt_lt x y : c x y = Gt ↔ c y x = Lt.
Proof. rewrite (cmp_opp c x y). by destruct (c x y). Qed.

Lemma cmp_eq_sym x y : c x y = Eq ↔ c y x = Eq.
Proof. rewrite (cmp_opp c x y). by destruct (c x y). Qed.

Lemma cmp_total x y : cmp_le c x y ∨ cmp_le c y x.
Proof. unfold cmp_le. rewrite (cmp_opp c x y). destruct (c x y); auto. Qed.

Lemma cmp_lt_le_trans x y z : c x y = Lt → c y z ≠ Gt → c x z = Lt.
Proof.
  intros Hxy Hyz. destruct (c x z) eqn:Hxz; [|done|].
  - exfalso. apply (cmp_trans c y z x Hyz).
    + rewrite (cmp_opp c x z), Hxz. done.
    + by apply cmp_gt_lt.
  - exfalso. apply (cmp_trans c x y z); [by rewrite Hxy|done|done].
Qed.

Lemma cmp_le_lt_trans x y z : c x y ≠ Gt → c y z = Lt → c x z = Lt.
Proof.
  intros Hxy Hyz. destruct (c x z) eqn:Hxz; [|done|].
  - exfalso. apply (cmp_trans c z x y).
    + rewrite (cmp_opp c x z), Hxz. done.
    + done.
    + by apply cmp_gt_lt.
  - exfalso. apply (cmp_trans c x y z); [done|by rewrite Hyz|done].
Qed.

Lemma cmp_eq_trans x y z : c x y = Eq → c y z = Eq → c x z = Eq.
Proof.
  intros Hxy Hyz. pose proof (cmp_opp c x z) as Ho.
  assert (c x z ≠ Gt) by (apply (cmp_trans c x y z); congruence).
  assert (c z x ≠ Gt).
  { apply (cmp_trans c z y x); [apply cmp_eq_sym in Hyz|apply cmp_eq_sym in Hxy];
      congruence. }
  destruct (c x z); naive_solver.
Qed.
End total_cmp.

#[export] Instance lex_cmp_total {A} (c1 c2 : A → A → comparison)
  `{!TotalCmp c1, !TotalCmp c2} : TotalCmp (lex_cmp c1 c2).
Proof.
  split; unfold lex_cmp.
  - intros x y. rewrite (cmp_opp c1 x y), (cmp_opp c2 x y). by destruct (c1 x y).
  - intros x y z Hxy Hyz.
    destruct (c1 x y) eqn:H1; [|clear Hxy|done].
    + destruct (c1 y z) eqn:H2; [|clear Hyz|done].
      * rewrite (cmp_eq_trans c1 x y z) by done. by apply (cmp_trans c2 x y z).
      * rewrite (cmp_le_lt_trans c1 x y z); [done|congruence|done].
    + rewrite (cmp_lt_le_trans c1 x y z); [done|done|].
      destruct (c1 y z); done.
Qed.

#[export] Instance rev_cmp_total {A} (c : A → A → comparison) `{!TotalCmp c} :
  TotalCmp (rev_cmp c).
Proof.
  split; unfold rev_cmp.
  - intros x y. by rewrite (cmp_opp c x y).
  - intros x y z. rewrite <-!(cmp_opp c). intros. by apply (cmp_trans c z y x).
Qed.

#[export] Instance on_cmp_total {A B} (f : A → B) (c : B → B → comparison)
  `{!TotalCmp c} : TotalCmp (on_cmp f c).
Proof. split; unfold on_cmp; intros; [apply (cmp_opp c)|by eapply (cmp_trans c)]. Qed.

#[export] Instance nat_cmp_total : TotalCmp Nat.compare.
Proof.
  split.
  - intros x y. apply Nat.compare_antisym.
  - intros x y z. rewrite !Nat.compare_le_iff. lia.
Qed.

#[export] Instance Z_cmp_total : TotalCmp Z.compare.
Proof.
  split.
  - intros x y. apply Z.compare_antisym.
  - intros x y z H1 H2. change (x ≤ z)%Z. change (x ≤ y)%Z in H1.
    change (y ≤ z)%Z in H2. lia.
Qed.

(** [bool::cmp]: [false < true]. *)
Definition bool_cmp (a b : bool) : comparison :=
  match a, b with
  | false, true => Lt
  | true, false => Gt
  | _, _ => Eq
  end.

#[export] Instance bool_cmp_total : TotalCmp bool_cmp.
Proof. split; [by intros [] []|by intros [] [] []]. Qed.

(** [str::cmp] is lexicographic on bytes. *)
#[export] Instance string_cmp_total : TotalCmp String.compare.
Proof.
  split.
  - intros x y. apply String.compare_antisym.
  - intros x y z.
    assert (∀ a b, String.compare a b ≠ Gt ↔ String.le a b) as Hle.
    { intros a b. unfold String.le, String.leb.
      destruct (String.compare a b); naive_solver. }
    rewrite !Hle. by etrans.
Qed.

(** * Sorted lists *)

Lemma StronglySorted_impl_in {A} (R1 R2 : A → A → Prop) l :
  (∀ x y, x ∈ l → y ∈ l → R1 x y → R2 x y) → StronglySorted R1 l → StronglySorted R2 l.
Proof.
  induction l as [|a l IH]; intros Himp Hs; [constructor|].
  apply StronglySorted_cons in Hs as [Ha Hs]. constructor.
  - apply IH; [set_solver|done].
  - rewrite Forall_forall in *. set_solver.
Qed.

Lemma StronglySorted_filter {A} (R : A → A → Prop) (P : A → Prop) `{∀ x, Decision (P x)} l :
  StronglySorted R l → StronglySorted R (filter P l).
Proof.
  induction l as [|a l IH]; intros Hs; [done|].
  apply StronglySorted_cons in Hs as [Ha Hs]. rewrite filter_cons.
  case_decide; [|auto]. constructor; [auto|].
  apply Forall_forall. intros x [_ Hx]%list_elem_of_filter.
  rewrite Forall_forall in Ha. auto.
Qed.

(** * Replacing the contents of a table *)

Lemma foldl_delete_lookup `{Countable K} {V} (ks : list K) (m : gmap K V) a :
  foldl (λ m k, delete k m) m ks !! a = if decide (a ∈ ks) then None else m !! a.
Proof.
  revert m. induction ks as [|k ks IH]; intros m; cbn [foldl].
  - rewrite decide_False; [done|set_solver].
  - rewrite IH, lookup_delete. repeat case_decide; set_solver.
Qed.

Section tables.
Context {A : Type} (name : A → string).

(** The table after the items are inserted in order. *)
Definition load_map (l : list A) (m : gmap string A) : gmap string A :=
  foldl (λ m x, <[name x := x]> m) m l.

Lemma load_map_app l1 l2 m : load_map (l1 ++ l2) m = load_map l2 (load_map l1 m).
Proof. apply foldl_app. Qed.

Lemma load_map_other l m k : k ∉ name <$> l → load_map l m !! k = m !! k.
Proof.
  revert m. induction l as [|x l IH]; intros m Hk; simpl; [done|].
  rewrite IH by set_solver. apply lookup_insert_ne. set_solver.
Qed.

Lemma load_map_same l m1 m2 k : k ∈ name <$> l → load_map l m1 !! k = load_map l m2 !! k.
Proof.
  revert m1 m2. induction l as [|x l IH]; intros m1 m2 Hk; simpl; [set_solver|].
  destruct (decide (k ∈ name <$> l)) as [Hin|Hin]; [by apply IH|].
  assert (k = name x) as -> by set_solver. by rewrite !load_map_other, !lookup_insert_eq.
Qed.

Lemma load_map_elem l m x : NoDup (name <$> l) → x ∈ l → load_map l m !! name x = Some x.
Proof.
  revert m. induction l as [|y l IH]; intros m Hnd Hx; simpl; [set_solver|].
  apply NoDup_cons in Hnd as [Hy Hnd]. apply list_elem_of_In in Hx as [->|Hx].
  - by rewrite load_map_other, lookup_insert_eq.
  - apply IH; [done|]. by apply list_elem_of_In.
Qed.

Lemma load_map_Some l k x : load_map l ∅ !! k = Some x → name x = k ∧ x ∈ l.
Proof.
  cut (∀ m, load_map l m !! k = Some x → m !! k = Some x ∨ name x = k ∧ x ∈ l).
  { intros Hc [H|H]%Hc; [by rewrite lookup_empty in H|done]. }
  induction l as [|y l IH]; intros m; simpl; [auto|].
  intros [H|[? ?]]%IH; [|set_solver]. apply lookup_insert_Some in H as [[<- <-]|[_ ?]]; set_solver.
Qed.

Lemma dom_load_map l : dom (load_map l ∅) ⊆ list_to_set (name <$> l).
Proof.
  intros k [x Hx]%elem_of_dom. apply load_map_Some in Hx as [<- Hx].
  apply elem_of_list_to_set. by apply list_elem_of_fmap_2.
Qed.

Lemma foldl_difference (s : gset string) l :
  foldl (λ o x, o ∖ {[name x]}) s l = s ∖ list_to_set (name <$> l).
Proof. revert s. induction l as [|x l IH]; intros s; csimpl; [set_solver|]. rewrite IH. set_solver. Qed.

(** Inserting the new items and deleting the old names that they do not use
    replaces the table. *)
Lemma replace_table `{!SetIter string} (old : gset string) l m :
  dom m ⊆ old →
  foldl (λ m k, delete k m) (load_map l m) (hs_iter (foldl (λ o x, o ∖ {[name x]}) old l)) = load_map l ∅.
Proof.
  intros Hdom. apply map_eq. intros k. rewrite foldl_delete_lookup, foldl_difference.
  destruct (decide (k ∈ name <$> l)) as [Hk|Hk].
  - rewrite decide_False by (rewrite elem_of_hs_iter; set_solver). by apply load_map_same.
  - rewrite (load_map_other l ∅) by done. rewrite lookup_empty.
    case_decide as Hd; [done|]. rewrite load_map_other by done.
    apply not_elem_of_dom. intros Hin. apply Hd. rewrite elem_of_hs_iter. set_solver.
Qed.
End tables.
