(* ===== verification/BinarySearch.v ===== *)
(** BinarySearch: [<[T]>::binary_search_by] of the Rust standard library (the
    branch-free version of Rust 1.88, the toolchain of [rust-toolchain.toml]),
    with a comparator that may panic, and the sorted insertion
    [v.insert(v.binary_search_by(..).unwrap_or_else(|pos| pos), x)] that the
    route tables are built with. *)
From S2P Require Import Prelude.

(** The loop [while size > 1 { .. }]. [fuel] bounds the iterations; [size]
    shrinks in each, so [length l] is always enough ([bs_loop_spec]). *)
Fixpoint bs_loop {A} (f : A → comp comparison) (l : list A) (fuel base size : nat)
    : comp nat :=
  match fuel with
  | O => Ret base
  | S fuel =>
    if decide (1 < size) then
      let half := Nat.div2 size in
      let mid := base + half in
      x ← expect (l !! mid);
      c ← f x;
      bs_loop f l fuel (match c with Gt => base | _ => mid end) (size - half)
    else Ret base
  end.

Definition binary_search_by {A} (f : A → comp comparison) (l : list A)
    : comp (result nat nat) :=
  match l with
  | [] => Ret (Err 0)
  | _ =>
    base ← bs_loop f l (length l) 0 (length l);
    x ← expect (l !! base);
    c ← f x;
    match c with
    | Eq => Ret (Ok base)
    | Lt => Ret (Err (S base))
    | Gt => Ret (Err base)
    end
  end.

(** [Result::unwrap_or_else(|pos| pos)] on a search result. *)
Definition search_pos (r : result nat nat) : nat :=
  match r with Ok k => k | Err k => k end.

Section spec.
Context {A : Type} (f : A → comp comparison) (g : A → comparison) (l : list A).
Context (Hf : ∀ x, x ∈ l → f x = Ret (g x)).

(** All [Less] elements come first, then the [Equal] ones, then the [Greater]
    ones: what a caller of [binary_search_by] has to provide. *)
Definition partitioned : Prop :=
  ∀ i j x y, i < j → l !! i = Some x → l !! j = Some y →
    (g x = Gt → g y = Gt) ∧ (g y = Lt → g x = Lt).

Context (Hp : partitioned).

(** [k] splits [l] at the searched place. *)
Definition split_point (k : nat) : Prop :=
  k ≤ length l ∧
  (∀ i x, i < k → l !! i = Some x → g x ≠ Gt) ∧
  (∀ i x, k ≤ i → l !! i = Some x → g x ≠ Lt).

Lemma lookup_step i :
  i < length l → ∃ x, l !! i = Some x ∧ f x = Ret (g x).
Proof.
  intros [x Hx]%lookup_lt_is_Some_2. exists x. split; [done|].
  apply Hf. by eapply list_elem_of_lookup_2.
Qed.

Lemma bs_loop_spec fuel base size :
  size ≤ fuel → 0 < size → base + size ≤ length l →
  (∀ x, l !! base = Some x → base = 0 ∨ g x ≠ Gt) →
  (∀ x, l !! (base + size) = Some x → g x = Gt) →
  ∃ b, bs_loop f l fuel base size = Ret b ∧ b < length l ∧
    (∀ x, l !! b = Some x → b = 0 ∨ g x ≠ Gt) ∧
    (∀ x, l !! (S b) = Some x → g x = Gt).
Proof.
  revert base size. induction fuel as [|fuel IH]; intros base size ??? Hlo Hhi; [lia|].
  simpl. case_decide as Hs.
  - pose proof (Nat.div2_odd size) as Hd.
    assert (0 < Nat.div2 size < size ∧ Nat.div2 size ≤ size - Nat.div2 size) as [??].
    { destruct (Nat.odd size); simpl in Hd; lia. }
    destruct (lookup_step (base + Nat.div2 size)) as (x & Hl & Hx); [lia|].
    rewrite Hl. simpl. rewrite Hx. simpl.
    assert (base + Nat.div2 size + (size - Nat.div2 size) = base + size) as Heq by lia.
    destruct (g x) eqn:Hgx; (apply IH; [lia|lia|lia| |]).
    + intros y Hy. right. congruence.
    + by rewrite Heq.
    + intros y Hy. right. congruence.
    + by rewrite Heq.
    + done.
    + intros y Hy.
      destruct (decide (size - Nat.div2 size = Nat.div2 size)) as [He|];
        [rewrite He in Hy; congruence|].
      destruct (Hp (base + Nat.div2 size) (base + (size - Nat.div2 size)) x y);
        [lia|done..|auto].
  - exists base. assert (size = 1) as -> by lia.
    rewrite Nat.add_1_r in Hhi. split_and!; [done|lia|done|done].
Qed.

Lemma binary_search_by_spec :
  ∃ r, binary_search_by f l = Ret r ∧ split_point (search_pos r) ∧
    match r with
    | Ok k => ∃ x, l !! k = Some x ∧ g x = Eq
    | Err k => ∀ x, x ∈ l → g x ≠ Eq
    end.
Proof.
  unfold binary_search_by. destruct (decide (l = [])) as [Hnil|Hne].
  { rewrite Hnil. exists (Err 0). unfold split_point. rewrite Hnil. simpl.
    split_and!; [done|lia| |done|set_solver]. intros; lia. }
  destruct (bs_loop_spec (length l) 0 (length l)) as (b & Hb & Hlt & Hlo & Hhi);
    [lia|destruct l; simpl; [done|lia]|lia|auto| |].
  { intros x Hx%lookup_lt_Some. simpl in Hx. lia. }
  destruct (lookup_step b Hlt) as (x & Hx & Hfx).
  exists (match g x with Eq => Ok b | Lt => Err (S b) | Gt => Err b end).
  split.
  { destruct l as [|a l'] eqn:El; [done|]. rewrite <-El in *.
    rewrite Hb. simpl. rewrite Hx. simpl. rewrite Hfx. simpl. by destruct (g x). }
  specialize (Hlo x Hx).
  assert (∀ i y, i < b → l !! i = Some y → g y ≠ Gt) as Hbefore.
  { intros i y Hi Hy. destruct (Hp i b y x Hi Hy Hx). naive_solver lia. }
  assert (∀ i y, b < i → l !! i = Some y → g y = Gt) as Hafter.
  { intros i y Hi Hy. destruct (decide (i = S b)) as [->|]; [by apply Hhi|].
    destruct (lookup_step (S b)) as (z & Hz & _).
    { apply lookup_lt_Some in Hy. lia. }
    destruct (Hp (S b) i z y) as [? _]; [lia|done|done|]. auto. }
  assert (∀ i y, l !! i = Some y → i < b ∨ (i = b ∧ y = x) ∨ b < i) as Hcase.
  { intros i y Hy. destruct (decide (i = b)) as [->|]; [|lia]. naive_solver. }
  destruct (g x) eqn:Hg; simpl; (split; [split_and!|]); try lia.
  - intros i y ? Hy. naive_solver.
  - intros i y ? Hy. destruct (Hcase i y Hy) as [?|[[-> ->]|?]]; [lia|congruence|].
    by rewrite (Hafter i y).
  - eauto.
  - intros i y ? Hy. destruct (Hcase i y Hy) as [?|[[-> ->]|?]]; [naive_solver|congruence|lia].
  - intros i y ? Hy. by rewrite (Hafter i y) by (lia || done).
  - intros y [i Hy]%list_elem_of_lookup.
    destruct (Hcase i y Hy) as [?|[[-> ->]|?]]; [|congruence|by rewrite (Hafter i y)].
    destruct (Hp i b y x) as [_ Hlt']; [done..|]. rewrite Hlt' by done. done.
  - intros i y ? Hy. naive_solver.
  - intros i y ? Hy. destruct (Hcase i y Hy) as [?|[[-> ->]|?]]; [lia|congruence|].
    by rewrite (Hafter i y).
  - intros y [i Hy]%list_elem_of_lookup.
    destruct (Hcase i y Hy) as [?|[[-> ->]|?]]; [|congruence|by rewrite (Hafter i y)].
    destruct Hlo as [->|?]; [lia|done].
Qed.
End spec.

(** Inserting a new element at its split point keeps a list sorted. *)
Lemma insert_at_split_sorted {A} (c : A → A → comparison) `{!TotalCmp c} l k x :
  StronglySorted (cmp_le c) l →
  split_point (λ y, CompOpp (c x y)) l k →
  StronglySorted (cmp_le c) (take k l ++ x :: drop k l).
Proof.
  intros Hs (Hk & Hlo & Hhi).
  rewrite <-(take_drop k l) in Hs.
  apply StronglySorted_app in Hs as (Hcross & Htake & Hdrop).
  assert (∀ y, y ∈ take k l → cmp_le c y x) as Hl.
  { intros y [i [Hi Hik]%lookup_take_Some]%list_elem_of_lookup.
    unfold cmp_le. rewrite (cmp_opp c x y). eauto. }
  assert (∀ y, y ∈ drop k l → cmp_le c x y) as Hr.
  { intros y [i Hi]%list_elem_of_lookup. rewrite lookup_drop in Hi.
    specialize (Hhi (k + i) y ltac:(lia) Hi). unfold cmp_le.
    by destruct (c x y). }
  apply StronglySorted_app_2.
  - intros y z Hy [->|Hz]%elem_of_cons; auto.
  - done.
  - constructor; [done|]. by apply Forall_forall.
Qed.

(** A list sorted by [c] is partitioned by the comparison with any [x]. *)
Lemma sorted_partitioned {A} (c : A → A → comparison) `{!TotalCmp c} l x :
  StronglySorted (cmp_le c) l → partitioned (λ y, CompOpp (c x y)) l.
Proof.
  intros Hs i j y z Hij Hy Hz.
  assert (cmp_le c y z) as Hyz.
  { rewrite <-(take_drop (S i) l) in Hs.
    eapply (StronglySorted_app_1_elem_of _ _ _ y z Hs).
    - apply list_elem_of_lookup. exists i. rewrite lookup_take_lt; [done|lia].
    - apply list_elem_of_lookup. exists (j - S i). rewrite lookup_drop.
      by replace (S i + (j - S i)) with j by lia. }
  unfold cmp_le in *.
  split; intros Hg.
  - assert (c x y = Lt) as Hxy by (by destruct (c x y)).
    by rewrite (cmp_lt_le_trans c x y z).
  - assert (c z x = Lt) as Hzx by (rewrite (cmp_opp c x z); by destruct (c x z)).
    rewrite <-(cmp_opp c). by rewrite (cmp_le_lt_trans c y z x).
Qed.
