(* ===== verification/Strs.v ===== *)
(** Strs: the [str] methods of the Rust standard library the gateway uses, on
    byte strings (a Rust [&str] is its UTF-8 bytes; every separator the gateway
    searches for is ASCII, so searching bytes and searching chars agree). *)
From S2P Require Import Prelude.
From stdpp Require Import pretty.

Create HintDb str.

Module Str.

Definition len (s : string) : nat := String.length s.
Definition is_empty (s : string) : bool := match s with "" => true | _ => false end.
Definition eqb (a b : string) : bool := bool_decide (a = b).

(** [s.strip_prefix(p)] *)
Fixpoint strip_prefix (p s : string) : option string :=
  match p, s with
  | "", _ => Some s
  | String a p, String b s => if decide (a = b) then strip_prefix p s else None
  | _, "" => None
  end.

Definition starts_with (p s : string) : bool :=
  match strip_prefix p s with Some _ => true | None => false end.

(** [s.ends_with(t)] *)
Fixpoint ends_with (t s : string) : bool :=
  eqb s t || match s with "" => false | String _ s => ends_with t s end.

(** [&s[n..]], a panic past the end. *)
Fixpoint skip (n : nat) (s : string) : comp string :=
  match n, s with
  | O, _ => Ret s
  | S n, String _ s => skip n s
  | S _, "" => Panic
  end.

(** [s.split_at(n)], a panic past the end. *)
Fixpoint split_at (n : nat) (s : string) : comp (string * string) :=
  match n, s with
  | O, _ => Ret ("", s)
  | S n, String a s => '(l, r) ← split_at n s; Ret (String a l, r)
  | S _, "" => Panic
  end.

(** [s.split(c)]: never empty. *)
Fixpoint split (c : ascii) (s : string) : list string :=
  match s with
  | "" => [""]
  | String a s =>
    if decide (a = c) then "" :: split c s
    else match split c s with
         | h :: t => String a h :: t
         | [] => [String a ""]
         end
  end.

(** [parts.join(sep)] for a one-character separator. *)
Fixpoint join (c : ascii) (l : list string) : string :=
  match l with
  | [] => ""
  | [x] => x
  | x :: l => x +:+ String c (join c l)
  end.

(** [s.split_once(c)]: around the first occurrence. *)
Fixpoint split_once (c : ascii) (s : string) : option (string * string) :=
  match s with
  | "" => None
  | String a s =>
    if decide (a = c) then Some ("", s)
    else '(l, r) ← split_once c s; Some (String a l, r)
  end.

(** [s.find(c)] *)
Fixpoint find_char (c : ascii) (s : string) : option nat :=
  match s with
  | "" => None
  | String a s => if decide (a = c) then Some 0 else S <$> find_char c s
  end.

Definition contains_char (c : ascii) (s : string) : bool :=
  match find_char c s with Some _ => true | None => false end.

(** [s.contains(t)] for a string pattern. *)
Fixpoint contains (t s : string) : bool :=
  starts_with t s || match s with "" => false | String _ s => contains t s end.

(** [s.trim_end_matches(c)] *)
Fixpoint trim_end_matches (c : ascii) (s : string) : string :=
  match s with
  | "" => ""
  | String a s =>
    match trim_end_matches c s with
    | "" => if decide (a = c) then "" else String a ""
    | t => String a t
    end
  end.

(** [strip_suffix] *)
Fixpoint strip_suffix (t s : string) : option string :=
  if eqb t s then Some ""
  else match s with "" => None | String a s => String a <$> strip_suffix t s end.

(** [replace(t, r)] for a non-empty [t]: the occurrences are found from the left
    and do not overlap; [skip] bytes of the last one are still to be passed. *)
Fixpoint replace_from (skip : nat) (t r s : string) : string :=
  match s with
  | "" => ""
  | String a s' =>
    match skip with
    | S skip => replace_from skip t r s'
    | O => if starts_with t s then r +:+ replace_from (len t - 1) t r s'
           else String a (replace_from 0 t r s')
    end
  end.

Definition replace (t r s : string) : string := replace_from 0 t r s.

Fixpoint forallb (p : ascii → bool) (s : string) : bool :=
  match s with "" => true | String a s => p a && forallb p s end.

Definition byte (a : ascii) : N := N_of_ascii a.

Definition to_ascii_lowercase_char (a : ascii) : ascii :=
  if bool_decide (65 ≤ byte a ≤ 90)%N then ascii_of_N (byte a + 32) else a.

Fixpoint to_ascii_lowercase (s : string) : string :=
  match s with
  | "" => ""
  | String a s => String (to_ascii_lowercase_char a) (to_ascii_lowercase s)
  end.

Definition eq_ignore_ascii_case (a b : string) : bool :=
  eqb (to_ascii_lowercase a) (to_ascii_lowercase b).

(** [{n}] in a format string, for unsigned integers. *)
Definition display_nat (n : N) : string := pretty n.

(** [s.parse::<uN>()]: an optional [+], then at least one decimal digit, and
    the value within the width. *)
Fixpoint parse_digits (s : string) (acc : N) : option N :=
  match s with
  | "" => Some acc
  | String a s =>
    if bool_decide (48 ≤ byte a ≤ 57)%N
    then parse_digits s (acc * 10 + (byte a - 48))
    else None
  end.

Definition parse_uint (max : N) (s : string) : option N :=
  let digits := match s with String "+"%char r => r | _ => s end in
  if is_empty digits then None
  else n ← parse_digits digits 0; if bool_decide (n ≤ max)%N then Some n else None.

#[export] Hint Unfold eqb starts_with contains_char : str.

Arguments split c%_char_scope s.
Arguments join c%_char_scope l.
Arguments split_once c%_char_scope s.
Arguments find_char c%_char_scope s.
Arguments contains_char c%_char_scope s.
Arguments trim_end_matches c%_char_scope s.

(** ** Facts *)

Lemma app_nil_r s : s +:+ "" = s.
Proof. induction s as [|a s IH]; [done|]. by change (String a (s +:+ "") = String a s); rewrite IH. Qed.

Lemma app_assoc a b c : (a +:+ b) +:+ c = a +:+ (b +:+ c).
Proof. induction a as [|x a IH]; [done|]. by change (String x ((a +:+ b) +:+ c) = String x (a +:+ (b +:+ c))); rewrite IH. Qed.

Lemma len_app a b : len (a +:+ b) = len a + len b.
Proof. induction a as [|x a IH]; [done|]. change (S (len (a +:+ b)) = S (len a + len b)). by rewrite IH. Qed.

Lemma app_cons a s t : String a s +:+ t = String a (s +:+ t).
Proof. done. Qed.

Lemma eqb_eq a b : eqb a b = true ↔ a = b.
Proof. apply bool_decide_eq_true. Qed.

Lemma strip_prefix_Some p s r : strip_prefix p s = Some r ↔ s = p +:+ r.
Proof.
  revert s. induction p as [|a p IH]; intros s; simpl.
  - change ("" +:+ r) with r. naive_solver.
  - rewrite app_cons. destruct s as [|b s]; [done|]. case_decide; [rewrite IH|]; naive_solver.
Qed.

Lemma starts_with_spec p s : starts_with p s = true ↔ ∃ r, s = p +:+ r.
Proof.
  unfold starts_with. setoid_rewrite <-strip_prefix_Some.
  destruct (strip_prefix p s); naive_solver.
Qed.

Lemma ends_with_spec t s : ends_with t s = true ↔ ∃ p, s = p +:+ t.
Proof.
  induction s as [|a s IH]; simpl; rewrite orb_true_iff, eqb_eq.
  - split; [intros [<-|?]; [by exists ""|done]|].
    intros [[|] H]; [by left|done].
  - rewrite IH. split.
    + intros [<-|[p ->]]; [by exists ""|by exists (String a p)].
    + intros [[|b p] H]; [by left|]. rewrite app_cons in H. simplify_eq. eauto.
Qed.

Lemma strip_suffix_Some t s r : strip_suffix t s = Some r ↔ s = r +:+ t.
Proof.
  revert r. induction s as [|a s IH]; intros r; simpl.
  - destruct (eqb t "") eqn:Ht.
    + apply eqb_eq in Ht as ->. rewrite app_nil_r. naive_solver.
    + split; [done|]. destruct r as [|b r]; [|done]. change ("" +:+ t) with t.
      intros <-. by apply bool_decide_eq_false in Ht.
  - destruct (eqb t (String a s)) eqn:Ht.
    + apply eqb_eq in Ht as ->. split; [by intros [= <-]|].
      intros Heq. destruct r as [|b r]; [done|]. apply (f_equal len) in Heq.
      rewrite len_app in Heq. simpl in Heq. lia.
    + rewrite fmap_Some. setoid_rewrite IH. split.
      * intros (r' & -> & ->). done.
      * destruct r as [|b r].
        { change ("" +:+ t) with t. intros <-. by apply bool_decide_eq_false in Ht. }
        rewrite app_cons. intros [= -> ->]. by exists r.
Qed.

Lemma strip_prefix_app p r : strip_prefix p (p +:+ r) = Some r.
Proof. by apply strip_prefix_Some. Qed.

Lemma replace_from_skip t r s s' : replace_from (len s) t r (s +:+ s') = replace_from 0 t r s'.
Proof. induction s as [|a s IH]; [done|]. rewrite app_cons. simpl. apply IH. Qed.

(** Replacing at an occurrence. *)
Lemma replace_here t r s : t ≠ "" → replace t r (t +:+ s) = r +:+ replace t r s.
Proof.
  intros Ht. unfold replace. destruct t as [|a t]; [done|].
  rewrite app_cons. cbn [replace_from].
  assert (starts_with (String a t) (String a (t +:+ s)) = true) as ->
    by (apply starts_with_spec; by exists s).
  f_equal. change (len (String a t) - 1) with (S (len t) - 1). rewrite Nat.sub_succ, Nat.sub_0_r.
  apply replace_from_skip.
Qed.

(** A text in which the pattern does not occur. *)
Lemma replace_none t r s : contains t s = false → replace t r s = s.
Proof.
  unfold replace. induction s as [|a s IH]; simpl; [done|].
  intros [Hs Hc]%orb_false_iff. by rewrite Hs, IH.
Qed.

Lemma split_nonempty c s : split c s ≠ [].
Proof.
  destruct s as [|a s]; simpl; [done|]. case_decide; [done|].
  by destruct (split c s).
Qed.

Lemma join_cons c x y l : join c (x :: y :: l) = x +:+ String c (join c (y :: l)).
Proof. done. Qed.

(** Splitting and joining with the same separator is the identity. *)
Lemma join_split c s : join c (split c s) = s.
Proof.
  induction s as [|a s IH]; simpl; [done|].
  pose proof (split_nonempty c s) as Hne.
  destruct (split c s) as [|h t] eqn:Hs; [done|].
  case_decide as Ha.
  - subst a. by rewrite join_cons, IH.
  - destruct t as [|h' t]; [by simpl in *; rewrite IH|].
    rewrite join_cons, app_cons, <-IH. by rewrite join_cons.
Qed.

Lemma split_head_no_sep c s h t :
  split c s = h :: t → contains_char c h = false.
Proof.
  revert h t. induction s as [|a s IH]; simpl; intros h t; [by intros [= <- <-]|].
  case_decide as Ha; [by intros [= <- <-]|].
  destruct (split c s) as [|h' t'] eqn:Hs; [by destruct (split_nonempty c s)|].
  intros [= <- <-]. specialize (IH h' t' eq_refl). unfold contains_char in *. simpl.
  rewrite decide_False by done. by destruct (find_char c h').
Qed.

(** The parts after the first are what follows each separator. *)
Lemma split_drop_spec c s suffix :
  (∃ i, i < length (drop 1 (split c s)) ∧
        join c (drop i (drop 1 (split c s))) = suffix) ↔
  ∃ pre, s = pre +:+ String c suffix.
Proof.
  induction s as [|a s IH]; simpl.
  { split; [intros [i [Hi _]]; simpl in Hi; lia|]. by intros [[|] ?]. }
  pose proof (split_nonempty c s) as Hne. pose proof (join_split c s) as Hj.
  case_decide as Ha.
  - subst a. simpl. rewrite drop_0. split.
    + intros (i & Hi & Hjoin). destruct i as [|i].
      * rewrite drop_0, Hj in Hjoin. subst. by exists "".
      * destruct (proj1 IH) as [pre ->].
        { destruct (split c s) as [|h t]; [done|]. simpl in *. exists i.
          rewrite drop_0. split; [lia|done]. }
        by exists (String c pre).
    + intros [[|b pre] Hs].
      * change (String c s = String c suffix) in Hs. injection Hs as ->.
        exists 0. rewrite drop_0. split; [|apply join_split].
        destruct (split c suffix); simpl; [done|lia].
      * rewrite app_cons in Hs. injection Hs as <- ->.
        destruct (proj2 IH) as (i & Hi & Hjoin); [eauto|].
        exists (S i). destruct (split c (pre +:+ String c suffix)) as [|h t]; [done|].
        simpl in *. rewrite drop_0 in *. split; [lia|done].
  - destruct (split c s) as [|h t] eqn:Hs; [done|]. simpl in *. rewrite drop_0 in *.
    rewrite IH. split.
    + intros [pre ->]. by exists (String a pre).
    + intros [[|b pre] Heq].
      * by change (String a s = String c suffix) in Heq; simplify_eq.
      * rewrite app_cons in Heq. simplify_eq. eauto.
Qed.

Lemma split_once_Some c s l r :
  split_once c s = Some (l, r) ↔ s = l +:+ String c r ∧ contains_char c l = false.
Proof.
  unfold contains_char. revert l. induction s as [|a s IH]; intros l; simpl.
  { split; [done|]. by intros [? _]; destruct l. }
  case_decide as Ha; simpl.
  - split.
    + intros; simplify_eq. by split.
    + intros [Hs Hl]. destruct l as [|b l]; [by change ("" +:+ String c r) with (String c r) in Hs; simplify_eq|].
      rewrite app_cons in Hs. simplify_eq. simpl in Hl. rewrite decide_True in Hl by done.
      naive_solver.
  - destruct (split_once c s) as [[l' r']|] eqn:Hso; simpl.
    + split.
      * intros; simplify_eq. destruct (proj1 (IH l') eq_refl) as [-> Hn]. split; [done|].
        simpl. rewrite decide_False by done. by destruct (find_char c l').
      * intros [Hs Hl]. destruct l as [|b l];
          [by change ("" +:+ String c r) with (String c r) in Hs; simplify_eq|].
        rewrite app_cons in Hs. simplify_eq. simpl in Hl.
        rewrite decide_False in Hl by done.
        assert (Some (l', r') = Some (l, r)) as [= -> ->]; [|done].
        apply IH. split; [done|]. by destruct (find_char c l).
    + split; [done|]. intros [Hs Hl]. destruct l as [|b l];
          [by change ("" +:+ String c r) with (String c r) in Hs; simplify_eq|].
      rewrite app_cons in Hs. simplify_eq. simpl in Hl.
      rewrite decide_False in Hl by done.
      assert (None = Some (l, r)); [|done]. apply IH. split; [done|].
      by destruct (find_char c l).
Qed.

Lemma contains_char_cons c a s :
  contains_char c (String a s) = bool_decide (a = c) || contains_char c s.
Proof.
  unfold contains_char. simpl. case_decide; [by rewrite bool_decide_true|].
  rewrite bool_decide_false by done. by destruct (find_char c s).
Qed.

Lemma split_no_sep c s : contains_char c s = false → split c s = [s].
Proof.
  induction s as [|a s IH]; simpl; [done|].
  rewrite contains_char_cons, orb_false_iff, bool_decide_eq_false.
  intros [? Hs]. rewrite decide_False by done. by rewrite IH.
Qed.

(** A printed number has digits only. *)
Lemma pretty_go_digits c x s :
  (∀ n, pretty.pretty_N_char n ≠ c) → contains_char c s = false →
  contains_char c (pretty.pretty_N_go x s) = false.
Proof.
  intros Hc. revert s. induction (N.lt_wf_0 x) as [x _ IH]. intros s Hs.
  destruct (decide (x = 0)%N) as [->|Hx]; [by rewrite pretty.pretty_N_go_0|].
  rewrite pretty.pretty_N_go_step by lia. apply IH; [apply N.div_lt; lia|].
  rewrite contains_char_cons, Hs, orb_false_r. by apply bool_decide_eq_false_2.
Qed.

Lemma display_nat_digits c n :
  List.forallb (λ d, bool_decide (d ≠ c)) ["0"; "1"; "2"; "3"; "4"; "5"; "6"; "7"; "8"; "9"]%char = true →
  contains_char c (display_nat n) = false.
Proof.
  rewrite forallb_forall. intros Hc.
  assert (∀ d, List.In d ["0"; "1"; "2"; "3"; "4"; "5"; "6"; "7"; "8"; "9"]%char → d ≠ c) as Hd
    by (intros d Hd; by eapply bool_decide_eq_true, Hc).
  unfold display_nat, pretty, pretty.pretty_N. destruct (decide _).
  - rewrite contains_char_cons, orb_false_r. apply bool_decide_eq_false_2, Hd. simpl. auto.
  - apply pretty_go_digits; [|done]. intros m. apply Hd. unfold pretty.pretty_N_char.
    repeat case_match; simpl; tauto.
Qed.

Lemma display_nat_inj n m : display_nat n = display_nat m → n = m.
Proof. apply (inj pretty.pretty). Qed.

Lemma split_sep c a b :
  contains_char c a = false → split c (a +:+ String c b) = a :: split c b.
Proof.
  induction a as [|x a IH]; simpl.
  - intros _. change ("" +:+ String c b) with (String c b). simpl. by rewrite decide_True.
  - rewrite contains_char_cons, orb_false_iff, bool_decide_eq_false.
    intros [? Hs]. change (String x a +:+ String c b) with (String x (a +:+ String c b)). simpl.
    rewrite decide_False by done. by rewrite IH.
Qed.

Lemma split_parts c s : Forall (λ x, contains_char c x = false) (split c s).
Proof.
  induction s as [|a s IH]; simpl; [by repeat constructor|].
  case_decide as Ha; [by constructor|].
  pose proof (split_nonempty c s) as Hne.
  destruct (split c s) as [|h t]; [done|].
  apply Forall_cons in IH as [Hh Ht]. constructor; [|done].
  rewrite contains_char_cons. by rewrite bool_decide_false.
Qed.

Lemma split_app_sep c a b : split c (a +:+ String c b) = split c a ++ split c b.
Proof.
  induction a as [|x a IH].
  - change ("" +:+ String c b) with (String c b). simpl. by rewrite decide_True.
  - rewrite app_cons. simpl. rewrite IH. case_decide; [done|].
    pose proof (split_nonempty c a). by destruct (split c a).
Qed.

Lemma join_app c l1 l2 :
  l1 ≠ [] → l2 ≠ [] → join c (l1 ++ l2) = join c l1 +:+ String c (join c l2).
Proof.
  intros H1 H2. induction l1 as [|x l1 IH]; [done|].
  destruct l1 as [|y l1].
  - destruct l2; [done|]. done.
  - change ((x :: y :: l1) ++ l2) with (x :: y :: (l1 ++ l2)). rewrite !join_cons.
    change (y :: l1 ++ l2) with ((y :: l1) ++ l2). rewrite IH by done.
    rewrite app_assoc. by rewrite app_cons.
Qed.

(** Prefixes by whole segments. *)
Lemma split_prefix c p s :
  split c p `prefix_of` split c s ↔ s = p ∨ ∃ r, s = p +:+ String c r.
Proof.
  split.
  - intros [l Hl]. destruct (decide (l = [])) as [->|Hne].
    + left. rewrite <-(join_split c s), Hl, List.app_nil_r. apply join_split.
    + right. exists (join c l). rewrite <-(join_split c s), Hl, join_app by (done || apply split_nonempty).
      by rewrite join_split.
  - intros [->|[r ->]]; [done|]. rewrite split_app_sep. by eexists.
Qed.

(** ** Cutting *)

Lemma split_at_app l r : split_at (len l) (l +:+ r) = Ret (l, r).
Proof. induction l as [|a l IH]; [done|]. simpl. by rewrite IH. Qed.

Lemma split_at_Panic n s : split_at n s = Panic ↔ len s < n.
Proof.
  revert s. induction n as [|n IH]; intros s.
  { simpl. split; [done|lia]. }
  destruct s as [|a s]; simpl; [split; [lia|done]|].
  rewrite <-Nat.succ_lt_mono, <-(IH s). destruct (split_at n s) as [[??]|]; simpl; naive_solver.
Qed.

(** ** Trimming *)

Lemma trim_end_prefix c s :
  ∃ t, s = trim_end_matches c s +:+ t ∧ (t = "" ∨ ∃ u, t = String c u).
Proof.
  induction s as [|a s (t & IH & Ht)]; [exists ""; by split; [|left]|]. simpl.
  destruct (trim_end_matches c s) as [|b u] eqn:E.
  - case_decide as Ha.
    + exists (String a s). split; [done|]. right. exists s. by subst a.
    + exists t. split; [by rewrite IH at 1|done].
  - exists t. split; [by rewrite IH at 1|done].
Qed.

Lemma trim_end_id c s : ends_with (String c "") s = false → trim_end_matches c s = s.
Proof.
  induction s as [|a s IH]; [done|]. simpl. intros [Hne He]%orb_false_iff. rewrite IH by done.
  destruct s; [|done]. case_decide; [|done]. subst.
  apply bool_decide_eq_false in Hne. done.
Qed.

Lemma trim_end_snoc c s : trim_end_matches c (s +:+ String c "") = trim_end_matches c s.
Proof.
  induction s as [|a s IH]; simpl; [by rewrite decide_True|]. by rewrite IH.
Qed.
End Str.
