(* ===== verification/Xds.v ===== *)
(** Xds: the delta-xDS client of [crates/xds/src/client.rs]: decoding of a
    response, the dispatch to the typed handlers, the tables of known and
    pending resources, acknowledgement, readiness and reconnection backoff. *)
From S2P Require Import Prelude Strs.

(** * Updates and rejections *)

Record XdsResource (T : Type) := { xr_name : string; xr_resource : T }.
Arguments xr_name {_} _.
Arguments xr_resource {_} _.
Arguments Build_XdsResource {_} _ _.

Inductive XdsUpdate (T : Type) := Update (r : XdsResource T) | Remove (name : string).
Arguments Update {_} _.
Arguments Remove {_} _.

Definition update_name {T} (u : XdsUpdate T) : string :=
  match u with Update r => xr_name r | Remove n => n end.

(** The reason is the text of the [anyhow::Error]. *)
Record RejectedConfig := { rej_name : string; rej_reason : string }.

Definition RejectedConfig_fmt (r : RejectedConfig) : string :=
  rej_name r +:+ ": " +:+ rej_reason r.

(** The rejections of a run of [handle_one] over the updates. *)
Fixpoint run_updates {S T} (handle_one : S → XdsUpdate T → S * result () string) (s : S)
    (updates : list (XdsUpdate T)) : S * list RejectedConfig :=
  match updates with
  | [] => (s, [])
  | res :: updates =>
    let name := update_name res in
    let '(s, r) := handle_one s res in
    let '(s, rejects) := run_updates handle_one s updates in
    (s, match r with
        | Err e => {| rej_name := name; rej_reason := e |} :: rejects
        | Ok _ => rejects
        end)
  end.

Definition handle_single_resource {S T} (s : S) (updates : list (XdsUpdate T))
    (handle_one : S → XdsUpdate T → S * result () string) : S * result () (list RejectedConfig) :=
  let '(s, rejects) := run_updates handle_one s updates in
  (s, if decide (rejects = []) then Ok () else Err rejects).

Lemma run_updates_state {S T} (h : S → XdsUpdate T → S * result () string) s us :
  (run_updates h s us).1 = foldl (λ s u, (h s u).1) s us.
Proof.
  revert s. induction us as [|u us IH]; intros s; simpl; [done|].
  destruct (h s u) as [s1 r]. simpl. rewrite <-IH. by destruct (run_updates h s1 us).
Qed.

Lemma handle_single_resource_state {S T} (h : S → XdsUpdate T → S * result () string) s us :
  (handle_single_resource s us h).1 = foldl (λ s u, (h s u).1) s us.
Proof.
  unfold handle_single_resource. rewrite <-run_updates_state.
  by destruct (run_updates h s us).
Qed.

(** * The client's tables *)

Record ResourceKey := { rk_name : string; rk_type_url : string }.
#[global] Instance ResourceKey_eq_dec : EqDecision ResourceKey.
Proof. solve_decision. Defined.
#[global] Program Instance ResourceKey_countable : Countable ResourceKey :=
  inj_countable' (λ k, (rk_name k, rk_type_url k))
    (λ '(n, t), {| rk_name := n; rk_type_url := t |}) _.
Next Obligation. by intros []. Qed.

(** How a waiter of [Demanded::recv] was woken: by the [send] of its channel, or
    because the sender was dropped. *)
Inductive Wake := Notified (waiter : N) | SenderDropped (waiter : N).

(** A [oneshot::Sender] is the number of its waiter; [woken] is the history of
    the wake-ups. The [demand] channel is the source of the client's events. *)
Record State := mkState {
  known_resources : gmap string (gset string);
  pending : gmap ResourceKey N;
  woken : list Wake
}.

Definition notify_on_demand (self : State) (key : ResourceKey) : State :=
  match pending self !! key with
  | Some send =>
    mkState (known_resources self) (delete key (pending self)) (woken self ++ [Notified send])
  | None => self
  end.

Definition add_resource (self : State) (type_url name : string) : State :=
  mkState (<[type_url := {[name]} ∪ default ∅ (known_resources self !! type_url)]> (known_resources self))
    (pending self) (woken self).

(** * Messages *)

Record ProtoResource := { pr_name : string; pr_resource : option string }.

Record DeltaDiscoveryResponse := {
  resp_type_url : string;
  resp_nonce : string;
  resp_resources : list ProtoResource;
  resp_removed : list string
}.

Record Node := { node_id : string; node_metadata : gmap string string }.

(** The fields of a request the client sets; the others are [Default::default()]. *)
Record DeltaDiscoveryRequest := mkRequest {
  req_type_url : string;
  req_node : option Node;
  req_subscribe : list string;
  req_unsubscribe : list string;
  req_initial_versions : gmap string string;
  req_nonce : string;
  req_error : option string
}.

Inductive AdsError := Decode (e : string) | MissingResource.

Definition AdsError_fmt (e : AdsError) : string :=
  match e with
  | Decode e => "decode: " +:+ e
  | MissingResource => "XDS payload without resource"
  end.

Inductive XdsError :=
| GrpcStatus (code : N) (message : string)
| Connection (addr : string) (code : N) (message : string)
| Transport
| RequestFailure
| OnDemandSend.

Section decode.
Context {T : Type} (decode : string → result T string).

Definition decode_proto (resource : ProtoResource) : result (XdsResource T) AdsError :=
  let? res := ok_or (pr_resource resource) MissingResource in
  let? r := map_err Decode (decode res) in
  Ok {| xr_name := pr_name resource; xr_resource := r |}.

Definition decode_failures (resources : list ProtoResource) : list RejectedConfig :=
  omap (λ raw, match decode_proto raw with
               | Ok _ => None
               | Err e => Some {| rej_name := pr_name raw; rej_reason := AdsError_fmt e |}
               end) resources.

Definition decoded_updates (resources : list ProtoResource) : list (XdsUpdate T) :=
  omap (λ raw, Update <$> ok (decode_proto raw)) resources.

(** ** [HandlerWrapper::handle] *)

Definition forget_resource (type_url : string) (st : State) (name : string) : State :=
  let st :=
    match known_resources st !! type_url with
    | Some rm => mkState (<[type_url := rm ∖ {[name]}]> (known_resources st)) (pending st) (woken st)
    | None => st
    end in
  notify_on_demand st {| rk_name := name; rk_type_url := type_url |}.

Definition learn_resource (type_url : string) (st : State) (r : ProtoResource) : State :=
  add_resource (notify_on_demand st {| rk_name := pr_name r; rk_type_url := type_url |})
    type_url (pr_name r).

Definition wrapper_handle {S} (h : S → list (XdsUpdate T) → S * result () (list RejectedConfig))
    (s : S) (state : State) (res : DeltaDiscoveryResponse)
    : S * State * result () (list RejectedConfig) :=
  let type_url := resp_type_url res in
  let updates := decoded_updates (resp_resources res) ++ (Remove <$> resp_removed res) in
  let '(s, result) := h s updates in
  let decode_failures := decode_failures (resp_resources res) in
  let state := foldl (forget_resource type_url) state (resp_removed res) in
  let state := foldl (learn_resource type_url) state (resp_resources res) in
  (s, state,
   match result, decide (decode_failures = []) with
   | Ok _, left _ => Ok ()
   | Ok _, right _ => Err decode_failures
   | Err rejects, left _ => Err rejects
   | Err rejects, right _ => Err (rejects ++ decode_failures)
   end).
End decode.

(** * Configuration *)

(** A typed handler behind its wrapper; [S] is the state the handlers share. *)
Definition RawHandler (S : Type) : Type :=
  S → State → DeltaDiscoveryResponse → S * State * result () (list RejectedConfig).

Record Config (S : Type) := mkConfig {
  address : string;
  proxy_metadata : gmap string string;
  handlers : gmap string (RawHandler S);
  initial_requests : list DeltaDiscoveryRequest;
  on_demand : bool;
  instance_ip : string;
  pod_name : string;
  pod_namespace : string;
  node_name : string
}.
Arguments mkConfig {_} _ _ _ _ _ _ _ _ _.
Arguments address {_} _.
Arguments proxy_metadata {_} _.
Arguments handlers {_} _.
Arguments initial_requests {_} _.
Arguments on_demand {_} _.
Arguments instance_ip {_} _.
Arguments pod_name {_} _.
Arguments pod_namespace {_} _.
Arguments node_name {_} _.

Section config.
Context {S : Type}.

(** [var] is [std::env::var]. *)
Definition config_new (var : string → option string) (address gateway_name namespace : string) : Config S :=
  mkConfig address
    (<["GATEWAY_NAME" := gateway_name]> (<["NAMESPACE" := namespace]> ∅))
    ∅ [] false
    (default "1.1.1.1" (var "INSTANCE_IP")) (default "" (var "POD_NAME"))
    (default "" (var "POD_NAMESPACE")) (default "" (var "NODE_NAME")).

Definition build_struct (a : list (string * string)) : gmap string string :=
  foldl (λ m '(k, v), <[k := v]> m) ∅ a.

Definition node (self : Config S) : Node :=
  let gw_name := default "" (proxy_metadata self !! "GATEWAY_NAME") in
  let role := pod_namespace self +:+ "~" +:+ gw_name in
  let metadata := build_struct
    [("NAME", pod_name self); ("NAMESPACE", pod_namespace self); ("INSTANCE_IPS", instance_ip self);
     ("NODE_NAME", node_name self); ("role", role)] in
  {| node_id := "agentgateway~" +:+ instance_ip self +:+ "~" +:+ pod_name self +:+ "." +:+
       pod_namespace self +:+ "~" +:+ pod_namespace self +:+ ".svc.cluster.local";
     node_metadata := proxy_metadata self ∪ metadata |}.

Definition construct_initial_request (self : Config S) (request_type : string) (no_on_demand : bool)
    : DeltaDiscoveryRequest :=
  let '(sub, unsub) :=
    if negb no_on_demand && on_demand self then (["*"], ["*"]) else ([], []) in
  mkRequest request_type (Some (node self)) sub unsub ∅ "" None.

Definition watch (self : Config S) (type_url : string) (no_on_demand : bool) : Config S :=
  mkConfig (address self) (proxy_metadata self) (handlers self)
    (initial_requests self ++ [construct_initial_request self type_url no_on_demand])
    (on_demand self) (instance_ip self) (pod_name self) (pod_namespace self) (node_name self).

Definition with_handler (self : Config S) (type_url : string) (h : RawHandler S) : Config S :=
  mkConfig (address self) (proxy_metadata self) (<[type_url := h]> (handlers self))
    (initial_requests self) (on_demand self) (instance_ip self) (pod_name self)
    (pod_namespace self) (node_name self).

Definition with_watched_handler (self : Config S) (type_url : string) (no_on_demand : bool)
    (h : RawHandler S) : Config S :=
  watch (with_handler self type_url h) type_url no_on_demand.
End config.

(** * The client *)

(** Requests in the order they were put on the stream; [None] once the receiving
    side was dropped. *)
Definition Channel : Type := option (list DeltaDiscoveryRequest).

Definition send (ch : Channel) (r : DeltaDiscoveryRequest) : Channel * result () XdsError :=
  match ch with
  | Some sent => (Some (sent ++ [r]), Ok ())
  | None => (None, Err RequestFailure)
  end.

Inductive XdsSignal := Ack | Nack.

Record AdsClient (S : Type) := mkClient {
  config : Config S;
  hstate : S;
  state : State;
  block_ready : bool;  (** whether the client still holds the sender *)
  connection_id : N;
  types_to_expect : gset string
}.
Arguments mkClient {_} _ _ _ _ _ _.
Arguments config {_} _.
Arguments hstate {_} _.
Arguments state {_} _.
Arguments block_ready {_} _.
Arguments connection_id {_} _.
Arguments types_to_expect {_} _.

(** What the loop of [run_internal] waits for. *)
Inductive Event :=
| DemandEvent (e : option (N * ResourceKey))
| MessageEvent (m : result (option DeltaDiscoveryResponse) XdsError).

Inductive Control (A : Type) := Continue (a : A) | Stop (a : A) (r : result () XdsError).
Arguments Continue {_} _.
Arguments Stop {_} _ _.

Section client.
Context {S : Type}.
Implicit Types self : AdsClient S.

Definition is_initial_request_on_demand (r : DeltaDiscoveryRequest) : bool :=
  bool_decide (req_subscribe r ≠ []).

Definition expected_types (c : Config S) : gset string :=
  list_to_set (req_type_url <$>
    filter (λ e, is_initial_request_on_demand e = false) (initial_requests c)).

Definition client_new (c : Config S) (s : S) : AdsClient S :=
  mkClient c s (mkState ∅ ∅ []) true 0 (expected_types c).

(** The requests [run_internal] opens the stream with. *)
Definition connect_requests self : list DeltaDiscoveryRequest :=
  (λ e, mkRequest (req_type_url e) (req_node e) (req_subscribe e) (req_unsubscribe e)
     (gset_to_gmap "" (default ∅ (known_resources (state self) !! req_type_url e)))
     (req_nonce e) (req_error e)) <$> initial_requests (config self).

Definition handle_stream_event self (response : DeltaDiscoveryResponse) (ch : Channel)
    : AdsClient S * Channel * result XdsSignal XdsError :=
  let type_url := resp_type_url response in
  let nonce := resp_nonce response in
  let '(s, st, handler_response) :=
    match handlers (config self) !! type_url with
    | Some h => h (hstate self) (state self) response
    | None => (hstate self, state self, Ok ())
    end in
  let self := mkClient (config self) s st (block_ready self) (connection_id self) (types_to_expect self) in
  let '(response_type, error) :=
    match handler_response with
    | Err rejects => (Nack, Some (String.concat "; " (RejectedConfig_fmt <$> rejects)))
    | Ok _ => (Ack, None)
    end in
  let '(ch, r) := send ch (mkRequest type_url None [] [] ∅ nonce error) in
  (self, ch, let? _ := r in Ok response_type).

(** Inserting the sender drops the one pending for the same resource. *)
Definition handle_demand_event self (demand_event : option (N * ResourceKey)) (ch : Channel)
    : AdsClient S * Channel * result () XdsError :=
  match demand_event with
  | None => (self, ch, Ok ())
  | Some (tx, key) =>
    let st := state self in
    let woken' :=
      match pending st !! key with Some old => woken st ++ [SenderDropped old] | None => woken st end in
    let st := mkState (known_resources st) (<[key := tx]> (pending st)) woken' in
    let st := add_resource st (rk_type_url key) (rk_name key) in
    let self := mkClient (config self) (hstate self) st (block_ready self) (connection_id self)
      (types_to_expect self) in
    let '(ch, r) := send ch (mkRequest (rk_type_url key) None [rk_name key] [] ∅ "" None) in
    (self, ch, r)
  end.

Definition set_ready self (block_ready : bool) (types : gset string) : AdsClient S :=
  mkClient (config self) (hstate self) (state self) block_ready (connection_id self) types.

(** One turn of the loop. *)
Definition loop_step '(self, ch) (ev : Event) : Control (AdsClient S * Channel) :=
  match ev with
  | DemandEvent e =>
    match handle_demand_event self e ch with
    | (self, ch, Ok _) => Continue (self, ch)
    | (self, ch, Err e) => Stop (self, ch) (Err e)
    end
  | MessageEvent (Err e) => Stop (self, ch) (Err e)
  | MessageEvent (Ok None) => Stop (self, ch) (Ok ())
  | MessageEvent (Ok (Some msg)) =>
    let received_type :=
      if decide (types_to_expect self ≠ ∅) then Some (resp_type_url msg) else None in
    match handle_stream_event self msg ch with
    | (self, ch, Err e) => Stop (self, ch) (Err e)
    | (self, ch, Ok Nack) => Continue (self, ch)
    | (self, ch, Ok Ack) =>
      match received_type with
      | Some received_type =>
        let types := types_to_expect self ∖ {[received_type]} in
        Continue (set_ready self (if decide (types = ∅) then false else block_ready self) types, ch)
      | None => Continue (self, ch)
      end
    end
  end.

(** The loop on the events that arrive: [Continue] means it waits for more. *)
Fixpoint run_events (c : AdsClient S * Channel) (evs : list Event) : Control (AdsClient S * Channel) :=
  match evs with
  | [] => Continue c
  | ev :: evs =>
    match loop_step c ev with
    | Continue c => run_events c evs
    | Stop c r => Stop c r
    end
  end.

(** [run_internal]: [connection] is the outcome of opening the stream. *)
Definition run_internal self (connection : result () XdsError) (evs : list Event)
    : Control (AdsClient S * Channel) :=
  match connection with
  | Err e => Stop (self, None) (Err e)
  | Ok _ => run_events (self, Some (connect_requests self)) evs
  end.
End client.

(** ** Backoff, in milliseconds *)

Definition INITIAL_BACKOFF : N := 10.
Definition MAX_BACKOFF : N := 15000.

(** [tonic::Code] *)
Definition code_Cancelled : N := 1.
Definition code_DeadlineExceeded : N := 4.
Definition code_Unavailable : N := 14.

(** [run_loop] after [run_internal]: the time it sleeps, if it does, and the
    backoff it returns. *)
Definition run_loop (res : result () XdsError) (backoff : N) : option N * N :=
  match res with
  | Err (Connection _ _ _) | Err Transport =>
    let backoff := N.min MAX_BACKOFF (backoff * 2) in (Some backoff, backoff)
  | Err (GrpcStatus code message) =>
    let backoff :=
      if bool_decide (code = code_Cancelled)
         || bool_decide (code = code_DeadlineExceeded)
         || (bool_decide (code = code_Unavailable) && Str.contains "transport is closing" message)
         || (bool_decide (code = code_Unavailable) && Str.contains "received prior goaway" message)
      then INITIAL_BACKOFF
      else N.min MAX_BACKOFF (backoff * 2) in
    (Some backoff, backoff)
  | Err _ | Ok _ => (None, INITIAL_BACKOFF)
  end.

(** The backoffs of [run] over a sequence of outcomes. *)
Definition backoff_after (outcomes : list (result () XdsError)) : N :=
  foldl (λ b r, (run_loop r b).2) INITIAL_BACKOFF outcomes.

(** * Lemmas *)

Lemma notify_known st k : known_resources (notify_on_demand st k) = known_resources st.
Proof. unfold notify_on_demand. by destruct (pending st !! k). Qed.

Lemma notify_pending st k : pending (notify_on_demand st k) = delete k (pending st).
Proof. unfold notify_on_demand. destruct (pending st !! k) eqn:E; simpl; [done|]. by rewrite delete_id. Qed.

Lemma notify_woken st k :
  woken (notify_on_demand st k) = woken st ++ option_list (Notified <$> pending st !! k).
Proof. unfold notify_on_demand. destruct (pending st !! k); simpl; by rewrite ?app_nil_r. Qed.

Definition key_of (type_url name : string) : ResourceKey := {| rk_name := name; rk_type_url := type_url |}.

Lemma forget_pending ty st n : pending (forget_resource ty st n) = delete (key_of ty n) (pending st).
Proof. unfold forget_resource. rewrite notify_pending. by destruct (known_resources st !! ty). Qed.

Lemma forget_woken ty st n :
  woken (forget_resource ty st n) = woken st ++ option_list (Notified <$> pending st !! key_of ty n).
Proof. unfold forget_resource. rewrite notify_woken. by destruct (known_resources st !! ty). Qed.

Lemma learn_pending ty st r : pending (learn_resource ty st r) = delete (key_of ty (pr_name r)) (pending st).
Proof. apply notify_pending. Qed.

Lemma learn_woken ty st r :
  woken (learn_resource ty st r) = woken st ++ option_list (Notified <$> pending st !! key_of ty (pr_name r)).
Proof. apply notify_woken. Qed.

Lemma forget_known ty st n :
  (∀ t, t ≠ ty → known_resources (forget_resource ty st n) !! t = known_resources st !! t) ∧
  default ∅ (known_resources (forget_resource ty st n) !! ty) =
  default ∅ (known_resources st !! ty) ∖ {[n]}.
Proof.
  unfold forget_resource. rewrite notify_known.
  destruct (known_resources st !! ty) as [rm|] eqn:E; simpl.
  - split; [intros t Ht; by rewrite lookup_insert_ne|by rewrite lookup_insert_eq].
  - rewrite E. simpl. split; [done|set_solver].
Qed.

Lemma learn_known ty st r :
  (∀ t, t ≠ ty → known_resources (learn_resource ty st r) !! t = known_resources st !! t) ∧
  default ∅ (known_resources (learn_resource ty st r) !! ty) =
  {[pr_name r]} ∪ default ∅ (known_resources st !! ty).
Proof.
  unfold learn_resource, add_resource. simpl. rewrite notify_known.
  split; [intros t Ht; by rewrite lookup_insert_ne|by rewrite lookup_insert_eq].
Qed.

(** A pass over the names of a response wakes the waiters of those names, each
    once, in whatever way the names are processed. *)
Lemma fold_notifies {A} (f : State → A → State) (key : A → ResourceKey) l st :
  (∀ st x, pending (f st x) = delete (key x) (pending st)) →
  (∀ st x, woken (f st x) = woken st ++ option_list (Notified <$> pending st !! key x)) →
  let st' := foldl f st l in
  (∀ k, pending st' !! k = if decide (k ∈ key <$> l) then None else pending st !! k) ∧
  ∃ ws, woken st' = woken st ++ (Notified <$> ws) ∧
    ∀ w, w ∈ ws ↔ ∃ k, k ∈ key <$> l ∧ pending st !! k = Some w.
Proof.
  intros Hp Hw. revert st. induction l as [|x l IH]; intros st; cbn [foldl].
  { split; [intros k; by destruct (decide (k ∈ _)) as [?%elem_of_nil|]|].
    exists []. rewrite app_nil_r. set_solver. }
  rewrite fmap_cons.
  destruct (IH (f st x)) as [Hpend (ws & Hws & Hin)]. split.
  - intros k. rewrite Hpend, Hp, lookup_delete. repeat case_decide; set_solver.
  - exists (option_list (pending st !! key x) ++ ws). split.
    + rewrite Hws, Hw, <-(assoc_L (++)), fmap_app. do 2 f_equal. by destruct (pending st !! key x).
    + intros w. rewrite elem_of_app, Hin. setoid_rewrite Hp. setoid_rewrite lookup_delete_Some.
      setoid_rewrite elem_of_cons.
      assert (w ∈ option_list (pending st !! key x) ↔ pending st !! key x = Some w) as ->.
      { destruct (pending st !! key x); simpl; [rewrite list_elem_of_singleton|rewrite elem_of_nil];
          naive_solver. }
      split; [naive_solver|].
      intros (k & Hk & ?). destruct (decide (key x = k)) as [<-|]; [by left|right]. naive_solver.
Qed.

Lemma fold_known (l : list string) ty st :
  let st' := foldl (forget_resource ty) st l in
  (∀ t, t ≠ ty → known_resources st' !! t = known_resources st !! t) ∧
  default ∅ (known_resources st' !! ty) = default ∅ (known_resources st !! ty) ∖ list_to_set l.
Proof.
  revert st. induction l as [|x l IH]; intros st; simpl; [split; [done|set_solver]|].
  destruct (IH (forget_resource ty st x)) as [H1 H2], (forget_known ty st x) as [H3 H4].
  split; [intros t Ht; by rewrite H1, H3|]. rewrite H2, H4. set_solver.
Qed.

Lemma fold_learn (l : list ProtoResource) ty st :
  let st' := foldl (learn_resource ty) st l in
  (∀ t, t ≠ ty → known_resources st' !! t = known_resources st !! t) ∧
  default ∅ (known_resources st' !! ty) = list_to_set (pr_name <$> l) ∪ default ∅ (known_resources st !! ty).
Proof.
  revert st. induction l as [|x l IH]; intros st; csimpl; [split; [done|set_solver]|].
  destruct (IH (learn_resource ty st x)) as [H1 H2], (learn_known ty st x) as [H3 H4].
  split; [intros t Ht; by rewrite H1, H3|]. rewrite H2, H4. set_solver.
Qed.

Lemma decode_failures_nil {T} (decode : string → result T string) l :
  decode_failures decode l = [] ↔ Forall (λ raw, is_ok (decode_proto decode raw) = true) l.
Proof.
  unfold decode_failures. induction l as [|x l IH]; csimpl; [done|].
  rewrite Forall_cons, <-IH. destruct (decode_proto decode x); simpl; naive_solver.
Qed.

(** * Theorems *)

(** C30: a response of one type. The typed handler is given the resources that
    decode, then the removals; afterwards the known names of the type are the
    resources of the response (decoded or not) and the old names it does not
    remove, the other types are untouched, nobody is left pending for a
    name of the response and exactly the waiters of these names are notified; the
    response is accepted exactly when the handler accepts it and every resource
    decodes. *)
Theorem xds_response {S T} (decode : string → result T string)
    (h : S → list (XdsUpdate T) → S * result () (list RejectedConfig)) s st res :
  let '(s', st', r) := wrapper_handle decode h s st res in
  let type_url := resp_type_url res in
  let names := pr_name <$> resp_resources res in
  let mentioned := key_of type_url <$> (resp_removed res ++ names) in
  let handled := h s (decoded_updates decode (resp_resources res) ++ (Remove <$> resp_removed res)) in
  s' = handled.1 ∧
  (r = Ok () ↔ handled.2 = Ok () ∧
     Forall (λ raw, is_ok (decode_proto decode raw) = true) (resp_resources res)) ∧
  (∀ t, t ≠ type_url → known_resources st' !! t = known_resources st !! t) ∧
  default ∅ (known_resources st' !! type_url) =
    list_to_set names ∪ default ∅ (known_resources st !! type_url) ∖ list_to_set (resp_removed res) ∧
  (∀ k, pending st' !! k = if decide (k ∈ mentioned) then None else pending st !! k) ∧
  ∃ ws, woken st' = woken st ++ (Notified <$> ws) ∧
    ∀ w, w ∈ ws ↔ ∃ k, k ∈ mentioned ∧ pending st !! k = Some w.
Proof.
  unfold wrapper_handle. destruct (h s _) as [s' r]. cbn [fst snd].
  set (ty := resp_type_url res). set (st1 := foldl (forget_resource ty) st (resp_removed res)).
  destruct (fold_known (resp_removed res) ty st) as [Hk1 Hk1'].
  destruct (fold_learn (resp_resources res) ty st1) as [Hk2 Hk2'].
  destruct (fold_notifies (forget_resource ty) (key_of ty) (resp_removed res) st)
    as [Hp1 (ws1 & Hw1 & Hin1)]; [intros; apply forget_pending|intros; apply forget_woken|].
  destruct (fold_notifies (learn_resource ty) (λ r, key_of ty (pr_name r)) (resp_resources res) st1)
    as [Hp2 (ws2 & Hw2 & Hin2)]; [intros; apply learn_pending|intros; apply learn_woken|].
  assert ((λ r, key_of ty (pr_name r)) <$> resp_resources res =
          key_of ty <$> (pr_name <$> resp_resources res)) as E by (by rewrite <-list_fmap_compose).
  rewrite E in Hp2, Hin2. fold st1 in Hk1, Hk1', Hp1, Hw1. split_and!.
  - done.
  - rewrite <-decode_failures_nil. destruct r as [[]|]; case_decide; naive_solver.
  - intros t Ht. by rewrite Hk2, Hk1.
  - by rewrite Hk2', Hk1'.
  - intros k. rewrite Hp2, Hp1, fmap_app. repeat case_decide; set_solver.
  - exists (ws1 ++ ws2). split; [by rewrite Hw2, Hw1, fmap_app, (assoc_L (++))|].
    intros w. rewrite elem_of_app, Hin1, Hin2. setoid_rewrite Hp1. setoid_rewrite fmap_app.
    setoid_rewrite elem_of_app. split.
    + intros [(k & ? & ?)|(k & ? & Hk)]; [eauto|]. case_decide; naive_solver.
    + intros (k & Hk & ?). destruct (decide (k ∈ key_of ty <$> resp_removed res)); [left; eauto|].
      right. exists k. split; [tauto|]. by rewrite decide_False.
Qed.

(** On an open stream every response is answered by exactly one request, which
    echoes its type and nonce; it is a rejection, with the reasons joined, exactly
    when the handler of the type rejects; a type without a handler is
    acknowledged and changes nothing. *)
Theorem xds_answer {S} (self : AdsClient S) response sent :
  let '(self', ch, r) := handle_stream_event self response (Some sent) in
  let type_url := resp_type_url response in
  let answer := mkRequest type_url None [] [] ∅ (resp_nonce response) in
  types_to_expect self' = types_to_expect self ∧ block_ready self' = block_ready self ∧
  match handlers (config self) !! type_url with
  | None => self' = self ∧ ch = Some (sent ++ [answer None]) ∧ r = Ok Ack
  | Some h =>
    hstate self' = (h (hstate self) (state self) response).1.1 ∧
    state self' = (h (hstate self) (state self) response).1.2 ∧
    match (h (hstate self) (state self) response).2 with
    | Ok _ => ch = Some (sent ++ [answer None]) ∧ r = Ok Ack
    | Err rejects =>
      ch = Some (sent ++ [answer (Some (String.concat "; " (RejectedConfig_fmt <$> rejects)))]) ∧
      r = Ok Nack
    end
  end.
Proof.
  unfold handle_stream_event. destruct (handlers (config self) !! _) as [h|].
  - destruct (h (hstate self) (state self) response) as [[s st] [[]|rej]]; simpl; done.
  - simpl. destruct self; simpl. done.
Qed.

(** The types acknowledged along a run of the loop. *)
Fixpoint acked {S} (c : AdsClient S * Channel) (evs : list Event) : gset string :=
  match evs with
  | [] => ∅
  | ev :: evs =>
    (match ev with
     | MessageEvent (Ok (Some msg)) =>
       match handle_stream_event c.1 msg c.2 with (_, _, Ok Ack) => {[resp_type_url msg]} | _ => ∅ end
     | _ => ∅
     end) ∪
    match loop_step c ev with Continue c => acked c evs | Stop _ _ => ∅ end
  end.

Definition outcome {A} (r : Control A) : A := match r with Continue a => a | Stop a _ => a end.

Lemma handle_stream_keeps {S} (self : AdsClient S) msg ch :
  types_to_expect (handle_stream_event self msg ch).1.1 = types_to_expect self ∧
  block_ready (handle_stream_event self msg ch).1.1 = block_ready self.
Proof.
  unfold handle_stream_event.
  destruct (handlers (config self) !! _) as [h|];
    [destruct (h _ _ _) as [[s st] [[]|]]|]; by destruct ch.
Qed.

Lemma handle_demand_keeps {S} (self : AdsClient S) e ch :
  types_to_expect (handle_demand_event self e ch).1.1 = types_to_expect self ∧
  block_ready (handle_demand_event self e ch).1.1 = block_ready self.
Proof. destruct e as [[tx k]|]; [|done]. simpl. by destruct ch. Qed.

(** What one event does to the readiness of the client. *)
Lemma loop_step_ready {S} (c : AdsClient S * Channel) ev :
  let c' := outcome (loop_step c ev) in
  let acks := match ev with
     | MessageEvent (Ok (Some msg)) =>
       match handle_stream_event c.1 msg c.2 with
       | (_, _, Ok Ack) => {[resp_type_url msg]} | _ => ∅ end
     | _ => ∅ end in
  types_to_expect c'.1 = types_to_expect c.1 ∖ acks ∧
  block_ready c'.1 = if decide (types_to_expect c.1 ≠ ∅ ∧ types_to_expect c'.1 = ∅) then false
                     else block_ready c.1.
Proof.
  destruct c as [self ch].
  assert (∀ T B (b : bool), T = types_to_expect self → B = b →
    T = types_to_expect self ∖ ∅ ∧
    B = if decide (types_to_expect self ≠ ∅ ∧ T = ∅) then false else b) as Hsame.
  { intros T B b -> ->. split; [set_solver|]. rewrite decide_False; [done|]. tauto. }
  destruct ev as [e|[[msg|]|e]]; simpl.
  - pose proof (handle_demand_keeps self e ch) as [H1 H2].
    destruct (handle_demand_event self e ch) as [[self' ch'] [[]|]]; simpl in *; auto.
  - pose proof (handle_stream_keeps self msg ch) as [H1 H2].
    destruct (handle_stream_event self msg ch) as [[self' ch'] [[]|]]; simpl in *; [|auto|auto].
    destruct (decide (types_to_expect self ≠ ∅)) as [Hne|He%dec_stable]; simpl; rewrite ?H1, ?H2.
    + split; [done|]. repeat case_decide; naive_solver.
    + rewrite He. split; [set_solver|]. rewrite decide_False; [done|]. tauto.
  - by apply Hsame.
  - by apply Hsame.
Qed.

Lemma subseteq_difference_empty (T A : gset string) : T ∖ A = ∅ ↔ T ⊆ A.
Proof.
  split; [|set_solver]. intros H x Hx. destruct (decide (x ∈ A)); set_solver.
Qed.

Lemma release_twice (T A B : gset string) (b : bool) :
  (if decide (T ∖ A ≠ ∅ ∧ T ∖ A ⊆ B) then false
   else if decide (T ≠ ∅ ∧ T ∖ A = ∅) then false else b) =
  (if decide (T ≠ ∅ ∧ T ⊆ A ∪ B) then false else b).
Proof.
  assert (T ∖ A ⊆ B ↔ T ⊆ A ∪ B) as Hsub.
  { split; [|set_solver]. intros H x Hx. destruct (decide (x ∈ A)); set_solver. }
  assert (T ∖ A = ∅ → T ⊆ A ∪ B) as H1.
  { rewrite subseteq_difference_empty. set_solver. }
  assert (T ∖ A ≠ ∅ → T ≠ ∅) as H2 by (intros H ->; apply H; set_solver).
  repeat case_decide; tauto || (exfalso; tauto) || idtac.
  all: destruct (decide (T ∖ A = ∅)); tauto.
Qed.

(** C5: readiness. Along any run of the client's loop, over any events and however
    it ends, the types still expected are those not acknowledged yet; the startup
    blocker is released exactly when the last of the expected types has been
    acknowledged: a rejected response does not count, and a client that expects no
    type never releases it. *)
Theorem xds_ready {S} (c : AdsClient S * Channel) evs :
  let c' := outcome (run_events c evs) in
  types_to_expect c'.1 = types_to_expect c.1 ∖ acked c evs ∧
  block_ready c'.1 = if decide (types_to_expect c.1 ≠ ∅ ∧ types_to_expect c.1 ⊆ acked c evs) then false
                     else block_ready c.1.
Proof.
  revert c. induction evs as [|ev evs IH]; intros c; cbn [run_events acked outcome].
  - split; [set_solver|]. rewrite decide_False; [done|]. set_solver.
  - pose proof (loop_step_ready c ev) as [H1 H2].
    set (acks := match ev with MessageEvent _ => _ | _ => _ end) in *.
    destruct (loop_step c ev) as [c1|c1 r]; cbn [outcome] in *.
    + destruct (IH c1) as [H3 H4]. rewrite H3, H4, H1, H2. split; [set_solver|].
      rewrite H1. apply release_twice.
    + rewrite (right_id_L ∅ (∪)). rewrite H1, H2. split; [done|]. rewrite H1.
      apply decide_ext. by rewrite subseteq_difference_empty.
Qed.

Lemma run_loop_bounds r b :
  (INITIAL_BACKOFF ≤ b ≤ MAX_BACKOFF)%N →
  (INITIAL_BACKOFF ≤ (run_loop r b).2 ≤ MAX_BACKOFF)%N.
Proof.
  unfold INITIAL_BACKOFF, MAX_BACKOFF. intros Hb. destruct r as [|[]]; cbn [run_loop snd];
    unfold INITIAL_BACKOFF, MAX_BACKOFF; try lia.
  destruct (_ || _); lia.
Qed.

Lemma backoff_bounds outcomes b :
  (INITIAL_BACKOFF ≤ b ≤ MAX_BACKOFF)%N →
  (INITIAL_BACKOFF ≤ foldl (λ b r, (run_loop r b).2) b outcomes ≤ MAX_BACKOFF)%N.
Proof.
  revert b. induction outcomes as [|r l IH]; intros b Hb; simpl; [done|].
  apply IH. by apply run_loop_bounds.
Qed.

(** The reconnection backoff stays between its bounds over any sequence of
    outcomes, and consecutive connection failures double it up to the maximum. *)
Theorem xds_backoff outcomes k :
  (INITIAL_BACKOFF ≤ backoff_after outcomes ≤ MAX_BACKOFF)%N ∧
  backoff_after (replicate k (Err Transport)) = N.min MAX_BACKOFF (INITIAL_BACKOFF * 2 ^ N.of_nat k).
Proof.
  split.
  - by apply backoff_bounds.
  - unfold backoff_after. induction k as [|k IH]; [done|].
    rewrite replicate_S_end, foldl_app, IH. simpl.
    rewrite Nat2N.inj_succ, N.pow_succ_r'. unfold INITIAL_BACKOFF, MAX_BACKOFF. lia.
Qed.

(** A demand subscribes to its resource, records it as known and leaves its
    waiter pending; but a demand for a resource that already has a waiter drops
    that waiter's channel, so the earlier caller wakes although no response has
    been handled. *)
Theorem xds_demand {S} (self : AdsClient S) tx key old sent :
  pending (state self) !! key = Some old →
  let '(self', ch, r) := handle_demand_event self (Some (tx, key)) (Some sent) in
  ch = Some (sent ++ [mkRequest (rk_type_url key) None [rk_name key] [] ∅ "" None]) ∧ r = Ok () ∧
  pending (state self') = <[key := tx]> (pending (state self)) ∧
  rk_name key ∈ default ∅ (known_resources (state self') !! rk_type_url key) ∧
  woken (state self') = woken (state self) ++ [SenderDropped old].
Proof.
  intros Hold. simpl. rewrite Hold, lookup_insert_eq. simpl. split_and!; set_solver.
Qed.

Lemma xds_demand_witness :
  let key := key_of "type" "a" in
  let c0 := client_new (config_new (S := unit) (λ _, None) "addr" "gw" "ns") tt in
  let c1 := (handle_demand_event c0 (Some (1%N, key)) (Some [])).1.1 in
  woken (state (handle_demand_event c1 (Some (2%N, key)) (Some [])).1.1) = [SenderDropped 1%N].
Proof.
  intros key c0 c1.
  exact (proj2 (proj2 (proj2 (proj2 (xds_demand c1 2%N key 1%N [] eq_refl))))).
Defined.
