(* ===== verification/Json.v ===== *)
(** Json: JSON values ([serde_json::Value], whose objects keep the order of their
    keys), the paths of [json.rs], and reading bodies within a limit ([json.rs]
    and [inspect_body] of [http/mod.rs]).

    A body is the text it will give.  The parser and printer of [serde_json] and
    the collector of bodies are interfaces. *)
From Stdlib Require Import SpecFloat.
From S2P Require Import Prelude Strs.

(** * Values *)

#[local] Set Warnings "-register-all".

Inductive Number := PosInt (n : N) | NegInt (z : Z) | Float (f : spec_float).

Inductive Value :=
| Null
| Bool (b : bool)
| Num (n : Number)
| Str (s : string)
| Array (l : list Value)
| Object (m : list (string * Value)).

Definition as_str (v : Value) : option string := match v with Str s => Some s | _ => None end.
Definition as_object (v : Value) : option (list (string * Value)) :=
  match v with Object m => Some m | _ => None end.

(** [Map::get] *)
Definition map_get (m : list (string * Value)) (k : string) : option Value :=
  snd <$> find (λ '(k', _), Str.eqb k' k) m.

(** Assigning through [Map::get_mut]: only the first entry of a key counts. *)
Fixpoint map_alter (f : Value → option Value) (k : string) (m : list (string * Value))
    : option (list (string * Value)) :=
  match m with
  | [] => None
  | (k', v) :: m =>
    if Str.eqb k' k then v ← f v; Some ((k', v) :: m)
    else m ← map_alter f k m; Some ((k', v) :: m)
  end.

(** * Paths *)

Definition usize_max : N := 2 ^ 64 - 1.

Definition parse_index (s : string) : option nat :=
  if Str.starts_with "+" s || (Str.starts_with "0" s && negb (bool_decide (Str.len s = 1))) then None
  else N.to_nat <$> Str.parse_uint usize_max s.

Definition child (target : Value) (token : string) : option Value :=
  match target with
  | Object map => map_get map token
  | Array l => x ← parse_index token; l !! x
  | _ => None
  end.

Fixpoint traverse (value : Value) (path : list string) : option Value :=
  match path with
  | [] => Some value
  | token :: path => target ← child value token; traverse target path
  end.

Definition must_traverse {T} (value : Value) (path : list string) (f : Value → option T)
    : result T (list string) :=
  ok_or (v ← traverse value path; f v) path.

(** [traverse_mut] gives a place in the value; [traverse_mut v path f] is the
    value after [f] has been applied there. *)
Fixpoint traverse_mut (value : Value) (path : list string) (f : Value → Value) : option Value :=
  match path with
  | [] => Some (f value)
  | token :: path =>
    match value with
    | Object map => Object <$> map_alter (λ v, traverse_mut v path f) token map
    | Array l =>
      x ← parse_index token; v ← l !! x; v ← traverse_mut v path f; Some (Array (<[x := v]> l))
    | _ => None
    end
  end.

(** ** Facts *)

Lemma map_get_cons k' v m k :
  map_get ((k', v) :: m) k = if Str.eqb k' k then Some v else map_get m k.
Proof. unfold map_get. simpl. by destruct (Str.eqb k' k). Qed.

Lemma map_alter_Some f k m m' :
  map_alter f k m = Some m' →
  ∃ v v', map_get m k = Some v ∧ f v = Some v' ∧ map_get m' k = Some v' ∧
    (∀ k', k' ≠ k → map_get m' k' = map_get m k') ∧ m'.*1 = m.*1.
Proof.
  revert m'. induction m as [|[k0 v0] m IH]; intros m'; simpl; [done|].
  destruct (Str.eqb k0 k) eqn:Hk.
  - destruct (f v0) as [v'|] eqn:Hf; [|done]. intros [= <-]. exists v0, v'.
    rewrite !map_get_cons, Hk. split_and!; [done..| |done].
    intros k' Hne. rewrite !map_get_cons. apply Str.eqb_eq in Hk as ->.
    destruct (Str.eqb k k') eqn:Hk'; [|done]. by apply Str.eqb_eq in Hk'.
  - destruct (map_alter f k m) as [m1|]; [|done]. intros [= <-].
    destruct (IH _ eq_refl) as (v & v' & ? & ? & ? & Hframe & ?). exists v, v'.
    rewrite !map_get_cons, Hk. split_and!; [done..| |].
    + intros k' Hne. rewrite !map_get_cons. by rewrite Hframe.
    + csimpl. by f_equal.
Qed.

Lemma map_alter_is_Some f k m :
  is_Some (map_alter f k m) ↔ ∃ v, map_get m k = Some v ∧ is_Some (f v).
Proof.
  induction m as [|[k0 v0] m IH]; simpl.
  - split; [by intros []|]. by intros (? & ? & _).
  - rewrite map_get_cons. destruct (Str.eqb k0 k).
    + destruct (f v0) eqn:Hf; simpl; [naive_solver|]. split; [by intros []|]. intros (? & [= <-] & []).
      congruence.
    + rewrite <-IH. destruct (map_alter f k m); simpl; [naive_solver|]. split; by intros [].
Qed.

Lemma traverse_app v p q : traverse v (p ++ q) = (w ← traverse v p; traverse w q).
Proof.
  revert v. induction p as [|t p IH]; intros v; simpl; [done|].
  destruct (child v t); [apply IH|done].
Qed.

Lemma traverse_mut_object m t p f :
  traverse_mut (Object m) (t :: p) f = Object <$> map_alter (λ v, traverse_mut v p f) t m.
Proof. done. Qed.

(** A place exists exactly when it can be read. *)
Lemma traverse_mut_is_Some v p f : is_Some (traverse_mut v p f) ↔ is_Some (traverse v p).
Proof.
  revert v. induction p as [|t p IH]; intros v; [done|].
  destruct v as [| | | |l|m]; try (split; by intros []).
  - simpl. destruct (parse_index t) as [x|]; simpl; [|split; by intros []].
    destruct (l !! x) as [w|]; simpl; [|split; by intros []].
    rewrite <-IH. destruct (traverse_mut w p f); simpl; [done|split; by intros []].
  - rewrite traverse_mut_object, fmap_is_Some, map_alter_is_Some. simpl.
    destruct (map_get m t) as [w|]; simpl.
    + rewrite <-IH. naive_solver.
    + split; [naive_solver|by intros []].
Qed.

(** Reading back what was written, below the place and inside it. *)
Lemma traverse_mut_get v p f v' q :
  traverse_mut v p f = Some v' →
  traverse v' (p ++ q) = (w ← traverse v p; traverse (f w) q).
Proof.
  revert v v'. induction p as [|t p IH]; intros v v'; simpl; [by intros [= <-]|].
  destruct v as [| | | |l|m]; try done; simpl.
  - destruct (parse_index t) as [x|] eqn:Hx; [|done]. simpl.
    destruct (l !! x) as [w|] eqn:Hw; [|done]. simpl.
    destruct (traverse_mut w p f) as [w'|] eqn:Ht; [|done]. simpl. intros [= <-]. simpl.
    rewrite Hx. simpl. rewrite list_lookup_insert_eq by (by eapply lookup_lt_Some). simpl. eauto.
  - intros (m' & Hm & ->)%fmap_Some. simpl. apply map_alter_Some in Hm as (w & w' & -> & Ht & -> & _).
    simpl. eauto.
Qed.

(** *** Indices are canonical *)

(** The value of a string of digits, and its bounds. *)
Lemma parse_digits_bounds s acc n :
  Str.parse_digits s acc = Some n →
  (acc * 10 ^ N.of_nat (Str.len s) ≤ n < (acc + 1) * 10 ^ N.of_nat (Str.len s))%N.
Proof.
  revert acc. induction s as [|a s IH]; intros acc; cbn [Str.parse_digits].
  - intros [= ->]. simpl. lia.
  - case_bool_decide as Ha; [|done]. intros Hb%IH.
    change (Str.len (String a s)) with (S (Str.len s)).
    rewrite Nat2N.inj_succ, N.pow_succ_r'.
    set (k := (10 ^ N.of_nat (Str.len s))%N) in *. nia.
Qed.

Lemma digit_inj (acc acc' x y : N) :
  (48 ≤ x ≤ 57)%N → (48 ≤ y ≤ 57)%N → (acc * 10 + (x - 48))%N = (acc' * 10 + (y - 48))%N →
  x = y ∧ acc = acc'.
Proof. intros. split; lia. Qed.

Lemma parse_digits_inj s t acc acc' n :
  Str.len s = Str.len t → Str.parse_digits s acc = Some n → Str.parse_digits t acc' = Some n →
  s = t ∧ acc = acc'.
Proof.
  revert t acc acc'. induction s as [|a s IH]; intros [|b t] acc acc' Hl; try done;
    cbn [Str.parse_digits].
  - intros [= ->] [= ->]. done.
  - case_bool_decide as Ha; [|done]. case_bool_decide as Hb; [|done]. intros Hs Ht.
    destruct (IH t _ _ ltac:(by injection Hl) Hs Ht) as [-> Heq].
    apply (digit_inj _ _ _ _ Ha Hb) in Heq as [Hab ->].
    split; [|done]. f_equal. rewrite <-(ascii_N_embedding a), <-(ascii_N_embedding b).
    by unfold Str.byte in Hab; rewrite Hab.
Qed.

Lemma parse_index_canonical s n :
  parse_index s = Some n →
  Str.parse_digits s 0 = Some (N.of_nat n) ∧
  (s = "0" ∨ (0 < n ∧ (10 ^ N.of_nat (Str.len s - 1) ≤ N.of_nat n < 10 ^ N.of_nat (Str.len s))%N)).
Proof.
  unfold parse_index. destruct (Str.starts_with "+" s) eqn:Hplus; [done|]. simpl.
  destruct (Str.starts_with "0" s && _) eqn:Hzero; [done|]. intros (m & Hp & ->)%fmap_Some.
  rewrite N2Nat.id. unfold Str.parse_uint in Hp.
  destruct s as [|a s]; [done|].
  assert (a ≠ "+"%char) as Ha by (intros ->; vm_compute in Hplus; done).
  assert (∀ A (x y : A), match a with "+"%char => x | _ => y end = y) as Hm.
  { intros. destruct a as [[] [] [] [] [] [] [] []]; done. }
  rewrite Hm in Hp. simpl Str.is_empty in Hp. cbn [mbind option_bind] in Hp.
  destruct (Str.parse_digits (String a s) 0) as [n|] eqn:Hd; [|done]. simpl in Hp.
  case_bool_decide; [|done]. injection Hp as ->. split; [done|].
  cbn [Str.parse_digits] in Hd. case_bool_decide as Hdig; [|done].
  apply parse_digits_bounds in Hd as Hb. change (Str.len (String a s)) with (S (Str.len s)) in *.
  destruct (decide (a = "0"%char)) as [->|Hz].
  - left. simpl in Hzero. apply negb_false_iff, bool_decide_eq_true in Hzero. by destruct s.
  - right. rewrite Nat.sub_succ, Nat.sub_0_r, Nat2N.inj_succ, N.pow_succ_r'.
    assert (Str.byte a ≠ 48%N).
    { intros Hb0. apply Hz. rewrite <-(ascii_N_embedding a). unfold Str.byte in Hb0. by rewrite Hb0. }
    pose proof (N.pow_nonzero 10 (N.of_nat (Str.len s))).
    set (k := (10 ^ N.of_nat (Str.len s))%N) in *. split; nia.
Qed.

(** Two different tokens are never the same index. *)
Lemma parse_index_inj s t n : parse_index s = Some n → parse_index t = Some n → s = t.
Proof.
  intros [Hs [->|[Hn Hbs]]]%parse_index_canonical [Ht [->|[Hn' Hbt]]]%parse_index_canonical.
  - done.
  - change (Str.parse_digits "0" 0) with (Some 0%N) in Hs. injection Hs as Hs. lia.
  - change (Str.parse_digits "0" 0) with (Some 0%N) in Ht. injection Ht as Ht. lia.
  - destruct (decide (Str.len s = Str.len t)) as [Hl|Hl]; [by eapply parse_digits_inj|].
    exfalso. destruct (decide (Str.len s < Str.len t)).
    + pose proof (N.pow_le_mono_r 10 (N.of_nat (Str.len s)) (N.of_nat (Str.len t - 1))). lia.
    + pose proof (N.pow_le_mono_r 10 (N.of_nat (Str.len t)) (N.of_nat (Str.len s - 1))). lia.
Qed.

(** What lies beside the place is left alone. *)
Lemma traverse_mut_other v p t u f v' q q' :
  traverse_mut v (p ++ t :: q) f = Some v' → t ≠ u →
  traverse v' (p ++ u :: q') = traverse v (p ++ u :: q').
Proof.
  intros Hm Hne. revert v v' Hm. induction p as [|x p IH]; intros v v'.
  - destruct v as [| | | |l|m]; try done.
    + simpl. destruct (parse_index t) as [i|] eqn:Hi; [|done]. simpl.
      destruct (l !! i) as [w|]; [|done]. simpl. destruct (traverse_mut w q f) as [w'|]; [|done].
      intros [= <-]. simpl. destruct (parse_index u) as [j|] eqn:Hj; [|done]. simpl.
      rewrite list_lookup_insert_ne; [done|]. intros ->. by eapply Hne, parse_index_inj.
    + rewrite app_nil_l, traverse_mut_object. intros (m' & Hm & ->)%fmap_Some. simpl.
      apply map_alter_Some in Hm as (_ & _ & _ & _ & _ & Hframe & _). by rewrite Hframe.
  - cbn [app]. destruct v as [| | | |l|m]; try done.
    + simpl. destruct (parse_index x) as [i|] eqn:Hi; [|done]. simpl.
      destruct (l !! i) as [w|] eqn:Hw; [|done]. simpl.
      destruct (traverse_mut w _ f) as [w'|] eqn:Hw'; [|done]. intros [= <-]. simpl.
      rewrite Hi. simpl. rewrite list_lookup_insert_eq by (by eapply lookup_lt_Some). simpl. eauto.
    + rewrite traverse_mut_object. intros (m' & Hm & ->)%fmap_Some. simpl.
      apply map_alter_Some in Hm as (w & w' & -> & Hw & -> & _). simpl. eauto.
Qed.

(** Assigning through a path of a JSON value. The place exists exactly when it
    can be read; afterwards it holds the new value, everything below it is read
    from there, and every path that branches off before it reads as before. *)
Theorem json_traverse_mut v p f :
  match traverse_mut v p f with
  | None => traverse v p = None
  | Some v' =>
    ∃ w, traverse v p = Some w ∧ (∀ q, traverse v' (p ++ q) = traverse (f w) q) ∧
      ∀ p1 t q u q', p = p1 ++ t :: q → t ≠ u → traverse v' (p1 ++ u :: q') = traverse v (p1 ++ u :: q')
  end.
Proof.
  destruct (traverse_mut v p f) as [v'|] eqn:Hm.
  - destruct (proj1 (traverse_mut_is_Some v p f)) as [w Hw]; [by eexists|]. exists w.
    split_and!; [done| |].
    + intros q. by rewrite (traverse_mut_get _ _ _ _ q Hm), Hw.
    + intros p1 t q u q' -> Hne. by eapply traverse_mut_other.
  - apply eq_None_not_Some. rewrite <-(traverse_mut_is_Some v p f), Hm. by intros [].
Qed.

(** * Reading bodies *)

(** [axum::body::to_bytes]: the whole body, or an error when it is longer than the
    limit. *)
Class BodyReader := { to_bytes : string → N → option string }.

Class BodyReaderLaws `{BodyReader} : Prop := {
  to_bytes_within : ∀ b limit, (N.of_nat (Str.len b) ≤ limit)%N → to_bytes b limit = Some b;
  to_bytes_beyond : ∀ b limit, (limit < N.of_nat (Str.len b))%N → to_bytes b limit = None
}.

Definition BODY_LIMIT : N := 2097152.

Section bodies.
Context `{!BodyReader} {T : Type}.
(** [serde_json::from_slice] and [to_vec]. *)
Context (from_slice : string → option T) (to_vec : T → option string).

Definition from_body (body : string) : option T :=
  bytes ← to_bytes body BODY_LIMIT; from_slice bytes.

(** The body afterwards, and what was read. *)
Definition inspect_body (body : string) : string * option T :=
  match to_bytes body BODY_LIMIT with
  | None => ("", None)
  | Some bytes => (bytes, from_slice bytes)
  end.

Definition to_body (j : T) : option string := to_vec j.
End bodies.

(** [inspect_body] of [http/mod.rs]. *)
Definition inspect_raw_body `{BodyReader} (body : string) : string * option string :=
  match to_bytes body BODY_LIMIT with
  | None => ("", None)
  | Some bytes => (bytes, Some bytes)
  end.

(** Looking at a body. Up to two mebibytes it is put back unchanged, whether
    its contents parse or not; a longer one is not put back: what is left is an
    empty body, with the error. *)
Theorem inspect_body_keeps `{!BodyReader, !BodyReaderLaws} {T} (from_slice : string → option T) b :
  if decide (N.of_nat (Str.len b) ≤ BODY_LIMIT)%N
  then inspect_body from_slice b = (b, from_slice b) ∧ inspect_raw_body b = (b, Some b)
  else inspect_body from_slice b = ("", None) ∧ inspect_raw_body b = ("", None).
Proof.
  unfold inspect_body, inspect_raw_body. case_decide.
  - by rewrite to_bytes_within.
  - by rewrite to_bytes_beyond by lia.
Qed.

Definition limited_reader : BodyReader := {|
  to_bytes b limit := if decide (N.of_nat (Str.len b) ≤ limit)%N then Some b else None
|}.

#[export] Instance limited_reader_laws : @BodyReaderLaws limited_reader.
Proof.
  split; intros b limit Hl; simpl; [by rewrite decide_True|]. rewrite decide_False; [done|lia].
Qed.

Lemma inspect_body_keeps_witness :
  @inspect_body limited_reader _ (λ s : string, Some s) "{}" = ("{}", Some "{}").
Proof.
  pose proof (@inspect_body_keeps limited_reader limited_reader_laws string (λ s : string, Some s) "{}") as H.
  rewrite decide_True in H by (vm_compute; discriminate). exact (proj1 H).
Defined.
