(* ===== verification/Http.v ===== *)
(** Http: the HTTP vocabulary of the gateway ([http/mod.rs]) on top of the [http]
    crate.  The crate's [HeaderMap] is an interface ([HeaderMapOps]) with the
    laws its documentation states ([HeaderMapLaws]) and one implementation
    ([gmap_headers]); a parsed [Uri] is the record of what its accessors
    return. *)
From S2P Require Import Prelude Strs.

(** * The [http::HeaderMap] interface *)

(** A multimap from (lower-case) header names to values. [hdr_into_iter] is the
    consuming iterator: it yields the name only with the first value of each
    name, [None] with the following ones. *)
Class HeaderMapOps := {
  HeaderMap : Type;
  hdr_new : HeaderMap;
  hdr_get_all : HeaderMap → string → list string;
  hdr_insert : HeaderMap → string → string → HeaderMap;
  hdr_append : HeaderMap → string → string → HeaderMap;
  hdr_remove : HeaderMap → string → HeaderMap;
  hdr_into_iter : HeaderMap → list (option string * string)
}.

(** How the consuming iterator presents one name with its values. *)
Definition hdr_group (k : string) (vs : list string) : list (option string * string) :=
  match vs with
  | [] => []
  | v :: vs => (Some k, v) :: ((λ v', (None, v')) <$> vs)
  end.

Class HeaderMapLaws `{HeaderMapOps} : Prop := {
  hdr_get_all_new : ∀ k, hdr_get_all hdr_new k = [];
  hdr_get_all_insert : ∀ m k v k',
    hdr_get_all (hdr_insert m k v) k' = if decide (k = k') then [v] else hdr_get_all m k';
  hdr_get_all_append : ∀ m k v k',
    hdr_get_all (hdr_append m k v) k' =
      hdr_get_all m k' ++ (if decide (k = k') then [v] else []);
  hdr_get_all_remove : ∀ m k k',
    hdr_get_all (hdr_remove m k) k' = if decide (k = k') then [] else hdr_get_all m k';
  hdr_into_iter_spec : ∀ m, ∃ ks,
    NoDup ks ∧ (∀ k, k ∈ ks ↔ hdr_get_all m k ≠ []) ∧
    hdr_into_iter m = concat ((λ k, hdr_group k (hdr_get_all m k)) <$> ks)
}.

(** [HeaderMap::get]: the first value. *)
Definition hdr_get `{HeaderMapOps} (m : HeaderMap) (k : string) : option string :=
  head (hdr_get_all m k).

(** The implementation used by the examples: a finite map to value lists. *)
Definition gmap_hdr_get_all (m : gmap string (list string)) (k : string) : list string :=
  default [] (m !! k).

Definition gmap_headers : HeaderMapOps := {|
  HeaderMap := gmap string (list string);
  hdr_new := ∅;
  hdr_get_all := gmap_hdr_get_all;
  hdr_insert m k v := <[k := [v]]> m;
  hdr_append m k v := <[k := gmap_hdr_get_all m k ++ [v]]> m;
  hdr_remove m k := delete k m;
  hdr_into_iter m :=
    concat ((λ '(k, vs), hdr_group k vs) <$> map_to_list m)
|}.

Lemma hdr_group_nil_names (l : list (string * list string)) :
  concat ((λ '(k, vs), hdr_group k vs) <$> l) =
  concat ((λ '(k, vs), hdr_group k vs) <$> filter (λ '(_, vs), vs ≠ []) l).
Proof.
  induction l as [|[k vs] l IH]; [done|]. rewrite filter_cons. csimpl.
  case_decide as Hv; csimpl; [by rewrite IH|]. by destruct vs.
Qed.

Lemma gmap_headers_laws : @HeaderMapLaws gmap_headers.
Proof.
  split; simpl; unfold gmap_hdr_get_all.
  - intros k. by rewrite lookup_empty.
  - intros m k v k'. rewrite lookup_insert. by case_decide.
  - intros m k v k'. rewrite lookup_insert. case_decide; [by subst|]. by rewrite app_nil_r.
  - intros m k k'. rewrite lookup_delete. by case_decide.
  - intros m. set (l := filter (λ '(_, vs), vs ≠ []) (map_to_list m)).
    assert (∀ k vs, (k, vs) ∈ l ↔ m !! k = Some vs ∧ vs ≠ []) as Hl.
    { intros k vs. unfold l. rewrite list_elem_of_filter, elem_of_map_to_list. naive_solver. }
    assert (NoDup l.*1) as Hnd.
    { eapply (sublist_NoDup _ _ (NoDup_fst_map_to_list m)).
      apply fmap_sublist, sublist_filter. }
    exists (l.*1). split_and!; [done| |].
    + intros k. rewrite list_elem_of_fmap. split.
      * intros [[k' vs] [-> Hin]]. apply Hl in Hin as [Hk ?]. simpl. by rewrite Hk.
      * intros Hne. destruct (m !! k) as [vs|] eqn:Hk; [|done].
        exists (k, vs). split; [done|]. by apply Hl.
    + rewrite hdr_group_nil_names. fold l. rewrite <-list_fmap_compose. f_equal.
      apply list_fmap_ext. intros i [k vs] Hi. simpl.
      apply list_elem_of_lookup_2 in Hi. apply Hl in Hi as [-> _]. done.
Qed.

(** * Requests *)

(** [http::Uri], by its accessors [scheme_str()], [authority()], [host()],
    [port_u16()], [path_and_query()], [path()] and [query()]. *)
Record Uri := {
  uri_scheme : option string;
  uri_authority : option string;
  uri_path_and_query : option string;
  uri_host : option string;
  uri_port : option N;
  uri_path : string;
  uri_query : option string
}.

(** [req_original_url] is the [OriginalUrl] extension. *)
Record Request `{HeaderMapOps} := {
  req_method : string;
  req_uri : Uri;
  req_headers : HeaderMap;
  req_body : string;
  req_original_url : option Uri
}.

Record Response `{HeaderMapOps} := {
  resp_status : Z;
  resp_headers : HeaderMap;
  resp_body : string
}.

(** ** [get_host] *)

(** [strip_port]: the user info before the last [@] and the port are dropped.
    Indexing byte 0 of an empty host, or an unclosed bracket, panics. *)
Definition strip_port (auth : string) : comp string :=
  let host_port := default "" (last (Str.split "@" auth)) in
  match host_port with
  | "" => Panic
  | String a _ =>
    if decide (a = "["%char)
    then i ← expect (Str.find_char "]" host_port);
         '(l, _) ← Str.split_at (i + 1) host_port; Ret l
    else Ret (default "" (head (Str.split ":" host_port)))
  end.

Inductive HostError := InvalidRequest.

Definition get_host `{HeaderMapOps} (req : Request) : comp (result string HostError) :=
  match uri_host (req_uri req) with
  | None => Ret (Err InvalidRequest)
  | Some host => host ← strip_port host; Ret (Ok host)
  end.

(** ** Content types *)

Inductive WellKnownContentTypes := Json | Sse | Unknown.
#[export] Instance WellKnownContentTypes_eq_dec : EqDecision WellKnownContentTypes.
Proof. solve_decision. Defined.

Section content_type.
Context `{HeaderMapOps}.
(** [HeaderValue::to_str] and the [mime] crate's parser (type and subtype). *)
Context (to_str : string → option string) (mime_parse : string → option (string * string)).

Definition classify_content_type (h : HeaderMap) : WellKnownContentTypes :=
  match hdr_get h "content-type" with
  | Some content_type =>
    match to_str content_type with
    | Some content_type_str =>
      match mime_parse content_type_str with
      | Some (t, sub) =>
        if Str.eqb t "application" && Str.eqb sub "json" then Json
        else if Str.eqb t "text" && Str.eqb sub "event-stream" then Sse
        else Unknown
      | None => Unknown
      end
    | None => Unknown
    end
  | None => Unknown
  end.
End content_type.

(** ** Policy responses *)

Section policy_response.
Context `{HeaderMapOps}.

(** [for (k, v) in rh { let Some(k) = k else { continue }; dest.insert(k, v) }] *)
Definition merge_in_headers (additional_headers : option HeaderMap) (dest : HeaderMap)
    : HeaderMap :=
  match additional_headers with
  | None => dest
  | Some rh =>
    foldl (λ d '(k, v), match k with Some k => hdr_insert d k v | None => d end)
      dest (hdr_into_iter rh)
  end.

Record PolicyResponse := {
  direct_response : option Response;
  response_headers : option HeaderMap
}.

Definition PolicyResponse_default : PolicyResponse :=
  {| direct_response := None; response_headers := None |}.

Definition should_short_circuit (p : PolicyResponse) : bool :=
  match direct_response p with Some _ => true | None => false end.

Definition merge (self other : PolicyResponse) : PolicyResponse :=
  match direct_response other with
  | Some _ => other
  | None =>
    match response_headers self, response_headers other with
    | None, None => PolicyResponse_default
    | a, b =>
      {| direct_response := None;
         response_headers := Some (merge_in_headers b (merge_in_headers a hdr_new)) |}
    end
  end.
End policy_response.

(** ** Facts *)

Section facts.
Context `{!HeaderMapOps, !HeaderMapLaws}.

Lemma foldl_hdr_group k vs dest k' :
  hdr_get_all
    (foldl (λ d '(k, v), match k with Some k => hdr_insert d k v | None => d end)
       dest (hdr_group k vs)) k' =
  if decide (k = k' ∧ vs ≠ []) then option_list (head vs) else hdr_get_all dest k'.
Proof.
  destruct vs as [|v vs]; simpl; [by case_decide; naive_solver|].
  assert (∀ d, foldl (λ d '(k, v), match k with Some k => hdr_insert d k v | None => d end)
       d ((λ v' : string, (None : option string, v')) <$> vs) = d) as Htail.
  { intros d. induction vs; [done|]. csimpl. done. }
  rewrite Htail, hdr_get_all_insert. repeat case_decide; naive_solver.
Qed.

(** Merging keeps, for every name of the merged map, only its first value. *)
Lemma merge_in_headers_get_all rh dest k :
  hdr_get_all (merge_in_headers (Some rh) dest) k =
  match hdr_get_all rh k with v :: _ => [v] | [] => hdr_get_all dest k end.
Proof.
  simpl. destruct (hdr_into_iter_spec rh) as (ks & Hnd & Hks & ->).
  cut (∀ dest, hdr_get_all
    (foldl (λ d '(k, v), match k with Some k => hdr_insert d k v | None => d end)
       dest (concat ((λ k, hdr_group k (hdr_get_all rh k)) <$> ks))) k =
    if decide (k ∈ ks) then option_list (head (hdr_get_all rh k)) else hdr_get_all dest k).
  { intros ->. specialize (Hks k). case_decide as Hin.
    - destruct (hdr_get_all rh k); naive_solver.
    - destruct (hdr_get_all rh k); [done|]. destruct Hin. by apply Hks. }
  clear dest. assert (∀ k, k ∈ ks → hdr_get_all rh k ≠ []) as Hne by naive_solver.
  clear Hks. induction ks as [|k0 ks IH]; intros dest; csimpl; [done|].
  apply NoDup_cons in Hnd as [Hk0 Hnd].
  rewrite foldl_app, IH by (done || set_solver).
  rewrite foldl_hdr_group. specialize (Hne k0 (list_elem_of_here _ _)).
  repeat case_decide; set_solver.
Qed.
End facts.
