(* ===== verification/DiscoveryTypes.v ===== *)
(** DiscoveryTypes: the service-discovery data model ([types/discovery.rs]): the
    keys of the discovery stores with their text forms, workloads, services and
    endpoints, and the conversions from the xDS messages of [workload.proto]. *)
From S2P Require Import Prelude Strs.

(** * Addresses *)

(** [std::net::IpAddr], by its octets in network order. *)
Inductive IpAddr := V4 (octets : string) | V6 (octets : string).
#[export] Instance IpAddr_eq_dec : EqDecision IpAddr.
Proof. solve_decision. Defined.
#[export] Program Instance IpAddr_countable : Countable IpAddr :=
  inj_countable' (λ a, match a with V4 o => inl o | V6 o => inr o end)
    (λ s, match s with inl o => V4 o | inr o => V6 o end) _.
Next Obligation. by intros []. Qed.

Definition is_ipv4 (a : IpAddr) : bool := match a with V4 _ => true | V6 _ => false end.
Definition is_ipv6 (a : IpAddr) : bool := match a with V4 _ => false | V6 _ => true end.

Record SocketAddr := { sa_ip : IpAddr; sa_port : N }.
#[export] Instance SocketAddr_eq_dec : EqDecision SocketAddr.
Proof. solve_decision. Defined.
#[export] Program Instance SocketAddr_countable : Countable SocketAddr :=
  inj_countable' (λ a, (sa_ip a, sa_port a)) (λ p, {| sa_ip := p.1; sa_port := p.2 |}) _.
Next Obligation. by intros []. Qed.

(** [e as u16] of a wider unsigned integer. *)
Definition as_u16 (n : N) : N := (n mod 65536)%N.

(** Errors of the conversions ([types/proto.rs]); those of third-party parsers
    carry no data here. *)
Inductive ProtoError :=
| NamespacedHostnameParse (s : string)
| AddressParse
| ByteAddressParse (n : nat)
| EnumParse (s : string)
| MissingGatewayAddress
| EnumError (v : Z)
| InvalidURI
| InvalidStatusCode
| Generic (s : string)
| HeaderValueError
| HeaderNameError
| RegexError
| DurationError
| MissingRequiredField.
#[export] Instance ProtoError_eq_dec : EqDecision ProtoError.
Proof. solve_decision. Defined.

(** * Namespaced host names *)

Module NamespacedHostname.

Record t := mk { namespace : string; hostname : string }.

#[global] Instance eq_dec : EqDecision t.
Proof. solve_decision. Defined.
#[global] Program Instance countable : Countable t :=
  inj_countable' (λ n, (namespace n, hostname n)) (λ p, mk p.1 p.2) _.
Next Obligation. by intros []. Qed.

Definition from_str (value : string) : result t ProtoError :=
  match Str.split_once "/" value with
  | None => Err (NamespacedHostnameParse value)
  | Some (namespace, hostname) => Ok (mk namespace hostname)
  end.

Definition fmt (n : t) : string := namespace n +:+ "/" +:+ hostname n.

End NamespacedHostname.

(** * Network addresses *)

Module NetworkAddress.
Record t := mk { network : string; address : IpAddr }.

#[global] Instance eq_dec : EqDecision t.
Proof. solve_decision. Defined.
#[global] Program Instance countable : Countable t :=
  inj_countable' (λ n, (network n, address n)) (λ p, mk p.1 p.2) _.
Next Obligation. by intros []. Qed.
End NetworkAddress.

Definition network_addr (network : string) (vip : IpAddr) : NetworkAddress.t :=
  NetworkAddress.mk network vip.

Definition byte_to_ip (b : string) : result IpAddr ProtoError :=
  match Str.len b with
  | 4 => Ok (V4 b)
  | 16 => Ok (V6 b)
  | n => Err (ByteAddressParse n)
  end.

(** * SPIFFE identities *)

Module Identity.

Inductive t := Spiffe (trust_domain namespace service_account : string).
#[global] Instance eq_dec : EqDecision t.
Proof. solve_decision. Defined.

Definition URI_PREFIX : string := "spiffe://".

(** The errors carry the text of the rejected identity. *)
Definition from_str (s : string) : result t string :=
  match Str.strip_prefix URI_PREFIX s with
  | None => Err s
  | Some rest =>
    match Str.split "/" rest with
    | [td; ns; namespace; sa; service_account] =>
      if Str.eqb ns "ns" && Str.eqb sa "sa"
      then Ok (Spiffe td namespace service_account)
      else Err s
    | _ => Err s
    end
  end.

Definition fmt (i : t) : string :=
  let 'Spiffe td ns sa := i in
  "spiffe://" +:+ td +:+ "/ns/" +:+ ns +:+ "/sa/" +:+ sa.

End Identity.

(** * Workloads *)

Inductive OutboundProtocol := OutTCP | OutHBONE | OutDOUBLEHBONE.
Inductive NetworkMode := Standard | HostNetwork.
#[export] Instance NetworkMode_eq_dec : EqDecision NetworkMode.
Proof. solve_decision. Defined.
Inductive HealthStatus := Healthy | Unhealthy.
#[export] Instance HealthStatus_eq_dec : EqDecision HealthStatus.
Proof. solve_decision. Defined.
Inductive InboundProtocol := TCP | HBONE | LegacyIstioMtls.
#[export] Instance InboundProtocol_eq_dec : EqDecision InboundProtocol.
Proof. solve_decision. Defined.

Record Locality := { region : string; zone : string; subzone : string }.
#[export] Instance Locality_eq_dec : EqDecision Locality.
Proof. solve_decision. Defined.

Inductive Destination :=
| DestAddress (a : NetworkAddress.t)
| DestHostname (n : NamespacedHostname.t).
#[export] Instance Destination_eq_dec : EqDecision Destination.
Proof. solve_decision. Defined.

Record GatewayAddress := { destination : Destination; hbone_mtls_port : N }.
#[export] Instance GatewayAddress_eq_dec : EqDecision GatewayAddress.
Proof. solve_decision. Defined.

Module Workload.
Record t := mk {
  workload_ips : list IpAddr;
  waypoint : option GatewayAddress;
  network_gateway : option GatewayAddress;
  protocol : InboundProtocol;
  network_mode : NetworkMode;
  uid : string;
  name : string;
  namespace : string;
  trust_domain : string;
  service_account : string;
  network : string;
  workload_name : string;
  workload_type : string;
  canonical_name : string;
  canonical_revision : string;
  hostname : string;
  node : string;
  authorization_policies : list string;
  status : HealthStatus;
  cluster_id : string;
  locality : Locality;
  services : list NamespacedHostname.t;
  capacity : N
}.
#[global] Instance eq_dec : EqDecision t.
Proof. solve_decision. Defined.

Definition identity (w : t) : Identity.t :=
  Identity.Spiffe (trust_domain w) (namespace w) (service_account w).
End Workload.

(** * Services *)

Inductive AppProtocol := Http11 | Http2 | Grpc.
#[export] Instance AppProtocol_eq_dec : EqDecision AppProtocol.
Proof. solve_decision. Defined.
Inductive IpFamily := Dual | IPv4 | IPv6.
#[export] Instance IpFamily_eq_dec : EqDecision IpFamily.
Proof. solve_decision. Defined.
Inductive LoadBalancerScopes := Region | Zone | Subzone | Node | Cluster | Network.
#[export] Instance LoadBalancerScopes_eq_dec : EqDecision LoadBalancerScopes.
Proof. solve_decision. Defined.
Inductive LoadBalancerHealthPolicy := OnlyHealthy | AllowAll.
#[export] Instance LoadBalancerHealthPolicy_eq_dec : EqDecision LoadBalancerHealthPolicy.
Proof. solve_decision. Defined.
Inductive LoadBalancerMode := ModeStandard | ModeStrict | ModeFailover.
#[export] Instance LoadBalancerMode_eq_dec : EqDecision LoadBalancerMode.
Proof. solve_decision. Defined.

Definition accepts_ip (f : IpFamily) (ip : IpAddr) : bool :=
  match f with Dual => true | IPv4 => is_ipv4 ip | IPv6 => is_ipv6 ip end.

Record LoadBalancer := {
  routing_preferences : list LoadBalancerScopes;
  mode : LoadBalancerMode;
  health_policy : LoadBalancerHealthPolicy
}.
#[export] Instance LoadBalancer_eq_dec : EqDecision LoadBalancer.
Proof. solve_decision. Defined.

Module Endpoint.
Record t := mk { workload_uid : string; port : gmap N N; status : HealthStatus }.
#[global] Instance eq_dec : EqDecision t.
Proof. solve_decision. Defined.
End Endpoint.

(** [EndpointSet] wraps a table from workload uids to endpoints. *)
Module EndpointSet.
Definition t := gmap string Endpoint.t.

Definition from_list (eps : list Endpoint.t) : t :=
  foldl (λ m ep, <[Endpoint.workload_uid ep := ep]> m) ∅ eps.
Definition insert (s : t) (k : string) (v : Endpoint.t) : t := <[k := v]> s.
Definition contains (s : t) (k : string) : bool :=
  match s !! k with Some _ => true | None => false end.
Definition get (s : t) (k : string) : option Endpoint.t := s !! k.
Definition remove (s : t) (k : string) : t := delete k s.
End EndpointSet.

Module Service.
Record t := mk {
  name : string;
  namespace : string;
  hostname : string;
  vips : list NetworkAddress.t;
  ports : gmap N N;
  app_protocols : gmap N AppProtocol;
  endpoints : gmap string Endpoint.t;
  subject_alt_names : list string;
  waypoint : option GatewayAddress;
  load_balancer : option LoadBalancer;
  ip_families : option IpFamily
}.
#[global] Instance eq_dec : EqDecision t.
Proof. solve_decision. Defined.

Definition set_endpoints (s : t) (eps : gmap string Endpoint.t) : t :=
  mk (name s) (namespace s) (hostname s) (vips s) (ports s) (app_protocols s) eps
    (subject_alt_names s) (waypoint s) (load_balancer s) (ip_families s).

Definition port_is_http2 (s : t) (port : N) : bool :=
  match app_protocols s !! port with Some (Http2 | Grpc) => true | _ => false end.

Definition port_is_http1 (s : t) (port : N) : bool :=
  match app_protocols s !! port with Some Http11 => true | _ => false end.

Definition namespaced_hostname (s : t) : NamespacedHostname.t :=
  NamespacedHostname.mk (namespace s) (hostname s).

Definition should_include_endpoint (s : t) (ep_health : HealthStatus) : bool :=
  bool_decide (ep_health = Healthy) ||
  match load_balancer s with
  | Some lb => bool_decide (health_policy lb = AllowAll)
  | None => false
  end.
End Service.

(** * xDS messages ([workload.proto]) *)

Module Proto.
Record Port := mkPort { service_port : N; target_port : N; app_protocol : Z }.

Inductive GatewayDestination :=
| Hostname (namespace hostname : string)
| Address (network address : string).

Record GatewayAddress := mkGatewayAddress {
  gw_destination : option GatewayDestination;
  gw_hbone_mtls_port : N
}.

Record LoadBalancing := mkLoadBalancing {
  lb_routing_preference : list Z;
  lb_mode : Z;
  lb_health_policy : Z
}.

Record Workload := mkWorkload {
  w_uid : string;
  w_name : string;
  w_namespace : string;
  w_addresses : list string;
  w_hostname : string;
  w_network : string;
  w_tunnel_protocol : Z;
  w_trust_domain : string;
  w_service_account : string;
  w_waypoint : option GatewayAddress;
  w_network_gateway : option GatewayAddress;
  w_node : string;
  w_canonical_name : string;
  w_canonical_revision : string;
  w_workload_type : Z;
  w_workload_name : string;
  w_services : gmap string (list Port);
  w_authorization_policies : list string;
  w_status : Z;
  w_cluster_id : string;
  w_locality : option (string * string * string);
  w_network_mode : Z;
  w_capacity : option N
}.

Record Service := mkService {
  s_name : string;
  s_namespace : string;
  s_hostname : string;
  s_addresses : list (string * string);
  s_ports : list Port;
  s_subject_alt_names : list string;
  s_waypoint : option GatewayAddress;
  s_load_balancing : option LoadBalancing;
  s_ip_families : Z
}.
End Proto.

(** ** Enumerations: [prost]'s [try_from(i32)] followed by the [From] of the source *)

Definition InboundProtocol_try_from (v : Z) : result InboundProtocol ProtoError :=
  if decide (v = 0%Z) then Ok TCP
  else if decide (v = 1%Z) then Ok HBONE
  else if decide (v = 2%Z) then Ok LegacyIstioMtls
  else Err (EnumError v).

Definition NetworkMode_try_from (v : Z) : result NetworkMode ProtoError :=
  if decide (v = 0%Z) then Ok Standard
  else if decide (v = 1%Z) then Ok HostNetwork
  else Err (EnumError v).

Definition HealthStatus_try_from (v : Z) : result HealthStatus ProtoError :=
  if decide (v = 0%Z) then Ok Healthy
  else if decide (v = 1%Z) then Ok Unhealthy
  else Err (EnumError v).

Definition IpFamily_try_from (v : Z) : result (option IpFamily) ProtoError :=
  if decide (v = 0%Z) then Ok None
  else if decide (v = 1%Z) then Ok (Some IPv4)
  else if decide (v = 2%Z) then Ok (Some IPv6)
  else if decide (v = 3%Z) then Ok (Some Dual)
  else Err (EnumError v).

Definition AppProtocol_try_from (v : Z) : result (option AppProtocol) ProtoError :=
  if decide (v = 0%Z) then Ok None
  else if decide (v = 1%Z) then Ok (Some Http11)
  else if decide (v = 2%Z) then Ok (Some Http2)
  else if decide (v = 3%Z) then Ok (Some Grpc)
  else Err (EnumError v).

Definition LoadBalancerMode_try_from (v : Z) : result LoadBalancerMode ProtoError :=
  if decide (v = 0%Z) then Ok ModeStandard
  else if decide (v = 1%Z) then Ok ModeStrict
  else if decide (v = 2%Z) then Ok ModeFailover
  else Err (EnumError v).

Definition LoadBalancerHealthPolicy_try_from (v : Z)
    : result LoadBalancerHealthPolicy ProtoError :=
  if decide (v = 0%Z) then Ok OnlyHealthy
  else if decide (v = 1%Z) then Ok AllowAll
  else Err (EnumError v).

(** The unspecified scope decodes but is refused. *)
Definition LoadBalancerScopes_try_from (v : Z) : result LoadBalancerScopes ProtoError :=
  if decide (v = 0%Z) then Err (EnumParse "invalid target")
  else if decide (v = 1%Z) then Ok Region
  else if decide (v = 2%Z) then Ok Zone
  else if decide (v = 3%Z) then Ok Subzone
  else if decide (v = 4%Z) then Ok Node
  else if decide (v = 5%Z) then Ok Cluster
  else if decide (v = 6%Z) then Ok Network
  else Err (EnumError v).

(** [resource.workload_type().as_str_name().to_lowercase()]: an unknown number
    reads as the default, [DEPLOYMENT]. *)
Definition workload_type_name (v : Z) : string :=
  if decide (v = 1%Z) then "cronjob"
  else if decide (v = 2%Z) then "pod"
  else if decide (v = 3%Z) then "job"
  else "deployment".

(** ** Messages *)

(** [HashMap<u16, u16>::from(&PortList)]: a later entry replaces an earlier one. *)
Definition ports_from (ports : list Proto.Port) : gmap N N :=
  foldl (λ m p, <[as_u16 (Proto.service_port p) := as_u16 (Proto.target_port p)]> m)
    ∅ ports.

(** [PortList::from(HashMap<u16, u16>)] *)
Definition PortList_from `{!HashIter N N} (m : gmap N N) : list Proto.Port :=
  (λ '(k, v), Proto.mkPort k v 0) <$> hm_iter m.

Definition GatewayAddress_try_from (value : Proto.GatewayAddress)
    : result GatewayAddress ProtoError :=
  match Proto.gw_destination value with
  | Some (Proto.Address network address) =>
    let? ip := byte_to_ip address in
    Ok {| destination := DestAddress (network_addr network ip);
          hbone_mtls_port := as_u16 (Proto.gw_hbone_mtls_port value) |}
  | Some (Proto.Hostname namespace hostname) =>
    Ok {| destination := DestHostname (NamespacedHostname.mk namespace hostname);
          hbone_mtls_port := as_u16 (Proto.gw_hbone_mtls_port value) |}
  | None => Err MissingGatewayAddress
  end.

Definition try_opt {A B E} (f : A → result B E) (o : option A) : result (option B) E :=
  match o with Some a => let? b := f a in Ok (Some b) | None => Ok None end.

Definition or_default (s d : string) : string := if Str.is_empty s then d else s.

Definition Workload_try_from `{!HashIter string (list Proto.Port)} (resource : Proto.Workload)
    : result (Workload.t * gmap string (list Proto.Port)) ProtoError :=
  let? wp := try_opt GatewayAddress_try_from (Proto.w_waypoint resource) in
  let? network_gw := try_opt GatewayAddress_try_from (Proto.w_network_gateway resource) in
  let? addresses := try_map byte_to_ip (Proto.w_addresses resource) in
  let workload_type := workload_type_name (Proto.w_workload_type resource) in
  let? services :=
    try_map NamespacedHostname.from_str (hm_iter (Proto.w_services resource)).*1 in
  let? protocol := InboundProtocol_try_from (Proto.w_tunnel_protocol resource) in
  let? network_mode := NetworkMode_try_from (Proto.w_network_mode resource) in
  let? status := HealthStatus_try_from (Proto.w_status resource) in
  Ok ({| Workload.workload_ips := addresses;
         Workload.waypoint := wp;
         Workload.network_gateway := network_gw;
         Workload.protocol := protocol;
         Workload.network_mode := network_mode;
         Workload.uid := Proto.w_uid resource;
         Workload.name := Proto.w_name resource;
         Workload.namespace := Proto.w_namespace resource;
         Workload.trust_domain := or_default (Proto.w_trust_domain resource) "cluster.local";
         Workload.service_account := or_default (Proto.w_service_account resource) "default";
         Workload.network := Proto.w_network resource;
         Workload.workload_name := Proto.w_workload_name resource;
         Workload.workload_type := workload_type;
         Workload.canonical_name := Proto.w_canonical_name resource;
         Workload.canonical_revision := Proto.w_canonical_revision resource;
         Workload.hostname := Proto.w_hostname resource;
         Workload.node := Proto.w_node resource;
         Workload.authorization_policies := Proto.w_authorization_policies resource;
         Workload.status := status;
         Workload.cluster_id := or_default (Proto.w_cluster_id resource) "Kubernetes";
         Workload.locality :=
           match Proto.w_locality resource with
           | Some (r, z, s) => {| region := r; zone := z; subzone := s |}
           | None => {| region := ""; zone := ""; subzone := "" |}
           end;
         Workload.services := services;
         Workload.capacity := default 1%N (Proto.w_capacity resource) |},
      Proto.w_services resource).

(** The app protocols of a port list: ports without one are left out. *)
Fixpoint app_protocols_from (ports : list Proto.Port) (acc : gmap N AppProtocol)
    : result (gmap N AppProtocol) ProtoError :=
  match ports with
  | [] => Ok acc
  | p :: ports =>
    let? ap := AppProtocol_try_from (Proto.app_protocol p) in
    app_protocols_from ports
      (match ap with Some ap => <[as_u16 (Proto.service_port p) := ap]> acc | None => acc end)
  end.

Definition LoadBalancer_try_from (lb : Proto.LoadBalancing) : result LoadBalancer ProtoError :=
  let? prefs := try_map LoadBalancerScopes_try_from (Proto.lb_routing_preference lb) in
  let? mode := LoadBalancerMode_try_from (Proto.lb_mode lb) in
  let? hp := LoadBalancerHealthPolicy_try_from (Proto.lb_health_policy lb) in
  Ok {| routing_preferences := prefs; mode := mode; health_policy := hp |}.

Definition Service_try_from (s : Proto.Service) : result Service.t ProtoError :=
  let? nw_addrs :=
    try_map (λ '(network, address),
      let? ip := byte_to_ip address in Ok (network_addr network ip)) (Proto.s_addresses s) in
  let? waypoint := try_opt GatewayAddress_try_from (Proto.s_waypoint s) in
  let? lb := try_opt LoadBalancer_try_from (Proto.s_load_balancing s) in
  let? app_protocols := app_protocols_from (Proto.s_ports s) ∅ in
  let? ip_families := IpFamily_try_from (Proto.s_ip_families s) in
  Ok {| Service.name := Proto.s_name s;
        Service.namespace := Proto.s_namespace s;
        Service.hostname := Proto.s_hostname s;
        Service.vips := nw_addrs;
        Service.ports := ports_from (Proto.s_ports s);
        Service.app_protocols := app_protocols;
        Service.endpoints := ∅;
        Service.subject_alt_names := Proto.s_subject_alt_names s;
        Service.waypoint := waypoint;
        Service.load_balancer := lb;
        Service.ip_families := ip_families |}.

(** * Theorems *)

Lemma NamespacedHostname_from_str_Ok s n :
  NamespacedHostname.from_str s = Ok n ↔
  s = NamespacedHostname.fmt n ∧
  Str.contains_char "/" (NamespacedHostname.namespace n) = false.
Proof.
  unfold NamespacedHostname.from_str, NamespacedHostname.fmt.
  destruct n as [ns hn]; simpl.
  change ("/" +:+ hn) with (String "/" hn).
  rewrite <-Str.split_once_Some.
  destruct (Str.split_once "/" s) as [[l r]|]; naive_solver.
Qed.

(** Parsing a [namespace/hostname] key and printing it are inverse to each
    other: the keys that parse are exactly the printed forms of the pairs whose
    namespace holds no [/]. *)
Theorem namespaced_hostname_roundtrip s n :
  NamespacedHostname.from_str s = Ok n ↔
  s = NamespacedHostname.fmt n ∧
  Str.contains_char "/" (NamespacedHostname.namespace n) = false.
Proof. apply NamespacedHostname_from_str_Ok. Qed.

Lemma eqb_true_and a b c d : Str.eqb a b && Str.eqb c d = true ↔ a = b ∧ c = d.
Proof. by rewrite andb_true_iff, !Str.eqb_eq. Qed.

(** SPIFFE identities: [from_str] accepts exactly the printed form of an
    identity whose three parts hold no [/], and returns that identity. *)
Theorem identity_roundtrip s td ns sa :
  Identity.from_str s = Ok (Identity.Spiffe td ns sa) ↔
  s = Identity.fmt (Identity.Spiffe td ns sa) ∧
  Str.contains_char "/" td = false ∧ Str.contains_char "/" ns = false ∧
  Str.contains_char "/" sa = false.
Proof.
  unfold Identity.from_str, Identity.fmt.
  assert (∀ a b, "/ns/" +:+ a +:+ "/sa/" +:+ b =
    String "/" ("ns" +:+ String "/" (a +:+ String "/" ("sa" +:+ String "/" b)))) as Hshape
    by done.
  rewrite Hshape. split.
  - destruct (Str.strip_prefix _ s) as [rest|] eqn:Hp; [|done].
    apply Str.strip_prefix_Some in Hp as ->.
    pose proof (Str.split_parts "/" rest) as Hparts. pose proof (Str.join_split "/" rest) as Hj.
    destruct (Str.split "/" rest) as [|p0 [|p1 [|p2 [|p3 [|p4 [|]]]]]]; try done.
    destruct (_ && _) eqn:Hb; [|done]. apply eqb_true_and in Hb as [-> ->].
    intros [= -> -> ->]. rewrite !Forall_cons in Hparts. split; [|naive_solver].
    unfold Identity.URI_PREFIX. f_equal. by rewrite <-Hj.
  - intros (-> & ? & ? & ?).
    replace (Str.strip_prefix _ _) with
      (Some (td +:+ String "/" ("ns" +:+ String "/" (ns +:+ String "/" ("sa" +:+ String "/" sa)))))
      by (symmetry; by apply Str.strip_prefix_Some).
    rewrite !Str.split_sep, Str.split_no_sep by done. done.
Qed.
