(* ===== verification/IpParse.v ===== *)
(** IpParse: [str::parse::<IpAddr>] of the standard library ([core::net::parser]),
    which decides whether a configured host is an address or a name. *)
From S2P Require Import Prelude Strs DiscoveryTypes.

(** A parser gives the value and the rest of the input; [None] leaves the input as
    it was ([read_atomically]). *)
Definition parser (A : Type) : Type := string → option (A * string).

(** [char::to_digit(radix)] *)
Definition to_digit (radix : N) (a : ascii) : option N :=
  let b := Str.byte a in
  let d :=
    if bool_decide (48 ≤ b ≤ 57)%N then Some (b - 48)%N
    else if bool_decide (97 ≤ b ≤ 122)%N then Some (b - 87)%N
    else if bool_decide (65 ≤ b ≤ 90)%N then Some (b - 55)%N
    else None in
  match d with
  | Some d => if bool_decide (d < radix)%N then Some d else None
  | None => None
  end.

(** The digits, at most [max_digits] of them: value, count and rest; a longer run
    is no number. *)
Fixpoint read_digits (radix : N) (max_digits : nat) (acc : N) (s : string) {struct s} : option (N * nat * string) :=
  match s with
  | "" => Some (acc, 0, s)
  | String a s' =>
    match to_digit radix a with
    | None => Some (acc, 0, s)
    | Some d =>
      match max_digits with
      | O => None
      | S max_digits =>
        match read_digits radix max_digits (acc * radix + d)%N s' with
        | Some (v, n, rest) => Some (v, S n, rest)
        | None => None
        end
      end
    end
  end.

Definition read_number (radix : N) (max_digits : nat) (allow_zero_prefix : bool) (max : N) : parser N :=
  λ s,
  let has_leading_zero := Str.starts_with "0" s in
  match read_digits radix max_digits 0 s with
  | Some (v, n, rest) =>
    if bool_decide (max < v)%N then None
    else if bool_decide (n = 0) then None
    else if negb allow_zero_prefix && has_leading_zero && bool_decide (1 < n) then None
    else Some (v, rest)
  | None => None
  end.

Definition read_given_char (c : ascii) : parser () :=
  λ s, match s with
       | String a s => if decide (a = c) then Some ((), s) else None
       | "" => None
       end.

(** The separator precedes every item but the first. *)
Definition read_separator {A} (sep : ascii) (index : nat) (inner : parser A) : parser A :=
  λ s,
  if decide (0 < index) then
    match read_given_char sep s with
    | Some (_, s) => inner s
    | None => None
    end
  else inner s.

Definition octet (n : N) : string := String (ascii_of_N n) "".

Fixpoint read_octets (i count : nat) : parser string :=
  λ s,
  match count with
  | O => Some ("", s)
  | S count =>
    match read_separator "." i (read_number 10 3 false 255) s with
    | Some (o, s) =>
      match read_octets (S i) count s with
      | Some (os, s) => Some (octet o +:+ os, s)
      | None => None
      end
    | None => None
    end
  end.

Definition read_ipv4_addr : parser string := read_octets 0 4.

Definition group (g : N) : string := octet (g / 256) +:+ octet (g mod 256).

(** At most [limit] groups from the [i]-th on: their octets, their number, whether
    they end with an embedded IPv4 address, and the rest. *)
Fixpoint read_groups (i limit : nat) (s : string) : string * nat * bool * string :=
  match limit with
  | O => ("", 0, false, s)
  | S limit' =>
    match (if decide (2 ≤ limit) then read_separator ":" i read_ipv4_addr s else None) with
    | Some (v4, s) => (v4, 2, true, s)
    | None =>
      match read_separator ":" i (read_number 16 4 true 65535) s with
      | Some (g, s) =>
        let '(gs, n, v4, s) := read_groups (S i) limit' s in (group g +:+ gs, S n, v4, s)
      | None => ("", 0, false, s)
      end
    end
  end.

Fixpoint zero_groups (n : nat) : string :=
  match n with O => "" | S n => group 0 +:+ zero_groups n end.

Definition read_ipv6_addr : parser string :=
  λ s,
  let '(head, head_size, head_ipv4, s) := read_groups 0 8 s in
  if decide (head_size = 8) then Some (head, s)
  else if head_ipv4 : bool then None
  else
    match read_given_char ":" s with
    | None => None
    | Some (_, s) =>
      match read_given_char ":" s with
      | None => None
      | Some (_, s) =>
        let '(tail, tail_size, _, s) := read_groups 0 (8 - (head_size + 1)) s in
        Some (head +:+ zero_groups (8 - head_size - tail_size) +:+ tail, s)
      end
    end.

(** [read_ip_addr] on the whole input. *)
Definition parse_ip (s : string) : option IpAddr :=
  match read_ipv4_addr s with
  | Some (o, "") => Some (V4 o)
  | Some _ => None
  | None =>
    match read_ipv6_addr s with
    | Some (o, "") => Some (V6 o)
    | _ => None
    end
  end.

(** [read_port] and [str::parse::<SocketAddr>]; a scope id is read and not kept. *)
Definition read_port : parser N :=
  λ s, match read_given_char ":" s with
       | Some (_, s) => read_number 10 (Str.len s) true 65535 s
       | None => None
       end.

Definition skip_scope_id (s : string) : option string :=
  match read_given_char "%" s with
  | Some (_, s') => match read_number 10 (Str.len s') true 4294967295 s' with Some (_, s') => Some s' | None => Some s end
  | None => Some s
  end.

Definition read_socket_addr_v4 : parser SocketAddr :=
  λ s, match read_ipv4_addr s with
       | Some (o, s) => match read_port s with Some (p, s) => Some ({| sa_ip := V4 o; sa_port := p |}, s) | None => None end
       | None => None
       end.

Definition read_socket_addr_v6 : parser SocketAddr :=
  λ s, '(_, s) ← read_given_char "[" s;
       '(o, s) ← read_ipv6_addr s;
       s ← skip_scope_id s;
       '(_, s) ← read_given_char "]" s;
       '(p, s) ← read_port s;
       Some ({| sa_ip := V6 o; sa_port := p |}, s).

Definition parse_socket_addr (s : string) : option SocketAddr :=
  match read_socket_addr_v4 s with
  | Some (a, rest) => if Str.eqb rest "" then Some a else None
  | None => match read_socket_addr_v6 s with
            | Some (a, rest) => if Str.eqb rest "" then Some a else None
            | None => None
            end
  end.

(** An address has four octets or sixteen. *)
Definition octets_ok (a : IpAddr) : Prop :=
  match a with V4 o => Str.len o = 4 | V6 o => Str.len o = 16 end.

(** * Printing ([Display] of [core::net]) *)

Definition octets_of (o : string) : list N := Str.byte <$> String.list_ascii_of_string o.

Definition hex_digit (n : N) : string :=
  match String.get (N.to_nat n) "0123456789abcdef" with Some a => String a "" | None => "" end.

Fixpoint drop_while_zero (l : list N) : list N :=
  match l with
  | x :: l' => if bool_decide (x = 0)%N then drop_while_zero l' else l
  | [] => []
  end.

(** [{:x}] of a 16-bit number. *)
Definition hex_segment (n : N) : string :=
  let ds := [n / 4096; n / 256 mod 16; n / 16 mod 16]%N in
  String.concat "" (hex_digit <$> drop_while_zero ds) +:+ hex_digit (n mod 16)%N.

Fixpoint segments_of (l : list N) : list N :=
  match l with a :: b :: l => (a * 256 + b)%N :: segments_of l | _ => [] end.

Definition display_v4 (l : list N) : string := String.concat "." (Str.display_nat <$> l).

(** The first longest run of zero segments: where it starts and its length. *)
Fixpoint zero_run (l : list N) (i : nat) (current longest : nat * nat) : nat * nat :=
  match l with
  | [] => longest
  | x :: l =>
    let current := if bool_decide (x = 0)%N then (if bool_decide (current.2 = 0) then (i, 1) else (current.1, S current.2))
                   else (0, 0) in
    let longest := if bool_decide (longest.2 < current.2) then current else longest in
    zero_run l (S i) current longest
  end.

Definition display_v6 (o : list N) : string :=
  let segments := segments_of o in
  if bool_decide (take 6 segments = [0; 0; 0; 0; 0; 65535]%N) then "::ffff:" +:+ display_v4 (drop 12 o)
  else
    let '(start, len) := zero_run segments 0 (0, 0) (0, 0) in
    let fmt l := String.concat ":" (hex_segment <$> l) in
    if bool_decide (1 < len) then fmt (take start segments) +:+ "::" +:+ fmt (drop (start + len) segments)
    else fmt segments.

Definition SocketAddr_to_string (a : SocketAddr) : string :=
  match sa_ip a with
  | V4 o => display_v4 (octets_of o) +:+ ":" +:+ Str.display_nat (sa_port a)
  | V6 o => "[" +:+ display_v6 (octets_of o) +:+ "]:" +:+ Str.display_nat (sa_port a)
  end.

Lemma read_octets_len i count s o rest : read_octets i count s = Some (o, rest) → Str.len o = count.
Proof.
  revert i s o rest. induction count as [|count IH]; intros i s o rest; simpl.
  - by intros [= <- <-].
  - destruct (read_separator _ _ _ _) as [[x s1]|]; [|done].
    destruct (read_octets (S i) count s1) as [[os s2]|] eqn:E; [|done]. intros [= <- <-].
    rewrite Str.len_app. apply IH in E. simpl. lia.
Qed.

Lemma read_separator_Some {A} sep i (inner : parser A) s x :
  read_separator sep i inner s = Some x → ∃ s', inner s' = Some x.
Proof.
  unfold read_separator. case_decide; [|eauto]. destruct (read_given_char sep s) as [[u s2]|]; eauto. done.
Qed.

Lemma read_groups_len i limit s gs n v4 rest :
  read_groups i limit s = (gs, n, v4, rest) → Str.len gs = 2 * n ∧ n ≤ limit.
Proof.
  revert i s gs n v4 rest. induction limit as [|limit IH]; intros i s gs n v4 rest; cbn [read_groups].
  { by intros [= <- <- <- <-]. }
  destruct (if decide _ then _ else None) as [[o s1]|] eqn:E4.
  { intros [= <- <- <- <-]. destruct (decide (2 ≤ S limit)); [|done].
    apply read_separator_Some in E4 as [s2 E4]. apply read_octets_len in E4. lia. }
  destruct (read_separator ":" i (read_number 16 4 true 65535) s) as [[g s1]|].
  - destruct (read_groups (S i) limit s1) as [[[gs1 n1] b1] r1] eqn:E. intros Heq.
    replace gs with (group g +:+ gs1) by congruence. replace n with (S n1) by congruence.
    apply IH in E as [E ?]. change (Str.len (group g +:+ gs1)) with (2 + Str.len gs1). lia.
  - intros [= <- <- <- <-]. simpl. lia.
Qed.

Lemma zero_groups_len n : Str.len (zero_groups n) = 2 * n.
Proof. induction n as [|n IH]; [done|]. simpl. rewrite Str.len_app, IH. simpl. lia. Qed.

Lemma parse_ip_octets s a : parse_ip s = Some a → octets_ok a.
Proof.
  unfold parse_ip. destruct (read_ipv4_addr s) as [[o r]|] eqn:E4.
  - destruct r; [|done]. intros [= <-]. simpl. by eapply read_octets_len.
  - unfold read_ipv6_addr. destruct (read_groups 0 8 s) as [[[h hn] hb] r] eqn:Eh.
    apply read_groups_len in Eh as [Hh Hn]. case_decide.
    { destruct r; [|done]. intros [= <-]. simpl. lia. }
    destruct hb; [done|]. destruct (read_given_char _ r) as [[_ r1]|]; [|done].
    destruct (read_given_char _ r1) as [[_ r2]|]; [|done].
    destruct (read_groups 0 _ r2) as [[[t tn] tb] r3] eqn:Et. apply read_groups_len in Et as [Ht Htn].
    destruct r3; [|done]. intros [= <-]. simpl. rewrite !Str.len_app, zero_groups_len. lia.
Qed.

(** ** An IPv6 address needs a colon *)

Abbreviation no_colon s := (Str.contains_char ":" s = false).

Lemma no_colon_tail a s : no_colon (String a s) → no_colon s.
Proof. rewrite Str.contains_char_cons, orb_false_iff. tauto. Qed.

Lemma read_given_colon s : no_colon s → read_given_char ":" s = None.
Proof.
  destruct s as [|a s]; [done|]. rewrite Str.contains_char_cons, orb_false_iff, bool_decide_eq_false.
  intros [? _]. simpl. by rewrite decide_False.
Qed.

Lemma read_digits_no_colon radix m acc s v n rest :
  no_colon s → read_digits radix m acc s = Some (v, n, rest) → no_colon rest.
Proof.
  revert m acc v n rest. induction s as [|a s IH]; intros m acc v n rest Hs; simpl.
  - by intros [= <- <- <-].
  - destruct (to_digit radix a); [|by intros [= <- <- <-]]. destruct m as [|m]; [done|].
    destruct (read_digits radix m _ s) as [[[v' n'] r']|] eqn:E; [|done]. intros [= <- <- <-].
    eapply IH; [|done]. by eapply no_colon_tail.
Qed.

Lemma read_number_no_colon radix m z max s v rest :
  no_colon s → read_number radix m z max s = Some (v, rest) → no_colon rest.
Proof.
  intros Hs. unfold read_number. destruct (read_digits _ _ _ s) as [[[v' n'] r']|] eqn:E; [|done].
  intros H. repeat case_match; simplify_eq. by eapply read_digits_no_colon.
Qed.

Lemma parse_ip_v6_colon s o : parse_ip s = Some (V6 o) → Str.contains_char ":" s = true.
Proof.
  intros H. apply not_false_iff_true. intros Hs. unfold parse_ip in H.
  destruct (read_ipv4_addr s) as [[o4 [|]]|] eqn:E4; [done|done|].
  assert (read_ipv6_addr s = None) as E6; [|by rewrite E6 in H].
  unfold read_ipv6_addr. cbn [read_groups]. rewrite (decide_True (P := 2 ≤ 8)) by lia.
  unfold read_separator at 1. cbn [decide]. rewrite decide_False by lia. rewrite E4.
  unfold read_separator at 1. rewrite decide_False by lia.
  destruct (read_number 16 4 true 65535 s) as [[g r]|] eqn:Eg.
  2:{ rewrite decide_False by lia. by rewrite read_given_colon. }
  apply read_number_no_colon in Eg; [|done]. apply read_given_colon in Eg.
  unfold read_separator at 1 2. rewrite !(decide_True (P := 0 < 1)) by lia. rewrite Eg.
  case_decide; simpl; rewrite ?Eg; done.
Qed.

Example display_loopback : SocketAddr_to_string
  {| sa_ip := default (V4 "") (parse_ip "::1"); sa_port := 80 |} = "[::1]:80".
Proof. reflexivity. Qed.
Example display_compressed : SocketAddr_to_string
  {| sa_ip := default (V4 "") (parse_ip "fe80:0:0:1:0:0:0:ab0"); sa_port := 443 |} = "[fe80:0:0:1::ab0]:443".
Proof. reflexivity. Qed.
Example display_ipv4 : SocketAddr_to_string
  {| sa_ip := default (V4 "") (parse_ip "10.0.200.1"); sa_port := 8080 |} = "10.0.200.1:8080".
Proof. reflexivity. Qed.
