(* ===== verification/StdText.v ===== *)
(** StdText: how the standard library reads text: white space and [trim], [FromStr] of
    booleans and of integers with its errors, and [f64] (parsing, rounding up and the
    conversion to an integer). *)
From Stdlib Require Import SpecFloat.
From S2P Require Import Prelude Strs.

(** * Characters and white space *)

(** The number of bytes of a character, by its first. *)
Definition char_len (a : ascii) : nat :=
  let b := Str.byte a in
  if bool_decide (b < 192)%N then 1 else if bool_decide (b < 224)%N then 2 else if bool_decide (b < 240)%N then 3 else 4.

(** [str::chars], each character as its UTF-8 bytes; [missing] bytes of [cur] are still to come. *)
Fixpoint chars_from (s : string) (cur : string) (missing : nat) : list string :=
  match s with
  | "" => if Str.eqb cur "" then [] else [cur]
  | String a s =>
    match missing with
    | 0 => match char_len a with
           | S (S n) => chars_from s (String a "") (S n)
           | _ => String a "" :: chars_from s "" 0
           end
    | 1 => (cur +:+ String a "") :: chars_from s "" 0
    | S n => chars_from s (cur +:+ String a "") n
    end
  end.
Definition chars (s : string) : list string := chars_from s "" 0.

(** [char::is_whitespace]. *)
Definition is_whitespace (c : string) : bool :=
  match Str.byte <$> String.list_ascii_of_string c with
  | [b] => bool_decide (9 ≤ b ≤ 13)%N || bool_decide (b = 32)%N
  | [194; b] => bool_decide (b = 133)%N || bool_decide (b = 160)%N
  | [225; 154; 128] => true
  | [226; 128; b] => bool_decide (128 ≤ b ≤ 138)%N || bool_decide (b = 168)%N || bool_decide (b = 169)%N || bool_decide (b = 175)%N
  | [226; 129; 159] => true
  | [227; 128; 128] => true
  | _ => false
  end%N.

Fixpoint drop_while {A} (p : A → bool) (l : list A) : list A :=
  match l with x :: l' => if p x then drop_while p l' else l | [] => [] end.

(** [str::trim_matches] of a set of characters. *)
Definition trim_matches (p : string → bool) (s : string) : string :=
  String.concat "" (rev (drop_while p (rev (drop_while p (chars s))))).
Definition trim : string → string := trim_matches is_whitespace.

(** * [FromStr] *)

Definition bool_from_str (s : string) : result bool string :=
  if Str.eqb s "true" then Ok true
  else if Str.eqb s "false" then Ok false
  else Err "provided string was not `true` or `false`".

Fixpoint digits_from_str (max acc : N) (s : string) : result N string :=
  match s with
  | "" => Ok acc
  | String a s =>
    if bool_decide (48 ≤ Str.byte a ≤ 57)%N then
      let acc := (acc * 10 + (Str.byte a - 48))%N in
      if bool_decide (acc ≤ max)%N then digits_from_str max acc s else Err "number too large to fit in target type"
    else Err "invalid digit found in string"
  end.

(** [uN::from_str]. *)
Definition uint_from_str (max : N) (s : string) : result N string :=
  match s with
  | "" => Err "cannot parse integer from empty string"
  | _ => let digits := match s with String "+"%char r => r | _ => s end in
         if Str.eqb digits "" then Err "invalid digit found in string" else digits_from_str max 0 digits
  end.

Definition U16_MAX : N := 65535.
Definition U32_MAX : N := 4294967295.
Definition U64_MAX : N := 18446744073709551615.

(** * [f64] *)

(** The value of the leading digits, how many they are, and the rest. *)
Fixpoint read_mantissa (s : string) (acc : N) (n : nat) : N * nat * string :=
  match s with
  | String a s' => if bool_decide (48 ≤ Str.byte a ≤ 57)%N then read_mantissa s' (acc * 10 + (Str.byte a - 48))%N (S n)
                   else (acc, n, s)
  | "" => (acc, n, "")
  end.

(** An exponent stops growing at 65536. *)
Fixpoint read_exponent (s : string) (acc : N) : option N :=
  match s with
  | "" => Some acc
  | String a s =>
    if bool_decide (48 ≤ Str.byte a ≤ 57)%N
    then read_exponent s (if bool_decide (acc < 65536)%N then acc * 10 + (Str.byte a - 48) else acc)%N
    else None
  end.

Definition split_sign (s : string) : bool * string :=
  match s with
  | String "-"%char r => (true, r)
  | String "+"%char r => (false, r)
  | _ => (false, s)
  end.

(** The exponent of what follows the mantissa. *)
Definition scientific (s : string) : option Z :=
  match s with
  | "" => Some 0%Z
  | String c r =>
    if bool_decide (c = "e"%char ∨ c = "E"%char) then
      let '(neg, r) := split_sign r in
      if Str.eqb r "" then None else e ← read_exponent r 0; Some (if neg : bool then - Z.of_N e else Z.of_N e)%Z
    else None
  end.

(** [m * 10^e], correctly rounded. *)
Definition decimal (neg : bool) (m : N) (e : Z) : spec_float :=
  match m with
  | N0 => S754_zero neg
  | Npos p =>
    if bool_decide (0 ≤ e)%Z
    then binary_normalize 53 1024 ((if neg then Z.neg p else Z.pos p) * 10 ^ e) 0 neg
    else let '(q, e', l) := SFdiv_core_binary 53 1024 (Z.pos p) 0 (10 ^ (- e)) 0 in binary_round_aux 53 1024 neg q e' l
  end.

Definition f64_number (neg : bool) (s : string) : option spec_float :=
  let '(m, n, s) := read_mantissa s 0 0 in
  let '(m, n, frac, s) := match s with
                          | String "."%char s => let '(m', n', s) := read_mantissa s m n in (m', n', (n' - n), s)
                          | _ => (m, n, 0, s)
                          end in
  if bool_decide (n = 0) then None
  else e ← scientific s; Some (decimal neg m (e - Z.of_nat frac)).

Definition f64_from_str (s : string) : result spec_float string :=
  match s with
  | "" => Err "cannot parse float from empty string"
  | _ =>
    let '(neg, r) := split_sign s in
    match f64_number neg r with
    | Some f => Ok f
    | None =>
      let l := Str.to_ascii_lowercase r in
      if Str.eqb l "nan" then Ok S754_nan
      else if Str.eqb l "inf" || Str.eqb l "infinity" then Ok (S754_infinity neg)
      else Err "invalid float literal"
    end
  end.

(** [n as f64]. *)
Definition f64_of_uint (n : N) : spec_float := binary_normalize 53 1024 (Z.of_N n) 0 false.

(** [f.ceil() as uN]: what is not a number is 0, and the ends saturate. *)
Definition ceil_as_uint (max : N) (f : spec_float) : N :=
  match f with
  | S754_zero _ | S754_nan => 0%N
  | S754_infinity neg => if neg then 0%N else max
  | S754_finite true _ _ => 0%N
  | S754_finite false m e =>
    N.min max (Z.to_N (if bool_decide (0 ≤ e)%Z then Z.pos m * 2 ^ e else - ((- Z.pos m) / 2 ^ (- e)))%Z)
  end.

(** * Facts *)

Lemma digits_from_str_ok max s acc :
  (acc ≤ max)%N → ok (digits_from_str max acc s) = (n ← Str.parse_digits s acc; if bool_decide (n ≤ max)%N then Some n else None).
Proof.
  revert acc. induction s as [|a s IH]; intros acc Hacc; simpl; [by rewrite bool_decide_eq_true_2|].
  destruct (bool_decide (48 ≤ _ ≤ 57)%N); [|done]. case_bool_decide as Hle; [by apply IH|].
  clear IH. simpl. generalize dependent (acc * 10 + (Str.byte a - 48))%N. clear. intros acc Hle.
  destruct (Str.parse_digits s acc) as [n|] eqn:Hn; simpl; [|done]. rewrite bool_decide_eq_false_2; [done|].
  cut (acc ≤ n)%N; [lia|]. clear Hle. revert acc Hn. induction s as [|b s IH]; simpl; intros acc Hn; [by simplify_eq|].
  case_bool_decide; [|done]. apply IH in Hn. lia.
Qed.

(** With its errors forgotten it is the reading of numbers used elsewhere. *)
Lemma uint_from_str_ok max s : ok (uint_from_str max s) = Str.parse_uint max s.
Proof.
  unfold uint_from_str, Str.parse_uint. destruct s as [|a s]; [done|].
  set (d := match String a s with String "+"%char r => r | _ => String a s end).
  replace (Str.eqb d "") with (Str.is_empty d) by (by destruct d).
  destruct (Str.is_empty d); [done|]. apply digits_from_str_ok. lia.
Qed.

Lemma uint_from_str_le max s n : uint_from_str max s = Ok n → (n ≤ max)%N.
Proof.
  intros Hn. pose proof (uint_from_str_ok max s) as Ho. rewrite Hn in Ho. symmetry in Ho. simpl in Ho.
  unfold Str.parse_uint in Ho. destruct (Str.is_empty _); [done|]. apply bind_Some in Ho as (m & _ & Hm).
  case_bool_decide; by simplify_eq.
Qed.

Lemma ceil_as_uint_le max f : (ceil_as_uint max f ≤ max)%N.
Proof. destruct f as [|[]| |[]]; simpl; lia. Qed.

Lemma drop_while_head {A} (p : A → bool) l x l' : drop_while p l = x :: l' → p x = false.
Proof. induction l as [|y l IH]; simpl; [done|]. destruct (p y) eqn:Hy; [done|]. by intros [= -> ->]. Qed.

Lemma drop_while_suffix {A} (p : A → bool) l : ∃ t, l = t ++ drop_while p l ∧ Forall (λ x, p x = true) t.
Proof.
  induction l as [|y l (t & Hl & Ht)]; simpl; [by exists []|]. destruct (p y) eqn:Hy; [|by exists []].
  exists (y :: t). simpl. split; [by f_equal|by constructor].
Qed.

Module TextExample.
Example trims : trim "  a b	" = "a b" ∧ trim_matches (λ c, Str.eqb c "[" || Str.eqb c "]") "[::1]" = "::1".
Proof. by vm_compute. Qed.
Example floats :
  f64_from_str "0.1" = Ok (S754_finite false 7205759403792794 (-56)) ∧ f64_from_str "1e400" = Ok (S754_infinity false) ∧
  f64_from_str "NaN" = Ok S754_nan ∧ f64_from_str "." = Err "invalid float literal" ∧
  f64_from_str "-12.5e-1" = f64_from_str "-1.25" ∧ (ceil_as_uint U64_MAX <$> ok (f64_from_str "2.0001")) = Some 3%N.
Proof. by vm_compute. Qed.
End TextExample.
