(* ===== verification/Dns.v ===== *)
(** Dns: the cache of name resolution ([client/dns.rs]) as a system of concurrent
    tasks: the clients that resolve a name, and one background task per entry that
    refreshes it.

    A step is what a task does between two points where others can see it: one
    operation on the locked table, one atomic operation on an entry, or one of the
    notifier.  (Loading the current addresses and advancing their counter is one
    step: the counter belongs to the loaded list.)  [exec] executes a step; a run is
    a list of steps. *)
From S2P Require Import Prelude DiscoveryTypes.

(** * The round robin *)

(** [CircularBuffer]: the addresses and the counter, which wraps around. *)
Record CircularBuffer := mkBuffer { data : list IpAddr; index : N }.

Definition CircularBuffer_new (items : list IpAddr) : CircularBuffer := mkBuffer items 0.

Definition get_and_advance (b : CircularBuffer) : CircularBuffer * option IpAddr :=
  match data b with
  | [] => (b, None)
  | _ => (mkBuffer (data b) ((index b + 1) mod 2 ^ 64), data b !! (N.to_nat (index b) mod length (data b)))
  end.

(** * The tasks *)

(** The background task: about to start, to look at [active], resolving, about to
    notify, asleep, about to leave the table, ended. *)
Inductive Background := Starting | Checking | Resolving | Notifying | Sleeping | Removing | Finished.
#[export] Instance Background_eq_dec : EqDecision Background.
Proof. solve_decision. Defined.

Record CacheEntry := mkEntry {
  e_name : string;
  active : bool;
  entries : option CircularBuffer;
  background : Background
}.

(** A client: about to call [next] on an entry; about to load, with its place among
    the waiters; waiting; done. [woken] tells whether it was notified since. *)
Inductive Client :=
| CNext (id : nat)
| CLoading (id : nat) (woken : bool)
| CWaiting (id : nat) (woken : bool)
| CDone (name : string) (r : option IpAddr).

(** The table of the resolver, the entries, the clients, and the history of what the
    resolver answered. *)
Record State := mkState {
  table : gmap string nat;
  heap : gmap nat CacheEntry;
  clients : gmap nat Client;
  fresh_id : nat;
  answers : list (string * list IpAddr)
}.

Definition initial : State := mkState ∅ ∅ ∅ 0 [].

Definition set_entry (s : State) (id : nat) (e : CacheEntry) : State :=
  mkState (table s) (<[id := e]> (heap s)) (clients s) (fresh_id s) (answers s).
Definition set_client (s : State) (c : nat) (x : Client) : State :=
  mkState (table s) (heap s) (<[c := x]> (clients s)) (fresh_id s) (answers s).

Definition set_active (e : CacheEntry) (a : bool) : CacheEntry :=
  mkEntry (e_name e) a (entries e) (background e).
Definition set_background (e : CacheEntry) (b : Background) : CacheEntry :=
  mkEntry (e_name e) (active e) (entries e) b.
Definition set_entries (e : CacheEntry) (b : CircularBuffer) : CacheEntry :=
  mkEntry (e_name e) (active e) (Some b) (background e).

(** [notify_waiters]: every client that has taken its place is woken. *)
Definition wake (id : nat) (x : Client) : Client :=
  match x with
  | CLoading i w => CLoading i (if decide (i = id) then true else w)
  | CWaiting i w => CWaiting i (if decide (i = id) then true else w)
  | x => x
  end.

(** ** Clients *)

(** [CachedResolver::resolve], the locked part. *)
Definition resolve (s : State) (c : nat) (name : string) : State :=
  match table s !! name with
  | Some id =>
    set_client (match heap s !! id with Some e => set_entry s id (set_active e true) | None => s end) c (CNext id)
  | None =>
    let id := fresh_id s in
    mkState (<[name := id]> (table s)) (<[id := mkEntry name false None Starting]> (heap s))
      (<[c := CNext id]> (clients s)) (S id) (answers s)
  end.

(** [CacheEntry::next], up to the load. *)
Definition next (s : State) (c id : nat) (e : CacheEntry) : State :=
  set_client (set_entry s id (set_active e true)) c (CLoading id false).

(** The load: an answer if there are addresses, even none. *)
Definition load (s : State) (c id : nat) (e : CacheEntry) (woken waits : bool) : State :=
  match entries e with
  | Some b =>
    let '(b, ip) := get_and_advance b in set_client (set_entry s id (set_entries e b)) c (CDone (e_name e) ip)
  | None => if waits then set_client s c (CWaiting id woken) else set_client s c (CDone (e_name e) None)
  end.

(** ** Background tasks *)

Inductive Label :=
| Resolve (c : nat) (name : string) | Next (c : nat) | Load (c : nat) | Wake (c : nat)
| Start (id : nat) | Swap (id : nat) | Resolved (id : nat) (r : option (list IpAddr)) | Notify (id : nat)
| Expire (id : nat) | Remove (id : nat).

(** One step of the background task of [id], from where it is. *)
Definition background_step (s : State) (l : Label) (id : nat) (e : CacheEntry) : option State :=
  match l, background e with
  | Start _, Starting => Some (set_entry s id (set_background (set_active e true) Checking))
  | Swap _, Checking =>
    Some (set_entry s id (set_background (set_active e false) (if active e then Resolving else Removing)))
  | Resolved _ r, Resolving =>
    let ips := default [] r in
    let s := set_entry s id (set_background (set_entries e (CircularBuffer_new ips)) Notifying) in
    Some (match r with
          | Some ips => mkState (table s) (heap s) (clients s) (fresh_id s) ((e_name e, ips) :: answers s)
          | None => s
          end)
  | Notify _, Notifying =>
    let s := set_entry s id (set_background e Sleeping) in
    Some (mkState (table s) (heap s) (wake id <$> clients s) (fresh_id s) (answers s))
  | Expire _, Sleeping => Some (set_entry s id (set_background e Checking))
  | Remove _, Removing =>
    let s := set_entry s id (set_background e Finished) in
    Some (mkState (delete (e_name e) (table s)) (heap s) (clients s) (fresh_id s) (answers s))
  | _, _ => None
  end.

Definition client_step (s : State) (l : Label) (c : nat) : option State :=
  match l, clients s !! c with
  | Next _, Some (CNext id) => e ← heap s !! id; Some (next s c id e)
  | Load _, Some (CLoading id woken) => e ← heap s !! id; Some (load s c id e woken true)
  | Wake _, Some (CWaiting id true) => e ← heap s !! id; Some (load s c id e true false)
  | _, _ => None
  end.

Definition exec (s : State) (l : Label) : option State :=
  match l with
  | Resolve c name => match clients s !! c with None => Some (resolve s c name) | Some _ => None end
  | Next c | Load c | Wake c => client_step s l c
  | Start id | Swap id | Resolved id _ | Notify id | Expire id | Remove id =>
    e ← heap s !! id; background_step s l id e
  end.

Fixpoint run (s : State) (ls : list Label) : option State :=
  match ls with [] => Some s | l :: ls => s ← exec s l; run s ls end.

(** * The invariant *)

Definition client_entry (x : Client) : option nat :=
  match x with CNext id | CLoading id _ | CWaiting id _ => Some id | CDone _ _ => None end.

Definition woken_by (x : Client) : option nat :=
  match x with CLoading id true | CWaiting id true => Some id | _ => None end.

(** The task has not notified anybody yet. *)
Definition before_first (e : CacheEntry) : Prop :=
  match background e with
  | Starting | Resolving => True
  | Checking => active e = true
  | _ => False
  end.

Record inv (s : State) : Prop := {
  (** the table names the entries whose task runs *)
  inv_table : ∀ n id, table s !! n = Some id ↔
    ∃ e, heap s !! id = Some e ∧ e_name e = n ∧ background e ≠ Finished;
  inv_fresh : ∀ id e, heap s !! id = Some e → id < fresh_id s;
  (** without addresses, the task is on its first round *)
  inv_first : ∀ id e, heap s !! id = Some e → entries e = None → before_first e;
  inv_client : ∀ c x id, clients s !! c = Some x → client_entry x = Some id → is_Some (heap s !! id);
  (** a client that waits in vain so far waits for a task that will notify *)
  inv_wait : ∀ c id e, clients s !! c = Some (CWaiting id false) → heap s !! id = Some e →
    entries e = None ∨ background e = Notifying;
  inv_woken : ∀ c x id e, clients s !! c = Some x → woken_by x = Some id → heap s !! id = Some e →
    entries e ≠ None;
  (** addresses come from the resolver *)
  inv_entries : ∀ id e b, heap s !! id = Some e → entries e = Some b →
    data b = [] ∨ (e_name e, data b) ∈ answers s;
  inv_done : ∀ c n ip, clients s !! c = Some (CDone n (Some ip)) → ∃ ips, (n, ips) ∈ answers s ∧ ip ∈ ips
}.

(** * Lemmas *)

(** An update of an entry that every part of the invariant allows. *)
Record entry_ok (ans : list (string * list IpAddr)) (e e' : CacheEntry) : Prop := {
  ok_name : e_name e' = e_name e;
  ok_finished : background e' = Finished ↔ background e = Finished;
  ok_first : entries e' = None → before_first e';
  ok_some : entries e ≠ None → entries e' ≠ None;
  ok_wait : entries e = None ∨ background e = Notifying → entries e' = None ∨ background e' = Notifying;
  ok_data : ∀ b, entries e' = Some b →
    data b = [] ∨ (e_name e, data b) ∈ ans ∨ ∃ b0, entries e = Some b0 ∧ data b = data b0
}.

Lemma inv_initial : inv initial.
Proof. split; simpl; try done. intros n id. rewrite lookup_empty. naive_solver. Qed.

Lemma inv_set_entry s id e e' :
  inv s → heap s !! id = Some e → entry_ok (answers s) e e' → inv (set_entry s id e').
Proof.
  intros [Ht Hf H1 Hc Hw Hk He Hd] Hid [On Ofi O1 Os Ow Od]. split; simpl.
  - intros n i. rewrite Ht. split.
    + intros (e0 & H0 & <- & Hn). destruct (decide (i = id)) as [->|].
      * exists e'. rewrite lookup_insert_eq. simplify_eq. naive_solver.
      * exists e0. by rewrite lookup_insert_ne.
    + intros (e0 & [[-> ->]|[Hne H0]]%lookup_insert_Some & <- & Hn); [|by exists e0]. exists e. rewrite <-Ofi. done.
  - intros i e0 [[-> ->]|[Hne H0]]%lookup_insert_Some; eauto.
  - intros i e0 [[-> ->]|[Hne H0]]%lookup_insert_Some; eauto.
  - intros c x i Hx Hxi. apply lookup_insert_is_Some'. right. eauto.
  - intros c i e0 Hx [[-> ->]|[Hne H0]]%lookup_insert_Some; eauto.
  - intros c x i e0 Hx Hxi [[-> ->]|[Hne H0]]%lookup_insert_Some; eauto.
  - intros i e0 b [[-> ->]|[Hne H0]]%lookup_insert_Some Hb; [|eauto]. rewrite On.
    destruct (Od b Hb) as [?|[?|(b0 & Hb0 & ->)]]; [by left|by right|eauto].
  - done.
Qed.

(** What a client may become. *)
Lemma inv_set_client s c x :
  inv s →
  (∀ id, client_entry x = Some id → is_Some (heap s !! id)) →
  (∀ id e, x = CWaiting id false → heap s !! id = Some e → entries e = None ∨ background e = Notifying) →
  (∀ id e, woken_by x = Some id → heap s !! id = Some e → entries e ≠ None) →
  (∀ n ip, x = CDone n (Some ip) → ∃ ips, (n, ips) ∈ answers s ∧ ip ∈ ips) →
  inv (set_client s c x).
Proof.
  intros [Ht Hf H1 Hc Hw Hk He Hd] Xc Xw Xk Xd. split; simpl; try done.
  - intros c0 x0 id [[-> ->]|[Hne H0]]%lookup_insert_Some Hid; eauto.
  - intros c0 id e [[-> ->]|[Hne H0]]%lookup_insert_Some Hid; eauto.
  - intros c0 x0 id e [[-> ->]|[Hne H0]]%lookup_insert_Some Hid; eauto.
  - intros c0 n ip [[-> ->]|[Hne H0]]%lookup_insert_Some; eauto.
Qed.

Lemma entry_ok_active ans s id e :
  inv s → heap s !! id = Some e → entry_ok ans e (set_active e true).
Proof.
  intros Hinv Hid. split; simpl; try naive_solver. intros He.
  pose proof (inv_first s Hinv id e Hid He) as H1. unfold before_first in *. simpl.
  by destruct (background e).
Qed.

Lemma inv_resolve s c n : inv s → clients s !! c = None → inv (resolve s c n).
Proof.
  intros Hinv Hc. unfold resolve. destruct (table s !! n) as [id|] eqn:Hn.
  - apply (inv_table s Hinv) in Hn as (e & He & _). rewrite He.
    apply inv_set_client; try naive_solver.
    + eapply inv_set_entry; eauto using entry_ok_active.
    + intros i [= <-]. simpl. rewrite lookup_insert_eq. eauto.
  - pose proof (inv_fresh s Hinv) as Hf0.
    assert (heap s !! fresh_id s = None) as Hfresh.
    { destruct (heap s !! fresh_id s) as [e|] eqn:He; [|done]. apply Hf0 in He. lia. }
    destruct Hinv as [Ht Hf H1 Hcl Hw Hk He Hd]. split; simpl.
    + intros m i. rewrite lookup_insert_Some. rewrite (Ht m i). split.
      * intros [[<- <-]|[Hne (e & He' & <- & Hb)]].
        -- eexists. rewrite lookup_insert_eq. done.
        -- exists e. rewrite lookup_insert_ne; [done|]. naive_solver.
      * intros (e & [[<- <-]|[Hne H0]]%lookup_insert_Some & <- & Hb); [by left|].
        right. split; [|naive_solver]. intros ->.
        assert (table s !! e_name e = Some i) as Hi by (apply Ht; eauto). congruence.
    + intros i e [[<- <-]|[Hne H0]]%lookup_insert_Some; [lia|]. apply Hf in H0. lia.
    + intros i e [[<- <-]|[Hne H0]]%lookup_insert_Some; [done|eauto].
    + intros c0 x i [[<- <-]|[Hne H0]]%lookup_insert_Some Hx; apply lookup_insert_is_Some'; [left; by simplify_eq/=|].
      right. eauto.
    + intros c0 i e [[<- ?]|[Hne H0]]%lookup_insert_Some; [done|].
      intros [[<- <-]|[Hne' H0']]%lookup_insert_Some; [by left|eauto].
    + intros c0 x i e [[<- <-]|[Hne H0]]%lookup_insert_Some Hx; [done|].
      intros [[<- <-]|[Hne' H0']]%lookup_insert_Some; [|eauto].
      destruct (Hcl c0 x (fresh_id s) H0) as [e0 He0]; [|congruence]. destruct x as [|? []|? []|]; naive_solver.
    + intros i e b [[<- <-]|[Hne H0]]%lookup_insert_Some; [done|eauto].
    + intros c0 m ip [[<- ?]|[Hne H0]]%lookup_insert_Some; [done|eauto].
Qed.

Lemma get_and_advance_data b : data (get_and_advance b).1 = data b.
Proof. unfold get_and_advance. by destruct (data b) eqn:E. Qed.

Lemma get_and_advance_elem b ip : (get_and_advance b).2 = Some ip → ip ∈ data b.
Proof. unfold get_and_advance. destruct (data b); simpl; [done|]. apply list_elem_of_lookup_2. Qed.

Lemma inv_next s c id e : inv s → heap s !! id = Some e → inv (next s c id e).
Proof.
  intros Hinv He. apply inv_set_client; try naive_solver.
  - eapply inv_set_entry; eauto using entry_ok_active.
  - intros i [= <-]. simpl. rewrite lookup_insert_eq. eauto.
Qed.

Lemma inv_load s c id e woken waits :
  inv s → heap s !! id = Some e → (woken = true → waits = true → entries e ≠ None) →
  inv (load s c id e woken waits).
Proof.
  intros Hinv He Hwoken. unfold load. destruct (entries e) as [b|] eqn:Hb.
  - pose proof (get_and_advance_data b) as Hdata. pose proof (get_and_advance_elem b) as Helem.
    destruct (get_and_advance b) as [b' ip]. simpl in Hdata, Helem. apply inv_set_client; try done.
    + eapply inv_set_entry; [done|done|]. split; simpl; [done..|naive_solver|].
      intros b0 [= <-]. right. right. eauto.
    + intros n ip' [= <- ->]. specialize (Helem ip' eq_refl). simpl.
      destruct (inv_entries s Hinv id e b He Hb) as [Hnil|Hin]; [rewrite Hnil in Helem; set_solver|eauto].
  - destruct waits; (apply inv_set_client; [done|..]); try done.
    + intros i [= <-]. eauto.
    + intros i e0 [= <- _] He0. left. congruence.
    + intros i e0 Hw He0. destruct woken; [|done]. injection Hw as <-. naive_solver.
Qed.

Lemma inv_notify s id e :
  inv s → heap s !! id = Some e → background e = Notifying →
  inv (mkState (table s) (<[id := set_background e Sleeping]> (heap s)) (wake id <$> clients s) (fresh_id s) (answers s)).
Proof.
  intros Hinv He Hb. pose proof (inv_first s Hinv id e He) as H1. unfold before_first in H1. rewrite Hb in H1.
  destruct Hinv as [Ht Hf H1' Hc Hw Hk Hen Hd].
  assert (entries e ≠ None) as Hsome by (intros Hn; by specialize (H1 Hn)).
  assert (∀ c x, (wake id <$> clients s) !! c = Some x → ∃ y, clients s !! c = Some y ∧ x = wake id y) as Hcl.
  { intros c x. rewrite lookup_fmap. intros (y & Hy & ->)%fmap_Some. eauto. }
  split; simpl; try done.
  - intros n i. rewrite Ht. split.
    + intros (e0 & H0 & <- & Hn). destruct (decide (i = id)) as [->|]; [|by exists e0; rewrite lookup_insert_ne].
      eexists. rewrite lookup_insert_eq. simplify_eq. done.
    + intros (e0 & [[<- <-]|[Hne H0]]%lookup_insert_Some & <- & Hn); [|by exists e0]. exists e. by rewrite Hb.
  - intros i e0 [[<- <-]|[Hne H0]]%lookup_insert_Some; eauto.
  - intros i e0 [[<- <-]|[Hne H0]]%lookup_insert_Some; [done|eauto].
  - intros c x i (y & Hy & ->)%Hcl Hx. apply lookup_insert_is_Some'. right.
    apply (Hc c y); [done|]. by destruct y.
  - intros c i e0 (y & Hy & Hx)%Hcl. destruct y as [|i' w|i' w|]; simplify_eq/=. case_decide as Hi; [done|].
    subst w. rewrite lookup_insert_ne by done. eauto.
  - intros c x i e0 (y & Hy & ->)%Hcl Hx. intros [[<- <-]|[Hne H0]]%lookup_insert_Some; [done|].
    apply (Hk c y i e0 Hy); [|done].
    destruct y as [|i' w|i' w|]; simplify_eq/=; case_decide; simplify_eq/=; try done; by destruct w.
  - intros i e0 b [[<- <-]|[Hne H0]]%lookup_insert_Some Hb0; [by apply (Hen id e)|eauto].
  - intros c n ip (y & Hy & Hx)%Hcl. destruct y as [| | |]; simplify_eq/=; eauto.
Qed.

Lemma inv_remove s id e :
  inv s → heap s !! id = Some e → background e = Removing →
  inv (mkState (delete (e_name e) (table s)) (<[id := set_background e Finished]> (heap s)) (clients s) (fresh_id s)
         (answers s)).
Proof.
  intros Hinv He Hb. pose proof (inv_first s Hinv id e He) as H1. unfold before_first in H1. rewrite Hb in H1.
  destruct Hinv as [Ht Hf H1' Hc Hw Hk Hen Hd].
  assert (entries e ≠ None) as Hsome by (intros Hn; by specialize (H1 Hn)).
  assert (table s !! e_name e = Some id) as Hn by (apply Ht; exists e; by rewrite Hb).
  split; simpl; try done.
  - intros n i. rewrite lookup_delete_Some, Ht. split.
    + intros (Hne & e0 & H0 & <- & Hb0). exists e0. rewrite lookup_insert_ne; [done|]. naive_solver.
    + intros (e0 & [[<- <-]|[Hne H0]]%lookup_insert_Some & <- & Hb0); [done|]. split; [|by exists e0].
      intros Heq. assert (table s !! e_name e0 = Some i) as Hi by (apply Ht; eauto). congruence.
  - intros i e0 [[<- <-]|[Hne H0]]%lookup_insert_Some; eauto.
  - intros i e0 [[<- <-]|[Hne H0]]%lookup_insert_Some; [done|eauto].
  - intros c x i Hx Hxi. apply lookup_insert_is_Some'. right. eauto.
  - intros c i e0 Hx [[<- <-]|[Hne H0]]%lookup_insert_Some; [|eauto].
    destruct (Hw c id e Hx He); congruence.
  - intros c x i e0 Hx Hxi [[<- <-]|[Hne H0]]%lookup_insert_Some; eauto.
  - intros i e0 b [[<- <-]|[Hne H0]]%lookup_insert_Some Hb0; [by apply (Hen id e)|eauto].
Qed.

(** An answer of the resolver changes the entry and the history. *)
Lemma inv_answer s n r :
  inv s → inv (mkState (table s) (heap s) (clients s) (fresh_id s)
                 (match r with Some ips => (n, ips) :: answers s | None => answers s end)).
Proof.
  intros Hinv. set (ans := match r with Some ips => _ | None => _ end).
  assert (∀ x, x ∈ answers s → x ∈ ans) as Hsub by (unfold ans; destruct r; set_solver).
  destruct Hinv as [Ht Hf H1' Hc Hw Hk Hen Hd]. split; simpl; try done.
  - intros i e0 b Hi Hb0. destruct (Hen i e0 b Hi Hb0); [by left|right; auto].
  - intros c m ip Hx. destruct (Hd c m ip Hx) as (ips & ? & ?). eauto.
Qed.

(** The labels of background tasks but these change only the entry. *)
Lemma inv_background s l id e s' :
  inv s → heap s !! id = Some e → background_step s l id e = Some s' → inv s'.
Proof.
  intros Hinv He Hstep. pose proof (inv_first s Hinv id e He) as H1. unfold before_first in H1.
  unfold background_step in Hstep. destruct l, (background e) eqn:Hb; simplify_eq/=.
  - (* Start *) eapply inv_set_entry; [done|done|]. split; simpl; rewrite ?Hb; try done; naive_solver.
  - (* Swap *) eapply inv_set_entry; [done|done|].
    split; simpl; rewrite ?Hb; try done; destruct (active e); naive_solver.
  - (* Resolved *) pose proof (inv_answer s (e_name e) r Hinv) as Hinv'.
    set (ans := match r with Some ips => _ | None => _ end) in Hinv'.
    assert (inv (set_entry (mkState (table s) (heap s) (clients s) (fresh_id s) ans) id
      (set_background (set_entries e (CircularBuffer_new (default [] r))) Notifying))) as Hfin.
    { eapply inv_set_entry; [done|done|]. split; simpl; rewrite ?Hb; try done; try naive_solver.
      intros b [= <-]. simpl. destruct r as [ips|]; [|by left]. right. left. unfold ans. simpl. left. }
    unfold ans in Hfin. by destruct r.
  - (* Notify *) by apply inv_notify.
  - (* Expire *) assert (entries e ≠ None) as Hsome by (intros Hn; by specialize (H1 Hn)).
    eapply inv_set_entry; [done|done|]. split; simpl; rewrite ?Hb; try done; naive_solver.
  - (* Remove *) by apply inv_remove.
Qed.

Lemma inv_exec s l s' : inv s → exec s l = Some s' → inv s'.
Proof.
  intros Hinv Hexec. destruct l as [c n|c|c|c|id|id|id r|id|id|id]; cbn [exec] in Hexec.
  1: destruct (clients s !! c) eqn:Hc; simplify_eq; by apply inv_resolve.
  4-9: apply bind_Some in Hexec as (e & He & Hs); by eapply inv_background.
  all: unfold client_step in Hexec; destruct (clients s !! c) as [[id|id w|id []|]|] eqn:Hc; simplify_eq;
    apply bind_Some in Hexec as (e & He & [= <-]).
  - by apply inv_next.
  - apply inv_load; [done|done|]. intros -> _. by eapply (inv_woken s Hinv c (CLoading id true)).
  - by apply inv_load.
Qed.

Lemma inv_run s ls s' : inv s → run s ls = Some s' → inv s'.
Proof.
  revert s. induction ls as [|l ls IH]; intros s Hinv; simpl; [by intros [= <-]|].
  intros (s1 & Hs1 & Hr)%bind_Some. eapply IH; [|done]. by eapply inv_exec.
Qed.

(** What the resolver answered is in the run. *)
Lemma exec_answers s l s' n ips :
  exec s l = Some s' → (n, ips) ∈ answers s' → (n, ips) ∈ answers s ∨ ∃ id, l = Resolved id (Some ips).
Proof.
  intros Hexec Hin. destruct l as [c m|c|c|c|id|id|id r|id|id|id]; cbn [exec] in Hexec.
  - destruct (clients s !! c); simplify_eq. unfold resolve in Hin. destruct (table s !! m) as [i|]; [|by left].
    by destruct (heap s !! i); left.
  - unfold client_step in Hexec. destruct (clients s !! c) as [[]|]; simplify_option_eq. by left.
  - unfold client_step in Hexec. destruct (clients s !! c) as [[]|]; simplify_option_eq. left. unfold load in Hin.
    destruct (entries _) as [b|]; [|done]. by destruct (get_and_advance b).
  - unfold client_step in Hexec. destruct (clients s !! c) as [[|? []|? []|]|]; simplify_option_eq. left.
    unfold load in Hin. destruct (entries _) as [b|]; [|done]. by destruct (get_and_advance b).
  - apply bind_Some in Hexec as (e & He & Hs). unfold background_step in Hs.
    destruct (background e); simplify_eq. by left.
  - apply bind_Some in Hexec as (e & He & Hs). unfold background_step in Hs.
    destruct (background e); simplify_eq. by left.
  - apply bind_Some in Hexec as (e & He & Hs). unfold background_step in Hs.
    destruct (background e); simplify_eq. destruct r as [ips'|]; [|by left]. simpl in Hin.
    apply elem_of_cons in Hin as [[= -> ->]|Hin]; [right; eauto|by left].
  - apply bind_Some in Hexec as (e & He & Hs). unfold background_step in Hs.
    destruct (background e); simplify_eq. by left.
  - apply bind_Some in Hexec as (e & He & Hs). unfold background_step in Hs.
    destruct (background e); simplify_eq. by left.
  - apply bind_Some in Hexec as (e & He & Hs). unfold background_step in Hs.
    destruct (background e); simplify_eq. by left.
Qed.

Lemma run_answers s ls s' n ips :
  run s ls = Some s' → (n, ips) ∈ answers s' → (n, ips) ∈ answers s ∨ ∃ id, Resolved id (Some ips) ∈ ls.
Proof.
  revert s. induction ls as [|l ls IH]; intros s; simpl; [intros [= <-]; by left|].
  intros (s1 & Hs1 & Hr)%bind_Some Hin. destruct (IH s1 Hr Hin) as [H1|[id Hid]].
  - destruct (exec_answers _ _ _ _ _ Hs1 H1) as [?|[id ->]]; [by left|]. right. exists id. set_solver.
  - right. exists id. set_solver.
Qed.

(** * Theorems *)

(** C13: the cache, whatever the interleaving of clients and background tasks. At most one
    background task runs for a name, and it runs exactly as long as the table has an
    entry for the name; a client that gets an address gets one that the resolver has
    answered for the name. *)
Theorem dns_cache ls s :
  run initial ls = Some s →
  (∀ n id, table s !! n = Some id ↔ ∃ e, heap s !! id = Some e ∧ e_name e = n ∧ background e ≠ Finished) ∧
  (∀ id id' e e', heap s !! id = Some e → heap s !! id' = Some e' → e_name e = e_name e' →
     background e ≠ Finished → background e' ≠ Finished → id = id') ∧
  (∀ c n ip, clients s !! c = Some (CDone n (Some ip)) →
     ∃ ips id, (n, ips) ∈ answers s ∧ ip ∈ ips ∧ Resolved id (Some ips) ∈ ls).
Proof.
  intros Hrun. pose proof (inv_run _ _ _ inv_initial Hrun) as Hinv. split_and!.
  - apply (inv_table s Hinv).
  - intros id id' e e' He He' Hn Hb Hb'.
    assert (table s !! e_name e = Some id) by (apply (inv_table s Hinv); eauto).
    assert (table s !! e_name e = Some id') by (apply (inv_table s Hinv); rewrite Hn; eauto). congruence.
  - intros c n ip Hc. destruct (inv_done s Hinv c n ip Hc) as (ips & Hin & Hip).
    destruct (run_answers _ _ _ _ _ Hrun Hin) as [H|[id Hid]]; [by apply elem_of_nil in H|]. eauto.
Qed.

(** The next steps of the task of an entry, up to its notification. *)
Definition rest_of_round (id : nat) (r : option (list IpAddr)) (b : Background) : list Label :=
  match b with
  | Starting => [Start id; Swap id; Resolved id r; Notify id]
  | Checking => [Swap id; Resolved id r; Notify id]
  | Resolving => [Resolved id r; Notify id]
  | Notifying => [Notify id]
  | _ => []
  end.

Lemma notified s c id e :
  clients s !! c = Some (CWaiting id false) → heap s !! id = Some e → entries e ≠ None → background e = Notifying →
  ∃ s', run s [Notify id; Wake c] = Some s' ∧ ∃ n res, clients s' !! c = Some (CDone n res).
Proof.
  intros Hc He Hsome Hb. cbn [run exec]. rewrite He. cbn [mbind option_bind]. unfold background_step at 1.
  rewrite Hb. cbn [mbind option_bind]. unfold client_step. simpl.
  rewrite lookup_fmap, Hc. simpl. rewrite decide_True, lookup_insert_eq by done. simpl. eexists. split; [done|].
  unfold load. simpl. destruct (entries e) as [b|]; [|done]. destruct (get_and_advance b) as [b' ip].
  simpl. rewrite lookup_insert_eq. eauto.
Qed.

Lemma run_app s ls1 ls2 : run s (ls1 ++ ls2) = (s ← run s ls1; run s ls2).
Proof.
  revert s. induction ls1 as [|l ls1 IH]; intros s; simpl; [done|]. destruct (exec s l); simpl; [apply IH|done].
Qed.

(** From any point of its first round, the task gets to its notification. *)
Lemma round_reaches s c id e r :
  heap s !! id = Some e → clients s !! c = Some (CWaiting id false) → before_first e →
  ∃ ls s1 e1, run s ls = Some s1 ∧ ls ++ [Notify id] = rest_of_round id r (background e) ∧
    heap s1 !! id = Some e1 ∧ clients s1 !! c = Some (CWaiting id false) ∧ entries e1 ≠ None ∧
    background e1 = Notifying.
Proof.
  intros He Hc Hb. unfold before_first in Hb.
  assert (∀ s e, heap s !! id = Some e → background e = Resolving → ∃ s1 e1,
    run s [Resolved id r] = Some s1 ∧ heap s1 !! id = Some e1 ∧ clients s1 = clients s ∧ entries e1 ≠ None ∧
    background e1 = Notifying) as Hres.
  { intros s0 e0 He0 Hb0. cbn [run exec]. rewrite He0. cbn [mbind option_bind]. unfold background_step. rewrite Hb0.
    eexists _, (set_background (set_entries e0 (CircularBuffer_new (default [] r))) Notifying). split; [done|].
    destruct r; simpl; (split; [apply lookup_insert_eq|done]). }
  assert (∀ s e, heap s !! id = Some e → background e = Checking → active e = true → ∃ s1 e1,
    run s [Swap id; Resolved id r] = Some s1 ∧ heap s1 !! id = Some e1 ∧ clients s1 = clients s ∧
    entries e1 ≠ None ∧ background e1 = Notifying) as Hswap.
  { intros s0 e0 He0 Hb0 Ha0. cbn [run exec]. rewrite He0. cbn [mbind option_bind]. unfold background_step.
    rewrite Hb0, Ha0.
    destruct (Hres (set_entry s0 id (set_background (set_active e0 false) Resolving))
      (set_background (set_active e0 false) Resolving)) as (s1 & e1 & Hr & Hrest); [apply lookup_insert_eq|done|].
    exists s1, e1. split; [exact Hr|exact Hrest]. }
  destruct (background e) eqn:Hbe; [| | |done..].
  - destruct (Hswap (set_entry s id (set_background (set_active e true) Checking))
      (set_background (set_active e true) Checking)) as (s1 & e1 & Hr & ? & Hcl & ?);
      [apply lookup_insert_eq|done..|].
    exists [Start id; Swap id; Resolved id r], s1, e1. split.
    + change [Start id; Swap id; Resolved id r] with ([Start id] ++ [Swap id; Resolved id r]). rewrite run_app.
      assert (exec s (Start id) = Some (set_entry s id (set_background (set_active e true) Checking))) as Hst.
      { cbn [exec]. rewrite He. simpl. by rewrite Hbe. }
      cbn [run]. rewrite Hst. exact Hr.
    + rewrite Hcl. done.
  - destruct (Hswap s e He Hbe Hb) as (s1 & e1 & Hr & ? & Hcl & ?). exists [Swap id; Resolved id r], s1, e1.
    rewrite Hcl. done.
  - destruct (Hres s e He Hbe) as (s1 & e1 & Hr & ? & Hcl & ?). exists [Resolved id r], s1, e1. rewrite Hcl. done.
Qed.

(** C35: nobody waits in vain. From every reachable state in which a client waits for the
    first resolution of a name, the rest of the round of that name's background task,
    whatever the resolver answers, and the client's own next step give the client its
    answer: no wake-up is lost. *)
Theorem dns_waiter_served ls s c id woken r :
  run initial ls = Some s → clients s !! c = Some (CWaiting id woken) →
  ∃ e s' n res, heap s !! id = Some e ∧
    run s ((if woken then [] else rest_of_round id r (background e)) ++ [Wake c]) = Some s' ∧
    clients s' !! c = Some (CDone n res).
Proof.
  intros Hrun Hc. pose proof (inv_run _ _ _ inv_initial Hrun) as Hinv.
  destruct (inv_client s Hinv c _ id Hc eq_refl) as [e He]. exists e. destruct woken.
  - pose proof (inv_woken s Hinv c _ id e Hc eq_refl He) as Hsome.
    cbn [run exec app]. unfold client_step. rewrite Hc, He. simpl. unfold load.
    destruct (entries e) as [b|]; [|done]. destruct (get_and_advance b) as [b' ip].
    eexists _, _, _. split; [done|]. split; [done|]. apply lookup_insert_eq.
  - destruct (inv_wait s Hinv c id e Hc He) as [Hnone|Hnot].
    + destruct (round_reaches s c id e r He Hc (inv_first s Hinv id e He Hnone))
        as (ls' & s1 & e1 & Hr & <- & He1 & Hc1 & Hsome & Hb).
      destruct (notified s1 c id e1 Hc1 He1 Hsome Hb) as (s' & Hs' & n & res & Hdone).
      exists s', n, res. rewrite <-app_assoc, run_app, Hr. split; [done|]. done.
    + destruct (entries e) as [b|] eqn:Hen.
      2:{ pose proof (inv_first s Hinv id e He Hen) as Hb. unfold before_first in Hb. by rewrite Hnot in Hb. }
      destruct (notified s c id e Hc He) as (s' & Hs' & n & res & Hdone); [by rewrite Hen|done|].
      exists s', n, res. rewrite Hnot. done.
Qed.

(** A failed refresh. When the resolver fails, the addresses that were known are given
    up: the next client gets an error although the name was resolved before. *)
Theorem dns_failure_forgets s id e c woken :
  heap s !! id = Some e → background e = Resolving → clients s !! c = Some (CLoading id woken) →
  ∃ s', run s [Resolved id None; Load c] = Some s' ∧ clients s' !! c = Some (CDone (e_name e) None).
Proof.
  intros He Hb Hc. cbn [run exec]. rewrite He. cbn [mbind option_bind]. unfold background_step at 1. rewrite Hb.
  cbn [mbind option_bind]. unfold client_step. simpl. rewrite Hc, lookup_insert_eq. simpl.
  eexists. split; [done|]. apply lookup_insert_eq.
Qed.

(** ** Examples *)

Module DnsExample.
Definition A : IpAddr := V4 "aaaa".
Definition B : IpAddr := V4 "bbbb".

(** Two clients: the first waits, the second comes while the name is refreshed. *)
Definition script : list Label :=
  [Resolve 1 "a.com"; Next 1; Start 0; Load 1; Swap 0; Resolve 2 "a.com"; Resolved 0 (Some [A; B]); Next 2;
   Notify 0; Wake 1; Load 2].

Lemma dns_cache_witness : ∃ s, run initial script = Some s ∧
  clients s !! 2 = Some (CDone "a.com" (Some B)) ∧ ∃ ips id, (("a.com", ips) ∈ answers s) ∧ B ∈ ips ∧
  Resolved id (Some ips) ∈ script.
Proof.
  destruct (run initial script) as [s|] eqn:Hr; [|vm_compute in Hr; discriminate Hr].
  exists s. split; [reflexivity|].
  assert (clients s !! 2 = Some (CDone "a.com" (Some B))) as Hc
    by (vm_compute in Hr; injection Hr as <-; reflexivity).
  split; [exact Hc|]. exact (proj2 (proj2 (dns_cache script s Hr)) 2 "a.com" B Hc).
Defined.

Definition waiting : list Label := [Resolve 1 "a.com"; Next 1; Load 1].

Lemma dns_waiter_served_witness : ∃ s s' n res, run initial waiting = Some s ∧
  run s [Start 0; Swap 0; Resolved 0 None; Notify 0; Wake 1] = Some s' ∧ clients s' !! 1 = Some (CDone n res).
Proof.
  destruct (run initial waiting) as [s|] eqn:Hr; [|vm_compute in Hr; discriminate Hr].
  assert (clients s !! 1 = Some (CWaiting 0 false)) as Hc
    by (vm_compute in Hr; injection Hr as <-; reflexivity).
  destruct (dns_waiter_served waiting s 1 0 false None Hr Hc) as (e & s' & n & res & He & Hs' & Hd).
  assert (background e = Starting) as Hb
    by (vm_compute in Hr; injection Hr as <-; vm_compute in He; injection He as <-; reflexivity).
  rewrite Hb in Hs'. exists s, s', n, res. split; [reflexivity|]. split; [exact Hs'|exact Hd].
Defined.

(** The name is known; while it is refreshed a second client asks for it. *)
Definition refreshing : list Label :=
  [Resolve 1 "a.com"; Next 1; Start 0; Swap 0; Resolved 0 (Some [A]); Notify 0; Load 1; Resolve 2 "a.com"; Next 2;
   Expire 0; Swap 0].

Lemma dns_failure_forgets_witness : ∃ s s', run initial refreshing = Some s ∧
  clients s !! 1 = Some (CDone "a.com" (Some A)) ∧
  run s [Resolved 0 None; Load 2] = Some s' ∧ clients s' !! 2 = Some (CDone "a.com" None).
Proof.
  eexists. destruct (dns_failure_forgets
    (default initial (run initial refreshing)) 0
    (mkEntry "a.com" false (Some (mkBuffer [A] 1)) Resolving) 2 false) as (s' & Hs' & Hd);
    [vm_compute; reflexivity|reflexivity|vm_compute; reflexivity|].
  exists s'. split; [vm_compute; reflexivity|]. split; [reflexivity|]. split; [exact Hs'|exact Hd].
Defined.
End DnsExample.
