(* ===== verification/AgentTypes.v ===== *)
(** AgentTypes: the configuration data model ([types/agent.rs] and the policy
    records it embeds): binds, listeners, routes, matches, filters, backends and
    policies, with the backend naming functions.

    Third-party objects the gateway only passes around ([rustls] configurations,
    JWKS keys) are [Handle]s, the address their [Arc] holds.  A compiled regular
    expression is its observable behaviour, [Regex::find]. *)
From Stdlib Require Import SpecFloat.
From S2P Require Import Prelude Strs DiscoveryTypes IpParse.

Definition Handle := N.

(** [regex::Regex]: [find] gives the bounds of the leftmost match. *)
Record Regex := { regex_str : string; regex_find : string → option (nat * nat) }.

(** [re.find(s).map(|m| m.start() == 0 && m.end() == s.len()).unwrap_or(false)] *)
Definition regex_full_match (r : Regex) (s : string) : bool :=
  match regex_find r s with
  | Some (a, b) => bool_decide (a = 0) && bool_decide (b = Str.len s)
  | None => false
  end.

(** * Targets *)

Inductive Target :=
| TgtAddress (a : SocketAddr)
| TgtHostname (h : string) (port : N).
#[export] Instance Target_eq_dec : EqDecision Target.
Proof. solve_decision. Defined.

Definition Target_from (host : string) (port : N) : Target :=
  match parse_ip host with
  | Some target => TgtAddress {| sa_ip := target; sa_port := port |}
  | None => TgtHostname host port
  end.

Inductive TargetError := InvalidHostPort (s : string) | InvalidPort (s : string).

(** [TryFrom<&str>]: a [host:port] string. *)
Definition Target_try_from (hostport : string) : result Target TargetError :=
  match Str.split_once ":" hostport with
  | None => Err (InvalidHostPort hostport)
  | Some (host, port) =>
    match Str.parse_uint 65535 port with
    | Some port => Ok (Target_from host port)
    | None => Err (InvalidPort port)
    end
  end.

(** * Route matches *)

Inductive PathMatch :=
| PathExact (s : string)
| PathPrefix (s : string)
| PathRegex (r : Regex) (len : nat).

Inductive HeaderValueMatch := HVExact (v : string) | HVRegex (r : Regex).
Inductive QueryValueMatch := QVExact (v : string) | QVRegex (r : Regex).

Record HeaderMatch := { hm_name : string; hm_value : HeaderValueMatch }.
Record QueryMatch := { qm_name : string; qm_value : QueryValueMatch }.

Record RouteMatch := {
  rm_headers : list HeaderMatch;
  rm_path : PathMatch;
  rm_method : option string;
  rm_query : list QueryMatch
}.

(** * Backends *)

Inductive SimpleBackendReference :=
| SBRService (name : NamespacedHostname.t) (port : N)
| SBRBackend (name : string)
| SBRInvalid.

Inductive BackendReference :=
| BRService (name : NamespacedHostname.t) (port : N)
| BRBackend (name : string)
| BRInvalid.

Inductive SimpleBackend :=
| SBService (svc : Service.t) (port : N)
| SBOpaque (name : string) (target : Target)
| SBInvalid.

Inductive McpTargetSpec :=
| McpSse (backend : SimpleBackendReference) (path : string)
| McpMcp (backend : SimpleBackendReference) (path : string)
| McpStdio (cmd : string) (args : list string) (env : gmap string string)
| McpOpenAPI (backend : SimpleBackendReference) (schema : Handle).

Record McpTarget := { mt_name : string; mt_spec : McpTargetSpec }.
Record McpBackend := { mcp_targets : list McpTarget }.

Inductive AIProvider :=
| OpenAI (model : option string)
| Gemini (model : option string)
| Vertex (model region : option string) (project_id : string)
| Anthropic (model : option string)
| Bedrock (model region : string).

Record AIBackend := { ai_provider : AIProvider; ai_host_override : option Target }.

Inductive Backend :=
| BService (svc : Service.t) (port : N)
| BOpaque (name : string) (target : Target)
| BMCP (name : string) (b : McpBackend)
| BAI (name : string) (b : AIBackend)
| BDynamic
| BInvalid.

Definition Backend_from (value : SimpleBackend) : Backend :=
  match value with
  | SBService svc port => BService svc port
  | SBOpaque name target => BOpaque name target
  | SBInvalid => BInvalid
  end.

Definition SimpleBackend_try_from (value : Backend) : result SimpleBackend string :=
  match value with
  | BService svc port => Ok (SBService svc port)
  | BOpaque name tgt => Ok (SBOpaque name tgt)
  | BInvalid => Ok SBInvalid
  | _ => Err "unsupported backend type"
  end.

(** [format!("service/{}/{}:{port}", namespace, hostname)] *)
Definition service_backend_name (namespace hostname : string) (port : N) : string :=
  "service/" +:+ namespace +:+ "/" +:+ hostname +:+ ":" +:+ Str.display_nat port.

Definition SimpleBackendReference_name (b : SimpleBackendReference) : string :=
  match b with
  | SBRService name port =>
    service_backend_name (NamespacedHostname.namespace name) (NamespacedHostname.hostname name) port
  | SBRBackend name => name
  | SBRInvalid => "invalid"
  end.

Definition BackendReference_name (b : BackendReference) : string :=
  match b with
  | BRService name port =>
    service_backend_name (NamespacedHostname.namespace name) (NamespacedHostname.hostname name) port
  | BRBackend name => name
  | BRInvalid => "invalid"
  end.

Definition SimpleBackend_name (b : SimpleBackend) : string :=
  match b with
  | SBService svc port =>
    service_backend_name (Service.namespace svc) (Service.hostname svc) port
  | SBOpaque name _ => name
  | SBInvalid => "invalid"
  end.

Definition Backend_name (b : Backend) : string :=
  match b with
  | BService svc port =>
    service_backend_name (Service.namespace svc) (Service.hostname svc) port
  | BOpaque name _ => name
  | BMCP name _ => name
  | BAI name _ => name
  | BDynamic => "dynamic"
  | BInvalid => "invalid"
  end.

Definition McpBackend_find (b : McpBackend) (name : string) : option McpTarget :=
  find (λ target, Str.eqb (mt_name target) name) (mcp_targets b).

(** * Filters and traffic policies *)

Inductive HostRedirect := HostFull (s : string) | HostHost (s : string) | HostPort (p : N).
Inductive PathRedirect := PRFull (s : string) | PRPrefix (s : string).

Record HeaderModifier := {
  add : list (string * string);
  set : list (string * string);
  remove : list string
}.

Record RequestRedirect := {
  rr_scheme : option string;
  rr_authority : option HostRedirect;
  rr_path : option PathRedirect;
  rr_status : option Z
}.

Record UrlRewrite := {
  ur_authority : option HostRedirect;
  ur_path : option PathRedirect
}.

Record DirectResponse := { dr_body : string; dr_status : Z }.

(** [percentage] is an [f64]. *)
Record RequestMirror := { mirror_backend : SimpleBackendReference; percentage : spec_float }.

Inductive WildcardOrList (A : Type) := WNone | WWildcard | WList (l : list A).
Arguments WNone {_}.
Arguments WWildcard {_}.
Arguments WList {_} _.

Record Cors := {
  allow_credentials : bool;
  allow_headers : WildcardOrList string;
  allow_methods : WildcardOrList string;
  allow_origins : WildcardOrList string;
  expose_headers : WildcardOrList string;
  max_age : option string
}.

Inductive RouteFilter :=
| RFRequestHeaderModifier (m : HeaderModifier)
| RFResponseHeaderModifier (m : HeaderModifier)
| RFRequestRedirect (r : RequestRedirect)
| RFUrlRewrite (r : UrlRewrite)
| RFRequestMirror (m : RequestMirror)
| RFDirectResponse (d : DirectResponse)
| RFCORS (c : Cors).

(** Durations are in nanoseconds. *)
Record TimeoutPolicy := {
  request_timeout : option N;
  backend_request_timeout : option N
}.

Record RetryPolicy := { attempts : N; backoff : option N; codes : list Z }.

Record TrafficPolicy := { tp_timeout : TimeoutPolicy; tp_retry : option RetryPolicy }.

(** * Routes *)

Record RouteBackendReference := {
  rbr_weight : N;
  rbr_backend : BackendReference;
  rbr_filters : list RouteFilter
}.

Record Route := {
  route_key : string;
  route_name : string;
  route_rule_name : option string;
  route_hostnames : list string;
  route_matches : list RouteMatch;
  route_filters : list RouteFilter;
  route_backends : list RouteBackendReference;
  route_policies : option TrafficPolicy
}.

Record TCPRouteBackendReference := {
  tbr_weight : N;
  tbr_backend : SimpleBackendReference
}.

Record TCPRoute := {
  tcp_key : string;
  tcp_route_name : string;
  tcp_hostnames : list string;
  tcp_rule_name : option string;
  tcp_backends : list TCPRouteBackendReference
}.

Definition default_weight : N := 1.

(** * Policies *)

(** [cel::Expression]: its source text and the attributes it reads. *)
Record Expression := { original_expression : string; expr_attributes : gset string }.

Record RuleSet := { rules : list Expression }.

Inductive McpIDP := Auth0 | Keycloak.
Record McpAuthentication := {
  issuer : string;
  scopes : list string;
  audience : string;
  provider : option McpIDP
}.

Inductive BackendAuth := Passthrough | Key (secret : string) | Gcp | Aws.
Record BackendTLS := { btls_config : Handle }.
Record A2aPolicy := {}.

Record PromptGuardResponse := { pgr_body : string; pgr_status : Z }.
Inductive Action := Mask | Reject (response : PromptGuardResponse).
Inductive Builtin := Ssn | CreditCard | PhoneNumber | Email.
Inductive RegexRule := RRBuiltin (b : Builtin) | RRRegex (pattern : Regex) (name : string).
Record RegexRules := {
  rr_response : PromptGuardResponse;
  rr_action : Action;
  rr_rules : list RegexRule
}.
Record Webhook := { webhook_target : Target }.
Record PromptGuardRequest := {
  pg_response : PromptGuardResponse;
  pg_regex : option RegexRules;
  pg_webhook : option Webhook
}.
Record PromptGuard := { pg_request : option PromptGuardRequest }.
Record LlmPolicy := { prompt_guard : option PromptGuard }.

Inductive RateLimitType := Requests | Tokens.
#[export] Instance RateLimitType_eq_dec : EqDecision RateLimitType.
Proof. solve_decision. Defined.
(** The limiter itself is shared, behind an [Arc]. *)
Record RateLimit := { ratelimit : Handle; limit_type : RateLimitType }.

Record ExtAuthz := { ea_target : Target; ea_context : option (gmap string string) }.
Inductive Descriptor := DRequestHeader (name : string) | DStatic (v : string).
Record RemoteRateLimit := { rrl_target : Target; descriptors : gmap string Descriptor }.
Record Jwt := { jwt_keys : gmap string Handle }.
Record TransformerConfig := {
  tc_add : list (string * Expression);
  tc_set : list (string * Expression);
  tc_remove : list string;
  tc_body : option Expression
}.
Record Transformation := { tr_request : TransformerConfig; tr_response : TransformerConfig }.

Inductive PolicyTarget :=
| PTGateway (n : string)
| PTListener (n : string)
| PTRoute (n : string)
| PTRouteRule (n : string)
| PTBackend (n : string).
#[export] Instance PolicyTarget_eq_dec : EqDecision PolicyTarget.
Proof. solve_decision. Defined.
#[export] Instance PolicyTarget_countable : Countable PolicyTarget.
Proof.
  refine (inj_countable'
    (λ t, match t with
          | PTGateway n => (0, n) | PTListener n => (1, n) | PTRoute n => (2, n)
          | PTRouteRule n => (3, n) | PTBackend n => (4, n) end)
    (λ p, match p.1 with
          | 0 => PTGateway p.2 | 1 => PTListener p.2 | 2 => PTRoute p.2
          | 3 => PTRouteRule p.2 | _ => PTBackend p.2 end) _).
  abstract (by intros []).
Defined.

Inductive Policy :=
| PMcpAuthorization (p : RuleSet)
| PMcpAuthentication (p : McpAuthentication)
| PA2a (p : A2aPolicy)
| PBackendTLS (p : BackendTLS)
| PBackendAuth (p : BackendAuth)
| PAI (p : LlmPolicy)
| PLocalRateLimit (p : list RateLimit)
| PExtAuthz (p : ExtAuthz)
| PRemoteRateLimit (p : RemoteRateLimit)
| PJwtAuth (p : Jwt)
| PTransformation (p : Transformation).

Record TargetedPolicy := { tp_name : string; tp_target : PolicyTarget; tp_policy : Policy }.

(** * Listener protocols *)

Record TLSConfig := { tls_config : Handle }.

Inductive ListenerProtocol :=
| LPHTTP | LPHTTPS (t : TLSConfig) | LPTLS (t : TLSConfig) | LPTCP | LPHBONE.

Definition ListenerProtocol_tls (p : ListenerProtocol) : option Handle :=
  match p with
  | LPHTTPS t | LPTLS t => Some (tls_config t)
  | _ => None
  end.

Inductive BindProtocol := http | https | hbone | tcp | tls.

(** * Theorems *)

(** The gateway resolves a backend by name: a service reference and the service
    it resolves to carry the same name. *)
Lemma backend_reference_name_service svc port :
  BackendReference_name (BRService (Service.namespaced_hostname svc) port) =
  Backend_name (BService svc port).
Proof. done. Qed.

(** Restricting a backend to the simple ones and injecting it back is the
    identity, name included. *)
Lemma simple_backend_roundtrip b :
  SimpleBackend_try_from (Backend_from b) = Ok b ∧
  SimpleBackend_name b = Backend_name (Backend_from b).
Proof. by destruct b. Qed.

(** A target is read from [host:port] as an IPv4 address if the host is one and
    as a host name otherwise, with a 16-bit port; an IPv6 address cannot be given,
    since the text is cut at its first colon. *)
Theorem target_parse s tgt :
  Target_try_from s = Ok tgt →
  ∃ host port, Str.split_once ":" s = Some (host, port) ∧
    match tgt with
    | TgtAddress a => (∃ o, parse_ip host = Some (V4 o) ∧ sa_ip a = V4 o ∧ Str.len o = 4) ∧
        Str.parse_uint 65535 port = Some (sa_port a)
    | TgtHostname h p => h = host ∧ parse_ip host = None ∧ Str.parse_uint 65535 port = Some p
    end.
Proof.
  unfold Target_try_from, Target_from. destruct (Str.split_once ":" s) as [[host port]|] eqn:Hs; [|done].
  destruct (Str.parse_uint 65535 port) as [p|] eqn:Hp; [|done]. intros [= <-].
  exists host, port. split; [done|].
  destruct (parse_ip host) as [[o|o]|] eqn:Hip; simpl.
  - split; [|done]. exists o. split_and!; [done..|]. by apply (parse_ip_octets host (V4 o)).
  - apply parse_ip_v6_colon in Hip. apply Str.split_once_Some in Hs as [_ Hs]. congruence.
  - done.
Qed.

Lemma target_parse_witness :
  ∃ host port, Str.split_once ":" "127.0.0.1:8080" = Some (host, port).
Proof.
  destruct (target_parse "127.0.0.1:8080" (TgtAddress
    {| sa_ip := V4 (octet 127 +:+ octet 0 +:+ octet 0 +:+ octet 1); sa_port := 8080 |}))
    as (host & port & H & _); [vm_compute; reflexivity|].
  exists host, port. exact H.
Defined.
