(* ===== verification/RouteSet.v ===== *)
(** RouteSet: host name matching and the per-listener route tables of
    [types/agent.rs] ([HostnameMatch], [RouteSet], [TCPRouteSet]).

    A table keeps the routes by key ([all]) and, for every host name, the list
    of (route, match index) pairs sorted by Gateway-API precedence ([inner]),
    which the request path walks linearly.  [wf] is the invariant that ties the
    two together; [insert] of a new key and [remove] keep it, and in a
    well-formed table [get_hostname] lists exactly the matches of the routes of
    a host name, in precedence order. *)
From S2P Require Import Prelude BinarySearch Strs DiscoveryTypes AgentTypes.

(** * Host names *)

Module HostnameMatch.

Inductive t := Exact (s : string) | Wildcard (s : string) | None.

#[global] Instance eq_dec : EqDecision t.
Proof. solve_decision. Defined.
#[global] Instance countable : Countable t.
Proof.
  refine (inj_countable'
    (λ h, match h with Exact s => inl s | Wildcard s => inr (inl s) | None => inr (inr ()) end)
    (λ x, match x with inl s => Exact s | inr (inl s) => Wildcard s | inr (inr _) => None end) _).
  abstract (by intros []).
Defined.

(** [From<Strng>]: [*.example.com] is [Wildcard(example.com)]. *)
Definition from (s : string) : t :=
  match Str.strip_prefix "*." s with
  | Some s => Wildcard s
  | Datatypes.None => Exact s
  end.

Definition all_actual_matches (hostname : string) : list t :=
  let start := if Str.starts_with "*." hostname then [] else [Exact hostname] in
  let parts := drop 1 (Str.split "." hostname) in
  let wildcards :=
    (λ i, Wildcard (Str.join "." (drop i parts))) <$> seq 0 (length parts) in
  start ++ wildcards.

Definition all_matches (hostname : string) : list t :=
  all_actual_matches hostname ++ [None].

Definition all_matches_or_none (hostname : option string) : list t :=
  match hostname with
  | Datatypes.None => [None]
  | Some h => all_matches h
  end.

End HostnameMatch.

(** * Precedence *)

Definition get_path_rank (path : PathMatch) : Z :=
  match path with
  | PathExact _ => 3
  | PathPrefix _ => 2
  | PathRegex _ _ => 2
  end.

Definition get_path_length (path : PathMatch) : nat :=
  match path with
  | PathExact s => Str.len s
  | PathPrefix s => Str.len s
  | PathRegex _ l => l
  end.

Module RouteSet.

Record SingleRouteMatch := mkSingle { key : string; index : nat }.
#[global] Instance SingleRouteMatch_eq_dec : EqDecision SingleRouteMatch.
Proof. solve_decision. Defined.

Record t := mk {
  inner : gmap HostnameMatch.t (list SingleRouteMatch);
  all : gmap string Route
}.

Definition default_set : t := mk ∅ ∅.

Definition is_some {A} (o : option A) : bool :=
  match o with Some _ => true | None => false end.

Definition compare_route (a b : RouteMatch * string) : comparison :=
  let '(a, a_key) := a in
  let '(b, b_key) := b in
  let path_rank1 := get_path_rank (rm_path a) in
  let path_rank2 := get_path_rank (rm_path b) in
  if decide (path_rank1 ≠ path_rank2) then CompOpp (Z.compare path_rank1 path_rank2) else
  let path_len1 := get_path_length (rm_path a) in
  let path_len2 := get_path_length (rm_path b) in
  if decide (path_len1 ≠ path_len2) then CompOpp (Nat.compare path_len1 path_len2) else
  let method1 := is_some (rm_method a) in
  let method2 := is_some (rm_method b) in
  if decide (method1 ≠ method2) then CompOpp (bool_cmp method1 method2) else
  let header_count1 := length (rm_headers a) in
  let header_count2 := length (rm_headers b) in
  if decide (header_count1 ≠ header_count2)
  then CompOpp (Nat.compare header_count1 header_count2) else
  let query_count1 := length (rm_query a) in
  let query_count2 := length (rm_query b) in
  if decide (query_count1 ≠ query_count2)
  then CompOpp (Nat.compare query_count1 query_count2) else
  String.compare a_key b_key.

Definition hostname_matchers (r : Route) : list HostnameMatch.t :=
  match route_hostnames r with
  | [] => [HostnameMatch.None]
  | hs => HostnameMatch.from <$> hs
  end.

(** The comparator given to [binary_search_by]: both lookups [expect] the table
    to be consistent. *)
Definition search_order (all : gmap string Route) (m : RouteMatch) (k : string)
    (existing : SingleRouteMatch) : comp comparison :=
  have ← expect (all !! key existing);
  have_match ← expect (route_matches have !! index existing);
  Ret (CompOpp (compare_route (m, k) (have_match, key existing))).

(** One iteration of the loop over the matches of the inserted route. *)
Definition insert_match (all : gmap string Route) (k : string)
    (v : list SingleRouteMatch) (im : nat * RouteMatch) : comp (list SingleRouteMatch) :=
  let '(idx, m) := im in
  to_insert ← binary_search_by (search_order all m k) v;
  vec_insert (search_pos to_insert) (mkSingle k idx) v.

Definition insert_host (all : gmap string Route) (r : Route)
    (inner : gmap HostnameMatch.t (list SingleRouteMatch)) (h : HostnameMatch.t)
    : comp (gmap HostnameMatch.t (list SingleRouteMatch)) :=
  v ← foldM (insert_match all (route_key r)) (imap pair (route_matches r))
        (default [] (inner !! h));
  Ret (<[h := v]> inner).

Definition insert (rs : t) (r : Route) : comp t :=
  let all' := <[route_key r := r]> (all rs) in
  inner' ← foldM (insert_host all' r) (hostname_matchers r) (inner rs);
  Ret (mk inner' all').

Definition from_list (l : list Route) : comp t := foldM insert l default_set.

(** The iterator yields its items one at a time, and each may panic. *)
Definition get_hostname (rs : t) (hnm : HostnameMatch.t) : list (comp (Route * RouteMatch)) :=
  rl ← default [] (inner rs !! hnm);
  match all rs !! key rl with
  | Some r => [m ← expect (route_matches r !! index rl); Ret (r, m)]
  | None => []
  end.

Definition contains (rs : t) (k : string) : bool := is_some (all rs !! k).

Definition remove_host (k : string) (inner : gmap HostnameMatch.t (list SingleRouteMatch))
    (h : HostnameMatch.t) : gmap HostnameMatch.t (list SingleRouteMatch) :=
  match inner !! h with
  | Some v =>
    let v' := filter (λ r, key r ≠ k) v in
    if decide (v' = []) then delete h inner else <[h := v']> inner
  | None => inner
  end.

Definition remove (rs : t) (k : string) : t :=
  match all rs !! k with
  | None => rs
  | Some old_route =>
    mk (foldl (remove_host k) (inner rs) (hostname_matchers old_route)) (delete k (all rs))
  end.

Definition is_empty (rs : t) : bool := bool_decide (inner rs = ∅).

(** ** The precedence is a total preorder *)

Definition rank_of (x : RouteMatch * string) : Z := get_path_rank (rm_path x.1).
Definition len_of (x : RouteMatch * string) : nat := get_path_length (rm_path x.1).
Definition method_of (x : RouteMatch * string) : bool := is_some (rm_method x.1).
Definition headers_of (x : RouteMatch * string) : nat := length (rm_headers x.1).
Definition query_of (x : RouteMatch * string) : nat := length (rm_query x.1).

(** The reference ordering: lexicographic, larger first, ties by route key. *)
Definition precedence : RouteMatch * string → RouteMatch * string → comparison :=
  lex_cmp (rev_cmp (on_cmp rank_of Z.compare))
  (lex_cmp (rev_cmp (on_cmp len_of Nat.compare))
  (lex_cmp (rev_cmp (on_cmp method_of bool_cmp))
  (lex_cmp (rev_cmp (on_cmp headers_of Nat.compare))
  (lex_cmp (rev_cmp (on_cmp query_of Nat.compare))
           (on_cmp snd String.compare))))).

Lemma lex_if_neq {A B} `{EqDecision B} (f : A → B) (c : B → B → comparison) `{!TotalCmp c}
    (c' : A → A → comparison) x y :
  (∀ a b, c a b = Eq → a = b) →
  (if decide (f x ≠ f y) then CompOpp (c (f x) (f y)) else c' x y) =
  lex_cmp (rev_cmp (on_cmp f c)) c' x y.
Proof.
  intros Hc. unfold lex_cmp, rev_cmp, on_cmp. case_decide as Hd.
  - destruct (c (f x) (f y)) eqn:E; [by apply Hc in E|done..].
  - rewrite Hd, (cmp_refl c). done.
Qed.

Lemma bool_cmp_eq a b : bool_cmp a b = Eq → a = b.
Proof. by destruct a, b. Qed.

(** The cascade of comparisons in the source is the lexicographic order. *)
Lemma compare_route_precedence x y : compare_route x y = precedence x y.
Proof.
  destruct x as [a ka], y as [b kb]. unfold precedence.
  rewrite <-(lex_if_neq rank_of Z.compare) by (intros ??; apply Z.compare_eq).
  rewrite <-(lex_if_neq len_of Nat.compare) by (intros ??; apply Nat.compare_eq).
  rewrite <-(lex_if_neq method_of bool_cmp) by apply bool_cmp_eq.
  rewrite <-(lex_if_neq headers_of Nat.compare) by (intros ??; apply Nat.compare_eq).
  rewrite <-(lex_if_neq query_of Nat.compare) by (intros ??; apply Nat.compare_eq).
  done.
Qed.

#[global] Instance compare_route_total : TotalCmp compare_route.
Proof.
  assert (TotalCmp precedence) as [Hopp Htrans] by apply _.
  split; intros *; rewrite !compare_route_precedence; [apply Hopp|apply Htrans].
Qed.

(** ** The invariant *)

Definition resolve (all : gmap string Route) (e : SingleRouteMatch) : option RouteMatch :=
  r ← all !! key e; route_matches r !! index e.

Definition no_match : RouteMatch :=
  {| rm_headers := []; rm_path := PathExact ""; rm_method := None; rm_query := [] |}.

Definition entry_cmp (all : gmap string Route) : SingleRouteMatch → SingleRouteMatch → comparison :=
  on_cmp (λ e, (default no_match (resolve all e), key e)) compare_route.

Definition entry_ok (all : gmap string Route) (h : HostnameMatch.t) (e : SingleRouteMatch) : Prop :=
  ∃ r m, all !! key e = Some r ∧ route_matches r !! index e = Some m ∧ h ∈ hostname_matchers r.

Definition bucket_ok (all : gmap string Route) (h : HostnameMatch.t)
    (v : list SingleRouteMatch) : Prop :=
  (∀ e, e ∈ v → entry_ok all h e) ∧ StronglySorted (cmp_le (entry_cmp all)) v.

Record wf (rs : t) : Prop := {
  wf_key : ∀ k r, all rs !! k = Some r → route_key r = k;
  wf_bucket : ∀ h v, inner rs !! h = Some v → bucket_ok (all rs) h v;
  wf_complete : ∀ k r h i m,
    all rs !! k = Some r → h ∈ hostname_matchers r → route_matches r !! i = Some m →
    ∃ v, inner rs !! h = Some v ∧ mkSingle k i ∈ v
}.

Lemma wf_default : wf default_set.
Proof. split; intros *; simpl; rewrite ?lookup_empty; done. Qed.

Lemma bucket_ok_nil all h : bucket_ok all h [].
Proof. split; [set_solver|constructor]. Qed.

Lemma entry_ok_resolve all h e :
  entry_ok all h e → ∃ r m, all !! key e = Some r ∧ route_matches r !! index e = Some m ∧
    resolve all e = Some m.
Proof.
  intros (r & m & Hr & Hm & _). exists r, m. unfold resolve. rewrite Hr. simpl. by rewrite Hm.
Qed.

Lemma search_order_ok all h m k i r e :
  all !! k = Some r → route_matches r !! i = Some m → entry_ok all h e →
  search_order all m k e = Ret (CompOpp (entry_cmp all (mkSingle k i) e)).
Proof.
  intros Hk Hi He. unfold search_order, entry_cmp, on_cmp.
  destruct (entry_ok_resolve _ _ _ He) as (r' & m' & Hr' & Hm' & Hres).
  rewrite Hr'. simpl. rewrite Hm'. simpl. rewrite Hres. simpl.
  unfold resolve. simpl. rewrite Hk. simpl. by rewrite Hi.
Qed.

(** Inserting one match keeps the bucket sorted and adds just that entry. *)
Lemma insert_match_ok all h k i m r v :
  all !! k = Some r → route_matches r !! i = Some m → h ∈ hostname_matchers r →
  bucket_ok all h v →
  ∃ v', insert_match all k v (i, m) = Ret v' ∧ bucket_ok all h v' ∧
    ∀ e, e ∈ v' ↔ e = mkSingle k i ∨ e ∈ v.
Proof.
  intros Hk Hi Hh [Hok Hs]. unfold insert_match.
  destruct (binary_search_by_spec (search_order all m k)
    (λ e, CompOpp (entry_cmp all (mkSingle k i) e)) v) as (res & -> & Hsp & _).
  - intros e He. eapply search_order_ok; eauto.
  - by apply sorted_partitioned; [apply _|].
  - simpl. unfold vec_insert. rewrite decide_True by apply Hsp.
    eexists. split; [done|].
    assert (∀ e, e ∈ take (search_pos res) v ++ mkSingle k i :: drop (search_pos res) v ↔
      e = mkSingle k i ∨ e ∈ v) as Hin.
    { intros e. rewrite <-(take_drop (search_pos res) v) at 3. set_solver. }
    split; [split|done].
    + intros e [->|He]%Hin; [|by apply Hok]. by exists r, m.
    + apply insert_at_split_sorted; [apply _|done|done].
Qed.

Lemma insert_host_ok all r inner h :
  all !! route_key r = Some r → h ∈ hostname_matchers r →
  bucket_ok all h (default [] (inner !! h)) →
  ∃ v, insert_host all r inner h = Ret (<[h := v]> inner) ∧ bucket_ok all h v ∧
    ∀ e, e ∈ v ↔ e ∈ default [] (inner !! h) ∨
      ∃ i m, route_matches r !! i = Some m ∧ e = mkSingle (route_key r) i.
Proof.
  intros Hk Hh Hb. unfold insert_host.
  destruct (foldM_inv (insert_match all (route_key r))
    (λ d v, bucket_ok all h v ∧ ∀ e, e ∈ v ↔ e ∈ default [] (inner !! h) ∨
      ∃ i m, (i, m) ∈ d ∧ e = mkSingle (route_key r) i)
    (imap pair (route_matches r)) (default [] (inner !! h))) as (v & -> & Hv & Hin).
  - split; [done|]. set_solver.
  - intros d [i m] v Him [Hv Hin].
    apply elem_of_lookup_imap_1 in Him as (i' & m' & [= -> ->] & Hi).
    destruct (insert_match_ok all h (route_key r) i' m' r v) as (v' & -> & Hv' & Hin'); [done..|].
    exists v'. split_and!; [done..|]. intros e. rewrite Hin', Hin. set_solver.
  - exists v. split_and!; [done..|]. intros e. rewrite Hin. f_equiv. split.
    + intros (i & m & Him & ->). apply elem_of_lookup_imap_1 in Him as (i' & m' & [= -> ->] & Hi).
      eauto.
    + intros (i & m & Hi & ->). exists i, m. split; [|done].
      apply elem_of_lookup_imap. eauto.
Qed.

(** Entries of other routes are not affected by a new value of one key. *)
Lemma resolve_insert_ne all k r e :
  key e ≠ k → resolve (<[k := r]> all) e = resolve all e.
Proof. intros. unfold resolve. by rewrite lookup_insert_ne. Qed.

Lemma bucket_ok_frame all all' h v :
  (∀ e, e ∈ v → all' !! key e = all !! key e) →
  bucket_ok all h v → bucket_ok all' h v.
Proof.
  intros Heq [Hok Hs]. split.
  - intros e He. unfold entry_ok. rewrite (Heq e He). by apply Hok.
  - eapply StronglySorted_impl_in; [|done]. intros x y Hx Hy.
    unfold cmp_le, entry_cmp, on_cmp, resolve. by rewrite (Heq x), (Heq y).
Qed.

(** ** Insertion *)

Lemma entries_key rs h v e :
  wf rs → inner rs !! h = Some v → e ∈ v → is_Some (all rs !! key e).
Proof.
  intros Hwf Hv He. destruct (proj1 (wf_bucket rs Hwf h v Hv) e He) as (r & m & -> & _). done.
Qed.

(** What [insert] of a key that is not in the table does: it returns, the routes
    are the old ones plus the new one, and the invariant holds. *)
Lemma insert_fresh rs r :
  wf rs → all rs !! route_key r = None →
  ∃ rs', insert rs r = Ret rs' ∧ all rs' = <[route_key r := r]> (all rs) ∧ wf rs'.
Proof.
  intros Hwf Hfresh. unfold insert. set (all' := <[route_key r := r]> (all rs)).
  assert (∀ h v, inner rs !! h = Some v → bucket_ok all' h v) as Hold.
  { intros h v Hv. eapply bucket_ok_frame; [|by eapply wf_bucket].
    intros e He. unfold all'. rewrite lookup_insert_ne; [done|]. intros Heq.
    destruct (entries_key rs h v e Hwf Hv He) as [? Hs]. congruence. }
  destruct (foldM_inv (insert_host all' r)
    (λ d inner', (∀ h v, inner' !! h = Some v → bucket_ok all' h v) ∧
      (∀ h v e, inner rs !! h = Some v → e ∈ v → ∃ v', inner' !! h = Some v' ∧ e ∈ v') ∧
      (∀ h i m, h ∈ d → route_matches r !! i = Some m →
        ∃ v', inner' !! h = Some v' ∧ mkSingle (route_key r) i ∈ v'))
    (hostname_matchers r) (inner rs)) as (inner' & -> & Hb & Hkeep & Hnew).
  - split_and!; [done|eauto|set_solver].
  - intros d h inner' Hh (Hb & Hkeep & Hnew).
    destruct (insert_host_ok all' r inner' h) as (v & -> & Hv & Hin);
      [apply lookup_insert_eq|done| |].
    { destruct (inner' !! h) eqn:E; [by apply Hb|apply bucket_ok_nil]. }
    exists (<[h:=v]> inner'). split; [done|]. split_and!.
    + intros h' v' [[<- <-]|[? ?]]%lookup_insert_Some; [done|by apply Hb].
    + intros h' v' e Hv' He. destruct (Hkeep h' v' e Hv' He) as (v'' & Hl & Hin'').
      destruct (decide (h = h')) as [->|].
      * exists v. rewrite lookup_insert_eq. split; [done|]. apply Hin. left. by rewrite Hl.
      * exists v''. by rewrite lookup_insert_ne.
    + intros h' i m Hh' Hm. destruct (decide (h = h')) as [->|].
      * exists v. rewrite lookup_insert_eq. split; [done|]. apply Hin. right. eauto.
      * destruct (Hnew h' i m) as (v' & ? & ?); [set_solver|done|].
        exists v'. by rewrite lookup_insert_ne.
  - simpl. eexists. split; [done|]. split; [done|]. split; simpl.
    + intros k r' [[<- <-]|[? ?]]%lookup_insert_Some; [done|]. by eapply wf_key.
    + done.
    + intros k r' h i m [[<- <-]|[Hne Hr']]%lookup_insert_Some Hh Hm; [eauto|].
      destruct (wf_complete rs Hwf k r' h i m) as (v & Hv & Hin); [done..|]. eauto.
Qed.

(** ** Removal *)

Lemma remove_host_lookup k inner h h' :
  remove_host k inner h !! h' =
  if decide (h = h')
  then v ← inner !! h'; (let v' := filter (λ r, key r ≠ k) v in
                         if decide (v' = []) then None else Some v')
  else inner !! h'.
Proof.
  unfold remove_host. case_decide as Hh.
  - subst h'. destruct (inner !! h) as [v|] eqn:E; simpl; [|done].
    case_decide; [by rewrite lookup_delete_eq|by rewrite lookup_insert_eq].
  - destruct (inner !! h) as [v|] eqn:E; [|done].
    case_decide; [by rewrite lookup_delete_ne|by rewrite lookup_insert_ne].
Qed.

(** After the loop, a bucket of a host name of the removed route holds the old
    entries of the other routes; the other buckets are unchanged. *)
Lemma remove_hosts_lookup k hs inner h v :
  foldl (remove_host k) inner hs !! h = Some v →
  ∃ v0, inner !! h = Some v0 ∧
    v = (if decide (h ∈ hs) then filter (λ r, key r ≠ k) v0 else v0).
Proof.
  revert inner. induction hs as [|h0 hs IH]; intros inner.
  { intros Hv. exists v. split; [done|]. rewrite decide_False; [done|set_solver]. }
  cbn [foldl]. intros (v1 & Hv1 & ->)%IH. rewrite remove_host_lookup in Hv1.
  destruct (decide (h0 = h)) as [->|Hne].
  - destruct (inner !! h) as [v0|]; simpl in Hv1; [|done].
    case_decide; simplify_eq. exists v0. split; [done|].
    rewrite (decide_True (P:=h ∈ h :: hs)) by set_solver.
    case_decide; [|done]. rewrite list_filter_filter_l; [done|naive_solver].
  - exists v1. split; [done|]. by repeat case_decide; set_solver.
Qed.

Lemma remove_hosts_keep k hs inner h v e :
  inner !! h = Some v → e ∈ v → key e ≠ k →
  ∃ v', foldl (remove_host k) inner hs !! h = Some v' ∧ e ∈ v'.
Proof.
  intros Hv He Hk. revert inner v Hv He.
  induction hs as [|h0 hs IH]; intros inner v Hv He; simpl; [eauto|].
  assert (e ∈ filter (λ r, key r ≠ k) v) as Hf by (by apply list_elem_of_filter).
  destruct (decide (h0 = h)) as [->|].
  - apply (IH _ (filter (λ r, key r ≠ k) v)); [|done].
    rewrite remove_host_lookup, decide_True, Hv by done. simpl.
    rewrite decide_False; [done|]. intros E. rewrite E in Hf. set_solver.
  - apply (IH _ v); [|done]. by rewrite remove_host_lookup, decide_False.
Qed.

Lemma remove_wf rs k : wf rs → wf (remove rs k) ∧ all (remove rs k) = delete k (all rs).
Proof.
  intros Hwf. unfold remove. destruct (all rs !! k) as [old|] eqn:Hk.
  2:{ split; [done|]. by rewrite delete_id. }
  split; [|done]. split; simpl.
  - intros k' r [? ?]%lookup_delete_Some. by eapply wf_key.
  - intros h v (v0 & Hv0 & ->)%remove_hosts_lookup.
    pose proof (wf_bucket rs Hwf h v0 Hv0) as [Hok Hs].
    assert (∀ e, e ∈ v0 → key e = k → h ∈ hostname_matchers old) as Hhost.
    { intros e He <-. destruct (Hok e He) as (r & m & Hr & _ & Hh). naive_solver. }
    apply (bucket_ok_frame (all rs)).
    { intros e He. rewrite lookup_delete_ne; [done|]. intros Hk0.
      case_decide as Hd; [apply list_elem_of_filter in He as [? _]; congruence|].
      apply Hd. by apply (Hhost e). }
    case_decide; [|done]. split.
    + intros e [_ He]%list_elem_of_filter. by apply Hok.
    + by apply StronglySorted_filter.
  - intros k' r h i m [Hne Hr]%lookup_delete_Some Hh Hm.
    destruct (wf_complete rs Hwf k' r h i m) as (v & Hv & Hin); [done..|].
    eapply remove_hosts_keep; [done..|]. simpl. congruence.
Qed.

(** ** Lookup *)

(** The matches a well-formed table lists for a host name, resolved. *)
Definition listed (rs : t) (h : HostnameMatch.t) : list (Route * RouteMatch) :=
  omap (λ e, r ← all rs !! key e; m ← route_matches r !! index e; Some (r, m))
    (default [] (inner rs !! h)).

Lemma get_hostname_listed rs h :
  wf rs → get_hostname rs h = Ret <$> listed rs h.
Proof.
  intros Hwf. unfold get_hostname, listed.
  destruct (inner rs !! h) as [v|] eqn:Hv; simpl; [|done].
  pose proof (proj1 (wf_bucket rs Hwf h v Hv)) as Hok. clear Hv.
  induction v as [|e v IH]; [done|]. csimpl. rewrite IH by set_solver.
  destruct (Hok e) as (r & m & Hr & Hm & _); [set_solver|].
  rewrite Hr. simpl. by rewrite Hm.
Qed.

Definition rank_pair (x : Route * RouteMatch) : RouteMatch * string := (x.2, route_key x.1).

Lemma elem_of_listed rs h r m :
  wf rs →
  (r, m) ∈ listed rs h ↔
  all rs !! route_key r = Some r ∧ h ∈ hostname_matchers r ∧ m ∈ route_matches r.
Proof.
  intros Hwf. unfold listed. rewrite list_elem_of_omap. split.
  - intros (e & He & Hres). destruct (inner rs !! h) as [v|] eqn:Hv; simpl in He; [|set_solver].
    destruct (proj1 (wf_bucket rs Hwf h v Hv) e He) as (r' & m' & Hr' & Hm' & Hh).
    rewrite Hr' in Hres. simpl in Hres. rewrite Hm' in Hres. simpl in Hres. simplify_eq.
    rewrite (wf_key rs Hwf _ _ Hr'). split_and!; [done..|].
    by eapply list_elem_of_lookup_2.
  - intros (Hr & Hh & [i Hi]%list_elem_of_lookup).
    destruct (wf_complete rs Hwf _ r h i m Hr Hh Hi) as (v & Hv & Hin).
    exists (mkSingle (route_key r) i). rewrite Hv. simpl. split; [done|].
    rewrite Hr. simpl. by rewrite Hi.
Qed.

Lemma listed_sorted rs h :
  wf rs → StronglySorted (cmp_le (on_cmp rank_pair compare_route)) (listed rs h).
Proof.
  intros Hwf. unfold listed. destruct (inner rs !! h) as [v|] eqn:Hv; simpl; [|constructor].
  pose proof (wf_bucket rs Hwf h v Hv) as [Hok Hs]. clear Hv.
  assert (∀ e, e ∈ v → ∃ r m, all rs !! key e = Some r ∧ route_matches r !! index e = Some m ∧
    resolve (all rs) e = Some m ∧ route_key r = key e) as Hok'.
  { intros e He. destruct (entry_ok_resolve _ _ _ (Hok e He)) as (r & m & Hr & Hm & Hres).
    exists r, m. split_and!; [done..|]. by eapply wf_key. }
  clear Hok. induction v as [|e v IH]; [constructor|].
  apply StronglySorted_cons in Hs as [He Hs]. csimpl.
  destruct (Hok' e) as (r & m & Hr & Hm & Hres & Hkey); [set_solver|].
  rewrite Hr. simpl. rewrite Hm. simpl. constructor; [apply IH; set_solver|].
  apply Forall_forall. intros [r' m'] (e' & He' & Heq)%list_elem_of_omap.
  destruct (Hok' e') as (r2 & m2 & Hr2 & Hm2 & Hres2 & Hkey2); [set_solver|].
  rewrite Hr2 in Heq. simpl in Heq. rewrite Hm2 in Heq. simpl in Heq. simplify_eq.
  rewrite Forall_forall in He. specialize (He e' He').
  unfold cmp_le, entry_cmp, on_cmp, rank_pair in *. simpl.
  rewrite Hres, Hres2 in He. simpl in He. by rewrite Hkey, Hkey2.
Qed.

(** Building a table from routes with distinct keys. *)
Lemma foldM_insert_wf l rs :
  wf rs → NoDup (route_key <$> l) → (∀ r, r ∈ l → all rs !! route_key r = None) →
  ∃ rs', foldM insert l rs = Ret rs' ∧ wf rs' ∧
    ∀ k r, all rs' !! k = Some r ↔ all rs !! k = Some r ∨ (r ∈ l ∧ route_key r = k).
Proof.
  revert rs. induction l as [|r l IH]; intros rs Hwf Hnd Hf; simpl.
  { exists rs. set_solver. }
  apply NoDup_cons in Hnd as [Hr Hnd].
  destruct (insert_fresh rs r Hwf) as (rs1 & -> & Hall & Hwf1); [apply Hf; set_solver|]. simpl.
  destruct (IH rs1 Hwf1 Hnd) as (rs' & -> & Hwf' & Hspec).
  { intros r' Hr'. rewrite Hall, lookup_insert_ne; [apply Hf; set_solver|].
    intros Heq. apply Hr. rewrite Heq. by apply list_elem_of_fmap_2. }
  exists rs'. split_and!; [done..|]. intros k r'. rewrite Hspec, Hall, lookup_insert_Some.
  rewrite elem_of_cons. split; [naive_solver|].
  intros [Hk|[[->|?] ?]]; [|naive_solver..]. left. right. split; [|done].
  intros <-. rewrite (Hf r) in Hk; [done|set_solver].
Qed.
End RouteSet.

(** * The TCP route tables *)

Module TCPRouteSet.

Record t := mk {
  inner : gmap HostnameMatch.t (list string);
  all : gmap string TCPRoute
}.

Definition default_set : t := mk ∅ ∅.

Definition hostname_matchers (r : TCPRoute) : list HostnameMatch.t :=
  match tcp_hostnames r with
  | [] => [HostnameMatch.None]
  | hs => HostnameMatch.from <$> hs
  end.

Definition search_order (all : gmap string TCPRoute) (k existing : string) : comp comparison :=
  have ← expect (all !! existing);
  Ret (CompOpp (String.compare k existing)).

Definition insert_host (all : gmap string TCPRoute) (r : TCPRoute)
    (inner : gmap HostnameMatch.t (list string)) (h : HostnameMatch.t)
    : comp (gmap HostnameMatch.t (list string)) :=
  let v := default [] (inner !! h) in
  to_insert ← binary_search_by (search_order all (tcp_key r)) v;
  v' ← vec_insert (search_pos to_insert) (tcp_key r) v;
  Ret (<[h := v']> inner).

Definition insert (rs : t) (r : TCPRoute) : comp t :=
  let all' := <[tcp_key r := r]> (all rs) in
  inner' ← foldM (insert_host all' r) (hostname_matchers r) (inner rs);
  Ret (mk inner' all').

Definition from_list (l : list TCPRoute) : comp t := foldM insert l default_set.

Definition get_hostname (rs : t) (hnm : HostnameMatch.t) : option TCPRoute :=
  r ← inner rs !! hnm;
  rl ← head r;
  all rs !! rl.

Definition contains (rs : t) (k : string) : bool := RouteSet.is_some (all rs !! k).

Definition remove_host (k : string) (inner : gmap HostnameMatch.t (list string))
    (h : HostnameMatch.t) : gmap HostnameMatch.t (list string) :=
  match inner !! h with
  | Some v =>
    let v' := filter (λ r, r ≠ k) v in
    if decide (v' = []) then delete h inner else <[h := v']> inner
  | None => inner
  end.

Definition remove (rs : t) (k : string) : t :=
  match all rs !! k with
  | None => rs
  | Some old_route =>
    mk (foldl (remove_host k) (inner rs) (hostname_matchers old_route)) (delete k (all rs))
  end.

Definition is_empty (rs : t) : bool := bool_decide (inner rs = ∅).

(** Every listed key is a route; the buckets are sorted by key and never empty;
    every route is listed under its host names. *)
Record wf (rs : t) : Prop := {
  wf_key : ∀ k r, all rs !! k = Some r → tcp_key r = k;
  wf_entry : ∀ h v k, inner rs !! h = Some v → k ∈ v →
    ∃ r, all rs !! k = Some r;
  wf_sorted : ∀ h v, inner rs !! h = Some v → StronglySorted (cmp_le String.compare) v;
  wf_complete : ∀ k r h, all rs !! k = Some r → h ∈ hostname_matchers r →
    ∃ v, inner rs !! h = Some v ∧ k ∈ v
}.

Lemma tcp_wf_default : wf default_set.
Proof. split; intros *; simpl; rewrite ?lookup_empty; done. Qed.

Lemma tcp_insert_host_ok all r inner h :
  (∀ k, k ∈ default [] (inner !! h) → is_Some (all !! k)) →
  StronglySorted (cmp_le String.compare) (default [] (inner !! h)) →
  ∃ v, insert_host all r inner h = Ret (<[h := v]> inner) ∧
    StronglySorted (cmp_le String.compare) v ∧
    ∀ k, k ∈ v ↔ k = tcp_key r ∨ k ∈ default [] (inner !! h).
Proof.
  intros Hall Hs. unfold insert_host. set (v := default [] (inner !! h)) in *.
  destruct (binary_search_by_spec (search_order all (tcp_key r))
    (λ e, CompOpp (String.compare (tcp_key r) e)) v) as (res & -> & Hsp & _).
  - intros k Hk. destruct (Hall k Hk) as [r' Hr']. unfold search_order. by rewrite Hr'.
  - by apply sorted_partitioned; [apply _|].
  - simpl. unfold vec_insert. rewrite decide_True by apply Hsp. simpl.
    eexists. split; [done|]. split.
    + apply insert_at_split_sorted; [apply _|done|done].
    + intros k. rewrite <-(take_drop (search_pos res) v) at 3. set_solver.
Qed.

(** Unlike [RouteSet.insert], this one also accepts a key that is already there. *)
Lemma insert_wf rs r :
  wf rs → ∃ rs', insert rs r = Ret rs' ∧ all rs' = <[tcp_key r := r]> (all rs) ∧ wf rs'.
Proof.
  intros Hwf. unfold insert. set (all' := <[tcp_key r := r]> (all rs)).
  destruct (foldM_inv (insert_host all' r)
    (λ d inner', (∀ h v, inner' !! h = Some v →
        StronglySorted (cmp_le String.compare) v ∧ ∀ k, k ∈ v → is_Some (all' !! k)) ∧
      (∀ h v k, inner rs !! h = Some v → k ∈ v → ∃ v', inner' !! h = Some v' ∧ k ∈ v') ∧
      (∀ h, h ∈ d → ∃ v', inner' !! h = Some v' ∧ tcp_key r ∈ v'))
    (hostname_matchers r) (inner rs)) as (inner' & -> & Hb & Hkeep & Hnew).
  - split_and!; [|eauto|set_solver]. intros h v Hv. split; [by eapply wf_sorted|].
    intros k Hk. destruct (wf_entry rs Hwf h v k Hv Hk) as [r' ?].
    unfold all'. destruct (decide (tcp_key r = k)) as [<-|];
      [by rewrite lookup_insert_eq|by rewrite lookup_insert_ne].
  - intros d h inner' Hh (Hb & Hkeep & Hnew).
    destruct (tcp_insert_host_ok all' r inner' h) as (v & -> & Hs & Hin).
    { destruct (inner' !! h) as [v0|] eqn:E; simpl; [by apply (Hb h v0)|set_solver]. }
    { destruct (inner' !! h) as [v0|] eqn:E; simpl; [by apply (Hb h v0)|constructor]. }
    exists (<[h:=v]> inner'). split; [done|]. split_and!.
    + intros h' v' [[<- <-]|[? ?]]%lookup_insert_Some; [|by apply (Hb h' v')].
      split; [done|]. intros k [->|Hk]%Hin; [by unfold all'; rewrite lookup_insert_eq|].
      destruct (inner' !! h) as [v0|] eqn:E; simpl in Hk; [by apply (Hb h v0)|set_solver].
    + intros h' v' k Hv' Hk. destruct (Hkeep h' v' k Hv' Hk) as (v'' & Hl & Hin'').
      destruct (decide (h = h')) as [->|].
      * exists v. rewrite lookup_insert_eq. split; [done|]. apply Hin. right. by rewrite Hl.
      * exists v''. by rewrite lookup_insert_ne.
    + intros h' Hh'. destruct (decide (h = h')) as [->|].
      * exists v. rewrite lookup_insert_eq. split; [done|]. apply Hin. by left.
      * destruct (Hnew h') as (v' & ? & ?); [set_solver|].
        exists v'. by rewrite lookup_insert_ne.
  - simpl. eexists. split; [done|]. split; [done|]. split; simpl.
    + intros k r' [[<- <-]|[? ?]]%lookup_insert_Some; [done|]. by eapply wf_key.
    + intros h v k Hv Hk. by apply (proj2 (Hb h v Hv) k).
    + intros h v Hv. by apply (Hb h v).
    + intros k r' h [[<- <-]|[Hne Hr']]%lookup_insert_Some Hh; [eauto|].
      destruct (wf_complete rs Hwf k r' h) as (v & Hv & Hin); [done..|]. eauto.
Qed.

Lemma head_least (v : list string) k :
  StronglySorted (cmp_le String.compare) v → k ∈ v →
  ∃ k0, head v = Some k0 ∧ cmp_le String.compare k0 k.
Proof.
  intros Hs Hk. destruct v as [|k0 v]; [set_solver|]. exists k0. split; [done|].
  apply StronglySorted_cons in Hs as [Hall _]. rewrite Forall_forall in Hall.
  apply elem_of_cons in Hk as [->|Hk]; [|auto]. unfold cmp_le. by rewrite cmp_refl by apply _.
Qed.
End TCPRouteSet.

(** * Updating a route in place *)

Module RouteUpdate.
Import RouteSet.

Lemma vec_insert_keeps {A} k (x : A) l l' y :
  vec_insert k x l = Ret l' → y ∈ l → y ∈ l'.
Proof.
  unfold vec_insert. case_decide; [|done]. intros [= <-] Hy.
  rewrite <-(take_drop k l) in Hy. set_solver.
Qed.

Lemma foldM_keeps {A S} (f : S → A → comp S) (P : S → Prop) l s s' :
  (∀ s x s', f s x = Ret s' → P s → P s') → foldM f l s = Ret s' → P s → P s'.
Proof.
  intros Hf. revert s. induction l as [|x l IH]; intros s; simpl; [by intros [= ->]|].
  intros (s1 & ? & ?)%comp_bind_Ret ?. eauto.
Qed.

(** Whatever route is inserted, the entries already listed stay listed. *)
Lemma insert_keeps_entries rs r rs' h v e :
  insert rs r = Ret rs' → inner rs !! h = Some v → e ∈ v →
  ∃ v', inner rs' !! h = Some v' ∧ e ∈ v'.
Proof.
  unfold insert. intros (inner' & Hf & [= <-])%comp_bind_Ret Hv He. simpl.
  eapply (foldM_keeps _ (λ i, ∃ v', i !! h = Some v' ∧ e ∈ v') _ _ _); [|apply Hf|eauto].
  clear. intros i h0 i' Hh (v & Hv & He). unfold insert_host in Hh.
  apply comp_bind_Ret in Hh as (v' & Hv' & [= <-]).
  destruct (decide (h0 = h)) as [->|]; [|exists v; by rewrite lookup_insert_ne].
  exists v'. rewrite lookup_insert_eq. split; [done|]. rewrite Hv in Hv'. simpl in Hv'.
  eapply (foldM_keeps _ (λ v, e ∈ v) _ _ _); [|apply Hv'|done].
  intros w [idx m] w' (to & _ & Hw)%comp_bind_Ret Hin. by eapply vec_insert_keeps.
Qed.

Lemma insert_all rs r rs' : insert rs r = Ret rs' → all rs' = <[route_key r := r]> (all rs).
Proof. unfold insert. by intros (? & ? & [= <-])%comp_bind_Ret. Qed.

Lemma get_hostname_entry rs h v e r :
  inner rs !! h = Some v → e ∈ v → all rs !! key e = Some r →
  (m ← expect (route_matches r !! index e); Ret (r, m)) ∈ get_hostname rs h.
Proof.
  intros Hv He Hr. unfold get_hostname. rewrite Hv. simpl.
  apply list_elem_of_bind. exists e. rewrite Hr. set_solver.
Qed.
End RouteUpdate.

(** * Theorems *)

(** C10: inserting a route under a new key never panics, adds exactly that route
    and keeps the table well formed: every bucket sorted by precedence, every
    entry backed by a route of that host name, every match listed. *)
Theorem routeset_insert rs r :
  RouteSet.wf rs → RouteSet.all rs !! route_key r = None →
  ∃ rs', RouteSet.insert rs r = Ret rs' ∧
    RouteSet.all rs' = <[route_key r := r]> (RouteSet.all rs) ∧ RouteSet.wf rs'.
Proof. apply RouteSet.insert_fresh. Qed.

(** A two-match route used by the examples. *)
Definition example_match (path : string) : RouteMatch :=
  {| rm_headers := []; rm_path := PathPrefix path; rm_method := None; rm_query := [] |}.

Definition example_route (key : string) (hostnames paths : list string) : Route :=
  {| route_key := key; route_name := key; route_rule_name := None;
     route_hostnames := hostnames; route_matches := example_match <$> paths;
     route_filters := []; route_backends := []; route_policies := None |}.

Lemma routeset_insert_witness :
  ∃ rs', RouteSet.insert RouteSet.default_set (example_route "a" ["x.com"] ["/a"; "/bcd"]) = Ret rs' ∧
    RouteSet.all rs' = {[ "a" := example_route "a" ["x.com"] ["/a"; "/bcd"] ]} ∧ RouteSet.wf rs'.
Proof.
  apply (routeset_insert RouteSet.default_set (example_route "a" ["x.com"] ["/a"; "/bcd"])).
  - apply RouteSet.wf_default.
  - reflexivity.
Defined.

(** C3: removing a key keeps the table well formed and removes exactly that
    route; removing an absent key changes nothing. *)
Theorem routeset_remove rs k :
  RouteSet.wf rs →
  RouteSet.wf (RouteSet.remove rs k) ∧
  RouteSet.all (RouteSet.remove rs k) = delete k (RouteSet.all rs) ∧
  (RouteSet.contains rs k = false → RouteSet.remove rs k = rs).
Proof.
  intros Hwf. destruct (RouteSet.remove_wf rs k Hwf). split_and!; [done..|].
  unfold RouteSet.contains, RouteSet.remove. by destruct (RouteSet.all rs !! k).
Qed.

(** Two routes of one host name: removing the first leaves the second, alone in
    the bucket of the host name they share. *)
Lemma routeset_remove_witness :
  let a := example_route "a" ["x.com"; "y.com"] ["/a"; "/bcd"] in
  let b := example_route "b" ["x.com"] ["/bc"] in
  match RouteSet.from_list [a; b] with
  | Ret rs =>
    RouteSet.inner rs !! HostnameMatch.Exact "x.com" =
      Some [RouteSet.mkSingle "a" 1; RouteSet.mkSingle "b" 0; RouteSet.mkSingle "a" 0] ∧
    RouteSet.inner (RouteSet.remove rs "a") =
      {[ HostnameMatch.Exact "x.com" := [RouteSet.mkSingle "b" 0] ]} ∧
    RouteSet.wf (RouteSet.remove rs "a") ∧ RouteSet.all (RouteSet.remove rs "a") = {[ "b" := b ]}
  | Panic => False
  end.
Proof.
  intros a b. destruct (RouteSet.insert_fresh RouteSet.default_set a RouteSet.wf_default eq_refl)
    as (rs1 & Ha & Hall1 & Hwf1).
  destruct (RouteSet.insert_fresh rs1 b Hwf1 ltac:(by rewrite Hall1)) as (rs & Hb & Hall & Hwf).
  destruct (routeset_remove rs "a" Hwf) as (Hwf' & Hall' & _).
  assert (RouteSet.from_list [a; b] = Ret rs) as Hl
    by (unfold RouteSet.from_list; cbn [foldM]; rewrite Ha; cbn [mbind comp_mbind]; rewrite Hb; reflexivity).
  rewrite Hl. vm_compute in Hl. injection Hl as <-. split_and!; [reflexivity..|exact Hwf'|reflexivity].
Defined.

(** C29: in a well-formed table the request path's iterator for a host name never
    panics and yields exactly the matches of the routes that list this host
    name, in the order of the route precedence. *)
Theorem routeset_lookup rs h :
  RouteSet.wf rs →
  ∃ l, RouteSet.get_hostname rs h = Ret <$> l ∧
    (∀ r m, (r, m) ∈ l ↔ RouteSet.all rs !! route_key r = Some r ∧
       h ∈ RouteSet.hostname_matchers r ∧ m ∈ route_matches r) ∧
    StronglySorted (λ x y, RouteSet.compare_route (x.2, route_key x.1) (y.2, route_key y.1) ≠ Gt) l.
Proof.
  intros Hwf. exists (RouteSet.listed rs h). split_and!.
  - by apply RouteSet.get_hostname_listed.
  - intros r m. by apply RouteSet.elem_of_listed.
  - by apply RouteSet.listed_sorted.
Qed.

(** Two routes of one host name, the longer paths first. *)
Lemma routeset_lookup_witness :
  let a := example_route "a" ["x.com"] ["/a"; "/bcd"] in
  let b := example_route "b" ["x.com"; "y.com"] ["/bc"] in
  match RouteSet.from_list [a; b] with
  | Ret rs => ∃ l, RouteSet.get_hostname rs (HostnameMatch.Exact "x.com") = Ret <$> l ∧
      l = [(a, example_match "/bcd"); (b, example_match "/bc"); (a, example_match "/a")] ∧
      (∀ r m, (r, m) ∈ l → RouteSet.all rs !! route_key r = Some r)
  | Panic => False
  end.
Proof.
  intros a b. destruct (RouteSet.insert_fresh RouteSet.default_set a RouteSet.wf_default eq_refl)
    as (rs1 & Ha & Hall1 & Hwf1).
  destruct (RouteSet.insert_fresh rs1 b Hwf1 ltac:(by rewrite Hall1)) as (rs & Hb & Hall & Hwf).
  destruct (routeset_lookup rs (HostnameMatch.Exact "x.com") Hwf) as (l & Hl & Hin & _).
  assert (RouteSet.from_list [a; b] = Ret rs) as Hf
    by (unfold RouteSet.from_list; cbn [foldM]; rewrite Ha; cbn [mbind comp_mbind]; rewrite Hb; reflexivity).
  rewrite Hf. exists l. split; [exact Hl|]. split; [|intros r m Hm; apply (proj1 (Hin r m) Hm)].
  vm_compute in Hf. injection Hf as <-. vm_compute in Hl.
  destruct l as [|x1 [|x2 [|x3 [|]]]]; try discriminate Hl. injection Hl as <- <- <-. reflexivity.
Defined.

(** A table built from routes with distinct keys is built without a panic, is
    well formed and holds exactly those routes. *)
Theorem routeset_from_list l :
  NoDup (route_key <$> l) →
  ∃ rs, RouteSet.from_list l = Ret rs ∧ RouteSet.wf rs ∧
    ∀ k r, RouteSet.all rs !! k = Some r ↔ r ∈ l ∧ route_key r = k.
Proof.
  intros Hnd. destruct (RouteSet.foldM_insert_wf l RouteSet.default_set) as (rs & ? & ? & Hspec);
    [apply RouteSet.wf_default|done|done|].
  exists rs. split_and!; [done..|]. intros k r. rewrite Hspec. simpl. rewrite lookup_empty.
  naive_solver.
Qed.

Lemma routeset_from_list_witness :
  ∃ rs, RouteSet.from_list [example_route "a" [] ["/a"]; example_route "b" ["*.x.com"] ["/b"; "/c"]]
    = Ret rs ∧ RouteSet.wf rs.
Proof.
  destruct (routeset_from_list
    [example_route "a" [] ["/a"]; example_route "b" ["*.x.com"] ["/b"; "/c"]])
    as (rs & H1 & H2 & _).
  - apply (bool_decide_unpack _). vm_compute. exact I.
  - exists rs. split; [exact H1|exact H2].
Defined.

(** Inserting a route under a key that is already in the table does not
    replace the old entries.  When the new version has fewer matches, either the
    insertion itself panics or the next lookup of an old host name does; when it
    has as many, a host name that the new version no longer lists still leads
    to it. *)
Theorem routeset_update_stale rs old new h i m :
  RouteSet.wf rs → RouteSet.all rs !! route_key new = Some old →
  h ∈ RouteSet.hostname_matchers old → route_matches old !! i = Some m →
  match RouteSet.insert rs new with
  | Panic => True
  | Ret rs' =>
    match route_matches new !! i with
    | None => Panic ∈ RouteSet.get_hostname rs' h
    | Some m' => Ret (new, m') ∈ RouteSet.get_hostname rs' h
    end
  end.
Proof.
  intros Hwf Hold Hh Hm. destruct (RouteSet.insert rs new) as [rs'|] eqn:Hins; [|done].
  destruct (RouteSet.wf_complete rs Hwf _ old h i m Hold Hh Hm) as (v & Hv & He).
  destruct (RouteUpdate.insert_keeps_entries _ _ _ _ _ _ Hins Hv He) as (v' & Hv' & He').
  pose proof (RouteUpdate.get_hostname_entry rs' h v' _ new Hv' He') as Hget.
  rewrite (RouteUpdate.insert_all _ _ _ Hins) in Hget. simpl in Hget.
  specialize (Hget (lookup_insert_eq _ _ _)).
  by destruct (route_matches new !! i).
Qed.

(** A route served for [old.com] with two matches, updated to one match for
    [new.com]: the update goes through and a request to [old.com] panics. *)
Lemma routeset_update_stale_witness :
  match RouteSet.insert RouteSet.default_set (example_route "a" ["old.com"] ["/ab"; "/cd"]) with
  | Ret rs =>
    match RouteSet.insert rs (example_route "a" ["new.com"] ["/ab"]) with
    | Ret rs' => Panic ∈ RouteSet.get_hostname rs' (HostnameMatch.Exact "old.com")
    | Panic => False
    end
  | Panic => False
  end.
Proof.
  destruct (routeset_insert RouteSet.default_set (example_route "a" ["old.com"] ["/ab"; "/cd"])
    RouteSet.wf_default eq_refl) as (rs & Hins & Hall & Hwf).
  rewrite Hins.
  pose proof (routeset_update_stale rs (example_route "a" ["old.com"] ["/ab"; "/cd"])
    (example_route "a" ["new.com"] ["/ab"]) (HostnameMatch.Exact "old.com") 1
    (example_match "/cd") Hwf) as H.
  specialize (H ltac:(rewrite Hall; reflexivity) ltac:(vm_compute; left) eq_refl).
  cbn in H. vm_compute in Hins. injection Hins as <-. vm_compute. vm_compute in H. exact H.
Defined.

(** The wildcard candidates of a host name are exactly what follows one of
    its dots; with the exact name (unless it is itself a wildcard) and the
    catch-all these are all the candidates. *)
Theorem all_matches_spec hostname h :
  h ∈ HostnameMatch.all_matches hostname ↔
  match h with
  | HostnameMatch.Exact s => s = hostname ∧ Str.starts_with "*." hostname = false
  | HostnameMatch.Wildcard s => ∃ pre, hostname = pre +:+ "." +:+ s
  | HostnameMatch.None => True
  end.
Proof.
  unfold HostnameMatch.all_matches, HostnameMatch.all_actual_matches.
  rewrite !elem_of_app, list_elem_of_fmap, list_elem_of_singleton.
  destruct h as [s|s|]; [| |naive_solver].
  - destruct (Str.starts_with "*." hostname); set_solver.
  - change ("." +:+ s) with (String "." s). rewrite <-Str.split_drop_spec.
    setoid_rewrite elem_of_seq. split.
    + intros [[Hin|(i & [= ->] & Hi)]|?]; [destruct (Str.starts_with "*." hostname); set_solver| |done].
      exists i. split; [lia|done].
    + intros (i & Hi & <-). left. right. exists i. split; [done|lia].
Qed.

(** A TCP table accepts any insertion, also of a key it already holds, and a
    host name is served by the listed route with the smallest key. *)
Theorem tcp_routeset_insert rs r h k r' :
  TCPRouteSet.wf rs →
  ∃ rs', TCPRouteSet.insert rs r = Ret rs' ∧ TCPRouteSet.wf rs' ∧
    (TCPRouteSet.all rs' !! k = Some r' → h ∈ TCPRouteSet.hostname_matchers r' →
     ∃ best, TCPRouteSet.get_hostname rs' h = Some best ∧
       String.compare (tcp_key best) k ≠ Gt).
Proof.
  intros Hwf. destruct (TCPRouteSet.insert_wf rs r Hwf) as (rs' & -> & _ & Hwf').
  exists rs'. split_and!; [done..|]. intros Hk Hh.
  destruct (TCPRouteSet.wf_complete rs' Hwf' k r' h Hk Hh) as (v & Hv & Hin).
  destruct (TCPRouteSet.head_least v k) as (k0 & Hk0 & Hle);
    [by eapply TCPRouteSet.wf_sorted|done|].
  destruct (TCPRouteSet.wf_entry rs' Hwf' h v k0 Hv) as [best Hbest].
  { destruct v; simplify_eq/=. set_solver. }
  exists best. unfold TCPRouteSet.get_hostname. rewrite Hv. simpl. rewrite Hk0. simpl.
  split; [done|]. by rewrite (TCPRouteSet.wf_key rs' Hwf' _ _ Hbest).
Qed.

Lemma tcp_routeset_insert_witness :
  let r := {| tcp_key := "t"; tcp_route_name := "t"; tcp_hostnames := [];
              tcp_rule_name := None; tcp_backends := [] |} in
  ∃ rs', TCPRouteSet.insert TCPRouteSet.default_set r = Ret rs' ∧ TCPRouteSet.wf rs'.
Proof.
  intros r.
  destruct (tcp_routeset_insert TCPRouteSet.default_set r HostnameMatch.None "t" r
    TCPRouteSet.tcp_wf_default) as (rs' & H & H' & _).
  exists rs'. split; [exact H|exact H'].
Defined.
