(* ===== verification/Discovery.v ===== *)
(** Discovery: the workload and service stores of [store/discovery.rs]: lookup of
    workloads by uid and address, of services by host name and virtual IP, the
    staging of endpoints that arrive before their service, and the xDS handler.

    An [Arc<T>] that is only cloned and read is the value it holds. *)
From S2P Require Import Prelude Strs DiscoveryTypes.

(** * Workloads at one address *)

Module WorkloadByAddr.

Inductive t := Single (w : Workload.t) | Many (ws : list Workload.t).

Definition insert (self : t) (w : Workload.t) : t :=
  match self with
  | Single workload => Many [workload; w]
  | Many v => Many (v ++ [w])
  end.

(** The new value, and whether no workload remains. *)
Definition remove_uid (self : t) (uid : string) : t * bool :=
  match self with
  | Single wl => (self, bool_decide (Workload.uid wl = uid))
  | Many ws =>
    let ws := filter (λ w, Workload.uid w ≠ uid) ws in
    match ws with
    | [] => (Many ws, true)
    | [wl] => (Single wl, false)
    | _ => (Many ws, false)
    end
  end.

(** The ranking of [get]: pods first, then workloads in the mesh. *)
Definition rank (w : Workload.t) : nat :=
  match Str.contains "//Pod/" (Workload.uid w), bool_decide (Workload.protocol w = HBONE) with
  | true, true => 3
  | true, false => 2
  | false, true => 1
  | false, false => 0
  end.

(** [Iterator::max_by_key]: the last of the largest elements. *)
Fixpoint max_by_key (key : Workload.t → nat) (best : Workload.t) (l : list Workload.t) : Workload.t :=
  match l with
  | [] => best
  | w :: l => max_by_key key (if decide (key best ≤ key w) then w else best) l
  end.

Definition get (self : t) : comp Workload.t :=
  match self with
  | Single workload => Ret workload
  | Many [] => Panic
  | Many (w :: ws) => Ret (max_by_key rank w ws)
  end.

Definition workloads (self : t) : list Workload.t :=
  match self with Single w => [w] | Many ws => ws end.

End WorkloadByAddr.

(** * The workload store *)

Module WorkloadStore.

Record t := mk {
  local_node : option string;
  insert_notifier : N;  (** how often the watchers were notified *)
  by_addr : gmap NetworkAddress.t WorkloadByAddr.t;
  by_uid : gmap string Workload.t
}.

Definition empty : t := mk None 0 ∅ ∅.

Definition addrs (w : Workload.t) : list NetworkAddress.t :=
  network_addr (Workload.network w) <$> Workload.workload_ips w.

Definition remove_addr (uid : string) (by_addr : gmap NetworkAddress.t WorkloadByAddr.t)
    (k : NetworkAddress.t) : gmap NetworkAddress.t WorkloadByAddr.t :=
  match by_addr !! k with
  | Some o =>
    let '(o', gone) := WorkloadByAddr.remove_uid o uid in
    if (gone : bool) then delete k by_addr else <[k := o']> by_addr
  | None => by_addr
  end.

Definition remove (s : t) (uid : string) : t * option Workload.t :=
  match by_uid s !! uid with
  | None => (s, None)
  | Some prev =>
    let by_addr' :=
      if decide (Workload.network_mode prev ≠ HostNetwork)
      then foldl (remove_addr (Workload.uid prev)) (by_addr s) (addrs prev)
      else by_addr s in
    (mk (local_node s) (insert_notifier s) by_addr' (delete uid (by_uid s)), Some prev)
  end.

Definition insert_addr (w : Workload.t) (by_addr : gmap NetworkAddress.t WorkloadByAddr.t)
    (k : NetworkAddress.t) : gmap NetworkAddress.t WorkloadByAddr.t :=
  match by_addr !! k with
  | Some ws => <[k := WorkloadByAddr.insert ws w]> by_addr
  | None => <[k := WorkloadByAddr.Single w]> by_addr
  end.

Definition insert (s : t) (w : Workload.t) : t :=
  let s := (remove s (Workload.uid w)).1 in
  let by_addr' :=
    if decide (Workload.network_mode w ≠ HostNetwork)
    then foldl (insert_addr w) (by_addr s) (addrs w)
    else by_addr s in
  mk (local_node s) (insert_notifier s + 1) by_addr' (<[Workload.uid w := w]> (by_uid s)).

Definition find_uid (s : t) (uid : string) : option Workload.t := by_uid s !! uid.

Definition find_address (s : t) (addr : NetworkAddress.t) : comp (option Workload.t) :=
  match by_addr s !! addr with
  | Some b => w ← WorkloadByAddr.get b; Ret (Some w)
  | None => Ret None
  end.

End WorkloadStore.

(** * The service store *)

Module ServiceStore.

Record t := mk {
  staged_services : gmap NamespacedHostname.t (gmap string Endpoint.t);
  by_vip : gmap NetworkAddress.t Service.t;
  by_host : gmap string (list Service.t)
}.

Definition empty : t := mk ∅ ∅ ∅.

Definition get_by_vip (s : t) (vip : NetworkAddress.t) : option Service.t := by_vip s !! vip.

Definition get_by_namespaced_host (s : t) (host : NamespacedHostname.t) : option Service.t :=
  match by_host s !! NamespacedHostname.hostname host with
  | None => None
  | Some services =>
    find (λ svc, Str.eqb (Service.namespace svc) (NamespacedHostname.namespace host)) services
  end.

(** [services.iter().find_position(|s| s.namespace == ns)] *)
Fixpoint position (ns : string) (services : list Service.t) : option nat :=
  match services with
  | [] => None
  | svc :: services =>
    if Str.eqb (Service.namespace svc) ns then Some 0 else S <$> position ns services
  end.

(** The store without the service, and whether there was one. *)
Definition remove (s : t) (host : NamespacedHostname.t) : t * bool :=
  let hostname := NamespacedHostname.hostname host in
  match by_host s !! hostname with
  | None => (s, false)
  | Some services =>
    match position (NamespacedHostname.namespace host) services with
    | None => (s, false)
    | Some i =>
      match services !! i with
      | None => (s, false)
      | Some prev =>
        let services := base.delete i services in
        let by_host' :=
          if decide (services = []) then delete hostname (by_host s)
          else <[hostname := services]> (by_host s) in
        (mk (delete host (staged_services s))
            (foldl (λ m addr, delete addr m) (by_vip s) (Service.vips prev))
            by_host', true)
      end
    end
  end.

Section ops.
Context `{!HashIter string Endpoint.t, !HashIter string (list Proto.Port)}.
Context `{!SetIter NamespacedHostname.t}.

(** The endpoints of [eps] the service accepts, added to those it has. *)
Definition include_endpoints (service : Service.t) (eps : list (string * Endpoint.t)) : Service.t :=
  foldl (λ svc '(uid, ep),
      if Service.should_include_endpoint svc (Endpoint.status ep)
      then Service.set_endpoints svc (EndpointSet.insert (Service.endpoints svc) uid ep)
      else svc)
    service eps.

Definition insert_internal (s : t) (service : Service.t) (endpoint_update_only : bool) : t :=
  let namespaced_hostname := Service.namespaced_hostname service in
  let '(s, service) :=
    if endpoint_update_only then (s, service)
    else
      let '(s, service) :=
        match staged_services s !! namespaced_hostname with
        | Some endpoints =>
          (mk (delete namespaced_hostname (staged_services s)) (by_vip s) (by_host s),
           include_endpoints service (hm_iter endpoints))
        | None => (s, service)
        end in
      ((remove s namespaced_hostname).1, service) in
  let hostname := Service.hostname service in
  let by_vip' := foldl (λ m vip, <[vip := service]> m) (by_vip s) (Service.vips service) in
  let by_host' :=
    match by_host s !! hostname with
    | None => <[hostname := [service]]> (by_host s)
    | Some services =>
      match position (Service.namespace service) services with
      | Some cur => <[hostname := <[cur := service]> services]> (by_host s)
      | None => <[hostname := services ++ [service]]> (by_host s)
      end
    end in
  mk (staged_services s) by_vip' by_host'.

Definition insert_endpoint_update (s : t) (service : Service.t) : t :=
  insert_internal s service true.

Definition insert (s : t) (service : Service.t) : t := insert_internal s service false.

Definition insert_endpoint (s : t) (service_name : NamespacedHostname.t) (ep : Endpoint.t) : t :=
  let ep_uid := Endpoint.workload_uid ep in
  match get_by_namespaced_host s service_name with
  | Some svc =>
    if Service.should_include_endpoint svc (Endpoint.status ep)
    then insert_endpoint_update s
           (Service.set_endpoints svc (EndpointSet.insert (Service.endpoints svc) ep_uid ep))
    else s
  | None =>
    mk (<[service_name := <[ep_uid := ep]> (default ∅ (staged_services s !! service_name))]>
          (staged_services s)) (by_vip s) (by_host s)
  end.

(** The loop returns at the first name that does not parse; the services before
    it keep their endpoint. *)
Fixpoint insert_endpoints (s : t) (workload : Workload.t)
    (services : list (string * list Proto.Port)) : t * result () ProtoError :=
  match services with
  | [] => (s, Ok ())
  | (namespaced_host, ports) :: services =>
    match NamespacedHostname.from_str namespaced_host with
    | Err e => (s, Err e)
    | Ok namespaced_host =>
      insert_endpoints
        (insert_endpoint s namespaced_host
           {| Endpoint.workload_uid := Workload.uid workload;
              Endpoint.port := ports_from ports;
              Endpoint.status := Workload.status workload |})
        workload services
    end
  end.

Definition insert_endpoint_for_services (s : t) (workload : Workload.t)
    (services : gmap string (list Proto.Port)) : t * result () ProtoError :=
  insert_endpoints s workload (hm_iter services).

(** [entry(svc).or_default().remove(uid)], then dropping an empty entry. *)
Definition unstage (uid : string) (staged : gmap NamespacedHostname.t (gmap string Endpoint.t))
    (svc : NamespacedHostname.t) : gmap NamespacedHostname.t (gmap string Endpoint.t) :=
  let eps := delete uid (default ∅ (staged !! svc)) in
  if decide (eps = ∅) then delete svc staged else <[svc := eps]> staged.

Definition remove_endpoint_from (uid : string) (s : t) (svc : NamespacedHostname.t) : t :=
  match get_by_namespaced_host s svc with
  | Some svc =>
    insert_endpoint_update s
      (Service.set_endpoints svc (EndpointSet.remove (Service.endpoints svc) uid))
  | None => s
  end.

Definition remove_endpoint (s : t) (prev_workload : Workload.t) : t :=
  let workload_uid := Workload.uid prev_workload in
  let staged := foldl (unstage workload_uid) (staged_services s) (Workload.services prev_workload) in
  let services_to_update : gset NamespacedHostname.t :=
    list_to_set (Workload.services prev_workload) in
  foldl (remove_endpoint_from workload_uid) (mk staged (by_vip s) (by_host s))
    (hs_iter services_to_update).

End ops.
End ServiceStore.

(** * The discovery store *)

Module DiscoveryStore.

Record t := mk { workloads : WorkloadStore.t; services : ServiceStore.t }.

Definition new : t := mk WorkloadStore.empty ServiceStore.empty.

Inductive XdsAddress := AddrWorkload (w : Proto.Workload) | AddrService (s : Proto.Service) | AddrNone.

Inductive Error := EProto (e : ProtoError) | EUnknownAddressType.

Section ops.
Context `{!HashIter string Endpoint.t, !HashIter string (list Proto.Port)}.
Context `{!SetIter NamespacedHostname.t, !SetIter string, !HashIter N N}.

Definition remove_internal (s : t) (xds_name : string) (for_workload_insert : bool) : t :=
  match WorkloadStore.remove (workloads s) xds_name with
  | (ws, Some prev) => mk ws (ServiceStore.remove_endpoint (services s) prev)
  | (ws, None) =>
    if for_workload_insert then mk ws (services s)
    else
      match NamespacedHostname.from_str xds_name with
      | Err _ => mk ws (services s)
      | Ok name =>
        if Str.contains_char "/" (NamespacedHostname.hostname name) then mk ws (services s)
        else mk ws (ServiceStore.remove (services s) name).1
      end
  end.

Definition remove (s : t) (xds_name : string) : t := remove_internal s xds_name false.

Definition remove_workload_for_insert (s : t) (xds_name : string) : t :=
  remove_internal s xds_name true.

(** The common part of [insert_workload] and of a local workload. *)
Definition insert_workload_value (s : t) (w : Workload.t) (svcs : gmap string (list Proto.Port)) : t :=
  let s := remove_workload_for_insert s (Workload.uid w) in
  mk (WorkloadStore.insert (workloads s) w)
     (ServiceStore.insert_endpoint_for_services (services s) w svcs).1.

Definition insert_workload (s : t) (w : Proto.Workload) : t * result () Error :=
  match Workload_try_from w with
  | Err e => (s, Err (EProto e))
  | Ok (workload, svcs) => (insert_workload_value s workload svcs, Ok ())
  end.

Definition insert_service_internal (s : t) (service : Service.t) : t :=
  let service :=
    match ServiceStore.get_by_namespaced_host (services s) (Service.namespaced_hostname service) with
    | Some prev =>
      ServiceStore.include_endpoints service
        ((λ ep, (Endpoint.workload_uid ep, ep)) <$> hm_values (Service.endpoints prev))
    | None => service
    end in
  mk (workloads s) (ServiceStore.insert (services s) service).

Definition insert_service (s : t) (service : Proto.Service) : t * result () Error :=
  match Service_try_from service with
  | Err e => (s, Err (EProto e))
  | Ok service => (insert_service_internal s service, Ok ())
  end.

Definition insert_address (s : t) (a : XdsAddress) : t * result () Error :=
  match a with
  | AddrWorkload w => insert_workload s w
  | AddrService svc => insert_service s svc
  | AddrNone => (s, Err EUnknownAddressType)
  end.

Record LocalWorkload := {
  lw_workload : Workload.t;
  lw_services : gmap string (gmap N N)
}.

Record PreviousState := { ps_workloads : gset string; ps_services : gset NamespacedHostname.t }.

(** The local (file) source: insert what the file lists, remove what an earlier
    version of it listed. *)
Definition sync_local (s : t) (svcs : list Service.t) (wls : list LocalWorkload)
    (prev : PreviousState) : t * PreviousState :=
  let s := foldl (λ s wl,
      insert_workload_value s (lw_workload wl) (PortList_from <$> lw_services wl)) s wls in
  let old_workloads := foldl (λ o wl, o ∖ {[Workload.uid (lw_workload wl)]}) (ps_workloads prev) wls in
  let s := foldl insert_service_internal s svcs in
  let old_services := foldl (λ o svc, o ∖ {[Service.namespaced_hostname svc]}) (ps_services prev) svcs in
  let s := foldl (λ s n, mk (workloads s) (ServiceStore.remove (services s) n).1) s
    (hs_iter old_services) in
  let s := foldl (λ s u,
      match WorkloadStore.remove (workloads s) u with
      | (ws, Some p) => mk ws (ServiceStore.remove_endpoint (services s) p)
      | (ws, None) => mk ws (services s)
      end) s (hs_iter old_workloads) in
  (s, {| ps_workloads := list_to_set ((λ wl, Workload.uid (lw_workload wl)) <$> wls);
         ps_services := list_to_set (Service.namespaced_hostname <$> svcs) |}).

End ops.
End DiscoveryStore.
