(* ===== verification/DiscoveryWorkloads.v ===== *)
(** DiscoveryWorkloads: the invariant of the workload store and what a lookup by
    address returns. *)
From S2P Require Import Prelude Strs DiscoveryTypes Discovery.

Module WorkloadStoreFacts.
Import WorkloadStore.

(** The entry left after removing a uid, [None] when the address is freed. *)
Definition drop_uid (uid : string) (b : WorkloadByAddr.t) : option WorkloadByAddr.t :=
  let '(b', gone) := WorkloadByAddr.remove_uid b uid in if (gone : bool) then None else Some b'.

Abbreviation others uid := (filter (λ w, Workload.uid w ≠ uid)).

Lemma drop_uid_Some uid b b' :
  drop_uid uid b = Some b' →
  WorkloadByAddr.workloads b' = others uid (WorkloadByAddr.workloads b) ∧
  WorkloadByAddr.workloads b' ≠ [].
Proof.
  unfold drop_uid. destruct b as [w|ws]; simpl.
  - rewrite filter_cons. case_bool_decide; [done|]. intros [= <-].
    simpl. by rewrite decide_True.
  - destruct (filter _ ws) as [|w1 [|w2 l]]; [done| |]; by intros [= <-].
Qed.

Lemma drop_uid_None uid b :
  drop_uid uid b = None → others uid (WorkloadByAddr.workloads b) = [].
Proof.
  unfold drop_uid. destruct b as [w|ws]; simpl.
  - rewrite filter_cons. case_bool_decide; [|done]. intros _. by rewrite decide_False by tauto.
  - by destruct (filter _ ws) as [|w1 [|w2 l]].
Qed.

Lemma remove_addr_lookup uid m k k' :
  remove_addr uid m k !! k' = if decide (k = k') then m !! k' ≫= drop_uid uid else m !! k'.
Proof.
  unfold remove_addr, drop_uid. case_decide as Hk.
  - subst k'. destruct (m !! k) as [b|] eqn:Hb; simpl; [|done].
    destruct (WorkloadByAddr.remove_uid b uid) as [b' []];
      [by rewrite lookup_delete_eq|by rewrite lookup_insert_eq].
  - destruct (m !! k) as [b|] eqn:Hb; simpl; [|done].
    destruct (WorkloadByAddr.remove_uid b uid) as [b' []];
      [by rewrite lookup_delete_ne|by rewrite lookup_insert_ne].
Qed.

(** An address left by the removal loop still has a workload, all of them were
    there before, and none has the removed uid if the loop visited it. *)
Lemma remove_addrs_lookup uid ks m k b' :
  (∀ k b, m !! k = Some b → WorkloadByAddr.workloads b ≠ []) →
  foldl (remove_addr uid) m ks !! k = Some b' →
  WorkloadByAddr.workloads b' ≠ [] ∧
  ∃ b, m !! k = Some b ∧
    ∀ w, w ∈ WorkloadByAddr.workloads b' →
      w ∈ WorkloadByAddr.workloads b ∧ (k ∈ ks → Workload.uid w ≠ uid).
Proof.
  revert m. induction ks as [|k0 ks IH]; intros m Hne; cbn [foldl].
  { intros Hb. split; [eauto|]. exists b'. split; [done|]. set_solver. }
  intros [Hb' (b & Hb & Hin)]%IH.
  - split; [done|]. rewrite remove_addr_lookup in Hb. case_decide as Hk; [|set_solver].
    subst k0. destruct (m !! k) as [b0|]; simpl in Hb; [|done].
    apply drop_uid_Some in Hb as [Hb _]. exists b0. split; [done|].
    intros w Hw. destruct (Hin w Hw) as [Hwb _]. rewrite Hb in Hwb.
    apply list_elem_of_filter in Hwb. naive_solver.
  - intros k' b. rewrite remove_addr_lookup. case_decide; [|apply Hne].
    destruct (m !! k') as [b0|]; simpl; [|done]. by intros [_ ?]%drop_uid_Some.
Qed.

Lemma remove_addrs_keep uid ks m k b w :
  m !! k = Some b → w ∈ WorkloadByAddr.workloads b → Workload.uid w ≠ uid →
  ∃ b', foldl (remove_addr uid) m ks !! k = Some b' ∧ w ∈ WorkloadByAddr.workloads b'.
Proof.
  intros Hb Hw Hu. revert m b Hb Hw.
  induction ks as [|k0 ks IH]; intros m b Hb Hw; simpl; [eauto|].
  assert (w ∈ others uid (WorkloadByAddr.workloads b)) as Hf by (by apply list_elem_of_filter).
  destruct (decide (k0 = k)) as [->|].
  - destruct (drop_uid uid b) as [b1|] eqn:Hd.
    + apply (IH _ b1); [by rewrite remove_addr_lookup, decide_True, Hb by done|].
      apply drop_uid_Some in Hd as [-> _]. done.
    + apply drop_uid_None in Hd. rewrite Hd in Hf. set_solver.
  - apply (IH _ b); [|done]. by rewrite remove_addr_lookup, decide_False by done.
Qed.

Lemma insert_addr_lookup w m k k' :
  insert_addr w m k !! k' =
  if decide (k = k')
  then Some (match m !! k' with Some b => WorkloadByAddr.insert b w | None => WorkloadByAddr.Single w end)
  else m !! k'.
Proof.
  unfold insert_addr. case_decide as Hk.
  - subst k'. destruct (m !! k); by rewrite lookup_insert_eq.
  - destruct (m !! k); by rewrite lookup_insert_ne.
Qed.

Lemma workloads_insert b w :
  WorkloadByAddr.workloads (WorkloadByAddr.insert b w) = WorkloadByAddr.workloads b ++ [w].
Proof. by destruct b. Qed.

Lemma insert_addrs_spec w ks m k :
  let m' := foldl (insert_addr w) m ks in
  (∀ b', m' !! k = Some b' →
    (k ∈ ks ∨ m !! k = Some b') ∧
    ∀ x, x ∈ WorkloadByAddr.workloads b' →
      (x = w ∧ k ∈ ks) ∨ ∃ b, m !! k = Some b ∧ x ∈ WorkloadByAddr.workloads b) ∧
  (∀ b x, m !! k = Some b → x ∈ WorkloadByAddr.workloads b →
    ∃ b', m' !! k = Some b' ∧ x ∈ WorkloadByAddr.workloads b') ∧
  (k ∈ ks → ∃ b', m' !! k = Some b' ∧ w ∈ WorkloadByAddr.workloads b').
Proof.
  revert m. induction ks as [|k0 ks IH]; intros m; simpl.
  { split_and!; [intros b' Hb'; split; [auto|eauto]|eauto|set_solver]. }
  destruct (IH (insert_addr w m k0)) as (Hold & Hkeep & Hnew).
  setoid_rewrite insert_addr_lookup in Hold. setoid_rewrite insert_addr_lookup in Hkeep.
  split_and!.
  - intros b' Hb'. destruct (Hold b' Hb') as [Hk Hx]. case_decide as E.
    + subst k0. split; [left; set_solver|]. intros x Hx'.
      destruct (Hx x Hx') as [[-> ?]|(b & [= <-] & Hin)]; [left; set_solver|].
      destruct (m !! k) as [b0|]; [rewrite workloads_insert in Hin|simpl in Hin]; set_solver.
    + split; [set_solver|]. intros x Hx'. destruct (Hx x Hx'); [left; set_solver|eauto].
  - intros b x Hb Hx. rewrite Hb in Hkeep. case_decide as E; [|by eapply Hkeep].
    eapply Hkeep; [done|]. rewrite workloads_insert. set_solver.
  - intros [<-|Hk]%elem_of_cons; [|auto]. rewrite decide_True in Hkeep by done.
    eapply Hkeep; [done|]. destruct (m !! k); [rewrite workloads_insert|]; set_solver.
Qed.

(** The uid index holds each workload under its uid; the address index lists, at
    every address, the non-host-network workloads that have it, and only
    addresses that have one. *)
Record wf (s : t) : Prop := {
  wf_uid : ∀ u w, by_uid s !! u = Some w → Workload.uid w = u;
  wf_nonempty : ∀ k b, by_addr s !! k = Some b → WorkloadByAddr.workloads b ≠ [];
  wf_sound : ∀ k b w, by_addr s !! k = Some b → w ∈ WorkloadByAddr.workloads b →
    by_uid s !! Workload.uid w = Some w ∧ Workload.network_mode w ≠ HostNetwork ∧ k ∈ addrs w;
  wf_complete : ∀ u w k, by_uid s !! u = Some w → Workload.network_mode w ≠ HostNetwork →
    k ∈ addrs w → ∃ b, by_addr s !! k = Some b ∧ w ∈ WorkloadByAddr.workloads b
}.

Lemma wf_empty : wf empty.
Proof. split; intros *; simpl; rewrite ?lookup_empty; done. Qed.

Lemma remove_spec s u :
  wf s →
  let '(s', prev) := remove s u in
  wf s' ∧ by_uid s' = delete u (by_uid s) ∧ prev = by_uid s !! u.
Proof.
  intros Hwf. unfold remove. destruct (by_uid s !! u) as [p|] eqn:Hu; simpl.
  2:{ split_and!; [done| |done]. by rewrite delete_id. }
  split_and!; [|done|done].
  assert (Workload.uid p = u) as Hpu by (by eapply wf_uid).
  assert (∀ m, (if decide (Workload.network_mode p ≠ HostNetwork)
      then foldl (remove_addr (Workload.uid p)) m (addrs p) else m) =
    foldl (remove_addr u) m (if decide (Workload.network_mode p ≠ HostNetwork) then addrs p else []))
    as Hfold by (intros m; rewrite Hpu; by case_decide).
  rewrite Hfold. clear Hfold.
  split; simpl.
  - intros u' w [_ ?]%lookup_delete_Some. by eapply wf_uid.
  - intros k b Hb. apply remove_addrs_lookup in Hb as [? _]; [done|]. by apply wf_nonempty.
  - intros k b w Hb Hw. apply remove_addrs_lookup in Hb as (_ & b0 & Hb0 & Hin);
      [|by apply wf_nonempty].
    destruct (Hin w Hw) as [Hw0 Hne]. destruct (wf_sound s Hwf k b0 w Hb0 Hw0) as (Hwu & Hm & Hk).
    split_and!; [|done..]. rewrite lookup_delete_ne; [done|]. intros Heq.
    assert (w = p) as -> by congruence. apply Hne; [|done]. by rewrite decide_True.
  - intros u' w k [Hne Hw]%lookup_delete_Some Hm Hk.
    destruct (wf_complete s Hwf u' w k) as (b & Hb & Hin); [done..|].
    eapply remove_addrs_keep; [done..|]. by rewrite (wf_uid s Hwf _ _ Hw).
Qed.

Lemma insert_spec s w :
  wf s → wf (insert s w) ∧ by_uid (insert s w) = <[Workload.uid w := w]> (by_uid s).
Proof.
  intros Hwf. pose proof (remove_spec s (Workload.uid w) Hwf) as Hrem. unfold insert.
  destruct (remove s (Workload.uid w)) as [s1 prev]. destruct Hrem as (Hwf1 & Hu1 & _). simpl.
  split; [|by rewrite Hu1, insert_delete_eq].
  assert (by_uid s1 !! Workload.uid w = None) as Hnone by (by rewrite Hu1, lookup_delete_eq).
  assert (∀ m, (if decide (Workload.network_mode w ≠ HostNetwork)
      then foldl (insert_addr w) m (addrs w) else m) =
    foldl (insert_addr w) m (if decide (Workload.network_mode w ≠ HostNetwork) then addrs w else []))
    as Hfold by (intros m; by case_decide).
  rewrite Hfold. clear Hfold.
  set (ks := if decide (Workload.network_mode w ≠ HostNetwork) then addrs w else []).
  assert (∀ k, k ∈ ks → Workload.network_mode w ≠ HostNetwork ∧ k ∈ addrs w) as Hks.
  { intros k. unfold ks. case_decide; set_solver. }
  assert (∀ k x b, by_addr s1 !! k = Some b → x ∈ WorkloadByAddr.workloads b →
    <[Workload.uid w := w]> (by_uid s1) !! Workload.uid x = Some x ∧
    Workload.network_mode x ≠ HostNetwork ∧ k ∈ addrs x) as Hold.
  { intros k x b Hb Hx. destruct (wf_sound s1 Hwf1 k b x Hb Hx) as (Hxu & ? & ?).
    split_and!; [|done..]. rewrite lookup_insert_ne; [done|]. intros Heq. congruence. }
  split; simpl.
  - intros u x [[<- <-]|[_ ?]]%lookup_insert_Some; [done|]. by eapply wf_uid.
  - intros k b Hb. destruct (insert_addrs_spec w ks (by_addr s1) k) as (Hspec & _ & Hnew).
    destruct (Hspec b Hb) as [[Hk|Hk] _]; [|by eapply wf_nonempty].
    destruct (Hnew Hk) as (b' & Hb' & Hin). rewrite Hb in Hb'. simplify_eq.
    by destruct (WorkloadByAddr.workloads b'); set_solver.
  - intros k b x Hb Hx. destruct (insert_addrs_spec w ks (by_addr s1) k) as (Hspec & _ & _).
    destruct (proj2 (Hspec b Hb) x Hx) as [[-> Hk]|(b0 & Hb0 & Hin)]; [|by eapply Hold].
    rewrite lookup_insert_eq. split; [done|]. by apply Hks.
  - intros u x k Hx Hm Hk. destruct (insert_addrs_spec w ks (by_addr s1) k) as (_ & Hkeep & Hnew).
    apply lookup_insert_Some in Hx as [[<- <-]|[_ Hx]].
    + apply Hnew. unfold ks. by rewrite decide_True.
    + destruct (wf_complete s1 Hwf1 u x k) as (b & Hb & Hin); [done..|]. eauto.
Qed.

Lemma max_by_key_spec key best l :
  let r := WorkloadByAddr.max_by_key key best l in
  (r = best ∨ r ∈ l) ∧ key best ≤ key r ∧ ∀ x, x ∈ l → key x ≤ key r.
Proof.
  revert best. induction l as [|w l IH]; intros best; simpl; [set_solver|].
  destruct (IH (if decide (key best ≤ key w) then w else best)) as (Hin & Hle & Hall).
  case_decide as E; split_and!; try set_solver; try lia;
    intros x [->|Hx]%elem_of_cons; auto; lia.
Qed.
End WorkloadStoreFacts.

(** * Theorems *)

(** Inserting a workload keeps both indexes of the store consistent and
    replaces exactly the workload with that uid. *)
Theorem workload_insert s w :
  WorkloadStoreFacts.wf s →
  WorkloadStoreFacts.wf (WorkloadStore.insert s w) ∧
  ∀ u, WorkloadStore.find_uid (WorkloadStore.insert s w) u =
       if decide (Workload.uid w = u) then Some w else WorkloadStore.find_uid s u.
Proof.
  intros Hwf. destruct (WorkloadStoreFacts.insert_spec s w Hwf) as [? Hu]. split; [done|].
  intros u. unfold WorkloadStore.find_uid. by rewrite Hu, lookup_insert.
Qed.

Definition example_workload (uid : string) (ips : list IpAddr) (p : InboundProtocol) : Workload.t :=
  {| Workload.workload_ips := ips; Workload.waypoint := None; Workload.network_gateway := None;
     Workload.protocol := p; Workload.network_mode := Standard; Workload.uid := uid;
     Workload.name := uid; Workload.namespace := "ns"; Workload.trust_domain := "cluster.local";
     Workload.service_account := "default"; Workload.network := ""; Workload.workload_name := uid;
     Workload.workload_type := "pod"; Workload.canonical_name := ""; Workload.canonical_revision := "";
     Workload.hostname := ""; Workload.node := ""; Workload.authorization_policies := [];
     Workload.status := Healthy; Workload.cluster_id := "Kubernetes";
     Workload.locality := {| region := ""; zone := ""; subzone := "" |};
     Workload.services := []; Workload.capacity := 1 |}.

Lemma workload_insert_witness :
  WorkloadStore.find_uid
    (WorkloadStore.insert WorkloadStore.empty (example_workload "a" [V4 "abcd"] TCP)) "a" =
  Some (example_workload "a" [V4 "abcd"] TCP).
Proof.
  exact (proj2 (workload_insert WorkloadStore.empty (example_workload "a" [V4 "abcd"] TCP)
    WorkloadStoreFacts.wf_empty) "a").
Defined.

(** Removing a workload keeps both indexes consistent, returns the removed
    workload and removes exactly that uid. *)
Theorem workload_remove s u :
  WorkloadStoreFacts.wf s →
  WorkloadStoreFacts.wf (WorkloadStore.remove s u).1 ∧
  (WorkloadStore.remove s u).2 = WorkloadStore.find_uid s u ∧
  ∀ u', WorkloadStore.find_uid (WorkloadStore.remove s u).1 u' =
        if decide (u = u') then None else WorkloadStore.find_uid s u'.
Proof.
  intros Hwf. pose proof (WorkloadStoreFacts.remove_spec s u Hwf) as H.
  destruct (WorkloadStore.remove s u) as [s' p]. destruct H as (? & Hu & ->). simpl.
  split_and!; [done..|]. intros u'. unfold WorkloadStore.find_uid. by rewrite Hu, lookup_delete.
Qed.

Lemma workload_remove_witness :
  (WorkloadStore.remove WorkloadStore.empty "a").2 = None.
Proof. exact (proj1 (proj2 (workload_remove WorkloadStore.empty "a" WorkloadStoreFacts.wf_empty))). Defined.

(** Looking up an address in a consistent store never panics; it finds a
    workload exactly when some workload has the address, and then one that no
    other workload of that address outranks (pods before non-pods, then mesh
    workloads first). *)
Theorem workload_find_address s k :
  WorkloadStoreFacts.wf s →
  ∃ o, WorkloadStore.find_address s k = Ret o ∧
    let at_addr w := WorkloadStore.find_uid s (Workload.uid w) = Some w ∧
      Workload.network_mode w ≠ HostNetwork ∧ k ∈ WorkloadStore.addrs w in
    match o with
    | Some w => at_addr w ∧ ∀ w', at_addr w' → WorkloadByAddr.rank w' ≤ WorkloadByAddr.rank w
    | None => ∀ w', ¬ at_addr w'
    end.
Proof.
  intros Hwf. unfold WorkloadStore.find_address.
  destruct (WorkloadStore.by_addr s !! k) as [b|] eqn:Hb.
  - assert (∃ w, WorkloadByAddr.get b = Ret w ∧ w ∈ WorkloadByAddr.workloads b ∧
      ∀ w', w' ∈ WorkloadByAddr.workloads b → WorkloadByAddr.rank w' ≤ WorkloadByAddr.rank w)
      as (w & -> & Hin & Hmax).
    { pose proof (WorkloadStoreFacts.wf_nonempty s Hwf k b Hb) as Hne.
      destruct b as [w|[|w ws]]; simpl in *; [exists w; set_solver|done|].
      eexists. split; [done|].
      destruct (WorkloadStoreFacts.max_by_key_spec WorkloadByAddr.rank w ws) as (? & ? & ?).
      set_solver. }
    simpl. exists (Some w). split; [done|]. split.
    + by apply (WorkloadStoreFacts.wf_sound s Hwf k b w).
    + intros w' (Hw' & Hm & Hk). apply Hmax.
      destruct (WorkloadStoreFacts.wf_complete s Hwf _ w' k Hw' Hm Hk) as (b' & Hb' & ?).
      by simplify_eq.
  - exists None. split; [done|]. intros w' (Hw' & Hm & Hk).
    destruct (WorkloadStoreFacts.wf_complete s Hwf _ w' k Hw' Hm Hk) as (b' & Hb' & ?).
    by simplify_eq.
Qed.

Lemma workload_find_address_witness :
  let w := example_workload "a//Pod/x" [V4 "abcd"] HBONE in
  ∃ o, WorkloadStore.find_address (WorkloadStore.insert WorkloadStore.empty w)
         (network_addr "" (V4 "abcd")) = Ret o.
Proof.
  intros w.
  destruct (workload_find_address (WorkloadStore.insert WorkloadStore.empty w)
    (network_addr "" (V4 "abcd"))
    (proj1 (WorkloadStoreFacts.insert_spec _ w WorkloadStoreFacts.wf_empty))) as (o & H & _).
  exists o. exact H.
Defined.
