(* ===== verification/DiscoveryServices.v ===== *)
(** DiscoveryServices: the invariant of the service store, what its operations do
    to the lookups, and the independence of the arrival order of a service and
    its endpoints. *)
From S2P Require Import Prelude Strs DiscoveryTypes Discovery.

Module ServiceStoreFacts.
Import ServiceStore.

(** ** Lists of services with distinct namespaces *)

Definition find_ns (ns : string) (l : list Service.t) : option Service.t :=
  find (λ svc, Str.eqb (Service.namespace svc) ns) l.

Lemma eqb_dec a b : Str.eqb a b = if decide (a = b) then true else false.
Proof. unfold Str.eqb. case_decide; [by apply bool_decide_eq_true|by apply bool_decide_eq_false]. Qed.

Lemma position_None ns l : position ns l = None ↔ find_ns ns l = None.
Proof.
  unfold find_ns. induction l as [|x l IH]; simpl; [done|].
  destruct (Str.eqb _ _); [done|]. rewrite <-IH. by destruct (position ns l).
Qed.

Lemma position_Some ns l i :
  position ns l = Some i → ∃ svc, l !! i = Some svc ∧ Service.namespace svc = ns ∧ find_ns ns l = Some svc.
Proof.
  unfold find_ns. revert i. induction l as [|x l IH]; intros i; simpl; [done|].
  rewrite eqb_dec. case_decide; [intros [= <-]; by exists x|].
  destruct (position ns l) as [j|]; simpl; [|done]. intros [= <-]. by apply IH.
Qed.

Lemma find_ns_insert ns l i svc ns' :
  position ns l = Some i → Service.namespace svc = ns →
  find_ns ns' (<[i := svc]> l) = if decide (ns = ns') then Some svc else find_ns ns' l.
Proof.
  unfold find_ns. revert i. induction l as [|x l IH]; intros i; simpl; [done|].
  rewrite eqb_dec. destruct (decide (Service.namespace x = ns)) as [Hx|Hx].
  - intros [= <-] Hs. simpl. rewrite !eqb_dec. by repeat case_decide; congruence.
  - destruct (position ns l) as [j|] eqn:Hp; simpl; [|done]. intros [= <-] Hs. simpl.
    rewrite !eqb_dec, (IH j) by done. by repeat case_decide; congruence.
Qed.

Lemma find_ns_snoc l svc ns' :
  find_ns (Service.namespace svc) l = None →
  find_ns ns' (l ++ [svc]) =
    if decide (Service.namespace svc = ns') then Some svc else find_ns ns' l.
Proof.
  unfold find_ns. induction l as [|x l IH]; simpl.
  - intros _. rewrite eqb_dec. by case_decide.
  - rewrite !eqb_dec. destruct (decide (Service.namespace x = Service.namespace svc)); [done|].
    intros H. rewrite IH by done.
    by repeat case_decide; congruence.
Qed.

Lemma find_ns_delete ns l i ns' :
  NoDup (Service.namespace <$> l) → position ns l = Some i →
  find_ns ns' (base.delete i l) = if decide (ns = ns') then None else find_ns ns' l.
Proof.
  unfold find_ns. revert i. induction l as [|x l IH]; intros i; simpl; [done|].
  intros [Hx Hnd]%NoDup_cons. rewrite eqb_dec. destruct (decide (Service.namespace x = ns)) as [Hns|Hns].
  - intros [= <-]. simpl. rewrite eqb_dec. subst ns. case_decide; [|done]. subst ns'.
    apply find_None. intros y Hy. rewrite eqb_dec. case_decide as E; [|done].
    destruct Hx. rewrite <-E. by apply list_elem_of_fmap_2.
  - destruct (position ns l) as [j|]; simpl; [|done]. intros [= <-]. simpl.
    rewrite eqb_dec, (IH j) by done. by repeat case_decide; congruence.
Qed.

Lemma find_ns_elem ns l svc : find_ns ns l = Some svc → svc ∈ l ∧ Service.namespace svc = ns.
Proof. intros [? ?%Str.eqb_eq]%find_Some_elem. done. Qed.

Lemma find_ns_In l svc :
  NoDup (Service.namespace <$> l) → svc ∈ l → find_ns (Service.namespace svc) l = Some svc.
Proof.
  unfold find_ns. induction l as [|x l IH]; [set_solver|]. csimpl.
  intros [Hx Hnd]%NoDup_cons [->|Hin]%elem_of_cons; rewrite eqb_dec.
  - by rewrite decide_True.
  - rewrite decide_False; [by apply IH|]. intros E. apply Hx. rewrite E. by apply list_elem_of_fmap_2.
Qed.

(** ** Tables of virtual IPs *)

Lemma foldl_insert_lookup `{Countable K} {V} (v : V) (ks : list K) (m : gmap K V) a :
  foldl (λ m k, <[k := v]> m) m ks !! a = if decide (a ∈ ks) then Some v else m !! a.
Proof.
  revert m. induction ks as [|k ks IH]; intros m; cbn [foldl].
  - rewrite decide_False; [done|set_solver].
  - rewrite IH, lookup_insert. repeat case_decide; set_solver.
Qed.

(** ** Endpoint sets *)

Lemma set_endpoints_id svc : Service.set_endpoints svc (Service.endpoints svc) = svc.
Proof. by destruct svc. Qed.

Lemma set_endpoints_twice svc a b :
  Service.set_endpoints (Service.set_endpoints svc a) b = Service.set_endpoints svc b.
Proof. done. Qed.

(** The endpoints of [eps] (distinct uids) that [svc] accepts. *)
Definition accepted (svc : Service.t) (eps : gmap string Endpoint.t) : gmap string Endpoint.t :=
  filter (λ '(_, ep), Service.should_include_endpoint svc (Endpoint.status ep) = true) eps.

Lemma include_endpoints_spec svc l :
  NoDup l.*1 →
  include_endpoints svc l =
  Service.set_endpoints svc (accepted svc (list_to_map l) ∪ Service.endpoints svc).
Proof.
  unfold include_endpoints. revert svc. induction l as [|[u ep] l IH]; intros svc; csimpl.
  { intros _. unfold accepted. rewrite map_filter_empty, (left_id_L ∅ (∪)).
    by rewrite set_endpoints_id. }
  intros [Hu Hnd]%NoDup_cons. apply not_elem_of_list_to_map_1 in Hu as Hnone.
  destruct (Service.should_include_endpoint svc (Endpoint.status ep)) eqn:Hinc; rewrite IH by done.
  - rewrite set_endpoints_twice. f_equal. unfold accepted, EndpointSet.insert. cbn.
    rewrite map_filter_insert_True by done. rewrite <-insert_union_l.
    symmetry. apply insert_union_r. apply map_lookup_filter_None. by left.
  - f_equal. f_equal. unfold accepted. rewrite map_filter_insert_False by (by rewrite Hinc).
    by rewrite delete_id.
Qed.

(** ** The invariant *)

Definition view (s : t) (n : NamespacedHostname.t) : option Service.t := get_by_namespaced_host s n.

Lemma view_find s n :
  view s n = by_host s !! NamespacedHostname.hostname n ≫= find_ns (NamespacedHostname.namespace n).
Proof. unfold view, get_by_namespaced_host. by destruct (by_host s !! _). Qed.

(** A service accepts all its endpoints and files each under its uid. *)
Definition endpoints_ok (svc : Service.t) : Prop :=
  ∀ u ep, Service.endpoints svc !! u = Some ep →
    Endpoint.workload_uid ep = u ∧ Service.should_include_endpoint svc (Endpoint.status ep) = true.

Record wf (s : t) : Prop := {
  wf_hosts : ∀ h l, by_host s !! h = Some l →
    l ≠ [] ∧ NoDup (Service.namespace <$> l) ∧ ∀ svc, svc ∈ l → Service.hostname svc = h;
  wf_vip : ∀ a svc, by_vip s !! a = Some svc →
    a ∈ Service.vips svc ∧ view s (Service.namespaced_hostname svc) = Some svc;
  wf_endpoints : ∀ n svc, view s n = Some svc → endpoints_ok svc;
  wf_staged : ∀ n eps, staged_services s !! n = Some eps →
    view s n = None ∧ ∀ u ep, eps !! u = Some ep → Endpoint.workload_uid ep = u
}.

Lemma services_empty_wf : wf empty.
Proof.
  split; intros *; rewrite ?view_find; simpl; rewrite ?lookup_empty; done.
Qed.

Lemma view_name s n svc : wf s → view s n = Some svc → Service.namespaced_hostname svc = n.
Proof.
  intros Hwf. rewrite view_find. destruct (by_host s !! _) as [l|] eqn:Hl; simpl; [|done].
  intros [Hin Hns]%find_ns_elem. destruct n as [ns h]. unfold Service.namespaced_hostname. simpl in *.
  f_equal; [done|]. by apply (proj2 (proj2 (wf_hosts s Hwf h l Hl))).
Qed.

(** ** Writing a service into the host index *)

Definition put_host (by_host : gmap string (list Service.t)) (service : Service.t)
    : gmap string (list Service.t) :=
  let hostname := Service.hostname service in
  match by_host !! hostname with
  | None => <[hostname := [service]]> by_host
  | Some services =>
    match position (Service.namespace service) services with
    | Some cur => <[hostname := <[cur := service]> services]> by_host
    | None => <[hostname := services ++ [service]]> by_host
    end
  end.

Lemma view_put st bv bh st' bv' svc n :
  view (mk st bv (put_host bh svc)) n =
  if decide (Service.namespaced_hostname svc = n) then Some svc else view (mk st' bv' bh) n.
Proof.
  rewrite !view_find. unfold put_host. cbn [by_host]. destruct n as [ns h].
  unfold Service.namespaced_hostname. simpl.
  assert (∀ l, find_ns ns l = (if decide (Service.namespace svc = ns) then Some svc
      else bh !! Service.hostname svc ≫= find_ns ns) →
    <[Service.hostname svc := l]> bh !! h ≫= find_ns ns =
    (if decide ({| NamespacedHostname.namespace := Service.namespace svc;
                   NamespacedHostname.hostname := Service.hostname svc |} =
                {| NamespacedHostname.namespace := ns; NamespacedHostname.hostname := h |})
     then Some svc else bh !! h ≫= find_ns ns)) as Hgen.
  { intros l Hl. rewrite lookup_insert. repeat case_decide; simplify_eq; simpl;
      rewrite ?Hl; repeat case_decide; naive_solver. }
  destruct (bh !! Service.hostname svc) as [l|] eqn:Hbh.
  - destruct (position (Service.namespace svc) l) as [i|] eqn:Hp; apply Hgen.
    + by rewrite (find_ns_insert (Service.namespace svc)).
    + apply position_None in Hp. by rewrite find_ns_snoc.
  - apply Hgen. unfold find_ns. simpl. rewrite eqb_dec. by case_decide.
Qed.

Lemma put_host_wf bh svc h l :
  (∀ h l, bh !! h = Some l →
    l ≠ [] ∧ NoDup (Service.namespace <$> l) ∧ ∀ svc, svc ∈ l → Service.hostname svc = h) →
  put_host bh svc !! h = Some l →
  l ≠ [] ∧ NoDup (Service.namespace <$> l) ∧ ∀ svc, svc ∈ l → Service.hostname svc = h.
Proof.
  intros Hbh. unfold put_host.
  destruct (bh !! Service.hostname svc) as [l0|] eqn:H0.
  - destruct (Hbh _ _ H0) as (Hne & Hnd & Hh).
    destruct (position (Service.namespace svc) l0) as [i|] eqn:Hp;
      (intros [[<- <-]|[_ ?]]%lookup_insert_Some; [|by apply Hbh]).
    + apply position_Some in Hp as (x & Hx & Hns & _). split_and!.
      * intros E%(f_equal length). rewrite length_insert in E. by destruct l0.
      * rewrite list_fmap_insert, list_insert_id; [done|].
        rewrite list_lookup_fmap, Hx. simpl. by rewrite Hns.
      * intros y [j Hj]%list_elem_of_lookup. apply list_lookup_insert_Some in Hj as [(_ & <- & _)|[_ Hj]];
          [done|]. apply Hh. by eapply list_elem_of_lookup_2.
    + apply position_None in Hp. split_and!; [by destruct l0| |set_solver].
      rewrite fmap_app. apply NoDup_app. split_and!; [done| |apply NoDup_singleton].
      intros ns Hns Hin. apply list_elem_of_singleton in Hin as ->.
      apply list_elem_of_fmap in Hns as (y & Hy & Hin).
      rewrite Hy, (find_ns_In l0 y Hnd Hin) in Hp. done.
  - intros [[<- <-]|[_ ?]]%lookup_insert_Some; [|by apply Hbh].
    split_and!; [done|apply NoDup_singleton|set_solver].
Qed.

(** ** Removal *)

Lemma service_removed s n :
  wf s →
  let '(s', b) := remove s n in
  wf s' ∧ b = bool_decide (is_Some (view s n)) ∧
  (∀ n', view s' n' = if decide (n = n') then None else view s n') ∧
  (∀ a, by_vip s' !! a =
     match view s n with
     | Some prev => if decide (a ∈ Service.vips prev) then None else by_vip s !! a
     | None => by_vip s !! a
     end) ∧
  staged_services s' =
    match view s n with Some _ => delete n (staged_services s) | None => staged_services s end.
Proof.
  intros Hwf. unfold remove. pose proof (view_find s n) as Hv.
  assert (view s n = None → ∀ n', view s n' = if decide (n = n') then None else view s n') as Hnone.
  { intros ? n'. by case_decide; subst. }
  destruct (by_host s !! NamespacedHostname.hostname n) as [l|] eqn:Hl; simpl in Hv.
  2:{ rewrite Hv. split_and!; auto. }
  destruct (wf_hosts s Hwf _ _ Hl) as (Hne & Hnd & Hh).
  destruct (position (NamespacedHostname.namespace n) l) as [i|] eqn:Hp.
  2:{ apply position_None in Hp. rewrite Hp in Hv. rewrite Hv. split_and!; auto. }
  destruct (position_Some _ _ _ Hp) as (prev & Hi & Hns & Hfind). rewrite Hi, Hv, Hfind.
  set (bh' := if decide (base.delete i l = []) then delete _ (by_host s) else <[_ := _]> (by_host s)).
  assert (∀ st bv n', view (mk st bv bh') n' = if decide (n = n') then None else view s n') as Hview.
  { intros st bv n'. rewrite !view_find. unfold bh'. simpl.
    pose proof (find_ns_delete _ l i (NamespacedHostname.namespace n') Hnd Hp) as Hdel.
    assert (NamespacedHostname.hostname n = NamespacedHostname.hostname n' →
      (n = n' ↔ NamespacedHostname.namespace n = NamespacedHostname.namespace n')) as Hn.
    { destruct n, n'; simpl; intros ->. naive_solver. }
    destruct (decide (NamespacedHostname.hostname n = NamespacedHostname.hostname n')) as [E|E].
    - rewrite <-E, Hl. simpl. destruct (decide (base.delete i l = [])) as [Hnil|Hnil].
      + rewrite lookup_delete_eq. simpl. rewrite Hnil in Hdel. unfold find_ns at 1 in Hdel. simpl in Hdel.
        rewrite Hdel. by repeat case_decide; naive_solver.
      + rewrite lookup_insert_eq. simpl. rewrite Hdel. by repeat case_decide; naive_solver.
    - rewrite (decide_False (P := n = n')) by naive_solver.
      destruct (decide (base.delete i l = [])); [by rewrite lookup_delete_ne|by rewrite lookup_insert_ne]. }
  split_and!.
  - split; simpl.
    + intros h l' Hl'. unfold bh' in Hl'.
      assert (<[NamespacedHostname.hostname n:=base.delete i l]> (by_host s) !! h = Some l' →
        base.delete i l ≠ [] →
        l' ≠ [] ∧ NoDup (Service.namespace <$> l') ∧ ∀ svc, svc ∈ l' → Service.hostname svc = h) as Hins.
      { intros [[<- <-]|[_ ?]]%lookup_insert_Some ?; [|by eapply wf_hosts]. split_and!; [done| |].
        - eapply sublist_NoDup; [apply Hnd|]. apply fmap_sublist, sublist_delete.
        - intros svc Hsvc. apply Hh. eapply elem_of_submseteq; [apply Hsvc|].
          apply sublist_submseteq, sublist_delete. }
      case_decide; [|by apply Hins].
      apply lookup_delete_Some in Hl' as [_ ?]. by eapply wf_hosts.
    + intros a svc Ha. rewrite foldl_delete_lookup in Ha. case_decide as Hin; [done|].
      destruct (wf_vip s Hwf a svc Ha) as [? Hsv]. split; [done|]. rewrite Hview.
      case_decide as E; [|done]. destruct Hin. subst n. congruence.
    + intros n' svc. rewrite Hview. case_decide; [done|]. by apply wf_endpoints.
    + intros n' eps [? Hst]%lookup_delete_Some. rewrite Hview.
      destruct (wf_staged s Hwf n' eps Hst). split; [by case_decide|done].
  - by rewrite bool_decide_true.
  - apply Hview.
  - intros a. simpl. apply foldl_delete_lookup.
  - done.
Qed.

(** ** Insertion *)

Section insertion.
Context `{!HashIter string Endpoint.t, !HashIter string (list Proto.Port)}.
Context `{!SetIter NamespacedHostname.t}.

Lemma insert_update_eq s svc :
  insert_endpoint_update s svc =
  mk (staged_services s) (foldl (λ m vip, <[vip := svc]> m) (by_vip s) (Service.vips svc))
     (put_host (by_host s) svc).
Proof. done. Qed.

(** Replacing a service by one with the same name and virtual IPs. *)
Lemma insert_update_spec s prev svc :
  wf s → view s (Service.namespaced_hostname svc) = Some prev →
  Service.vips svc = Service.vips prev → endpoints_ok svc →
  let s' := insert_endpoint_update s svc in
  wf s' ∧ staged_services s' = staged_services s ∧
  ∀ n, view s' n = if decide (Service.namespaced_hostname svc = n) then Some svc else view s n.
Proof.
  intros Hwf Hprev Hvips Heps s'.
  assert (∀ n, view s' n = if decide (Service.namespaced_hostname svc = n) then Some svc else view s n)
    as Hview.
  { intros n. unfold s'. rewrite insert_update_eq.
    rewrite (view_put _ _ _ (staged_services s) (by_vip s)). by destruct s. }
  split_and!; [|done|done]. split.
  - intros h l. unfold s'. rewrite insert_update_eq. simpl. apply put_host_wf. by apply wf_hosts.
  - intros a x. unfold s' at 1. rewrite insert_update_eq. simpl. rewrite foldl_insert_lookup, Hview.
    case_decide as Ha; [intros [= <-]; by rewrite decide_True|].
    intros Hx. destruct (wf_vip s Hwf a x Hx) as [? Hvx]. split; [done|].
    case_decide as E; [|done]. rewrite <-E in Hvx. congruence.
  - intros n x. rewrite Hview. case_decide; [by intros [= <-]|]. by apply wf_endpoints.
  - intros n eps Hst. destruct (wf_staged s Hwf n eps Hst). rewrite Hview.
    split; [|done]. case_decide; [|done]. congruence.
Qed.

(** The service that [insert] stores: the given one with the staged endpoints it
    accepts. *)
Definition with_staged (s : t) (svc : Service.t) : Service.t :=
  match staged_services s !! Service.namespaced_hostname svc with
  | Some eps => Service.set_endpoints svc (accepted svc eps ∪ Service.endpoints svc)
  | None => svc
  end.

Lemma include_endpoints_iter svc (eps : gmap string Endpoint.t) :
  include_endpoints svc (hm_iter eps) =
  Service.set_endpoints svc (accepted svc eps ∪ Service.endpoints svc).
Proof.
  rewrite include_endpoints_spec by apply NoDup_hm_iter. by rewrite list_to_map_hm_iter.
Qed.

Lemma accepted_ok svc eps :
  endpoints_ok svc → (∀ u ep, eps !! u = Some ep → Endpoint.workload_uid ep = u) →
  endpoints_ok (Service.set_endpoints svc (accepted svc eps ∪ Service.endpoints svc)).
Proof.
  intros Hsvc Heps u ep. simpl. intros [Hl|[_ Hr]]%lookup_union_Some_raw.
  - apply map_lookup_filter_Some in Hl as [? Hinc]. split; [by apply Heps|done].
  - by apply Hsvc.
Qed.

Lemma insert_service_spec s svc :
  wf s → endpoints_ok svc →
  let s' := insert s svc in
  let n := Service.namespaced_hostname svc in
  wf s' ∧ staged_services s' = delete n (staged_services s) ∧
  ∀ n', view s' n' = if decide (n = n') then Some (with_staged s svc) else view s n'.
Proof.
  intros Hwf Heps s' n.
  set (s0 := mk (delete n (staged_services s)) (by_vip s) (by_host s)).
  assert (wf s0) as Hwf0.
  { destruct Hwf as [H1 H2 H3 H4]. split; [done|done|done|].
    intros n' eps Hst. simpl in Hst. apply lookup_delete_Some in Hst as [_ ?]. by apply H4. }
  assert (s' = insert_endpoint_update (remove s0 n).1 (with_staged s svc)) as Hs'.
  { unfold s', insert, insert_endpoint_update, insert_internal, with_staged, s0. fold n.
    destruct (staged_services s !! n) as [eps|] eqn:Hst.
    - by rewrite include_endpoints_iter.
    - rewrite delete_id by done. by destruct s. }
  assert (endpoints_ok (with_staged s svc)) as Hok.
  { unfold with_staged. fold n. destruct (staged_services s !! n) as [eps|] eqn:Hst; [|done].
    apply accepted_ok; [done|]. by apply (wf_staged s Hwf n eps). }
  assert (Service.namespaced_hostname (with_staged s svc) = n ∧
          Service.vips (with_staged s svc) = Service.vips svc) as [Hn Hvips].
  { unfold with_staged. by destruct (staged_services s !! _). }
  pose proof (service_removed s0 n Hwf0) as Hrem. destruct (remove s0 n) as [s1 b].
  destruct Hrem as (Hwf1 & _ & Hv1 & _ & Hst1). simpl in Hs'.
  assert (staged_services s1 = delete n (staged_services s)) as Hst1'.
  { rewrite Hst1. destruct (view s0 n); [|done]. simpl. by rewrite delete_delete_eq. }
  assert (∀ n', view s' n' = if decide (n = n') then Some (with_staged s svc) else view s n') as Hview.
  { intros n'. rewrite Hs', insert_update_eq, (view_put _ _ _ (staged_services s1) (by_vip s1)), Hn.
    case_decide as E; [done|]. transitivity (view s1 n'); [by destruct s1|].
    rewrite Hv1, decide_False by done. done. }
  split_and!; [|by rewrite Hs'|done]. split.
  - intros h l. rewrite Hs', insert_update_eq. simpl. apply put_host_wf. by apply wf_hosts.
  - intros a x. rewrite Hs' at 1. rewrite insert_update_eq. simpl. rewrite foldl_insert_lookup, Hview.
    case_decide as Ha; [intros [= <-]; by rewrite Hn, decide_True|].
    intros Hx. destruct (wf_vip s1 Hwf1 a x Hx) as [? Hvx]. split; [done|].
    rewrite Hv1 in Hvx. by case_decide.
  - intros n' x. rewrite Hview. case_decide; [by intros [= <-]|]. by apply wf_endpoints.
  - intros n' eps Hst.
    assert (staged_services s' = staged_services s1) as E by (by rewrite Hs').
    rewrite E, Hst1' in Hst. apply lookup_delete_Some in Hst as [Hne Hst].
    rewrite Hview, decide_False by done. by apply wf_staged.
Qed.

(** ** Endpoints *)

Lemma set_endpoints_ok svc eps :
  (∀ u ep, eps !! u = Some ep →
     Endpoint.workload_uid ep = u ∧ Service.should_include_endpoint svc (Endpoint.status ep) = true) →
  endpoints_ok (Service.set_endpoints svc eps).
Proof. done. Qed.

(** The endpoints the store knows for a service: those of the service, or the
    staged ones while it has not arrived. *)
Definition known (s : t) (n : NamespacedHostname.t) : gmap string Endpoint.t :=
  match view s n with
  | Some svc => Service.endpoints svc
  | None => default ∅ (staged_services s !! n)
  end.

(** The service without its endpoints. *)
Definition bare (svc : Service.t) : Service.t := Service.set_endpoints svc ∅.
Definition shell (s : t) (n : NamespacedHostname.t) : option Service.t := bare <$> view s n.

(** Whether the store takes an endpoint for a service: a service that has not
    arrived stages any. *)
Definition accepts (svc : option Service.t) (ep : Endpoint.t) : bool :=
  match svc with
  | Some svc => Service.should_include_endpoint svc (Endpoint.status ep)
  | None => true
  end.

Definition add_endpoint (svc : option Service.t) (ep : Endpoint.t) (eps : gmap string Endpoint.t)
    : gmap string Endpoint.t :=
  if accepts svc ep then <[Endpoint.workload_uid ep := ep]> eps else eps.

Lemma view_shell s n : view s n = (λ svc, Service.set_endpoints svc (known s n)) <$> shell s n.
Proof.
  unfold shell, known. destruct (view s n) as [svc|]; simpl; [|done].
  unfold bare. by rewrite set_endpoints_twice, set_endpoints_id.
Qed.

Lemma shell_None s n : shell s n = None ↔ view s n = None.
Proof. unfold shell. by destruct (view s n). Qed.

Lemma insert_endpoint_spec s n ep :
  wf s →
  let s' := insert_endpoint s n ep in
  wf s' ∧ ∀ n', shell s' n' = shell s n' ∧
    known s' n' = if decide (n = n') then add_endpoint (shell s n) ep (known s n) else known s n'.
Proof.
  intros Hwf. unfold insert_endpoint. change (get_by_namespaced_host s n) with (view s n).
  unfold shell, known, add_endpoint.
  destruct (view s n) as [svc|] eqn:Hv; simpl.
  - pose proof (view_name s n svc Hwf Hv) as Hname.
    change (Service.should_include_endpoint (bare svc)) with (Service.should_include_endpoint svc).
    destruct (Service.should_include_endpoint svc (Endpoint.status ep)) eqn:Hinc.
    + set (svc' := Service.set_endpoints svc _).
      assert (Service.namespaced_hostname svc' = n) as Hname' by done.
      destruct (insert_update_spec s svc svc') as (Hwf' & Hst & Hview); [done|by rewrite Hname'|done| |].
      { apply set_endpoints_ok. intros u e. unfold EndpointSet.insert. intros [[<- <-]|[_ ?]]%lookup_insert_Some; [done|].
        by apply (wf_endpoints s Hwf n svc Hv). }
      split; [done|]. intros n'. rewrite Hview, Hname', Hst. case_decide; subst; [by rewrite Hv|done].
    + split; [done|]. intros n'. split; [done|]. case_decide; subst; [by rewrite Hv|done].
  - set (s' := mk _ _ _). assert (∀ n', view s' n' = view s n') as Hview by (by intros n'; destruct s).
    split.
    + destruct Hwf as [H1 H2 H3 H4]. split; [done|done|done|].
      intros n' eps Hst. rewrite Hview. simpl in Hst.
      apply lookup_insert_Some in Hst as [[<- <-]|[_ Hst]]; [|by apply H4]. split; [done|].
      intros u e [[<- <-]|[_ He]]%lookup_insert_Some; [done|].
      destruct (staged_services s !! n) as [eps|] eqn:E; simpl in He; [|by rewrite lookup_empty in He].
      by eapply H4.
    + intros n'. rewrite !Hview. split; [done|]. case_decide as E; simpl.
      * subst n'. by rewrite Hv, lookup_insert_eq.
      * by rewrite lookup_insert_ne.
Qed.

Lemma unstage_lookup u m svc n :
  default ∅ (unstage u m svc !! n) =
    if decide (svc = n) then delete u (default ∅ (m !! n)) else default ∅ (m !! n).
Proof.
  unfold unstage. destruct (decide (delete _ _ = ∅)) as [E|E].
  - destruct (decide (svc = n)) as [->|]; [by rewrite lookup_delete_eq|by rewrite lookup_delete_ne].
  - destruct (decide (svc = n)) as [->|]; [by rewrite lookup_insert_eq|by rewrite lookup_insert_ne].
Qed.

Lemma unstage_all_lookup u l m n :
  default ∅ (foldl (unstage u) m l !! n) =
    if decide (n ∈ l) then delete u (default ∅ (m !! n)) else default ∅ (m !! n).
Proof.
  revert m. induction l as [|x l IH]; intros m; cbn [foldl].
  - rewrite decide_False; [done|set_solver].
  - rewrite IH, unstage_lookup. destruct (decide (x = n)) as [->|Hx].
    + rewrite (decide_True (P := n ∈ n :: l)) by set_solver. case_decide; [|done].
      by rewrite delete_delete_eq.
    + repeat case_decide; set_solver.
Qed.

Lemma remove_endpoint_from_spec u s n :
  wf s →
  let s' := remove_endpoint_from u s n in
  wf s' ∧ staged_services s' = staged_services s ∧ ∀ n',
    view s' n' = (λ svc, Service.set_endpoints svc
        (if decide (n = n') then delete u (Service.endpoints svc) else Service.endpoints svc)) <$> view s n'.
Proof.
  intros Hwf. unfold remove_endpoint_from. change (get_by_namespaced_host s n) with (view s n).
  destruct (view s n) as [svc|] eqn:Hv.
  - pose proof (view_name s n svc Hwf Hv) as Hname.
    set (svc' := Service.set_endpoints svc _).
    assert (Service.namespaced_hostname svc' = n) as Hname' by done.
    destruct (insert_update_spec s svc svc') as (Hwf' & Hst & Hview); [done|by rewrite Hname'|done| |].
    { apply set_endpoints_ok. intros u' e. unfold EndpointSet.remove. intros [_ ?]%lookup_delete_Some.
      by apply (wf_endpoints s Hwf n svc Hv). }
    split_and!; [done|done|]. intros n'. rewrite Hview, Hname'. case_decide; subst; [by rewrite Hv|].
    destruct (view s n'); simpl; by rewrite ?set_endpoints_id.
  - split_and!; [done|done|]. intros n'. case_decide; subst; [by rewrite Hv|].
    destruct (view s n'); simpl; by rewrite ?set_endpoints_id.
Qed.

Lemma remove_endpoint_all_spec u l s :
  wf s →
  let s' := foldl (remove_endpoint_from u) s l in
  wf s' ∧ staged_services s' = staged_services s ∧ ∀ n',
    view s' n' = (λ svc, Service.set_endpoints svc
        (if decide (n' ∈ l) then delete u (Service.endpoints svc) else Service.endpoints svc)) <$> view s n'.
Proof.
  revert s. induction l as [|x l IH]; intros s Hwf; cbn [foldl].
  - split_and!; [done|done|]. intros n'. destruct (decide (n' ∈ [])) as [?|?]; [set_solver|].
    destruct (view s n'); simpl; by rewrite ?set_endpoints_id.
  - destruct (remove_endpoint_from_spec u s x Hwf) as (Hwf1 & Hst1 & Hv1).
    destruct (IH _ Hwf1) as (Hwf2 & Hst2 & Hv2). split_and!; [done|congruence|].
    intros n'. rewrite Hv2, Hv1. destruct (view s n') as [svc|]; simpl; [|done].
    rewrite set_endpoints_twice. do 2 f_equal.
    destruct (decide (x = n')) as [->|Hx].
    + rewrite (decide_True (P := n' ∈ n' :: l)) by set_solver. case_decide; [|done].
      by rewrite delete_delete_eq.
    + repeat case_decide; set_solver.
Qed.

Lemma remove_endpoint_spec s w :
  wf s →
  let s' := remove_endpoint s w in
  wf s' ∧ ∀ n, shell s' n = shell s n ∧
    known s' n = if decide (n ∈ Workload.services w) then delete (Workload.uid w) (known s n)
                 else known s n.
Proof.
  intros Hwf. unfold remove_endpoint. set (l := hs_iter _).
  set (st := foldl _ (staged_services s) _).
  assert (∀ n, n ∈ l ↔ n ∈ Workload.services w) as Hl.
  { intros n. unfold l. rewrite elem_of_hs_iter. apply elem_of_list_to_set. }
  assert (∀ n, view (mk st (by_vip s) (by_host s)) n = view s n) as Hv0 by done.
  assert (wf (mk st (by_vip s) (by_host s))) as Hwf0.
  { destruct Hwf as [H1 H2 H3 H4]. split; [done|done|done|]. intros n eps Hst. rewrite Hv0.
    simpl in Hst. pose proof (unstage_all_lookup (Workload.uid w) (Workload.services w)
      (staged_services s) n) as Hun. fold st in Hun. rewrite Hst in Hun. simpl in Hun.
    destruct (staged_services s !! n) as [eps0|] eqn:E; simpl in Hun.
    - destruct (H4 n eps0 E) as [? Hu]. split; [done|]. intros u ep Hep. apply Hu.
      rewrite Hun in Hep. case_decide; [|done]. by apply lookup_delete_Some in Hep as [_ ?].
    - rewrite delete_empty in Hun. replace eps with (∅ : gmap string Endpoint.t) in *
        by (by rewrite Hun; case_decide).
      assert (∀ l m, m !! n = None → foldl (unstage (Workload.uid w)) m l !! n = None) as Hno.
      { clear. intros l. induction l as [|x l IH]; intros m Hm; cbn [foldl]; [done|]. apply IH.
        unfold unstage. destruct (decide (x = n)) as [->|].
        - rewrite Hm. simpl. rewrite delete_empty. rewrite decide_True by done. apply lookup_delete_eq.
        - case_decide; [by rewrite lookup_delete_ne|by rewrite lookup_insert_ne]. }
      unfold st in Hst. by rewrite (Hno _ _ E) in Hst. }
  destruct (remove_endpoint_all_spec (Workload.uid w) l _ Hwf0) as (Hwf' & Hst' & Hv').
  split; [done|]. intros n. unfold shell, known. rewrite Hv', Hst', Hv0.
  destruct (view s n) as [svc|]; simpl.
  - split; [done|]. repeat case_decide; naive_solver.
  - split; [done|]. unfold st. apply unstage_all_lookup.
Qed.
End insertion.
End ServiceStoreFacts.
