(* ===== verification/DiscoverySpec.v ===== *)
(** DiscoverySpec: what the discovery store promises, as an abstract store with
    one table per kind of object, the proof that the code of
    [store/discovery.rs] implements it, and the invariants of every reachable
    store. *)
From S2P Require Import Prelude Strs Xds DiscoveryTypes Discovery DiscoveryWorkloads DiscoveryServices.
Import ServiceStoreFacts (known, shell, bare, accepted, accepts, add_endpoint).

(** * The abstract store *)

Module DiscoverySpec.

(** The workloads by uid, the services (without endpoints) by name, and for each
    service name, whether or not the service exists, its known endpoints. *)
Record t := mk {
  a_workloads : gmap string Workload.t;
  a_service : NamespacedHostname.t → option Service.t;
  a_endpoints : NamespacedHostname.t → gmap string Endpoint.t
}.

Definition new : t := mk ∅ (λ _, None) (λ _, ∅).

Definition remove_workload (a : t) (u : string) : t :=
  match a_workloads a !! u with
  | None => a
  | Some w =>
    mk (delete u (a_workloads a)) (a_service a)
       (λ n, if decide (n ∈ Workload.services w) then delete u (a_endpoints a n) else a_endpoints a n)
  end.

(** The ports a workload's service table gives for a service. *)
Definition ports_for {V} (svcs : gmap string V) (n : NamespacedHostname.t) : option V :=
  if Str.contains_char "/" (NamespacedHostname.namespace n) then None
  else svcs !! NamespacedHostname.fmt n.

Definition endpoint_of (w : Workload.t) (ports : list Proto.Port) : Endpoint.t :=
  {| Endpoint.workload_uid := Workload.uid w;
     Endpoint.port := ports_from ports;
     Endpoint.status := Workload.status w |}.

Definition insert_workload (a : t) (w : Workload.t) (svcs : gmap string (list Proto.Port)) : t :=
  let a := remove_workload a (Workload.uid w) in
  mk (<[Workload.uid w := w]> (a_workloads a)) (a_service a)
     (λ n, match ports_for svcs n with
           | Some ports => add_endpoint (a_service a n) (endpoint_of w ports) (a_endpoints a n)
           | None => a_endpoints a n
           end).

Definition insert_service (a : t) (svc : Service.t) : t :=
  let n := Service.namespaced_hostname svc in
  mk (a_workloads a)
     (λ n', if decide (n = n') then Some (bare svc) else a_service a n')
     (λ n', if decide (n = n') then accepted svc (a_endpoints a n) ∪ Service.endpoints svc
            else a_endpoints a n').

Definition remove_service (a : t) (n : NamespacedHostname.t) : t :=
  match a_service a n with
  | None => a
  | Some _ =>
    mk (a_workloads a) (λ n', if decide (n = n') then None else a_service a n')
       (λ n', if decide (n = n') then ∅ else a_endpoints a n')
  end.

Definition remove (a : t) (name : string) : t :=
  match a_workloads a !! name with
  | Some _ => remove_workload a name
  | None =>
    match NamespacedHostname.from_str name with
    | Ok n => if Str.contains_char "/" (NamespacedHostname.hostname n) then a else remove_service a n
    | Err _ => a
    end
  end.

Definition insert_address `{!HashIter string (list Proto.Port)} (a : t)
    (m : DiscoveryStore.XdsAddress) : t :=
  match m with
  | DiscoveryStore.AddrWorkload w =>
    match Workload_try_from w with Ok (w, svcs) => insert_workload a w svcs | Err _ => a end
  | DiscoveryStore.AddrService s =>
    match Service_try_from s with Ok svc => insert_service a svc | Err _ => a end
  | DiscoveryStore.AddrNone => a
  end.

(** Two abstract stores with the same tables. *)
Definition equiv (a b : t) : Prop :=
  a_workloads a = a_workloads b ∧
  (∀ n, a_service a n = a_service b n) ∧ ∀ n, a_endpoints a n = a_endpoints b n.

#[global] Instance equiv_equivalence : Equivalence equiv.
Proof.
  split.
  - done.
  - intros a b (?&?&?). split_and!; auto.
  - intros a b c (E1&S1&P1) (E2&S2&P2). split_and!; [congruence| |]; intros n; congruence.
Qed.

(** Each known endpoint belongs to a workload that lists the service. *)
Definition no_dangling (a : t) : Prop :=
  ∀ n u ep, a_endpoints a n !! u = Some ep →
    ∃ w, a_workloads a !! u = Some w ∧ n ∈ Workload.services w ∧ Endpoint.workload_uid ep = u.

End DiscoverySpec.

(** * Refinement *)

Module DiscoveryRefinement.
Import DiscoverySpec.

Record refines (d : DiscoveryStore.t) (a : DiscoverySpec.t) : Prop := {
  ref_workloads : WorkloadStoreFacts.wf (DiscoveryStore.workloads d);
  ref_services : ServiceStoreFacts.wf (DiscoveryStore.services d);
  ref_by_uid : WorkloadStore.by_uid (DiscoveryStore.workloads d) = a_workloads a;
  ref_shell : ∀ n, shell (DiscoveryStore.services d) n = a_service a n;
  ref_known : ∀ n, known (DiscoveryStore.services d) n = a_endpoints a n
}.

Lemma refines_new : refines DiscoveryStore.new new.
Proof.
  split; [apply WorkloadStoreFacts.wf_empty|apply ServiceStoreFacts.services_empty_wf|done| |];
    intros n; unfold shell, known; rewrite ServiceStoreFacts.view_find; simpl; rewrite lookup_empty; simpl;
    by rewrite ?lookup_empty.
Qed.

Section ops.
Context `{!HashIter string Endpoint.t, !HashIter string (list Proto.Port)}.
Context `{!SetIter NamespacedHostname.t, !SetIter string, !HashIter N N}.

(** ** Workloads *)

Lemma ports_for_insert (m : gmap string (list Proto.Port)) k p n0 n :
  NamespacedHostname.from_str k = Ok n0 →
  ports_for (<[k := p]> m) n = if decide (n0 = n) then Some p else ports_for m n.
Proof.
  intros [-> Hns]%NamespacedHostname_from_str_Ok. unfold ports_for.
  destruct (decide (n0 = n)) as [->|Hne]; [by rewrite Hns, lookup_insert_eq|].
  destruct (Str.contains_char "/" (NamespacedHostname.namespace n)) eqn:E; [done|].
  rewrite lookup_insert_ne; [done|]. intros Heq. destruct Hne.
  assert (NamespacedHostname.from_str (NamespacedHostname.fmt n0) = Ok n) as H1
    by (by apply NamespacedHostname_from_str_Ok).
  assert (NamespacedHostname.from_str (NamespacedHostname.fmt n0) = Ok n0) as H2
    by (by apply NamespacedHostname_from_str_Ok).
  congruence.
Qed.

Lemma insert_endpoints_spec w l s :
  ServiceStoreFacts.wf s → NoDup l.*1 →
  Forall (λ k, is_ok (NamespacedHostname.from_str k) = true) l.*1 →
  ∃ s', ServiceStore.insert_endpoints s w l = (s', Ok ()) ∧ ServiceStoreFacts.wf s' ∧
    ∀ n, shell s' n = shell s n ∧
      known s' n = match ports_for (list_to_map l) n with
                   | Some ports => add_endpoint (shell s n) (endpoint_of w ports) (known s n)
                   | None => known s n
                   end.
Proof.
  revert s. induction l as [|[k p] l IH]; intros s Hwf; csimpl.
  - intros _ _. eexists. split_and!; [done|done|]. intros n. split; [done|].
    unfold ports_for. destruct (Str.contains_char _ _); [done|]. by rewrite lookup_empty.
  - intros [Hk Hnd]%NoDup_cons [Hok Hall]%Forall_cons.
    destruct (NamespacedHostname.from_str k) as [n0|] eqn:Hn0; [|done].
    destruct (ServiceStoreFacts.insert_endpoint_spec s n0 (endpoint_of w p) Hwf) as [Hwf1 H1].
    destruct (IH _ Hwf1 Hnd Hall) as (s' & Hs' & Hwf' & H').
    exists s'. split_and!; [exact Hs'|done|]. intros n. destruct (H' n) as [Hsh Hkn].
    destruct (H1 n) as [Hsh1 Hkn1]. split; [congruence|].
    rewrite Hkn, Hsh1, Hkn1, (ports_for_insert _ _ _ n0) by done.
    destruct (decide (n0 = n)) as [->|]; [|done].
    assert (ports_for (list_to_map l : gmap string (list Proto.Port)) n = None) as ->; [|done].
    apply NamespacedHostname_from_str_Ok in Hn0 as [-> _]. unfold ports_for.
    destruct (Str.contains_char _ _); [done|]. by apply not_elem_of_list_to_map_1.
Qed.

Lemma remove_workload_refines d a u for_insert :
  refines d a → is_Some (a_workloads a !! u) ∨ for_insert = true →
  refines (DiscoveryStore.remove_internal d u for_insert) (remove_workload a u).
Proof.
  intros [Hw Hs Hu Hsh Hkn] Hcase. unfold DiscoveryStore.remove_internal, remove_workload.
  pose proof (WorkloadStoreFacts.remove_spec (DiscoveryStore.workloads d) u Hw) as Hrem.
  destruct (WorkloadStore.remove _ u) as [ws prev] eqn:Er.
  destruct Hrem as (Hw' & Hu' & ->). rewrite Hu in Hu' |- *.
  destruct (a_workloads a !! u) as [p|] eqn:Hp.
  - assert (Workload.uid p = u) as Hpu.
    { rewrite <-Hu in Hp. by apply (WorkloadStoreFacts.wf_uid _ Hw). }
    destruct (ServiceStoreFacts.remove_endpoint_spec (DiscoveryStore.services d) p Hs) as [Hs' Hspec].
    split; simpl; [done|done|done| |]; intros n; destruct (Hspec n) as [Hsh' Hkn'].
    + by rewrite Hsh'.
    + by rewrite Hkn', Hpu, Hkn.
  - destruct Hcase as [[? ?]| ->]; [done|].
    split; simpl; [done|done| |done|done]. by rewrite Hu', delete_id.
Qed.

Lemma insert_workload_refines d a w svcs ns :
  refines d a →
  try_map NamespacedHostname.from_str (hm_iter svcs).*1 = Ok ns →
  refines (DiscoveryStore.insert_workload_value d w svcs) (insert_workload a w svcs).
Proof.
  intros Hr Hns. unfold DiscoveryStore.insert_workload_value, DiscoveryStore.remove_workload_for_insert.
  pose proof (remove_workload_refines d a (Workload.uid w) true Hr (or_intror eq_refl)) as Hr1.
  set (d1 := DiscoveryStore.remove_internal d _ true) in *.
  unfold insert_workload. set (a1 := remove_workload a _) in *. destruct Hr1 as [Hw Hs Hu Hsh Hkn].
  destruct (WorkloadStoreFacts.insert_spec (DiscoveryStore.workloads d1) w Hw) as [Hw' Hu'].
  unfold ServiceStore.insert_endpoint_for_services.
  destruct (insert_endpoints_spec w (hm_iter svcs) (DiscoveryStore.services d1) Hs)
    as (s' & -> & Hs' & Hspec).
  { rewrite (fmap_Permutation fst _ _ (hm_iter_perm svcs)). apply NoDup_fst_map_to_list. }
  { apply try_map_Ok in Hns. apply Forall_forall. intros k [i Hi]%list_elem_of_lookup.
    destruct (Forall2_lookup_l _ _ _ _ _ Hns Hi) as (n & _ & ->). done. }
  assert (list_to_map (hm_iter svcs) = svcs) as Hmap by apply list_to_map_hm_iter.
  split; cbn [DiscoveryStore.workloads DiscoveryStore.services a_workloads a_service a_endpoints fst];
    [done|done|by rewrite Hu', Hu| |]; intros n; destruct (Hspec n) as [Hsh' Hkn'].
  - by rewrite Hsh'.
  - by rewrite Hkn', Hmap, Hsh, Hkn.
Qed.

(** ** Services *)

Lemma insert_service_refines d a svc :
  refines d a → ServiceStoreFacts.endpoints_ok svc →
  refines (DiscoveryStore.insert_service_internal d svc) (insert_service a svc).
Proof.
  intros [Hw Hs Hu Hsh Hkn] Hok. unfold DiscoveryStore.insert_service_internal.
  set (n0 := Service.namespaced_hostname svc).
  change (ServiceStore.get_by_namespaced_host (DiscoveryStore.services d) n0) with
    (ServiceStoreFacts.view (DiscoveryStore.services d) n0).
  set (S := DiscoveryStore.services d) in *.
  set (svc1 := match ServiceStoreFacts.view S n0 with Some _ => _ | None => _ end).
  set (eps := match ServiceStoreFacts.view S n0 with Some prev => Service.endpoints prev | None => ∅ end).
  assert (svc1 = Service.set_endpoints svc (accepted svc eps ∪ Service.endpoints svc)) as Hsvc1.
  { unfold svc1, eps. destruct (ServiceStoreFacts.view S n0) as [prev|] eqn:Hv.
    - rewrite <-ServiceStoreFacts.include_endpoints_iter. f_equal.
      unfold hm_values. rewrite <-list_fmap_compose. rewrite <-(list_fmap_id (hm_iter _)) at 2.
      apply list_fmap_ext. intros i [u ep] Hi. simpl. f_equal.
      apply (ServiceStoreFacts.wf_endpoints S Hs n0 prev Hv). apply elem_of_hm_iter.
      by eapply list_elem_of_lookup_2.
    - unfold accepted. rewrite map_filter_empty, (left_id_L ∅ (∪)).
      by rewrite ServiceStoreFacts.set_endpoints_id. }
  assert (ServiceStoreFacts.endpoints_ok svc1) as Hok1.
  { rewrite Hsvc1. apply ServiceStoreFacts.accepted_ok; [done|]. intros u ep. unfold eps.
    destruct (ServiceStoreFacts.view S n0) as [prev|] eqn:Hv; [|done].
    intros Hep. by apply (ServiceStoreFacts.wf_endpoints S Hs n0 prev Hv). }
  assert (Service.namespaced_hostname svc1 = n0) as Hn1 by (by rewrite Hsvc1).
  destruct (ServiceStoreFacts.insert_service_spec S svc1 Hs Hok1) as (Hs' & Hst' & Hv').
  rewrite Hn1 in Hst', Hv'.
  assert (ServiceStoreFacts.with_staged S svc1 =
    Service.set_endpoints svc (accepted svc (known S n0) ∪ Service.endpoints svc)) as Hfin.
  { unfold ServiceStoreFacts.with_staged, known. rewrite Hn1.
    destruct (ServiceStore.staged_services S !! n0) as [st|] eqn:Est.
    - destruct (ServiceStoreFacts.wf_staged S Hs n0 st Est) as [Hv _]. unfold svc1. by rewrite Hv.
    - rewrite Hsvc1. unfold eps. by destruct (ServiceStoreFacts.view S n0). }
  split; simpl; [done|done|done| |]; intros n; fold n0; unfold shell, known; rewrite Hv', ?Hst', Hfin;
    (destruct (decide (n0 = n)) as [<-|Hne]; simpl; [try done; by rewrite <-Hkn|]); [apply Hsh|].
  rewrite lookup_delete_ne by done. rewrite <-Hkn. done.
Qed.

Lemma remove_service_refines d a n :
  refines d a →
  refines (DiscoveryStore.mk (DiscoveryStore.workloads d)
             (ServiceStore.remove (DiscoveryStore.services d) n).1) (remove_service a n).
Proof.
  intros [Hw Hs Hu Hsh Hkn]. pose proof (ServiceStoreFacts.service_removed _ n Hs) as Hrem.
  destruct (ServiceStore.remove _ n) as [s' b]. destruct Hrem as (Hs' & _ & Hv' & _ & Hst').
  unfold remove_service. rewrite <-Hsh. unfold shell at 1.
  destruct (ServiceStoreFacts.view (DiscoveryStore.services d) n) as [prev|] eqn:Hv; simpl.
  - split; simpl; [done|done|done| |]; intros n'; unfold shell, known; rewrite Hv', ?Hst';
      (destruct (decide (n = n')) as [<-|Hne]; [by rewrite ?lookup_delete_eq|]); [apply Hsh|].
    rewrite lookup_delete_ne by done. rewrite <-Hkn. done.
  - assert (∀ n', ServiceStoreFacts.view s' n' = ServiceStoreFacts.view (DiscoveryStore.services d) n')
      as Hsame by (intros n'; rewrite Hv'; by case_decide; subst).
    split; simpl; [done|done|done| |]; intros n'; unfold shell, known; rewrite Hsame, ?Hst'.
    + apply Hsh.
    + rewrite <-Hkn. done.
Qed.

(** ** The handler's messages *)

Lemma Workload_try_from_services p w svcs :
  Workload_try_from p = Ok (w, svcs) →
  try_map NamespacedHostname.from_str (hm_iter svcs).*1 = Ok (Workload.services w).
Proof.
  unfold Workload_try_from. rewrite and_then_Ok. intros (wp & _ & H).
  rewrite and_then_Ok in H. destruct H as (gw & _ & H).
  rewrite and_then_Ok in H. destruct H as (ad & _ & H). cbv zeta in H.
  rewrite and_then_Ok in H. destruct H as (names & Hn & H).
  repeat (rewrite and_then_Ok in H; destruct H as (? & _ & H)). by simplify_eq.
Qed.

Lemma Service_try_from_endpoints p svc : Service_try_from p = Ok svc → Service.endpoints svc = ∅.
Proof.
  unfold Service_try_from. intros H.
  repeat (rewrite and_then_Ok in H; destruct H as (? & _ & H)). by simplify_eq.
Qed.

Lemma no_endpoints_ok svc : Service.endpoints svc = ∅ → ServiceStoreFacts.endpoints_ok svc.
Proof. intros E u ep. by rewrite E. Qed.

Lemma insert_address_refines d a m :
  refines d a → refines (DiscoveryStore.insert_address d m).1 (insert_address a m).
Proof.
  intros Hr. destruct m as [w|s|]; simpl; [| |done].
  - unfold DiscoveryStore.insert_workload. destruct (Workload_try_from w) as [[w' svcs]|] eqn:E; [|done].
    eapply insert_workload_refines; [done|]. by eapply Workload_try_from_services.
  - unfold DiscoveryStore.insert_service. destruct (Service_try_from s) as [svc|] eqn:E; [|done].
    apply insert_service_refines; [done|]. by eapply no_endpoints_ok, Service_try_from_endpoints.
Qed.

Lemma remove_refines d a name : refines d a → refines (DiscoveryStore.remove d name) (remove a name).
Proof.
  intros Hr. unfold DiscoveryStore.remove, remove. destruct (a_workloads a !! name) as [w|] eqn:Hw.
  - apply remove_workload_refines; [done|]. left. by rewrite Hw.
  - unfold DiscoveryStore.remove_internal.
    pose proof (WorkloadStoreFacts.remove_spec (DiscoveryStore.workloads d) name (ref_workloads _ _ Hr)) as Hrem.
    assert (WorkloadStore.remove (DiscoveryStore.workloads d) name = (DiscoveryStore.workloads d, None)) as ->.
    { unfold WorkloadStore.remove. by rewrite (ref_by_uid _ _ Hr), Hw. }
    assert (DiscoveryStore.mk (DiscoveryStore.workloads d) (DiscoveryStore.services d) = d) as ->
      by (by destruct d).
    destruct (NamespacedHostname.from_str name) as [n|]; [|done].
    destruct (Str.contains_char _ _); [done|]. by apply remove_service_refines.
Qed.

(** ** Invariants of the abstract store *)

Lemma no_dangling_new : no_dangling new.
Proof. done. Qed.

Lemma remove_workload_no_dangling a u : no_dangling a → no_dangling (remove_workload a u).
Proof.
  intros Ha. unfold remove_workload. destruct (a_workloads a !! u) as [w|] eqn:Hw; [|done].
  intros n u' ep. simpl. intros Hep.
  assert (a_endpoints a n !! u' = Some ep ∧ (n ∈ Workload.services w → u ≠ u')) as [Hep' Hne].
  { case_decide; [|done]. by apply lookup_delete_Some in Hep as [? ?]. }
  destruct (Ha n u' ep Hep') as (w' & Hw' & Hin & Hu'). exists w'. split_and!; [|done|done].
  rewrite lookup_delete_ne; [done|]. intros ->. simplify_eq. by apply Hne.
Qed.

(** A removed workload has no endpoint left, staged or not. *)
Lemma remove_workload_no_endpoint a u n : no_dangling a → a_endpoints (remove_workload a u) n !! u = None.
Proof.
  intros Ha. apply eq_None_not_Some. intros [ep Hep]. unfold remove_workload in Hep.
  destruct (a_workloads a !! u) as [w|] eqn:Hw; simpl in Hep.
  - case_decide as Hn; [by rewrite lookup_delete_eq in Hep|].
    destruct (Ha n u ep Hep) as (w' & Hw' & ? & _). by simplify_eq.
  - destruct (Ha n u ep Hep) as (w' & Hw' & ? & _). by simplify_eq.
Qed.

Lemma insert_workload_no_dangling a w svcs :
  (∀ n, is_Some (ports_for svcs n) → n ∈ Workload.services w) →
  no_dangling a → no_dangling (insert_workload a w svcs).
Proof.
  intros Hsvcs Ha. unfold insert_workload.
  pose proof (λ n, remove_workload_no_endpoint a (Workload.uid w) n Ha) as Hgone.
  pose proof (remove_workload_no_dangling a (Workload.uid w) Ha) as Ha1.
  set (a1 := remove_workload a _) in *. intros n u ep. simpl.
  assert (a_endpoints a1 n !! u = Some ep →
    ∃ w0, <[Workload.uid w := w]> (a_workloads a1) !! u = Some w0 ∧
      n ∈ Workload.services w0 ∧ Endpoint.workload_uid ep = u) as Hold.
  { intros Hep. destruct (Ha1 n u ep Hep) as (w0 & ? & ? & ?). exists w0. split_and!; [|done|done].
    rewrite lookup_insert_ne; [done|]. intros <-. by rewrite Hgone in Hep. }
  destruct (ports_for svcs n) as [ports|] eqn:Hp; [|done].
  unfold add_endpoint. destruct (accepts _ _); [|done].
  intros [[<- <-]|[_ ?]]%lookup_insert_Some; [|by apply Hold].
  exists w. rewrite lookup_insert_eq. split_and!; [done|by apply Hsvcs|done].
Qed.

Lemma insert_service_no_dangling a svc :
  Service.endpoints svc = ∅ → no_dangling a → no_dangling (insert_service a svc).
Proof.
  intros Hsvc Ha n u ep. simpl. rewrite Hsvc, (right_id_L ∅ (∪)).
  case_decide as E; [|by apply Ha]. subst n.
  intros [? _]%map_lookup_filter_Some. by apply Ha.
Qed.

Lemma remove_service_no_dangling a n : no_dangling a → no_dangling (remove_service a n).
Proof.
  intros Ha. unfold remove_service. destruct (a_service a n); [|done].
  intros n' u ep. simpl. case_decide; [done|]. by apply Ha.
Qed.

Lemma Workload_try_from_listed p w svcs n :
  Workload_try_from p = Ok (w, svcs) → is_Some (ports_for svcs n) → n ∈ Workload.services w.
Proof.
  intros Hw [ports Hp]. apply Workload_try_from_services in Hw as Hns. apply try_map_Ok in Hns.
  unfold ports_for in Hp. destruct (Str.contains_char _ _) eqn:Hc; [done|].
  assert (NamespacedHostname.fmt n ∈ (hm_iter svcs).*1) as [i Hi]%list_elem_of_lookup.
  { apply list_elem_of_fmap. exists (NamespacedHostname.fmt n, ports). split; [done|].
    by apply elem_of_hm_iter. }
  destruct (Forall2_lookup_l _ _ _ _ _ Hns Hi) as (n' & Hi' & Hn').
  assert (NamespacedHostname.from_str (NamespacedHostname.fmt n) = Ok n) as Hn
    by (by apply NamespacedHostname_from_str_Ok).
  rewrite Hn in Hn'. simplify_eq. by eapply list_elem_of_lookup_2.
Qed.

Lemma insert_address_no_dangling a m : no_dangling a → no_dangling (insert_address a m).
Proof.
  intros Ha. destruct m as [p|p|]; simpl; [| |done].
  - destruct (Workload_try_from p) as [[w svcs]|] eqn:E; [|done].
    apply insert_workload_no_dangling; [|done]. intros n. by eapply Workload_try_from_listed.
  - destruct (Service_try_from p) as [svc|] eqn:E; [|done].
    apply insert_service_no_dangling; [|done]. by eapply Service_try_from_endpoints.
Qed.

Lemma remove_no_dangling a name : no_dangling a → no_dangling (remove a name).
Proof.
  intros Ha. unfold remove. destruct (a_workloads a !! name); [by apply remove_workload_no_dangling|].
  destruct (NamespacedHostname.from_str name) as [n|]; [|done].
  destruct (Str.contains_char _ _); [done|]. by apply remove_service_no_dangling.
Qed.

End ops.
End DiscoveryRefinement.

(** * Runs of the xDS handler *)

Section runs.
Context `{!HashIter string Endpoint.t, !HashIter string (list Proto.Port)}.
Context `{!SetIter NamespacedHostname.t, !SetIter string, !HashIter N N}.
Context (error_text : DiscoveryStore.Error → string).

(** [StoreUpdater::handle] under the lock. *)
Definition handle_one (state : DiscoveryStore.t) (res : XdsUpdate DiscoveryStore.XdsAddress)
    : DiscoveryStore.t * result () string :=
  match res with
  | Update w =>
    let '(state, r) := DiscoveryStore.insert_address state (xr_resource w) in
    (state, map_err error_text r)
  | Remove name => (DiscoveryStore.remove state name, Ok ())
  end.

Definition handle (state : DiscoveryStore.t) (updates : list (XdsUpdate DiscoveryStore.XdsAddress))
    : DiscoveryStore.t * result () (list RejectedConfig) :=
  handle_single_resource state updates handle_one.

(** The store after a sequence of responses. *)
Definition run (responses : list (list (XdsUpdate DiscoveryStore.XdsAddress))) : DiscoveryStore.t :=
  foldl (λ s us, (handle s us).1) DiscoveryStore.new responses.

Definition spec_step (a : DiscoverySpec.t) (res : XdsUpdate DiscoveryStore.XdsAddress) : DiscoverySpec.t :=
  match res with
  | Update w => DiscoverySpec.insert_address a (xr_resource w)
  | Remove name => DiscoverySpec.remove a name
  end.

Definition spec_run (responses : list (list (XdsUpdate DiscoveryStore.XdsAddress))) : DiscoverySpec.t :=
  foldl (λ a us, foldl spec_step a us) DiscoverySpec.new responses.

Lemma handle_one_refines d a res :
  DiscoveryRefinement.refines d a → DiscoveryRefinement.refines (handle_one d res).1 (spec_step a res).
Proof.
  intros Hr. destruct res as [w|name]; simpl; [|by apply DiscoveryRefinement.remove_refines].
  pose proof (DiscoveryRefinement.insert_address_refines d a (xr_resource w) Hr) as H.
  by destruct (DiscoveryStore.insert_address d (xr_resource w)).
Qed.

Lemma run_refines_from responses d a :
  DiscoveryRefinement.refines d a →
  DiscoveryRefinement.refines (foldl (λ s us, (handle s us).1) d responses)
    (foldl (λ a us, foldl spec_step a us) a responses).
Proof.
  revert d a. induction responses as [|us rs IH]; intros d a Hr; simpl; [done|]. apply IH.
  unfold handle. rewrite handle_single_resource_state.
  revert d a Hr. induction us as [|u us IHus]; intros d a Hr; simpl; [done|].
  apply IHus. by apply handle_one_refines.
Qed.

Lemma run_refines responses : DiscoveryRefinement.refines (run responses) (spec_run responses).
Proof. apply run_refines_from, DiscoveryRefinement.refines_new. Qed.

Lemma spec_run_no_dangling responses : DiscoverySpec.no_dangling (spec_run responses).
Proof.
  unfold spec_run. generalize DiscoveryRefinement.no_dangling_new. generalize DiscoverySpec.new.
  induction responses as [|us rs IH]; intros a Ha; simpl; [done|]. apply IH.
  revert a Ha. induction us as [|u us IHus]; intros a Ha; simpl; [done|]. apply IHus.
  destruct u; simpl; [by apply DiscoveryRefinement.insert_address_no_dangling|
                      by apply DiscoveryRefinement.remove_no_dangling].
Qed.

(** ** Order of arrival *)

Import DiscoverySpec.

Lemma accepted_delete svc eps u : accepted svc (delete u eps) = delete u (accepted svc eps).
Proof. apply map_filter_delete. Qed.

Lemma accepted_add svc ep eps :
  eps !! Endpoint.workload_uid ep = None →
  accepted svc (<[Endpoint.workload_uid ep := ep]> eps) =
  add_endpoint (Some (bare svc)) ep (accepted svc eps).
Proof.
  intros Hnone. unfold add_endpoint, accepted. simpl.
  change (Service.should_include_endpoint (bare svc)) with (Service.should_include_endpoint svc).
  destruct (Service.should_include_endpoint svc (Endpoint.status ep)) eqn:E.
  - by rewrite map_filter_insert_True.
  - rewrite map_filter_insert_False by (by rewrite E). by rewrite delete_id.
Qed.

Lemma spec_workload_service_commute a w svcs svc :
  no_dangling a → a_service a (Service.namespaced_hostname svc) = None → Service.endpoints svc = ∅ →
  equiv (insert_service (insert_workload a w svcs) svc) (insert_workload (insert_service a svc) w svcs).
Proof.
  intros Ha Hnone Heps. set (n := Service.namespaced_hostname svc) in *.
  pose proof (DiscoveryRefinement.remove_workload_no_endpoint a (Workload.uid w) n Ha) as Hgone.
  assert (a_workloads (remove_workload a (Workload.uid w)) =
          a_workloads (remove_workload (insert_service a svc) (Workload.uid w))) as Ew.
  { unfold remove_workload. simpl. by destruct (a_workloads a !! _). }
  assert (∀ n', a_service (remove_workload a (Workload.uid w)) n' = a_service a n') as Hsame.
  { intros n'. unfold remove_workload. by destruct (a_workloads a !! _). }
  split_and!; simpl.
  - by rewrite Ew.
  - intros n'. fold n. unfold remove_workload. simpl. by destruct (a_workloads a !! _).
  - intros n'. fold n. rewrite Heps, (right_id_L ∅ (∪)), !Hsame, Hnone.
    destruct (decide (n = n')) as [<-|Hne].
    + transitivity (match ports_for svcs n with
        | Some ports => add_endpoint (Some (bare svc)) (endpoint_of w ports)
            (accepted svc (a_endpoints (remove_workload a (Workload.uid w)) n))
        | None => accepted svc (a_endpoints (remove_workload a (Workload.uid w)) n) end).
      { destruct (ports_for svcs n); [|done]. by apply accepted_add. }
      unfold remove_workload. simpl.
      destruct (a_workloads a !! Workload.uid w); simpl; fold n;
        rewrite ?(decide_True (P := n = n)) by done;
        rewrite Heps, (right_id_L ∅ (∪)); [|done].
      destruct (decide (n ∈ _)); [|done]. by rewrite accepted_delete.
    + unfold remove_workload. simpl. destruct (a_workloads a !! Workload.uid w); simpl; fold n;
        by rewrite ?(decide_False (P := n = n')) by done.
Qed.

Lemma Service_try_from_name p svc :
  Service_try_from p = Ok svc →
  Service.namespaced_hostname svc =
  {| NamespacedHostname.namespace := Proto.s_namespace p;
     NamespacedHostname.hostname := Proto.s_hostname p |}.
Proof.
  unfold Service_try_from. intros H.
  repeat (rewrite and_then_Ok in H; destruct H as (? & _ & H)). by simplify_eq.
Qed.

Lemma view_spec d a n :
  DiscoveryRefinement.refines d a →
  ServiceStore.get_by_namespaced_host (DiscoveryStore.services d) n =
  (λ svc, Service.set_endpoints svc (a_endpoints a n)) <$> a_service a n.
Proof.
  intros Hr. change (ServiceStore.get_by_namespaced_host ?s n) with (ServiceStoreFacts.view s n).
  rewrite ServiceStoreFacts.view_shell.
  by rewrite (DiscoveryRefinement.ref_shell d a Hr), (DiscoveryRefinement.ref_known d a Hr).
Qed.

(** * Theorems *)

(** An endpoint of a service in a reachable store. *)
Lemma endpoint_workload responses n svc u ep :
  let d := run responses in
  ServiceStore.get_by_namespaced_host (DiscoveryStore.services d) n = Some svc →
  Service.endpoints svc !! u = Some ep →
  Service.should_include_endpoint svc (Endpoint.status ep) = true ∧ Endpoint.workload_uid ep = u ∧
  ∃ w, WorkloadStore.find_uid (DiscoveryStore.workloads d) u = Some w ∧ n ∈ Workload.services w.
Proof.
  intros d Hv Hep. pose proof (run_refines responses) as Hr.
  pose proof (spec_run_no_dangling responses) as Hnd. fold d in Hr.
  destruct Hr as [Hw Hs Hu Hsh Hkn]. split; [by eapply (ServiceStoreFacts.wf_endpoints _ Hs)|].
  assert (a_endpoints (spec_run responses) n !! u = Some ep) as Ha.
  { rewrite <-Hkn. unfold known. change (ServiceStoreFacts.view (DiscoveryStore.services d) n = Some svc) in Hv.
    by rewrite Hv. }
  destruct (Hnd n u ep Ha) as (w & ? & ? & ?). split; [done|]. exists w.
  unfold WorkloadStore.find_uid. by rewrite Hu.
Qed.

(** C1: the discovery store implements its specification: after any sequence of
    xDS responses, with whatever hash-table iteration orders, its tables show
    exactly the workloads, services and endpoints (staged ones included) of the
    abstract store that processed the same updates, and all its indexes are
    consistent. *)
Theorem discovery_refinement responses :
  DiscoveryRefinement.refines (run responses) (spec_run responses).
Proof. apply run_refines. Qed.

(** C31: in every store the xDS handler can reach, each endpoint of a service is
    accepted by the service and belongs to a present workload that lists it; a
    virtual IP leads to a service that claims it and is the one found by name;
    endpoints are staged only for services that are absent; and a workload is
    filed under its own uid. *)
Theorem discovery_consistent responses :
  let d := run responses in
  let services := DiscoveryStore.services d in
  (∀ n svc u ep, ServiceStore.get_by_namespaced_host services n = Some svc →
     Service.endpoints svc !! u = Some ep →
     Service.should_include_endpoint svc (Endpoint.status ep) = true ∧
     ∃ w, WorkloadStore.find_uid (DiscoveryStore.workloads d) u = Some w ∧ n ∈ Workload.services w) ∧
  (∀ a svc, ServiceStore.get_by_vip services a = Some svc →
     a ∈ Service.vips svc ∧
     ServiceStore.get_by_namespaced_host services (Service.namespaced_hostname svc) = Some svc) ∧
  (∀ n eps, ServiceStore.staged_services services !! n = Some eps →
     ServiceStore.get_by_namespaced_host services n = None) ∧
  (∀ u w, WorkloadStore.find_uid (DiscoveryStore.workloads d) u = Some w → Workload.uid w = u).
Proof.
  intros d services. pose proof (run_refines responses) as Hr. fold d in Hr.
  destruct Hr as [Hw Hs Hu Hsh Hkn]. split_and!.
  - intros n svc u ep Hv Hep. by destruct (endpoint_workload responses n svc u ep) as (? & _ & ?).
  - apply (ServiceStoreFacts.wf_vip _ Hs).
  - intros n eps Hst. by apply (ServiceStoreFacts.wf_staged _ Hs n eps).
  - apply (WorkloadStoreFacts.wf_uid _ Hw).
Qed.

(** A workload and a service that is not known yet can arrive in either
    order: all lookups of workloads by uid and of services by name (endpoints
    included) agree afterwards, also when one of the two is rejected. *)
Theorem discovery_arrival_order responses pw ps :
  let d := run responses in
  ServiceStore.get_by_namespaced_host (DiscoveryStore.services d)
    {| NamespacedHostname.namespace := Proto.s_namespace ps;
       NamespacedHostname.hostname := Proto.s_hostname ps |} = None →
  let ins m d := (DiscoveryStore.insert_address d m).1 in
  let d1 := ins (DiscoveryStore.AddrService ps) (ins (DiscoveryStore.AddrWorkload pw) d) in
  let d2 := ins (DiscoveryStore.AddrWorkload pw) (ins (DiscoveryStore.AddrService ps) d) in
  (∀ u, WorkloadStore.find_uid (DiscoveryStore.workloads d1) u =
        WorkloadStore.find_uid (DiscoveryStore.workloads d2) u) ∧
  ∀ n, ServiceStore.get_by_namespaced_host (DiscoveryStore.services d1) n =
       ServiceStore.get_by_namespaced_host (DiscoveryStore.services d2) n.
Proof.
  intros d Hnone ins d1 d2. pose proof (run_refines responses) as Hr. fold d in Hr.
  set (a := spec_run responses) in *.
  assert (DiscoveryRefinement.refines d1
    (insert_address (insert_address a (DiscoveryStore.AddrWorkload pw)) (DiscoveryStore.AddrService ps))) as Hr1
    by (by do 2 apply DiscoveryRefinement.insert_address_refines).
  assert (DiscoveryRefinement.refines d2
    (insert_address (insert_address a (DiscoveryStore.AddrService ps)) (DiscoveryStore.AddrWorkload pw))) as Hr2
    by (by do 2 apply DiscoveryRefinement.insert_address_refines).
  assert (equiv
    (insert_address (insert_address a (DiscoveryStore.AddrWorkload pw)) (DiscoveryStore.AddrService ps))
    (insert_address (insert_address a (DiscoveryStore.AddrService ps)) (DiscoveryStore.AddrWorkload pw)))
    as (Ew & Es & Ee).
  { simpl. destruct (Workload_try_from pw) as [[w svcs]|]; [|done].
    destruct (Service_try_from ps) as [svc|] eqn:Eps; [|done].
    apply spec_workload_service_commute.
    - apply spec_run_no_dangling.
    - rewrite (view_spec d a _ Hr) in Hnone. apply fmap_None in Hnone.
      by rewrite (Service_try_from_name _ _ Eps).
    - by eapply DiscoveryRefinement.Service_try_from_endpoints. }
  split.
  - intros u. unfold WorkloadStore.find_uid.
    by rewrite (DiscoveryRefinement.ref_by_uid _ _ Hr1), (DiscoveryRefinement.ref_by_uid _ _ Hr2), Ew.
  - intros n. by rewrite (view_spec _ _ n Hr1), (view_spec _ _ n Hr2), Es, Ee.
Qed.
End runs.

(** ** Examples *)

Module DiscoveryExamples.

#[local] Existing Instance hm_iter_default.
#[local] Existing Instance hs_iter_default.

Definition proto_workload (uid svc : string) : Proto.Workload :=
  Proto.mkWorkload uid uid "ns" ["abcd"] "" "" 0 "" "" None None "" "" "" 0 ""
    {[ svc := [Proto.mkPort 80 8080 0] ]} [] 0 "" None 0 None.

Definition proto_service (hostname : string) (vips : list (string * string)) : Proto.Service :=
  Proto.mkService hostname "ns" hostname vips [Proto.mkPort 80 8080 0] [] None None 0.

Definition host (hostname : string) : NamespacedHostname.t :=
  {| NamespacedHostname.namespace := "ns"; NamespacedHostname.hostname := hostname |}.

Definition endpoint_uids (d : DiscoveryStore.t) (n : NamespacedHostname.t) : option (list string) :=
  (λ svc, (map_to_list (Service.endpoints svc)).*1) <$>
    ServiceStore.get_by_namespaced_host (DiscoveryStore.services d) n.

Lemma discovery_arrival_order_witness :
  let d1 := (DiscoveryStore.insert_address
    (DiscoveryStore.insert_address (run (λ _, "") []) (DiscoveryStore.AddrWorkload (proto_workload "w" "ns/a.com"))).1
    (DiscoveryStore.AddrService (proto_service "a.com" []))).1 in
  let d2 := (DiscoveryStore.insert_address
    (DiscoveryStore.insert_address (run (λ _, "") []) (DiscoveryStore.AddrService (proto_service "a.com" []))).1
    (DiscoveryStore.AddrWorkload (proto_workload "w" "ns/a.com"))).1 in
  endpoint_uids d1 (host "a.com") = Some ["w"] ∧
  ServiceStore.get_by_namespaced_host (DiscoveryStore.services d1) (host "a.com") =
  ServiceStore.get_by_namespaced_host (DiscoveryStore.services d2) (host "a.com").
Proof.
  split; [vm_compute; reflexivity|].
  apply (discovery_arrival_order (λ _, "") [] (proto_workload "w" "ns/a.com") (proto_service "a.com" [])).
  vm_compute. reflexivity.
Defined.

(** Removing a service removes it from the lookup by name and all its virtual
    IPs from the lookup by address, whichever service they led to; every other
    lookup is unchanged, and the result tells whether the service existed. So a
    virtual IP shared with a service that stays is lost for that one too. *)
Theorem service_remove s n :
  ServiceStoreFacts.wf s →
  let s' := (ServiceStore.remove s n).1 in
  ServiceStoreFacts.wf s' ∧
  (ServiceStore.remove s n).2 = bool_decide (is_Some (ServiceStore.get_by_namespaced_host s n)) ∧
  (∀ n', ServiceStore.get_by_namespaced_host s' n' =
     if decide (n = n') then None else ServiceStore.get_by_namespaced_host s n') ∧
  ∀ a, ServiceStore.get_by_vip s' a =
     match ServiceStore.get_by_namespaced_host s n with
     | Some prev => if decide (a ∈ Service.vips prev) then None else ServiceStore.get_by_vip s a
     | None => ServiceStore.get_by_vip s a
     end.
Proof.
  intros Hwf s'. pose proof (ServiceStoreFacts.service_removed s n Hwf) as H. unfold s'.
  destruct (ServiceStore.remove s n) as [s1 b]. destruct H as (? & ? & ? & ? & _). done.
Qed.

Definition shared_vip_store : DiscoveryStore.t :=
  run (λ _, "") [[
    Update {| xr_name := "ns/a.com";
              xr_resource := DiscoveryStore.AddrService (proto_service "a.com" [("", "abcd")]) |};
    Update {| xr_name := "ns/b.com";
              xr_resource := DiscoveryStore.AddrService (proto_service "b.com" [("", "abcd")]) |}]].

(** Removing [a.com] takes the shared address from [b.com], which stays. *)
Lemma service_remove_witness :
  let s := DiscoveryStore.services shared_vip_store in
  let vip := network_addr "" (V4 "abcd") in
  let s' := (ServiceStore.remove s (host "a.com")).1 in
  Service.hostname <$> ServiceStore.get_by_vip s vip = Some "b.com" ∧
  Service.vips <$> ServiceStore.get_by_namespaced_host s' (host "b.com") = Some [vip] ∧
  ServiceStore.get_by_vip s' vip = None.
Proof.
  intros s vip s'. split_and!; [vm_compute; reflexivity|vm_compute; reflexivity|].
  assert (ServiceStoreFacts.wf s) as Hwf.
  { apply (DiscoveryRefinement.ref_services _ _ (run_refines (λ _, "") _)). }
  destruct (service_remove s (host "a.com") Hwf) as (_ & _ & _ & Hvip).
  unfold s'. rewrite Hvip. vm_compute. reflexivity.
Defined.

(** A workload of a local file: the key [services] is read into the field of
    [LocalWorkload], so the [services] of the flattened [Workload] is its default,
    the empty list. *)
Definition local_workload (uid svc : string) : DiscoveryStore.LocalWorkload :=
  {| DiscoveryStore.lw_workload := example_workload uid [V4 "abcd"] TCP;
     DiscoveryStore.lw_services := {[ svc := {[ 80%N := 8080%N ]} ]} |}.

Definition local_service : Service.t :=
  match Service_try_from (proto_service "a.com" []) with
  | Ok svc => svc
  | Err _ => Service.mk "" "" "" [] ∅ ∅ ∅ [] None None None
  end.

Definition no_previous : DiscoveryStore.PreviousState :=
  {| DiscoveryStore.ps_workloads := ∅; DiscoveryStore.ps_services := ∅ |}.

(** The local source: a workload that a new version of the file no longer
    lists is removed, but its endpoint stays in the service, which then refers to
    a workload that does not exist. *)
Theorem sync_local_stale_endpoint :
  let '(d1, p1) := DiscoveryStore.sync_local DiscoveryStore.new [local_service]
                     [local_workload "w" "ns/a.com"] no_previous in
  let '(d2, _) := DiscoveryStore.sync_local d1 [local_service] [] p1 in
  endpoint_uids d1 (host "a.com") = Some ["w"] ∧
  WorkloadStore.find_uid (DiscoveryStore.workloads d2) "w" = None ∧
  endpoint_uids d2 (host "a.com") = Some ["w"].
Proof. vm_compute. done. Qed.

End DiscoveryExamples.
