(* ===== verification/Routing.v ===== *)
(** Routing: how a request finds its listener and its route:
    [ListenerSet] of [types/agent.rs] and [select_best_route] of
    [http/route.rs].

    [select_best_route] walks the host name candidates of the request from the
    most to the least specific one and, for each, the matches of the route table
    in precedence order; the theorem says that what it returns is the best match
    of the first host name that has any. *)
From S2P Require Import Prelude Strs Http DiscoveryTypes AgentTypes RouteSet Discovery.

(** * Listeners *)

Record Listener := {
  l_key : string;
  l_name : string;
  l_gateway_name : string;
  l_hostname : string;
  l_protocol : ListenerProtocol;
  l_routes : RouteSet.t;
  l_tcp_routes : TCPRouteSet.t
}.

Module ListenerSet.

Definition t : Type := gmap string Listener.

Definition from_list (l : list Listener) : t := foldl (λ m ls, <[l_key ls := ls]> m) ∅ l.

(** A stable sort by a key: [Itertools::sorted_by_key]. *)
Fixpoint insert_by {A} (key : A → Z) (x : A) (l : list A) : list A :=
  match l with
  | [] => [x]
  | y :: l' => if decide (key x ≤ key y)%Z then x :: l else y :: insert_by key x l'
  end.

Definition sorted_by_key {A} (key : A → Z) (l : list A) : list A := foldr (insert_by key) [] l.

(** [l.hostname.starts_with("*") && host.ends_with(&l.hostname[1..])] *)
Definition wildcard_matches (host : string) (l : Listener) : bool :=
  match Str.strip_prefix "*" (l_hostname l) with
  | Some suffix => Str.ends_with suffix host
  | None => false
  end.

Section iter.
Context `{!HashIter string Listener}.

Definition best_match (self : t) (host : string) : option Listener :=
  match find (λ l, Str.eqb (l_hostname l) host) (hm_values self) with
  | Some best => Some best
  | None =>
    match find (wildcard_matches host)
            (sorted_by_key (λ l, - Z.of_nat (Str.len (l_hostname l)))%Z (hm_values self)) with
    | Some best => Some best
    | None => find (λ l, Str.eqb (l_hostname l) "") (hm_values self)
    end
  end.

Definition get_exactly_one (self : t) : result Listener string :=
  if decide (size self ≠ 1) then Err "expecting only one listener for TCP"
  else ok_or (snd <$> head (hm_iter self)) "expecting one listener".
End iter.

Definition insert (self : t) (v : Listener) : t := <[l_key v := v]> self.
Definition contains (self : t) (k : string) : bool := RouteSet.is_some (self !! k).
Definition get (self : t) (k : string) : option Listener := self !! k.
Definition remove (self : t) (k : string) : t * option Listener := (delete k self, self !! k).

End ListenerSet.

Record Bind := { b_key : string; b_address : SocketAddr; b_listeners : ListenerSet.t }.

(** * Matching one request *)

(** The first item that satisfies [p]; items after it are not computed. *)
Fixpoint find_lazy {A} (p : A → bool) (l : list (comp A)) : comp (option A) :=
  match l with
  | [] => Ret None
  | c :: l => x ← c; if p x then Ret (Some x) else find_lazy p l
  end.

Section matching.
Context `{HeaderMapOps}.
(** [HeaderValue::to_str(..).ok()] and [form_urlencoded::parse]. *)
Context (to_str : string → option string).
Context (form_urlencoded_parse : string → list (string * string)).

Definition path_matches (path : string) (m : PathMatch) : bool :=
  match m with
  | PathExact p => Str.eqb path p
  | PathRegex r _ => regex_full_match r path
  | PathPrefix p =>
    let p := Str.trim_end_matches "/" p in
    match Str.strip_prefix p (Str.trim_end_matches "/" path) with
    | None => false
    | Some suffix => Str.eqb suffix "" || Str.starts_with "/" suffix
    end
  end.

Definition header_matches (headers : HeaderMap) (h : HeaderMatch) : bool :=
  match hdr_get headers (hm_name h) with
  | None => false
  | Some have =>
    match hm_value h with
    | HVExact want => Str.eqb have want
    | HVRegex want =>
      match to_str have with
      | None => false
      | Some have => regex_full_match want have
      end
    end
  end.

(** [collect::<HashMap<_, _>>()]: the last pair of a name wins. *)
Definition query_map (query : option string) : gmap string string :=
  match query with
  | Some q => foldl (λ m '(k, v), <[k := v]> m) ∅ (form_urlencoded_parse q)
  | None => ∅
  end.

Definition query_matches (query : gmap string string) (q : QueryMatch) : bool :=
  match query !! qm_name q with
  | None => false
  | Some have =>
    match qm_value q with
    | QVExact want => Str.eqb have want
    | QVRegex want => regex_full_match want have
    end
  end.

Definition request_matches (request : Request) (m : RouteMatch) : bool :=
  if negb (path_matches (uri_path (req_uri request)) (rm_path m)) then false
  else if match rm_method m with
          | Some method => negb (Str.eqb (req_method request) method)
          | None => false
          end then false
  else if negb (forallb (header_matches (req_headers request)) (rm_headers m)) then false
  else
    let query := query_map (uri_query (req_uri request)) in
    forallb (query_matches query) (rm_query m).

(** The loop over the host name candidates. *)
Fixpoint search_hosts (routes : RouteSet.t) (request : Request) (hnms : list HostnameMatch.t)
    : comp (option (Route * PathMatch)) :=
  match hnms with
  | [] => Ret None
  | hnm :: hnms =>
    best_match ← find_lazy (λ '(_, m), request_matches request m) (RouteSet.get_hostname routes hnm);
    match best_match with
    | Some (route, matcher) => Ret (Some (route, rm_path matcher))
    | None => search_hosts routes request hnms
    end
  end.

Definition default_route (svc : Service.t) (port : N) : Route :=
  {| route_key := "waypoint-default"; route_name := "waypoint-default"; route_rule_name := None;
     route_hostnames := []; route_matches := []; route_filters := [];
     route_backends := [{| rbr_weight := 1%N;
                           rbr_backend := BRService (Service.namespaced_hostname svc) port;
                           rbr_filters := [] |}];
     route_policies := None |}.

(** A waypoint without routes sends a request for the virtual IP of a service
    bound to it to that service. *)
Definition waypoint_route (services : ServiceStore.t) (network : string) (self_addr : option string)
    (dst : SocketAddr) : option (Route * PathMatch) :=
  self_addr ← self_addr;
  svc ← ServiceStore.get_by_vip services (network_addr network (sa_ip dst));
  wp ← Service.waypoint svc;
  match destination wp with
  | DestAddress _ => None
  | DestHostname n =>
    if Str.eqb (NamespacedHostname.hostname n) self_addr
    then Some (default_route svc (sa_port dst), PathPrefix "/")
    else None
  end.

Definition is_hbone (p : ListenerProtocol) : bool := match p with LPHBONE => true | _ => false end.

Definition select_best_route (services : ServiceStore.t) (network : string) (self_addr : option string)
    (dst : SocketAddr) (listener : Listener) (request : Request) : comp (option (Route * PathMatch)) :=
  host ← get_host request;
  match host with
  | Err _ => Ret None
  | Ok host =>
    if is_hbone (l_protocol listener) && RouteSet.is_empty (l_routes listener)
    then Ret (waypoint_route services network self_addr dst)
    else search_hosts (l_routes listener) request (HostnameMatch.all_matches host)
  end.
End matching.

(** * Lemmas *)

Lemma find_lazy_Ret {A} (p : A → bool) l : find_lazy p (Ret <$> l) = Ret (find p l).
Proof. induction l as [|x l IH]; csimpl; [done|]. by destruct (p x). Qed.

(** The first hit of a sorted list is a least one. *)
Lemma find_sorted {A} (p : A → bool) (R : A → A → Prop) l x :
  StronglySorted R l → find p l = Some x →
  ∀ y, y ∈ l → p y = true → y = x ∨ R x y.
Proof.
  induction l as [|z l IH]; simpl; [done|]. intros [Hz Hs]%StronglySorted_cons.
  destruct (p z) eqn:Hpz.
  - intros [= ->] y [->|Hy]%elem_of_cons _; [by left|right]. rewrite Forall_forall in Hz. by apply Hz.
  - intros Hf y [->|Hy]%elem_of_cons Hpy; [congruence|]. by apply IH.
Qed.

Section search.
Context `{HeaderMapOps} (to_str : string → option string).
Context (form_urlencoded_parse : string → list (string * string)).

Abbreviation rmatches := (request_matches to_str form_urlencoded_parse).

(** A route of the table that serves the host name and matches the request. *)
Definition serves (rs : RouteSet.t) (request : Request) (h : HostnameMatch.t) (r : Route) (m : RouteMatch)
    : Prop :=
  RouteSet.all rs !! route_key r = Some r ∧ h ∈ RouteSet.hostname_matchers r ∧ m ∈ route_matches r ∧
  rmatches request m = true.

Lemma search_hosts_spec rs request hnms :
  RouteSet.wf rs →
  ∃ o, search_hosts to_str form_urlencoded_parse rs request hnms = Ret o ∧
    match o with
    | None => ∀ h r m, h ∈ hnms → ¬ serves rs request h r m
    | Some (r, path) => ∃ pre h post m,
        hnms = pre ++ h :: post ∧ serves rs request h r m ∧ path = rm_path m ∧
        (∀ h' r' m', h' ∈ pre → ¬ serves rs request h' r' m') ∧
        ∀ r' m', serves rs request h r' m' →
          RouteSet.compare_route (m, route_key r) (m', route_key r') ≠ Gt
    end.
Proof.
  intros Hwf. induction hnms as [|h hnms IH]; cbn [search_hosts].
  { eexists. split; [done|]. set_solver. }
  rewrite RouteSet.get_hostname_listed by done. rewrite find_lazy_Ret, comp_bind_ret_l.
  destruct (find _ (RouteSet.listed rs h)) as [[r m]|] eqn:Hf.
  - eexists. split; [done|]. exists [], h, hnms, m.
    apply find_Some_elem in Hf as Hin. destruct Hin as [Hin Hm].
    apply RouteSet.elem_of_listed in Hin as (? & ? & ?); [|done].
    split_and!; [done|done|done|set_solver|]. intros r' m' (Hr' & Hh' & Hm' & Hp').
    assert ((r', m') ∈ RouteSet.listed rs h) as Hin' by (by apply RouteSet.elem_of_listed).
    destruct (find_sorted _ _ _ _ (RouteSet.listed_sorted rs h Hwf) Hf (r', m') Hin' Hp') as [[= -> ->]|Hle].
    + by rewrite (cmp_refl RouteSet.compare_route).
    + exact Hle.
  - assert (∀ r m, ¬ serves rs request h r m) as Hnone.
    { intros r m (Hr & Hh & Hm & Hp). assert ((r, m) ∈ RouteSet.listed rs h) as Hin
        by (by apply RouteSet.elem_of_listed).
      rewrite find_None in Hf. specialize (Hf _ Hin). simpl in Hf. congruence. }
    destruct IH as (o & -> & Ho). exists o. split; [done|]. destruct o as [[r path]|].
    + destruct Ho as (pre & h0 & post & m & -> & Hs & -> & Hpre & Hbest).
      exists (h :: pre), h0, post, m. split_and!; [done..| |done].
      intros h' r' m' [->|?]%elem_of_cons; [apply Hnone|by apply Hpre].
    + intros h' r m [->|?]%elem_of_cons; [apply Hnone|by apply Ho].
Qed.
End search.

(** ** Sorting *)

Lemma insert_by_elem {A} (key : A → Z) x l y :
  y ∈ ListenerSet.insert_by key x l ↔ y = x ∨ y ∈ l.
Proof.
  induction l as [|z l IH]; simpl; [set_solver|]. case_decide; set_solver.
Qed.

Lemma insert_by_sorted {A} (key : A → Z) x l :
  StronglySorted (λ a b, (key a ≤ key b)%Z) l →
  StronglySorted (λ a b, (key a ≤ key b)%Z) (ListenerSet.insert_by key x l).
Proof.
  induction l as [|y l IH]; simpl; [by repeat constructor|].
  intros [Hy Hs]%StronglySorted_cons. rewrite Forall_forall in Hy. case_decide.
  - constructor; [by constructor; [|by apply Forall_forall]|]. apply Forall_forall.
    intros z [->|Hz]%elem_of_cons; [done|]. specialize (Hy z Hz). lia.
  - constructor; [by apply IH|]. apply Forall_forall. intros z [->|Hz]%insert_by_elem; [lia|by apply Hy].
Qed.

Lemma sorted_by_key_spec {A} (key : A → Z) l :
  StronglySorted (λ a b, (key a ≤ key b)%Z) (ListenerSet.sorted_by_key key l) ∧
  ∀ x, x ∈ ListenerSet.sorted_by_key key l ↔ x ∈ l.
Proof.
  induction l as [|x l [IHs IHe]]; simpl; [split; [constructor|done]|].
  split; [by apply insert_by_sorted|]. intros y. rewrite insert_by_elem, IHe. set_solver.
Qed.

(** * Theorems *)

(** Choosing a listener. Whatever the iteration order, [best_match] returns a
    listener with exactly the host name if there is one; otherwise one whose
    wildcard covers the host and is the longest such wildcard; otherwise one
    without a host name; and nothing only if no listener is of these kinds. *)
Theorem listener_best_match `{!HashIter string Listener} (ls : ListenerSet.t) host :
  let exact l := l_hostname l = host in
  let wild l := ∃ suffix pre, l_hostname l = "*" +:+ suffix ∧ host = pre +:+ suffix in
  let present l := ∃ k, ls !! k = Some l in
  match ListenerSet.best_match ls host with
  | Some l => present l ∧
      (exact l ∨
       (∀ l', present l' → ¬ exact l') ∧
       (wild l ∧ (∀ l', present l' → wild l' → Str.len (l_hostname l') ≤ Str.len (l_hostname l)) ∨
        (∀ l', present l' → ¬ wild l') ∧ l_hostname l = ""))
  | None => ∀ l, present l → ¬ exact l ∧ ¬ wild l ∧ l_hostname l ≠ ""
  end.
Proof.
  intros exact wild present.
  assert (∀ l, ListenerSet.wildcard_matches host l = true ↔ wild l) as Hwild.
  { intros l. unfold ListenerSet.wildcard_matches, wild.
    destruct (Str.strip_prefix "*" (l_hostname l)) as [sfx|] eqn:E.
    - apply Str.strip_prefix_Some in E. rewrite Str.ends_with_spec, E. split.
      + intros [pre ->]. eauto.
      + intros (sfx' & pre & Heq & ->). change (String "*" sfx = String "*" sfx') in Heq.
        simplify_eq. eauto.
    - split; [done|]. intros (sfx & pre & Heq & _). apply Str.strip_prefix_Some in Heq. congruence. }
  unfold ListenerSet.best_match.
  destruct (find _ (hm_values ls)) as [l|] eqn:E1.
  { apply find_Some_elem in E1 as [Hin Hl]. apply elem_of_hm_values in Hin.
    apply Str.eqb_eq in Hl. split; [done|by left]. }
  assert (∀ l, present l → ¬ exact l) as Hno.
  { intros l Hl He. rewrite find_None in E1. apply elem_of_hm_values in Hl. specialize (E1 l Hl).
    rewrite (proj2 (Str.eqb_eq _ _) He) in E1. done. }
  clear E1. set (sorted := ListenerSet.sorted_by_key _ _).
  destruct (sorted_by_key_spec (λ l, (- Z.of_nat (Str.len (l_hostname l)))%Z) (hm_values ls)) as [Hs He].
  fold sorted in Hs, He.
  destruct (find (ListenerSet.wildcard_matches host) sorted) as [l|] eqn:E2.
  { apply find_Some_elem in E2 as Hl. destruct Hl as [Hin Hl]. apply He, elem_of_hm_values in Hin.
    split; [done|]. right. split; [done|]. left. split; [by apply Hwild|]. intros l' Hl' Hw'.
    apply elem_of_hm_values, He in Hl'. apply Hwild in Hw'.
    destruct (find_sorted _ _ _ _ Hs E2 l' Hl' Hw') as [->|?]; lia. }
  assert (∀ l, present l → ¬ wild l) as Hnow.
  { intros l Hl Hw. rewrite find_None in E2. apply elem_of_hm_values, He in Hl. specialize (E2 l Hl).
    apply Hwild in Hw. congruence. }
  destruct (find _ (hm_values ls)) as [l|] eqn:E3.
  - apply find_Some_elem in E3 as [Hin Hl]. apply elem_of_hm_values in Hin. apply Str.eqb_eq in Hl.
    split; [done|]. right. split; [done|]. right. done.
  - intros l Hl. split_and!; [by apply Hno|by apply Hnow|]. intros He'. rewrite find_None in E3.
    apply elem_of_hm_values in Hl. specialize (E3 l Hl).
    rewrite (proj2 (Str.eqb_eq _ _) He') in E3. done.
Qed.

(** A path prefix matches by whole segments: exactly the paths whose segments,
    trailing slashes aside, start with the segments of the prefix. *)
Theorem path_prefix_segments path p :
  path_matches path (PathPrefix p) = true ↔
  Str.split "/" (Str.trim_end_matches "/" p) `prefix_of` Str.split "/" (Str.trim_end_matches "/" path).
Proof.
  rewrite Str.split_prefix. unfold path_matches.
  set (p' := Str.trim_end_matches "/" p). set (q := Str.trim_end_matches "/" path).
  destruct (Str.strip_prefix p' q) as [sfx|] eqn:E.
  - apply Str.strip_prefix_Some in E. rewrite E, orb_true_iff, Str.eqb_eq, Str.starts_with_spec. split.
    + intros [->|[r ->]]; [left; by rewrite Str.app_nil_r|right]. by exists r.
    + intros [Heq|[r Heq]].
      * left. rewrite <-(Str.app_nil_r p') in Heq at 2. by apply (inj (String.app p')) in Heq.
      * right. apply (inj (String.app p')) in Heq. by exists r.
  - split; [done|]. intros [Hq|[r Hq]].
    + rewrite Hq in E.
      assert (Str.strip_prefix p' p' = Some "") as E' by (apply Str.strip_prefix_Some; by rewrite Str.app_nil_r).
      congruence.
    + apply Str.strip_prefix_Some in Hq. congruence.
Qed.

(** C2: route selection. With a consistent route table, selecting a route for a
    request with a host never panics. It returns a route of the table, and the
    path of one of its matches, that serves the first of the host's name
    candidates (exact, then wildcards from the longest, then any) for which some
    route matches the request, and no matching route of that candidate has
    precedence over it; it returns nothing only when no route of any candidate
    matches. *)
Theorem select_best_route_best `{HeaderMapOps} to_str form_urlencoded_parse
    services network self_addr dst listener request host :
  RouteSet.wf (l_routes listener) →
  get_host request = Ret (Ok host) →
  is_hbone (l_protocol listener) && RouteSet.is_empty (l_routes listener) = false →
  let rs := l_routes listener in
  let serves := serves to_str form_urlencoded_parse rs request in
  ∃ o, select_best_route to_str form_urlencoded_parse services network self_addr dst listener request = Ret o ∧
    match o with
    | None => ∀ h r m, h ∈ HostnameMatch.all_matches host → ¬ serves h r m
    | Some (r, path) => ∃ pre h post m,
        HostnameMatch.all_matches host = pre ++ h :: post ∧ serves h r m ∧ path = rm_path m ∧
        (∀ h' r' m', h' ∈ pre → ¬ serves h' r' m') ∧
        ∀ r' m', serves h r' m' →
          RouteSet.compare_route (m, route_key r) (m', route_key r') ≠ Gt
    end.
Proof.
  intros Hwf Hhost Hb rs sv. unfold select_best_route. rewrite Hhost, comp_bind_ret_l, Hb.
  by apply search_hosts_spec.
Qed.

Definition example_routes : RouteSet.t :=
  match RouteSet.from_list [example_route "a" ["*.x.com"] ["/"]; example_route "b" ["*.x.com"] ["/api"]] with
  | Ret rs => rs
  | Panic => RouteSet.default_set
  end.

Lemma example_routes_wf : RouteSet.wf example_routes.
Proof.
  unfold example_routes, RouteSet.from_list.
  destruct (RouteSet.foldM_insert_wf
    [example_route "a" ["*.x.com"] ["/"]; example_route "b" ["*.x.com"] ["/api"]] RouteSet.default_set)
    as (rs & -> & Hwf & _); [apply RouteSet.wf_default| |done|done].
  apply (bool_decide_unpack _). vm_compute. exact I.
Qed.

Definition example_listener (p : ListenerProtocol) (rs : RouteSet.t) : Listener :=
  {| l_key := "l"; l_name := "l"; l_gateway_name := "gw"; l_hostname := ""; l_protocol := p;
     l_routes := rs; l_tcp_routes := TCPRouteSet.default_set |}.

Definition example_request (host path : string) : @Request gmap_headers :=
  @Build_Request gmap_headers "GET"
    {| uri_scheme := Some "http"; uri_authority := Some host; uri_path_and_query := Some path;
       uri_host := Some host; uri_port := None; uri_path := path; uri_query := None |}
    (∅ : gmap string (list string)) "" None.

Definition example_dst : SocketAddr := {| sa_ip := V4 "abcd"; sa_port := 80 |}.

Definition example_select (path : string) : comp (option (Route * PathMatch)) :=
  select_best_route (H := gmap_headers) (λ s, Some s) (λ _, []) ServiceStore.empty "" None example_dst
    (example_listener LPHTTP example_routes) (example_request "foo.x.com:8080" path).

(** [/api/v1] goes to the more specific route, and the theorem's conclusion holds
    of it. *)
Lemma select_best_route_best_witness :
  (∃ r p, example_select "/api/v1" = Ret (Some (r, p)) ∧ route_key r = "b") ∧
  ∃ o, example_select "/api/v1" = Ret o.
Proof.
  split.
  - eexists _, _. split; [vm_compute; reflexivity|reflexivity].
  - destruct (select_best_route_best (H := gmap_headers) (λ s, Some s) (λ _, [])
      ServiceStore.empty "" None example_dst (example_listener LPHTTP example_routes)
      (example_request "foo.x.com:8080" "/api/v1") "foo.x.com") as (o & Ho & _).
    + apply example_routes_wf.
    + reflexivity.
    + reflexivity.
    + exists o. exact Ho.
Defined.

(** A waypoint without routes answers only requests for a virtual IP of a
    service whose waypoint is this gateway, by host name, and sends them to that
    service on the destination port. *)
Theorem waypoint_default_route `{HeaderMapOps} to_str form_urlencoded_parse
    services network self_addr dst listener request host r path :
  get_host request = Ret (Ok host) →
  is_hbone (l_protocol listener) = true → RouteSet.is_empty (l_routes listener) = true →
  select_best_route to_str form_urlencoded_parse services network self_addr dst listener request =
    Ret (Some (r, path)) ↔
  ∃ svc wp n, ServiceStore.get_by_vip services (network_addr network (sa_ip dst)) = Some svc ∧
    Service.waypoint svc = Some wp ∧ destination wp = DestHostname n ∧
    self_addr = Some (NamespacedHostname.hostname n) ∧
    r = default_route svc (sa_port dst) ∧ path = PathPrefix "/".
Proof.
  intros Hhost Hh He. unfold select_best_route. rewrite Hhost, comp_bind_ret_l, Hh, He. simpl.
  unfold waypoint_route. destruct self_addr as [self|]; simpl; [|split; [done|]; intros (?&?&?&?&?&?&?&?&?); congruence].
  destruct (ServiceStore.get_by_vip _ _) as [svc|]; simpl; [|split; [done|]; intros (?&?&?&?&?&?&?&?&?); congruence].
  destruct (Service.waypoint svc) as [wp|] eqn:Hwp; simpl; [|split; [done|]; intros (?&?&?&?&?&?&?&?&?); congruence].
  destruct (destination wp) as [a|n] eqn:Hd; [split; [done|]; intros (?&?&?&?&?&?&?&?&?); congruence|].
  destruct (Str.eqb _ self) eqn:E.
  - apply Str.eqb_eq in E as <-. naive_solver.
  - split; [done|]. intros (svc' & wp' & n' & ? & ? & ? & ? & _). simplify_eq.
    assert (Str.eqb (NamespacedHostname.hostname n') (NamespacedHostname.hostname n') = true)
      by (by apply Str.eqb_eq). congruence.
Qed.

Definition waypoint_service : Service.t :=
  Service.mk "a" "ns" "a.com" [network_addr "" (V4 "abcd")] ∅ ∅ ∅ []
    (Some {| destination := DestHostname {| NamespacedHostname.namespace := "ns";
                                            NamespacedHostname.hostname := "wp.com" |};
             hbone_mtls_port := 15008 |}) None None.

Lemma waypoint_default_route_witness :
  select_best_route (H := gmap_headers) (λ s, Some s) (λ _, [])
    (ServiceStore.mk ∅ {[ network_addr "" (V4 "abcd") := waypoint_service ]} ∅) "" (Some "wp.com") example_dst
    (example_listener LPHBONE RouteSet.default_set) (example_request "a.com" "/") =
  Ret (Some (default_route waypoint_service 80, PathPrefix "/")).
Proof.
  apply (waypoint_default_route (H := gmap_headers) (λ s, Some s) (λ _, [])
    (ServiceStore.mk ∅ {[ network_addr "" (V4 "abcd") := waypoint_service ]} ∅) "" (Some "wp.com") example_dst
    (example_listener LPHBONE RouteSet.default_set) (example_request "a.com" "/") "a.com");
    [reflexivity..|].
  eexists waypoint_service, _, _. split_and!; reflexivity.
Defined.
