(* ===== verification/Filters.v ===== *)
(** Filters: the route filters of [http/filters.rs] and the CORS filter of
    [http/cors.rs], on the requests and responses of Http.

    The parsers and the builder of the [http] crate are an interface
    ([HttpParsers]): which texts are header names, header values, authorities
    and paths is the crate's business; what the gateway does with the outcome is
    modelled in full. *)
From S2P Require Import Prelude Strs Http DiscoveryTypes AgentTypes Routing.

(** * Loops that stop at an error *)

(** [for x in l { f(s, x)?; }] on a mutable [s]: the mutations made before the
    error stay. *)
Fixpoint try_each {S A E} (f : S → A → S * result () E) (l : list A) (s : S) : S * result () E :=
  match l with
  | [] => (s, Ok ())
  | x :: l =>
    match f s x with
    | (s, Ok _) => try_each f l s
    | (s, Err e) => (s, Err e)
    end
  end.

Definition and_also {S E} (r : S * result () E) (k : S → S * result () E) : S * result () E :=
  match r with (s, Ok _) => k s | (s, Err e) => (s, Err e) end.

(** * The [http] crate's parsers *)

(** [HeaderName_from_bytes] normalises the case; a header value and an authority
    are kept as they are when accepted; [PathAndQuery_try_from] drops a fragment
    and reads an empty path as [/]; [Uri_build] fails with a message. *)
Class HttpParsers := {
  HeaderName_from_bytes : string → option string;
  HeaderValue_from_str : string → option string;
  Authority_try_from : string → option string;
  PathAndQuery_try_from : string → option string;
  Method_from_str : string → option string;
  Uri_build : string → string → string → result Uri string;
  Uri_to_string : Uri → string
}.

Inductive FilterError :=
| InvalidURI
| InvalidHTTPURI
| InvalidHeaderName
| InvalidHeaderValue
| InvalidFilterConfiguration (msg : string)
| HttpError.

(** * Header modifiers *)

Section header_modifier.
Context `{!HeaderMapOps, !HttpParsers}.

Definition append_header (headers : HeaderMap) (kv : string * string) : HeaderMap * result () FilterError :=
  match HeaderName_from_bytes kv.1 with
  | None => (headers, Err InvalidHeaderName)
  | Some k =>
    match HeaderValue_from_str kv.2 with
    | None => (headers, Err InvalidHeaderValue)
    | Some v => (hdr_append headers k v, Ok ())
    end
  end.

Definition set_header (headers : HeaderMap) (kv : string * string) : HeaderMap * result () FilterError :=
  match HeaderName_from_bytes kv.1 with
  | None => (headers, Err InvalidHeaderName)
  | Some k =>
    match HeaderValue_from_str kv.2 with
    | None => (headers, Err InvalidHeaderValue)
    | Some v => (hdr_insert headers k v, Ok ())
    end
  end.

Definition remove_header (headers : HeaderMap) (k : string) : HeaderMap * result () FilterError :=
  match HeaderName_from_bytes k with
  | None => (headers, Err InvalidHeaderName)
  | Some k => (hdr_remove headers k, Ok ())
  end.

Definition HeaderModifier_apply (self : HeaderModifier) (headers : HeaderMap)
    : HeaderMap * result () FilterError :=
  and_also (try_each append_header (add self) headers) (λ headers,
  and_also (try_each set_header (set self) headers) (λ headers,
  try_each remove_header (remove self) headers)).
End header_modifier.

(** * Redirects and rewrites *)

Definition HTTP : string := "http".
Definition HTTPS : string := "https".

Definition port_respecting_default (scheme : string) (port : N) : option N :=
  if Str.eqb scheme HTTP && bool_decide (port = 80%N) then None
  else if Str.eqb scheme HTTPS && bool_decide (port = 443%N) then None
  else Some port.

Section rewrites.
Context `{!HeaderMapOps, !HttpParsers}.

Definition parse_authority (s : string) : result string FilterError :=
  ok_or (Authority_try_from s) InvalidHTTPURI.

Definition parse_path (s : string) : result string FilterError :=
  ok_or (PathAndQuery_try_from s) InvalidHTTPURI.

(** [format!("{h}:{p}")] *)
Definition host_port (h : string) (p : N) : string := h +:+ ":" +:+ Str.display_nat p.

Definition rewrite_host (rewrite : option HostRedirect) (orig : Uri)
    (original_scheme : option string) (new_scheme : string) : result string FilterError :=
  match rewrite with
  | None => ok_or (uri_authority orig) InvalidURI
  | Some (HostFull hp) => parse_authority hp
  | Some (HostHost h) =>
    if decide (original_scheme = Some HTTP ∨ original_scheme = Some HTTPS) then parse_authority h
    else
      match uri_port orig ≫= port_respecting_default new_scheme with
      | Some p => parse_authority (host_port h p)
      | None => parse_authority h
      end
  | Some (HostPort p) =>
    match port_respecting_default new_scheme p with
    | Some p =>
      if decide (Some p ≠ uri_port orig)
      then let? h := ok_or (uri_host orig) InvalidURI in parse_authority (host_port h p)
      else ok_or (uri_authority orig) InvalidURI
    | None =>
      match uri_port orig with
      | Some _ => let? h := ok_or (uri_host orig) InvalidURI in parse_authority h
      | None => ok_or (uri_authority orig) InvalidURI
      end
    end
  end.

(** [if let Some(q) = orig.query() { new_path.push('?'); new_path.push_str(q) }] *)
Definition push_query (path : string) (query : option string) : string :=
  match query with Some q => path +:+ "?" +:+ q | None => path end.

Definition rewrite_path (rewrite : option PathRedirect) (path_match : PathMatch) (orig : Uri)
    : comp (result string FilterError) :=
  match rewrite with
  | None => Ret (ok_or (uri_path_and_query orig) InvalidURI)
  | Some (PRFull r) => Ret (parse_path (push_query r (uri_query orig)))
  | Some (PRPrefix r) =>
    match path_match with
    | PathPrefix match_pfx =>
      '(_, rest) ← Str.split_at (Str.len match_pfx) (uri_path orig);
      let new_path := if negb (Str.is_empty rest) && negb (Str.starts_with "/" rest)
                      then r +:+ "/" else r in
      Ret (parse_path (push_query (new_path +:+ rest) (uri_query orig)))
    | _ => Ret (Err (InvalidFilterConfiguration "prefix redirect requires prefix match"))
    end
  end.

(** [StatusCode::FOUND], [StatusCode::OK] *)
Definition FOUND : Z := 302.
Definition OK : Z := 200.

Definition RequestRedirect_apply (self : RequestRedirect) (req : Request) (path_match : PathMatch)
    : comp (result Response FilterError) :=
  let orig := req_uri req in
  let new_scheme :=
    default HTTP (match rr_scheme self with Some s => Some s | None => uri_scheme orig end) in
  match rewrite_host (rr_authority self) orig (rr_scheme self) new_scheme with
  | Err e => Ret (Err e)
  | Ok authority =>
    path_and_query ← rewrite_path (rr_path self) path_match orig;
    Ret (let? path_and_query := path_and_query in
         let? new := map_err (λ _, HttpError) (Uri_build new_scheme authority path_and_query) in
         let? location := ok_or (HeaderValue_from_str (Uri_to_string new)) HttpError in
         Ok {| resp_status := default FOUND (rr_status self);
               resp_headers := hdr_append hdr_new "location" location;
               resp_body := "" |})
  end.

Definition with_uri (req : Request) (uri : Uri) : Request :=
  {| req_method := req_method req; req_uri := uri; req_headers := req_headers req;
     req_body := req_body req; req_original_url := req_original_url req |}.

Definition with_original_url (req : Request) (orig : Uri) : Request :=
  {| req_method := req_method req; req_uri := req_uri req; req_headers := req_headers req;
     req_body := req_body req; req_original_url := Some orig |}.

Definition with_headers (req : Request) (headers : HeaderMap) : Request :=
  {| req_method := req_method req; req_uri := req_uri req; req_headers := headers;
     req_body := req_body req; req_original_url := req_original_url req |}.

(** The original URL is recorded before anything can fail. *)
Definition UrlRewrite_apply (self : UrlRewrite) (req : Request) (path_match : PathMatch)
    : comp (Request * result () FilterError) :=
  let orig := req_uri req in
  let req := with_original_url req orig in
  let scheme := default HTTP (uri_scheme orig) in
  match rewrite_host (ur_authority self) orig (Some scheme) scheme with
  | Err e => Ret (req, Err e)
  | Ok new_authority =>
    path_and_query ← rewrite_path (ur_path self) path_match orig;
    Ret match path_and_query with
        | Err e => (req, Err e)
        | Ok path_and_query =>
          match Uri_build scheme new_authority path_and_query with
          | Err msg => (req, Err (InvalidFilterConfiguration msg))
          | Ok new => (with_uri req new, Ok ())
          end
        end
  end.

Definition DirectResponse_apply (self : DirectResponse) : Response :=
  {| resp_status := dr_status self; resp_headers := hdr_new; resp_body := dr_body self |}.
End rewrites.

(** * CORS *)

Section cors.
Context `{!HeaderMapOps, !HttpParsers}.

Definition WildcardOrList_try_from {A} (from_str : string → option A) (value : list string)
    : option (WildcardOrList A) :=
  if decide ("*" ∈ value) then Some WWildcard
  else match value with
       | [] => Some WNone
       | _ => WList <$> mapM from_str value
       end.

(** Header names, methods and origins display as their text. *)
Definition to_header_value (w : WildcardOrList string) : option string :=
  match w with
  | WNone => None
  | WWildcard => Some "*"
  | WList l => HeaderValue_from_str (Str.join "," l)
  end.

(** [max_age] is a duration in nanoseconds. *)
Record CorsSerde := {
  cs_allow_credentials : bool;
  cs_allow_headers : list string;
  cs_allow_methods : list string;
  cs_allow_origins : list string;
  cs_expose_headers : list string;
  cs_max_age : option N
}.

Definition as_secs (nanos : N) : N := (nanos / 1000000000)%N.

Definition Cors_try_from (value : CorsSerde) : option Cors :=
  allow_headers ← WildcardOrList_try_from HeaderName_from_bytes (cs_allow_headers value);
  allow_methods ← WildcardOrList_try_from Method_from_str (cs_allow_methods value);
  allow_origins ← WildcardOrList_try_from Some (cs_allow_origins value);
  expose_headers ← WildcardOrList_try_from HeaderName_from_bytes (cs_expose_headers value);
  max_age ← match cs_max_age value with
            | Some v => Some <$> HeaderValue_from_str (Str.display_nat (as_secs v))
            | None => Some None
            end;
  Some {| allow_credentials := cs_allow_credentials value; allow_headers := allow_headers;
          allow_methods := allow_methods; allow_origins := allow_origins;
          expose_headers := expose_headers; max_age := max_age |}.

Record CorsResponse := {
  cors_direct_response : option Response;
  cors_response_headers : option HeaderMap
}.

Definition CorsResponse_default : CorsResponse :=
  {| cors_direct_response := None; cors_response_headers := None |}.

Definition origin_allowed (self : Cors) (origin : string) : bool :=
  match allow_origins self with
  | WNone => false
  | WWildcard => true
  | WList origins => existsb (λ want, Str.eqb want origin) origins
  end.

(** [if let Some(h) = o { m.insert(name, h) }], and the builder's [header]. *)
Definition insert_some (name : string) (o : option string) (m : HeaderMap) : HeaderMap :=
  match o with Some h => hdr_insert m name h | None => m end.
Definition append_some (name : string) (o : option string) (m : HeaderMap) : HeaderMap :=
  match o with Some h => hdr_append m name h | None => m end.

Definition preflight_response (self : Cors) (origin : string) : Response :=
  {| resp_status := OK;
     resp_headers :=
       append_some "access-control-max-age" (max_age self)
         (append_some "access-control-allow-headers" (to_header_value (allow_headers self))
            (append_some "access-control-allow-methods" (to_header_value (allow_methods self))
               (hdr_append hdr_new "access-control-allow-origin" origin)));
     resp_body := "" |}.

Definition actual_headers (self : Cors) (origin : string) : HeaderMap :=
  insert_some "access-control-expose-headers" (to_header_value (expose_headers self))
    (insert_some "access-control-allow-credentials"
       (if allow_credentials self then Some "true" else None)
       (hdr_insert hdr_new "access-control-allow-origin" origin)).

Definition Cors_apply (self : Cors) (req : Request) : CorsResponse :=
  match hdr_get (req_headers req) "origin" with
  | None => CorsResponse_default
  | Some origin =>
    if negb (origin_allowed self origin) then CorsResponse_default
    else if Str.eqb (req_method req) "OPTIONS"
    then {| cors_direct_response := Some (preflight_response self origin);
            cors_response_headers := None |}
    else {| cors_direct_response := None;
            cors_response_headers := Some (actual_headers self origin) |}
  end.
End cors.

(** * Theorems *)

(** ** Header modifiers *)

Section header_modifier_facts.
Context `{!HeaderMapOps, !HeaderMapLaws, !HttpParsers}.

Definition valid_pair (kv : string * string) : Prop :=
  is_Some (HeaderName_from_bytes kv.1) ∧ is_Some (HeaderValue_from_str kv.2).

(** The values that a list of pairs gives to the header [k]. *)
Definition values_of (k : string) (l : list (string * string)) : list string :=
  omap (λ kv, if decide (HeaderName_from_bytes kv.1 = Some k) then HeaderValue_from_str kv.2 else None) l.

(** What one step of each loop does, and when it succeeds. *)
Lemma append_header_step h kv h' r :
  append_header h kv = (h', r) →
  (r = Ok () ↔ valid_pair kv) ∧
  (r = Ok () → ∃ k v, HeaderName_from_bytes kv.1 = Some k ∧ HeaderValue_from_str kv.2 = Some v ∧
     h' = hdr_append h k v).
Proof.
  unfold append_header, valid_pair. intros E. repeat case_match; simplify_eq/=;
    (split; [|naive_solver]); rewrite !is_Some_alt; naive_solver.
Qed.

Lemma set_header_step h kv h' r :
  set_header h kv = (h', r) →
  (r = Ok () ↔ valid_pair kv) ∧
  (r = Ok () → ∃ k v, HeaderName_from_bytes kv.1 = Some k ∧ HeaderValue_from_str kv.2 = Some v ∧
     h' = hdr_insert h k v).
Proof.
  unfold set_header, valid_pair. intros E. repeat case_match; simplify_eq/=;
    (split; [|naive_solver]); rewrite !is_Some_alt; naive_solver.
Qed.

Lemma remove_header_step h n h' r :
  remove_header h n = (h', r) →
  (r = Ok () ↔ is_Some (HeaderName_from_bytes n)) ∧
  (r = Ok () → ∃ k, HeaderName_from_bytes n = Some k ∧ h' = hdr_remove h k).
Proof.
  unfold remove_header. intros E. repeat case_match; simplify_eq/=;
    (split; [|naive_solver]); rewrite !is_Some_alt; naive_solver.
Qed.

(** A loop of such steps: it succeeds when every item is valid, and then a
    property that each step establishes holds at the end. *)
Lemma try_each_spec {S A E} (f : S → A → S * result () E) (valid : A → Prop)
    (I : list A → S → Prop) l s :
  (∀ s x s' r, f s x = (s', r) → r = Ok () ↔ valid x) →
  (∀ d s x s', f s x = (s', Ok ()) → I d s → I (d ++ [x]) s') →
  I [] s →
  ((try_each f l s).2 = Ok () ↔ Forall valid l) ∧
  ((try_each f l s).2 = Ok () → I l (try_each f l s).1).
Proof.
  intros Hv Hstep. cut (∀ d s, I d s → ((try_each f l s).2 = Ok () ↔ Forall valid l) ∧
    ((try_each f l s).2 = Ok () → I (d ++ l) (try_each f l s).1)).
  { intros Hc. apply (Hc []). }
  induction l as [|x l IH]; intros d s0 Hd; simpl; [by rewrite app_nil_r|].
  rewrite Forall_cons. destruct (f s0 x) as [s' [[]|e]] eqn:Ef.
  - rewrite <-(Hv _ _ _ _ Ef). rewrite (cons_middle x d l), (assoc_L (++)).
    destruct (IH (d ++ [x]) s') as [Hok HI]; [by eapply Hstep|]. naive_solver.
  - rewrite <-(Hv _ _ _ _ Ef). naive_solver.
Qed.

Lemma try_each_append l h :
  ((try_each append_header l h).2 = Ok () ↔ Forall valid_pair l) ∧
  ((try_each append_header l h).2 = Ok () →
   ∀ k, hdr_get_all (try_each append_header l h).1 k = hdr_get_all h k ++ values_of k l).
Proof.
  apply (try_each_spec _ _ (λ l h', ∀ k, hdr_get_all h' k = hdr_get_all h k ++ values_of k l)).
  - intros. by eapply append_header_step.
  - intros d s kv s' (_ & (k0 & v & Hk & Hv & ->)%(λ H, H eq_refl))%append_header_step HI k.
    rewrite hdr_get_all_append, HI. unfold values_of. rewrite omap_app, (assoc_L (++)). f_equal.
    simpl. rewrite Hk, Hv. repeat case_decide; simplify_eq; done.
  - intros k. by rewrite app_nil_r.
Qed.

Lemma try_each_set l h :
  ((try_each set_header l h).2 = Ok () ↔ Forall valid_pair l) ∧
  ((try_each set_header l h).2 = Ok () →
   ∀ k, hdr_get_all (try_each set_header l h).1 k =
     match last (values_of k l) with Some v => [v] | None => hdr_get_all h k end).
Proof.
  apply (try_each_spec _ _ (λ l h', ∀ k, hdr_get_all h' k =
    match last (values_of k l) with Some v => [v] | None => hdr_get_all h k end)).
  - intros. by eapply set_header_step.
  - intros d s kv s' (_ & (k0 & v & Hk & Hv & ->)%(λ H, H eq_refl))%set_header_step HI k.
    rewrite hdr_get_all_insert, HI. unfold values_of. rewrite omap_app. simpl. rewrite Hk, Hv.
    repeat case_decide; simplify_eq; [by rewrite last_snoc|by rewrite app_nil_r].
  - done.
Qed.

Lemma try_each_remove l h :
  ((try_each remove_header l h).2 = Ok () ↔ Forall (λ n, is_Some (HeaderName_from_bytes n)) l) ∧
  ((try_each remove_header l h).2 = Ok () →
   ∀ k, hdr_get_all (try_each remove_header l h).1 k =
     if decide (Some k ∈ HeaderName_from_bytes <$> l) then [] else hdr_get_all h k).
Proof.
  apply (try_each_spec remove_header _ (λ (l' : list string) h', ∀ k, hdr_get_all h' k =
    if decide (Some k ∈ HeaderName_from_bytes <$> l') then [] else hdr_get_all h k) l h).
  - intros. by eapply remove_header_step.
  - intros d s n s' (_ & (k0 & Hk & ->)%(λ H, H eq_refl))%remove_header_step HI k.
    rewrite hdr_get_all_remove, HI, fmap_app. simpl. rewrite Hk.
    repeat case_decide; set_solver.
  - intros k. by rewrite decide_False by set_solver.
Qed.
End header_modifier_facts.

(** A header modifier. It succeeds exactly when all its names and values are
    valid; then a header it removes is gone, a header it sets has the last value
    set, and any other header keeps its values and gets the added ones after
    them, in order. *)
Theorem header_modifier_apply `{!HeaderMapOps, !HeaderMapLaws, !HttpParsers} m headers :
  let '(headers', r) := HeaderModifier_apply m headers in
  (r = Ok () ↔ Forall valid_pair (add m) ∧ Forall valid_pair (set m) ∧
               Forall (λ n, is_Some (HeaderName_from_bytes n)) (remove m)) ∧
  match r with
  | Err _ => True
  | Ok _ => ∀ k, hdr_get_all headers' k =
      if decide (Some k ∈ HeaderName_from_bytes <$> remove m) then []
      else match last (values_of k (set m)) with
           | Some v => [v]
           | None => hdr_get_all headers k ++ values_of k (add m)
           end
  end.
Proof.
  unfold HeaderModifier_apply. destruct (try_each_append (add m) headers) as [Ha Hga].
  destruct (try_each append_header (add m) headers) as [h1 [[]|e]]; simpl in *; [|naive_solver].
  destruct (try_each_set (set m) h1) as [Hs Hgs].
  destruct (try_each set_header (set m) h1) as [h2 [[]|e]]; simpl in *; [|naive_solver].
  destruct (try_each_remove (remove m) h2) as [Hr Hgr].
  destruct (try_each remove_header (remove m) h2) as [h3 [[]|e]]; simpl in *; [|naive_solver].
  split; [tauto|]. intros k. rewrite Hgr, Hgs, Hga by done. done.
Qed.

(** ** Prefix rewrites *)

(** A path that a prefix matches continues it by whole segments. *)
Lemma path_matches_prefix path p :
  path_matches path (PathPrefix p) = true →
  ∃ rest, path = Str.trim_end_matches "/" p +:+ rest ∧ (rest = "" ∨ ∃ u, rest = String "/" u).
Proof.
  simpl. destruct (Str.trim_end_prefix "/" path) as (t & Ht & Hslash).
  destruct (Str.strip_prefix _ _) as [sfx|] eqn:E; [|done].
  apply Str.strip_prefix_Some in E. intros Hs.
  exists (sfx +:+ t). split; [by rewrite Ht at 1; rewrite E, Str.app_assoc|].
  apply orb_true_iff in Hs as [->%Str.eqb_eq|[r ->]%Str.starts_with_spec]; [done|].
  right. by exists (r +:+ t).
Qed.

(** Rewriting the prefix of a path that the prefix matched. A prefix without a
    trailing slash is replaced and the rest of the path and the query are kept;
    with one trailing slash the rest is joined by a slash, unless the path is the
    prefix without that slash: then cutting the path panics, as it does for
    every path shorter than the prefix. *)
Theorem rewrite_path_prefix `{!HttpParsers} orig p r :
  path_matches (uri_path orig) (PathPrefix p) = true →
  let rewritten path := Ret (parse_path (push_query path (uri_query orig))) in
  let rewrite := rewrite_path (Some (PRPrefix r)) (PathPrefix p) orig in
  (rewrite = Panic ↔ Str.len (uri_path orig) < Str.len p) ∧
  (Str.ends_with "/" p = false →
     ∃ rest, uri_path orig = p +:+ rest ∧ rewrite = rewritten (r +:+ rest)) ∧
  (∀ p0, p = p0 +:+ "/" → Str.ends_with "/" p0 = false →
     uri_path orig = p0 ∧ rewrite = Panic ∨
     ∃ rest, uri_path orig = p +:+ rest ∧
       rewrite = rewritten (r +:+ (if Str.is_empty rest || Str.starts_with "/" rest then rest
                                   else "/" +:+ rest))).
Proof.
  intros (rest & Hpath & Hrest)%path_matches_prefix rewritten rewrite.
  assert (rewrite = Panic ↔ Str.len (uri_path orig) < Str.len p) as Hpanic.
  { unfold rewrite. simpl. rewrite <-Str.split_at_Panic. by destruct (Str.split_at _ _) as [[??]|]. }
  split_and!; [done|..].
  - intros He. exists rest. rewrite (Str.trim_end_id _ _ He) in Hpath. split; [done|].
    unfold rewrite. simpl. rewrite Hpath, Str.split_at_app. simpl.
    by destruct Hrest as [->|[u ->]].
  - intros p0 -> He. rewrite Str.trim_end_snoc, (Str.trim_end_id _ _ He) in Hpath.
    destruct Hrest as [->|[u ->]].
    + left. rewrite Str.app_nil_r in Hpath. split; [done|].
      rewrite Hpanic, Hpath, Str.len_app. simpl. lia.
    + right. assert (uri_path orig = (p0 +:+ "/") +:+ u) as Hpath' by (by rewrite Str.app_assoc).
      exists u. split; [done|]. unfold rewrite. simpl. rewrite Hpath', Str.split_at_app. simpl.
      destruct (Str.is_empty u) eqn:Eu; simpl; [done|].
      destruct (Str.starts_with "/" u); simpl; [done|]. by rewrite Str.app_assoc.
Qed.

(** ** CORS *)

Section cors_facts.
Context `{!HeaderMapOps, !HeaderMapLaws, !HttpParsers}.

Lemma hdr_get_all_append_some name o m k :
  hdr_get_all (append_some name o m) k =
  hdr_get_all m k ++ (if decide (name = k) then option_list o else []).
Proof.
  destruct o as [v|]; simpl; [by rewrite hdr_get_all_append|].
  case_decide; by rewrite app_nil_r.
Qed.

Lemma hdr_get_all_insert_some name o m k :
  hdr_get_all (insert_some name o m) k =
  if decide (name = k ∧ is_Some o) then option_list o else hdr_get_all m k.
Proof.
  destruct o as [v|]; simpl.
  - rewrite hdr_get_all_insert. repeat case_decide; naive_solver.
  - by rewrite decide_False by (intros [_ [? ?]]; done).
Qed.

Lemma origin_allowed_spec self origin :
  origin_allowed self origin = true ↔
  match allow_origins self with WNone => False | WWildcard => True | WList l => origin ∈ l end.
Proof.
  unfold origin_allowed. destruct (allow_origins self) as [| |l]; [done|done|].
  rewrite existsb_exists. setoid_rewrite list_elem_of_In. split.
  - by intros (x & ? & ->%Str.eqb_eq).
  - intros ?. exists origin. by rewrite Str.eqb_eq.
Qed.
End cors_facts.

(** The CORS filter. Without an [Origin] header or with one that is not allowed
    it does nothing. For an allowed origin an [OPTIONS] request is answered with
    the allowed origin, methods, headers and maximum age (never with the
    credentials header), and for any other request exactly the origin, the
    credentials flag and the exposed headers are added to the response. *)
Theorem cors_apply `{!HeaderMapOps, !HeaderMapLaws, !HttpParsers} (c : Cors) (req : Request) :
  let allowed origin := match allow_origins c with
    | WNone => False | WWildcard => True | WList l => origin ∈ l end in
  match hdr_get (req_headers req) "origin" with
  | None => Cors_apply c req = CorsResponse_default
  | Some origin =>
    (¬ allowed origin → Cors_apply c req = CorsResponse_default) ∧
    (allowed origin → req_method req = "OPTIONS" →
       ∃ resp, Cors_apply c req =
           {| cors_direct_response := Some resp; cors_response_headers := None |} ∧
         resp_status resp = 200%Z ∧ resp_body resp = "" ∧
         ∀ k, hdr_get_all (resp_headers resp) k =
           if decide (k = "access-control-allow-origin") then [origin]
           else if decide (k = "access-control-allow-methods") then option_list (to_header_value (allow_methods c))
           else if decide (k = "access-control-allow-headers") then option_list (to_header_value (allow_headers c))
           else if decide (k = "access-control-max-age") then option_list (max_age c)
           else []) ∧
    (allowed origin → req_method req ≠ "OPTIONS" →
       ∃ h, Cors_apply c req =
           {| cors_direct_response := None; cors_response_headers := Some h |} ∧
         ∀ k, hdr_get_all h k =
           if decide (k = "access-control-allow-origin") then [origin]
           else if decide (k = "access-control-allow-credentials")
                then (if allow_credentials c then ["true"] else [])
           else if decide (k = "access-control-expose-headers")
                then option_list (to_header_value (expose_headers c))
           else [])
  end.
Proof.
  intros allowed. unfold Cors_apply. destruct (hdr_get _ _) as [origin|]; [|done].
  pose proof (origin_allowed_spec c origin) as Hallow. fold (allowed origin) in Hallow.
  split_and!.
  - intros Hno. destruct (origin_allowed c origin) eqn:E; [|done]. naive_solver.
  - intros ->%Hallow ->. eexists. split; [done|]. split_and!; [done..|]. intros k. simpl.
    rewrite !hdr_get_all_append_some, hdr_get_all_append, hdr_get_all_new. simpl.
    repeat case_decide; simplify_eq; by rewrite ?app_nil_r.
  - intros ->%Hallow Hm. rewrite (bool_decide_eq_false_2 _ Hm : Str.eqb _ _ = false). simpl.
    eexists. split; [done|]. intros k. unfold actual_headers.
    rewrite !hdr_get_all_insert_some, hdr_get_all_insert, hdr_get_all_new.
    destruct (allow_credentials c), (to_header_value (expose_headers c)); simpl;
      repeat case_decide; naive_solver.
Qed.

(** ** Examples *)

(** Parsers that accept every text, lower-casing header names. *)
Definition example_parsers : HttpParsers := {|
  HeaderName_from_bytes s := Some (Str.to_ascii_lowercase s);
  HeaderValue_from_str := Some;
  Authority_try_from := Some;
  PathAndQuery_try_from := Some;
  Method_from_str := Some;
  Uri_build scheme authority pq := Ok {|
    uri_scheme := Some scheme; uri_authority := Some authority; uri_path_and_query := Some pq;
    uri_host := head (Str.split ":" authority); uri_port := None;
    uri_path := pq; uri_query := None |};
  Uri_to_string u := default "" (uri_scheme u) +:+ "://" +:+ default "" (uri_authority u) +:+ uri_path u
|}.

Definition example_uri (path : string) : Uri :=
  {| uri_scheme := Some "http"; uri_authority := Some "a.com"; uri_path_and_query := Some path;
     uri_host := Some "a.com"; uri_port := None; uri_path := path; uri_query := None |}.

Lemma header_modifier_apply_witness :
  let h := gmap_headers in let p := example_parsers in
  let m := {| add := [("A", "2"); ("B", "3")]; set := [("B", "4")]; remove := ["c"] |} in
  let before := hdr_append (hdr_append hdr_new "a" "1") "c" "5" in
  let after := (HeaderModifier_apply m before).1 in
  hdr_get_all after "a" = ["1"; "2"] ∧ hdr_get_all after "b" = ["4"] ∧ hdr_get_all after "c" = [].
Proof.
  pose proof (@header_modifier_apply gmap_headers gmap_headers_laws example_parsers
    {| add := [("A", "2"); ("B", "3")]; set := [("B", "4")]; remove := ["c"] |}
    (@hdr_append gmap_headers (@hdr_append gmap_headers (@hdr_new gmap_headers) "a" "1") "c" "5")) as H.
  destruct H as [_ H]. cbv zeta. split_and!; [exact (H "a")|exact (H "b")|exact (H "c")].
Defined.

Lemma rewrite_path_prefix_witness :
  let p := example_parsers in
  path_matches "/api" (PathPrefix "/api/") = true ∧
  rewrite_path (Some (PRPrefix "/v2")) (PathPrefix "/api/") (example_uri "/api") = Panic.
Proof.
  split; [reflexivity|].
  apply (proj1 (@rewrite_path_prefix example_parsers (example_uri "/api") "/api/" "/v2" eq_refl)).
  simpl. lia.
Defined.

Lemma cors_apply_witness :
  let h := gmap_headers in let p := example_parsers in
  let c := {| allow_credentials := true; allow_headers := WNone; allow_methods := WWildcard;
              allow_origins := WList ["http://a.com"]; expose_headers := WNone; max_age := None |} in
  ∃ resp, Cors_apply c {| req_method := "OPTIONS"; req_uri := example_uri "/";
                          req_headers := hdr_insert hdr_new "origin" "http://a.com";
                          req_body := ""; req_original_url := None |} =
    {| cors_direct_response := Some resp; cors_response_headers := None |} ∧
    hdr_get_all (resp_headers resp) "access-control-allow-credentials" = [].
Proof.
  destruct (proj1 (proj2 (@cors_apply gmap_headers gmap_headers_laws example_parsers
    {| allow_credentials := true; allow_headers := WNone; allow_methods := WWildcard;
       allow_origins := WList ["http://a.com"]; expose_headers := WNone; max_age := None |}
    (@Build_Request gmap_headers "OPTIONS" (example_uri "/")
       (@hdr_insert gmap_headers (@hdr_new gmap_headers) "origin" "http://a.com") "" None))))
    as (resp & Hc & _ & _ & Hg); [set_solver|reflexivity|].
  exists resp. split; [exact Hc|]. exact (Hg "access-control-allow-credentials").
Defined.
