(* ===== verification/Cel.v ===== *)
(** Cel: expressions over requests ([cel/mod.rs]) and the authorization rules made
    of them ([mcp/rbac.rs]).

    Parsing and evaluating expressions is the work of the [cel] crates: the parser
    and the evaluator are parameters, and the syntax tree ([CelExpression]) is the
    crate's.  The gateway decides from the tree which attributes an expression
    needs, collects only those while a request passes, and evaluates the
    expression on what was collected. *)
From S2P Require Import Prelude Strs Json Http AgentTypes.

(** * Syntax trees *)

#[local] Set Warnings "-register-all".

(** [cel_parser::Expression] and [cel_parser::Member]; operators and literals play
    no role. *)
Inductive CelExpression :=
| Arithmetic (e1 e2 : CelExpression)
| Relation (e1 e2 : CelExpression)
| Ternary (c t e : CelExpression)
| Or (e1 e2 : CelExpression)
| And (e1 e2 : CelExpression)
| Unary (e : CelExpression)
| Member (e : CelExpression) (m : CelMember)
| FunctionCall (name : CelExpression) (target : option CelExpression) (args : list CelExpression)
| CList (l : list CelExpression)
| CMap (l : list (CelExpression * CelExpression))
| Atom (a : string)
| Ident (v : string)
with CelMember :=
| MAttribute (attr : string)
| MFunctionCall (args : list CelExpression)
| MIndex (e : CelExpression)
| MFields (l : list (string * CelExpression)).

(** ** Attributes *)

(** [all] and [path] of [properties]. *)
Definition Props : Type := list (list string) * list string.

Fixpoint properties (exp : CelExpression) (s : Props) : Props :=
  let props_list := fix go l (s : Props) :=
    match l with [] => s | e :: l => go l (properties e s) end in
  match exp with
  | Arithmetic e1 e2 | Relation e1 e2 | Ternary e1 _ e2 | Or e1 e2 | And e1 e2 =>
    properties e2 (properties e1 s)
  | Unary e => properties e s
  | Member e a =>
    properties e (match a with MAttribute attr => (s.1, attr :: s.2) | _ => s end)
  | FunctionCall _ target args =>
    let s := (s.1, []) in
    let s := match target with Some t => properties t s | None => s end in
    props_list args s
  | CList l => props_list l s
  | CMap l =>
    (fix go l (s : Props) :=
       match l with [] => s | (e1, e2) :: l => go l (properties e2 (properties e1 s)) end) l s
  | Atom _ => s
  | Ident v => (s.1 ++ [v :: s.2], [])
  end.

Definition REQUEST_ATTRIBUTE : string := "request".
Definition REQUEST_BODY_ATTRIBUTE : string := "request.body".
Definition LLM_ATTRIBUTE : string := "llm".
Definition LLM_PROMPT_ATTRIBUTE : string := "llm.prompt".
Definition LLM_COMPLETION_ATTRIBUTE : string := "llm.completion".
Definition RESPONSE_ATTRIBUTE : string := "response".
Definition JWT_ATTRIBUTE : string := "jwt".
Definition MCP_ATTRIBUTE : string := "mcp".

(** The attribute of a path: its first name, or its first two where the second is
    expensive to provide. *)
Definition attribute (tokens : list string) : option string :=
  match tokens with
  | [] => None
  | first :: rest =>
    match rest with
    | second :: _ =>
      if Str.eqb first "request" && Str.eqb second "body" then Some REQUEST_BODY_ATTRIBUTE
      else if Str.eqb first "llm" && Str.eqb second "prompt" then Some LLM_PROMPT_ATTRIBUTE
      else if Str.eqb first "llm" && Str.eqb second "completion" then Some LLM_COMPLETION_ATTRIBUTE
      else Some first
    | [] => Some first
    end
  end.

Definition attributes_of (e : CelExpression) : gset string :=
  list_to_set (omap attribute (properties e ([], [])).1).

(** [Expression::new], given the parser. *)
Definition Expression_new (parse : string → option CelExpression) (s : string) : option Expression :=
  e ← parse s; Some {| original_expression := s; expr_attributes := attributes_of e |}.

(** * Contexts *)

Record Claims := { claims_inner : list (string * Value); claims_jwt : string }.

(** [SimpleChatCompletionMessage] of [llm/mod.rs]. *)
Record SimpleMessage := { role : string; content : string }.

Record LLMRequest := {
  lr_input_tokens : N;
  lr_request_model : string;
  lr_provider : string;
  lr_streaming : bool
}.

Record LLMResponse := {
  llm_request : LLMRequest;
  input_tokens_from_response : option N;
  output_tokens : option N;
  total_tokens : option N;
  provider_model : option string;
  completion : option (list string)
}.

Record LLMContext := {
  lc_streaming : bool;
  lc_request_model : string;
  lc_response_model : option string;
  lc_provider : string;
  lc_input_tokens : N;
  lc_output_tokens : option N;
  lc_total_tokens : option N;
  lc_prompt : option (list SimpleMessage);
  lc_completion : option (list string)
}.

Section context.
Context `{!HeaderMapOps}.

Record RequestContext := {
  rc_method : string;
  rc_uri : Uri;
  rc_headers : HeaderMap;
  rc_body : option string
}.

Record ExpressionContext := mkContext {
  ctx_request : option RequestContext;
  ctx_response : option Z;
  ctx_jwt : option Claims;
  ctx_llm : option LLMContext
}.

Record ContextBuilder := mkBuilder { attributes : gset string; context : ExpressionContext }.

Definition ContextBuilder_new : ContextBuilder := mkBuilder ∅ (mkContext None None None None).

Definition register_expression (self : ContextBuilder) (expression : Expression) : ContextBuilder :=
  mkBuilder (attributes self ∪ expr_attributes expression) (context self).

Definition set_request (self : ContextBuilder) (r : option RequestContext) : ContextBuilder :=
  let c := context self in
  mkBuilder (attributes self) (mkContext r (ctx_response c) (ctx_jwt c) (ctx_llm c)).
Definition set_llm (self : ContextBuilder) (l : option LLMContext) : ContextBuilder :=
  let c := context self in
  mkBuilder (attributes self) (mkContext (ctx_request c) (ctx_response c) (ctx_jwt c) l).

Definition with_request_body (self : ContextBuilder) (body : string) : ContextBuilder :=
  match ctx_request (context self) with
  | None => self
  | Some r => set_request self (Some {| rc_method := rc_method r; rc_uri := rc_uri r;
                                        rc_headers := rc_headers r; rc_body := Some body |})
  end.

(** Whether the body is needed as well. *)
Definition with_request (self : ContextBuilder) (req : Request) : ContextBuilder * bool :=
  if decide (REQUEST_ATTRIBUTE ∈ attributes self) then
    (set_request self (Some {| rc_method := req_method req; rc_uri := req_uri req;
                               rc_headers := req_headers req; rc_body := None |}),
     bool_decide (REQUEST_BODY_ATTRIBUTE ∈ attributes self))
  else (self, false).

Definition with_response (self : ContextBuilder) (resp : Response) : ContextBuilder :=
  if decide (RESPONSE_ATTRIBUTE ∈ attributes self) then
    let c := context self in
    mkBuilder (attributes self) (mkContext (ctx_request c) (Some (resp_status resp)) (ctx_jwt c) (ctx_llm c))
  else self.

Definition with_jwt (self : ContextBuilder) (info : Claims) : ContextBuilder :=
  if decide (JWT_ATTRIBUTE ∈ attributes self) then
    let c := context self in
    mkBuilder (attributes self) (mkContext (ctx_request c) (ctx_response c) (Some info) (ctx_llm c))
  else self.

Definition with_llm_request (self : ContextBuilder) (info : LLMRequest) : ContextBuilder * bool :=
  if decide (LLM_ATTRIBUTE ∈ attributes self) then
    (set_llm self (Some {| lc_streaming := lr_streaming info; lc_request_model := lr_request_model info;
                           lc_response_model := None; lc_provider := lr_provider info;
                           lc_input_tokens := lr_input_tokens info; lc_output_tokens := None;
                           lc_total_tokens := None; lc_prompt := None; lc_completion := None |}),
     bool_decide (LLM_PROMPT_ATTRIBUTE ∈ attributes self))
  else (self, false).

Definition with_llm_prompt (self : ContextBuilder) (msg : list SimpleMessage) : ContextBuilder :=
  match ctx_llm (context self) with
  | None => self
  | Some r =>
    set_llm self (Some {| lc_streaming := lc_streaming r; lc_request_model := lc_request_model r;
                          lc_response_model := lc_response_model r; lc_provider := lc_provider r;
                          lc_input_tokens := lc_input_tokens r; lc_output_tokens := lc_output_tokens r;
                          lc_total_tokens := lc_total_tokens r; lc_prompt := Some msg;
                          lc_completion := lc_completion r |})
  end.

Definition with_llm_response (self : ContextBuilder) (info : LLMResponse) : ContextBuilder :=
  if decide (LLM_ATTRIBUTE ∈ attributes self) then
    match ctx_llm (context self) with
    | None => self
    | Some o =>
      set_llm self
        (Some {| lc_streaming := lc_streaming o; lc_request_model := lc_request_model o;
                 lc_response_model := provider_model info; lc_provider := lc_provider o;
                 lc_input_tokens := default (lc_input_tokens o) (input_tokens_from_response info);
                 lc_output_tokens := output_tokens info; lc_total_tokens := total_tokens info;
                 lc_prompt := lc_prompt o; lc_completion := completion info |})
    end
  else self.

Definition needs_llm_completion (self : ContextBuilder) : bool :=
  bool_decide (LLM_COMPLETION_ATTRIBUTE ∈ attributes self).
End context.

(** ** Resources of the relay ([mcp/rbac.rs]) *)

Record ResourceId := { ri_target : string; ri_id : string }.
Inductive ResourceType := RTool (r : ResourceId) | RPrompt (r : ResourceId) | RResource (r : ResourceId).

Definition ResourceType_target (r : ResourceType) : string :=
  match r with RTool r | RPrompt r | RResource r => ri_target r end.

(** ** Evaluation *)

(** [cel_interpreter::Value], as far as the gateway looks at one. *)
Inductive CelValue := CBool (b : bool) | CString (s : string) | CBytes (b : string) | COther (v : Value).

(** [build_with_mcp] (the conversion of the context into variables may fail) and
    [Value::resolve]. *)
Class CelEngine `{!HeaderMapOps} := {
  Executor : Type;
  build_with_mcp : ExpressionContext → option ResourceType → option Executor;
  eval : Executor → Expression → option CelValue;
  value_json : CelValue → option Value
}.

Section eval.
Context `{!HeaderMapOps, !CelEngine}.

Definition build (self : ContextBuilder) : option Executor := build_with_mcp (context self) None.

Definition eval_bool (exec : Executor) (expr : Expression) : bool :=
  match eval exec expr with Some (CBool b) => b | _ => false end.

(** * Authorization rules *)

Definition RuleSet_validate (self : RuleSet) (exec : Executor) : bool :=
  match rules self with
  | [] => true
  | _ => existsb (eval_bool exec) (rules self)
  end.

Definition RuleSets_validate (self : list RuleSet) (resource : ResourceType) (cel : ContextBuilder) : bool :=
  match self with
  | [] => true
  | _ =>
    match build_with_mcp (context cel) (Some resource) with
    | None => false
    | Some exec => existsb (λ rule_set, RuleSet_validate rule_set exec) self
    end
  end.

Definition RuleSets_register (self : list RuleSet) (ctx : ContextBuilder) : ContextBuilder :=
  foldl (λ ctx rule_set, foldl register_expression ctx (rules rule_set)) ctx self.
End eval.

(** [Identity::get_claim] with a one-byte delimiter. *)
Fixpoint get_nested (current : list (string * Value)) (keys : list string) : option string :=
  match keys with
  | [] => None
  | key_part :: keys =>
    value ← map_get current key_part;
    match keys with
    | [] => as_str value
    | _ => inner ← as_object value; get_nested inner keys
    end
  end.

Definition get_claim (claims : option Claims) (key : string) (key_delimiter : ascii) : option string :=
  claims ← claims; get_nested (claims_inner claims) (Str.split key_delimiter key).

(** * Paths *)

Definition backslash : ascii := ascii_of_nat 92.

(** [From<&str>]: [token] is what has been read of the current token. *)
Fixpoint path_from (token : string) (s : string) : list string :=
  match s with
  | "" => [token]
  | String ch s =>
    if decide (ch = "."%char) then token :: path_from "" s
    else if decide (ch = backslash) then
      match s with
      | "" => [token]
      | String next s => path_from (token +:+ String next "") s
      end
    else path_from (token +:+ String ch "") s
  end.

Definition Path_from (s : string) : list string := path_from "" s.

(** [Display]: [t.replace('.', "\\.")], joined by dots. *)
Fixpoint escape_dots (t : string) : string :=
  match t with
  | "" => ""
  | String a t => if decide (a = "."%char) then String backslash (String a (escape_dots t))
                  else String a (escape_dots t)
  end.

Definition Path_display (tokens : list string) : string := Str.join "." (escape_dots <$> tokens).

(** * Theorems *)

(** ** Attributes *)

(** The identifiers in the order in which [properties] meets them. *)
Fixpoint visited (exp : CelExpression) : list string :=
  match exp with
  | Arithmetic e1 e2 | Relation e1 e2 | Ternary e1 _ e2 | Or e1 e2 | And e1 e2 => visited e1 ++ visited e2
  | Unary e | Member e _ => visited e
  | FunctionCall _ target args =>
    match target with Some t => visited t | None => [] end ++ concat (map visited args)
  | CList l => concat (map visited l)
  | CMap l => concat (map (λ '(e1, e2), visited e1 ++ visited e2) l)
  | Atom _ => []
  | Ident v => [v]
  end.

(** The variables of an expression: the identifiers that are not the names of
    functions. *)
Fixpoint variables (exp : CelExpression) : list string :=
  match exp with
  | Arithmetic e1 e2 | Relation e1 e2 | Or e1 e2 | And e1 e2 => variables e1 ++ variables e2
  | Ternary c t e => variables c ++ variables t ++ variables e
  | Unary e => variables e
  | Member e a =>
    variables e ++
    match a with
    | MAttribute _ => []
    | MFunctionCall args => concat (map variables args)
    | MIndex i => variables i
    | MFields l => concat (map (λ '(_, e), variables e) l)
    end
  | FunctionCall _ target args =>
    match target with Some t => variables t | None => [] end ++ concat (map variables args)
  | CList l => concat (map variables l)
  | CMap l => concat (map (λ '(e1, e2), variables e1 ++ variables e2) l)
  | Atom _ => []
  | Ident v => [v]
  end.

(** No conditional and no indexing. *)
Fixpoint plain (exp : CelExpression) : bool :=
  match exp with
  | Arithmetic e1 e2 | Relation e1 e2 | Or e1 e2 | And e1 e2 => plain e1 && plain e2
  | Ternary _ _ _ => false
  | Unary e => plain e
  | Member e a => match a with MAttribute _ => plain e | _ => false end
  | FunctionCall _ target args =>
    match target with Some t => plain t | None => true end && forallb plain args
  | CList l => forallb plain l
  | CMap l => forallb (λ '(e1, e2), plain e1 && plain e2) l
  | Atom _ | Ident _ => true
  end.

(** Induction through the lists of an expression. *)
Section induction.
Context (P : CelExpression → Prop).
Context (HArith : ∀ e1 e2, P e1 → P e2 → P (Arithmetic e1 e2)).
Context (HRel : ∀ e1 e2, P e1 → P e2 → P (Relation e1 e2)).
Context (HTern : ∀ c t e, P c → P e → P (Ternary c t e)).
Context (HOr : ∀ e1 e2, P e1 → P e2 → P (Or e1 e2)).
Context (HAnd : ∀ e1 e2, P e1 → P e2 → P (And e1 e2)).
Context (HUnary : ∀ e, P e → P (Unary e)).
Context (HMember : ∀ e m, P e → P (Member e m)).
Context (HCall : ∀ f target args, (∀ t, target = Some t → P t) → Forall P args → P (FunctionCall f target args)).
Context (HList : ∀ l, Forall P l → P (CList l)).
Context (HMap : ∀ l, Forall (λ p, P p.1 ∧ P p.2) l → P (CMap l)).
Context (HAtom : ∀ a, P (Atom a)) (HIdent : ∀ v, P (Ident v)).

Fixpoint cel_ind (e : CelExpression) : P e :=
  let list_ind := fix go l : Forall P l :=
    match l with [] => Forall_nil_2 P | e :: l => Forall_cons_2 P e l (cel_ind e) (go l) end in
  match e with
  | Arithmetic e1 e2 => HArith e1 e2 (cel_ind e1) (cel_ind e2)
  | Relation e1 e2 => HRel e1 e2 (cel_ind e1) (cel_ind e2)
  | Ternary c t e => HTern c t e (cel_ind c) (cel_ind e)
  | Or e1 e2 => HOr e1 e2 (cel_ind e1) (cel_ind e2)
  | And e1 e2 => HAnd e1 e2 (cel_ind e1) (cel_ind e2)
  | Unary e => HUnary e (cel_ind e)
  | Member e m => HMember e m (cel_ind e)
  | FunctionCall f target args =>
    HCall f target args
      match target return ∀ t, target = Some t → P t with
      | Some t0 => λ t H, match H in _ = o return match o with Some t => P t | None => True end with
                          eq_refl => cel_ind t0 end
      | None => λ t H, False_ind _ (None_ne_Some t H)
      end (list_ind args)
  | CList l => HList l (list_ind l)
  | CMap l =>
    HMap l ((fix go l : Forall (λ p, P p.1 ∧ P p.2) l :=
       match l with
       | [] => Forall_nil_2 _
       | p :: l =>
         Forall_cons_2 _ p l (match p as p return P p.1 ∧ P p.2 with
                              (e1, e2) => conj (cel_ind e1) (cel_ind e2) end) (go l)
       end) l)
  | Atom a => HAtom a
  | Ident v => HIdent v
  end.
End induction.

(** Every path starts with the identifier it was found at. *)
Lemma properties_heads exp s :
  head <$> (properties exp s).1 = (head <$> s.1) ++ (Some <$> visited exp).
Proof.
  revert s. induction exp as [e1 e2 H1 H2|e1 e2 H1 H2|c t e H1 H2|e1 e2 H1 H2|e1 e2 H1 H2|e H1|e m H1
    |f target args Ht Ha|l Hl|l Hl|a|v] using cel_ind; intros s; simpl;
    try (by rewrite H2, H1, fmap_app, app_assoc).
  - done.
  - rewrite H1. by destruct m.
  - rewrite fmap_app, app_assoc.
    set (s0 := match target with Some t => properties t (s.1, []) | None => (s.1, []) end).
    assert (head <$> s0.1 = (head <$> s.1) ++ (Some <$> match target with Some t => visited t | None => [] end))
      as Hs0 by (unfold s0; destruct target; [by rewrite Ht|by rewrite app_nil_r]).
    rewrite <-Hs0. clearbody s0. clear Hs0 Ht. revert s0. induction Ha as [|e args He _ IH]; intros s0.
    + simpl. by rewrite app_nil_r.
    + rewrite IH, He. simpl. by rewrite fmap_app, app_assoc.
  - revert s. induction Hl as [|e l He _ IH]; intros s; [by rewrite app_nil_r|].
    rewrite IH, He. simpl. by rewrite fmap_app, app_assoc.
  - revert s. induction Hl as [|[e1 e2] l [He1 He2] _ IH]; intros s; [by rewrite app_nil_r|].
    simpl in He1, He2. rewrite IH, He2, He1. simpl. by rewrite !fmap_app, !app_assoc.
  - by rewrite app_nil_r.
  - by rewrite fmap_app.
Qed.

Lemma concat_map_visited l :
  Forall (λ e, plain e = true → visited e = variables e) l → forallb plain l = true →
  concat (map visited l) = concat (map variables l).
Proof.
  induction 1 as [|e l He _ IH]; simpl; [done|]. intros [? ?]%andb_true_iff. by rewrite He, IH.
Qed.

Lemma visited_variables exp : plain exp = true → visited exp = variables exp.
Proof.
  induction exp as [e1 e2 H1 H2|e1 e2 H1 H2|c t e H1 H2|e1 e2 H1 H2|e1 e2 H1 H2|e H1|e m H1
    |f target args Ht Ha|l Hl|l Hl|a|v] using cel_ind; simpl;
    try (by intros [? ?]%andb_true_iff; rewrite H1, H2).
  - done.
  - done.
  - destruct m; [|done..]. rewrite app_nil_r. done.
  - intros [Hp Hps]%andb_true_iff. f_equal; [|by apply concat_map_visited].
    destruct target; [by apply Ht|done].
  - by apply concat_map_visited.
  - induction Hl as [|[e1 e2] l [He1 He2] _ IH]; simpl; [done|].
    intros [[? ?]%andb_true_iff ?]%andb_true_iff. simpl in *. by rewrite He1, He2, IH.
  - done.
  - done.
Qed.

(** What stands for a variable among the attributes. *)
Definition covered (x : string) (attrs : gset string) : Prop :=
  x ∈ attrs ∨ (x = "request" ∧ REQUEST_BODY_ATTRIBUTE ∈ attrs) ∨
  (x = "llm" ∧ (LLM_PROMPT_ATTRIBUTE ∈ attrs ∨ LLM_COMPLETION_ATTRIBUTE ∈ attrs)).

Lemma attribute_head path x :
  head path = Some x →
  ∃ a, attribute path = Some a ∧ ∀ attrs, a ∈ attrs → covered x attrs.
Proof.
  destruct path as [|first rest]; [done|]. intros [= ->]. unfold covered. simpl.
  destruct rest as [|second rest]; [by exists x; auto|].
  repeat case_match; eexists; (split; [done|]); intros attrs Ha;
    repeat match goal with H : (_ && _) = true |- _ => apply andb_true_iff in H as [?%Str.eqb_eq ?%Str.eqb_eq] end;
    subst; auto.
Qed.

Lemma visited_covered exp x : x ∈ visited exp → covered x (attributes_of exp).
Proof.
  intros Hx. pose proof (properties_heads exp ([], [])) as Hh. simpl in Hh.
  apply (list_elem_of_fmap_2 Some) in Hx. rewrite <-Hh in Hx.
  apply list_elem_of_fmap in Hx as (path & Hpath & Hin).
  destruct (attribute_head path x) as (a & Ha & Hcov); [done|]. apply Hcov.
  unfold attributes_of. apply elem_of_list_to_set, list_elem_of_omap. eauto.
Qed.

(** The attributes of an expression. Every variable of an expression without
    conditionals and indexing is covered by the attributes that are collected for
    it. The first branch of a conditional is not looked at, so that a variable
    which occurs only there is not collected. *)
Theorem cel_attributes_cover :
  (∀ exp x, plain exp = true → x ∈ variables exp → covered x (attributes_of exp)) ∧
  (∀ c x, x ∉ visited c → variables (Ternary c (Ident x) (Atom "0")) = variables c ++ [x] ∧
     x ∉ visited (Ternary c (Ident x) (Atom "0"))).
Proof.
  split.
  - intros exp x Hp Hx. apply visited_covered. by rewrite visited_variables.
  - intros c x Hx. simpl. rewrite app_nil_r. done.
Qed.

(** [request.body] *)
Definition body_expression : CelExpression := Member (Ident "request") (MAttribute "body").

Section context_facts.
Context `{!HeaderMapOps}.

Lemma attributes_register l b a :
  a ∈ attributes (foldl register_expression b l) ↔
  a ∈ attributes b ∨ Exists (λ e, a ∈ expr_attributes e) l.
Proof.
  revert b. induction l as [|e l IH]; intros b; simpl; [rewrite Exists_nil; tauto|].
  rewrite IH, Exists_cons. simpl. rewrite elem_of_union. tauto.
Qed.

Lemma context_register l b : context (foldl register_expression b l) = context b.
Proof. revert b. induction l as [|e l IH]; intros b; [done|]. simpl. by rewrite IH. Qed.

(** What an expression sees of the request. Once the expressions of a request
    are registered, the request is recorded when one of them reads an attribute of
    it other than the body, and the body is asked for when one of them reads both;
    if they read the body and nothing else, neither the request nor its body is
    recorded, and they are evaluated without it. *)
Theorem cel_request_recorded (l : list Expression) req body :
  let b := foldl register_expression ContextBuilder_new l in
  let '(b', needs_body) := with_request b req in
  let b'' := if needs_body then with_request_body b' body else b' in
  (ctx_request (context b'') =
     if decide (Exists (λ e, REQUEST_ATTRIBUTE ∈ expr_attributes e) l)
     then Some {| rc_method := req_method req; rc_uri := req_uri req; rc_headers := req_headers req;
                  rc_body := if decide (Exists (λ e, REQUEST_BODY_ATTRIBUTE ∈ expr_attributes e) l)
                             then Some body else None |}
     else None) ∧
  attributes_of body_expression = {[ REQUEST_BODY_ATTRIBUTE ]}.
Proof.
  intros b. assert (∀ a, a ∈ attributes b ↔ Exists (λ e, a ∈ expr_attributes e) l) as Hb.
  { intros a. unfold b. rewrite attributes_register. simpl. rewrite elem_of_empty. tauto. }
  assert (context b = mkContext None None None None) as Hc by apply context_register.
  assert (attributes_of body_expression = {[ REQUEST_BODY_ATTRIBUTE ]}) as He by reflexivity.
  clearbody b. unfold with_request. destruct (decide (REQUEST_ATTRIBUTE ∈ attributes b)) as [Hr|Hr].
  - rewrite (decide_True (P := Exists (λ e, REQUEST_ATTRIBUTE ∈ expr_attributes e) l)) by (by apply Hb).
    case_bool_decide as Hbody; simpl.
    + rewrite decide_True by (by apply Hb). done.
    + rewrite decide_False by (by rewrite <-Hb). done.
  - rewrite (decide_False (P := Exists (λ e, REQUEST_ATTRIBUTE ∈ expr_attributes e) l)) by (by rewrite <-Hb).
    by rewrite Hc.
Qed.
End context_facts.

(** ** Authorization *)

Section rbac.
Context `{!HeaderMapOps, !CelEngine}.

Lemma eval_bool_true exec e : eval_bool exec e = true ↔ eval exec e = Some (CBool true).
Proof. unfold eval_bool. destruct (eval exec e) as [[[]| | |]|]; naive_solver. Qed.

(** Authorization of a resource. With no rule set everyone has access;
    otherwise access needs a context that can be built, and a rule set that is
    empty or has a rule that evaluates to [true]. An evaluation that fails or gives
    anything but a boolean never grants access. *)
Theorem rbac_validate (sets : list RuleSet) resource cel :
  RuleSets_validate sets resource cel = true ↔
  sets = [] ∨
  ∃ exec rs, build_with_mcp (context cel) (Some resource) = Some exec ∧ rs ∈ sets ∧
    (rules rs = [] ∨ ∃ e, e ∈ rules rs ∧ eval exec e = Some (CBool true)).
Proof.
  assert (∀ exec rs, RuleSet_validate rs exec = true ↔
    rules rs = [] ∨ ∃ e, e ∈ rules rs ∧ eval exec e = Some (CBool true)) as Hset.
  { intros exec rs. unfold RuleSet_validate. destruct (rules rs) as [|r l]; [naive_solver|].
    rewrite existsb_exists. setoid_rewrite eval_bool_true. setoid_rewrite <-list_elem_of_In. naive_solver. }
  unfold RuleSets_validate. destruct sets as [|rs0 sets]; [naive_solver|].
  destruct (build_with_mcp (context cel) (Some resource)) as [exec|].
  - rewrite existsb_exists. setoid_rewrite Hset. setoid_rewrite <-list_elem_of_In. naive_solver.
  - naive_solver.
Qed.
End rbac.

Lemma get_nested_traverse m keys s :
  get_nested m keys = Some s → traverse (Object m) keys = Some (Str s).
Proof.
  revert m. induction keys as [|k keys IH]; intros m; [done|]. cbn [get_nested traverse child].
  destruct (map_get m k) as [v|]; [|done]. cbn [mbind option_bind].
  destruct keys as [|k' keys].
  - destruct v; naive_solver.
  - destruct v; try done. cbn [as_object mbind option_bind]. apply IH.
Qed.

(** ** Paths *)

Lemma path_from_escaped token t s :
  Str.contains_char backslash t = false →
  path_from token (escape_dots t +:+ s) = path_from (token +:+ t) s.
Proof.
  revert token. induction t as [|a t IH]; intros token Hb; cbn [escape_dots].
  { by rewrite Str.app_nil_r. }
  assert (a ≠ backslash ∧ Str.contains_char backslash t = false) as [Ha Ht].
  { unfold Str.contains_char in *. cbn [Str.find_char] in Hb. case_decide; [done|].
    split; [done|]. by destruct (Str.find_char backslash t). }
  destruct (decide (a = "."%char)) as [->|Hdot].
  - rewrite !Str.app_cons. cbn [path_from]. rewrite decide_False by (by vm_compute).
    rewrite decide_True by done. rewrite IH by done. by rewrite Str.app_assoc.
  - rewrite !Str.app_cons. cbn [path_from]. rewrite decide_False by done. rewrite decide_False by done.
    rewrite IH by done. by rewrite Str.app_assoc.
Qed.

(** A path and its text. Printing the tokens of a path and reading them back
    gives the same tokens, dots included, when no token holds a backslash; a
    backslash is printed unescaped and is lost when the text is read. *)
Theorem cel_path_roundtrip :
  (∀ tokens, tokens ≠ [] → Forall (λ t, Str.contains_char backslash t = false) tokens →
     Path_from (Path_display tokens) = tokens) ∧
  (∀ a, a ≠ "."%char → Path_from (Path_display [String backslash (String a "")]) = [String a ""]).
Proof.
  split.
  - intros tokens Hne Hb. unfold Path_from, Path_display.
    destruct tokens as [|t tokens]; [done|]. clear Hne. revert t Hb.
    induction tokens as [|t' tokens IH]; intros t [Ht Hb]%Forall_cons.
    + simpl. rewrite <-(Str.app_nil_r (escape_dots t)), path_from_escaped by done. done.
    + cbn [fmap list_fmap]. rewrite Str.join_cons, path_from_escaped by done.
      change ("" +:+ t) with t. cbn [path_from]. rewrite decide_True by done. f_equal. by apply IH.
  - intros a Ha. unfold Path_from, Path_display. simpl. by rewrite decide_False.
Qed.

(** ** Examples *)

Module CelExample.
#[local] Existing Instance gmap_headers.

(** [request.path == jwt.sub] *)
Definition exp : CelExpression :=
  Relation (Member (Ident "request") (MAttribute "path")) (Member (Ident "jwt") (MAttribute "sub")).

Lemma cel_attributes_cover_witness :
  covered "jwt" (attributes_of exp) ∧ "jwt" ∉ visited (Ternary (Atom "true") (Ident "jwt") (Atom "0")).
Proof.
  split.
  - apply (proj1 cel_attributes_cover exp "jwt"); [reflexivity|]. simpl. set_solver.
  - apply (proj2 cel_attributes_cover (Atom "true") "jwt"). simpl. set_solver.
Defined.

Lemma cel_path_roundtrip_witness : Path_from (Path_display ["a.b"; ""; "c"]) = ["a.b"; ""; "c"].
Proof.
  apply (proj1 cel_path_roundtrip); [discriminate|]. repeat constructor.
Defined.
End CelExample.
