(* ===== verification/Transformation.v ===== *)
(** Transformation: requests and responses rewritten by expressions
    ([http/transformation_cel.rs]). *)
From S2P Require Import Prelude Strs Json Http AgentTypes Filters Cel.

(** * Configuration *)

Record LocalTransform := {
  lt_add : list (string * string);
  lt_set : list (string * string);
  lt_remove : list string;
  lt_body : option string
}.

Record LocalTransformationConfig := {
  ltc_request : option LocalTransform;
  ltc_response : option LocalTransform
}.

Definition TransformerConfig_default : TransformerConfig :=
  {| tc_add := []; tc_set := []; tc_remove := []; tc_body := None |}.

Section configuration.
Context `{!HttpParsers}.
(** [HeaderName::try_from], and [cel::Expression::new]. *)
Context (Expression_new : string → option Expression).

Definition header_expression (kv : string * string) : result (string * Expression) () :=
  let? tk := ok_or (HeaderName_from_bytes kv.1) () in
  let? tv := ok_or (Expression_new kv.2) () in
  Ok (tk, tv).

Definition TransformerConfig_try_from (req : LocalTransform) : result TransformerConfig () :=
  let? set := try_map header_expression (lt_set req) in
  let? add := try_map header_expression (lt_add req) in
  let? remove := try_map (λ k, ok_or (HeaderName_from_bytes k) ()) (lt_remove req) in
  let? body :=
    match lt_body req with
    | None => Ok None
    | Some b => let? e := ok_or (Expression_new b) () in Ok (Some e)
    end in
  Ok {| tc_add := add; tc_set := set; tc_remove := remove; tc_body := body |}.

Definition or_default (c : option LocalTransform) : result TransformerConfig () :=
  match c with Some c => TransformerConfig_try_from c | None => Ok TransformerConfig_default end.

Definition Transformation_try_from (value : LocalTransformationConfig) : result Transformation () :=
  let? request := or_default (ltc_request value) in
  let? response := or_default (ltc_response value) in
  Ok {| tr_request := request; tr_response := response |}.

End configuration.

(** * Application *)

Section application.
Context `{!HeaderMapOps, !HttpParsers, !CelEngine}.

(** The expressions that are to be registered with the context. *)
Definition expressions (self : Transformation) : list Expression :=
  (tc_add (tr_request self)).*2 ++ (tc_set (tr_request self)).*2 ++
  option_list (tc_body (tr_request self)) ++
  (tc_add (tr_response self)).*2 ++ (tc_set (tr_response self)).*2 ++
  option_list (tc_body (tr_response self)).

(** [HeaderValue::from_bytes] and [serde_json::to_vec]. *)
Context (HeaderValue_from_bytes : string → option string) (to_vec : Value → option string).

Definition eval_header_value (exec : Executor) (expr : Expression) : option string :=
  match eval exec expr with
  | Some (CString b) => HeaderValue_from_str b
  | Some (CBytes b) => HeaderValue_from_bytes b
  | _ => None
  end.

Definition eval_body (exec : Executor) (expr : Expression) : option string :=
  v ← eval exec expr; j ← value_json v; to_vec j.

Definition add_one (exec : Executor) (headers : HeaderMap) (kv : string * Expression) : HeaderMap :=
  match eval_header_value exec kv.2 with
  | Some v => hdr_append headers kv.1 v
  | None => hdr_remove headers kv.1
  end.

Definition set_one (exec : Executor) (headers : HeaderMap) (kv : string * Expression) : HeaderMap :=
  match eval_header_value exec kv.2 with
  | Some v => hdr_insert headers kv.1 v
  | None => headers
  end.

Definition apply (headers : HeaderMap) (body : string) (cfg : TransformerConfig) (ctx : ContextBuilder)
    : HeaderMap * string * result () () :=
  match build ctx with
  | None => (headers, body, Err ())
  | Some exec =>
    let headers := foldl (add_one exec) headers (tc_add cfg) in
    let headers := foldl (set_one exec) headers (tc_set cfg) in
    let headers := foldl hdr_remove headers (tc_remove cfg) in
    match tc_body cfg with
    | Some b => (hdr_remove headers "content-length", default "" (eval_body exec b), Ok ())
    | None => (headers, body, Ok ())
    end
  end.

Definition apply_request (self : Transformation) (req : Request) (ctx : ContextBuilder)
    : Request * result () () :=
  let '(h, b, r) := apply (req_headers req) (req_body req) (tr_request self) ctx in
  ({| req_method := req_method req; req_uri := req_uri req; req_headers := h; req_body := b;
      req_original_url := req_original_url req |}, r).

Definition apply_response (self : Transformation) (resp : Response) (ctx : ContextBuilder)
    : Response * result () () :=
  let '(h, b, r) := apply (resp_headers resp) (resp_body resp) (tr_response self) ctx in
  ({| resp_status := resp_status resp; resp_headers := h; resp_body := b |}, r).

(** * Facts *)

Context `{!HeaderMapLaws}.

(** What the additions to one header make of its values: a value is appended, or
    everything so far is dropped. *)
Definition added (exec : Executor) (k : string) (vs : list string) (l : list (string * Expression))
    : list string :=
  foldl (λ vs kv, if decide (kv.1 = k) then
                    match eval_header_value exec kv.2 with Some v => vs ++ [v] | None => [] end
                  else vs) vs l.

(** The last assignment to a header that has a value, if there is one. *)
Definition assigned (exec : Executor) (k : string) (vs : list string) (l : list (string * Expression))
    : list string :=
  foldl (λ vs kv, if decide (kv.1 = k) then
                    match eval_header_value exec kv.2 with Some v => [v] | None => vs end
                  else vs) vs l.

Lemma foldl_add_get_all exec l h k :
  hdr_get_all (foldl (add_one exec) h l) k = added exec k (hdr_get_all h k) l.
Proof.
  revert h. induction l as [|[k' e] l IH]; intros h; [done|]. simpl. rewrite IH. unfold added at 2. simpl.
  f_equal. unfold add_one. simpl. destruct (eval_header_value exec e).
  - rewrite hdr_get_all_append. case_decide; [done|]. by rewrite app_nil_r.
  - rewrite hdr_get_all_remove. by case_decide.
Qed.

Lemma foldl_set_get_all exec l h k :
  hdr_get_all (foldl (set_one exec) h l) k = assigned exec k (hdr_get_all h k) l.
Proof.
  revert h. induction l as [|[k' e] l IH]; intros h; [done|]. simpl. rewrite IH. unfold assigned at 2. simpl.
  f_equal. unfold set_one. simpl. destruct (eval_header_value exec e).
  - rewrite hdr_get_all_insert. by case_decide.
  - by case_decide.
Qed.

Lemma foldl_remove_get_all l h k :
  hdr_get_all (foldl hdr_remove h l) k = if decide (k ∈ l) then [] else hdr_get_all h k.
Proof.
  revert h. induction l as [|k' l IH]; intros h; simpl; [done|]. rewrite IH, hdr_get_all_remove.
  repeat case_decide; set_solver.
Qed.

(** A header that an addition fails for keeps none of the values it had before. *)
Lemma added_failed exec k vs l :
  Exists (λ kv, kv.1 = k ∧ eval_header_value exec kv.2 = None) l →
  added exec k vs l = added exec k [] l.
Proof.
  intros Hex. revert vs. induction Hex as [[k' e] l [Hk He]|[k' e] l _ IH]; intros vs;
    unfold added; simpl in *.
  - destruct (decide (k' = k)); [|done]. by rewrite He.
  - case_decide; [|apply IH]. destruct (eval_header_value exec e); [|done].
    fold (added exec k (vs ++ [s]) l). fold (added exec k ([] ++ [s]) l). rewrite IH. symmetry. apply IH.
Qed.

Lemma added_other exec k vs l : k ∉ l.*1 → added exec k vs l = vs.
Proof.
  induction l as [|kv l IH]; [done|]. csimpl. intros Hk. unfold added. simpl.
  rewrite decide_False by set_solver. apply IH. set_solver.
Qed.

Lemma assigned_failed exec k vs l :
  Forall (λ kv, kv.1 = k → eval_header_value exec kv.2 = None) l → assigned exec k vs l = vs.
Proof.
  induction 1 as [|kv l Hkv _ IH]; [done|]. unfold assigned. simpl.
  case_decide; [by rewrite Hkv|done].
Qed.

(** A transformation whose context can be built. For every header: the values
    added are appended in order, but an addition whose expression fails drops what
    was there before it; then the last assignment that has a value replaces them;
    then removals. A body expression that fails gives an empty body, and the
    [content-length] goes with the old body. So a header that the configuration
    adds is never left with a client's value when its expression fails; one that it
    sets is. *)
Theorem transformation_apply h body cfg ctx exec :
  build ctx = Some exec →
  ∃ h' body', apply h body cfg ctx = (h', body', Ok ()) ∧
    body' = match tc_body cfg with Some b => default "" (eval_body exec b) | None => body end ∧
    (∀ k, hdr_get_all h' k =
       if decide (k ∈ tc_remove cfg ∨ k = "content-length" ∧ is_Some (tc_body cfg)) then []
       else assigned exec k (added exec k (hdr_get_all h k) (tc_add cfg)) (tc_set cfg)) ∧
    (∀ k, Exists (λ kv, kv.1 = k ∧ eval_header_value exec kv.2 = None) (tc_add cfg) →
       added exec k (hdr_get_all h k) (tc_add cfg) = added exec k [] (tc_add cfg)) ∧
    (∀ k, k ∉ (tc_add cfg).*1 → k ∉ tc_remove cfg → k ≠ "content-length" →
       Forall (λ kv, kv.1 = k → eval_header_value exec kv.2 = None) (tc_set cfg) →
       hdr_get_all h' k = hdr_get_all h k).
Proof.
  intros Hb. unfold apply. rewrite Hb.
  set (h1 := foldl hdr_remove (foldl (set_one exec) (foldl (add_one exec) h (tc_add cfg)) (tc_set cfg))
               (tc_remove cfg)).
  assert (∀ k, hdr_get_all h1 k = if decide (k ∈ tc_remove cfg) then []
    else assigned exec k (added exec k (hdr_get_all h k) (tc_add cfg)) (tc_set cfg)) as Hh1.
  { intros k. unfold h1. by rewrite foldl_remove_get_all, foldl_set_get_all, foldl_add_get_all. }
  clearbody h1.
  assert (∀ k, k ∉ (tc_add cfg).*1 →
    Forall (λ kv, kv.1 = k → eval_header_value exec kv.2 = None) (tc_set cfg) →
    assigned exec k (added exec k (hdr_get_all h k) (tc_add cfg)) (tc_set cfg) = hdr_get_all h k) as Hkeep.
  { intros k Hadd Hset. by rewrite added_other, assigned_failed. }
  destruct (tc_body cfg) as [b|] eqn:Hbody.
  - eexists _, _. split_and!; [done|done| |intros; by apply added_failed|].
    + intros k. rewrite hdr_get_all_remove, Hh1. repeat case_decide; naive_solver.
    + intros k Hk1 Hk2 Hk3 Hk4. rewrite hdr_get_all_remove, Hh1, !decide_False by done. by apply Hkeep.
  - eexists _, _. split_and!; [done|done| |intros; by apply added_failed|].
    + intros k. rewrite Hh1. destruct (decide (k ∈ tc_remove cfg)).
      * by rewrite decide_True by auto.
      * rewrite decide_False; [done|]. intros [?|[_ []]]; done.
    + intros k Hk1 Hk2 Hk3 Hk4. rewrite Hh1, decide_False by done. by apply Hkeep.
Qed.
End application.

(** ** Example *)

Module TransformationExample.
#[local] Existing Instance gmap_headers.
#[local] Existing Instance example_parsers.

(** An engine whose expressions are their own text; ["fail"] fails. *)
Definition engine : CelEngine := {|
  Executor := ();
  build_with_mcp _ _ := Some ();
  eval _ e := if Str.eqb (original_expression e) "fail" then None else Some (CString (original_expression e));
  value_json _ := None
|}.
#[local] Existing Instance engine.

Definition expr (s : string) : Expression := {| original_expression := s; expr_attributes := ∅ |}.

Definition config : TransformerConfig :=
  {| tc_add := [("x-user", expr "fail")]; tc_set := [("x-role", expr "fail")]; tc_remove := [];
     tc_body := None |}.

Definition client_headers : HeaderMap :=
  hdr_insert (hdr_insert hdr_new "x-user" "mallory") "x-role" "admin".

(** The client's [x-user] is dropped, its [x-role] is kept. *)
Lemma transformation_apply_witness :
  ∃ h', hdr_get_all h' "x-user" = [] ∧ hdr_get_all h' "x-role" = ["admin"].
Proof.
  destruct (@transformation_apply gmap_headers example_parsers engine Some (λ _, None) gmap_headers_laws
    client_headers "" config ContextBuilder_new () eq_refl) as (h' & b' & _ & _ & Hget & _ & Hkeep).
  exists h'. split.
  - rewrite (Hget "x-user"). reflexivity.
  - rewrite Hkeep; [reflexivity|..].
    + simpl. set_solver.
    + simpl. set_solver.
    + discriminate.
    + repeat constructor.
Defined.
End TransformationExample.
