(* ===== verification/A2a.v ===== *)
(** A2a: agent-to-agent traffic ([a2a/mod.rs] and the request types of the
    [a2a-sdk] crate): which method a request calls, and the address in an agent's
    card. *)
From S2P Require Import Prelude Strs Json Http DiscoveryTypes AgentTypes Filters.

(** * Requests of the protocol *)

Inductive A2aRequest :=
| SendTaskRequest (params : Value)
| SendSubscribeTaskRequest (params : Value)
| TaskPushNotificationGetRequest (params : Value)
| TaskPushNotificationSetRequest (params : Value)
| TaskResubscribeRequest (params : Value)
| SendMessageRequest (params : Value)
| SendStreamingMessageRequest (params : Value)
| GetTaskRequest (params : Value)
| CancelTaskRequest (params : Value)
| SetTaskPushNotificationConfigRequest (params : Value)
| GetTaskPushNotificationConfigRequest (params : Value)
| TaskResubscriptionRequest (params : Value)
| ListTaskPushNotificationConfigRequest (params : Value)
| DeleteTaskPushNotificationConfigRequest (params : Value).

(** The constants of the request types. *)
Definition method (r : A2aRequest) : string :=
  match r with
  | SendTaskRequest _ => "tasks/send"
  | SendSubscribeTaskRequest _ => "tasks/sendSubscribe"
  | GetTaskRequest _ => "tasks/get"
  | CancelTaskRequest _ => "tasks/cancel"
  | TaskPushNotificationGetRequest _ => "tasks/pushNotification/get"
  | TaskPushNotificationSetRequest _ => "tasks/pushNotification/set"
  | TaskResubscribeRequest _ => "tasks/resubscribe"
  | SendMessageRequest _ => "message/send"
  | SendStreamingMessageRequest _ => "message/stream"
  | SetTaskPushNotificationConfigRequest _ => "tasks/pushNotificationConfig/set"
  | GetTaskPushNotificationConfigRequest _ => "tasks/pushNotificationConfig/get"
  | TaskResubscriptionRequest _ => "tasks/resubscribe"
  | ListTaskPushNotificationConfigRequest _ => "tasks/pushNotificationConfig/list"
  | DeleteTaskPushNotificationConfigRequest _ => "tasks/pushNotificationConfig/delete"
  end.

(** The variants in the order in which an untagged enum is tried. *)
Definition variants : list (Value → A2aRequest) :=
  [SendTaskRequest; SendSubscribeTaskRequest; TaskPushNotificationGetRequest;
   TaskPushNotificationSetRequest; TaskResubscribeRequest; SendMessageRequest;
   SendStreamingMessageRequest; GetTaskRequest; CancelTaskRequest;
   SetTaskPushNotificationConfigRequest; GetTaskPushNotificationConfigRequest;
   TaskResubscriptionRequest; ListTaskPushNotificationConfigRequest;
   DeleteTaskPushNotificationConfigRequest].

Section requests.
Context `{!HeaderMapOps, !BodyReader}.
(** [HeaderValue::to_str] and the parser of the [mime] crate; [serde_json]. *)
Context (to_str : string → option string) (mime_parse : string → option (string * string)).
Context (parse_json : string → option Value).
(** Whether the parameters have the fields the type of a request requires. *)
Context (params_ok : A2aRequest → bool).

(** [Request<M, P>]: the fields [method] and [params] of an object; the method
    has to be the constant of the type. *)
Definition A2aRequest_from_value (v : Value) : option A2aRequest :=
  m ← traverse v ["method"]; m ← as_str m;
  params ← traverse v ["params"];
  find_map (λ mk, let r := mk params in
                  if Str.eqb (method r) m && params_ok r then Some r else None) variants.

Definition A2aRequest_from_slice (s : string) : option A2aRequest :=
  v ← parse_json s; A2aRequest_from_value v.

(** * Requests *)

Inductive RequestType := Unknown | AgentCard (uri : Uri) | Call (method : string).

Definition agent_card_path : string := "/.well-known/agent.json".

Definition with_body (req : Request) (body : string) : Request :=
  {| req_method := req_method req; req_uri := req_uri req; req_headers := req_headers req;
     req_body := body; req_original_url := req_original_url req |}.

Definition classify_request (req : Request) : Request * RequestType :=
  if Str.eqb (uri_path (req_uri req)) agent_card_path && Str.eqb (req_method req) "GET" then
    (req, AgentCard (default (req_uri req) (req_original_url req)))
  else if Str.eqb (req_method req) "POST" then
    match classify_content_type to_str mime_parse (req_headers req) with
    | Json =>
      let '(body, call) := inspect_body A2aRequest_from_slice (req_body req) in
      (with_body req body, Call (match call with Some call => method call | None => "unknown" end))
    | _ => (req, Call "unknown")
    end
  else (req, Unknown).

Definition apply_to_request (pol : option A2aPolicy) (req : Request) : Request * RequestType :=
  match pol with None => (req, Unknown) | Some _ => classify_request req end.

(** ** Facts *)

Lemma A2aRequest_method v r :
  A2aRequest_from_value v = Some r → traverse v ["method"] = Some (Str (method r)).
Proof.
  unfold A2aRequest_from_value. intros (m & Hm & Hr)%bind_Some.
  apply bind_Some in Hr as (s & Hs & Hr). apply bind_Some in Hr as (params & _ & Hr).
  apply find_map_Some in Hr as (l1 & mk & l2 & _ & Hmk & _).
  destruct (Str.eqb _ s && _) eqn:Hb in Hmk; [|done]. injection Hmk as <-.
  apply andb_true_iff in Hb as [->%Str.eqb_eq _]. rewrite Hm. destruct m; naive_solver.
Qed.

(** The method of a request is in the table. *)
Lemma A2aRequest_known v r : A2aRequest_from_value v = Some r → ∃ mk p, mk ∈ variants ∧ r = mk p.
Proof.
  unfold A2aRequest_from_value. intros (m & Hm & Hr)%bind_Some.
  apply bind_Some in Hr as (s & Hs & Hr). apply bind_Some in Hr as (params & _ & Hr).
  apply find_map_Some in Hr as (l1 & mk & l2 & Hl & Hmk & _).
  destruct (Str.eqb _ s && _) in Hmk; [|done]. injection Hmk as <-.
  exists mk, params. rewrite Hl. set_solver.
Qed.

(** Reading the method of an agent-to-agent call. A call is reported with the
    [method] its message carries, one of the protocol's, or as unknown; the
    request goes on unchanged when its body is within the limit, and otherwise
    with an empty body. *)
Theorem a2a_classify `{!BodyReaderLaws} pol req :
  let '(req', ty) := apply_to_request (Some pol) req in
  (∀ m, ty = Call m → m = "unknown" ∨
     ∃ v r, parse_json (req_body req) = Some v ∧ traverse v ["method"] = Some (Str m) ∧ m = method r) ∧
  (∀ uri, ty = AgentCard uri → req_method req = "GET" ∧ uri_path (req_uri req) = agent_card_path) ∧
  (req' = req ∨ (BODY_LIMIT < N.of_nat (Str.len (req_body req)))%N ∧ req' = with_body req "").
Proof.
  simpl. unfold classify_request.
  destruct (Str.eqb (uri_path _) _ && _) eqn:Hcard.
  { apply andb_true_iff in Hcard as [?%Str.eqb_eq ?%Str.eqb_eq]. split_and!; [done|done|by left]. }
  destruct (Str.eqb (req_method req) "POST"); [|split_and!; [done|done|by left]].
  destruct (classify_content_type _ _ _); [|split_and!; [naive_solver|done|by left]..].
  unfold inspect_body. destruct (decide (N.of_nat (Str.len (req_body req)) ≤ BODY_LIMIT)%N) as [Hl|Hl].
  - rewrite to_bytes_within by done. split_and!; [|done|left; by destruct req].
    unfold A2aRequest_from_slice. destruct (parse_json (req_body req)) as [v|] eqn:Hv; [|naive_solver].
    cbn [mbind option_bind]. destruct (A2aRequest_from_value v) as [r|] eqn:Hr; [|naive_solver].
    intros m [= <-]. right. exists v, r. split_and!; [done|by apply A2aRequest_method|done].
  - rewrite to_bytes_beyond by lia. split_and!; [naive_solver|done|right; split; [lia|done]].
Qed.
End requests.

(** * Responses *)

Section responses.
Context `{!HeaderMapOps, !HttpParsers, !BodyReader}.
Context (parse_json : string → option Value) (print_json : Value → option string).

(** The address at which the agent was found, without the suffix of the card. *)
Definition card_url (uri : Uri) : string :=
  match Str.strip_suffix agent_card_path (uri_path uri) with
  | Some p => Str.replace (uri_path uri) p (Uri_to_string uri)
  | None => Uri_to_string uri
  end.

Inductive A2aError := InvalidJSON | MissingURL | NotSerializable.

Definition with_resp_body (resp : Response) (body : string) : Response :=
  {| resp_status := resp_status resp; resp_headers := resp_headers resp; resp_body := body |}.

Definition apply_to_response (pol : option A2aPolicy) (a2a_type : RequestType) (resp : Response)
    : Response * result () A2aError :=
  match pol, a2a_type with
  | Some _, AgentCard uri =>
    let body := resp_body resp in
    let resp := with_resp_body resp "" in
    match from_body parse_json body with
    | None => (resp, Err InvalidJSON)
    | Some agent_card =>
      match traverse_mut agent_card ["url"] (λ _, Str (card_url uri)) with
      | None => (resp, Err MissingURL)
      | Some agent_card =>
        let resp := {| resp_status := resp_status resp;
                       resp_headers := hdr_remove (resp_headers resp) "content-length";
                       resp_body := resp_body resp |} in
        match to_body print_json agent_card with
        | Some b => (with_resp_body resp b, Ok ())
        | None => (resp, Err NotSerializable)
        end
      end
    end
  | _, _ => (resp, Ok ())
  end.

(** ** Facts *)

Lemma strip_card_suffix uri p :
  uri_path uri = p +:+ agent_card_path → card_url uri = Str.replace (uri_path uri) p (Uri_to_string uri).
Proof. unfold card_url. by intros ->%Str.strip_suffix_Some. Qed.

(** The card of an agent. When the upstream answers with a JSON object that has
    a [url], the client gets the same object with the gateway's own address in that
    field, taken from the URL the client used, and nothing else changed; the old
    [content-length] is dropped. Any other answer is an error. *)
Theorem a2a_agent_card `{!HeaderMapLaws, !BodyReaderLaws} pol uri resp :
  (N.of_nat (Str.len (resp_body resp)) ≤ BODY_LIMIT)%N →
  match apply_to_response (Some pol) (AgentCard uri) resp with
  | (resp', Ok _) =>
    ∃ card card', parse_json (resp_body resp) = Some card ∧ print_json card' = Some (resp_body resp') ∧
      traverse card' ["url"] = Some (Str (card_url uri)) ∧
      (∀ k q, k ≠ "url" → traverse card' (k :: q) = traverse card (k :: q)) ∧
      resp_status resp' = resp_status resp ∧
      ∀ k, hdr_get_all (resp_headers resp') k =
        if decide (k = "content-length") then [] else hdr_get_all (resp_headers resp) k
  | (_, Err InvalidJSON) => parse_json (resp_body resp) = None
  | (_, Err MissingURL) => ∃ card, parse_json (resp_body resp) = Some card ∧ traverse card ["url"] = None
  | (_, Err NotSerializable) => ∃ card, print_json card = None
  end.
Proof.
  intros Hlen. unfold apply_to_response, from_body, to_body. rewrite to_bytes_within by done.
  cbn [mbind option_bind]. destruct (parse_json (resp_body resp)) as [card|] eqn:Hp; [|done].
  destruct (traverse_mut card ["url"] _) as [card'|] eqn:Hm.
  - destruct (print_json card') as [b|] eqn:Hb; [|by exists card']. exists card, card'.
    destruct (proj1 (traverse_mut_is_Some card ["url"] (λ _, Str (card_url uri)))) as [w Hw];
      [by eexists|].
    split_and!; [done|done| | |done|].
    + pose proof (traverse_mut_get _ _ _ _ [] Hm) as Hg. by rewrite Hw in Hg.
    + intros k q Hk. by apply (traverse_mut_other card [] "url" k (λ _, Str (card_url uri)) card' [] q).
    + intros k. simpl. rewrite hdr_get_all_remove. repeat case_decide; congruence.
  - exists card. split; [done|]. apply eq_None_not_Some.
    rewrite <-(traverse_mut_is_Some card ["url"] (λ _, Str (card_url uri))), Hm. by intros [].
Qed.
End responses.


Module A2aExample.
#[local] Existing Instance gmap_headers.
#[local] Existing Instance example_parsers.
#[local] Existing Instance limited_reader.

(** Two JSON texts with the values they stand for. *)
Definition parse (s : string) : option Value :=
  if Str.eqb s "card" then Some (Object [("name", Str "a"); ("url", Str "http://inner")])
  else if Str.eqb s "call" then Some (Object [("method", Str "message/send"); ("params", Null)])
  else None.

Definition print (v : Value) : option string :=
  match traverse v ["url"] with Some (Str u) => Some u | _ => None end.

Definition card_uri : Uri := example_uri "/a/.well-known/agent.json".

Definition response : Response :=
  {| resp_status := 200; resp_headers := hdr_insert hdr_new "content-length" "4"; resp_body := "card" |}.

Lemma a2a_agent_card_witness :
  let r := apply_to_response parse print (Some Build_A2aPolicy) (AgentCard card_uri) response in
  ∃ card', print card' = Some (resp_body r.1) ∧ traverse card' ["name"] = Some (Str "a").
Proof.
  intros r. assert (r.2 = Ok ()) as Hr by (vm_compute; reflexivity).
  pose proof (@a2a_agent_card _ _ _ parse print gmap_headers_laws limited_reader_laws Build_A2aPolicy
    card_uri response ltac:(vm_compute; discriminate)) as H.
  fold r in H. clearbody r. destruct r as [resp' r]. simpl in Hr. subst r.
  destruct H as (card & card' & Hp & Hpr & _ & Hframe & _). exists card'. split; [exact Hpr|].
  rewrite Hframe by discriminate. injection Hp as <-. reflexivity.
Defined.

Definition call_request : Request :=
  {| req_method := "POST"; req_uri := example_uri "/"; req_body := "call";
     req_headers := hdr_insert hdr_new "content-type" "application/json"; req_original_url := None |}.

Lemma a2a_classify_witness :
  let r := apply_to_request Some (λ _, Some ("application", "json")) parse (λ _, true)
             (Some Build_A2aPolicy) call_request in
  r.2 = Call "message/send" ∧ r.1 = call_request.
Proof.
  intros r. assert (r.2 = Call "message/send") as Hr by (vm_compute; reflexivity). split; [exact Hr|].
  pose proof (@a2a_classify _ _ Some (λ _, Some ("application", "json")) parse (λ _, true)
    limited_reader_laws Build_A2aPolicy call_request) as H.
  fold r in H. clearbody r. destruct r as [req' ty].
  destruct H as (_ & _ & [H|[H _]]); [exact H|vm_compute in H; discriminate].
Defined.
End A2aExample.
