(* ===== verification/BufList.v ===== *)
(** BufList: the list of buffers behind replayed bodies ([http/buflist.rs]).

    A [BufList<Bytes>] is a queue of chunks that is read as one sequence of bytes.
    A chunk ([bytes::Bytes]) is the list of its unread bytes.  [BytesMut::put] and
    [Buf::take] belong to the [bytes] crate: the two ways in which
    [copy_to_bytes] drains the list through them are an interface ([PutOps]) with
    the documented behaviour ([PutLaws]), which holds for sources that keep the
    contract of [Buf] ([BufContract]); the list keeps it as long as it holds no
    empty chunk. *)
From S2P Require Import Prelude.

Definition bytes : Type := list ascii.

(** * The [bytes::Buf] interface *)

Class Buf (S : Type) := {
  buf_remaining : S → nat;
  buf_chunk : S → bytes;
  buf_advance : S → nat → comp S
}.

(** The documentation of [Buf]: [inv] are the states in which [contents] is what
    is left to read. *)
Class BufContract {S : Type} `{!Buf S} (inv : S → Prop) (contents : S → bytes) : Prop := {
  buf_remaining_ok : ∀ s, inv s → buf_remaining s = length (contents s);
  buf_chunk_ok : ∀ s, inv s → buf_chunk s `prefix_of` contents s;
  buf_chunk_nil : ∀ s, inv s → buf_chunk s = [] → buf_remaining s = 0;
  buf_advance_ok : ∀ s n, inv s → n ≤ buf_remaining s →
    ∃ s', buf_advance s n = Ret s' ∧ inv s' ∧ contents s' = drop n (contents s)
}.

(** [bm.put(src)] and [bm.put(src.take(len))]. *)
Class PutOps (S : Type) := {
  put_all : bytes → S → comp (bytes * S);
  put_take : bytes → nat → S → comp (bytes * S)
}.

Class PutLaws {S : Type} `{!Buf S, !PutOps S} : Prop := {
  put_all_ok : ∀ inv contents, BufContract inv contents → ∀ bm s, inv s →
    ∃ s', put_all bm s = Ret (bm ++ contents s, s') ∧ inv s' ∧ contents s' = [];
  put_take_ok : ∀ inv contents, BufContract inv contents → ∀ bm n s, inv s →
    ∃ s', put_take bm n s = Ret (bm ++ take n (contents s), s') ∧ inv s' ∧
      contents s' = drop n (contents s)
}.

(** The transfer loop of the [bytes] documentation, with the number of chunks it
    may take as fuel. *)
Fixpoint put_loop {S : Type} `{!Buf S} (fuel : nat) (bm : bytes) (limit : nat) (s : S) : comp (bytes * S) :=
  match fuel with
  | O => Panic
  | Datatypes.S fuel =>
    let l := min limit (buf_remaining s) in
    match l with
    | O => Ret (bm, s)
    | _ => let c := take l (buf_chunk s) in
           s' ← buf_advance s (length c); put_loop fuel (bm ++ c) (limit - length c) s'
    end
  end.

Definition put_ops {S : Type} `{!Buf S} : PutOps S := {|
  put_all bm s := put_loop (Datatypes.S (buf_remaining s)) bm (buf_remaining s) s;
  put_take bm n s := put_loop (Datatypes.S (buf_remaining s)) bm n s
|}.

(** * The list of buffers *)

Module BufList.
Definition t : Type := list bytes.

Definition new : t := [].

(** [debug] is [cfg!(debug_assertions)]. *)
Definition push (debug : bool) (self : t) (buf : bytes) : comp t :=
  if debug && bool_decide (buf = []) then Panic else Ret (self ++ [buf]).

Definition pop (self : t) : t * option bytes :=
  match self with
  | [] => ([], None)
  | b :: self => (self, Some b)
  end.

Definition get_chunk (self : t) (idx : nat) : option bytes := self !! idx.

Definition clear (self : t) : t := [].

Definition remaining (self : t) : nat := sum_list (length <$> self).

Definition chunk (self : t) : bytes := default [] (head self).

(** [dst] is the number of slots; the slices that were stored. *)
Fixpoint chunks_vectored (self : t) (dst : nat) : list bytes :=
  match dst, self with
  | O, _ | _, [] => []
  | S n, [] :: self => chunks_vectored self dst
  | S n, buf :: self => buf :: chunks_vectored self n
  end.

(** Indexing the first buffer of an empty list panics. *)
Fixpoint advance (self : t) (cnt : nat) : comp t :=
  match cnt with
  | O => Ret self
  | _ =>
    match self with
    | [] => Panic
    | front :: self =>
      let rem := length front in
      if decide (cnt < rem) then Ret (drop cnt front :: self) else advance self (cnt - rem)
    end
  end.

Definition has_remaining (self : t) : bool := existsb (λ b, bool_decide (b ≠ [])) self.

#[global] Instance buf : Buf t := {|
  buf_remaining := remaining; buf_chunk := chunk; buf_advance := advance
|}.

Section copy.
Context `{!PutOps t}.

Definition copy_to_bytes (self : t) (len : nat) : comp (t * bytes) :=
  let through_put :=
    let rem := remaining self in
    if decide (len ≤ rem) then
      '(b, self) ← (if decide (rem = len) then put_all [] self else put_take [] len self);
      Ret (self, b)
    else Panic in
  match self with
  | front :: rest =>
    if decide (length front = len) then Ret (rest, front)
    else if decide (len < length front) then Ret (drop len front :: rest, take len front)
    else through_put
  | [] => through_put
  end.
End copy.

(** ** Specification: a flat sequence of bytes *)

Definition contents (self : t) : bytes := concat self.

(** What [push] asserts in debug builds. *)
Definition no_empty (self : t) : Prop := Forall (λ b, b ≠ []) self.

Inductive Op :=
| Push (b : bytes) | Pop | GetChunk (i : nat) | Chunk | ChunksVectored (n : nat)
| Advance (n : nat) | CopyToBytes (n : nat) | Clear.

Inductive Answer := ANone | ABytes (b : bytes) | AChunk (c : option bytes) | AChunks (l : list bytes).

(** What a reader sees between operations. *)
Record View := { v_remaining : nat; v_has_remaining : bool; v_answer : Answer }.

Section runs.
Context `{!PutOps t} (debug : bool).

Definition run_op (self : t) (op : Op) : comp (t * Answer) :=
  match op with
  | Push b => self ← push debug self b; Ret (self, ANone)
  | Pop => let '(self, c) := pop self in Ret (self, AChunk c)
  | GetChunk i => Ret (self, AChunk (get_chunk self i))
  | Chunk => Ret (self, ABytes (chunk self))
  | ChunksVectored n => Ret (self, AChunks (chunks_vectored self n))
  | Advance n => self ← advance self n; Ret (self, ANone)
  | CopyToBytes n => '(self, b) ← copy_to_bytes self n; Ret (self, ABytes b)
  | Clear => Ret (clear self, ANone)
  end.

Fixpoint run (self : t) (ops : list Op) : comp (list View) :=
  match ops with
  | [] => Ret []
  | op :: ops =>
    '(self, a) ← run_op self op;
    vs ← run self ops;
    Ret ({| v_remaining := remaining self; v_has_remaining := has_remaining self; v_answer := a |} :: vs)
  end.
End runs.

(** The operations on one flat buffer.  Those that hand out chunks may cut the
    bytes anywhere, but never hand out an empty chunk. *)
Definition flat_op (s : bytes) (op : Op) (s' : bytes) (a : Answer) : Prop :=
  match op with
  | Push b => s' = s ++ b ∧ a = ANone
  | Pop =>
    match a with
    | AChunk (Some c) => c ≠ [] ∧ s = c ++ s'
    | AChunk None => s = [] ∧ s' = []
    | _ => False
    end
  | GetChunk i =>
    s' = s ∧
    match a with
    | AChunk (Some c) => c ≠ [] ∧ ∃ pre post, s = pre ++ c ++ post ∧ i ≤ length pre ∧ (i = 0 → pre = [])
    | AChunk None => i = 0 → s = []
    | _ => False
    end
  | Chunk =>
    s' = s ∧ match a with ABytes c => c `prefix_of` s ∧ (c = [] → s = []) | _ => False end
  | ChunksVectored n =>
    s' = s ∧
    match a with
    | AChunks l => Forall (λ c, c ≠ []) l ∧ length l ≤ n ∧ concat l `prefix_of` s ∧ (length l < n → concat l = s)
    | _ => False
    end
  | Advance n => s' = drop n s ∧ a = ANone
  | CopyToBytes n => s' = drop n s ∧ a = ABytes (take n s)
  | Clear => s' = [] ∧ a = ANone
  end.

(** The operations that panic: an empty write in a debug build, and a skip or a read
    past the end. *)
Definition flat_panics (debug : bool) (s : bytes) (op : Op) : Prop :=
  match op with
  | Push b => debug = true ∧ b = []
  | Advance n | CopyToBytes n => length s < n
  | _ => False
  end.

Fixpoint flat_run (debug : bool) (s : bytes) (ops : list Op) (r : comp (list View)) : Prop :=
  match ops with
  | [] => r = Ret []
  | op :: ops =>
    flat_panics debug s op ∧ r = Panic ∨
    ¬ flat_panics debug s op ∧ ∃ s' a vs, flat_op s op s' a ∧ flat_run debug s' ops vs ∧
      r = (vs ← vs; Ret ({| v_remaining := length s'; v_has_remaining := bool_decide (s' ≠ []);
                            v_answer := a |} :: vs))
  end.

(** An empty write: a panic in a debug build; a release build stores the empty chunk
    ([put_loop_empty_chunk] below shows what that does). *)
Definition writes_something (op : Op) : Prop :=
  match op with Push b => b ≠ [] | _ => True end.

(** ** Facts *)

Lemma remaining_contents self : remaining self = length (contents self).
Proof.
  unfold remaining, contents. induction self as [|b self IH]; [done|]. csimpl.
  rewrite length_app. lia.
Qed.

Lemma has_remaining_contents self : has_remaining self = bool_decide (contents self ≠ []).
Proof.
  unfold has_remaining, contents. induction self as [|b self IH]; [done|]. csimpl.
  rewrite IH. destruct b; repeat case_bool_decide; naive_solver.
Qed.

(** Reading past the end panics, even where chunks are empty. *)
Lemma advance_contents self n :
  if decide (n ≤ length (contents self))
  then ∃ self', advance self n = Ret self' ∧ contents self' = drop n (contents self) ∧
         (no_empty self → no_empty self')
  else advance self n = Panic.
Proof.
  revert n. induction self as [|b self IH]; intros n.
  { destruct n as [|n]; simpl; [by exists []|done]. }
  destruct n as [|n]; [by exists (b :: self)|]. cbn [advance].
  unfold contents in *. cbn [concat]. rewrite length_app.
  destruct (decide (S n < length b)) as [Hlt|Hge].
  - rewrite decide_True by lia. exists (drop (S n) b :: self). cbn [concat].
    split_and!; [done| |].
    + by rewrite drop_app_le by lia.
    + intros [_ ?]%Forall_cons. constructor; [|done].
      intros Hd%(f_equal length). rewrite length_drop in Hd. simpl in Hd. lia.
  - specialize (IH (S n - length b)). rewrite drop_app_ge by lia.
    destruct (decide (S n - length b ≤ length (concat self))).
    + rewrite decide_True by lia. destruct IH as (self' & ? & ? & ?). exists self'.
      split_and!; [done|done|]. intros [_ ?]%Forall_cons. auto.
    + by rewrite decide_False by lia.
Qed.

#[global] Instance contract : BufContract no_empty contents.
Proof.
  split.
  - intros s _. apply remaining_contents.
  - intros [|b s] _; simpl; [done|]. by exists (concat s).
  - intros [|b s]; [done|]. by intros [Hb _]%Forall_cons Hn.
  - intros s n Hs Hn. change (buf_remaining s) with (remaining s) in Hn.
    rewrite remaining_contents in Hn.
    pose proof (advance_contents s n) as Ha. rewrite decide_True in Ha by done.
    destruct Ha as (s' & ? & ? & ?). eauto.
Qed.

Lemma copy_to_bytes_contents `{!PutOps t, !PutLaws} self len :
  no_empty self →
  if decide (len ≤ length (contents self))
  then ∃ self', copy_to_bytes self len = Ret (self', take len (contents self)) ∧
         contents self' = drop len (contents self) ∧ no_empty self'
  else copy_to_bytes self len = Panic.
Proof.
  intros Hne. unfold copy_to_bytes. rewrite remaining_contents.
  destruct (decide (len ≤ length (contents self))) as [Hle|Hgt].
  - assert (∃ self',
      ('(b, self) ← (if decide (length (contents self) = len) then put_all [] self
                     else put_take [] len self); Ret (self, b)) =
        Ret (self', take len (contents self)) ∧
      contents self' = drop len (contents self) ∧ no_empty self') as Hput.
    { case_decide as Heq.
      - destruct (put_all_ok _ _ contract [] self Hne) as (s' & -> & ? & ?). exists s'. simpl.
        rewrite take_ge, drop_ge by lia. done.
      - destruct (put_take_ok _ _ contract [] len self Hne) as (s' & -> & ? & ?). by exists s'. }
    destruct self as [|front rest]; [done|].
    apply Forall_cons in Hne as [Hf Hr]. unfold contents. cbn [concat].
    destruct (decide (length front = len)) as [<-|].
    { exists rest. rewrite take_app_length, drop_app_length. done. }
    destruct (decide (len < length front)); [|done].
    exists (drop len front :: rest). rewrite take_app_le, drop_app_le by lia.
    split_and!; [done|done|]. constructor; [|done].
    intros Hd%(f_equal length). rewrite length_drop in Hd. simpl in Hd. lia.
  - destruct self as [|front rest]; [done|]. revert Hgt. unfold contents. cbn [concat].
    rewrite length_app. intros. by rewrite !decide_False by lia.
Qed.

Lemma chunks_vectored_spec self n :
  length (chunks_vectored self n) ≤ n ∧
  concat (chunks_vectored self n) `prefix_of` contents self ∧
  (no_empty self → chunks_vectored self n = take n self).
Proof.
  revert n. induction self as [|b self IH]; intros n.
  - destruct n; simpl; split_and!; try done; lia.
  - destruct n as [|n]; simpl.
    { split_and!; [lia|by apply prefix_nil|done]. }
    destruct b as [|a b].
    + destruct (IH (S n)) as (? & ? & _). split_and!; [done|done|].
      by intros [? _]%Forall_cons.
    + destruct (IH n) as (? & ? & Ht). simpl. split_and!; [lia| |].
      * unfold contents. simpl. by apply prefix_cons, prefix_app.
      * intros [_ ?]%Forall_cons. by rewrite Ht.
Qed.

Lemma get_chunk_flat self i :
  no_empty self → flat_op (contents self) (GetChunk i) (contents self) (AChunk (get_chunk self i)).
Proof.
  intros Hne. split; [done|]. unfold get_chunk. destruct (self !! i) as [c|] eqn:Hc.
  - split; [by eapply (Forall_lookup_1 (λ b, b ≠ [])) in Hc|].
    exists (contents (take i self)), (contents (drop (S i) self)). split_and!.
    + unfold contents. by rewrite <-(take_drop_middle _ _ _ Hc) at 1; rewrite concat_app.
    + assert (no_empty (take i self)) as Ht by by apply Forall_take.
      assert (i = length (take i self)) as Hi.
      { rewrite length_take. apply lookup_lt_Some in Hc. lia. }
      rewrite Hi at 1. clear Hi Hc. generalize dependent (take i self). intros l Hl.
      unfold contents. induction Hl as [|b l Hb Hl IH]; [done|]. csimpl. rewrite length_app.
      destruct b; [done|]. simpl. lia.
    + by intros ->.
  - intros ->. by destruct self.
Qed.

Section equivalence.
Context `{!PutOps t, !PutLaws}.

Lemma run_op_flat debug self op :
  no_empty self → debug = true ∨ writes_something op →
  match run_op debug self op with
  | Ret (self', a) =>
    ¬ flat_panics debug (contents self) op ∧ flat_op (contents self) op (contents self') a ∧ no_empty self'
  | Panic => flat_panics debug (contents self) op
  end.
Proof.
  intros Hne Hw. destruct op as [b| |i| |n|n|n|]; simpl.
  - unfold push. case_bool_decide as Hb; destruct debug; simpl; [done|by destruct Hw| |];
      unfold contents; rewrite concat_app; simpl; rewrite app_nil_r;
      (split_and!; [by intros [??]|done..|]; apply Forall_app; by repeat constructor).
  - destruct Hne as [|c self Hc Hne]; simpl; (split_and!; [by intros []|done..|]); by try constructor.
  - split; [by intros []|]. split; [|done]. by apply get_chunk_flat.
  - split; [by intros []|]. split; [|done]. split; [done|].
    destruct Hne as [|c self Hc Hne]; simpl; [done|]. split; [by apply prefix_app_r|done].
  - destruct (chunks_vectored_spec self n) as (Hlen & Hpre & Ht). rewrite (Ht Hne) in *.
    split_and!; [by intros []|done|by apply Forall_take|done..| |done].
    rewrite length_take. intros Hlt. rewrite take_ge by lia. done.
  - pose proof (advance_contents self n) as Ha. case_decide.
    + destruct Ha as (s' & -> & <- & ?). simpl. split_and!; [lia|auto..].
    + rewrite Ha. simpl. lia.
  - pose proof (copy_to_bytes_contents self n Hne) as Ha. case_decide.
    + destruct Ha as (s' & -> & <- & ?). simpl. split_and!; [lia|auto..].
    + rewrite Ha. simpl. lia.
  - split; [by intros []|]. split; [done|]. by apply Forall_nil.
Qed.

(** C15: the list of chunks is one sequence of bytes. From a list without empty
    chunks, any sequence of its operations (writes, skips, reads, chunks looked at
    or taken out, vectored views, clears) behaves as it does on a flat buffer with
    the same contents: the bytes read, the remaining counts and the panics are those
    of the flat buffer, and the chunks handed out are non-empty pieces of it, from
    the front where the operation says so and complete where there is room. In a
    release build this is for sequences that write no empty chunk, which only debug
    builds refuse. *)
Theorem buflist_flat debug self ops :
  no_empty self → debug = true ∨ Forall writes_something ops →
  flat_run debug (contents self) ops (run debug self ops).
Proof.
  revert self. induction ops as [|op ops IH]; intros self Hne Hw; [done|]. cbn [run flat_run].
  pose proof (run_op_flat debug self op Hne) as Hop.
  destruct (run_op debug self op) as [[self' a]|].
  - destruct Hop as (Hnp & Hop & Hne'); [rewrite Forall_cons in Hw; tauto|]. right. split; [done|].
    exists (contents self'), a, (run debug self' ops). split_and!; [done| |].
    + apply IH; [done|]. rewrite Forall_cons in Hw. tauto.
    + cbn [mbind comp_mbind]. by rewrite remaining_contents, has_remaining_contents.
  - left. split; [|done]. apply Hop. rewrite Forall_cons in Hw. tauto.
Qed.
End equivalence.

(** [put_loop] keeps the documentation's promise. *)
Lemma put_loop_ok {S : Type} `{!Buf S} inv cont (C : BufContract inv cont) (s : S) fuel bm limit :
  inv s → min limit (length (cont s)) < fuel →
  ∃ s', put_loop fuel bm limit s = Ret (bm ++ take limit (cont s), s') ∧ inv s' ∧
    cont s' = drop limit (cont s).
Proof.
  revert bm limit s. induction fuel as [|fuel IH]; intros bm limit s Hs Hf; [lia|]. simpl.
  pose proof (buf_remaining_ok s Hs) as Hr. rewrite Hr.
  destruct (min limit (length (cont s))) as [|l] eqn:Hl.
  { exists s. destruct limit as [|limit]; [by rewrite app_nil_r|].
    assert (cont s = []) as -> by (apply nil_length_inv; lia). by rewrite app_nil_r. }
  destruct (buf_chunk_ok s Hs) as [tl Htl].
  assert (buf_chunk s ≠ []) as Hc by (intros Hn%buf_chunk_nil; [lia|done]).
  set (c := take (Datatypes.S l) (buf_chunk s)).
  assert (0 < length c ≤ Datatypes.S l) as Hlen.
  { unfold c. rewrite length_take. destruct (buf_chunk s); [done|]. simpl. lia. }
  destruct (buf_advance_ok s (length c) Hs) as (s' & -> & Hs' & Hcont); [lia|].
  rewrite comp_bind_ret_l.
  assert (cont s = c ++ cont s') as Hsplit.
  { rewrite Hcont, <-(take_drop (length c) (cont s)) at 1. f_equal.
    rewrite Htl, take_app_le by (unfold c; rewrite length_take; lia).
    unfold c. rewrite length_take. destruct (decide (Datatypes.S l ≤ length (buf_chunk s))).
    - by rewrite Nat.min_l by lia.
    - rewrite Nat.min_r by lia. by rewrite !take_ge by lia. }
  destruct (IH (bm ++ c) (limit - length c) s') as (s'' & -> & ? & Hs''); [done| |].
  { rewrite Hsplit, length_app in Hl. lia. }
  exists s''. split_and!; [|done|].
  - rewrite Hsplit. rewrite take_app_ge by lia. by rewrite app_assoc.
  - rewrite Hs'', Hsplit. by rewrite drop_app_ge by lia.
Qed.

#[global] Instance put_ops_laws {S : Type} `{!Buf S} : @PutLaws S _ put_ops.
Proof.
  split; intros inv cont C bm.
  - intros s Hs. destruct (put_loop_ok inv cont C s (Datatypes.S (buf_remaining s)) bm
      (buf_remaining s) Hs) as (s' & Hp & ? & Hd); [rewrite (buf_remaining_ok s Hs); lia|].
    pose proof (buf_remaining_ok s Hs) as Hr. rewrite take_ge in Hp by lia.
    rewrite drop_ge in Hd by lia. by exists s'.
  - intros n s Hs. pose proof (buf_remaining_ok s Hs) as Hr.
    apply (put_loop_ok inv cont C s _ bm n Hs). lia.
Qed.

(** An empty chunk, which [push] refuses only in debug builds, stops the transfer
    loop: it makes no progress however long it runs. *)
Lemma put_loop_empty_chunk fuel bm limit b (self : t) :
  b ≠ [] → 0 < limit → put_loop fuel bm limit ([] :: b :: self) = Panic.
Proof.
  intros Hb Hl. revert bm. induction fuel as [|fuel IH]; intros bm; [done|]. cbn [put_loop].
  destruct (min limit (buf_remaining ([] :: b :: self))) as [|l] eqn:Hm.
  { exfalso. change (buf_remaining ([] :: b :: self)) with (length b + remaining self) in Hm.
    destruct b; [done|]. simpl in Hm. lia. }
  simpl. rewrite Nat.sub_0_r. apply IH.
Qed.

(** In a release build, a sequence that looks at chunks, reads across them and reads
    past the end. *)
Lemma buflist_flat_witness :
  let self := [["a"; "b"]; ["c"]; ["d"; "e"]]%char in
  let ops := [GetChunk 1; CopyToBytes 3; Push ["f"%char]; Pop; ChunksVectored 2; CopyToBytes 1] in
  flat_run false ["a"; "b"; "c"; "d"; "e"]%char ops
    (Ret [{| v_remaining := 5; v_has_remaining := true; v_answer := AChunk (Some ["c"]%char) |};
          {| v_remaining := 2; v_has_remaining := true; v_answer := ABytes ["a"; "b"; "c"]%char |};
          {| v_remaining := 3; v_has_remaining := true; v_answer := ANone |};
          {| v_remaining := 1; v_has_remaining := true; v_answer := AChunk (Some ["d"; "e"]%char) |};
          {| v_remaining := 1; v_has_remaining := true; v_answer := AChunks [["f"]%char] |};
          {| v_remaining := 0; v_has_remaining := false; v_answer := ABytes ["f"]%char |}]) ∧
  flat_run false ["a"; "b"; "c"; "d"; "e"]%char (ops ++ [Advance 1]) Panic.
Proof.
  intros self ops. assert (no_empty self) as Hne by (repeat constructor; discriminate).
  split.
  - apply (@buflist_flat put_ops put_ops_laws false self ops Hne). right. repeat constructor. discriminate.
  - apply (@buflist_flat put_ops put_ops_laws false self (ops ++ [Advance 1]) Hne).
    right. repeat constructor. discriminate.
Defined.
End BufList.
