(* ===== verification/Copy.v ===== *)
(** Copy: copying between two connections ([core/src/copy.rs]): the loop that copies one
    direction with its buffer of growing size, and the two directions with their errors.

    A reader and a writer are what they will answer to successive polls. *)
From S2P Require Import Prelude BufList.

(** * Connections *)

Inductive ErrorKind := NotConnected | UnexpectedEof | ConnectionReset | BrokenPipe | WriteZero | OtherKind.

Inductive ReadEv := RPending | RData (data : bytes) | REof | RError (e : ErrorKind).
(** A writer takes up to [n] bytes. *)
Inductive WriteEv := WPending | WTakes (n : nat) | WError (e : ErrorKind).
Inductive FlushEv := FPending | FDone | FError (e : ErrorKind).

(** When there is no more answer, the next never comes. *)
Record Io := mkIo { reads : list ReadEv; writes : list WriteEv; flushes : list FlushEv }.

Inductive Poll (A : Type) := Pending | Ready (r : result A ErrorKind).
Arguments Pending {_}.
Arguments Ready {_} _.

(** * The buffer *)

Definition INITIAL_BUFFER_SIZE : N := 1024.
Definition LARGE_BUFFER_SIZE : N := 16384 - 64.
Definition JUMBO_BUFFER_SIZE : N := 16 * 16384 - 64.
Definition RESIZE_THRESHOLD_LARGE : N := 128 * 1024.
Definition RESIZE_THRESHOLD_JUMBO : N := 10 * 1024 * 1024.

(** [BufReader::poll_bytes]: the bytes of a read; none at the end. *)
Definition poll_bytes (io : Io) : Io * Poll bytes :=
  match reads io with
  | [] => (io, Pending)
  | RPending :: rs => (mkIo rs (writes io) (flushes io), Pending)
  | RData data :: rs => (mkIo rs (writes io) (flushes io), Ready (Ok data))
  | REof :: rs => (mkIo rs (writes io) (flushes io), Ready (Ok []))
  | RError e :: rs => (mkIo rs (writes io) (flushes io), Ready (Err e))
  end.

(** [poll_write_buf] of a buffer with bytes. *)
Definition poll_write_buf (io : Io) (buf : bytes) : Io * Poll nat :=
  match writes io with
  | [] => (io, Pending)
  | WPending :: ws => (mkIo (reads io) ws (flushes io), Pending)
  | WTakes n :: ws => (mkIo (reads io) ws (flushes io), Ready (Ok (Nat.min n (length buf))))
  | WError e :: ws => (mkIo (reads io) ws (flushes io), Ready (Err e))
  end.

Definition poll_flush (io : Io) : Io * Poll () :=
  match flushes io with
  | [] => (io, Pending)
  | FPending :: fs => (mkIo (reads io) (writes io) fs, Pending)
  | FDone :: fs => (mkIo (reads io) (writes io) fs, Ready (Ok ()))
  | FError e :: fs => (mkIo (reads io) (writes io) fs, Ready (Err e))
  end.

(** * One direction *)

(** [CopyBuf], with the size of the reader's buffer and what was written. *)
Record CopyBuf := mkCopy { buf : option bytes; amt : N; buffer_size : N; written : bytes }.

Definition copy_new : CopyBuf := mkCopy None 0 INITIAL_BUFFER_SIZE [].

(** The end of a round: [n] bytes of [buffer] are written. *)
Definition advance (me : CopyBuf) (buffer : bytes) (n : nat) : CopyBuf :=
  let old := amt me in
  let amt := (amt me + N.of_nat n)%N in
  let size := if bool_decide (old < RESIZE_THRESHOLD_LARGE ∧ RESIZE_THRESHOLD_LARGE <= amt)%N then LARGE_BUFFER_SIZE
              else buffer_size me in
  let size := if bool_decide (old < RESIZE_THRESHOLD_JUMBO ∧ RESIZE_THRESHOLD_JUMBO <= amt)%N then JUMBO_BUFFER_SIZE
              else size in
  mkCopy (if decide (n < length buffer) then Some (drop n buffer) else None) amt size (written me ++ take n buffer).

(** [CopyBuf::poll]; [None] when [fuel] rounds are not enough. *)
Fixpoint poll_loop (fuel : nat) (me : CopyBuf) (io : Io) : option (CopyBuf * Io * Poll N) :=
  match fuel with
  | O => None
  | S fuel =>
    let '(me, io, buffer) :=
      match buf me with
      | Some buffer => (mkCopy None (amt me) (buffer_size me) (written me), io, Ready (Ok buffer))
      | None => let '(io, p) := poll_bytes io in (me, io, p)
      end in
    match buffer with
    | Pending => Some (me, io, Pending)
    | Ready (Err e) => Some (me, io, Ready (Err e))
    | Ready (Ok []) =>
      let '(io, p) := poll_flush io in
      Some (me, io, match p with
                    | Pending => Pending
                    | Ready (Err e) => Ready (Err e)
                    | Ready (Ok _) => Ready (Ok (amt me))
                    end)
    | Ready (Ok buffer) =>
      let '(io, p) := poll_write_buf io buffer in
      match p with
      | Pending => Some (mkCopy (Some buffer) (amt me) (buffer_size me) (written me), io, Pending)
      | Ready (Err e) => Some (me, io, Ready (Err e))
      | Ready (Ok O) => Some (me, io, Ready (Err WriteZero))
      | Ready (Ok n) => poll_loop fuel (advance me buffer n) io
      end
    end
  end.

(** The rounds a poll can take. *)
Definition enough (io : Io) : nat := S (length (writes io)).
Definition poll (me : CopyBuf) (io : Io) : option (CopyBuf * Io * Poll N) := poll_loop (enough io) me io.

(** The future is polled until it is ready, at most [polls] times. *)
Fixpoint copy_buf (polls : nat) (me : CopyBuf) (io : Io) : option (CopyBuf * Io * Poll N) :=
  match polls with
  | O => Some (me, io, Pending)
  | S polls =>
    match poll me io with
    | Some (me, io, Pending) => copy_buf polls me io
    | r => r
    end
  end.

(** * Both directions *)

Inductive CopyError :=
| IoError (e : ErrorKind) | ShutdownError (e : CopyError) | BackendDisconnected | ReceiveError (e : CopyError)
| ClientDisconnected | SendError (e : CopyError).

Definition ignore_io_errors (res : result N ErrorKind) : result N ErrorKind :=
  match res with
  | Err (NotConnected | UnexpectedEof | ConnectionReset | BrokenPipe) => Ok 0%N
  | _ => res
  end.

Definition ignore_shutdown_errors (res : result () ErrorKind) : result () ErrorKind :=
  match res with Err (NotConnected | UnexpectedEof) => Ok () | _ => res end.

Definition translate_send (e : ErrorKind) : CopyError :=
  SendError (match e with
             | NotConnected | WriteZero => BackendDisconnected
             | UnexpectedEof => ClientDisconnected
             | _ => IoError e
             end).
Definition translate_receive (e : ErrorKind) : CopyError :=
  ReceiveError (match e with NotConnected | WriteZero => ClientDisconnected | _ => IoError e end).

(** A direction: the copy, then the shutdown of its writer, whatever the copy gave. *)
Definition direction (translate_error : ErrorKind → CopyError) (copied : result N ErrorKind) (shutdown : result () ErrorKind)
    : result N CopyError :=
  let res := map_err translate_error (ignore_io_errors copied) in
  let? _ := map_err ShutdownError (map_err translate_error (ignore_shutdown_errors shutdown)) in
  res.

(** Both directions end before their results are looked at. *)
Definition copy_bidirectional (up down : result N ErrorKind * result () ErrorKind) : result () CopyError :=
  let sent := direction translate_send (fst up) (snd up) in
  let received := direction translate_receive (fst down) (snd down) in
  let? _ := sent in
  let? _ := received in
  Ok ().

(** * Theorems *)

Definition size_for (amt : N) : N :=
  if decide (amt < RESIZE_THRESHOLD_LARGE)%N then INITIAL_BUFFER_SIZE
  else if decide (amt < RESIZE_THRESHOLD_JUMBO)%N then LARGE_BUFFER_SIZE
  else JUMBO_BUFFER_SIZE.

Definition read_data (rs : list ReadEv) : bytes := concat (omap (λ r, match r with RData d => Some d | _ => None end) rs).

Lemma read_data_app rs1 rs2 : read_data (rs1 ++ rs2) = read_data rs1 ++ read_data rs2.
Proof. unfold read_data. by rewrite omap_app, concat_app. Qed.

(** The counter and the size of the buffer say how much was written. *)
Definition copy_ok (me : CopyBuf) : Prop :=
  amt me = N.of_nat (length (written me)) ∧ buffer_size me = size_for (amt me) ∧ buf me ≠ Some [].

Lemma copy_new_ok : copy_ok copy_new.
Proof. by split_and!. Qed.

Lemma advance_ok me buffer n : copy_ok me → n ≤ length buffer → copy_ok (advance me buffer n).
Proof.
  intros (Ha & Hs & Hb) Hn. unfold copy_ok, advance. simpl. split_and!.
  - rewrite length_app, length_take, Ha. lia.
  - rewrite Hs. unfold size_for, RESIZE_THRESHOLD_LARGE, RESIZE_THRESHOLD_JUMBO. repeat case_bool_decide; repeat case_decide; try done; lia.
  - case_decide; [|done]. intros [= Hd]. apply (f_equal length) in Hd. rewrite length_drop in Hd. simpl in Hd. lia.
Qed.

(** What a poll or several have done: [lost] was read and neither written nor kept. *)
Record copied (me : CopyBuf) (io : Io) (me' : CopyBuf) (io' : Io) (r : Poll N) : Prop := {
  cp_ok : copy_ok me';
  cp_writes : length (writes io') ≤ length (writes io);
  cp_data : ∃ consumed lost, reads io = consumed ++ reads io' ∧
    written me ++ default [] (buf me) ++ read_data consumed = written me' ++ default [] (buf me') ++ lost ∧
    match r with
    | Pending => lost = []
    | Ready (Ok n) => lost = [] ∧ buf me' = None ∧ n = amt me' ∧ (∃ c e, consumed = c ++ [e] ∧ (e = REof ∨ e = RData []))
    | Ready (Err _) => buf me' = None
    end
}.

Lemma copied_refl me io : copy_ok me → copied me io me io Pending.
Proof. intros Hok. split; [done|done|]. exists [], []. by rewrite !app_nil_r. Qed.

Lemma copied_trans me io me1 io1 me2 io2 r :
  copied me io me1 io1 Pending → copied me1 io1 me2 io2 r → copied me io me2 io2 r.
Proof.
  intros [_ Hw1 (c1 & l1 & Hr1 & Hd1 & ->)] [Hok Hw2 (c2 & l2 & Hr2 & Hd2 & Hr)]. split; [done|lia|].
  exists (c1 ++ c2), l2. rewrite Hr1, Hr2, <-app_assoc. split; [done|]. rewrite app_nil_r in Hd1. split.
  - rewrite read_data_app, <-Hd2. rewrite !app_assoc. rewrite !app_assoc in Hd1. by rewrite Hd1.
  - destruct r as [|[n|e]]; [done| |done]. destruct Hr as (-> & -> & -> & c & e & -> & He). split_and!; try done.
    exists (c1 ++ c), e. by rewrite app_assoc.
Qed.

(** The buffer of a round: what is kept, or a read. *)
Definition fetch (me : CopyBuf) (io : Io) : CopyBuf * Io * Poll bytes :=
  match buf me with
  | Some buffer => (mkCopy None (amt me) (buffer_size me) (written me), io, Ready (Ok buffer))
  | None => let '(io, p) := poll_bytes io in (me, io, p)
  end.

Lemma fetch_spec me io me1 io1 p : copy_ok me → fetch me io = (me1, io1, p) →
  copy_ok me1 ∧ buf me1 = None ∧ written me1 = written me ∧ amt me1 = amt me ∧ buffer_size me1 = buffer_size me ∧
  writes io1 = writes io ∧ flushes io1 = flushes io ∧
  ∃ consumed, reads io = consumed ++ reads io1 ∧
    match p with
    | Ready (Ok b) => default [] (buf me) ++ read_data consumed = b ∧
        (b = [] → ∃ c e, consumed = c ++ [e] ∧ (e = REof ∨ e = RData []))
    | _ => read_data consumed = [] ∧ buf me = None
    end.
Proof.
  intros Hok. pose proof Hok as (_ & _ & Hne). unfold fetch. destruct (buf me) as [b|] eqn:Hb.
  - intros [= <- <- <-]. split_and!; try done; [by destruct Hok as (? & ? & _)|]. exists []. split; [done|]. simpl.
    rewrite app_nil_r. split; [done|]. intros ->. done.
  - unfold poll_bytes. destruct (reads io) as [|[|d| |e] rs] eqn:Hr; intros [= <- <- <-]; split_and!; try done; simpl.
    + by exists [].
    + by exists [RPending].
    + exists [RData d]. unfold read_data. simpl. rewrite app_nil_r. split_and!; [done|done|]. intros ->. by exists [], (RData []); auto.
    + exists [REof]. split_and!; [done|done|]. intros _. exists [], REof. auto.
    + by exists [RError e].
Qed.

Lemma poll_loop_fetch fuel me io : poll_loop (S fuel) me io =
  let '(me, io, buffer) := fetch me io in
  match buffer with
  | Pending => Some (me, io, Pending)
  | Ready (Err e) => Some (me, io, Ready (Err e))
  | Ready (Ok []) =>
    let '(io, p) := poll_flush io in
    Some (me, io, match p with
                  | Pending => Pending
                  | Ready (Err e) => Ready (Err e)
                  | Ready (Ok _) => Ready (Ok (amt me))
                  end)
  | Ready (Ok buffer) =>
    let '(io, p) := poll_write_buf io buffer in
    match p with
    | Pending => Some (mkCopy (Some buffer) (amt me) (buffer_size me) (written me), io, Pending)
    | Ready (Err e) => Some (me, io, Ready (Err e))
    | Ready (Ok O) => Some (me, io, Ready (Err WriteZero))
    | Ready (Ok n) => poll_loop fuel (advance me buffer n) io
    end
  end.
Proof. reflexivity. Qed.

Lemma poll_flush_io io : reads (poll_flush io).1 = reads io ∧ writes (poll_flush io).1 = writes io.
Proof. unfold poll_flush. by destruct (flushes io) as [|[]]. Qed.

Lemma poll_write_buf_spec io b io1 p : poll_write_buf io b = (io1, p) →
  reads io1 = reads io ∧ flushes io1 = flushes io ∧ length (writes io1) ≤ length (writes io) ∧
  match p with Ready (Ok n) => n ≤ length b ∧ length (writes io1) < length (writes io) | _ => True end.
Proof. unfold poll_write_buf. destruct (writes io) as [|[|n|e] ws] eqn:Hw; intros [= <- <-]; try rewrite Hw; simpl; split_and!; try done; lia. Qed.

Lemma advance_copied me io consumed me1 io1 io2 b n :
  copy_ok me1 → buf me1 = None → written me1 = written me → reads io = consumed ++ reads io1 →
  default [] (buf me) ++ read_data consumed = b → n ≤ length b → reads io2 = reads io1 →
  length (writes io2) ≤ length (writes io) →
  copied me io (advance me1 b n) io2 Pending.
Proof.
  intros Hok Hb Hw Hr Hd Hn Hr2 Hw2. split; [by apply advance_ok|done|]. exists consumed, [].
  rewrite Hr2. split; [done|]. split; [|done]. rewrite Hd, app_nil_r. unfold advance. simpl. rewrite Hw.
  destruct (decide (n < length b)) as [Hlt|Hge]; simpl.
  - by rewrite <-app_assoc, take_drop.
  - by rewrite app_nil_r, take_ge by lia.
Qed.

Lemma poll_loop_copied fuel : ∀ me io me' io' r,
  copy_ok me → poll_loop fuel me io = Some (me', io', r) → copied me io me' io' r.
Proof.
  induction fuel as [|fuel IH]; intros me io me' io' r Hok; [done|]. rewrite poll_loop_fetch.
  destruct (fetch me io) as [[me1 io1] p] eqn:Hf. apply fetch_spec in Hf as (Hok1 & Hb1 & Hw1 & Ha1 & Hs1 & Hws & Hfs & c & Hr & Hp); [|done].
  destruct p as [|[[|x b]|e]].
  - intros [= <- <- <-]. split; [done|by rewrite Hws|]. destruct Hp as [Hd Hb]. exists c, [].
    by rewrite Hb, Hd, Hb1, Hw1.
  - destruct (poll_flush io1) as [io2 pf] eqn:Hpf. destruct (poll_flush_io io1) as [Hr2 Hw2]. rewrite Hpf in Hr2, Hw2. simpl in Hr2, Hw2.
    intros [= <- <- <-]. split; [done|by rewrite Hw2, Hws|]. exists c, []. rewrite Hr2. split; [done|].
    destruct Hp as [Hd Heof]. rewrite Hd, Hb1, Hw1. split; [done|]. destruct pf as [|[]]; try done. by split_and!; [| | |apply Heof].
  - destruct (poll_write_buf io1 (x :: b)) as [io2 pw] eqn:Hpw. apply poll_write_buf_spec in Hpw as (Hr2 & _ & Hw2 & Hn).
    destruct Hp as [Hd _]. destruct pw as [|[[|n]|e]].
    + intros [= <- <- <-]. split; [by destruct Hok1 as (? & ? & _)|by rewrite <-Hws|]. exists c, []. rewrite Hr2. simpl.
      by rewrite Hd, Hw1, app_nil_r.
    + intros [= <- <- <-]. split; [done|by rewrite <-Hws|]. exists c, (x :: b). rewrite Hr2. by rewrite Hd, Hb1, Hw1.
    + intros Hl. eapply copied_trans; [|apply IH; [|exact Hl]].
      * eapply advance_copied; try done; [lia|by rewrite <-Hws].
      * apply advance_ok; [done|lia].
    + intros [= <- <- <-]. split; [done|by rewrite <-Hws|]. exists c, (x :: b). rewrite Hr2. by rewrite Hd, Hb1, Hw1.
  - intros [= <- <- <-]. split; [done|by rewrite Hws|]. destruct Hp as [Hd Hb]. exists c, [].
    by rewrite Hb, Hd, Hb1, Hw1.
Qed.

Lemma poll_loop_enough fuel : ∀ me io, length (writes io) < fuel → copy_ok me → poll_loop fuel me io ≠ None.
Proof.
  induction fuel as [|fuel IH]; intros me io Hf Hok; [lia|]. rewrite poll_loop_fetch.
  destruct (fetch me io) as [[me1 io1] p] eqn:He. apply fetch_spec in He as (Hok1 & Hb1 & _ & _ & _ & Hws & _); [|done].
  destruct p as [|[[|x b]|e]]; [done|by destruct (poll_flush io1)| |done].
  destruct (poll_write_buf io1 (x :: b)) as [io2 pw] eqn:Hpw. apply poll_write_buf_spec in Hpw as (_ & _ & _ & Hn).
  destruct pw as [|[[|n]|e]]; [done|done| |done]. apply IH; [rewrite <-Hws in Hf; lia|]. by apply advance_ok; [|lia].
Qed.

Lemma copy_buf_copied polls : ∀ me io, copy_ok me →
  ∃ me' io' r, copy_buf polls me io = Some (me', io', r) ∧ copied me io me' io' r.
Proof.
  induction polls as [|polls IH]; intros me io Hok; simpl; [by eexists _, _, _; split; [|apply copied_refl]|].
  unfold poll. pose proof (poll_loop_enough (enough io) me io) as Hne.
  destruct (poll_loop (enough io) me io) as [[[me1 io1] r]|] eqn:Hp; [|by destruct Hne; [unfold enough; lia| |]].
  apply poll_loop_copied in Hp; [|done]. destruct r as [|r]; [|by eexists _, _, _].
  destruct (IH me1 io1) as (me2 & io2 & r & Hc & Hcp); [by apply Hp|].
  eexists _, _, _. split; [exact Hc|]. by eapply copied_trans.
Qed.

(** C25: copying is exact. Whatever the sizes of the reads, of the writes and the pauses
    between them, what was written is what was read, in order, up to what is kept for the
    next poll; when copying ends, everything read up to the end was written, and the result
    is its length.  The size of the buffer is a function of that length. *)
Theorem copy_exact polls io me io' r : copy_buf polls copy_new io = Some (me, io', r) →
  ∃ consumed, reads io = consumed ++ reads io' ∧
    written me `prefix_of` read_data consumed ∧
    amt me = N.of_nat (length (written me)) ∧ buffer_size me = size_for (amt me) ∧
    match r with
    | Pending => read_data consumed = written me ++ default [] (buf me)
    | Ready (Ok n) => n = N.of_nat (length (written me)) ∧ written me = read_data consumed ∧
        ∃ c e, consumed = c ++ [e] ∧ (e = REof ∨ e = RData [])
    | Ready (Err _) => True
    end.
Proof.
  intros Hc. destruct (copy_buf_copied polls copy_new io copy_new_ok) as (me2 & io2 & r2 & Hc2 & Hcp).
  rewrite Hc in Hc2. injection Hc2 as <- <- <-. destruct Hcp as [(Ha & Hs & _) _ (c & lost & Hr & Hd & Hres)].
  exists c. simpl in Hd. split; [done|]. split; [rewrite Hd; by apply prefix_app_r|]. do 2 (split; [done|]).
  destruct r as [|[n|e]]; [by rewrite Hd, Hres, app_nil_r| |done].
  destruct Hres as (-> & Hb & -> & Heof). rewrite Hb, !app_nil_r in Hd. split; [done|]. by split.
Qed.

Definition answers (io : Io) : nat := length (reads io) + length (writes io) + length (flushes io).
Definition exhausted (io : Io) : Prop := reads io = [] ∨ writes io = [] ∨ flushes io = [].

(** Answers are used up in order. *)
Definition later (io io' : Io) : Prop :=
  reads io' `suffix_of` reads io ∧ writes io' `suffix_of` writes io ∧ flushes io' `suffix_of` flushes io.

#[local] Instance later_preorder : PreOrder later.
Proof. split; [by intros io|intros io1 io2 io3 (? & ? & ?) (? & ? & ?); split_and!; by etrans]. Qed.

Lemma later_answers io io' : later io io' → answers io' ≤ answers io.
Proof. intros (H1%suffix_length & H2%suffix_length & H3%suffix_length). unfold answers. lia. Qed.

Lemma later_exhausted io io' : later io io' → exhausted io → exhausted io'.
Proof.
  intros (H1 & H2 & H3) [E|[E|E]]; rewrite E in *; [left|right; left|right; right]; by apply suffix_nil_inv.
Qed.

(** A poll moves on, and waits only after it has or when there is no answer. *)
Definition moves {A} (io io' : Io) (p : Poll A) : Prop := later io io' ∧ (p = Pending → answers io' < answers io ∨ exhausted io').

Lemma poll_bytes_moves io io1 p : poll_bytes io = (io1, p) → moves io io1 p.
Proof.
  unfold poll_bytes, moves, later, answers, exhausted.
  destruct (reads io) as [|[|d| |e] rs] eqn:E; intros [= <- <-]; rewrite ?E; simpl; split; try done;
    try (split_and!; [by apply suffix_cons_r|done|done]); intros _; [by right; left|left; lia].
Qed.

Lemma poll_flush_moves io io1 p : poll_flush io = (io1, p) → moves io io1 p.
Proof.
  unfold poll_flush, moves, later, answers, exhausted.
  destruct (flushes io) as [|[| |e] fs] eqn:E; intros [= <- <-]; rewrite ?E; simpl; split; try done;
    try (split_and!; [done|done|by apply suffix_cons_r]); intros _; [by right; right; right|left; lia].
Qed.

Lemma poll_write_buf_moves io b io1 p : poll_write_buf io b = (io1, p) → moves io io1 p.
Proof.
  unfold poll_write_buf, moves, later, answers, exhausted.
  destruct (writes io) as [|[|n|e] ws] eqn:E; intros [= <- <-]; rewrite ?E; simpl; split; try done;
    try (split_and!; [done|by apply suffix_cons_r|done]); intros _; [by right; right; left|left; lia].
Qed.

Lemma moves_trans {A B} io io1 io2 (p : Poll A) (q : Poll B) :
  later io io1 → moves io1 io2 q → (p = Pending → q = Pending) → moves io io2 p.
Proof.
  intros Hl [Hl2 Hq] Hpq. split; [by etrans|]. intros Hp. pose proof (later_answers _ _ Hl).
  destruct (Hq (Hpq Hp)); [left; lia|by right].
Qed.

Lemma poll_loop_moves fuel : ∀ me io me' io' r, poll_loop fuel me io = Some (me', io', r) → moves io io' r.
Proof.
  induction fuel as [|fuel IH]; intros me io me' io' r; [done|]. rewrite poll_loop_fetch.
  destruct (fetch me io) as [[me1 io1] p] eqn:Hf.
  assert (moves io io1 p) as Hp.
  { unfold fetch in Hf. destruct (buf me); [injection Hf as <- <- <-; by split|].
    destruct (poll_bytes io) eqn:E. injection Hf as <- <- <-. by apply poll_bytes_moves. }
  destruct p as [|[[|x b]|e]]; [by intros [= <- <- <-]; eapply moves_trans; [reflexivity|exact Hp|]| | |by intros [= <- <- <-]; split; [apply Hp|]].
  - destruct (poll_flush io1) as [io2 pf] eqn:E. apply poll_flush_moves in E. intros [= <- <- <-].
    eapply moves_trans; [apply Hp|exact E|]. intros Hr. by destruct pf as [|[]].
  - destruct (poll_write_buf io1 (x :: b)) as [io2 pw] eqn:E. apply poll_write_buf_moves in E.
    destruct pw as [|[[|n]|e]].
    + intros [= <- <- <-]. by eapply moves_trans; [apply Hp|exact E|].
    + intros [= <- <- <-]. by eapply moves_trans; [apply Hp|exact E|].
    + intros Hl%IH. eapply moves_trans; [|exact Hl|done]. etrans; [apply Hp|apply E].
    + intros [= <- <- <-]. by eapply moves_trans; [apply Hp|exact E|].
Qed.

(** Copying does not hang by itself. Every poll returns, and after more polls than the
    reader and the writer have answers copying has ended, or it waits for an answer of one
    that gives no more. *)
Theorem copy_returns polls io : answers io < polls →
  ∃ me io' r, copy_buf polls copy_new io = Some (me, io', r) ∧ (r = Pending → exhausted io').
Proof.
  intros Hlt. assert (answers io < polls ∨ exhausted io) as Hor by by left. clear Hlt.
  generalize copy_new_ok. generalize copy_new. revert io Hor. induction polls as [|polls IH]; intros io Hor me Hok.
  { simpl. eexists _, _, _. split; [done|]. intros _. destruct Hor; [lia|done]. }
  simpl. unfold poll. pose proof (poll_loop_enough (enough io) me io) as Hne.
  destruct (poll_loop (enough io) me io) as [[[me1 io1] r]|] eqn:Hp; [|by destruct Hne; [unfold enough; lia| |]].
  pose proof (poll_loop_moves _ _ _ _ _ _ Hp) as [Hl Hpend]. apply poll_loop_copied in Hp; [|done].
  destruct r as [|r]; [|by eexists _, _, _]. apply IH; [|by apply Hp].
  destruct Hor as [Hlt|He]; [|right; by eapply later_exhausted]. destruct (Hpend eq_refl); [left; lia|by right].
Qed.

(** An error that a connection may end with. *)
Definition io_ignored (e : ErrorKind) : bool :=
  match e with NotConnected | UnexpectedEof | ConnectionReset | BrokenPipe => true | _ => false end.
Definition shutdown_ignored (e : ErrorKind) : bool := match e with NotConnected | UnexpectedEof => true | _ => false end.
Definition ended {A} (ignored : ErrorKind → bool) (r : result A ErrorKind) : Prop :=
  match r with Ok _ => True | Err e => ignored e = true end.

Lemma direction_spec translate copied shutdown :
  match direction translate copied shutdown with
  | Ok _ => ended io_ignored copied ∧ ended shutdown_ignored shutdown
  | Err err => (∃ e, shutdown = Err e ∧ shutdown_ignored e = false ∧ err = ShutdownError (translate e)) ∨
               (ended shutdown_ignored shutdown ∧ ∃ e, copied = Err e ∧ io_ignored e = false ∧ err = translate e)
  end.
Proof.
  unfold direction. destruct shutdown as [[]|[]], copied as [n|[]]; simpl; auto; try (by left; eexists);
    try (right; split; [done|]; by eexists).
Qed.

(** The result of a connection. Copying in both directions succeeds exactly when each
    direction ended, or was cut off by its peer, and its writer could be shut down or
    already was; otherwise the error of the direction to the backend comes first, and the
    error of a shutdown hides the error of the copy before it. *)
Theorem copy_bidirectional_result up down :
  match copy_bidirectional up down with
  | Ok _ => ended io_ignored up.1 ∧ ended shutdown_ignored up.2 ∧ ended io_ignored down.1 ∧ ended shutdown_ignored down.2
  | Err err =>
    (∃ e, up.2 = Err e ∧ shutdown_ignored e = false ∧ err = ShutdownError (translate_send e)) ∨
    (ended shutdown_ignored up.2 ∧ ∃ e, up.1 = Err e ∧ io_ignored e = false ∧ err = translate_send e) ∨
    (ended io_ignored up.1 ∧ ended shutdown_ignored up.2 ∧
      ((∃ e, down.2 = Err e ∧ shutdown_ignored e = false ∧ err = ShutdownError (translate_receive e)) ∨
       (ended shutdown_ignored down.2 ∧ ∃ e, down.1 = Err e ∧ io_ignored e = false ∧ err = translate_receive e)))
  end.
Proof.
  unfold copy_bidirectional. pose proof (direction_spec translate_send up.1 up.2) as Hu.
  pose proof (direction_spec translate_receive down.1 down.2) as Hd. unfold fst, snd in *.
  destruct up as [uc us], down as [dc ds]. destruct (direction translate_send uc us); simpl in *; [|tauto].
  destruct (direction translate_receive dc ds); simpl in *; tauto.
Qed.

(** * A copy in pieces *)

Module CopyExample.
Definition B (s : string) : bytes := String.list_ascii_of_string s.
Definition io : Io :=
  mkIo [RData (B "abc"); RPending; RData (B "de"); REof] [WTakes 2; WPending; WTakes 5; WTakes 5] [FPending; FDone].
Definition io_ready : Io := mkIo [RData (B "abc"); RPending; RData (B "de"); REof] [WTakes 2; WPending; WTakes 5; WTakes 5] [FDone].

Lemma copied_io : copy_buf 4 copy_new io_ready = Some (mkCopy None 5 1024 (B "abcde"), mkIo [] [] [], Ready (Ok 5%N)).
Proof. reflexivity. Qed.

Lemma copy_exact_witness : ∃ consumed, reads io_ready = consumed ++ [] ∧ B "abcde" = read_data consumed.
Proof.
  destruct (copy_exact 4 io_ready _ _ _ copied_io) as (c & Hr & _ & _ & _ & _ & Hw & _). by exists c.
Defined.

Lemma copy_returns_witness : ∃ me io' r, copy_buf 11 copy_new io = Some (me, io', r) ∧ (r = Pending → exhausted io').
Proof. apply copy_returns. unfold answers. simpl. lia. Defined.
End CopyExample.
