(* ===== verification/Parse.v ===== *)
(** Parse: bodies that are decoded while they are forwarded ([parse/]).

    [passthrough.rs] shows every decoded item of a body to a handler and forwards
    the frames unchanged; [transform.rs] replaces the items and encodes what the
    handler returns; [sse.rs] instantiates both with events whose data is JSON.
    A body is the list of the answers it will give to successive polls.  The codec
    of the [tokio_util] crate is an interface ([Decoder], [Encoder]); an
    incremental decoder ([DecoderLaws]) gives the same items however the bytes
    arrive.  A handler is a function on a state of its own. *)
From S2P Require Import Prelude BufList.

(** * Bodies *)

Section body.
Context {T E : Type}.

(** [http_body::Frame], and what polling a body gives. *)
Inductive Frame := FData (data : bytes) | FTrailers (t : T).

Inductive Inner := IPending | IFrame (f : Frame) | IError (e : E).

Inductive Poll := Pending | Ready (r : option (result Frame E)).

(** The frames of a body that does not fail, and their data. *)
Definition inner_frames (l : list Inner) : list Frame :=
  omap (λ i, match i with IFrame f => Some f | _ => None end) l.

Definition frame_data (f : Frame) : bytes := match f with FData d => d | FTrailers _ => [] end.

Definition frame_trailers (f : Frame) : option T :=
  match f with FData _ => None | FTrailers t => Some t end.

Definition body_data (l : list Inner) : bytes := concat (frame_data <$> inner_frames l).

Definition no_error (l : list Inner) : Prop :=
  Forall (λ i, match i with IError _ => False | _ => True end) l.
End body.
Arguments Frame : clear implicits.
Arguments Inner : clear implicits.
Arguments Poll : clear implicits.

(** * Codecs *)

(** [tokio_util::codec::Decoder] on a state [D]; the buffer is what the decoder
    leaves in it. Errors are boxed into the error of bodies. *)
Class Decoder (D Item E : Type) := {
  decode : D → bytes → D * bytes * result (option Item) E;
  decode_eof : D → bytes → D * bytes * result (option Item) E
}.

Class Encoder (N T E : Type) := {
  encode : N → T → bytes → N * bytes * result () E
}.

(** An incremental decoder: every item uses up at least one byte, and it does not
    matter whether bytes arrive before or after an attempt to decode. *)
Class DecoderLaws {D Item E : Type} (C : Decoder D Item E) : Prop := {
  decode_shrinks : ∀ d b d' b' i, decode d b = (d', b', Ok (Some i)) → length b' < length b;
  decode_eof_shrinks : ∀ d b d' b' i, decode_eof d b = (d', b', Ok (Some i)) → length b' < length b;
  decode_item_more : ∀ d b d' b' i m,
    decode d b = (d', b', Ok (Some i)) → decode d (b ++ m) = (d', b' ++ m, Ok (Some i));
  decode_none_more : ∀ d b d' b' m,
    decode d b = (d', b', Ok None) → decode d' (b' ++ m) = decode d (b ++ m);
  decode_none_length : ∀ d b d' b', decode d b = (d', b', Ok None) → length b' ≤ length b;
  decode_error_more : ∀ d b d' b' e m,
    decode d b = (d', b', Err e) → ∃ d'' b'', decode d (b ++ m) = (d'', b'', Err e)
}.

(** An encoder appends to the buffer, and what it appends does not depend on what
    is there. *)
Class EncoderLaws {N T E : Type} (C : Encoder N T E) : Prop := {
  encode_append : ∀ n t out, encode n t out = let '(n', e, r) := encode n t [] in (n', out ++ e, r)
}.

(** The loop that decodes what is in the buffer; [step] is what is done with an
    item.  [None] is a loop that needs more than [fuel] rounds. *)
Section try_decode.
Context {D Item E H : Type} `{!Decoder D Item E} (step : H → Item → H * result () E).

Fixpoint try_decode (fuel : nat) (finished : bool) (buf : bytes) (decoder : D) (h : H)
    : option (bytes * D * H * result () E) :=
  match fuel with
  | O => None
  | S fuel =>
    match (if finished then decode_eof decoder buf else decode decoder buf) with
    | (decoder, buf, Ok (Some item)) =>
      match step h item with
      | (h, Ok _) => try_decode fuel finished buf decoder h
      | (h, Err e) => Some (buf, decoder, h, Err e)
      end
    | (decoder, buf, Ok None) => Some (buf, decoder, h, Ok ())
    | (decoder, buf, Err e) => Some (buf, decoder, h, Err e)
    end
  end.
End try_decode.

(** Enough rounds for a decoder that keeps its laws. *)
Definition run_decode {D Item E H : Type} `{!Decoder D Item E} (step : H → Item → H * result () E)
    (finished : bool) (buf : bytes) (d : D) (h : H) : option (bytes * D * H * result () E) :=
  try_decode step (S (length buf)) finished buf d h.

(** The reference: all the bytes at once, then the end of the stream. *)
Definition decode_all {D Item E H : Type} `{!Decoder D Item E} (step : H → Item → H * result () E)
    (data : bytes) (d : D) (h : H) : option (H * result () E) :=
  '(buf, d, h, r) ← run_decode step false data d h;
  match r with
  | Err e => Some (h, Err e)
  | Ok _ => '(_, _, h, r) ← run_decode step true buf d h; Some (h, r)
  end.

(** ** Facts *)

Section decode_facts.
Context {D Item E H : Type} {C : Decoder D Item E} {L : DecoderLaws C}.
Context (step : H → Item → H * result () E).
Local Abbreviation run := (run_decode step).

Lemma try_decode_fuel fuel f b d h :
  length b < fuel → try_decode step fuel f b d h = run f b d h.
Proof.
  cut (∀ n fuel1 fuel2 b d h, length b < n → length b < fuel1 → length b < fuel2 →
    try_decode step fuel1 f b d h = try_decode step fuel2 f b d h).
  { intros Hc Hlt. apply (Hc (S (length b))); lia. }
  clear b d h. induction n as [|n IH]; intros [|f1] [|f2] b d h Hn H1 H2; try lia. cbn [try_decode].
  destruct (if f then decode_eof d b else decode d b) as [[d' b'] [[i|]|e]] eqn:Hd; [|done|done].
  destruct (step h i) as [h' [?|?]]; [|done].
  assert (length b' < length b).
  { destruct f; [by eapply decode_eof_shrinks|by eapply decode_shrinks]. }
  apply IH; lia.
Qed.

(** One round of the loop. *)
Lemma run_unfold f b d h :
  run f b d h =
  match (if f then decode_eof d b else decode d b) with
  | (d, b, Ok (Some i)) =>
    match step h i with
    | (h, Ok _) => run f b d h
    | (h, Err e) => Some (b, d, h, Err e)
    end
  | (d, b, Ok None) => Some (b, d, h, Ok ())
  | (d, b, Err e) => Some (b, d, h, Err e)
  end.
Proof.
  unfold run_decode at 1. cbn [try_decode].
  destruct (if f then decode_eof d b else decode d b) as [[d' b'] [[i|]|e]] eqn:Hd; [|done|done].
  destruct (step h i) as [h' [?|?]]; [|done]. apply try_decode_fuel.
  destruct f; [by eapply decode_eof_shrinks|by eapply decode_shrinks].
Qed.

(** The loop ends. *)
Lemma run_decode_total f b d h : is_Some (run f b d h).
Proof.
  revert d h. induction b as [b IH] using length_ind. intros d h. rewrite run_unfold.
  destruct (if f then decode_eof d b else decode d b) as [[d' b'] [[i|]|e]] eqn:Hd; [|done|done].
  destruct (step h i) as [h' [?|?]]; [|done]. apply IH.
  destruct f; [by eapply decode_eof_shrinks|by eapply decode_shrinks].
Qed.

Lemma run_decode_length b d h b' d' h' :
  run false b d h = Some (b', d', h', Ok ()) → length b' ≤ length b.
Proof.
  revert d h. induction b as [b IH] using length_ind. intros d h.
  rewrite run_unfold. destruct (decode d b) as [[d1 b1] [[i|]|e]] eqn:Hd.
  - apply decode_shrinks in Hd as Hlt. destruct (step h i) as [h1 [?|?]]; [|done].
    intros Hr%IH; lia.
  - intros [= <- <- <-]. by eapply decode_none_length.
  - done.
Qed.

(** Bytes that arrive later are decoded as if they had been there before. *)
Lemma run_decode_more b d h b' d' h' m :
  run false b d h = Some (b', d', h', Ok ()) → run false (b ++ m) d h = run false (b' ++ m) d' h'.
Proof.
  revert d h. induction b as [b IH] using length_ind. intros d h.
  rewrite !run_unfold. destruct (decode d b) as [[d1 b1] [[i|]|e]] eqn:Hd.
  - rewrite (decode_item_more _ _ _ _ _ m Hd). apply decode_shrinks in Hd as Hlt.
    destruct (step h i) as [h1 [?|?]]; [|done]. intros Hr. rewrite (IH _ Hlt _ _ Hr).
    by rewrite run_unfold.
  - intros [= <- <- <-]. by rewrite (decode_none_more _ _ _ _ m Hd).
  - done.
Qed.

Lemma run_decode_error_more b d h b' d' h' e m :
  run false b d h = Some (b', d', h', Err e) →
  ∃ b'' d'', run false (b ++ m) d h = Some (b'', d'', h', Err e).
Proof.
  revert d h. induction b as [b IH] using length_ind. intros d h.
  rewrite !run_unfold. destruct (decode d b) as [[d1 b1] [[i|]|e1]] eqn:Hd.
  - rewrite (decode_item_more _ _ _ _ _ m Hd). apply decode_shrinks in Hd as Hlt.
    destruct (step h i) as [h1 [?|?]]; [by apply IH|]. intros [= <- <- <- <-]. eauto.
  - done.
  - intros [= <- <- <- <-]. destruct (decode_error_more _ _ _ _ _ m Hd) as (? & ? & ->). eauto.
Qed.

(** A prefix of data that decodes without an error decodes without one. *)
Lemma run_decode_prefix b m d h x :
  run false (b ++ m) d h = Some (x, Ok ()) →
  ∃ b' d' h', run false b d h = Some (b', d', h', Ok ()) ∧
    run false (b' ++ m) d' h' = Some (x, Ok ()) ∧ length b' ≤ length b.
Proof.
  intros Hm. destruct (run_decode_total false b d h) as [[[[b' d'] h'] [[]|e]] Hr].
  - exists b', d', h'. rewrite <-(run_decode_more _ _ _ _ _ _ m Hr).
    eauto using run_decode_length.
  - apply (run_decode_error_more _ _ _ _ _ _ _ m) in Hr as (b2 & d2 & Hr). congruence.
Qed.
End decode_facts.

(** * [passthrough.rs] *)

Module Passthrough.
Section passthrough.
Context {D Item T E H : Type} `{!Decoder D Item E} (handler : H → Item → H).

Record PassthroughBody := mk {
  body : list (Inner T E);
  decoder : D;
  decode_buffer : bytes;
  handler_state : H;
  finished : bool
}.

Definition parser (body : list (Inner T E)) (decoder : D) (h : H) : PassthroughBody :=
  mk body decoder [] h false.

Definition handle (h : H) (item : Item) : H * result () E := (handler h item, Ok ()).

(** The second round of decoding, with the frame that will be sent. *)
Definition decode_and_send (fuel : nat) (body : list (Inner T E)) (finished : bool) (buf : bytes)
    (d : D) (h : H) (frame_to_send : option (result (Frame T) E))
    : option (PassthroughBody * Poll T E) :=
  '(buf, d, h, r) ← try_decode handle fuel finished buf d h;
  Some (mk body d buf h finished,
        match r with Ok _ => Ready frame_to_send | Err e => Ready (Some (Err e)) end).

Definition poll_frame (fuel : nat) (self : PassthroughBody) : option (PassthroughBody * Poll T E) :=
  if finished self then Some (self, Ready None)
  else
    '(buf, d, h, r) ← try_decode handle fuel (finished self) (decode_buffer self) (decoder self)
                        (handler_state self);
    match r with
    | Err e => Some (mk (body self) d buf h (finished self), Ready (Some (Err e)))
    | Ok _ =>
      match body self with
      | IPending :: rest => Some (mk rest d buf h (finished self), Pending)
      | IFrame frame :: rest =>
        let buf := match frame with FData data => buf ++ data | FTrailers _ => buf end in
        decode_and_send fuel rest false buf d h (Some (Ok frame))
      | IError e :: rest => Some (mk rest d buf h (finished self), Ready (Some (Err e)))
      | [] => decode_and_send fuel [] true buf d h None
      end
    end.

(** A consumer that polls until the end, or [n] times; every poll may use [fuel]. *)
Fixpoint drain (fuel n : nat) (self : PassthroughBody) (out : list (result (Frame T) E))
    : option (PassthroughBody * list (result (Frame T) E) * bool) :=
  match n with
  | O => Some (self, out, false)
  | S n =>
    '(self, p) ← poll_frame fuel self;
    match p with
    | Pending => drain fuel n self out
    | Ready None => Some (self, out, true)
    | Ready (Some r) => drain fuel n self (out ++ [r])
    end
  end.
End passthrough.
Section facts.
Context {D Item T E H : Type} {C : Decoder D Item E} {L : DecoderLaws C} (handler : H → Item → H).
Local Abbreviation Body := (@PassthroughBody D T E H).
Local Abbreviation run := (run_decode (handle (E:=E) handler)).

(** A poll that decodes without an error: what it does with the body. *)
Lemma poll_decoded fuel (self : Body) buf d h :
  finished self = false → length (decode_buffer self) < fuel →
  run false (decode_buffer self) (decoder self) (handler_state self) = Some (buf, d, h, Ok ()) →
  poll_frame handler fuel self =
  match body self with
  | IPending :: rest => Some (mk rest d buf h false, Pending)
  | IFrame frame :: rest =>
    decode_and_send handler fuel rest false (buf ++ frame_data frame) d h (Some (Ok frame))
  | IError e :: rest => Some (mk rest d buf h false, Ready (Some (Err e)))
  | [] => decode_and_send handler fuel [] true buf d h None
  end.
Proof.
  intros Hf Hl Hr. unfold poll_frame. rewrite Hf, (try_decode_fuel _ _ _ _ _ _ Hl), Hr. simpl.
  destruct (body self) as [|[|[data|t]|e] rest]; [done..| |done]. simpl. by rewrite app_nil_r.
Qed.

Lemma drain_S fuel n (self : Body) out :
  drain handler fuel (S n) self out =
  '(self, p) ← poll_frame handler fuel self;
  match p with
  | Pending => drain handler fuel n self out
  | Ready None => Some (self, out, true)
  | Ready (Some r) => drain handler fuel n self (out ++ [r])
  end.
Proof. done. Qed.

Lemma drain_decoded fuel rest buf d h b1 d1 h1 d2 b2 h2 out :
  no_error rest → length (buf ++ body_data rest) < fuel →
  run false (buf ++ body_data rest) d h = Some (b1, d1, h1, Ok ()) →
  run true b1 d1 h1 = Some (b2, d2, h2, Ok ()) →
  drain handler fuel (S (length rest)) (mk rest d buf h false : Body) out =
    Some (mk [] d2 b2 h2 true, out ++ (Ok <$> inner_frames rest), true).
Proof.
  revert buf d h out. induction rest as [|i rest IH]; intros buf d h out Hne Hl Hr He.
  - unfold body_data in *. simpl in Hl, Hr. rewrite app_nil_r in Hl, Hr.
    rewrite drain_S, (poll_decoded _ (mk [] d buf h false) b1 d1 h1) by done. simpl.
    pose proof (run_decode_length _ _ _ _ _ _ _ Hr).
    unfold decode_and_send. rewrite try_decode_fuel, He by lia. simpl. by rewrite app_nil_r.
  - apply Forall_cons in Hne as [Hi Hne]. rewrite length_app in Hl.
    destruct (run_decode_prefix (handle handler) buf (body_data (i :: rest)) d h _ Hr)
      as (b' & d' & h' & Hpre & Hmore & Hlen).
    cbn [length]. rewrite drain_S, (poll_decoded _ (mk (i :: rest) d buf h false) b' d' h') by (done || simpl; lia).
    destruct i as [|frame|e]; [| |done]; cbn [body].
    + cbn [mbind option_bind]. apply IH; try done. unfold body_data in *. csimpl in *.
      rewrite length_app. lia.
    + change (body_data (IFrame frame :: rest)) with (frame_data frame ++ body_data rest) in *.
      rewrite app_assoc in Hmore.
      destruct (run_decode_prefix (handle handler) (b' ++ frame_data frame) (body_data rest) d' h' _ Hmore)
        as (b3 & d3 & h3 & Hpre3 & Hmore3 & Hlen3).
      unfold decode_and_send. rewrite length_app in Hl, Hlen3.
      rewrite try_decode_fuel, Hpre3 by (rewrite length_app; lia). cbn [mbind option_bind].
      rewrite IH; [|done|rewrite length_app; lia|done|done].
      change (inner_frames (IFrame frame :: rest)) with (frame :: inner_frames rest).
      rewrite fmap_cons, <-app_assoc. done.
Qed.

(** Decoding with a handler is decoding into a list and folding the handler over it. *)
Definition collect (l : list Item) (i : Item) : list Item := l ++ [i].

Lemma run_collect f b d b' d' acc items r h :
  run_decode (handle (E:=E) collect) f b d acc = Some (b', d', items, r) →
  run f b d (foldl handler h acc) = Some (b', d', foldl handler h items, r).
Proof.
  revert d acc. induction b as [b IH] using length_ind. intros d acc. rewrite !run_unfold.
  destruct (if f then decode_eof d b else decode d b) as [[d1 b1] [[i|]|e]] eqn:Hd; [|congruence..].
  cbn [handle]. intros Hr. apply IH in Hr.
  - unfold collect in Hr. rewrite foldl_snoc in Hr. exact Hr.
  - destruct f; [by eapply decode_eof_shrinks|by eapply decode_shrinks].
Qed.

(** The whole stream, with the items in a list. *)
Lemma drain_collected fuel (l : list (Inner T E)) d items h :
  no_error l → length (body_data l) < fuel →
  decode_all (handle collect) (body_data l) d [] = Some (items, Ok ()) →
  ∃ self, drain handler fuel (S (length l)) (parser l d h) [] = Some (self, Ok <$> inner_frames l, true) ∧
    handler_state self = foldl handler h items.
Proof.
  intros Hne Hl. unfold decode_all.
  destruct (run_decode _ false _ _ _) as [[[[b1 d1] h1] [[]|e]]|] eqn:Hr; [|done|done].
  cbn [mbind option_bind].
  destruct (run_decode _ true _ _ _) as [[[[b2 d2] h2] [[]|e]]|] eqn:He; intros [= <-].
  apply (run_collect _ _ _ _ _ _ _ _ h) in Hr, He.
  eexists. split; [by apply (drain_decoded _ _ [] _ _ _ _ _ _ _ _ [] Hne Hl Hr He)|done].
Qed.

(** A body whose items are observed while it passes is not changed. However
    its bytes are cut into frames, and whenever it is not ready, the reader gets
    exactly its frames and its end, and the handler has seen exactly the items
    that decoding all the bytes at once gives. *)
Theorem passthrough_transparent (l : list (Inner T E)) d h h' fuel :
  no_error l → length (body_data l) < fuel →
  decode_all (handle handler) (body_data l) d h = Some (h', Ok ()) →
  ∃ self, drain handler fuel (S (length l)) (parser l d h) [] = Some (self, Ok <$> inner_frames l, true) ∧
    handler_state self = h'.
Proof.
  intros Hne Hl. unfold decode_all.
  destruct (run false (body_data l) d h) as [[[[b1 d1] h1] [[]|e]]|] eqn:Hr; [|done|done].
  cbn [mbind option_bind].
  destruct (run true b1 d1 h1) as [[[[b2 d2] h2] [[]|e]]|] eqn:He; intros [= <-].
  eexists. split; [by apply (drain_decoded _ _ [] _ _ _ _ _ _ _ _ [] Hne Hl Hr He)|done].
Qed.
End facts.
End Passthrough.

(** * [transform.rs] *)

Module Transform.
Section transform.
Context {D Item O N T E H : Type} `{!Decoder D Item E, !Encoder N O E}.
Context (handler : H → Item → H * option O).

Record TransformedBody := mk {
  body : list (Inner T E);
  decoder : D;
  decode_buffer : bytes;
  buffered_trailers : option T;
  encoder : N;
  handler_state : H;
  finished : bool
}.

Definition parser (body : list (Inner T E)) (decoder : D) (encoder : N) (h : H) : TransformedBody :=
  mk body decoder [] None encoder h false.

(** What the loop does with an item: the handler, the encoder and the buffer it
    writes to. *)
Definition handle (s : H * N * bytes) (item : Item) : (H * N * bytes) * result () E :=
  let '(h, n, out) := s in
  match handler h item with
  | (h, Some transformed_item) =>
    let '(n, out, r) := encode n transformed_item out in ((h, n, out), r)
  | (h, None) => ((h, n, out), Ok ())
  end.

(** What is sent once the body has ended and the rest is decoded. *)
Definition at_end (d : D) (buf out : bytes) (n : N) (h : H) (tr : option T)
    : TransformedBody * Poll T E :=
  match out with
  | [] =>
    match tr with
    | Some trailer => (mk [] d buf None n h true, Ready (Some (Ok (FTrailers trailer))))
    | None => (mk [] d buf None n h true, Ready None)
    end
  | _ => (mk [] d buf tr n h true, Ready (Some (Ok (FData out))))
  end.

Definition poll_frame (fuel : nat) (self : TransformedBody) : option (TransformedBody * Poll T E) :=
  if finished self then
    match buffered_trailers self with
    | Some trailer =>
      Some (mk (body self) (decoder self) (decode_buffer self) None (encoder self)
              (handler_state self) true,
            Ready (Some (Ok (FTrailers trailer))))
    | None => Some (self, Ready None)
    end
  else
    '(buf, d, (h, n, out), r) ← try_decode handle fuel (finished self) (decode_buffer self)
                                  (decoder self) (handler_state self, encoder self, []);
    let tr := buffered_trailers self in
    match r with
    | Err e => Some (mk (body self) d buf tr n h false, Ready (Some (Err e)))
    | Ok _ =>
      match out with
      | _ :: _ => Some (mk (body self) d buf tr n h false, Ready (Some (Ok (FData out))))
      | [] =>
        match body self with
        | IPending :: rest => Some (mk rest d buf tr n h false, Pending)
        | IFrame (FData data) :: rest => Some (mk rest d (buf ++ data) tr n h false, Pending)
        | IFrame (FTrailers trailer) :: rest => Some (mk rest d buf (Some trailer) n h false, Pending)
        | IError e :: rest => Some (mk rest d buf tr n h false, Ready (Some (Err e)))
        | [] =>
          '(buf, d, (h, n, out), r) ← try_decode handle fuel true buf d (h, n, out);
          match r with
          | Ok _ => Some (at_end d buf out n h tr)
          | Err e => Some (mk [] d buf tr n h true, Ready (Some (Err e)))
          end
        end
      end
    end.

Fixpoint drain (fuel n : nat) (self : TransformedBody) (out : list (result (Frame T) E))
    : option (TransformedBody * list (result (Frame T) E) * bool) :=
  match n with
  | 0 => Some (self, out, false)
  | S n =>
    '(self, p) ← poll_frame fuel self;
    match p with
    | Pending => drain fuel n self out
    | Ready None => Some (self, out, true)
    | Ready (Some r) => drain fuel n self (out ++ [r])
    end
  end.
End transform.
Section facts.
Context {D Item O N T E H : Type} {C : Decoder D Item E} {L : DecoderLaws C}.
Context {EC : Encoder N O E} {EL : EncoderLaws EC} (handler : H → Item → H * option O).
Local Abbreviation Body := (@TransformedBody D N T E H).
Local Abbreviation step := (handle (E:=E) handler).
Local Abbreviation run := (run_decode step).

(** What is written does not depend on what was written before. *)
Lemma handle_append h n out i :
  step (h, n, out) i = let '((h', n', o), r) := step (h, n, []) i in ((h', n', out ++ o), r).
Proof.
  simpl. destruct (handler h i) as [h' [o|]]; [|by rewrite app_nil_r].
  rewrite encode_append. destruct (encode n o []) as [[??]?]. done.
Qed.

Lemma run_append f b d h n out :
  run f b d (h, n, out) =
  '(b', d', (h', n', o), r) ← run f b d (h, n, []); Some (b', d', (h', n', out ++ o), r).
Proof.
  revert d h n out. induction b as [b IH] using length_ind. intros d h n out. rewrite !run_unfold.
  destruct (if f then decode_eof d b else decode d b) as [[d1 b1] [[i|]|e]] eqn:Hd;
    [|cbn [mbind option_bind]; by rewrite app_nil_r..].
  rewrite handle_append. destruct (step (h, n, []) i) as [[[h1 n1] o1] [?|?]]; [|done].
  assert (length b1 < length b) as Hlt.
  { destruct f; [by eapply decode_eof_shrinks|by eapply decode_shrinks]. }
  rewrite (IH _ Hlt _ _ _ (out ++ o1)), (IH _ Hlt _ _ _ o1).
  destruct (run f b1 d1 (h1, n1, [])) as [[[[??][[??]?]]?]|]; [|done].
  cbn [mbind option_bind]. by rewrite app_assoc.
Qed.

(** Decoding again what was left gives nothing. *)
Lemma run_idle b d s b' d' s' s2 :
  run false b d s = Some (b', d', s', Ok ()) → run false b' d' s2 = Some (b', d', s2, Ok ()).
Proof.
  revert d s. induction b as [b IH] using length_ind. intros d s. rewrite run_unfold.
  destruct (decode d b) as [[d1 b1] [[i|]|e]] eqn:Hd.
  - apply decode_shrinks in Hd as Hlt. destruct (step s i) as [s1 [?|?]]; [|done]. by apply IH.
  - intros [= <- <- <-]. pose proof (decode_none_more _ _ _ _ [] Hd) as Hm.
    rewrite !app_nil_r, Hd in Hm. by rewrite run_unfold, Hm.
  - done.
Qed.

(** The poll of a body with decoded items, and of one without. *)
Lemma poll_emit fuel (self : Body) b d h n out :
  finished self = false → length (decode_buffer self) < fuel → out ≠ [] →
  run false (decode_buffer self) (decoder self) (handler_state self, encoder self, []) =
    Some (b, d, (h, n, out), Ok ()) →
  poll_frame handler fuel self =
    Some (mk (body self) d b (buffered_trailers self) n h false, Ready (Some (Ok (FData out)))).
Proof.
  intros Hf Hl Ho Hr. unfold poll_frame. rewrite Hf, (try_decode_fuel _ _ _ _ _ _ Hl), Hr.
  cbn [mbind option_bind]. by destruct out.
Qed.

Lemma poll_more fuel (self : Body) b d h n :
  finished self = false → length (decode_buffer self) < fuel →
  run false (decode_buffer self) (decoder self) (handler_state self, encoder self, []) =
    Some (b, d, (h, n, []), Ok ()) →
  poll_frame handler fuel self =
  let tr := buffered_trailers self in
  match body self with
  | IPending :: rest => Some (mk rest d b tr n h false, Pending)
  | IFrame frame :: rest =>
    Some (mk rest d (b ++ frame_data frame)
            (match frame_trailers frame with Some t => Some t | None => tr end) n h false, Pending)
  | IError e :: rest => Some (mk rest d b tr n h false, Ready (Some (Err e)))
  | [] =>
    '(b, d, (h, n, out), r) ← try_decode step fuel true b d (h, n, []);
    match r with
    | Ok _ => Some (at_end d b out n h tr)
    | Err e => Some (mk [] d b tr n h true, Ready (Some (Err e)))
    end
  end.
Proof.
  intros Hf Hl Hr. unfold poll_frame. rewrite Hf, (try_decode_fuel _ _ _ _ _ _ Hl), Hr.
  cbn [mbind option_bind]. destruct (body self) as [|[|[data|t]|e] rest]; try done.
  cbn. by rewrite app_nil_r.
Qed.

Lemma transform_drain_S fuel k (self : Body) out :
  drain handler fuel (S k) self out =
  '(self, p) ← poll_frame handler fuel self;
  match p with
  | Pending => drain handler fuel k self out
  | Ready None => Some (self, out, true)
  | Ready (Some r) => drain handler fuel k self (out ++ [r])
  end.
Proof. done. Qed.

(** The last trailers of a body, after those already seen. *)
Definition final_trailers (tr : option T) (l : list (Inner T E)) : option T :=
  foldl (λ tr f, match frame_trailers f with Some t => Some t | None => tr end) tr (inner_frames l).

(** What a reader gets: data in some chunks, then the trailers. *)
Definition delivers (fuel : nat) (self : Body) (data : bytes) (tr : option T) (h : H) : Prop :=
  ∀ out, ∃ k self' chunks,
    drain handler fuel k self out =
      Some (self', out ++ ((Ok ∘ FData) <$> chunks) ++ ((Ok ∘ FTrailers) <$> option_list tr), true) ∧
    concat chunks = data ∧ Forall (λ c, c ≠ []) chunks ∧ handler_state self' = h.

Lemma delivers_pending fuel (self self' : Body) data tr h :
  poll_frame handler fuel self = Some (self', Pending) →
  delivers fuel self' data tr h → delivers fuel self data tr h.
Proof.
  intros Hp Hd out. destruct (Hd out) as (k & self2 & chunks & Hk & ?). exists (S k), self2, chunks.
  rewrite transform_drain_S, Hp. done.
Qed.

Lemma delivers_data fuel (self self' : Body) c data tr h :
  poll_frame handler fuel self = Some (self', Ready (Some (Ok (FData c)))) → c ≠ [] →
  delivers fuel self' data tr h → delivers fuel self (c ++ data) tr h.
Proof.
  intros Hp Hc Hd out. destruct (Hd (out ++ [Ok (FData c)])) as (k & self2 & chunks & Hk & <- & Hf & ?).
  exists (S k), self2, (c :: chunks). rewrite transform_drain_S, Hp. cbn [mbind option_bind].
  rewrite Hk, <-app_assoc. split_and!; [done|done|by constructor|done].
Qed.

(** A finished body gives its trailers and ends. *)
Lemma delivers_finished fuel d b tr n h : delivers fuel (mk [] d b tr n h true) [] tr h.
Proof.
  intros out. destruct tr as [t|].
  - exists 2, (mk [] d b None n h true), []. done.
  - exists 1, (mk [] d b None n h true), []. simpl. rewrite app_nil_r. done.
Qed.

Lemma delivers_at_end fuel rest d b tr n h out self p :
  at_end d b out n h tr = (self, p) →
  poll_frame handler fuel rest = Some (self, p) → delivers fuel rest out tr h.
Proof.
  unfold at_end. destruct out as [|c out].
  - destruct tr as [t|]; intros [= <- <-] Hp o.
    + exists 2, (mk [] d b None n h true), []. rewrite transform_drain_S, Hp. done.
    + exists 1, (mk [] d b None n h true), []. rewrite transform_drain_S, Hp. simpl. rewrite app_nil_r. done.
  - intros [= <- <-] Hp. rewrite <-(app_nil_r (c :: out)). eapply delivers_data; [done..|].
    apply delivers_finished.
Qed.

(** What is decoded now is sent before what will be decoded. *)
Lemma delivers_decoded fuel l buf d tr h n b' d' h' n' o data tr' hf :
  length buf < fuel → length b' ≤ length buf →
  run false buf d (h, n, []) = Some (b', d', (h', n', o), Ok ()) →
  delivers fuel (mk l d' b' tr n' h' false) data tr' hf →
  delivers fuel (mk l d buf tr n h false) (o ++ data) tr' hf.
Proof.
  intros Hl Hl' Hr Hd. destruct o as [|c o].
  - intros out. destruct (Hd out) as ([|k] & self & chunks & Hk & ?); [done|].
    exists (S k), self, chunks. split; [|done]. rewrite <-Hk, !transform_drain_S.
    rewrite (poll_more _ (mk l d buf tr n h false) _ _ _ _ eq_refl Hl Hr).
    rewrite (poll_more _ (mk l d' b' tr n' h' false) b' d' h' n') by
      (done || simpl; lia || by eapply run_idle). done.
  - eapply delivers_data; [by apply (poll_emit _ (mk l d buf tr n h false) b' d')|done|done].
Qed.

Lemma delivers_body fuel l buf d tr h n b1 d1 h1 n1 out1 b2 d2 h2 n2 out2 :
  no_error l → length (buf ++ body_data l) < fuel →
  run false (buf ++ body_data l) d (h, n, []) = Some (b1, d1, (h1, n1, out1), Ok ()) →
  run true b1 d1 (h1, n1, []) = Some (b2, d2, (h2, n2, out2), Ok ()) →
  delivers fuel (mk l d buf tr n h false) (out1 ++ out2) (final_trailers tr l) h2.
Proof.
  intros Hne. revert buf d tr h n out1. induction l as [|i l IH]; intros buf d tr h n out1 Hl Hr He;
    rewrite length_app in Hl;
    destruct (run_decode_prefix step _ _ _ _ _ Hr) as (b' & d' & [[h' n'] o] & Hpre & Hmore & Hlen);
    rewrite run_append in Hmore; revert Hmore;
    destruct (run false (b' ++ _) d' (h', n', [])) as [[[[bm dm] [[hm nm] om]] rm]|] eqn:Hrun; try done;
    cbn [mbind option_bind]; intros [= -> -> -> -> <- ->]; rewrite <-app_assoc;
    (eapply delivers_decoded; [lia|done|exact Hpre|]);
    pose proof (run_idle _ _ _ _ _ _ (h', n', []) Hpre) as Hidle.
  - unfold body_data in Hrun. simpl in Hrun. rewrite app_nil_r, Hidle in Hrun.
    injection Hrun as <- <- <- <- <-.
    destruct (at_end (E:=E) d2 b2 out2 n2 h2 tr) as [self p] eqn:Hend.
    eapply delivers_at_end; [exact Hend|]. erewrite poll_more; [|done|simpl; lia|exact Hidle].
    cbv zeta. cbn [body buffered_trailers]. rewrite try_decode_fuel, He by lia. cbn [mbind option_bind].
    by rewrite Hend.
  - apply Forall_cons in Hne as [Hi Hne].
    pose proof (poll_more fuel (mk (i :: l) d' b' tr n' h' false) b' d' h' n' eq_refl) as Hp.
    cbv zeta in Hp. cbn [body decode_buffer buffered_trailers] in Hp. specialize (Hp ltac:(lia) Hidle).
    destruct i as [|frame|e]; [| |done].
    + eapply delivers_pending; [exact Hp|]. apply IH; [done|rewrite length_app|exact Hrun|exact He].
      change (body_data (IPending :: l)) with (body_data l) in *. lia.
    + eapply delivers_pending; [exact Hp|].
      change (body_data (IFrame frame :: l)) with (frame_data frame ++ body_data l) in *.
      rewrite app_assoc in Hrun. rewrite length_app in Hl.
      eapply (IH Hne _ _ (match frame_trailers frame with Some t => Some t | None => tr end));
        [rewrite !length_app; lia|exact Hrun|exact He].
Qed.

(** C14: a transformed body. However the bytes of the body are cut into frames, the
    reader gets, in non-empty chunks, exactly the bytes that encoding the handler's
    answers to the items of the whole body gives, then the last trailers of the
    body, once, and then the end. *)
Theorem transform_equivalent (l : list (Inner T E)) d n h h' n' data fuel :
  no_error l → length (body_data l) < fuel →
  decode_all step (body_data l) d (h, n, []) = Some ((h', n', data), Ok ()) →
  ∃ k self chunks,
    drain handler fuel k (parser l d n h) [] =
      Some (self, ((Ok ∘ FData) <$> chunks) ++ ((Ok ∘ FTrailers) <$> option_list (final_trailers None l)),
            true) ∧
    concat chunks = data ∧ Forall (λ c, c ≠ []) chunks ∧ handler_state self = h'.
Proof.
  intros Hne Hl. unfold decode_all.
  destruct (run false (body_data l) d (h, n, [])) as [[[[b1 d1] [[h1 n1] out1]] [[]|e]]|] eqn:Hr;
    [|done|done].
  cbn [mbind option_bind]. rewrite run_append.
  destruct (run true b1 d1 (h1, n1, [])) as [[[[b2 d2] [[h2 n2] out2]] r]|] eqn:He; [|done].
  cbn [mbind option_bind]. intros [= <- <- <- ->].
  apply (delivers_body fuel l [] d None h n b1 d1 h1 n1 out1 b2 d2 h2 n2 out2 Hne Hl Hr He []).
Qed.
End facts.
End Transform.

(** * [sse.rs] *)

Module Sse.
(** [tokio_sse_codec::Frame] *)
Record Event := { data : bytes; name : string; id : option string }.
Inductive SseFrame := Comment (c : string) | EventFrame (e : Event) | Retry (ms : N).

Definition unwrap_sse_data (frame : SseFrame) : option bytes :=
  match frame with EventFrame e => Some (data e) | _ => None end.

(** [b"[DONE]"] *)
Definition DONE : bytes := String.list_ascii_of_string "[DONE]".

Definition data_event (d : bytes) : SseFrame := EventFrame {| data := d; name := ""; id := None |}.

Section sse.
(** [serde_json] on the types of the items, with its errors. *)
Context {I O JE : Type} (from_slice : bytes → result I JE) (to_vec : O → option bytes).

Definition unwrap_json (frame : SseFrame) : result (option I) JE :=
  match unwrap_sse_data frame with
  | None => Ok None
  | Some b => let? i := from_slice b in Ok (Some i)
  end.

(** The closure that [json_passthrough] gives to the parser. *)
Definition passthrough_handler {H} (f : H → option (result I JE) → H) (h : H) (o : SseFrame) : H :=
  match unwrap_sse_data o with
  | None => h
  | Some d => if decide (d = DONE) then f h None else f h (Some (from_slice d))
  end.

(** The closure that [json_transform] gives to the parser. *)
Definition transform_handler {H} (f : H → result I JE → H * option O) (h : H) (o : SseFrame)
    : H * option SseFrame :=
  match unwrap_sse_data o with
  | None => (h, None)
  | Some d =>
    if decide (d = DONE) then (h, Some (data_event DONE))
    else
      match f h (from_slice d) with
      | (h, Some transformed) => (h, j ← to_vec transformed; Some (data_event j))
      | (h, None) => (h, None)
      end
  end.

End sse.
End Sse.

(** * A codec of lines, for the examples *)

Module LineCodec.
Definition NL : ascii := Ascii.ascii_of_nat 10.

Fixpoint split_line (b : bytes) : option (bytes * bytes) :=
  match b with
  | [] => None
  | a :: b => if decide (a = NL) then Some ([], b)
              else match split_line b with Some (l, r) => Some (a :: l, r) | None => None end
  end.

Lemma split_line_more b l r m : split_line b = Some (l, r) → split_line (b ++ m) = Some (l, r ++ m).
Proof.
  revert l r. induction b as [|a b IH]; intros l r; simpl; [done|].
  case_decide; [by intros [= <- <-]|]. destruct (split_line b) as [[l' r']|]; [|done].
  intros [= <- <-]. by erewrite IH.
Qed.

Lemma split_line_length b l r : split_line b = Some (l, r) → length r < length b.
Proof.
  revert l r. induction b as [|a b IH]; intros l r; simpl; [done|].
  case_decide; [intros [= <- <-]; simpl; lia|]. destruct (split_line b) as [[l' r']|]; [|done].
  intros [= <- <-]. specialize (IH _ _ eq_refl). lia.
Qed.

Definition decode_line (d : ()) (b : bytes) : () * bytes * result (option Sse.SseFrame) () :=
  match split_line b with
  | Some (l, r) => ((), r, Ok (Some (Sse.data_event l)))
  | None => ((), b, Ok None)
  end.

#[global] Instance decoder : Decoder () Sse.SseFrame () := {|
  decode := decode_line;
  decode_eof d b := match b with [] => ((), [], Ok None) | _ => ((), [], Ok (Some (Sse.data_event b))) end
|}.

#[global] Instance decoder_laws : DecoderLaws decoder.
Proof.
  split; simpl; unfold decode_line.
  - intros d b d' b' i. destruct (split_line b) as [[l r]|] eqn:Hs; intros [= <- <- <-].
    by apply split_line_length in Hs.
  - intros d [|a b] d' b' i; intros [= <- <- <-]. simpl. lia.
  - intros d b d' b' i m. destruct (split_line b) as [[l r]|] eqn:Hs; intros [= <- <- <-].
    by rewrite (split_line_more _ _ _ m Hs).
  - intros d b d' b' m. by destruct (split_line b) as [[l r]|]; intros [= <- <-].
  - intros d b d' b'. by destruct (split_line b) as [[l r]|]; intros [= <- <-].
  - intros d b d' b' e m. by destruct (split_line b) as [[l r]|].
Qed.

#[global] Instance encoder : Encoder () Sse.SseFrame () := {|
  encode n f out := ((), out ++ default [] (Sse.unwrap_sse_data f) ++ [NL], Ok ())
|}.

#[global] Instance encoder_laws : EncoderLaws encoder.
Proof. split. done. Qed.
End LineCodec.

Module ParseExample.
Definition B (s : string) : bytes := String.list_ascii_of_string s.

(** A value of the example's JSON is its text; [x] does not parse. *)
Definition from_slice (b : bytes) : result bytes () := if decide (b = B "x") then Err () else Ok b.

(** Counts the items and the end marks that it is shown. *)
Definition count (h : nat * nat) (o : option (result bytes ())) : nat * nat :=
  match o with Some _ => (S h.1, h.2) | None => (h.1, S h.2) end.

Definition body : list (Inner string ()) :=
  [IFrame (FData (B "a")); IPending; IFrame (FData (B "b" ++ [LineCodec.NL] ++ B "[DO"));
   IFrame (FData (B "NE]" ++ [LineCodec.NL] ++ B "c")); IFrame (FTrailers "t")].

Lemma passthrough_transparent_witness : ∃ self,
  Passthrough.drain (Sse.passthrough_handler from_slice count) 100 6
    (Passthrough.parser body () (0, 0)) [] = Some (self, Ok <$> inner_frames body, true) ∧
  Passthrough.handler_state self = (2, 1).
Proof.
  apply (Passthrough.passthrough_transparent (C:=LineCodec.decoder)
    (Sse.passthrough_handler from_slice count) body () (0, 0) (2, 1) 100).
  - repeat constructor.
  - vm_compute. lia.
  - vm_compute. reflexivity.
Defined.

(** Doubles every item. *)
Definition double (h : ()) (r : result bytes ()) : () * option bytes :=
  (h, match r with Ok b => Some (b ++ b) | Err _ => None end).

Lemma transform_equivalent_witness : ∃ k self chunks,
  Transform.drain (Sse.transform_handler from_slice (λ b : bytes, Some b) double) 100 k
    (Transform.parser body () () ()) [] =
    Some (self, ((Ok ∘ FData) <$> chunks) ++ [Ok (FTrailers "t")], true) ∧
  concat chunks = B "abab" ++ [LineCodec.NL] ++ B "[DONE]" ++ [LineCodec.NL] ++ B "cc" ++ [LineCodec.NL].
Proof.
  destruct (Transform.transform_equivalent (C:=LineCodec.decoder) (EC:=LineCodec.encoder)
    (Sse.transform_handler from_slice (λ b : bytes, Some b) double) body () () () () ()
    (B "abab" ++ [LineCodec.NL] ++ B "[DONE]" ++ [LineCodec.NL] ++ B "cc" ++ [LineCodec.NL]) 100)
    as (k & self & chunks & Hd & Hc & _).
  - repeat constructor.
  - vm_compute. lia.
  - vm_compute. reflexivity.
  - exists k, self, chunks. split; [exact Hd|exact Hc].
Defined.
End ParseExample.
