(* ===== verification/TraceParent.v ===== *)
(** TraceParent: the trace context of a request ([telemetry/trc.rs]): reading and
    writing the [traceparent] header. *)
From S2P Require Import Prelude Strs Http Filters.

(** * Hexadecimal numbers *)

Definition hex_digit (n : N) : ascii := ascii_of_N (if bool_decide (n < 10)%N then 48 + n else 87 + n)%N.

(** [{:0wx}] of a number that has at most [w] digits. *)
Fixpoint format_hex (w : nat) (n : N) : string :=
  match w with
  | O => ""
  | S w => format_hex w (n / 16) +:+ String (hex_digit (n mod 16)) ""
  end.

(** [char::to_digit(16)] *)
Definition hex_value (a : ascii) : option N :=
  let b := N_of_ascii a in
  if bool_decide (48 ≤ b ≤ 57)%N then Some (b - 48)%N
  else if bool_decide (97 ≤ b ≤ 102)%N then Some (b - 87)%N
  else if bool_decide (65 ≤ b ≤ 70)%N then Some (b - 55)%N
  else None.

Fixpoint parse_hex_digits (s : string) (acc : N) : option N :=
  match s with
  | "" => Some acc
  | String a s => d ← hex_value a; parse_hex_digits s (acc * 16 + d)
  end.

(** [uN::from_str_radix(s, 16)] *)
Definition from_str_radix_16 (max : N) (s : string) : option N :=
  let digits := match s with String "+"%char r => r | _ => s end in
  if Str.is_empty digits then None
  else n ← parse_hex_digits digits 0; if bool_decide (n ≤ max)%N then Some n else None.

(** * The header *)

Record TraceParent := { version : N; trace_id : N; span_id : N; flags : N }.

Definition u8_max : N := 2 ^ 8 - 1.
Definition u64_max_N : N := 2 ^ 64 - 1.
Definition u128_max : N := 2 ^ 128 - 1.

(** The values the fields can have. *)
Definition in_range (t : TraceParent) : Prop :=
  (version t ≤ u8_max ∧ trace_id t ≤ u128_max ∧ span_id t ≤ u64_max_N ∧ flags t ≤ u8_max)%N.

(** [Debug], which is what is sent. *)
Definition format_traceparent (t : TraceParent) : string :=
  format_hex 2 (version t) +:+ "-" +:+ format_hex 32 (trace_id t) +:+ "-" +:+
  format_hex 16 (span_id t) +:+ "-" +:+ format_hex 2 (flags t).

(** [Display] *)
Definition display_traceparent (t : TraceParent) : string := format_hex 32 (trace_id t).

(** [segs[i]] panics when there are fewer segments. *)
Definition segment (segs : list string) (i : nat) : comp string := expect (segs !! i).

Definition TraceParent_try_from (value : string) : comp (option TraceParent) :=
  if decide (Str.len value ≠ 55) then Ret None
  else
    let segs := Str.split "-" value in
    s0 ← segment segs 0;
    match from_str_radix_16 u8_max s0 with
    | None => Ret None
    | Some version =>
      s1 ← segment segs 1;
      match from_str_radix_16 u128_max s1 with
      | None => Ret None
      | Some trace_id =>
        s2 ← segment segs 2;
        match from_str_radix_16 u64_max_N s2 with
        | None => Ret None
        | Some span_id =>
          s3 ← segment segs 3;
          Ret (flags ← from_str_radix_16 u8_max s3;
               Some {| version := version; trace_id := trace_id; span_id := span_id; flags := flags |})
        end
      end
    end.

Definition TRACEPARENT_HEADER : string := "traceparent".

Definition is_sampled (t : TraceParent) : bool := N.testbit (flags t) 0.

Section requests.
Context `{!HeaderMapOps}.
Context (to_str : string → option string).

Definition from_request (req : Request) : comp (option TraceParent) :=
  match hdr_get (req_headers req) TRACEPARENT_HEADER ≫= to_str with
  | None => Ret None
  | Some b => TraceParent_try_from b
  end.

(** [new_span], given the random identifier. *)
Definition new_span (t : TraceParent) (id : N) : TraceParent :=
  {| version := version t; trace_id := trace_id t; span_id := id; flags := flags t |}.

Definition insert_header (t : TraceParent) (req : Request) : Request :=
  with_headers req (hdr_insert (req_headers req) TRACEPARENT_HEADER (format_traceparent t)).
End requests.

(** * Facts *)

Lemma hex_value_digit n : (n < 16)%N → hex_value (hex_digit n) = Some n.
Proof.
  intros Hn. unfold hex_value, hex_digit.
  rewrite N_ascii_embedding by (case_bool_decide; lia).
  repeat case_bool_decide; try lia; f_equal; lia.
Qed.

Lemma hex_digit_not n a : (n < 16)%N → a = "-"%char ∨ a = "+"%char → hex_digit n ≠ a.
Proof.
  intros Hn Ha Heq. apply hex_value_digit in Hn. rewrite Heq in Hn. by destruct Ha; subst.
Qed.

Lemma parse_hex_app s t acc :
  parse_hex_digits (s +:+ t) acc = (n ← parse_hex_digits s acc; parse_hex_digits t n).
Proof.
  revert acc. induction s as [|a s IH]; intros acc; [done|]. rewrite Str.app_cons. simpl.
  destruct (hex_value a); [apply IH|done].
Qed.

Lemma len_format_hex w n : Str.len (format_hex w n) = w.
Proof. revert n. induction w as [|w IH]; intros n; [done|]. simpl. rewrite Str.len_app, IH. simpl. lia. Qed.

Lemma parse_format_hex w n acc :
  (n < 16 ^ N.of_nat w)%N →
  parse_hex_digits (format_hex w n) acc = Some (acc * 16 ^ N.of_nat w + n)%N.
Proof.
  revert n acc. induction w as [|w IH]; intros n acc Hn.
  - simpl in *. f_equal. lia.
  - cbn [format_hex]. rewrite parse_hex_app. rewrite Nat2N.inj_succ, N.pow_succ_r' in *.
    rewrite IH by (apply N.Div0.div_lt_upper_bound; lia). cbn [mbind option_bind parse_hex_digits].
    rewrite hex_value_digit by (apply N.mod_lt; lia). cbn [mbind option_bind]. f_equal.
    pose proof (N.div_mod n 16). lia.
Qed.

Lemma format_hex_forallb (p : ascii → bool) w n :
  (∀ d, (d < 16)%N → p (hex_digit d) = true) → Str.forallb p (format_hex w n) = true.
Proof.
  intros Hp. revert n. induction w as [|w IH]; intros n; [done|]. cbn [format_hex].
  assert (∀ s t, Str.forallb p (s +:+ t) = Str.forallb p s && Str.forallb p t) as Happ.
  { induction s as [|a s IHs]; intros t; [done|]. rewrite Str.app_cons. simpl. rewrite IHs. by destruct (p a). }
  rewrite Happ, IH. simpl. by rewrite Hp by (apply N.mod_lt; lia).
Qed.

Lemma from_str_radix_format w n max :
  0 < w → (n < 16 ^ N.of_nat w)%N → (n ≤ max)%N →
  from_str_radix_16 max (format_hex w n) = Some n.
Proof.
  intros Hw Hn Hmax. unfold from_str_radix_16.
  assert (match format_hex w n with String "+"%char r => r | _ => format_hex w n end = format_hex w n) as ->.
  { pose proof (format_hex_forallb (λ a, bool_decide (a ≠ "+"%char)) w n) as Hall.
    destruct (format_hex w n) as [|a s]; [done|].
    assert (a ≠ "+"%char) as Ha.
    { specialize (Hall ltac:(intros d Hd; apply bool_decide_eq_true; apply hex_digit_not; auto)).
      simpl in Hall. apply andb_true_iff in Hall as [Hall _]. by apply bool_decide_eq_true in Hall. }
    destruct a as [[] [] [] [] [] [] [] []]; done. }
  assert (Str.is_empty (format_hex w n) = false) as ->.
  { pose proof (len_format_hex w n). destruct (format_hex w n); [simpl in *; lia|done]. }
  rewrite parse_format_hex by done. cbn [mbind option_bind]. rewrite N.mul_0_l, N.add_0_l.
  by rewrite bool_decide_true.
Qed.

(** A text without the separator is not split. *)
Lemma split_char_app c s t :
  Str.forallb (λ a, bool_decide (a ≠ c)) s = true → Str.split c (s +:+ String c t) = s :: Str.split c t.
Proof.
  induction s as [|a s IH]; intros Hs.
  - simpl. by rewrite decide_True.
  - simpl in Hs. apply andb_true_iff in Hs as [Ha%bool_decide_eq_true Hs].
    rewrite Str.app_cons. cbn [Str.split]. rewrite IH by done. by rewrite decide_False.
Qed.

Lemma split_char_none c s : Str.forallb (λ a, bool_decide (a ≠ c)) s = true → Str.split c s = [s].
Proof.
  induction s as [|a s IH]; intros Hs; [done|].
  simpl in Hs. apply andb_true_iff in Hs as [Ha%bool_decide_eq_true Hs].
  cbn [Str.split]. rewrite IH by done. by rewrite decide_False.
Qed.

Lemma format_hex_no_dash w n : Str.forallb (λ a, bool_decide (a ≠ "-"%char)) (format_hex w n) = true.
Proof.
  apply format_hex_forallb. intros d Hd. apply bool_decide_eq_true, hex_digit_not; auto.
Qed.

Lemma split_traceparent t :
  Str.split "-" (format_traceparent t) =
  [format_hex 2 (version t); format_hex 32 (trace_id t); format_hex 16 (span_id t); format_hex 2 (flags t)].
Proof.
  unfold format_traceparent. change ("-" +:+ ?x) with (String "-" x).
  repeat change ("-" +:+ ?x) with (String "-" x).
  rewrite split_char_app by apply format_hex_no_dash. f_equal.
  rewrite (split_char_app "-" (format_hex 32 (trace_id t))) by apply format_hex_no_dash. f_equal.
  rewrite (split_char_app "-" (format_hex 16 (span_id t))) by apply format_hex_no_dash. f_equal.
  apply split_char_none, format_hex_no_dash.
Qed.

(** C34: the trace context survives being sent. What is written for a span is read
    back as the same trace, span and flags by the next hop. *)
Theorem traceparent_roundtrip t :
  in_range t → TraceParent_try_from (format_traceparent t) = Ret (Some t).
Proof.
  intros (Hv & Ht & Hs & Hf). unfold TraceParent_try_from.
  rewrite decide_False.
  2:{ intros Hne. apply Hne. unfold format_traceparent. rewrite !Str.len_app, !len_format_hex. done. }
  rewrite split_traceparent. cbn [segment lookup list_lookup expect mbind comp_mbind].
  unfold segment. simpl lookup. unfold u8_max, u128_max, u64_max_N in *.
  cbn [expect mbind comp_mbind].
  rewrite from_str_radix_format by (done || simpl; lia). simpl lookup. cbn [expect mbind comp_mbind].
  rewrite from_str_radix_format by (done || simpl; lia). simpl lookup. cbn [expect mbind comp_mbind].
  rewrite from_str_radix_format by (done || simpl; lia). simpl lookup. cbn [expect mbind comp_mbind].
  rewrite from_str_radix_format by (done || simpl; lia). by destruct t.
Qed.

(** A malformed trace context can stop the request. A header of 55 characters
    that has no separator and is a small hexadecimal number, such as 55 zeros,
    makes the reader panic instead of being ignored. *)
Theorem traceparent_panics value n :
  Str.len value = 55 → Str.forallb (λ a, bool_decide (a ≠ "-"%char)) value = true →
  from_str_radix_16 u8_max value = Some n → TraceParent_try_from value = Panic.
Proof.
  intros Hl Hd Hn. unfold TraceParent_try_from. rewrite decide_False by (by intros []).
  rewrite split_char_none by done. unfold segment. cbn [lookup list_lookup expect mbind comp_mbind].
  by rewrite Hn.
Qed.

Definition zeros : string := format_hex 55 0.

Lemma traceparent_panics_witness : TraceParent_try_from zeros = Panic.
Proof. apply (traceparent_panics zeros 0); vm_compute; reflexivity. Defined.

Lemma traceparent_roundtrip_witness :
  TraceParent_try_from "00-0af7651916cd43dd8448eb211c80319c-b7ad6b7169203331-01" =
    Ret (Some {| version := 0; trace_id := 14576827793038113322513871894673895836;
                 span_id := 13235353014750950193; flags := 1 |}).
Proof.
  exact (traceparent_roundtrip {| version := 0; trace_id := 14576827793038113322513871894673895836;
    span_id := 13235353014750950193; flags := 1 |} ltac:(vm_compute; repeat split; discriminate)).
Defined.
