(* ===== verification/LlmTypes.v ===== *)
(** LlmTypes: the chat messages of the LLM providers and the translations between
    them: the common format ([universal] of [llm/mod.rs], which is OpenAI's), and
    those of [llm/anthropic.rs] and [llm/bedrock.rs].

    Tool descriptions and schemas are passed along as JSON values.  Token counts
    are unsigned 64-bit numbers on the providers' side and signed 32-bit ones in
    the common format; the conversions are written out. *)
From Stdlib Require Import SpecFloat.
From S2P Require Import Prelude Strs Json.

(** * Integer conversions *)

(** [as i32] of a [usize], [as u64] of an [i32], [as i64] of a [u64] and [as usize]
    of an [i64]. *)
Definition as_i32 (n : Z) : Z := (n + 2 ^ 31) mod 2 ^ 32 - 2 ^ 31.
Definition as_u64 (n : Z) : Z := n mod 2 ^ 64.
Definition as_i64 (n : Z) : Z := (n + 2 ^ 63) mod 2 ^ 64 - 2 ^ 63.

Lemma as_i32_small n : (0 ≤ n < 2 ^ 31)%Z → as_i32 n = n.
Proof. intros Hn. unfold as_i32. rewrite Z.mod_small by lia. lia. Qed.

Lemma as_u64_small n : (0 ≤ n < 2 ^ 64)%Z → as_u64 n = n.
Proof. intros Hn. unfold as_u64. by rewrite Z.mod_small by lia. Qed.

Lemma as_i64_small n : (0 ≤ n < 2 ^ 63)%Z → as_i64 n = n.
Proof. intros Hn. unfold as_i64. rewrite Z.mod_small by lia. lia. Qed.

(** * The common format *)

Inductive MessageRole := user | system | assistant | function | tool.
#[export] Instance MessageRole_eq_dec : EqDecision MessageRole.
Proof. solve_decision. Defined.

Inductive ContentType := ct_text | ct_image_url.

Record ImageUrl := { iu_type : ContentType; iu_text : option string; iu_image_url : option string }.

Inductive Content := Text (s : string) | ImageUrls (l : list ImageUrl).

(** [must_as_text]: panics on images. *)
Definition must_as_text (c : Content) : comp string :=
  match c with Text s => Ret s | ImageUrls _ => Panic end.

Record ChatCompletionMessage := {
  m_role : MessageRole;
  m_content : Content;
  m_name : option string;
  m_tool_calls : option (list Value);
  m_tool_call_id : option string
}.

Record ChatCompletionStreamOptions := { include_usage : bool }.

Record ChatCompletionRequest := {
  cc_model : string;
  cc_messages : list ChatCompletionMessage;
  cc_temperature : option spec_float;
  cc_top_p : option spec_float;
  cc_n : option Z;
  cc_response_format : option Value;
  cc_stream : option bool;
  cc_stream_options : option ChatCompletionStreamOptions;
  cc_stop : option (list string);
  cc_max_tokens : option Z;
  cc_presence_penalty : option spec_float;
  cc_frequency_penalty : option spec_float;
  cc_logit_bias : option (gmap string Z);
  cc_user : option string;
  cc_seed : option Z;
  cc_tools : option (list Value);
  cc_parallel_tool_calls : option bool;
  cc_tool_choice : option Value
}.

Inductive FinishReason := stop | length | content_filter | tool_calls | null.

Record ResponseMessage := {
  rm_role : MessageRole;
  rm_content : option string;
  rm_reasoning_content : option string;
  rm_name : option string;
  rm_tool_calls : option (list Value)
}.

Record ChatCompletionChoice := {
  ch_index : Z;
  ch_message : ResponseMessage;
  ch_finish_reason : option FinishReason;
  ch_finish_details : option Value
}.

Record Usage := { prompt_tokens : Z; completion_tokens : Z; total_tokens : Z }.

Record ChatCompletionResponse := {
  cr_id : option string;
  cr_object : string;
  cr_created : Z;
  cr_model : string;
  cr_choices : list ChatCompletionChoice;
  cr_usage : Usage;
  cr_system_fingerprint : option string
}.

Record ResponseDelta := {
  rd_role : option MessageRole;
  rd_content : option string;
  rd_refusal : option string;
  rd_name : option string;
  rd_tool_calls : option (list Value)
}.

Record ChatCompletionChoiceStream := {
  cs_index : Z;
  cs_delta : ResponseDelta;
  cs_finish_reason : option FinishReason
}.

Record ChatCompletionStreamResponse := {
  sr_id : option string;
  sr_object : string;
  sr_created : Z;
  sr_model : string;
  sr_choices : list ChatCompletionChoiceStream;
  sr_usage : option Usage;
  sr_system_fingerprint : option string
}.

Record ChatCompletionError := {
  er_type : string;
  er_message : string;
  er_param : option string;
  er_code : option string;
  er_event_id : option string
}.

Record ChatCompletionErrorResponse := { err_event_id : option string; err_error : ChatCompletionError }.

Definition with_model (req : ChatCompletionRequest) (model : string) : ChatCompletionRequest :=
  {| cc_model := model; cc_messages := cc_messages req; cc_temperature := cc_temperature req;
     cc_top_p := cc_top_p req; cc_n := cc_n req; cc_response_format := cc_response_format req;
     cc_stream := cc_stream req; cc_stream_options := cc_stream_options req; cc_stop := cc_stop req;
     cc_max_tokens := cc_max_tokens req; cc_presence_penalty := cc_presence_penalty req;
     cc_frequency_penalty := cc_frequency_penalty req; cc_logit_bias := cc_logit_bias req;
     cc_user := cc_user req; cc_seed := cc_seed req; cc_tools := cc_tools req;
     cc_parallel_tool_calls := cc_parallel_tool_calls req; cc_tool_choice := cc_tool_choice req |}.

Definition with_messages (req : ChatCompletionRequest) (messages : list ChatCompletionMessage)
    : ChatCompletionRequest :=
  {| cc_model := cc_model req; cc_messages := messages; cc_temperature := cc_temperature req;
     cc_top_p := cc_top_p req; cc_n := cc_n req; cc_response_format := cc_response_format req;
     cc_stream := cc_stream req; cc_stream_options := cc_stream_options req; cc_stop := cc_stop req;
     cc_max_tokens := cc_max_tokens req; cc_presence_penalty := cc_presence_penalty req;
     cc_frequency_penalty := cc_frequency_penalty req; cc_logit_bias := cc_logit_bias req;
     cc_user := cc_user req; cc_seed := cc_seed req; cc_tools := cc_tools req;
     cc_parallel_tool_calls := cc_parallel_tool_calls req; cc_tool_choice := cc_tool_choice req |}.

Definition with_stream_options (req : ChatCompletionRequest) (o : option ChatCompletionStreamOptions)
    : ChatCompletionRequest :=
  {| cc_model := cc_model req; cc_messages := cc_messages req; cc_temperature := cc_temperature req;
     cc_top_p := cc_top_p req; cc_n := cc_n req; cc_response_format := cc_response_format req;
     cc_stream := cc_stream req; cc_stream_options := o; cc_stop := cc_stop req;
     cc_max_tokens := cc_max_tokens req; cc_presence_penalty := cc_presence_penalty req;
     cc_frequency_penalty := cc_frequency_penalty req; cc_logit_bias := cc_logit_bias req;
     cc_user := cc_user req; cc_seed := cc_seed req; cc_tools := cc_tools req;
     cc_parallel_tool_calls := cc_parallel_tool_calls req; cc_tool_choice := cc_tool_choice req |}.

(** The model of the provider's configuration takes the place of the request's. *)
Definition override_model (model : option string) (req : ChatCompletionRequest) : ChatCompletionRequest :=
  match model with Some model => with_model req model | None => req end.

(** ** OpenAI: [process_request] *)
Definition openai_process_request (model : option string) (req : ChatCompletionRequest)
    : ChatCompletionRequest :=
  let req := override_model model req in
  match cc_stream req, cc_stream_options req with
  | Some true, None => with_stream_options req (Some {| include_usage := true |})
  | _, _ => req
  end.

(** The texts of the system messages, and the other messages. *)
Definition system_text (m : ChatCompletionMessage) : option string :=
  if decide (m_role m = system) then match m_content m with Text t => Some t | _ => None end else None.

Definition newline : ascii := ascii_of_nat 10.

Definition system_prompt (l : list ChatCompletionMessage) : string := Str.join newline (omap system_text l).

Definition DEFAULT_MAX_TOKENS : Z := 4096.

(** * Anthropic *)

Module Anthropic.
Inductive Role := User | Assistant.

Inductive ContentBlock :=
| TextBlock (text : string)
| Image (source media_type data : string).

Record Message := { role : Role; content : list ContentBlock }.

Record MessagesRequest := {
  messages : list Message;
  system : string;
  model : string;
  max_tokens : Z;
  stop_sequences : list string;
  stream : bool;
  temperature : option spec_float;
  top_p : option spec_float;
  top_k : option Z
}.

Inductive StopReason := EndTurn | MaxTokens | StopSequence.

Record AUsage := { input_tokens : Z; output_tokens : Z }.

Record MessagesResponse := {
  r_id : string;
  r_type : string;
  r_role : Role;
  r_content : list ContentBlock;
  r_model : string;
  r_stop_reason : option StopReason;
  r_stop_sequence : option string;
  r_usage : AUsage
}.

Record MessageDelta := { d_stop_reason : option StopReason; d_stop_sequence : option string }.

Inductive MessagesStreamEvent :=
| MessageStart (message : MessagesResponse)
| ContentBlockStart (index : Z) (content_block : ContentBlock)
| ContentBlockDelta (index : Z) (text : string)
| ContentBlockStop (index : Z)
| EMessageDelta (delta : MessageDelta) (output_tokens : Z)
| MessageStop
| Ping.

Definition translate_role (r : MessageRole) : Role :=
  match r with user => User | assistant => Assistant | _ => User end.

Definition translate_image (img_url : ImageUrl) : ContentBlock :=
  match iu_image_url img_url with
  | Some url => Image url "image/jpeg" ""
  | None => TextBlock (default "" (iu_text img_url))
  end.

Definition translate_content (c : Content) : list ContentBlock :=
  match c with Text text => [TextBlock text] | ImageUrls urls => translate_image <$> urls end.

Definition translate_message (msg : ChatCompletionMessage) : Message :=
  {| role := translate_role (m_role msg); content := translate_content (m_content msg) |}.

Definition translate_request (req : ChatCompletionRequest) : MessagesRequest :=
  {| messages := translate_message <$> filter (λ m, m_role m ≠ LlmTypes.system) (cc_messages req);
     system := system_prompt (cc_messages req);
     model := cc_model req;
     max_tokens := as_u64 (default DEFAULT_MAX_TOKENS (cc_max_tokens req));
     stop_sequences := default [] (cc_stop req);
     stream := default false (cc_stream req);
     temperature := cc_temperature req;
     top_p := cc_top_p req;
     top_k := None |}.

Definition translate_stop (r : StopReason) : FinishReason :=
  match r with EndTurn => stop | MaxTokens => length | StopSequence => stop end.

Definition translate_block (finish : option FinishReason) (block : ContentBlock) : option ChatCompletionChoice :=
  match block with
  | TextBlock text =>
    Some {| ch_index := 0;
            ch_message := {| rm_role := assistant; rm_content := Some text; rm_reasoning_content := None;
                             rm_name := None; rm_tool_calls := None |};
            ch_finish_reason := finish; ch_finish_details := None |}
  | Image _ _ _ => None
  end.

(** [input + output] on [usize]. *)
Definition add_usize (a b : Z) : Z := (a + b) mod 2 ^ 64.

(** [now] is the time stamp. *)
Definition translate_response (now : Z) (resp : MessagesResponse) : ChatCompletionResponse :=
  {| cr_id := Some (r_id resp);
     cr_object := "chat.completion";
     cr_created := now;
     cr_model := r_model resp;
     cr_choices := omap (translate_block (translate_stop <$> r_stop_reason resp)) (r_content resp);
     cr_usage := {| prompt_tokens := as_i32 (input_tokens (r_usage resp));
                    completion_tokens := as_i32 (output_tokens (r_usage resp));
                    total_tokens := as_i32 (add_usize (input_tokens (r_usage resp)) (output_tokens (r_usage resp))) |};
     cr_system_fingerprint := None |}.

Definition translate_error (message : string) : ChatCompletionErrorResponse :=
  {| err_event_id := None;
     err_error := {| er_type := "invalid_request_error"; er_message := message; er_param := None;
                     er_code := None; er_event_id := None |} |}.

(** ** Streams *)

(** The variables of the closure of [process_streaming], and what it has written to
    the log: input, output and total tokens and the model. *)
Record StreamState := {
  message_id : option string;
  st_model : string;
  created : Z;
  st_finish_reason : option FinishReason;
  st_input_tokens : Z;
  log_input_tokens : option Z;
  log_output_tokens : option Z;
  log_total_tokens : option Z;
  log_model : option string
}.

Definition initial_stream (now : Z) : StreamState :=
  {| message_id := None; st_model := ""; created := now; st_finish_reason := None; st_input_tokens := 0;
     log_input_tokens := None; log_output_tokens := None; log_total_tokens := None; log_model := None |}.

Definition mk_chunk (s : StreamState) (choices : list ChatCompletionChoiceStream) (usage : option Usage)
    : ChatCompletionStreamResponse :=
  {| sr_id := message_id s; sr_object := "chat.completion.chunk"; sr_created := created s;
     sr_model := st_model s; sr_choices := choices; sr_usage := usage; sr_system_fingerprint := None |}.

(** The closure given to [json_transform]. *)
Definition stream_event (s : StreamState) (f : result MessagesStreamEvent ())
    : StreamState * option ChatCompletionStreamResponse :=
  match f with
  | Err _ => (s, None)
  | Ok (MessageStart message) =>
    ({| message_id := Some (r_id message); st_model := r_model message; created := created s;
        st_finish_reason := st_finish_reason s; st_input_tokens := input_tokens (r_usage message);
        log_input_tokens := Some (input_tokens (r_usage message));
        log_output_tokens := Some (output_tokens (r_usage message));
        log_total_tokens := log_total_tokens s; log_model := Some (r_model message) |}, None)
  | Ok (ContentBlockStart _ _) => (s, None)
  | Ok (ContentBlockDelta _ text) =>
    (s, Some (mk_chunk s [{| cs_index := 0;
                             cs_delta := {| rd_role := None; rd_content := Some text; rd_refusal := None;
                                            rd_name := None; rd_tool_calls := None |};
                             cs_finish_reason := None |}] None))
  | Ok (EMessageDelta delta out) =>
    let s' := {| message_id := message_id s; st_model := st_model s; created := created s;
                 st_finish_reason := translate_stop <$> d_stop_reason delta;
                 st_input_tokens := st_input_tokens s; log_input_tokens := log_input_tokens s;
                 log_output_tokens := Some out;
                 log_total_tokens := match log_input_tokens s with
                                     | Some inp => Some (add_usize inp out)
                                     | None => log_total_tokens s
                                     end;
                 log_model := log_model s |} in
    (s', Some (mk_chunk s' [] (Some {| prompt_tokens := as_i32 out;
                                       completion_tokens := as_i32 (st_input_tokens s);
                                       total_tokens := as_i32 (add_usize (st_input_tokens s) out) |})))
  | Ok (ContentBlockStop _) | Ok MessageStop | Ok Ping => (s, None)
  end.
End Anthropic.

(** * Bedrock *)

Module Bedrock.
Inductive Role := User | Assistant.

Inductive ContentBlock :=
| TextBlock (text : string)
| Image (source media_type data : string).

Record Message := { role : Role; content : list ContentBlock }.

Record InferenceConfiguration := {
  max_tokens : Z;
  temperature : option spec_float;
  top_p : option spec_float;
  stop_sequences : list string
}.

(** The fields that a translated request can have; the others are absent. *)
Record ConverseRequest := {
  model_id : string;
  messages : list Message;
  system : option (list string);
  inference_config : option InferenceConfiguration
}.

Inductive StopReason := EndTurn | MaxTokens | StopSequence.

Record TokenUsage := { input_tokens : Z; output_tokens : Z; t_total_tokens : Z }.

Inductive ConverseOutput := OMessage (m : Message) | OUnknown.

Record ConverseResponse := {
  output : option ConverseOutput;
  stop_reason : StopReason;
  usage : option TokenUsage
}.

Definition translate_role (r : MessageRole) : Role :=
  match r with user => User | assistant => Assistant | _ => User end.

Definition translate_image (img_url : ImageUrl) : ContentBlock :=
  match iu_image_url img_url with
  | Some url => Image url "image/jpeg" ""
  | None => TextBlock (default "" (iu_text img_url))
  end.

Definition translate_content (c : Content) : list ContentBlock :=
  match c with Text text => [TextBlock text] | ImageUrls urls => translate_image <$> urls end.

Definition translate_message (msg : ChatCompletionMessage) : Message :=
  {| role := translate_role (m_role msg); content := translate_content (m_content msg) |}.

Definition translate_request (req : ChatCompletionRequest) : ConverseRequest :=
  let sys := system_prompt (cc_messages req) in
  {| model_id := cc_model req;
     messages := translate_message <$> filter (λ m, m_role m ≠ LlmTypes.system) (cc_messages req);
     system := if Str.is_empty sys then None else Some [sys];
     inference_config :=
       Some {| max_tokens := as_u64 (default DEFAULT_MAX_TOKENS (cc_max_tokens req));
               temperature := cc_temperature req; top_p := cc_top_p req;
               stop_sequences := default [] (cc_stop req) |} |}.

Definition translate_stop (r : StopReason) : FinishReason :=
  match r with EndTurn => stop | MaxTokens => length | StopSequence => stop end.

Definition translate_block (finish : FinishReason) (block : ContentBlock) : option ChatCompletionChoice :=
  match block with
  | TextBlock text =>
    Some {| ch_index := 0;
            ch_message := {| rm_role := assistant; rm_content := Some text; rm_reasoning_content := None;
                             rm_name := None; rm_tool_calls := None |};
            ch_finish_reason := Some finish; ch_finish_details := None |}
  | Image _ _ _ => None
  end.

Inductive BedrockError := IncompleteResponse.

(** [now_ms] and [now] are the clock readings. *)
Definition translate_response (now_ms : N) (now : Z) (resp : ConverseResponse) (model : string)
    : result ChatCompletionResponse BedrockError :=
  let? output := ok_or (output resp) IncompleteResponse in
  let? message := match output with OMessage msg => Ok msg | OUnknown => Err IncompleteResponse end in
  Ok {| cr_id := Some ("bedrock-" +:+ Str.display_nat now_ms);
        cr_object := "chat.completion";
        cr_created := now;
        cr_model := model;
        cr_choices := omap (translate_block (translate_stop (stop_reason resp))) (content message);
        cr_usage := match usage resp with
                    | Some u => {| prompt_tokens := as_i32 (input_tokens u);
                                   completion_tokens := as_i32 (output_tokens u);
                                   total_tokens := as_i32 (t_total_tokens u) |}
                    | None => {| prompt_tokens := 0; completion_tokens := 0; total_tokens := 0 |}
                    end;
        cr_system_fingerprint := None |}.

Definition translate_error (message : string) : ChatCompletionErrorResponse :=
  {| err_event_id := None;
     err_error := {| er_type := "invalid_request_error"; er_message := message; er_param := None;
                     er_code := None; er_event_id := None |} |}.
End Bedrock.

(** * Theorems *)

(** ** The two translations *)

(** Anthropic's messages in Bedrock's types. *)
Definition bedrock_role (r : Anthropic.Role) : Bedrock.Role :=
  match r with Anthropic.User => Bedrock.User | Anthropic.Assistant => Bedrock.Assistant end.
Definition bedrock_block (b : Anthropic.ContentBlock) : Bedrock.ContentBlock :=
  match b with
  | Anthropic.TextBlock t => Bedrock.TextBlock t
  | Anthropic.Image s m d => Bedrock.Image s m d
  end.
Definition bedrock_message (m : Anthropic.Message) : Bedrock.Message :=
  {| Bedrock.role := bedrock_role (Anthropic.role m);
     Bedrock.content := bedrock_block <$> Anthropic.content m |}.
Definition bedrock_request (r : Anthropic.MessagesRequest) : Bedrock.ConverseRequest :=
  {| Bedrock.model_id := Anthropic.model r;
     Bedrock.messages := bedrock_message <$> Anthropic.messages r;
     Bedrock.system := if Str.is_empty (Anthropic.system r) then None else Some [Anthropic.system r];
     Bedrock.inference_config :=
       Some {| Bedrock.max_tokens := Anthropic.max_tokens r; Bedrock.temperature := Anthropic.temperature r;
               Bedrock.top_p := Anthropic.top_p r; Bedrock.stop_sequences := Anthropic.stop_sequences r |} |}.
Definition bedrock_stop (r : Anthropic.StopReason) : Bedrock.StopReason :=
  match r with
  | Anthropic.EndTurn => Bedrock.EndTurn
  | Anthropic.MaxTokens => Bedrock.MaxTokens
  | Anthropic.StopSequence => Bedrock.StopSequence
  end.

Lemma bedrock_translate_content c :
  Bedrock.translate_content c = bedrock_block <$> Anthropic.translate_content c.
Proof.
  destruct c as [t|l]; [done|]. simpl. rewrite <-list_fmap_compose. apply list_fmap_ext.
  intros _ [ty text [url|]] _; done.
Qed.

Lemma bedrock_translate_message m :
  Bedrock.translate_message m = bedrock_message (Anthropic.translate_message m).
Proof.
  unfold Bedrock.translate_message, bedrock_message. simpl. rewrite bedrock_translate_content.
  f_equal. by destruct (m_role m).
Qed.

(** The two providers with a format of their own are translated alike. A
    request for Bedrock says exactly what the request for Anthropic says, and an
    answer with the same text and stop reason gives the same choices. *)
Theorem bedrock_anthropic_agree req :
  Bedrock.translate_request req = bedrock_request (Anthropic.translate_request req) ∧
  ∀ now now_ms model (resp : Anthropic.MessagesResponse) (r : Anthropic.StopReason) usage,
    Anthropic.r_stop_reason resp = Some r →
    ∃ cr, Bedrock.translate_response now_ms now
        {| Bedrock.output := Some (Bedrock.OMessage
             {| Bedrock.role := Bedrock.Assistant; Bedrock.content := bedrock_block <$> Anthropic.r_content resp |});
           Bedrock.stop_reason := bedrock_stop r; Bedrock.usage := usage |} model = Ok cr ∧
      cr_choices cr = cr_choices (Anthropic.translate_response now resp).
Proof.
  split.
  - unfold Bedrock.translate_request, bedrock_request. simpl. f_equal.
    rewrite <-list_fmap_compose. apply list_fmap_ext. intros _ m _. apply bedrock_translate_message.
  - intros now now_ms model resp r usage Hr. eexists. split; [done|]. simpl. rewrite Hr.
    induction (Anthropic.r_content resp) as [|[t|? ? ?] l IH]; csimpl; [done| |done].
    rewrite IH. by destruct r.
Qed.

(** ** Usage *)

Lemma as_i32_range n : (- 2 ^ 31 ≤ as_i32 n < 2 ^ 31)%Z.
Proof. unfold as_i32. pose proof (Z.mod_pos_bound (n + 2 ^ 31) (2 ^ 32)). lia. Qed.

(** The usage of a translated answer. It is exact exactly when the sum of the
    counts fits in 31 bits; otherwise the total, at least, is cut off. *)
Theorem anthropic_usage now resp :
  let u := Anthropic.r_usage resp in
  let u' := cr_usage (Anthropic.translate_response now resp) in
  (0 ≤ Anthropic.input_tokens u)%Z → (0 ≤ Anthropic.output_tokens u)%Z →
  (Anthropic.input_tokens u + Anthropic.output_tokens u < 2 ^ 64)%Z →
  (Anthropic.input_tokens u + Anthropic.output_tokens u < 2 ^ 31)%Z ↔
  prompt_tokens u' = Anthropic.input_tokens u ∧ completion_tokens u' = Anthropic.output_tokens u ∧
  total_tokens u' = (Anthropic.input_tokens u + Anthropic.output_tokens u)%Z.
Proof.
  intros u u' Hin Hout Hsum. subst u'. simpl. fold u. unfold Anthropic.add_usize.
  rewrite Z.mod_small by lia. split.
  - intros Hlt. by rewrite !as_i32_small by lia.
  - intros (_ & _ & Ht). pose proof (as_i32_range (Anthropic.input_tokens u + Anthropic.output_tokens u)). lia.
Qed.

(** ** Streams *)

Fixpoint run_stream (s : Anthropic.StreamState) (evs : list (result Anthropic.MessagesStreamEvent ()))
    : Anthropic.StreamState * list ChatCompletionStreamResponse :=
  match evs with
  | [] => (s, [])
  | e :: evs =>
    let '(s, c) := Anthropic.stream_event s e in
    let '(s, cs) := run_stream s evs in
    (s, option_list c ++ cs)
  end.

(** The text of an event, and of a chunk that is sent on. *)
Definition event_text (e : result Anthropic.MessagesStreamEvent ()) : string :=
  match e with Ok (Anthropic.ContentBlockDelta _ t) => t | _ => "" end.
Definition chunk_text (c : ChatCompletionStreamResponse) : string :=
  String.concat "" ((λ ch, default "" (rd_content (cs_delta ch))) <$> sr_choices c).

Definition is_start (e : result Anthropic.MessagesStreamEvent ()) : bool :=
  match e with Ok (Anthropic.MessageStart _) => true | _ => false end.

Lemma run_stream_app s evs evs' :
  run_stream s (evs ++ evs') =
  let '(s1, cs1) := run_stream s evs in
  let '(s2, cs2) := run_stream s1 evs' in (s2, cs1 ++ cs2).
Proof.
  revert s. induction evs as [|e evs IH]; intros s; simpl.
  - by destruct (run_stream s evs').
  - destruct (Anthropic.stream_event s e) as [s1 c]. rewrite IH.
    destruct (run_stream s1 evs) as [s2 cs]. destruct (run_stream s2 evs'). by rewrite app_assoc.
Qed.

Lemma concat_empty_cons x l : String.concat "" (x :: l) = x +:+ String.concat "" l.
Proof. destruct l; simpl; [by rewrite Str.app_nil_r|done]. Qed.

(** Between the start of a message and the next one, the counts of the start are
    remembered. *)
Lemma run_stream_keeps s evs :
  Forall (λ e, is_start e = false) evs →
  Anthropic.st_input_tokens (run_stream s evs).1 = Anthropic.st_input_tokens s ∧
  Anthropic.log_input_tokens (run_stream s evs).1 = Anthropic.log_input_tokens s.
Proof.
  intros Hevs. revert s. induction Hevs as [|e evs He _ IH]; intros s; [done|]. simpl.
  destruct (Anthropic.stream_event s e) as [s1 c] eqn:Hs.
  specialize (IH s1). destruct (run_stream s1 evs) as [s2 cs]. simpl in *. destruct IH as [-> ->].
  destruct e as [[]|]; simpl in Hs; simplify_eq; done.
Qed.

(** A streamed answer of Anthropic. The chunks that are sent on carry exactly the
    text of the events, in order, and never a reason for the end. The log has the
    input and output counts of the message; the usage that the client is sent has
    them exchanged: the output is given as the prompt, the input as the completion. *)
Theorem anthropic_stream s evs :
  String.concat "" (chunk_text <$> (run_stream s evs).2) = String.concat "" (event_text <$> evs) ∧
  Forall (λ c, Forall (λ ch, cs_finish_reason ch = None) (sr_choices c)) (run_stream s evs).2 ∧
  ∀ pre m mid d out, evs = pre ++ Ok (Anthropic.MessageStart m) :: mid ++ [Ok (Anthropic.EMessageDelta d out)] →
    Forall (λ e, is_start e = false) mid →
    Anthropic.log_input_tokens (run_stream s evs).1 = Some (Anthropic.input_tokens (Anthropic.r_usage m)) ∧
    Anthropic.log_output_tokens (run_stream s evs).1 = Some out ∧
    ∃ c, last (run_stream s evs).2 = Some c ∧
      sr_usage c = Some {| prompt_tokens := as_i32 out;
                           completion_tokens := as_i32 (Anthropic.input_tokens (Anthropic.r_usage m));
                           total_tokens := as_i32 (Anthropic.add_usize
                             (Anthropic.input_tokens (Anthropic.r_usage m)) out) |}.
Proof.
  split_and!.
  - revert s. induction evs as [|e evs IH]; intros s; [done|]. cbn [run_stream].
    destruct (Anthropic.stream_event s e) as [s1 c] eqn:Hs. specialize (IH s1).
    destruct (run_stream s1 evs) as [s2 cs]. simpl in IH. cbn [snd].
    rewrite fmap_cons, concat_empty_cons, <-IH.
    destruct e as [[]|]; simpl in Hs; simplify_eq; try done; cbn [option_list app].
    all: change (option_list (Some ?x) ++ cs) with (x :: cs); by rewrite fmap_cons, concat_empty_cons.
  - revert s. induction evs as [|e evs IH]; intros s; [done|]. cbn [run_stream].
    destruct (Anthropic.stream_event s e) as [s1 c] eqn:Hs. specialize (IH s1).
    destruct (run_stream s1 evs) as [s2 cs]. simpl in IH. cbn [snd].
    destruct e as [[]|]; simpl in Hs; simplify_eq; simpl; repeat constructor; done.
  - intros pre m mid d out -> Hmid. rewrite run_stream_app.
    destruct (run_stream s pre) as [s1 cs1]. cbn [run_stream Anthropic.stream_event].
    set (s2 := {| Anthropic.message_id := _ |}). rewrite run_stream_app.
    pose proof (run_stream_keeps s2 mid Hmid) as [Hst Hlog].
    destruct (run_stream s2 mid) as [s3 cs3]. simpl in Hst, Hlog. cbn. rewrite Hlog. cbn.
    split_and!; [done|done|]. eexists. split.
    + rewrite app_assoc. apply last_snoc.
    + cbn. rewrite Hst. done.
Qed.

Module LlmExample.
Definition start : Anthropic.MessagesResponse :=
  {| Anthropic.r_id := "m"; Anthropic.r_type := "message"; Anthropic.r_role := Anthropic.Assistant;
     Anthropic.r_content := [Anthropic.TextBlock "hi"]; Anthropic.r_model := "claude";
     Anthropic.r_stop_reason := Some Anthropic.EndTurn;
     Anthropic.r_stop_sequence := None;
     Anthropic.r_usage := {| Anthropic.input_tokens := 7; Anthropic.output_tokens := 1 |} |}.

Definition events : list (result Anthropic.MessagesStreamEvent ()) :=
  [] ++ Ok (Anthropic.MessageStart start) :: [Ok (Anthropic.ContentBlockDelta 0 "hi"); Err ()] ++
  [Ok (Anthropic.EMessageDelta {| Anthropic.d_stop_reason := None; Anthropic.d_stop_sequence := None |} 30)].

Lemma anthropic_stream_witness : ∃ c,
  last (run_stream (Anthropic.initial_stream 0) events).2 = Some c ∧
  sr_usage c = Some {| prompt_tokens := 30; completion_tokens := 7; total_tokens := 37 |}.
Proof.
  destruct (anthropic_stream (Anthropic.initial_stream 0) events) as (_ & _ & H).
  destruct (H [] start [Ok (Anthropic.ContentBlockDelta 0 "hi"); Err ()] _ 30%Z eq_refl) as (_ & _ & c & Hc & Hu);
    [repeat constructor|]. exists c. split; [exact Hc|exact Hu].
Defined.

Lemma anthropic_usage_witness :
  prompt_tokens (cr_usage (Anthropic.translate_response 0 start)) = 7%Z.
Proof. apply (anthropic_usage 0 start); vm_compute; congruence. Defined.

Lemma bedrock_anthropic_agree_witness : ∃ cr, cr_choices cr = cr_choices (Anthropic.translate_response 0 start).
Proof.
  destruct (proj2 (bedrock_anthropic_agree
    {| cc_model := ""; cc_messages := []; cc_temperature := None; cc_top_p := None; cc_n := None;
       cc_response_format := None; cc_stream := None; cc_stream_options := None; cc_stop := None;
       cc_max_tokens := None; cc_presence_penalty := None; cc_frequency_penalty := None;
       cc_logit_bias := None; cc_user := None; cc_seed := None; cc_tools := None;
       cc_parallel_tool_calls := None; cc_tool_choice := None |})
    0%Z 0%N "model" start Anthropic.EndTurn None eq_refl) as (cr & _ & H). exists cr. exact H.
Defined.
End LlmExample.
