(* ===== verification/LlmGuard.v ===== *)
(** LlmGuard: prompt guards ([llm/policy.rs]) and the recognizers of personal data
    behind the built-in rules ([llm/pii/]).

    Regular expressions and phone numbers are the business of libraries: a compiled
    expression is the list of its matches, and whether a text is a valid phone
    number of a region is a parameter. *)
From S2P Require Import Prelude Strs Json Http DiscoveryTypes AgentTypes LlmTypes Cel.

(** * Slices of texts *)

(** A position inside a multi-byte character is not a boundary: the byte there
    continues the character. *)
Definition is_continuation (a : ascii) : bool := bool_decide (128 ≤ Str.byte a < 192)%N.

Definition is_char_boundary (s : string) (i : nat) : bool :=
  match String.get i s with
  | Some a => negb (is_continuation a)
  | None => bool_decide (i = Str.len s)
  end.

(** [&s[a..b]] *)
Definition slice (s : string) (a b : nat) : comp string :=
  if bool_decide (a ≤ b) && bool_decide (b ≤ Str.len s) && is_char_boundary s a && is_char_boundary s b
  then Ret (String.substring a (b - a) s) else Panic.

(** [s.replace_range(a..b, r)] *)
Definition replace_range (s : string) (a b : nat) (r : string) : comp string :=
  if bool_decide (a ≤ b) && bool_decide (b ≤ Str.len s) && is_char_boundary s a && is_char_boundary s b
  then Ret (String.substring 0 a s +:+ r +:+ String.substring b (Str.len s - b) s) else Panic.

(** * Recognizers *)

Record RecognizerResult := {
  entity_type : string;
  matched : string;
  r_start : nat;
  r_end : nat
}.

(** [Pattern]: the expression's text and [captures_iter], the bounds of all its
    matches; the score plays no role. *)
Record Pattern := { p_name : string; p_regex : string; p_matches : string → list (nat * nat) }.

Record PatternRecognizer := { pr_patterns : list Pattern; pr_entity_type : string }.

Definition PatternRecognizer_new (ty : string) : PatternRecognizer :=
  {| pr_patterns := []; pr_entity_type := ty |}.

Section recognizers.
(** [Regex::new(..).unwrap()] on the expressions of the program. *)
Context (compile : string → string → list (nat * nat)).

Definition add_pattern (self : PatternRecognizer) (name regex : string) : PatternRecognizer :=
  {| pr_patterns := pr_patterns self ++ [{| p_name := name; p_regex := regex; p_matches := compile regex |}];
     pr_entity_type := pr_entity_type self |}.

Definition pattern_recognize (self : PatternRecognizer) (text : string) : list RecognizerResult :=
  p ← pr_patterns self;
  (λ '(a, b), {| entity_type := pr_entity_type self; matched := String.substring a (b - a) text;
                 r_start := a; r_end := b |}) <$> p_matches p text.

Definition SSN_recognizer : PatternRecognizer :=
  foldl (λ r '(n, p), add_pattern r n p) (PatternRecognizer_new "SSN")
    [("SSN1 (very weak)", "\b([0-9]{5})-([0-9]{4})\b");
     ("SSN2 (very weak)", "\b([0-9]{3})-([0-9]{6})\b");
     ("SSN3 (very weak)", "\b(([0-9]{3})-([0-9]{2})-([0-9]{4}))\b");
     ("SSN4 (very weak)", "\b[0-9]{9}\b");
     ("SSN5 (medium)", "\b([0-9]{3})[- .]([0-9]{2})[- .]([0-9]{4})\b")].

Definition CC_recognizer : PatternRecognizer :=
  foldl (λ r '(n, p), add_pattern r n p) (PatternRecognizer_new "URL")
    [("visa", "\b4\d{3}[- ]?(\d{3,4})[- ]?(\d{3,4})[- ]?(\d{3,5})\b");
     ("mastercard", "\b5[0-5]\d{2}[- ]?(\d{3,4})[- ]?(\d{3,4})[- ]?(\d{3,5})\b");
     ("discover", "\b6\d{3}[- ]?(\d{3,4})[- ]?(\d{3,4})[- ]?(\d{3,5})\b");
     ("amex", "\b3\d{3}[- ]?(\d{3,4})[- ]?(\d{3,4})[- ]?(\d{3,5})\b");
     ("diners", "\b1\d{3}[- ]?(\d{3,4})[- ]?(\d{3,4})[- ]?(\d{4,5})\b")].

Definition EMAIL_recognizer : PatternRecognizer :=
  add_pattern (PatternRecognizer_new "EMAIL_ADDRESS") "Standard Email"
    "[a-zA-Z0-9_.+-]+@[a-zA-Z0-9-]+\.[a-zA-Z0-9-.]+".

(** [phonenumber::parse] and [is_valid], for a region. *)
Context (phone_valid : string → string → bool).

Definition regions : list string := ["US"; "GB"; "DE"; "IL"; "IN"; "CA"; "BR"].

(** The windows that are tried: 7 to 20 bytes from every position. *)
Definition windows (len : nat) : list (nat * nat) :=
  start ← seq 0 len;
  (λ e, (start, e)) <$> seq (start + 7) (S (min len (start + 20)) - (start + 7)).

Definition try_window (text region : string) (results : list RecognizerResult) (w : nat * nat)
    : comp (list RecognizerResult) :=
  candidate ← slice text w.1 w.2;
  Ret (if phone_valid region candidate
       then results ++ [{| entity_type := "PHONE_NUMBER"; matched := candidate; r_start := w.1; r_end := w.2 |}]
       else results).

(** [sort_by_key] and [dedup_by_key] on the spans. *)
Definition span_le (a b : RecognizerResult) : Prop :=
  r_start a < r_start b ∨ r_start a = r_start b ∧ r_end a ≤ r_end b.
#[global] Instance span_le_dec : RelDecision span_le.
Proof. intros a b. unfold span_le. apply _. Defined.

Fixpoint dedup_spans (l : list RecognizerResult) : list RecognizerResult :=
  match l with
  | [] => []
  | x :: l =>
    match dedup_spans l with
    | y :: l' => if decide (r_start x = r_start y ∧ r_end x = r_end y) then x :: l' else x :: y :: l'
    | [] => [x]
    end
  end.

Definition phone_recognize (text : string) : comp (list RecognizerResult) :=
  results ← foldM (λ acc region, foldM (try_window text region) (windows (Str.len text)) acc) regions [];
  Ret (dedup_spans (merge_sort span_le results)).

Definition builtin_recognize (b : Builtin) (text : string) : comp (list RecognizerResult) :=
  match b with
  | Ssn => Ret (pattern_recognize SSN_recognizer text)
  | CreditCard => Ret (pattern_recognize CC_recognizer text)
  | PhoneNumber => phone_recognize text
  | Email => Ret (pattern_recognize EMAIL_recognizer text)
  end.

(** [pii::recognizer]: the results are not returned. *)
Definition recognizer (b : Builtin) (text : string) : comp () := _ ← builtin_recognize b text; Ret ().

(** * The guard *)

Section guard.
Context `{!HeaderMapOps}.

Definition guard_response (r : PromptGuardResponse) : Response :=
  {| resp_status := pgr_status r; resp_headers := hdr_new; resp_body := pgr_body r |}.

Definition with_content (m : ChatCompletionMessage) (c : Content) : ChatCompletionMessage :=
  {| m_role := m_role m; m_content := c; m_name := m_name m; m_tool_calls := m_tool_calls m;
     m_tool_call_id := m_tool_call_id m |}.

(** The loop over the rules for one message: [content] is its text before any
    rule. [inr] is a rejection. *)
Fixpoint guard_rules (action : Action) (content : string) (rules : list RegexRule)
    (msg : ChatCompletionMessage) : comp (ChatCompletionMessage + Response) :=
  match rules with
  | [] => Ret (inl msg)
  | RRBuiltin b :: rules => _ ← recognizer b content; guard_rules action content rules msg
  | RRRegex pattern name :: rules =>
    match regex_find pattern content with
    | None => guard_rules action content rules msg
    | Some (a, b) =>
      match action with
      | Reject response => Ret (inr (guard_response response))
      | Mask =>
        new_content ← replace_range content a b ("<" +:+ name +:+ ">");
        guard_rules action content rules (with_content msg (Text new_content))
      end
    end
  end.

(** The messages, and the rejection that ended the loop. *)
Fixpoint guard_messages (rgx : option RegexRules) (msgs : list ChatCompletionMessage)
    : comp (list ChatCompletionMessage * option Response) :=
  match msgs with
  | [] => Ret ([], None)
  | msg :: msgs =>
    content ← must_as_text (m_content msg);
    r ← match rgx with
        | Some rgx => guard_rules (rr_action rgx) content (rr_rules rgx) msg
        | None => Ret (inl msg)
        end;
    match r with
    | inr resp => Ret (msg :: msgs, Some resp)
    | inl msg => '(msgs, resp) ← guard_messages rgx msgs; Ret (msg :: msgs, resp)
    end
  end.

(** ** The webhook *)

Inductive MaskActionBody := PromptMessages (l : list SimpleMessage) | ResponseChoices (l : list SimpleMessage).
Inductive RequestAction := RMask (body : MaskActionBody) | RReject (body : string) (status_code : Z) | RPass.

Definition role_name (r : MessageRole) : string :=
  match r with
  | user => "user" | system => "system" | assistant => "assistant" | function => "function" | tool => "tool"
  end.

Definition role_of (s : string) : MessageRole :=
  if Str.eqb s "user" then user
  else if Str.eqb s "system" then system
  else if Str.eqb s "assistant" then assistant
  else if Str.eqb s "function" then function
  else if Str.eqb s "tool" then tool
  else user.

(** The messages that are sent to the webhook. *)
Fixpoint webhook_messages (msgs : list ChatCompletionMessage) : comp (list SimpleMessage) :=
  match msgs with
  | [] => Ret []
  | m :: msgs =>
    c ← must_as_text (m_content m); l ← webhook_messages msgs;
    Ret ({| Cel.role := role_name (m_role m); Cel.content := c |} :: l)
  end.

Definition masked_message (r : SimpleMessage) : ChatCompletionMessage :=
  {| m_role := role_of (Cel.role r); m_content := Text (Cel.content r); m_name := None;
     m_tool_calls := None; m_tool_call_id := None |}.

(** The answer of the webhook, or an error. *)
Context (send_request : Target → HeaderMap → list SimpleMessage → result RequestAction string).

Definition valid_status (code : Z) : bool := bool_decide (100 ≤ code < 1000)%Z.

Definition apply_webhook (w : Webhook) (http_headers : HeaderMap) (req : ChatCompletionRequest)
    : comp (result (ChatCompletionRequest * option Response) string) :=
  l ← webhook_messages (cc_messages req);
  Ret (let? action := send_request (webhook_target w) http_headers l in
       match action with
       | RMask (PromptMessages msgs) => Ok (with_messages req (masked_message <$> msgs), None)
       | RMask (ResponseChoices _) => Err "invalid webhook response"
       | RReject body status_code =>
         if valid_status status_code
         then Ok (req, Some {| resp_status := status_code; resp_headers := hdr_new; resp_body := body |})
         else Err "invalid status code"
       | RPass => Ok (req, None)
       end).

Definition guard_apply (self : LlmPolicy) (req : ChatCompletionRequest) (http_headers : HeaderMap)
    : comp (result (ChatCompletionRequest * option Response) string) :=
  match prompt_guard self ≫= pg_request with
  | None => Ret (Ok (req, None))
  | Some g =>
    r ← match pg_webhook g with
        | Some webhook => apply_webhook webhook http_headers req
        | None => Ret (Ok (req, None))
        end;
    match r with
    | Err e => Ret (Err e)
    | Ok (req, Some resp) => Ret (Ok (req, Some resp))
    | Ok (req, None) =>
      '(msgs, resp) ← guard_messages (pg_regex g) (cc_messages req);
      Ret (Ok (with_messages req msgs, resp))
    end
  end.
End guard.
End recognizers.

(** * Theorems *)

(** ** Phone numbers *)

Lemma foldM_Panic {A S} (f : S → A → comp S) l x s :
  x ∈ l → (∀ s, f s x = Panic) → foldM f l s = Panic.
Proof.
  intros (l1 & l2 & ->)%list_elem_of_split Hf. revert s.
  induction l1 as [|y l1 IH]; intros s; simpl; [by rewrite Hf|]. destruct (f s y); [apply IH|done].
Qed.

Lemma foldM_total {A S} (f : S → A → comp S) l s :
  (∀ s x, x ∈ l → ∃ s', f s x = Ret s') → ∃ s', foldM f l s = Ret s'.
Proof.
  intros Hf. destruct (foldM_inv f (λ _ _, True) l s) as (s' & Hs & _); [done| |eauto].
  intros d x s0 Hx _. destruct (Hf s0 x Hx) as [s' Hs']. eauto.
Qed.

Lemma elem_of_windows len a b : (a, b) ∈ windows len ↔ a + 7 ≤ b ∧ b ≤ len ∧ b ≤ a + 20.
Proof.
  unfold windows. rewrite list_elem_of_bind. setoid_rewrite list_elem_of_fmap.
  setoid_rewrite list_elem_of_In. setoid_rewrite in_seq. split.
  - intros (start & (e & [= <- <-] & He) & Hs). lia.
  - intros Hw. exists a. split; [exists b; split; [done|lia]|lia].
Qed.

(** The phone number rule on a text with characters of several bytes. The
    recognizer cuts the text at every byte; on a text that is long enough to be cut
    inside a character it panics, and it never panics when no character has more
    than one byte. *)
Theorem phone_recognizer_panics phone_valid text :
  (∀ i, is_char_boundary text i = false → i < Str.len text → 7 ≤ i ∨ i + 7 ≤ Str.len text →
     phone_recognize phone_valid text = Panic) ∧
  ((∀ i, i ≤ Str.len text → is_char_boundary text i = true) → ∃ l, phone_recognize phone_valid text = Ret l).
Proof.
  split.
  - intros i Hi Hlt Hcut. unfold phone_recognize.
    assert (∃ w, w ∈ windows (Str.len text) ∧ (w.1 = i ∨ w.2 = i)) as (w & Hw & Hwi).
    { destruct Hcut; [exists (i - 7, i)|exists (i, i + 7)]; (split; [apply elem_of_windows|simpl]; [lia|auto]). }
    rewrite (foldM_Panic _ _ "US"); [done|set_solver|]. intros acc.
    apply (foldM_Panic _ _ w); [done|]. intros s. unfold try_window, slice.
    by destruct Hwi as [-> | ->]; rewrite Hi, andb_false_r.
  - intros Hall. unfold phone_recognize.
    destruct (foldM_total (λ acc region, foldM (try_window phone_valid text region)
      (windows (Str.len text)) acc) regions []) as [l ->]; [|by eexists].
    intros acc region _. apply foldM_total. intros s [a b] Hw%elem_of_windows.
    unfold try_window, slice. cbn [fst snd]. rewrite !bool_decide_true by lia. cbn [andb].
    rewrite !Hall by lia. by eexists.
Qed.

(** ** Rules *)

Section guard_facts.
Context (compile : string → string → list (nat * nat)) (phone_valid : string → string → bool).
Context `{!HeaderMapOps}.
Local Abbreviation guard := (guard_rules compile phone_valid).

(** Whether one of the rules' own expressions matches. *)
Definition rule_matches (content : string) (r : RegexRule) : bool :=
  match r with
  | RRBuiltin _ => false
  | RRRegex pattern _ => match regex_find pattern content with Some _ => true | None => false end
  end.

(** The recognizers return on a text. *)
Definition recognizers_return (content : string) : Prop :=
  ∃ l, phone_recognize phone_valid content = Ret l.

Lemma recognizer_returns b content :
  recognizers_return content → recognizer compile phone_valid b content = Ret ().
Proof. intros [l Hl]. unfold recognizer. destruct b; simpl; try done. by rewrite Hl. Qed.

Lemma guard_rules_reject response content rules msg :
  recognizers_return content →
  guard (Reject response) content rules msg =
    Ret (if existsb (rule_matches content) rules then inr (guard_response response) else inl msg).
Proof.
  intros Hr. induction rules as [|[b|pattern name] rules IH]; simpl; [done| |].
  - rewrite recognizer_returns by done. simpl. apply IH.
  - destruct (regex_find pattern content) as [[a b]|]; simpl; [done|apply IH].
Qed.

(** A guard that rejects. It refuses a prompt, with the configured answer,
    exactly when an expression of the configuration matches the text of a message;
    otherwise the prompt is left as it is. The built-in rules (social security
    numbers, credit cards, phone numbers, addresses) never refuse anything. *)
Theorem guard_reject_exact response rules (msgs : list (ChatCompletionMessage * string)) rgx :
  rr_action rgx = Reject response → rr_rules rgx = rules →
  Forall (λ m, m_content m.1 = Text m.2 ∧ recognizers_return m.2) msgs →
  ∃ msgs', guard_messages compile phone_valid (Some rgx) msgs.*1 =
    Ret (msgs', if existsb (λ m, existsb (rule_matches m.2) rules) msgs
                then Some (guard_response response) else None) ∧
    msgs' = msgs.*1.
Proof.
  intros Ha Hrules Hmsgs. induction Hmsgs as [|[m t] msgs [Hm Hr] _ (msgs' & IH & ->)]; [by eexists|].
  eexists. split; [|done]. csimpl. simpl in Hm, Hr. rewrite Hm. cbn [must_as_text]. rewrite comp_bind_ret_l.
  rewrite Ha, Hrules, guard_rules_reject by done.
  destruct (existsb (rule_matches t) rules); simpl; [done|]. by rewrite IH.
Qed.

(** The last rule that matches, and the text it makes. *)
Definition rule_span (content : string) (r : RegexRule) : option (nat * nat * string) :=
  match r with
  | RRRegex pattern name => '(a, b) ← regex_find pattern content; Some (a, b, name)
  | RRBuiltin _ => None
  end.

Definition last_match (content : string) (rules : list RegexRule) : option (nat * nat * string) :=
  last (omap (rule_span content) rules).

Definition masked (content cur : string) (m : option (nat * nat * string)) : string :=
  match m with
  | None => cur
  | Some (a, b, name) =>
    String.substring 0 a content +:+ ("<" +:+ name +:+ ">") +:+
    String.substring b (Str.len content - b) content
  end.

(** The matches of an expression are spans of the text. *)
Definition find_spans (content : string) (rules : list RegexRule) : Prop :=
  ∀ pattern name a b, RRRegex pattern name ∈ rules → regex_find pattern content = Some (a, b) →
    a ≤ b ≤ Str.len content ∧ is_char_boundary content a = true ∧ is_char_boundary content b = true.

Lemma replace_range_ok content a b r :
  a ≤ b ≤ Str.len content → is_char_boundary content a = true → is_char_boundary content b = true →
  replace_range content a b r =
    Ret (String.substring 0 a content +:+ r +:+ String.substring b (Str.len content - b) content).
Proof. intros [Ha Hb] Ha' Hb'. unfold replace_range. by rewrite !bool_decide_true, Ha', Hb' by done. Qed.

(** A guard that masks. Every rule is applied to the original text, and only the
    last rule that matches has an effect: its first match is replaced by the rule's
    name in the original text, so that what the rules before it had masked is sent
    to the provider after all. The built-in rules mask nothing. *)
Theorem guard_mask_last content rules msg :
  recognizers_return content → find_spans content rules → m_content msg = Text content →
  guard Mask content rules msg =
    Ret (inl (with_content msg (Text (masked content content (last_match content rules))))).
Proof.
  intros Hr Hspans Hmsg. unfold last_match.
  cut (∀ cur, guard Mask content rules (with_content msg (Text cur)) =
    Ret (inl (with_content msg (Text (masked content cur (last (omap (rule_span content) rules))))))).
  { intros Hcut. specialize (Hcut content). rewrite <-Hmsg in Hcut. rewrite <-Hcut. by destruct msg. }
  clear Hmsg. induction rules as [|rule rules IH]; intros cur; [done|].
  assert (find_spans content rules) as Hsp by (intros p n a b Hin Hf; apply (Hspans p n); [by right|done]).
  specialize (IH Hsp). destruct rule as [b|pattern name].
  - cbn [guard_rules]. rewrite recognizer_returns by done. apply IH.
  - cbn [guard_rules]. csimpl. destruct (regex_find pattern content) as [[a b]|] eqn:Hf; [|by apply IH].
    destruct (Hspans pattern name a b) as (Hab & Ha & Hb); [set_solver|done|].
    rewrite replace_range_ok by done. rewrite comp_bind_ret_l. cbn [mbind option_bind].
    rewrite last_cons. etrans; [apply IH|]. by destruct (last _) as [[[??]?]|].
Qed.
End guard_facts.

(** ** Examples *)

Module GuardExample.
#[local] Existing Instance gmap_headers.

(** An expression that matches one fixed span. *)
Definition at_ (a b : nat) : Regex := {| regex_str := ""; regex_find := λ _, Some (a, b) |}.

Definition message (s : string) : ChatCompletionMessage :=
  {| m_role := user; m_content := Text s; m_name := None; m_tool_calls := None; m_tool_call_id := None |}.

Definition compile (_ _ : string) : list (nat * nat) := [].
Definition phones (_ _ : string) : bool := false.

(** A bullet of three bytes and seven letters. *)
Definition wide : string :=
  String (ascii_of_nat 226) (String (ascii_of_nat 128) (String (ascii_of_nat 162) "message")).

Lemma phone_recognizer_panics_witness : phone_recognize phones wide = Panic.
Proof.
  refine (proj1 (phone_recognizer_panics phones wide) 1 _ _ _).
  - vm_compute. reflexivity.
  - vm_compute. lia.
  - right. vm_compute. lia.
Defined.

Lemma plain_returns : recognizers_return phones "call 5550100".
Proof. eexists. vm_compute. reflexivity. Qed.

(** Two rules match: the first one's text is sent unmasked. *)
Definition rules : list RegexRule := [RRBuiltin PhoneNumber; RRRegex (at_ 0 4) "VERB"; RRRegex (at_ 5 12) "PHONE"].

Lemma guard_mask_last_witness :
  guard_rules compile phones Mask "call 5550100" rules (message "call 5550100") =
    Ret (inl (message "call <PHONE>")).
Proof.
  rewrite (guard_mask_last compile phones "call 5550100" rules (message "call 5550100")).
  - reflexivity.
  - exact plain_returns.
  - intros pattern name a b Hin Hf. unfold rules in Hin.
    apply elem_of_cons in Hin as [Hin|Hin]; [discriminate|].
    apply elem_of_cons in Hin as [Hin|Hin].
    + injection Hin as -> ->. injection Hf as <- <-. vm_compute. repeat split; lia.
    + apply elem_of_cons in Hin as [Hin|Hin]; [|by apply elem_of_nil in Hin].
      injection Hin as -> ->. injection Hf as <- <-. vm_compute. repeat split; lia.
  - reflexivity.
Defined.

Definition rejecting : RegexRules :=
  {| rr_response := {| pgr_body := ""; pgr_status := 403 |};
     rr_action := Reject {| pgr_body := "no"; pgr_status := 400 |}; rr_rules := [RRBuiltin PhoneNumber] |}.

(** A phone number passes the built-in rule. *)
Lemma guard_reject_exact_witness : ∃ msgs',
  guard_messages compile phones (Some rejecting) [message "call 5550100"] = Ret (msgs', None) ∧
  msgs' = [message "call 5550100"].
Proof.
  apply (guard_reject_exact compile phones {| pgr_body := "no"; pgr_status := 400 |} [RRBuiltin PhoneNumber]
    [(message "call 5550100", "call 5550100")] rejecting eq_refl eq_refl).
  repeat constructor. exact plain_returns.
Defined.
End GuardExample.
