(* ===== verification/Replay.v ===== *)
(** Replay: the request body that can be sent again ([http/retry/body.rs]).

    All clones of a [ReplayBody] share one cell; the clone that is polled takes
    the state out of the cell and puts it back when it is dropped.  The model
    keeps the cell and the clones apart ([Sys]), with a step per operation
    (clone, poll, drop), so that ownership is explicit.  The inner body is the
    list of the answers it will give to successive polls; the end of the list is
    the end of the stream.  [T] is the type of trailers, [E] of the inner body's
    errors. *)
From S2P Require Import Prelude Strs.

Module ReplayBody.
Section replay_body.
Context {T E : Type}.

(** [http_body::Frame] has these two kinds. *)
Inductive Frame := FData (data : string) | FTrailers (t : T).

Inductive Inner := IPending | IFrame (f : Frame) | IError (e : E).

Inductive Error := InnerError (e : E) | Capped.

Inductive Poll := Pending | Ready (r : option (result Frame Error)).

(** ** State *)

Record BodyState := mkState {
  replay : list string;
  replay_idx : nat;
  trailers : option T;
  rest : list Inner;
  is_completed : bool;
  max_bytes : nat
}.

(** [replay_body] and [replay_trailers] tell whether the clone still has to
    replay; [state] is set while it owns the state. *)
Record t := mk {
  state : option BodyState;
  replay_body : bool;
  replay_trailers : bool
}.

Definition remaining (bufs : list string) : nat := sum_list_with Str.len bufs.
Definition has_remaining (bufs : list string) : bool :=
  existsb (λ b, negb (Str.is_empty b)) bufs.

Definition state_is_capped (s : BodyState) : bool := bool_decide (max_bytes s = 0).

(** [saturating_sub] on [usize] is the subtraction of [nat]. *)
Definition record_bytes (s : BodyState) (data : string) : BodyState :=
  let s := mkState (replay s) (replay_idx s) (trailers s) (rest s) (is_completed s)
             (max_bytes s - Str.len data) in
  if state_is_capped s then
    if has_remaining (replay s)
    then mkState [] (replay_idx s) (trailers s) (rest s) (is_completed s) (max_bytes s)
    else s
  else mkState (replay s ++ [data]) (replay_idx s) (trailers s) (rest s) (is_completed s) (max_bytes s).

(** [try_new], given the lower bound of the inner body's size hint. *)
Definition try_new (body : list Inner) (size_hint_lower max_bytes : nat) : option t :=
  if decide (max_bytes < size_hint_lower) then None
  else Some (mk (Some (mkState [] 0 None body false (max_bytes + 1))) false false).

(** ** Operations *)

(** The state and what is left in the shared cell; a panic when another clone
    owns the state. *)
Definition acquire_state (self : t) (shared : option BodyState)
    : comp (BodyState * option BodyState) :=
  match state self with
  | Some s => Ret (s, shared)
  | None => s ← expect shared; Ret (s, None)
  end.

Definition is_capped (self : t) (shared : option BodyState) : option bool :=
  match state_is_capped <$> state self with
  | Some b => Some b
  | None => state_is_capped <$> shared
  end.

Definition set_rest (s : BodyState) (r : list Inner) : BodyState :=
  mkState (replay s) (replay_idx s) (trailers s) r (is_completed s) (max_bytes s).
Definition set_replay_idx (s : BodyState) (n : nat) : BodyState :=
  mkState (replay s) n (trailers s) (rest s) (is_completed s) (max_bytes s).
Definition complete (s : BodyState) (tr : option T) : BodyState :=
  mkState (replay s) (replay_idx s) tr (rest s) true (max_bytes s).

(** Polling the inner body, once everything buffered has been replayed. *)
Definition poll_rest (s : BodyState) : BodyState * Poll :=
  if is_completed s then (s, Ready None)
  else match rest s with
       | [] => (complete s (trailers s), Ready None)
       | IPending :: r => (set_rest s r, Pending)
       | IError e :: r => (set_rest s r, Ready (Some (Err (InnerError e))))
       | IFrame (FData data) :: r =>
         (record_bytes (set_rest s r) data, Ready (Some (Ok (FData data))))
       | IFrame (FTrailers tr) :: r =>
         (complete (set_rest s r) (Some tr), Ready (Some (Ok (FTrailers tr))))
       end.

(** The trailers, if they are to be replayed and are there, then the inner body. *)
Definition poll_after_buffer (s : BodyState) (replay_trailers : bool) : BodyState * Poll :=
  match (if replay_trailers then trailers s else None) with
  | Some tr => (s, Ready (Some (Ok (FTrailers tr))))
  | None => poll_rest s
  end.

Definition poll_frame (self : t) (shared : option BodyState)
    : comp (t * option BodyState * Poll) :=
  '(s, shared) ← acquire_state self shared;
  let after_buffer :=
    let '(s, p) := poll_after_buffer s (replay_trailers self) in
    (mk (Some s) false false, shared, p) in
  Ret (if replay_body self then
         match replay s !! replay_idx s with
         | Some frame =>
           (mk (Some (set_replay_idx s (replay_idx s + 1))) true (replay_trailers self), shared,
            Ready (Some (Ok (FData frame))))
         | None =>
           if state_is_capped s
           then (mk (Some s) false (replay_trailers self), shared, Ready (Some (Err Capped)))
           else after_buffer
         end
       else after_buffer).

Definition clone (self : t) : t := mk None true true.

(** What the shared cell holds after the drop. *)
Definition drop (self : t) (shared : option BodyState) : option BodyState :=
  match state self with
  | Some s => Some (set_replay_idx s 0)
  | None => shared
  end.

(** ** The clones of one body *)

(** A clone with what it has delivered, whether it reported [Capped] and whether
    it reported the end. *)
Record Clone := mkClone {
  body : t;
  out : list Frame;
  failed : bool;
  ended : bool
}.

Definition observe (c : Clone) (b : t) (p : Poll) : Clone :=
  match p with
  | Ready (Some (Ok f)) => mkClone b (out c ++ [f]) (failed c) (ended c)
  | Ready (Some (Err Capped)) => mkClone b (out c) true (ended c)
  | Ready (Some (Err (InnerError _))) => mkClone b (out c) (failed c) (ended c)
  | Ready None => mkClone b (out c) (failed c) true
  | Pending => mkClone b (out c) (failed c) (ended c)
  end.

Record Sys := mkSys { shared : option BodyState; clones : gmap nat Clone }.

Inductive step : Sys → Sys → Prop :=
| StepClone s i j c :
    clones s !! i = Some c → clones s !! j = None →
    step s (mkSys (shared s) (<[j := mkClone (clone (body c)) [] false false]> (clones s)))
| StepDrop s i c :
    clones s !! i = Some c →
    step s (mkSys (drop (body c) (shared s)) (delete i (clones s)))
| StepPoll s i c b sh p :
    clones s !! i = Some c → poll_frame (body c) (shared s) = Ret (b, sh, p) →
    step s (mkSys sh (<[i := observe c b p]> (clones s))).

(** The first body, alone. *)
Definition initial (b : t) : Sys := mkSys None {[0 := mkClone b [] false false]}.

(** ** Specification *)

(** The frames of the inner body: up to the trailers, if there are any. *)
Fixpoint frames (l : list Inner) : list Frame :=
  match l with
  | [] => []
  | IFrame (FData d) :: l => FData d :: frames l
  | IFrame (FTrailers t) :: _ => [FTrailers t]
  | _ :: l => frames l
  end.

Definition to_come (s : BodyState) : list Frame :=
  if is_completed s then [] else frames (rest s).

(** The chunks read so far, and the buffer in relation to them. *)
Record state_ok (orig : list Frame) (max : nat) (s : BodyState) (read : list string) : Prop := {
  ok_frames : orig = (FData <$> read) ++ (FTrailers <$> option_list (trailers s)) ++ to_come s;
  ok_trailers : is_Some (trailers s) → is_completed s = true;
  ok_prefix : replay s `prefix_of` read;
  ok_bytes : max_bytes s = max + 1 - remaining read;
  ok_replay : max_bytes s ≠ 0 → replay s = read
}.

(** A clone that owns the state: it is replaying the buffer or has read as far
    as anyone. *)
Definition clone_ok (s : BodyState) (read : list string) (c : Clone) : Prop :=
  (failed c = false →
   (replay_body (body c) = true ∧ replay_trailers (body c) = true ∧ ended c = false ∧
      replay_idx s ≤ length (replay s) ∧ out c = FData <$> take (replay_idx s) (replay s)) ∨
   (replay_body (body c) = false ∧ replay_trailers (body c) = false ∧
      out c = (FData <$> read) ++ (FTrailers <$> option_list (trailers s)) ∧
      (ended c = true → is_completed s = true))).

Definition fresh (c : Clone) : Prop :=
  body c = mk None true true ∧ out c = [] ∧ failed c = false ∧ ended c = false.

(** The state is in the cell, or with exactly one clone; all others are fresh. *)
Inductive sys_ok (orig : list Frame) (max : nat) (s : Sys) : Prop :=
| OkShared st read :
    shared s = Some st → state_ok orig max st read → replay_idx st = 0 →
    (∀ j c, clones s !! j = Some c → fresh c) → sys_ok orig max s
| OkOwned st read i c :
    shared s = None → state_ok orig max st read → clones s !! i = Some c →
    state (body c) = Some st → clone_ok st read c →
    (∀ j c', clones s !! j = Some c' → j ≠ i → fresh c') → sys_ok orig max s.

(** ** Facts *)

(** What has been read, as frames. *)
Definition consumed (s : BodyState) (read : list string) : list Frame :=
  (FData <$> read) ++ (FTrailers <$> option_list (trailers s)).

Lemma remaining_snoc l x : remaining (l ++ [x]) = remaining l + Str.len x.
Proof. unfold remaining. rewrite sum_list_with_app. simpl. lia. Qed.

Lemma record_bytes_ok orig max s read data r :
  state_ok orig max s read → is_completed s = false → rest s = IFrame (FData data) :: r →
  state_ok orig max (record_bytes (set_rest s r) data) (read ++ [data]).
Proof.
  intros [Hf Ht Hp Hb Hr] Hc Hrest.
  assert (trailers s = None) as Htr.
  { destruct (trailers s); [|done]. by rewrite Ht in Hc by eauto. }
  assert (orig = (FData <$> read ++ [data]) ++ frames r) as Hf'.
  { rewrite Hf, Htr. unfold to_come. rewrite Hc, Hrest, fmap_app, <-(assoc_L (++)). done. }
  assert (max_bytes s - Str.len data = max + 1 - remaining (read ++ [data])) as Hb'.
  { rewrite Hb, remaining_snoc. lia. }
  unfold record_bytes, state_is_capped. simpl. case_bool_decide as Hcap; [destruct (has_remaining _)|];
    split; simpl; unfold to_come; simpl; rewrite ?Htr, ?Hc; simpl; try done; try by intros [].
  - apply prefix_nil.
  - by apply prefix_app_r.
  - assert (replay s = read) as -> by (apply Hr; lia). done.
  - intros _. f_equal. apply Hr. lia.
Qed.

Lemma state_ok_rest orig max s read x r :
  state_ok orig max s read → rest s = x :: r → frames (x :: r) = frames r →
  state_ok orig max (set_rest s r) read.
Proof.
  intros [Hf Ht Hp Hb Hr] Hrest Hx. split; try done. rewrite Hf. unfold to_come. simpl.
  by rewrite Hrest, Hx.
Qed.

Lemma state_ok_complete orig max s read tr :
  state_ok orig max s read → to_come s = FTrailers <$> option_list tr → trailers s = None →
  state_ok orig max (complete s tr) read.
Proof.
  intros [Hf Ht Hp Hb Hr] Hcome Htr. split; try done. rewrite Hf, Htr, Hcome. simpl.
  by rewrite app_nil_r.
Qed.

Lemma state_ok_idx orig max s read n :
  state_ok orig max s read → state_ok orig max (set_replay_idx s n) read.
Proof. by intros [Hf Ht Hp Hb Hr]. Qed.

(** A poll of the inner body delivers the next frame that has not been read. *)
Lemma poll_rest_ok orig max s read s' p :
  state_ok orig max s read → poll_rest s = (s', p) →
  ∃ read', state_ok orig max s' read' ∧ (is_completed s = true → is_completed s' = true) ∧
    match p with
    | Ready (Some (Ok f)) => consumed s' read' = consumed s read ++ [f]
    | Ready (Some (Err Capped)) => False
    | Ready None => consumed s' read' = consumed s read ∧ is_completed s' = true
    | _ => consumed s' read' = consumed s read
    end.
Proof.
  intros Hok. unfold poll_rest.
  destruct (is_completed s) eqn:Hc; [intros [= <- <-]; by exists read|].
  assert (trailers s = None) as Htr.
  { destruct (trailers s) eqn:Etr; [|done]. by rewrite (ok_trailers _ _ _ _ Hok) in Hc by eauto. }
  assert (to_come s = frames (rest s)) as Hcome by (unfold to_come; by rewrite Hc).
  destruct (rest s) as [|[|[data|tr]|e] r] eqn:Hrest; intros [= <- <-].
  - exists read. split_and!; [|done| |done].
    + apply state_ok_complete; [done|by rewrite Hcome, Htr|done].
    + unfold consumed. simpl. by rewrite Htr.
  - exists read. split; [by eapply state_ok_rest|done].
  - exists (read ++ [data]). split; [by apply record_bytes_ok|]. split; [done|].
    assert (trailers (record_bytes (set_rest s r) data) = None) as Htr'.
    { unfold record_bytes. by repeat case_match. }
    unfold consumed. rewrite Htr, Htr', fmap_app. simpl. by rewrite !app_nil_r.
  - exists read. split; [|split; [done|unfold consumed; simpl; by rewrite Htr, app_nil_r]].
    assert (state_ok orig max (complete s (Some tr)) read) as [Hf Ht Hp Hb Hr]
      by (apply state_ok_complete; done).
    by split.
  - exists read. split; [by eapply state_ok_rest|done].
Qed.

(** The part of [poll_frame] after the buffer. *)
Lemma observe_rest orig max s read s' p c :
  state_ok orig max s read → poll_rest s = (s', p) →
  (failed c = false → out c = consumed s read ∧ (ended c = true → is_completed s = true)) →
  ∃ read', state_ok orig max s' read' ∧
    clone_ok s' read' (observe c (mk (Some s') false false) p).
Proof.
  intros Hok Hp Hc. destruct (poll_rest_ok _ _ _ _ _ _ Hok Hp) as (read' & Hok' & Hcomp & Hout).
  exists read'. split; [done|]. unfold clone_ok, consumed in *.
  destruct p as [|[[f|[e|]]|]]; simpl in *; naive_solver congruence.
Qed.

Lemma observe_after_buffer orig max s read rt s' p c :
  state_ok orig max s read → poll_after_buffer s rt = (s', p) →
  (failed c = false → if rt : bool then out c = FData <$> read ∧ ended c = false
                      else out c = consumed s read ∧ (ended c = true → is_completed s = true)) →
  ∃ read', state_ok orig max s' read' ∧
    clone_ok s' read' (observe c (mk (Some s') false false) p).
Proof.
  intros Hok. unfold poll_after_buffer. destruct rt; [|by apply observe_rest].
  destruct (trailers s) as [tr|] eqn:Htr.
  - intros [= <- <-] Hc. exists read. split; [done|]. intros Hf. right. simpl.
    destruct (Hc Hf) as [-> Hend]. rewrite Htr. naive_solver congruence.
  - intros Hp Hc. eapply observe_rest; [done..|]. intros Hf. destruct (Hc Hf) as [-> Hend].
    unfold consumed. rewrite Htr. simpl. rewrite app_nil_r. naive_solver congruence.
Qed.

(** A poll by the owner keeps the state and the clone consistent. *)
Lemma poll_owner orig max s read c sh b sh' p :
  state_ok orig max s read → clone_ok s read c → state (body c) = Some s →
  poll_frame (body c) sh = Ret (b, sh', p) →
  sh' = sh ∧ ∃ s' read', state b = Some s' ∧ state_ok orig max s' read' ∧
    clone_ok s' read' (observe c b p).
Proof.
  intros Hok Hc Hs. unfold poll_frame, acquire_state. rewrite Hs, comp_bind_ret_l. intros [= Hp].
  destruct (poll_after_buffer s (replay_trailers (body c))) as [s1 p1] eqn:Hafter.
  pose proof (observe_after_buffer _ _ _ _ _ _ _ c Hok Hafter) as Hobs.
  destruct (replay_body (body c)) eqn:Hrb; [destruct (replay s !! replay_idx s) as [d|] eqn:Hd|].
  - injection Hp as <- <- <-. split; [done|]. eexists _, read. split_and!; [done|by apply state_ok_idx|].
    intros Hf. left. destruct (Hc Hf) as [(_ & Hrt & Hend & Hidx & Hout)|(? & _)]; [|congruence].
    simpl. rewrite Hout, Nat.add_1_r, (take_S_r _ _ _ Hd), fmap_app.
    apply lookup_lt_Some in Hd. naive_solver lia.
  - destruct (state_is_capped s) eqn:Hcap.
    + injection Hp as <- <- <-. split; [done|]. by exists s, read.
    + injection Hp as <- <- <-. split; [done|]. destruct Hobs as (read' & ? & ?); [|by exists s1, read'].
      intros Hf. destruct (Hc Hf) as [(_ & -> & Hend & Hidx & Hout)|(? & _)]; [|congruence].
      split; [|done]. apply lookup_ge_None in Hd. apply bool_decide_eq_false in Hcap.
      by rewrite Hout, take_ge, (ok_replay _ _ _ _ Hok Hcap) by done.
  - injection Hp as <- <- <-. split; [done|]. destruct Hobs as (read' & ? & ?); [|by exists s1, read'].
    intros Hf. destruct (Hc Hf) as [(? & _)|(_ & -> & Hout & Hend)]; [congruence|done].
Qed.

(** A fresh clone that finds the state in the cell becomes its owner. *)
Lemma fresh_clone_ok s read c : fresh c → replay_idx s = 0 → clone_ok s read c.
Proof. intros (Hb & Ho & Hf & He) Hi _. left. rewrite Hb, Hi. simpl. naive_solver lia. Qed.

Lemma poll_fresh c st :
  fresh c → poll_frame (body c) (Some st) = poll_frame (mk (Some st) true true) None.
Proof. intros (-> & _). done. Qed.

Lemma poll_first orig max st read c b sh' p :
  state_ok orig max st read → fresh c → replay_idx st = 0 →
  poll_frame (body c) (Some st) = Ret (b, sh', p) →
  sh' = None ∧ ∃ s' read', state b = Some s' ∧ state_ok orig max s' read' ∧
    clone_ok s' read' (observe c b p).
Proof.
  intros Hok Hfresh Hidx. rewrite (poll_fresh _ _ Hfresh).
  destruct Hfresh as (_ & Hout & Hf & He).
  set (c' := mkClone (mk (Some st) true true) [] false false).
  assert (observe c b p = observe c' b p) as ->.
  { unfold observe. rewrite Hout, Hf, He. done. }
  intros Hp. apply (poll_owner _ _ st read c'); [done| |done|done].
  intros _. left. simpl. rewrite Hidx. naive_solver lia.
Qed.

Lemma initial_ok inner hint max b :
  try_new inner hint max = Some b → sys_ok (frames inner) max (initial b).
Proof.
  unfold try_new. case_decide; [done|]. intros [= <-].
  eapply (OkOwned _ _ _ _ [] 0 _); [done| |by apply lookup_singleton_eq|done| |].
  - split; simpl; try done. lia.
  - intros _. right. done.
  - simpl. intros j c' [<- _]%lookup_singleton_Some ?. done.
Qed.

Lemma step_ok orig max s s' : step s s' → sys_ok orig max s → sys_ok orig max s'.
Proof.
  intros [s1 i j c Hi Hj|s1 i c Hi|s1 i c b sh p Hi Hp]
    [st read Hsh Hst Hidx Hall|st read o co Hsh Hst Ho Hso Hco Hall].
  - eapply OkShared; [done..|]. simpl. intros k c' [[<- <-]|[_ Hk]]%lookup_insert_Some; [done|eauto].
  - eapply OkOwned; [done|done| |done|done|]; simpl.
    + rewrite lookup_insert_ne; [exact Ho|]. intros ->. by rewrite Ho in Hj.
    + intros k c' [[<- <-]|[_ Hk]]%lookup_insert_Some ?; [done|eauto].
  - destruct (Hall _ _ Hi) as (Hb & _). eapply OkShared; [by rewrite Hb; simpl|done..|]. simpl.
    intros k c' [_ Hk]%lookup_delete_Some. eauto.
  - destruct (decide (i = o)) as [->|Hne].
    + assert (c = co) as -> by congruence.
      eapply (OkShared _ _ _ (set_replay_idx st 0) read); simpl.
      * unfold drop. by rewrite Hso.
      * by apply state_ok_idx.
      * done.
      * intros k c' [? Hk]%lookup_delete_Some. eauto.
    + destruct (Hall _ _ Hi Hne) as (Hb & _).
      eapply OkOwned; [by rewrite Hb; simpl|done| |done|done|]; simpl.
      * by rewrite lookup_delete_ne.
      * intros k c' [_ Hk]%lookup_delete_Some ?. eauto.
  - rewrite Hsh in Hp.
    destruct (poll_first _ _ _ _ _ _ _ _ Hst (Hall _ _ Hi) Hidx Hp) as (-> & s2 & read' & Hb & Hst' & Hc').
    eapply (OkOwned _ _ _ s2 read' i); [done|done|by apply lookup_insert_eq| |done|]; simpl.
    + destruct p as [|[[f|[e|]]|]]; done.
    + intros k c' Hk ?. rewrite lookup_insert_ne in Hk by done. eauto.
  - destruct (decide (i = o)) as [->|Hne].
    + assert (c = co) as -> by congruence. rewrite Hsh in Hp.
      destruct (poll_owner _ _ _ _ _ _ _ _ _ Hst Hco Hso Hp) as (-> & s2 & read' & Hb & Hst' & Hc').
      eapply (OkOwned _ _ _ s2 read' o); [done|done|by apply lookup_insert_eq| |done|]; simpl.
      * destruct p as [|[[f|[e|]]|]]; done.
      * intros k c' Hk ?. rewrite lookup_insert_ne in Hk by done. eauto.
    + destruct (Hall _ _ Hi Hne) as (Hb & _). rewrite Hb, Hsh in Hp. done.
Qed.

Lemma reachable_ok inner hint max b s :
  try_new inner hint max = Some b → rtc step (initial b) s → sys_ok (frames inner) max s.
Proof.
  intros Hb%initial_ok Hr. induction Hr as [|s1 s2 s3 Hs _ IH]; [done|]. eauto using step_ok.
Qed.

(** ** Draining a clone *)

(** [n] polls of a clone. *)
Fixpoint poll_many (n : nat) (c : Clone) (sh : option BodyState) : comp (Clone * option BodyState) :=
  match n with
  | O => Ret (c, sh)
  | S n => '(b, sh, p) ← poll_frame (body c) sh; poll_many n (observe c b p) sh
  end.

(** What is left to poll. *)
Definition left_to_poll (s : BodyState) (rb : bool) : nat :=
  (if rb then length (replay s) - replay_idx s + 1 else 0) +
  (if is_completed s then 0 else length (rest s) + 1).

Lemma record_bytes_rest s data :
  rest (record_bytes s data) = rest s ∧ is_completed (record_bytes s data) = is_completed s.
Proof. unfold record_bytes. by repeat case_match. Qed.

Lemma poll_rest_progress s s' p :
  poll_rest s = (s', p) →
  p = Ready None ∨ p ≠ Ready (Some (Err Capped)) ∧ left_to_poll s' false < left_to_poll s false.
Proof.
  unfold poll_rest, left_to_poll. destruct (is_completed s) eqn:Hc; [intros [= <- <-]; by left|].
  destruct (rest s) as [|[|[data|tr]|e] r] eqn:Hrest; intros [= <- <-]; [by left|right; split; [done|]..].
  - simpl. rewrite Hc. lia.
  - destruct (record_bytes_rest (set_rest s r) data) as [-> ->]. simpl. rewrite Hc. lia.
  - simpl. lia.
  - simpl. rewrite Hc. lia.
Qed.

(** An owner that can still replay what it has to. *)
Definition can_replay (c : t) : Prop :=
  ∃ s, state c = Some s ∧ (replay_body c = true → state_is_capped s = false) ∧
    (replay_trailers c = true → replay_body c = true).

Definition left_of (c : t) : nat :=
  match state c with Some s => left_to_poll s (replay_body c) | None => 0 end.

(** A poll of such an owner makes progress. *)
Lemma poll_progress b sh :
  can_replay b → ∃ b' p, poll_frame b sh = Ret (b', sh, p) ∧ can_replay b' ∧
    (p = Ready None ∨ p ≠ Ready (Some (Err Capped)) ∧ left_of b' < left_of b).
Proof.
  destruct b as [st rb rt]. intros (s & Hs & Hcap & Hrt). simpl in *. subst st.
  unfold poll_frame, acquire_state. simpl.
  assert (∀ s, left_to_poll s true > left_to_poll s false) as Hleft.
  { intros s0. unfold left_to_poll. lia. }
  assert (∃ s' p, poll_after_buffer s rt = (s', p) ∧
    (p = Ready None ∨ p ≠ Ready (Some (Err Capped)) ∧ left_to_poll s' false < left_to_poll s rb))
    as (s' & p & Hafter & Hprog).
  { unfold poll_after_buffer. destruct (if rt then trailers s else None) eqn:Etr.
    - eexists _, _. split; [done|]. right. split; [done|]. destruct rt; [|done].
      rewrite Hrt by done. apply Hleft.
    - destruct (poll_rest s) as [s' p] eqn:Hp. eexists _, _. split; [done|].
      apply poll_rest_progress in Hp as [->|[? Hlt]]; [by left|right]. split; [done|].
      specialize (Hleft s). destruct rb; lia. }
  rewrite Hafter. unfold left_of. destruct rb; [destruct (replay s !! replay_idx s) as [d|] eqn:Hd|].
  - eexists _, _. split; [done|]. split; [eexists; split; [done|by simpl; eauto]|]. right.
    split; [done|]. simpl. apply lookup_lt_Some in Hd. unfold left_to_poll. simpl. lia.
  - rewrite Hcap by done. eexists _, _. split; [done|]. split; [by eexists|done].
  - eexists _, _. split; [done|]. split; [by eexists|done].
Qed.

Lemma poll_many_ends orig max c s read sh :
  state_ok orig max s read → clone_ok s read c → state (body c) = Some s →
  can_replay (body c) → failed c = false →
  ∃ n c', poll_many n c sh = Ret (c', sh) ∧ ended c' = true ∧ failed c' = false ∧ out c' = orig.
Proof.
  remember (left_of (body c)) as m eqn:Hm. revert c s read Hm.
  induction (lt_wf m) as [m _ IH]. intros c s read -> Hok Hc Hs Hcan Hf.
  destruct (poll_progress (body c) sh Hcan) as (b & p & Hp & Hcan' & Hprog).
  destruct (poll_owner _ _ _ _ _ _ _ _ _ Hok Hc Hs Hp) as (_ & s' & read' & Hs' & Hok' & Hc').
  destruct Hprog as [->|[Hne Hlt]].
  - exists 1, (observe c b (Ready None)). simpl. rewrite Hp. simpl. split_and!; [done..|].
    destruct (Hc' Hf) as [(_ & _ & ? & _)|(_ & _ & Hout & Hcomp)]; [done|]. simpl in *.
    rewrite (ok_frames _ _ _ _ Hok'), Hout. unfold to_come. rewrite Hcomp by done. by rewrite app_nil_r.
  - assert (body (observe c b p) = b ∧ failed (observe c b p) = false) as [Hb Hf'].
    { destruct p as [|[[f|[e|]]|]]; done. }
    destruct (IH _ Hlt (observe c b p) s' read') as (n & c' & Hn & Hrest); rewrite ?Hb; [done..|].
    exists (S n), c'. simpl. rewrite Hp. simpl. done.
Qed.

(** ** Size *)

Definition chunk (f : Frame) : option string := match f with FData d => Some d | FTrailers _ => None end.

(** The bytes of the body. *)
Definition size (l : list Frame) : nat := remaining (omap chunk l).

Lemma read_size orig max s read : state_ok orig max s read → remaining read ≤ size orig.
Proof.
  intros Hok. rewrite (ok_frames _ _ _ _ Hok). unfold size, remaining. rewrite omap_app, sum_list_with_app.
  assert (omap chunk (FData <$> read) = read) as ->; [|lia].
  clear. induction read as [|x l IH]; [done|]. csimpl. by rewrite IH.
Qed.

Lemma state_is_capped_size orig max s read :
  state_ok orig max s read → state_is_capped s = true → max < size orig.
Proof.
  intros Hok Hc%bool_decide_eq_true. pose proof (read_size _ _ _ _ Hok).
  rewrite (ok_bytes _ _ _ _ Hok) in Hc. lia.
Qed.

(** A fresh clone that is not capped can be drained. *)
Lemma fresh_drains orig max s i c :
  sys_ok orig max s → clones s !! i = Some c → state (body c) = None →
  is_capped (body c) (shared s) = Some false →
  ∃ n c' sh, poll_many n c (shared s) = Ret (c', sh) ∧ ended c' = true ∧ failed c' = false ∧
    out c' = orig.
Proof.
  intros Hok Hi Hnone Hcap.
  destruct Hok as [st read Hsh Hst Hidx Hall|st read o co Hsh _ _ _ _ _].
  2:{ unfold is_capped in Hcap. by rewrite Hnone, Hsh in Hcap. }
  destruct (Hall _ _ Hi) as (Hbody & Hout & Hf & He).
  unfold is_capped in Hcap. rewrite Hnone, Hsh in Hcap. simpl in Hcap. injection Hcap as Hcap.
  set (c0 := mkClone (mk (Some st) true true) [] false false).
  destruct (poll_many_ends _ _ c0 st read None Hst) as (n & c' & Hn & Hend & Hfail & Hout'); [|done|..|done|].
  { intros _. left. simpl. rewrite Hidx. naive_solver lia. }
  { exists st. done. }
  exists n, c', None. split_and!; [|done..].
  destruct n as [|n]; cbn [poll_many] in *; [by simplify_eq|].
  rewrite Hsh, (poll_fresh c st); [|done]. revert Hn. change (body c0) with (mk (Some st) true true).
  destruct (poll_frame (mk (Some st) true true) None) as [[[b1 sh1] p1]|]; [|done]. simpl.
  assert (observe c b1 p1 = observe c0 b1 p1) as ->; [|done].
  unfold observe. by rewrite Hout, Hf, He.
Qed.
End replay_body.
End ReplayBody.

(** * Theorems *)

Import ReplayBody.

(** C8: whatever the clones of a body do (being cloned, polled, dropped, in any
    order), a clone that was not told that the buffer is gone has delivered a
    prefix of the frames of the inner body, data and trailers in their order,
    and all of them when it reports the end. *)
Theorem replay_prefix {T E} (inner : list (@Inner T E)) hint max b s i c :
  try_new inner hint max = Some b → rtc step (initial b) s →
  clones s !! i = Some c → failed c = false →
  out c `prefix_of` frames inner ∧ (ended c = true → out c = frames inner).
Proof.
  intros Hb Hr Hi Hf.
  destruct (reachable_ok _ _ _ _ _ Hb Hr) as [st read _ _ _ Hall|st read o co _ Hst Ho _ Hco Hall].
  { destruct (Hall _ _ Hi) as (_ & -> & _ & He). split; [apply prefix_nil|congruence]. }
  destruct (decide (i = o)) as [->|Hne].
  2:{ destruct (Hall _ _ Hi Hne) as (_ & -> & _ & He). split; [apply prefix_nil|congruence]. }
  assert (c = co) as -> by congruence. rewrite (ok_frames _ _ _ _ Hst).
  destruct (Hco Hf) as [(_ & _ & He & _ & ->)|(_ & _ & -> & He)].
  - split; [|congruence]. apply prefix_app_r. 
    destruct (ok_prefix _ _ _ _ Hst) as [k ->]. rewrite <-(take_drop (replay_idx st) (replay st)) at 2.
    rewrite !fmap_app, <-(assoc_L (++)). by apply prefix_app_r.
  - split; [by rewrite (assoc_L (++)); apply prefix_app_r|]. intros Hend. unfold to_come.
    rewrite He by done. by rewrite app_nil_r.
Qed.

(** The retry is possible. A clone that has not been polled and reports that
    the body is not capped delivers, when it is polled often enough, every frame
    of the inner body and then the end. *)
Theorem replay_available {T E} (inner : list (@Inner T E)) hint max b s i c :
  try_new inner hint max = Some b → rtc step (initial b) s →
  clones s !! i = Some c → state (body c) = None → is_capped (body c) (shared s) = Some false →
  ∃ n c' sh, poll_many n c (shared s) = Ret (c', sh) ∧ ended c' = true ∧ failed c' = false ∧
    out c' = frames inner.
Proof. intros Hb Hr. eapply fresh_drains. by eapply reachable_ok. Qed.

(** Ownership. Polling a clone panics exactly when another clone has been
    polled and not dropped, which is when its [is_capped] tells [None]; and a body
    of at most [max] bytes is never discarded. *)
Theorem replay_ownership {T E} (inner : list (@Inner T E)) hint max b s i c :
  try_new inner hint max = Some b → rtc step (initial b) s → clones s !! i = Some c →
  (is_capped (body c) (shared s) = None ↔
     ∃ j c', j ≠ i ∧ clones s !! j = Some c' ∧ is_Some (state (body c'))) ∧
  (poll_frame (body c) (shared s) = Panic ↔ is_capped (body c) (shared s) = None) ∧
  (size (frames inner) ≤ max → is_capped (body c) (shared s) ≠ Some true).
Proof.
  intros Hb Hr Hi. pose proof (reachable_ok _ _ _ _ _ Hb Hr) as Hok.
  assert (poll_frame (body c) (shared s) = Panic ↔ is_capped (body c) (shared s) = None) as Hpoll.
  { unfold poll_frame, acquire_state, is_capped. by destruct (state (body c)), (shared s). }
  unfold is_capped in *.
  destruct Hok as [st read Hsh Hst _ Hall|st read o co Hsh Hst Ho Hso _ Hall].
  - destruct (Hall _ _ Hi) as (Hbody & _). rewrite Hsh, Hbody in *. simpl in *. split_and!; [|done|].
    + split; [done|]. intros (j & c' & _ & Hj & [? Hs]). destruct (Hall _ _ Hj) as (Hb' & _).
      by rewrite Hb' in Hs.
    + intros Hsize [= Hcap%(state_is_capped_size _ _ _ _ Hst)]. lia.
  - rewrite Hsh in *. destruct (decide (i = o)) as [->|Hne].
    + assert (c = co) as -> by congruence. rewrite Hso in *. simpl in *. split_and!; [|done|].
      * split; [done|]. intros (j & c' & Hji & Hj & [? Hs]). destruct (Hall _ _ Hj Hji) as (Hb' & _).
        by rewrite Hb' in Hs.
      * intros Hsize [= Hcap%(state_is_capped_size _ _ _ _ Hst)]. lia.
    + destruct (Hall _ _ Hi Hne) as (Hbody & _). rewrite Hbody in *. simpl in *.
      split_and!; [|done|done]. split; [|done]. intros _. exists o, co. by rewrite Hso.
Qed.

(** ** An example *)

Module ReplayExample.
Inductive op := OpClone (i j : nat) | OpPoll (i : nat) | OpDrop (i : nat).

Definition apply_op {T E} (s : @Sys T E) (o : op) : option Sys :=
  match o with
  | OpClone i j =>
    c ← clones s !! i;
    if decide (clones s !! j = None)
    then Some (mkSys (shared s) (<[j := mkClone (clone (body c)) [] false false]> (clones s)))
    else None
  | OpPoll i =>
    c ← clones s !! i;
    match poll_frame (body c) (shared s) with
    | Ret (b, sh, p) => Some (mkSys sh (<[i := observe c b p]> (clones s)))
    | Panic => None
    end
  | OpDrop i =>
    c ← clones s !! i;
    Some (mkSys (drop (body c) (shared s)) (delete i (clones s)))
  end.

Lemma apply_op_step {T E} (s s' : @Sys T E) o : apply_op s o = Some s' → step s s'.
Proof.
  destruct o as [i j|i|i]; simpl; destruct (clones s !! i) as [c|] eqn:Hi; simpl; try done.
  - case_decide; [|done]. intros [= <-]. by eapply StepClone.
  - destruct (poll_frame _ _) as [[[b sh] p]|] eqn:Hp; [|done]. intros [= <-]. by eapply StepPoll.
  - intros [= <-]. by eapply StepDrop.
Qed.

Lemma apply_ops_steps {T E} (os : list op) (s s' : @Sys T E) :
  foldl (λ s o, s ≫= λ s, apply_op s o) (Some s) os = Some s' → rtc step s s'.
Proof.
  revert s. induction os as [|o os IH]; intros s; simpl; [by intros [= ->]|].
  destruct (apply_op s o) as [s1|] eqn:Ho.
  - intros H%IH. eapply rtc_l; [by eapply apply_op_step|done].
  - intros H. exfalso. revert H. clear. induction os; [done|]. simpl. done.
Qed.

Definition inner : list (@Inner nat ()) :=
  [IFrame (FData "ab"); IPending; IFrame (FData "cd"); IFrame (FTrailers 7)].

(** The first body is cloned, polled once and dropped; the clone is polled. *)
Definition ops (n : nat) : list op := [OpClone 0 1; OpPoll 0; OpDrop 0] ++ replicate n (OpPoll 1).

Definition first : @ReplayBody.t nat () := default (mk None true true) (try_new inner 0 10).
Definition after (n : nat) : @Sys nat () :=
  default (initial first)
    (foldl (λ s o, s ≫= λ s, apply_op s o) (Some (initial first)) (ops n)).
Definition retry (n : nat) : @Clone nat () :=
  default (mkClone first [] false false) (clones (after n) !! 1).
End ReplayExample.

Lemma replay_prefix_witness : out (ReplayExample.retry 5) = frames ReplayExample.inner.
Proof.
  refine (proj2 (replay_prefix ReplayExample.inner 0 10 ReplayExample.first (ReplayExample.after 5) 1
    (ReplayExample.retry 5) _ _ _ _) _); [reflexivity| |reflexivity..].
  apply (ReplayExample.apply_ops_steps (ReplayExample.ops 5)). reflexivity.
Defined.

Lemma replay_available_witness :
  ∃ n c' sh, poll_many n (ReplayExample.retry 0) (shared (ReplayExample.after 0)) = Ret (c', sh) ∧
    ended c' = true ∧ failed c' = false ∧ out c' = frames ReplayExample.inner.
Proof.
  refine (replay_available ReplayExample.inner 0 10 ReplayExample.first (ReplayExample.after 0) 1
    (ReplayExample.retry 0) _ _ _ _ _); [reflexivity| |reflexivity..].
  apply (ReplayExample.apply_ops_steps (ReplayExample.ops 0)). reflexivity.
Defined.

Lemma replay_ownership_witness :
  is_capped (body (ReplayExample.retry 1)) (shared (ReplayExample.after 1)) ≠ Some true.
Proof.
  apply (replay_ownership ReplayExample.inner 0 10 ReplayExample.first (ReplayExample.after 1) 1
    (ReplayExample.retry 1)); [reflexivity| |reflexivity|vm_compute; lia].
  apply (ReplayExample.apply_ops_steps (ReplayExample.ops 1)). reflexivity.
Defined.
