(* ===== verification/RateLimit.v ===== *)
(** RateLimit: the token bucket of [http/localratelimit.rs], with 64-bit
    arithmetic that wraps around as in a release build.

    [refill], [try_wait_n] and [amend_tokens] are first given as the functions
    they compute when they run alone; the clock is the list of the readings that
    [Instant::now] returns, so a loop that reads the clock once per turn runs on
    that list.  The second part splits them at their atomic operations into a step
    relation between concurrent threads. *)
From S2P Require Import Prelude AgentTypes.
#[local] Open Scope Z_scope.

Module Ratelimiter.

(** ** State *)

Inductive Error := AvailableTokensTooHigh | MaxTokensTooLow | RefillAmountTooHigh | RefillIntervalTooLong.

(** Times and durations are nanoseconds. *)
Record Parameters := mkParameters { capacity : Z; refill_amount : Z; refill_interval : Z }.

Record t := mk {
  available : Z;
  dropped : Z;
  parameters : Parameters;
  refill_at : Z
}.

Definition next_refill (s : t) : Z := refill_at s.
Definition max_tokens (s : t) : Z := capacity (parameters s).

Definition set_available (s : t) (a : Z) : t := mk a (dropped s) (parameters s) (refill_at s).

(** ** Operations *)

Definition amend_tokens (s : t) (tokens_to_remove : Z) : t :=
  if decide (tokens_to_remove = 0) then s
  else set_available s
    (if decide (tokens_to_remove < 0)
     then saturating_add64 (available s) (Z.abs tokens_to_remove)
     else saturating_sub64 (available s) (Z.abs tokens_to_remove)).

(** [Err d]: the next refill is due in [d]. The division panics for a zero
    interval. *)
Definition refill (s : t) (time : Z) : comp (t * result () Z) :=
  let r := next_refill s in
  if decide (time < r) then Ret (s, Err (r - time))
  else
    let p := parameters s in
    if decide (refill_interval p = 0) then Panic
    else
      let intervals := wrap64 ((time - r) / refill_interval p + 1) in
      let next := wrap64 (r + wrap64 (intervals * refill_interval p)) in
      let amount := wrap64 (intervals * refill_amount p) in
      let avail := available s in
      if decide (capacity p ≤ wrap64 (avail + amount)) then
        let to_add := wrap64 (capacity p - avail) in
        Ret (mk (wrap64 (avail + to_add)) (wrap64 (dropped s + wrap64 (amount - to_add))) p next, Ok ())
      else Ret (mk (wrap64 (avail + amount)) (dropped s) p next, Ok ()).

(** One turn of the loop per reading of the clock; [None] when more readings are
    needed. *)
Fixpoint wait_loop (s : t) (n : Z) (now : list Z) : comp (option (t * result () Z)) :=
  match now with
  | [] => Ret None
  | time :: now =>
    '(s, refill_result) ← refill s time;
    if decide (available s < n) then
      match refill_result with
      | Ok _ => wait_loop s n now
      | Err e => Ret (Some (s, Err e))
      end
    else Ret (Some (set_available s (available s - n), Ok ()))
  end.

Definition try_wait_n (s : t) (n : Z) (now : list Z) : comp (option (t * result () Z)) :=
  if decide (n = 0 ∨ capacity (parameters s) < n) then Ret (Some (s, Err 0))
  else wait_loop s n now.

Definition try_wait (s : t) (now : list Z) : comp (option (t * result () Z)) := try_wait_n s 1 now.

(** ** Construction *)

Record Builder := mkBuilder {
  b_initial_available : Z;
  b_max_tokens : Z;
  b_refill_amount : Z;
  b_refill_interval : Z
}.

Definition builder (amount interval : Z) : Builder := mkBuilder 0 1 amount interval.
Definition with_max_tokens (b : Builder) (tokens : Z) : Builder :=
  mkBuilder (b_initial_available b) tokens (b_refill_amount b) (b_refill_interval b).
Definition with_initial_available (b : Builder) (tokens : Z) : Builder :=
  mkBuilder tokens (b_max_tokens b) (b_refill_amount b) (b_refill_interval b).

(** [now] is the reading of the clock. *)
Definition build (b : Builder) (now : Z) : result t Error :=
  if decide (b_max_tokens b < b_refill_amount b) then Err MaxTokensTooLow
  else if decide (u64_max < b_refill_interval b) then Err RefillIntervalTooLong
  else Ok (mk (b_initial_available b) 0
             (mkParameters (b_max_tokens b) (b_refill_amount b) (b_refill_interval b))
             (wrap64 (now + b_refill_interval b))).

End Ratelimiter.

(** ** The configured limiter *)

Record RateLimitSerde := {
  rls_max_tokens : Z;
  rls_tokens_per_fill : Z;
  rls_fill_interval : Z;
  rls_limit_type : RateLimitType
}.

(** The limiter of a [RateLimit], behind the [Arc] its handle names. *)
Definition RateLimit_try_from (value : RateLimitSerde) (now : Z)
    : result (Ratelimiter.t * RateLimitType) Ratelimiter.Error :=
  let? rl := Ratelimiter.build
    (Ratelimiter.with_max_tokens
       (Ratelimiter.with_initial_available
          (Ratelimiter.builder (rls_tokens_per_fill value) (rls_fill_interval value)) (rls_max_tokens value))
       (rls_max_tokens value)) now in
  Ok (rl, rls_limit_type value).

(** The limiter afterwards and whether the request passes; [None] when the clock
    has no more readings. *)
Definition check (s : Ratelimiter.t) (n : Z) (now : list Z) : comp (option (Ratelimiter.t * bool)) :=
  r ← Ratelimiter.try_wait_n s n now;
  Ret (option_map (λ '(s, r), (s, is_ok r)) r).

Definition check_request (s : Ratelimiter.t) (ty : RateLimitType) (now : list Z)
    : comp (option (Ratelimiter.t * bool)) :=
  if decide (ty ≠ Requests) then Ret (Some (s, true)) else check s 1 now.

Definition check_llm_request (s : Ratelimiter.t) (ty : RateLimitType) (input_tokens : Z) (now : list Z)
    : comp (option (Ratelimiter.t * bool)) :=
  if decide (ty ≠ Tokens) then Ret (Some (s, true)) else check s input_tokens now.

(** * Lemmas *)

(** What a check that passes takes from the bucket it found. *)
Lemma wait_loop_takes s n now s' :
  Ratelimiter.wait_loop s n now = Ret (Some (s', Ok ())) →
  ∃ s1, s' = Ratelimiter.set_available s1 (Ratelimiter.available s1 - n) ∧ n ≤ Ratelimiter.available s1.
Proof.
  revert s. induction now as [|t now IH]; intros s; simpl; [done|].
  destruct (Ratelimiter.refill s t) as [[s1 r]|]; [|done]. cbn. case_decide.
  - destruct r; [apply IH|done].
  - intros [= <-]. eexists. split; [done|lia].
Qed.

Lemma check_takes s n now s' :
  check s n now = Ret (Some (s', true)) →
  ∃ s1, s' = Ratelimiter.set_available s1 (Ratelimiter.available s1 - n) ∧ n ≤ Ratelimiter.available s1.
Proof.
  unfold check, Ratelimiter.try_wait_n. case_decide; [by intros [= ]|].
  destruct (Ratelimiter.wait_loop s n now) as [[[s2 r]|]|] eqn:Hw; cbn; [|done|done].
  destruct r as [[]|]; [|done]. intros [= <-]. by eapply wait_loop_takes.
Qed.

(** A limiter refilled at one reading of the clock after another, nothing taken. *)
Definition refilled (s : Ratelimiter.t) (times : list Z) : comp Ratelimiter.t :=
  foldM (λ s time, fst <$> Ratelimiter.refill s time) times s.

(** A wait in terms of the state it starts from: the limiter is refilled at the
    first readings of the clock; what is then there decides. *)
Lemma wait_loop_from s n now s' r :
  Ratelimiter.wait_loop s n now = Ret (Some (s', r)) →
  ∃ times found, times `prefix_of` now ∧ times ≠ [] ∧ refilled s times = Ret found ∧
    match r with
    | Ok _ => n ≤ Ratelimiter.available found ∧
        s' = Ratelimiter.set_available found (Ratelimiter.available found - n)
    | Err _ => Ratelimiter.available found < n ∧ s' = found
    end.
Proof.
  revert s. induction now as [|t now IH]; intros s; simpl; [done|].
  destruct (Ratelimiter.refill s t) as [[s1 r1]|] eqn:Hr; [|done]. cbn [mbind comp_mbind].
  case_decide; [destruct r1 as [u|e]|].
  - intros (times & found & Hp & _ & Hf & Hcase)%IH. exists (t :: times), found. split_and!; [|done| |done].
    + by apply prefix_cons.
    + unfold refilled. cbn [foldM]. by rewrite Hr.
  - intros [= <- <-]. exists [t], s1. split_and!; [by apply prefix_cons, prefix_nil|done| |done..].
    unfold refilled. cbn [foldM]. by rewrite Hr.
  - intros [= <- <-]. exists [t], s1. split_and!; [by apply prefix_cons, prefix_nil|done| |lia|done].
    unfold refilled. cbn [foldM]. by rewrite Hr.
Qed.

Lemma check_request_from s now s' ok :
  check_request s Requests now = Ret (Some (s', ok)) →
  ∃ times found, times `prefix_of` now ∧ refilled s times = Ret found ∧
    if ok then times ≠ [] ∧ 1 ≤ Ratelimiter.available found ∧
      s' = Ratelimiter.set_available found (Ratelimiter.available found - 1)
    else (Ratelimiter.available found < 1 ∨ Ratelimiter.max_tokens s < 1) ∧ s' = found.
Proof.
  unfold check_request, check, Ratelimiter.try_wait_n. rewrite decide_False by tauto. case_decide.
  - intros [= <- <-]. exists [], s. split_and!; [apply prefix_nil|done|right; unfold Ratelimiter.max_tokens; lia|done].
  - destruct (Ratelimiter.wait_loop s 1 now) as [[[s2 r]|]|] eqn:Hw; cbn; [|done|done]. intros [= <- <-].
    destruct (wait_loop_from _ _ _ _ _ Hw) as (times & found & Hp & Hne & Hf & Hcase).
    exists times, found. split_and!; [done|done|]. destruct r; naive_solver.
Qed.

Lemma check_llm_takes s n now s' :
  check_llm_request s Tokens n now = Ret (Some (s', true)) →
  ∃ s1, s' = Ratelimiter.set_available s1 (Ratelimiter.available s1 - n) ∧ n ≤ Ratelimiter.available s1.
Proof. unfold check_llm_request. rewrite decide_False by tauto. apply check_takes. Qed.

Module RatelimiterFacts.
Import Ratelimiter.

Record params_ok (p : Parameters) : Prop := {
  ok_amount : 0 ≤ refill_amount p ≤ capacity p;
  ok_interval : 0 < refill_interval p
}.

(** No computation of a refill up to time [T] leaves 64 bits. *)
Record fits (p : Parameters) (T : Z) : Prop := {
  fits_time : 0 ≤ T ∧ T + refill_interval p < 2 ^ 64;
  fits_amount : (T / refill_interval p + 1) * refill_amount p + capacity p < 2 ^ 64
}.

Record inv (s : t) : Prop := {
  inv_params : params_ok (parameters s);
  inv_available : 0 ≤ available s ≤ capacity (parameters s);
  inv_refill_at : 0 ≤ refill_at s
}.

Lemma wrap64_small z : 0 ≤ z < 2 ^ 64 → wrap64 z = z.
Proof. apply Z.mod_small. Qed.

(** The number of intervals a refill at [time] accounts for. *)
Definition intervals (s : t) (time : Z) : Z := (time - refill_at s) / refill_interval (parameters s) + 1.

Lemma intervals_bounds s T time :
  inv s → fits (parameters s) T → refill_at s ≤ time ≤ T →
  let k := intervals s time in let p := parameters s in
  1 ≤ k ∧ 0 ≤ k * refill_interval p ∧ time < refill_at s + k * refill_interval p ≤ time + refill_interval p ∧
  0 ≤ k * refill_amount p ∧ k * refill_amount p + capacity p < 2 ^ 64 ∧ k ≤ k * refill_interval p.
Proof.
  intros [[Ha Hi] Hav Hr] [[HT HT2] HA] Ht k p. unfold k, intervals. fold p in Ha, Hi, HT2, HA |- *.
  assert (0 ≤ (time - refill_at s) / refill_interval p) by (apply Z.div_pos; lia).
  pose proof (Z.mul_div_le (time - refill_at s) (refill_interval p)).
  pose proof (Z.mul_succ_div_gt (time - refill_at s) (refill_interval p)).
  assert ((time - refill_at s) / refill_interval p ≤ T / refill_interval p) by (apply Z.div_le_mono; lia).
  split_and!; nia.
Qed.

Lemma refill_due s T time :
  inv s → fits (parameters s) T → refill_at s ≤ time ≤ T →
  ∃ d, refill s time =
    Ret (mk (Z.min (capacity (parameters s)) (available s + intervals s time * refill_amount (parameters s)))
            d (parameters s) (refill_at s + intervals s time * refill_interval (parameters s)), Ok ()).
Proof.
  intros Hinv Hfits Ht.
  destruct (intervals_bounds s T time Hinv Hfits Ht) as (Hk & Hki & Hn & Hka & Hkc & Hkk).
  destruct Hinv as [[Ha Hi] Hav Hr]. destruct Hfits as [[HT HT2] HA].
  unfold refill, next_refill. rewrite decide_False by lia. rewrite decide_False by lia.
  fold (intervals s time). set (k := intervals s time) in *. set (p := parameters s) in *.
  rewrite (wrap64_small k) by lia. rewrite (wrap64_small (k * refill_interval p)) by lia.
  rewrite (wrap64_small (k * refill_amount p)) by lia.
  rewrite (wrap64_small (available s + _)) by lia.
  rewrite (wrap64_small (refill_at s + _)) by lia.
  destruct (decide (capacity p ≤ available s + k * refill_amount p)).
  - rewrite (wrap64_small (capacity p - available s)) by lia. eexists. do 3 f_equal.
    rewrite wrap64_small by lia. lia.
  - eexists. do 3 f_equal. lia.
Qed.

Lemma refill_early s time : time < refill_at s → refill s time = Ret (s, Err (refill_at s - time)).
Proof. intros. unfold refill, next_refill. by rewrite decide_True. Qed.

(** What a run of the loop may do: it accounts for [k] intervals. *)
Record evolves (s s' : t) (k taken : Z) (T : Z) : Prop := {
  ev_inv : inv s';
  ev_params : parameters s' = parameters s;
  ev_k : 0 ≤ k;
  ev_refill_at : refill_at s' = refill_at s + k * refill_interval (parameters s);
  ev_conserve : available s' + taken ≤ available s + k * refill_amount (parameters s);
  ev_time : k = 0 ∨ refill_at s' ≤ T + refill_interval (parameters s)
}.

Lemma refill_evolves s T time :
  inv s → fits (parameters s) T → time ≤ T →
  ∃ s' r, refill s time = Ret (s', r) ∧
    (∃ k, evolves s s' k 0 T) ∧ available s ≤ available s' ∧
    match r with
    | Err e => time < refill_at s ∧ s' = s ∧ e = refill_at s - time ∧ 0 < e
    | Ok _ => refill_at s ≤ time ∧ time < refill_at s' ∧
        (available s' = capacity (parameters s) ∨
         available s + refill_amount (parameters s) ≤ available s')
    end.
Proof.
  intros Hinv Hfits Ht. destruct (decide (time < refill_at s)).
  - rewrite refill_early by done. eexists _, _. split; [done|]. split_and!; [|lia|done..|lia].
    exists 0. split; [done|done|lia|lia|lia|by left].
  - destruct (refill_due s T time) as [d ->]; [done|done|lia|].
    destruct (intervals_bounds s T time) as (Hk & Hki & Hn & Hka & Hkc & Hkk); [done|done|lia|].
    destruct Hinv as [[Ha Hi] Hav Hr].
    eexists _, _. split; [done|]. cbn [available refill_at parameters]. split_and!.
    + exists (intervals s time). split; cbn [available refill_at parameters]; [|done|lia|lia|lia|right; lia].
      split; cbn [available refill_at parameters]; [by split|lia|lia].
    + lia.
    + lia.
    + lia.
    + nia.
Qed.

Lemma evolves_trans s1 s2 s3 k1 k2 a b T :
  evolves s1 s2 k1 a T → evolves s2 s3 k2 b T → evolves s1 s3 (k1 + k2) (a + b) T.
Proof.
  intros [I1 P1 K1 R1 C1 T1] [I2 P2 K2 R2 C2 T2]. rewrite P1 in *.
  split; [done|congruence|lia|lia|lia|].
  destruct T2 as [->|?]; [|right; lia]. destruct T1 as [->|?]; [left; lia|right; lia].
Qed.

Lemma evolves_take s k n T s0 :
  evolves s0 s k 0 T → 0 ≤ n ≤ available s → evolves s0 (set_available s (available s - n)) k n T.
Proof.
  intros [[[? ?] ? ?] P K R C HT] Hn. split; simpl; [|done|done|done|lia|done].
  split; simpl; [by split|lia|done].
Qed.

Lemma wait_loop_spec s n now T :
  inv s → fits (parameters s) T → 0 < n → Forall (λ t, t ≤ T) now →
  ∃ o, wait_loop s n now = Ret o ∧
    match o with
    | None => available s < n ∨ now = []
    | Some (s', r) => ∃ k, evolves s s' k (if is_ok r then n else 0) T ∧
        (is_ok r = false → available s' < n ∧ available s ≤ available s')
    end.
Proof.
  revert s. induction now as [|time now IH]; intros s Hinv Hfits Hn Hnow; cbn [wait_loop].
  { eexists. split; [done|]. by right. }
  apply Forall_cons in Hnow as [Ht Hnow].
  destruct (refill_evolves s T time Hinv Hfits Ht) as (s1 & r & -> & (k & Hev) & Hav & Hr).
  rewrite comp_bind_ret_l. destruct (decide (available s1 < n)).
  - destruct r as [[]|e].
    + destruct (IH s1) as (o & -> & Ho); [apply Hev|by rewrite (ev_params _ _ _ _ _ Hev)|done|done|].
      exists o. split; [done|]. destruct o as [[s2 r2]|]; [|left; lia].
      destruct Ho as (k2 & Hev2 & Herr). exists (k + k2).
      split; [by apply (evolves_trans _ _ _ _ _ 0 _ _ Hev Hev2)|].
      intros E. destruct (Herr E). lia.
    + eexists. split; [done|]. exists k. split; [done|]. intros _. lia.
  - eexists. split; [done|]. exists k. split; [|done].
    apply (evolves_take s1 k n T s Hev). lia.
Qed.

(** Every turn of the loop that refills without reaching [n] tokens adds at least
    one. *)
Lemma wait_loop_terminates s n now T :
  inv s → fits (parameters s) T → 0 < n ≤ capacity (parameters s) → 1 ≤ refill_amount (parameters s) →
  Forall (λ t, t ≤ T) now → (Z.to_nat (n - available s) < length now)%nat →
  ∃ x, wait_loop s n now = Ret (Some x).
Proof.
  revert s. induction now as [|time now IH]; intros s Hinv Hfits Hn Ha Hnow Hlen; [simpl in Hlen; lia|].
  cbn [wait_loop]. apply Forall_cons in Hnow as [Ht Hnow].
  destruct (refill_evolves s T time Hinv Hfits Ht) as (s1 & r & -> & (k & Hev) & Hav & Hr).
  rewrite comp_bind_ret_l. destruct (decide (available s1 < n)); [|eauto].
  destruct r as [[]|e]; [|eauto]. pose proof (ev_params _ _ _ _ _ Hev) as Hp.
  apply IH; rewrite ?Hp; [apply Hev|done|done|done|done|]. simpl in Hlen. lia.
Qed.
End RatelimiterFacts.

(** * Concurrent requests *)

Module RatelimiterThreads.
Import Ratelimiter.

(** Where a call is between two atomic operations: about to read the clock; about
    to load [refill_at]; to swap it; to load [available] in [refill]; to add to
    [available]; to add to [dropped]; to load [available] for taking tokens; to
    swap it; finished; or about to amend. *)
Inductive pc :=
| PNow (n : Z)
| PLoadRefill (n time : Z)
| PCasRefill (n time r : Z)
| PLoadAvail (n amount : Z)
| PAddAvail (n amount avail : Z)
| PAddDropped (n d : Z)
| PLoadTake (n : Z) (refill_result : result () Z)
| PCasTake (n : Z) (refill_result : result () Z) (avail : Z)
| PDone (r : result () Z)
| PAmend (m : Z).

Definition call_try_wait_n (s : t) (n : Z) : pc :=
  if decide (n = 0 ∨ capacity (parameters s) < n) then PDone (Err 0) else PNow n.

Definition set_refill_at (s : t) (r : Z) : t := mk (available s) (dropped s) (parameters s) r.
Definition add_dropped (s : t) (d : Z) : t :=
  mk (available s) (wrap64 (dropped s + d)) (parameters s) (refill_at s).

(** One atomic operation of a thread; [now] is what the clock shows. [None]: the
    call is over, or the division by a zero interval panics. *)
Definition step (now : Z) (s : t) (c : pc) : option (t * pc) :=
  let p := parameters s in
  match c with
  | PNow n => Some (s, PLoadRefill n now)
  | PLoadRefill n time =>
    let r := next_refill s in
    if decide (time < r) then Some (s, PLoadTake n (Err (r - time)))
    else if decide (refill_interval p = 0) then None
    else Some (s, PCasRefill n time r)
  | PCasRefill n time r =>
    if decide (refill_at s = r) then
      let intervals := wrap64 ((time - r) / refill_interval p + 1) in
      Some (set_refill_at s (wrap64 (r + wrap64 (intervals * refill_interval p))),
            PLoadAvail n (wrap64 (intervals * refill_amount p)))
    else Some (s, PLoadRefill n time)
  | PLoadAvail n amount => Some (s, PAddAvail n amount (available s))
  | PAddAvail n amount avail =>
    if decide (capacity p ≤ wrap64 (avail + amount)) then
      let to_add := wrap64 (capacity p - avail) in
      Some (set_available s (wrap64 (available s + to_add)), PAddDropped n (wrap64 (amount - to_add)))
    else Some (set_available s (wrap64 (available s + amount)), PLoadTake n (Ok ()))
  | PAddDropped n d => Some (add_dropped s d, PLoadTake n (Ok ()))
  | PLoadTake n refill_result =>
    if decide (available s < n) then
      match refill_result with
      | Ok _ => Some (s, PNow n)
      | Err e => Some (s, PDone (Err e))
      end
    else Some (s, PCasTake n refill_result (available s))
  | PCasTake n refill_result avail =>
    if decide (available s = avail) then Some (set_available s (avail - n), PDone (Ok ()))
    else Some (s, PLoadTake n refill_result)
  | PDone _ => None
  | PAmend m => Some (amend_tokens s m, PDone (Ok ()))
  end.

(** All threads, and a schedule: which thread moves, and what the clock shows. *)
Definition system : Type := t * list pc.

Inductive sys_step : system → system → Prop :=
| sys_step_intro s cs i now c s' c' :
    cs !! i = Some c → step now s c = Some (s', c') → sys_step (s, cs) (s', <[i := c']> cs).

Fixpoint run_schedule (sys : system) (schedule : list (nat * Z)) : option system :=
  match schedule with
  | [] => Some sys
  | (i, now) :: schedule =>
    match sys.2 !! i with
    | None => None
    | Some c =>
      match step now sys.1 c with
      | Some (s', c') => run_schedule (s', <[i := c']> sys.2) schedule
      | None => None
      end
    end
  end.

Lemma run_schedule_sound sys schedule sys' :
  run_schedule sys schedule = Some sys' → rtc sys_step sys sys'.
Proof.
  revert sys. induction schedule as [|[i now] l IH]; intros [s cs]; simpl.
  - intros [= ->]. apply rtc_refl.
  - destruct (cs !! i) as [c|] eqn:Hc; [|done].
    destruct (step now s c) as [[s' c']|] eqn:Hs; [|done]. intros H%IH.
    eapply rtc_l; [|done]. by econstructor.
Qed.

(** A thread alone. *)
Lemma solo now s c s' c' : step now s c = Some (s', c') → sys_step (s, [c]) (s', [c']).
Proof. intros. by apply (sys_step_intro s [c] 0 now c s' c'). Qed.

Lemma solo_refill s n time s' r :
  refill s time = Ret (s', r) → rtc sys_step (s, [PNow n]) (s', [PLoadTake n r]).
Proof.
  intros H. eapply rtc_l; [by apply (solo time)|]. unfold refill in H.
  destruct (decide (time < next_refill s)) as [Hlt|Hge].
  { simplify_eq. apply rtc_once, (solo time). simpl. by rewrite decide_True. }
  destruct (decide (refill_interval (parameters s) = 0)) as [|Hi]; [done|].
  eapply rtc_l; [apply (solo time); simpl; rewrite decide_False by done; by rewrite decide_False|].
  eapply rtc_l; [apply (solo time); simpl; by rewrite decide_True|].
  eapply rtc_l; [by apply (solo time)|]. cbn [available set_refill_at] in *.
  destruct (decide (capacity (parameters s) ≤ _)) as [Hc|Hc]; simplify_eq.
  - eapply rtc_l; [apply (solo time); simpl; by rewrite decide_True|].
    apply rtc_once. by apply (solo time).
  - apply rtc_once, (solo time). simpl. by rewrite decide_False.
Qed.

Lemma solo_wait n now s s' r :
  wait_loop s n now = Ret (Some (s', r)) → rtc sys_step (s, [PNow n]) (s', [PDone r]).
Proof.
  revert s. induction now as [|time now IH]; intros s; cbn [wait_loop]; [done|].
  rewrite comp_bind_Ret. intros ([s1 r1] & Hrefill & H).
  etransitivity; [by apply (solo_refill s n time s1 r1)|].
  destruct (decide (available s1 < n)) as [Hlt|Hge].
  - destruct r1 as [[]|e].
    + eapply rtc_l; [apply (solo 0); simpl; by rewrite decide_True|]. by apply IH.
    + simplify_eq. apply rtc_once, (solo 0). simpl. by rewrite decide_True.
  - simplify_eq. eapply rtc_l; [apply (solo 0); simpl; by rewrite decide_False|].
    apply rtc_once, (solo 0). simpl. by rewrite decide_True.
Qed.
End RatelimiterThreads.

(** * Sequences of calls *)




Import Ratelimiter RatelimiterFacts RatelimiterThreads.




(** * Theorems *)

(** A call for [n] tokens, alone, on a consistent limiter and with a clock that
    keeps all quantities in 64 bits, does not panic; it takes all [n] tokens or
    none; the bucket stays within its capacity; the refills it accounts for add at
    most the refill amount per elapsed interval; and it fails only when the
    request is outside the capacity or the bucket holds too few tokens after all
    due refills. *)
Theorem ratelimit_request s n now T :
  inv s → fits (parameters s) T → 0 ≤ n → Forall (λ t, t ≤ T) now →
  ∃ o, try_wait_n s n now = Ret o ∧
    match o with
    | None => 0 < n ≤ capacity (parameters s)
    | Some (s', r) =>
      inv s' ∧ parameters s' = parameters s ∧
      (∃ k, 0 ≤ k ∧ refill_at s' = refill_at s + k * refill_interval (parameters s) ∧
        available s' + (if is_ok r then n else 0) ≤ available s + k * refill_amount (parameters s)) ∧
      match r with
      | Ok _ => 0 < n ≤ capacity (parameters s)
      | Err _ => n = 0 ∨ capacity (parameters s) < n ∨ (available s' < n ∧ available s ≤ available s')
      end
    end.
Proof.
  intros Hinv Hfits Hn Hnow. unfold try_wait_n. case_decide as Hc.
  - eexists. split; [done|]. split_and!; [done|done| |lia]. exists 0. simpl. lia.
  - destruct (wait_loop_spec s n now T) as (o & -> & Ho); [done|done|lia|done|].
    exists o. split; [done|]. destruct o as [[s' r]|]; [|lia]. destruct Ho as (k & [] & Herr).
    split_and!; [done|done|by exists k|]. destruct r; [lia|right; right; by apply Herr].
Qed.

Definition example_limiter : Ratelimiter.t := mk 10 0 (mkParameters 10 2 1000) 1000.

Lemma example_limiter_inv : inv example_limiter.
Proof. split; simpl; [split; simpl; lia|lia|lia]. Qed.

Lemma example_limiter_fits : fits (parameters example_limiter) 1000000.
Proof. split; [split; [lia|reflexivity]|reflexivity]. Qed.

Lemma ratelimit_request_witness : ∃ o, try_wait_n example_limiter 4 [1500] = Ret o.
Proof.
  destruct (ratelimit_request example_limiter 4 [1500] 1000000) as (o & H & _).
  - apply example_limiter_inv.
  - apply example_limiter_fits.
  - lia.
  - repeat constructor; lia.
  - exists o. exact H.
Defined.

(** A call for [n] tokens returns: with a positive refill amount, at most one
    reading of the clock more than the tokens that are missing is needed. *)
Theorem ratelimit_terminates s n now T :
  inv s → fits (parameters s) T → 0 ≤ n → 1 ≤ refill_amount (parameters s) →
  Forall (λ t, t ≤ T) now → (Z.to_nat (n - available s) < length now)%nat →
  ∃ x, try_wait_n s n now = Ret (Some x).
Proof.
  intros. unfold try_wait_n. case_decide; [eauto|].
  eapply wait_loop_terminates; eauto. lia.
Qed.

Lemma ratelimit_terminates_witness : ∃ x, try_wait_n example_limiter 4 [1500] = Ret (Some x).
Proof.
  apply (ratelimit_terminates example_limiter 4 [1500] 1000000).
  - apply example_limiter_inv.
  - apply example_limiter_fits.
  - lia.
  - simpl. lia.
  - repeat constructor; lia.
  - simpl. lia.
Defined.



(** A zero fill interval is accepted by the configuration and by [build], and
    then the first request that finds a refill due panics. *)
Theorem ratelimit_zero_interval value ty now t0 n s :
  rls_fill_interval value = 0 →
  RateLimit_try_from value t0 = Ok (s, ty) →
  0 ≤ t0 < 2 ^ 64 → t0 ≤ now → 0 < n ≤ rls_max_tokens value →
  try_wait_n s n [now] = Panic.
Proof.
  intros Hi Hs Ht Hnow Hn. unfold RateLimit_try_from in Hs. apply and_then_Ok in Hs as (rl & Hrl & Hs).
  simplify_eq. unfold build, with_max_tokens, with_initial_available, builder in Hrl. simpl in Hrl.
  rewrite Hi in Hrl. repeat case_decide; simplify_eq. unfold try_wait_n. simpl.
  rewrite decide_False by lia. unfold refill, next_refill. simpl. rewrite Z.add_0_r, wrap64_small by done.
  rewrite decide_False by lia. done.
Qed.

Lemma ratelimit_zero_interval_witness :
  match RateLimit_try_from {| rls_max_tokens := 10; rls_tokens_per_fill := 1; rls_fill_interval := 0;
                              rls_limit_type := Requests |} 5 with
  | Ok (s, _) => try_wait_n s 1 [6] = Panic
  | Err _ => False
  end.
Proof.
  set (v := {| rls_max_tokens := 10; rls_tokens_per_fill := 1; rls_fill_interval := 0; rls_limit_type := Requests |}).
  destruct (RateLimit_try_from v 5) as [[s ty]|] eqn:E.
  - apply (ratelimit_zero_interval v ty 6 5 1 s); [reflexivity|exact E|lia|lia|simpl; lia].
  - discriminate E.
Defined.

(** A large refill amount: after two elapsed intervals the product of the
    intervals and the amount wraps around to zero, and a request that should find
    a full bucket is refused. *)
Theorem ratelimit_refill_overflow :
  let s := mk 0 0 (mkParameters (2 ^ 63) (2 ^ 63) 1000) 1000 in
  try_wait_n s 1 [2000; 2000] = Ret (Some (mk 0 0 (parameters s) 3000, Err 1000)).
Proof. vm_compute. done. Qed.

(** The step relation covers the sequential functions: what a call computes
    alone is a run of its atomic operations. *)
Theorem ratelimit_refines s n now s' r :
  try_wait_n s n now = Ret (Some (s', r)) →
  rtc sys_step (s, [call_try_wait_n s n]) (s', [PDone r]).
Proof.
  unfold try_wait_n, call_try_wait_n. case_decide; [intros; simplify_eq; apply rtc_refl|].
  apply solo_wait.
Qed.

Lemma ratelimit_refines_witness :
  rtc sys_step (example_limiter, [PNow 4])
    (mk 6 2 (parameters example_limiter) 2000, [PDone (Ok ())]).
Proof. apply (ratelimit_refines example_limiter 4 [1500]). vm_compute. reflexivity. Defined.

(** Concurrent calls can break the bucket. A limiter of capacity 10 whose
    tokens were amended above its capacity by a true-up is being refilled by one
    thread, which has loaded the count, while two others take the tokens: the
    refill then subtracts from the empty bucket and the count wraps around to
    almost 2^64, so that every later request passes. *)
Theorem ratelimit_race_underflow :
  let s := mk 10 0 (mkParameters 10 2 1000) 1000 in
  ∃ s' cs, rtc sys_step (s, [PAmend (-5); call_try_wait_n s 1; call_try_wait_n s 10; call_try_wait_n s 5])
             (s', cs) ∧
    available s' = 2 ^ 64 - 5 ∧ cs !! 2%nat = Some (PDone (Ok ())) ∧ cs !! 3%nat = Some (PDone (Ok ())).
Proof.
  intros s. eexists _, _. split.
  - apply (run_schedule_sound _
      [(0%nat, 0); (1%nat, 1000); (1%nat, 0); (1%nat, 0); (1%nat, 0);
       (2%nat, 1001); (2%nat, 0); (2%nat, 0); (2%nat, 0);
       (3%nat, 1002); (3%nat, 0); (3%nat, 0); (3%nat, 0); (1%nat, 0)]).
    vm_compute. reflexivity.
  - vm_compute. done.
Qed.
