(* ===== verification/AgentXds.v ===== *)
(** AgentXds: the conversions of [types/agent_xds.rs] from the xDS messages of
    [resource.proto] to the configuration data model, with their errors. *)
From Stdlib Require Import SpecFloat.
From S2P Require Import Prelude Strs DiscoveryTypes IpParse AgentTypes RouteSet Discovery Routing RateLimit.

(** * The messages *)

Module AgentProto.

(** [google.protobuf.Duration] *)
Record Duration := { seconds : Z; nanos : Z }.

Record Bind := { bind_key : string; bind_port : N }.
Record TlsConfig := { cert : string; private_key : string }.
Record Listener := {
  lis_key : string;
  lis_name : string;
  lis_bind_key : string;
  lis_gateway_name : string;
  lis_hostname : string;
  lis_protocol : Z;
  lis_tls : option TlsConfig
}.

Inductive PathMatch := PExact (s : string) | PPathPrefix (s : string) | PRegex (s : string).
Inductive ValueMatch := VExact (s : string) | VRegex (s : string).
Record NamedMatch := { nm_name : string; nm_value : option ValueMatch }.

(** [path] is a message with a [oneof]: absent, empty, or a kind. *)
Record RouteMatch := {
  pm_path : option (option PathMatch);
  pm_headers : list NamedMatch;
  pm_method : option string;
  pm_query_params : list NamedMatch
}.

Record HeaderModifier := {
  phm_add : list (string * string);
  phm_set : list (string * string);
  phm_remove : list string
}.
Inductive Path := Full (s : string) | Prefix (s : string).
Record RequestRedirect := {
  rd_scheme : string;
  rd_host : string;
  rd_path : option Path;
  rd_port : N;
  rd_status : N
}.
Record UrlRewrite := { rw_host : string; rw_path : option Path }.
Record RequestMirror := {
  pmr_service : option string;
  pmr_percentage : spec_float;
  pmr_port : Z
}.
Inductive RouteFilter :=
| FRequestHeaderModifier (m : HeaderModifier)
| FResponseHeaderModifier (m : HeaderModifier)
| FRequestRedirect (r : RequestRedirect)
| FUrlRewrite (r : UrlRewrite)
| FRequestMirror (m : RequestMirror).

Inductive BackendKind := KService (s : string) | KBackend (s : string).
Record RouteBackend := {
  rb_kind : option BackendKind;
  rb_weight : Z;
  rb_port : Z;
  rb_filters : list (option RouteFilter)
}.
Record TrafficPolicy := {
  ptp_backend_request_timeout : option Duration;
  ptp_request_timeout : option Duration
}.
Record Route := {
  pr_key : string;
  pr_listener_key : string;
  pr_rule_name : string;
  pr_route_name : string;
  pr_hostnames : list string;
  pr_matches : list RouteMatch;
  pr_filters : list (option RouteFilter);
  pr_backends : list RouteBackend;
  pr_traffic_policy : option TrafficPolicy
}.

Record McpTarget := {
  pt_name : string;
  pt_kind : option BackendKind;
  pt_port : Z;
  pt_protocol : Z
}.
Inductive BackendSpec := BStatic (host : string) (port : Z) | BAi | BMcp (targets : list McpTarget).
Record Backend := { pb_name : string; pb_kind : option BackendSpec }.

Inductive TargetKind :=
| TGateway (s : string) | TListener (s : string) | TRoute (s : string) | TRouteRule (s : string)
| TBackend (s : string).
Record LocalRateLimit := {
  plr_max_tokens : Z;
  plr_tokens_per_fill : Z;
  plr_fill_interval : option Duration;
  plr_type : Z
}.
Record Policy := {
  pp_name : string;
  pp_target : option (option TargetKind);
  pp_spec : option (option LocalRateLimit)
}.

Inductive Resource :=
| RBind (b : Bind) | RListener (l : Listener) | RRoute (r : Route) | RBackend (b : Backend)
| RPolicy (p : Policy) | RNone.

End AgentProto.

(** * Conversions *)

(** [x as u16] and [x as usize] of an [i32]. *)
Definition i32_as_u16 (x : Z) : N := Z.to_N (x mod 2 ^ 16).
Definition i32_as_usize (x : Z) : N := Z.to_N (x mod 2 ^ 64).

Definition default_as_none_str (s : string) : option string := if Str.is_empty s then None else Some s.
Definition default_as_none_num (n : N) : option N := if decide (n = 0%N) then None else Some n.

(** A result that may also panic. *)
Definition outcome (A : Type) : Type := comp (result A ProtoError).

Definition outcome_bind {A B} (r : outcome A) (k : A → outcome B) : outcome B :=
  match r with
  | Panic => Panic
  | Ret (Err e) => Ret (Err e)
  | Ret (Ok a) => k a
  end.

(** [iter().map(f).collect::<Result<Vec<_>, _>>()] where [f] may panic. *)
Fixpoint outcome_map {A B} (f : A → outcome B) (l : list A) : outcome (list B) :=
  match l with
  | [] => Ret (Ok [])
  | x :: l =>
    outcome_bind (f x) (λ y, outcome_bind (outcome_map f l) (λ ys, Ret (Ok (y :: ys))))
  end.

Definition NamespacedHostname_of_key (svc_key : string) : result NamespacedHostname.t ProtoError :=
  match Str.split_once "/" svc_key with
  | Some (namespace, hostname) =>
    Ok {| NamespacedHostname.namespace := namespace; NamespacedHostname.hostname := hostname |}
  | None => Err (NamespacedHostnameParse svc_key)
  end.

(** 100.0 as a binary64 number. *)
Definition f64_100 : spec_float := S754_finite false 7036874417766400 (-46).

Section conversions.
(** The crates the conversions call: the [rustls] configuration of a certificate,
    [regex::Regex::new], [HeaderName::from_bytes], [HeaderValue::from_bytes],
    [uri::Scheme::try_from], [StatusCode::from_u16] and [prost_types]' conversion of
    a duration (here to nanoseconds). *)
Context (tls_config_of : AgentProto.TlsConfig → result Handle string).
Context (Regex_new : string → option Regex).
Context (HeaderName_from_bytes HeaderValue_from_bytes : string → option string).
Context (Scheme_try_from : string → option string).
Context (StatusCode_from_u16 : N → option Z).
Context (Duration_try_from : AgentProto.Duration → option N).

Definition duration (d : option AgentProto.Duration) : result (option N) ProtoError :=
  match d with
  | Some d => let? n := ok_or (Duration_try_from d) DurationError in Ok (Some n)
  | None => Ok None
  end.

Definition TrafficPolicy_try_from (s : AgentProto.TrafficPolicy) : result TrafficPolicy ProtoError :=
  let? req := duration (AgentProto.ptp_request_timeout s) in
  let? backend := duration (AgentProto.ptp_backend_request_timeout s) in
  Ok {| tp_timeout := {| request_timeout := req; backend_request_timeout := backend |};
        tp_retry := None |}.

(** [Protocol::try_from(i32)] and the [Debug] form of its values. *)
Definition protocol_name (v : Z) : option string :=
  match v with
  | 0%Z => Some "Unknown" | 1%Z => Some "Http" | 2%Z => Some "Https" | 3%Z => Some "Tls"
  | 4%Z => Some "Tcp" | 5%Z => Some "Hbone" | _ => None
  end.

Definition ListenerProtocol_try_from (proto : Z) (tls_cfg : option AgentProto.TlsConfig)
    : result ListenerProtocol ProtoError :=
  match proto, tls_cfg with
  | 0%Z, _ => Err (EnumParse "unknown protocol")
  | 1%Z, None => Ok LPHTTP
  | 2%Z, Some cfg => let? c := map_err Generic (tls_config_of cfg) in Ok (LPHTTPS {| tls_config := c |})
  | 3%Z, Some cfg => let? c := map_err Generic (tls_config_of cfg) in Ok (LPTLS {| tls_config := c |})
  | 4%Z, None => Ok LPTCP
  | 5%Z, None => Ok LPHBONE
  | _, _ =>
    Err (Generic ("protocol " +:+ default "" (protocol_name proto) +:+ " is incompatible with " +:+
                  match tls_cfg with Some _ => "tls" | None => "no tls config" end))
  end.

Definition Bind_try_from (s : AgentProto.Bind) : result Bind ProtoError :=
  Ok {| b_key := AgentProto.bind_key s;
        b_address := {| sa_ip := V4 (octet 0 +:+ octet 0 +:+ octet 0 +:+ octet 0);
                        sa_port := as_u16 (AgentProto.bind_port s) |};
        b_listeners := ∅ |}.

(** The text of an error, as [map_err(|e| ProtoError::Generic(format!("{e}")))]
    keeps it. *)
Context (ProtoError_text : ProtoError → string).

Definition Listener_try_from (s : AgentProto.Listener) : result (Listener * string) ProtoError :=
  let? _ := ok_or (protocol_name (AgentProto.lis_protocol s)) (EnumError (AgentProto.lis_protocol s)) in
  let? protocol := map_err (λ e, Generic (ProtoError_text e))
    (ListenerProtocol_try_from (AgentProto.lis_protocol s) (AgentProto.lis_tls s)) in
  Ok ({| l_key := AgentProto.lis_key s;
         l_name := AgentProto.lis_name s;
         l_gateway_name := AgentProto.lis_gateway_name s;
         l_hostname := AgentProto.lis_hostname s;
         l_protocol := protocol;
         l_routes := RouteSet.default_set;
         l_tcp_routes := TCPRouteSet.default_set |},
      AgentProto.lis_bind_key s).

(** ** Matches *)

Definition Header_try_from (h : AgentProto.NamedMatch) : result HeaderMatch ProtoError :=
  match AgentProto.nm_value h with
  | None => Err (Generic "invalid header match value")
  | Some (AgentProto.VExact e) =>
    let? name := ok_or (HeaderName_from_bytes (AgentProto.nm_name h)) HeaderNameError in
    let? value := ok_or (HeaderValue_from_bytes e) HeaderValueError in
    Ok {| hm_name := name; hm_value := HVExact value |}
  | Some (AgentProto.VRegex e) =>
    let? name := ok_or (HeaderName_from_bytes (AgentProto.nm_name h)) HeaderNameError in
    let? r := ok_or (Regex_new e) RegexError in
    Ok {| hm_name := name; hm_value := HVRegex r |}
  end.

Definition Query_try_from (h : AgentProto.NamedMatch) : result QueryMatch ProtoError :=
  match AgentProto.nm_value h with
  | None => Err (Generic "invalid query match value")
  | Some (AgentProto.VExact e) => Ok {| qm_name := AgentProto.nm_name h; qm_value := QVExact e |}
  | Some (AgentProto.VRegex e) =>
    let? r := ok_or (Regex_new e) RegexError in
    Ok {| qm_name := AgentProto.nm_name h; qm_value := QVRegex r |}
  end.

Definition PathMatch_try_from (p : option (option AgentProto.PathMatch)) : result PathMatch ProtoError :=
  match p with
  | None => Ok (PathPrefix "/")
  | Some (Some (AgentProto.PPathPrefix prefix)) => Ok (PathPrefix prefix)
  | Some (Some (AgentProto.PExact prefix)) => Ok (PathExact prefix)
  | Some (Some (AgentProto.PRegex r)) =>
    let? re := ok_or (Regex_new r) RegexError in Ok (PathRegex re (Str.len r))
  | Some None => Err (Generic "invalid path match")
  end.

Definition RouteMatch_try_from (s : AgentProto.RouteMatch) : result RouteMatch ProtoError :=
  let? path := PathMatch_try_from (AgentProto.pm_path s) in
  let method := AgentProto.pm_method s in
  let? headers := try_map Header_try_from (AgentProto.pm_headers s) in
  let? query := try_map Query_try_from (AgentProto.pm_query_params s) in
  Ok {| rm_headers := headers; rm_path := path; rm_method := method; rm_query := query |}.

(** ** Filters *)

Definition modifier (m : AgentProto.HeaderModifier) : HeaderModifier :=
  {| add := AgentProto.phm_add m; set := AgentProto.phm_set m; remove := AgentProto.phm_remove m |}.

Definition path_redirect (p : option AgentProto.Path) : option PathRedirect :=
  match p with
  | Some (AgentProto.Full f) => Some (PRFull f)
  | Some (AgentProto.Prefix f) => Some (PRPrefix f)
  | None => None
  end.

(** A port alone goes through [NonZeroU16::new(p as u16).unwrap()]. *)
Definition redirect_authority (host : string) (port : N) : comp (option HostRedirect) :=
  match default_as_none_str host, default_as_none_num port with
  | Some h, Some p => Ret (Some (HostFull (h +:+ ":" +:+ Str.display_nat p)))
  | None, Some p =>
    if decide (as_u16 p = 0%N) then Panic else Ret (Some (HostPort (as_u16 p)))
  | Some h, None => Ret (Some (HostHost h))
  | None, None => Ret None
  end.

Definition RequestRedirect_try_from (rd : AgentProto.RequestRedirect) : outcome RequestRedirect :=
  match match default_as_none_str (AgentProto.rd_scheme rd) with
        | Some s => let? s := ok_or (Scheme_try_from s) InvalidURI in Ok (Some s)
        | None => Ok None
        end with
  | Err e => Ret (Err e)
  | Ok scheme =>
    authority ← redirect_authority (AgentProto.rd_host rd) (AgentProto.rd_port rd);
    match match default_as_none_num (AgentProto.rd_status rd) with
          | Some i => let? s := ok_or (StatusCode_from_u16 (as_u16 i)) InvalidStatusCode in Ok (Some s)
          | None => Ok None
          end with
    | Err e => Ret (Err e)
    | Ok status =>
      Ret (Ok {| rr_scheme := scheme; rr_authority := authority;
                 rr_path := path_redirect (AgentProto.rd_path rd); rr_status := status |})
    end
  end.

Definition RequestMirror_try_from (m : AgentProto.RequestMirror) : result RequestMirror ProtoError :=
  let? backend :=
    match AgentProto.pmr_service m with
    | None => Ok SBRInvalid
    | Some svc_key =>
      let? ns := NamespacedHostname_of_key svc_key in
      Ok (SBRService ns (i32_as_u16 (AgentProto.pmr_port m)))
    end in
  Ok {| mirror_backend := backend; percentage := SFdiv 53 1024 (AgentProto.pmr_percentage m) f64_100 |}.

Definition RouteFilter_try_from (s : option AgentProto.RouteFilter) : outcome RouteFilter :=
  match s with
  | None => Ret (Err (Generic "invalid route filter"))
  | Some (AgentProto.FRequestHeaderModifier rhm) => Ret (Ok (RFRequestHeaderModifier (modifier rhm)))
  | Some (AgentProto.FRequestRedirect rd) =>
    outcome_bind (RequestRedirect_try_from rd) (λ r, Ret (Ok (RFRequestRedirect r)))
  | Some (AgentProto.FUrlRewrite rw) =>
    Ret (Ok (RFUrlRewrite {| ur_authority := HostHost <$> default_as_none_str (AgentProto.rw_host rw);
                             ur_path := path_redirect (AgentProto.rw_path rw) |}))
  | Some (AgentProto.FResponseHeaderModifier rhm) => Ret (Ok (RFResponseHeaderModifier (modifier rhm)))
  | Some (AgentProto.FRequestMirror m) =>
    Ret (let? m := RequestMirror_try_from m in Ok (RFRequestMirror m))
  end.

(** ** Backends and routes *)

Definition RouteBackend_try_from (s : AgentProto.RouteBackend) : outcome RouteBackendReference :=
  outcome_bind
    (Ret match AgentProto.rb_kind s with
         | None => Ok BRInvalid
         | Some (AgentProto.KBackend backend_key) => Ok (BRBackend backend_key)
         | Some (AgentProto.KService svc_key) =>
           let? ns := NamespacedHostname_of_key svc_key in
           Ok (BRService ns (i32_as_u16 (AgentProto.rb_port s)))
         end)
    (λ kind, outcome_bind (outcome_map RouteFilter_try_from (AgentProto.rb_filters s))
      (λ filters, Ret (Ok {| rbr_weight := i32_as_usize (AgentProto.rb_weight s);
                             rbr_backend := kind; rbr_filters := filters |}))).

Definition Route_try_from (s : AgentProto.Route) : outcome (Route * string) :=
  outcome_bind (Ret (try_map RouteMatch_try_from (AgentProto.pr_matches s))) (λ matches,
  outcome_bind (outcome_map RouteFilter_try_from (AgentProto.pr_filters s)) (λ filters,
  outcome_bind (outcome_map RouteBackend_try_from (AgentProto.pr_backends s)) (λ backends,
  outcome_bind (Ret (try_opt TrafficPolicy_try_from (AgentProto.pr_traffic_policy s))) (λ policies,
  Ret (Ok ({| route_key := AgentProto.pr_key s;
              route_name := AgentProto.pr_route_name s;
              route_rule_name := default_as_none_str (AgentProto.pr_rule_name s);
              route_hostnames := AgentProto.pr_hostnames s;
              route_matches := matches;
              route_filters := filters;
              route_backends := backends;
              route_policies := policies |}, AgentProto.pr_listener_key s)))))).

Definition McpTarget_try_from (s : AgentProto.McpTarget) : result McpTarget ProtoError :=
  let v := AgentProto.pt_protocol s in
  let? _ := if decide (0 ≤ v ≤ 2)%Z then Ok () else Err (EnumError v) in
  let? backend :=
    match AgentProto.pt_kind s with
    | None => Ok SBRInvalid
    | Some (AgentProto.KBackend name) => Ok (SBRBackend name)
    | Some (AgentProto.KService svc_key) =>
      let? ns := NamespacedHostname_of_key svc_key in
      Ok (SBRService ns (i32_as_u16 (AgentProto.pt_port s)))
    end in
  Ok {| mt_name := AgentProto.pt_name s;
        mt_spec := if decide (v = 1%Z) then McpSse backend "/sse" else McpMcp backend "/mcp" |}.

Definition Backend_try_from (s : AgentProto.Backend) : result Backend ProtoError :=
  let name := AgentProto.pb_name s in
  match AgentProto.pb_kind s with
  | Some (AgentProto.BStatic host port) => Ok (BOpaque name (Target_from host (i32_as_u16 port)))
  | Some AgentProto.BAi => Err (Generic "AI backend is not currently supported")
  | Some (AgentProto.BMcp targets) =>
    let? targets := try_map McpTarget_try_from targets in Ok (BMCP name {| mcp_targets := targets |})
  | None => Err (Generic "unknown backend")
  end.

(** ** Policies *)

(** The limiter the [Arc] of the new policy holds, at the time [now], is returned
    next to the policy; [h] names it. *)
Definition Policy_try_from (s : AgentProto.Policy) (now : Z) (h : Handle)
    : result (TargetedPolicy * Ratelimiter.t) ProtoError :=
  let? target := ok_or (AgentProto.pp_target s) MissingRequiredField in
  let? spec := ok_or (AgentProto.pp_spec s) MissingRequiredField in
  let? target :=
    match target with
    | Some (AgentProto.TGateway v) => Ok (PTGateway v)
    | Some (AgentProto.TListener v) => Ok (PTListener v)
    | Some (AgentProto.TRoute v) => Ok (PTRoute v)
    | Some (AgentProto.TRouteRule v) => Ok (PTRouteRule v)
    | Some (AgentProto.TBackend v) => Ok (PTBackend v)
    | None => Err (EnumParse "unknown target kind")
    end in
  match spec with
  | Some lrl =>
    let ty := AgentProto.plr_type lrl in
    let? t := if decide (ty = 0%Z) then Ok Requests else if decide (ty = 1%Z) then Ok Tokens
              else Err (EnumError ty) in
    let? d := ok_or (AgentProto.plr_fill_interval lrl) MissingRequiredField in
    let? interval := ok_or (Duration_try_from d) DurationError in
    match RateLimit_try_from
            {| rls_max_tokens := AgentProto.plr_max_tokens lrl;
               rls_tokens_per_fill := AgentProto.plr_tokens_per_fill lrl;
               rls_fill_interval := Z.of_N interval; rls_limit_type := t |} now with
    | Err e =>
      Err (Generic ("invalid rate limit: " +:+
             match e with
             | Ratelimiter.AvailableTokensTooHigh => "available tokens cannot be set higher than max tokens"
             | Ratelimiter.MaxTokensTooLow => "max tokens cannot be less than the refill amount"
             | Ratelimiter.RefillAmountTooHigh => "refill amount cannot exceed the max tokens"
             | Ratelimiter.RefillIntervalTooLong => "refill interval in nanoseconds exceeds maximum u64"
             end))
    | Ok (rl, ty) =>
      Ok ({| tp_name := AgentProto.pp_name s; tp_target := target;
             tp_policy := PLocalRateLimit [{| ratelimit := h; limit_type := ty |}] |}, rl)
    end
  | None => Err (EnumParse "unknown spec kind")
  end.
End conversions.

(** * Theorems *)

(** The listener protocols: a conversion succeeds exactly for plain HTTP, TCP
    and HBONE without a TLS configuration, and for HTTPS and TLS with one that
    builds. *)
Theorem listener_protocol_accepts tls_config_of proto cfg p :
  ListenerProtocol_try_from tls_config_of proto cfg = Ok p ↔
  (cfg = None ∧ (proto = 1%Z ∧ p = LPHTTP ∨ proto = 4%Z ∧ p = LPTCP ∨ proto = 5%Z ∧ p = LPHBONE)) ∨
  ∃ c h, cfg = Some c ∧ tls_config_of c = Ok h ∧
    (proto = 2%Z ∧ p = LPHTTPS {| tls_config := h |} ∨ proto = 3%Z ∧ p = LPTLS {| tls_config := h |}).
Proof.
  unfold ListenerProtocol_try_from. split.
  - intros H. repeat case_match; simplify_eq; try naive_solver;
      apply and_then_Ok in H as (h & Hh & [= <-]);
      (destruct (tls_config_of _) as [h'|] eqn:E; simpl in Hh; [|done]); simplify_eq; right; naive_solver.
  - intros [[-> [[-> ->]|[[-> ->]|[-> ->]]]]|(c & h & -> & Hh & [[-> ->]|[-> ->]])]; try done;
      rewrite Hh; done.
Qed.

(** The only message that makes the conversion of a filter panic is a redirect
    without host whose port is a non-zero multiple of 65536: it passes the test for
    zero and is then truncated to the 16-bit zero that [NonZeroU16] refuses. *)
Theorem route_filter_panics Scheme_try_from StatusCode_from_u16 f :
  RouteFilter_try_from Scheme_try_from StatusCode_from_u16 f = Panic ↔
  ∃ rd, f = Some (AgentProto.FRequestRedirect rd) ∧ AgentProto.rd_host rd = "" ∧
    AgentProto.rd_port rd ≠ 0%N ∧ (AgentProto.rd_port rd `mod` 65536 = 0)%N ∧
    (AgentProto.rd_scheme rd = "" ∨ is_Some (Scheme_try_from (AgentProto.rd_scheme rd))).
Proof.
  assert (∀ host port, redirect_authority host port = Panic ↔
    host = "" ∧ port ≠ 0%N ∧ (port `mod` 65536 = 0)%N) as Hauth.
  { intros host port. unfold redirect_authority, default_as_none_str, default_as_none_num, as_u16.
    destruct host; simpl; repeat case_decide; naive_solver. }
  split.
  - destruct f as [[| |rd| |]|]; simpl; try done. unfold RequestRedirect_try_from, default_as_none_str at 1.
    intros H. exists rd. split; [done|].
    destruct (Str.is_empty (AgentProto.rd_scheme rd)) eqn:Es.
    + assert (AgentProto.rd_scheme rd = "") by (by destruct (AgentProto.rd_scheme rd)).
      destruct (redirect_authority _ _) eqn:Ea; [simpl in H; by repeat case_match|].
      apply Hauth in Ea. naive_solver.
    + destruct (Scheme_try_from (AgentProto.rd_scheme rd)) as [sc|] eqn:Esc; simpl in H; [|done].
      destruct (redirect_authority _ _) eqn:Ea; [simpl in H; by repeat case_match|].
      apply Hauth in Ea. naive_solver.
  - intros (rd & -> & Hh & Hp & Hm & Hs). simpl. unfold RequestRedirect_try_from, default_as_none_str at 1.
    assert (redirect_authority (AgentProto.rd_host rd) (AgentProto.rd_port rd) = Panic) as ->
      by (by apply Hauth).
    destruct Hs as [->|[sc Hsc]]; [done|]. destruct (Str.is_empty _); [done|]. by rewrite Hsc.
Qed.
