(* ===== verification/BindStore.v ===== *)
(** BindStore: the configuration store of [store/binds.rs]: binds with their
    listeners and route tables, backends and policies, the staging of listeners
    and routes that arrive before what they belong to, the policy lookups of the
    request path, and the xDS and file sources.

    Route tables may panic on insertion, so the store's operations that touch
    them return a [comp]. *)
From S2P Require Import Prelude Strs Xds DiscoveryTypes AgentTypes RouteSet Routing RateLimit AgentXds.

(** * Resolved policies *)

Record BackendPolicies := {
  bp_backend_tls : option BackendTLS;
  bp_backend_auth : option BackendAuth;
  bp_a2a : option A2aPolicy;
  bp_llm_provider : option (AIProvider * bool);
  bp_llm : option LlmPolicy
}.

(** [Option::or] *)
Definition or {A} (a b : option A) : option A := match a with Some _ => a | None => b end.

Definition BackendPolicies_merge (self other : BackendPolicies) : BackendPolicies :=
  {| bp_backend_tls := or (bp_backend_tls other) (bp_backend_tls self);
     bp_backend_auth := or (bp_backend_auth other) (bp_backend_auth self);
     bp_a2a := or (bp_a2a other) (bp_a2a self);
     bp_llm := or (bp_llm other) (bp_llm self);
     bp_llm_provider := or (bp_llm_provider other) (bp_llm_provider self) |}.

Record RoutePolicies := {
  rp_local_rate_limit : list RateLimit;
  rp_remote_rate_limit : option RemoteRateLimit;
  rp_jwt : option Jwt;
  rp_ext_authz : option ExtAuthz;
  rp_transformation : option Transformation
}.

Record LLMRoutePolicies := { llm_local_rate_limit : list RateLimit }.

Definition LLMRoutePolicies_from (value : RoutePolicies) : LLMRoutePolicies :=
  {| llm_local_rate_limit := filter (λ r, limit_type r = Tokens) (rp_local_rate_limit value) |}.

(** * The store *)

Module BindStore.

Inductive Event := EventAdd (b : Bind) | EventRemove (b : Bind).

(** [tx] is the sequence of the events sent to the subscribers. *)
Record t := mk {
  by_name : gmap string Bind;
  policies_by_name : gmap string TargetedPolicy;
  policies_by_target : gmap PolicyTarget (gset string);
  backends_by_name : gmap string Backend;
  staged_listeners : gmap string (gmap string Listener);
  staged_routes : gmap string (gmap string Route);
  tx : list Event
}.

Definition new : t := mk ∅ ∅ ∅ ∅ ∅ ∅ [].

Definition set_binds (s : t) (b : gmap string Bind) (ev : list Event) : t :=
  mk b (policies_by_name s) (policies_by_target s) (backends_by_name s) (staged_listeners s)
    (staged_routes s) (tx s ++ ev).
Definition set_staged (s : t) (sl : gmap string (gmap string Listener)) (sr : gmap string (gmap string Route))
    : t :=
  mk (by_name s) (policies_by_name s) (policies_by_target s) (backends_by_name s) sl sr (tx s).
Definition set_policies (s : t) (n : gmap string TargetedPolicy) (tg : gmap PolicyTarget (gset string)) : t :=
  mk (by_name s) n tg (backends_by_name s) (staged_listeners s) (staged_routes s) (tx s).
Definition set_backends (s : t) (b : gmap string Backend) : t :=
  mk (by_name s) (policies_by_name s) (policies_by_target s) b (staged_listeners s) (staged_routes s) (tx s).

Definition with_routes (l : Listener) (rs : RouteSet.t) : Listener :=
  {| l_key := l_key l; l_name := l_name l; l_gateway_name := l_gateway_name l;
     l_hostname := l_hostname l; l_protocol := l_protocol l; l_routes := rs;
     l_tcp_routes := l_tcp_routes l |}.
Definition with_listeners (b : Bind) (ls : ListenerSet.t) : Bind :=
  {| b_key := b_key b; b_address := b_address b; b_listeners := ls |}.

Section ops.
Context `{!HashIter string Bind, !HashIter string Listener, !HashIter string Route}.
Context `{!HashIter string TargetedPolicy, !SetIter string}.

(** ** Lookups *)

Definition policies_of (s : t) (tgt : PolicyTarget) : list TargetedPolicy :=
  omap (λ n, policies_by_name s !! n) (hs_iter (default ∅ (policies_by_target s !! tgt))).

Definition route_policies (s : t) (route_rule route gateway : string) : RoutePolicies :=
  let rules := policies_of s (PTRouteRule route_rule) ++ policies_of s (PTRoute route) ++
    policies_of s (PTGateway gateway) in
  {| rp_local_rate_limit :=
       default [] (find_map (λ n, match tp_policy n with PLocalRateLimit p => Some p | _ => None end) rules);
     rp_remote_rate_limit :=
       find_map (λ n, match tp_policy n with PRemoteRateLimit p => Some p | _ => None end) rules;
     rp_jwt := find_map (λ n, match tp_policy n with PJwtAuth p => Some p | _ => None end) rules;
     rp_ext_authz := find_map (λ n, match tp_policy n with PExtAuthz p => Some p | _ => None end) rules;
     rp_transformation :=
       find_map (λ n, match tp_policy n with PTransformation p => Some p | _ => None end) rules |}.

(** The first policy of a kind with the target, in the table's order. *)
Definition attached {A} (s : t) (tgt : PolicyTarget) (sel : Policy → option A) : option A :=
  find_map (λ p, if decide (tp_target p ≠ tgt) then None else sel (tp_policy p))
    (hm_values (policies_by_name s)).

Definition backend_policies (s : t) (tgt : PolicyTarget) : BackendPolicies :=
  {| bp_backend_tls := attached s tgt (λ p, match p with PBackendTLS x => Some x | _ => None end);
     bp_backend_auth := attached s tgt (λ p, match p with PBackendAuth x => Some x | _ => None end);
     bp_a2a := attached s tgt (λ p, match p with PA2a x => Some x | _ => None end);
     bp_llm := attached s tgt (λ p, match p with PAI x => Some x | _ => None end);
     bp_llm_provider := None |}.

Definition mcp_policies (s : t) (backend : string) : list RuleSet * option McpAuthentication :=
  let tgt := PTBackend backend in
  (omap (λ p, if decide (tp_target p ≠ tgt) then None
              else match tp_policy p with PMcpAuthorization x => Some x | _ => None end)
     (hm_values (policies_by_name s)),
   attached s tgt (λ p, match p with PMcpAuthentication x => Some x | _ => None end)).

Definition listeners (s : t) (bind : string) : option ListenerSet.t := b_listeners <$> by_name s !! bind.
Definition all (s : t) : list Bind := hm_values (by_name s).
Definition backend (s : t) (r : string) : option Backend := backends_by_name s !! r.

(** ** Policies and backends *)

Definition untarget (s : t) (tg : gmap PolicyTarget (gset string)) (old : TargetedPolicy) (n : string)
    : gmap PolicyTarget (gset string) :=
  match tg !! tp_target old with
  | Some o => <[tp_target old := o ∖ {[n]}]> tg
  | None => tg
  end.

Definition remove_policy (s : t) (pol : string) : t :=
  match policies_by_name s !! pol with
  | Some old =>
    set_policies s (delete pol (policies_by_name s)) (untarget s (policies_by_target s) old pol)
  | None => s
  end.

Definition insert_policy (s : t) (pol : TargetedPolicy) : t :=
  let tg :=
    match policies_by_name s !! tp_name pol with
    | Some old => untarget s (policies_by_target s) old (tp_name pol)
    | None => policies_by_target s
    end in
  set_policies s (<[tp_name pol := pol]> (policies_by_name s))
    (<[tp_target pol := {[tp_name pol]} ∪ default ∅ (tg !! tp_target pol)]> tg).

Definition remove_backend (s : t) (b : string) : t := set_backends s (delete b (backends_by_name s)).
Definition insert_backend (s : t) (b : Backend) : t :=
  set_backends s (<[Backend_name b := b]> (backends_by_name s)).

(** ** Binds, listeners and routes *)

Definition remove_bind (s : t) (bind : string) : t :=
  match by_name s !! bind with
  | Some old => set_binds s (delete bind (by_name s)) [EventRemove old]
  | None => s
  end.

(** The staged routes of a listener, taken out of the staging table and added to
    the listener. *)
Definition take_staged_routes (sr : gmap string (gmap string Route)) (k : string) (lis : Listener)
    : comp (gmap string (gmap string Route) * Listener) :=
  rs ← foldM RouteSet.insert (hm_values (default ∅ (sr !! k))) (l_routes lis);
  Ret (delete k sr, with_routes lis rs).

Definition add_staged_listener '(sr, bind) '(k, v) : comp (gmap string (gmap string Route) * Bind) :=
  '(sr, v) ← take_staged_routes sr k v;
  Ret (sr, with_listeners bind (ListenerSet.insert (b_listeners bind) v)).

Definition insert_bind (s : t) (bind : Bind) : comp t :=
  '(sr, bind) ← foldM add_staged_listener (hm_iter (default ∅ (staged_listeners s !! b_key bind)))
    (staged_routes s, bind);
  let s := set_staged s (delete (b_key bind) (staged_listeners s)) sr in
  Ret (set_binds s (<[b_key bind := bind]> (by_name s)) [EventAdd bind]).

Definition remove_listener (s : t) (listener : string) : comp t :=
  match find (λ v, ListenerSet.contains (b_listeners v) listener) (hm_values (by_name s)) with
  | None => Ret s
  | Some bind =>
    insert_bind s (with_listeners bind (ListenerSet.remove (b_listeners bind) listener).1)
  end.

Definition remove_route (s : t) (route : string) : comp t :=
  match find_map (λ v,
      (λ l, (v, l)) <$> find (λ l, RouteSet.contains (l_routes l) route) (hm_values (b_listeners v)))
      (hm_values (by_name s)) with
  | None => Ret s
  | Some (bind, lis) =>
    let lis := with_routes lis (RouteSet.remove (l_routes lis) route) in
    insert_bind s (with_listeners bind (ListenerSet.insert (b_listeners bind) lis))
  end.

Definition insert_listener (s : t) (lis : Listener) (bind_name : string) : comp t :=
  match by_name s !! bind_name with
  | Some bind =>
    let '(ls, old) := ListenerSet.remove (b_listeners bind) (l_key lis) in
    let lis := match old with Some old => with_routes lis (l_routes old) | None => lis end in
    '(sr, lis) ← take_staged_routes (staged_routes s) (l_key lis) lis;
    insert_bind (set_staged s (staged_listeners s) sr) (with_listeners bind (ListenerSet.insert ls lis))
  | None =>
    '(sr, lis) ← take_staged_routes (staged_routes s) (l_key lis) lis;
    Ret (set_staged s
      (<[bind_name := <[l_key lis := lis]> (default ∅ (staged_listeners s !! bind_name))]>
         (staged_listeners s)) sr)
  end.

Definition insert_route (s : t) (r : Route) (ln : string) : comp t :=
  match find_map (λ b, (λ ls, (b, ls)) <$> ListenerSet.get (b_listeners b) ln) (hm_values (by_name s)) with
  | None =>
    Ret (set_staged s (staged_listeners s)
      (<[ln := <[route_key r := r]> (default ∅ (staged_routes s !! ln))]> (staged_routes s)))
  | Some (bind, lis) =>
    rs ← RouteSet.insert (l_routes lis) r;
    insert_bind s (with_listeners bind (ListenerSet.insert (b_listeners bind) (with_routes lis rs)))
  end.

(** ** The xDS source *)

Definition remove_resource (s : t) (res : string) : comp t :=
  match Str.split_once "/" res with
  | None => Ret s
  | Some (res, res_name) =>
    if Str.eqb res "bind" then Ret (remove_bind s res_name)
    else if Str.eqb res "listener" then remove_listener s res_name
    else if Str.eqb res "route" then remove_route s res_name
    else Ret s
  end.

(** The third-party functions of the conversions. *)
Class Crates := {
  tls_config_of : AgentProto.TlsConfig → result Handle string;
  Regex_new : string → option Regex;
  HeaderName_from_bytes : string → option string;
  HeaderValue_from_bytes : string → option string;
  Scheme_try_from : string → option string;
  StatusCode_from_u16 : N → option Z;
  Duration_try_from : AgentProto.Duration → option N;
  ProtoError_text : ProtoError → string
}.
Context `{!Crates}.

Inductive StoreError := EConversion (e : ProtoError) | EUnknownResource.

Definition insert_xds_bind (s : t) (raw : AgentProto.Bind) : comp (t * result () StoreError) :=
  match Bind_try_from raw with
  | Err e => Ret (s, Err (EConversion e))
  | Ok bind =>
    let '(s, bind) :=
      match by_name s !! b_key bind with
      | Some old =>
        (set_binds s (delete (b_key bind) (by_name s)) [], with_listeners bind (b_listeners old))
      | None => (s, bind)
      end in
    s ← insert_bind s bind; Ret (s, Ok ())
  end.

Definition insert_xds_listener (s : t) (raw : AgentProto.Listener) : comp (t * result () StoreError) :=
  match Listener_try_from tls_config_of ProtoError_text raw with
  | Err e => Ret (s, Err (EConversion e))
  | Ok (lis, bind_name) => s ← insert_listener s lis bind_name; Ret (s, Ok ())
  end.

Definition insert_xds_route (s : t) (raw : AgentProto.Route) : comp (t * result () StoreError) :=
  r ← Route_try_from Regex_new HeaderName_from_bytes HeaderValue_from_bytes Scheme_try_from
        StatusCode_from_u16 Duration_try_from raw;
  match r with
  | Err e => Ret (s, Err (EConversion e))
  | Ok (route, listener_name) => s ← insert_route s route listener_name; Ret (s, Ok ())
  end.

Definition insert_xds_backend (s : t) (raw : AgentProto.Backend) : comp (t * result () StoreError) :=
  match Backend_try_from raw with
  | Err e => Ret (s, Err (EConversion e))
  | Ok b => Ret (insert_backend s b, Ok ())
  end.

Definition insert_xds (s : t) (res : AgentProto.Resource) : comp (t * result () StoreError) :=
  match res with
  | AgentProto.RBind w => insert_xds_bind s w
  | AgentProto.RListener w => insert_xds_listener s w
  | AgentProto.RRoute w => insert_xds_route s w
  | AgentProto.RBackend w => insert_xds_backend s w
  | AgentProto.RPolicy _ | AgentProto.RNone => Ret (s, Err EUnknownResource)
  end.

(** [StoreUpdater::handle] with the closure of [handle_single_resource]: the
    rejected updates, in order; a panic leaves the lock poisoned. *)
Context (error_text : StoreError → string).

Definition handle_one (s : t) (res : XdsUpdate AgentProto.Resource) : comp (t * result () string) :=
  match res with
  | Update w => '(s, r) ← insert_xds s (xr_resource w); Ret (s, map_err error_text r)
  | Remove name => s ← remove_resource s name; Ret (s, Ok ())
  end.

Fixpoint handle_updates (s : t) (updates : list (XdsUpdate AgentProto.Resource))
    : comp (t * list RejectedConfig) :=
  match updates with
  | [] => Ret (s, [])
  | res :: updates =>
    '(s, r) ← handle_one s res;
    '(s, rejects) ← handle_updates s updates;
    Ret (s, match r with
            | Err e => {| rej_name := update_name res; rej_reason := e |} :: rejects
            | Ok _ => rejects
            end)
  end.

Definition handle (s : t) (updates : list (XdsUpdate AgentProto.Resource))
    : comp (t * result () (list RejectedConfig)) :=
  '(s, rejects) ← handle_updates s updates;
  Ret (s, if decide (rejects = []) then Ok () else Err rejects).

(** ** The file source *)

Record PreviousState := {
  ps_binds : gset string;
  ps_policies : gset string;
  ps_backends : gset string
}.

Definition sync_local (s : t) (binds : list Bind) (policies : list TargetedPolicy) (backends : list Backend)
    (prev : PreviousState) : comp (t * PreviousState) :=
  let old_binds := foldl (λ o b, o ∖ {[b_key b]}) (ps_binds prev) binds in
  s ← foldM insert_bind binds s;
  let old_backends := foldl (λ o b, o ∖ {[Backend_name b]}) (ps_backends prev) backends in
  let s := foldl insert_backend s backends in
  let old_pols := foldl (λ o p, o ∖ {[tp_name p]}) (ps_policies prev) policies in
  let s := foldl insert_policy s policies in
  let s := foldl remove_bind s (hs_iter old_binds) in
  let s := foldl remove_policy s (hs_iter old_pols) in
  let s := foldl remove_backend s (hs_iter old_backends) in
  Ret (s, {| ps_binds := list_to_set (b_key <$> binds);
             ps_policies := list_to_set (tp_name <$> policies);
             ps_backends := list_to_set (Backend_name <$> backends) |}).
End ops.
End BindStore.
