(* ===== verification/BindPolicies.v ===== *)
(** BindPolicies: the policy tables of the configuration store: their consistency,
    and the precedence of the policies that apply to a route or a backend. *)
From S2P Require Import Prelude Strs DiscoveryTypes AgentTypes BindStore.
Import BindStore.

(** The index by target lists exactly the policies with that target. *)
Record policies_wf (s : t) : Prop := {
  pwf_name : ∀ n p, policies_by_name s !! n = Some p → tp_name p = n;
  pwf_index : ∀ tgt n, n ∈ default ∅ (policies_by_target s !! tgt) ↔
    ∃ p, policies_by_name s !! n = Some p ∧ tp_target p = tgt
}.

Lemma policies_wf_new : policies_wf new.
Proof.
  split; intros *; simpl; rewrite ?lookup_empty; [done|]. simpl.
  split; [set_solver|]. intros (p & Hp & _). done.
Qed.

Lemma untarget_lookup s tg old n tgt m :
  m ∈ default ∅ (untarget s tg old n !! tgt) ↔
  m ∈ default ∅ (tg !! tgt) ∧ ¬ (m = n ∧ tgt = tp_target old).
Proof.
  unfold untarget. destruct (tg !! tp_target old) as [o|] eqn:E.
  - destruct (decide (tp_target old = tgt)) as [<-|Hne].
    + rewrite lookup_insert_eq, E. set_solver.
    + rewrite lookup_insert_ne by done. set_solver.
  - destruct (decide (tp_target old = tgt)) as [<-|Hne]; [rewrite E|]; set_solver.
Qed.

Lemma insert_policy_spec s pol :
  policies_wf s →
  policies_wf (insert_policy s pol) ∧
  policies_by_name (insert_policy s pol) = <[tp_name pol := pol]> (policies_by_name s).
Proof.
  intros [Hname Hidx]. split; [|done]. split; simpl.
  - intros n p [[<- <-]|[_ ?]]%lookup_insert_Some; [done|by apply Hname].
  - intros tgt n.
    set (tg := match policies_by_name s !! tp_name pol with Some _ => _ | None => _ end).
    assert (∀ tgt n, n ∈ default ∅ (tg !! tgt) ↔
      n ≠ tp_name pol ∧ ∃ p, policies_by_name s !! n = Some p ∧ tp_target p = tgt) as Htg.
    { intros tgt' m. unfold tg. destruct (policies_by_name s !! tp_name pol) as [old|] eqn:Hold.
      - rewrite untarget_lookup, Hidx. naive_solver.
      - rewrite Hidx. naive_solver. }
    rewrite lookup_insert. case_decide as Ht; simpl.
    + subst tgt. rewrite elem_of_union, elem_of_singleton, Htg. setoid_rewrite lookup_insert_Some.
      split; [naive_solver|]. intros (p & [[? ?]|[? ?]] & ?); [by left|right; naive_solver].
    + rewrite Htg. setoid_rewrite lookup_insert_Some. naive_solver.
Qed.

Lemma remove_policy_spec s n :
  policies_wf s →
  policies_wf (remove_policy s n) ∧ policies_by_name (remove_policy s n) = delete n (policies_by_name s).
Proof.
  intros [Hname Hidx]. unfold remove_policy.
  destruct (policies_by_name s !! n) as [old|] eqn:Hold; [|by rewrite delete_id].
  split; [|done]. split; simpl.
  - intros m p [_ ?]%lookup_delete_Some. by apply Hname.
  - intros tgt m. rewrite untarget_lookup, Hidx. setoid_rewrite lookup_delete_Some. naive_solver.
Qed.

(** ** Precedence *)

Section lookup.
Context `{!HashIter string TargetedPolicy, !SetIter string}.

(** A policy of the store with the target, of the kind that [sel] selects. *)
Definition applies {A} (s : t) (sel : Policy → option A) (tgt : PolicyTarget) (a : A) : Prop :=
  ∃ n p, policies_by_name s !! n = Some p ∧ tp_target p = tgt ∧ sel (tp_policy p) = Some a.

(** [o] is a policy of the first target that has one. *)
Fixpoint first_of {A} (s : t) (sel : Policy → option A) (tgts : list PolicyTarget) (o : option A) : Prop :=
  match tgts with
  | [] => o = None
  | tgt :: tgts =>
    match o with
    | Some a => applies s sel tgt a ∨ (∀ b, ¬ applies s sel tgt b) ∧ first_of s sel tgts o
    | None => (∀ b, ¬ applies s sel tgt b) ∧ first_of s sel tgts o
    end
  end.

Lemma elem_of_policies_of s tgt p :
  policies_wf s → p ∈ policies_of s tgt ↔ policies_by_name s !! tp_name p = Some p ∧ tp_target p = tgt.
Proof.
  intros [Hname Hidx]. unfold policies_of. rewrite list_elem_of_omap.
  setoid_rewrite elem_of_hs_iter. setoid_rewrite Hidx. split.
  - intros (n & (p' & Hp' & Ht) & Hp). assert (p' = p) as -> by congruence.
    by rewrite (Hname _ _ Hp).
  - intros [Hp Ht]. exists (tp_name p). eauto.
Qed.

Lemma find_map_applies {A} (sel : Policy → option A) s tgt :
  policies_wf s →
  match find_map (λ p, sel (tp_policy p)) (policies_of s tgt) with
  | Some a => applies s sel tgt a
  | None => ∀ b, ¬ applies s sel tgt b
  end.
Proof.
  intros Hwf. destruct (find_map _ _) as [a|] eqn:E.
  - apply find_map_Some in E as (l1 & p & l2 & E & Hs & _).
    assert (p ∈ policies_of s tgt) as Hp by (rewrite E; set_solver).
    apply elem_of_policies_of in Hp as [? ?]; [|done]. by exists (tp_name p), p.
  - intros b (n & p & Hp & Ht & Hs). rewrite find_map_None in E. specialize (E p).
    rewrite Hs in E. enough (Some b = None) by done. apply E.
    apply elem_of_policies_of; [done|]. by rewrite (pwf_name s Hwf _ _ Hp).
Qed.

Lemma find_map_first_of {A} (sel : Policy → option A) s tgts :
  policies_wf s →
  first_of s sel tgts (find_map (λ p, sel (tp_policy p)) (concat (policies_of s <$> tgts))).
Proof.
  intros Hwf. induction tgts as [|tgt tgts IH]; csimpl; [done|].
  pose proof (find_map_applies sel s tgt Hwf) as H. rewrite find_map_app.
  destruct (find_map _ (policies_of s tgt)) as [a|]; [by left|].
  destruct (find_map _ (concat _)) as [a|]; [right|]; done.
Qed.

Lemma attached_spec {A} (sel : Policy → option A) s tgt :
  match attached s tgt sel with
  | Some a => applies s sel tgt a
  | None => ∀ b, ¬ applies s sel tgt b
  end.
Proof.
  unfold attached. destruct (find_map _ _) as [a|] eqn:E.
  - apply find_map_Some in E as (l1 & p & l2 & E & Hs & _).
    destruct (decide (tp_target p = tgt)) as [Ht|Ht]; [|by rewrite decide_True in Hs].
    rewrite decide_False in Hs by tauto.
    assert (p ∈ hm_values (policies_by_name s)) as Hp by (rewrite E; set_solver).
    apply elem_of_hm_values in Hp as [n Hn]. exists n, p. done.
  - intros b (n & p & Hp & Ht & Hs). rewrite find_map_None in E. specialize (E p).
    rewrite decide_False, Hs in E by tauto. enough (Some b = None) by done. apply E.
    apply elem_of_hm_values. by exists n.
Qed.
End lookup.

(** * Theorems *)

(** The operations on policies, from the empty store. *)
Inductive PolicyOp := OpInsert (p : TargetedPolicy) | OpRemove (n : string).

Definition apply_op (s : t) (op : PolicyOp) : t :=
  match op with OpInsert p => insert_policy s p | OpRemove n => remove_policy s n end.

Lemma apply_ops_wf ops s : policies_wf s → policies_wf (foldl apply_op s ops).
Proof.
  revert s. induction ops as [|[p|n] ops IH]; intros s Hs; simpl; [done| |];
    apply IH; [by apply insert_policy_spec|by apply remove_policy_spec].
Qed.

(** C6: after any sequence of policy insertions and removals the index by target
    lists exactly the stored policies with that target, a changed target included,
    and the table by name holds the last version of each. *)
Theorem policy_index ops :
  let s := foldl apply_op new ops in
  (∀ tgt n, n ∈ default ∅ (policies_by_target s !! tgt) ↔
     ∃ p, policies_by_name s !! n = Some p ∧ tp_target p = tgt) ∧
  (∀ p, policies_by_name (insert_policy s p) = <[tp_name p := p]> (policies_by_name s)) ∧
  (∀ n, policies_by_name (remove_policy s n) = delete n (policies_by_name s)).
Proof.
  intros s. assert (policies_wf s) as Hwf by apply apply_ops_wf, policies_wf_new.
  split_and!; [apply Hwf|done|]. intros n. by apply remove_policy_spec.
Qed.

(** The policies of a route: for each kind, whatever the iteration orders, the
    policy used is one that targets the route rule if there is any, otherwise one
    that targets the route, otherwise one that targets the gateway, and none is
    used only if none of the three has one. *)
Theorem route_policies_precedence `{!HashIter string TargetedPolicy, !SetIter string}
    s route_rule route gateway :
  policies_wf s →
  let rp := route_policies s route_rule route gateway in
  let tgts := [PTRouteRule route_rule; PTRoute route; PTGateway gateway] in
  (∃ o, rp_local_rate_limit rp = default [] o ∧
    first_of s (λ p, match p with PLocalRateLimit x => Some x | _ => None end) tgts o) ∧
  first_of s (λ p, match p with PRemoteRateLimit x => Some x | _ => None end) tgts (rp_remote_rate_limit rp) ∧
  first_of s (λ p, match p with PJwtAuth x => Some x | _ => None end) tgts (rp_jwt rp) ∧
  first_of s (λ p, match p with PExtAuthz x => Some x | _ => None end) tgts (rp_ext_authz rp) ∧
  first_of s (λ p, match p with PTransformation x => Some x | _ => None end) tgts (rp_transformation rp).
Proof.
  intros Hwf rp tgts.
  assert (policies_of s (PTRouteRule route_rule) ++ policies_of s (PTRoute route) ++
    policies_of s (PTGateway gateway) = concat (policies_of s <$> tgts)) as E
    by (by unfold tgts; csimpl; rewrite app_nil_r).
  unfold rp, route_policies. rewrite E. cbn. split_and!.
  - eexists. split; [done|].
    apply (find_map_first_of (λ p, match p with PLocalRateLimit x => Some x | _ => None end) s tgts Hwf).
  - apply (find_map_first_of (λ p, match p with PRemoteRateLimit x => Some x | _ => None end) s tgts Hwf).
  - apply (find_map_first_of (λ p, match p with PJwtAuth x => Some x | _ => None end) s tgts Hwf).
  - apply (find_map_first_of (λ p, match p with PExtAuthz x => Some x | _ => None end) s tgts Hwf).
  - apply (find_map_first_of (λ p, match p with PTransformation x => Some x | _ => None end) s tgts Hwf).
Qed.

Definition example_policy (n : string) (tgt : PolicyTarget) (j : gmap string Handle) : TargetedPolicy :=
  {| tp_name := n; tp_target := tgt; tp_policy := PJwtAuth {| jwt_keys := j |} |}.

Definition example_policies : t :=
  foldl apply_op new
    [OpInsert (example_policy "a" (PTGateway "gw") {[ "k" := 1%N ]});
     OpInsert (example_policy "b" (PTRoute "r") {[ "k" := 2%N ]})].

Lemma route_policies_precedence_witness :
  let _ : HashIter string TargetedPolicy := hm_iter_default in
  let _ : SetIter string := hs_iter_default in
  rp_jwt (route_policies example_policies "rule" "r" "gw") = Some {| jwt_keys := {[ "k" := 2%N ]} |} ∧
  first_of example_policies (λ p, match p with PJwtAuth x => Some x | _ => None end)
    [PTRouteRule "rule"; PTRoute "r"; PTGateway "gw"] (rp_jwt (route_policies example_policies "rule" "r" "gw")).
Proof.
  intros hi si. split; [vm_compute; reflexivity|].
  apply (route_policies_precedence example_policies "rule" "r" "gw").
  apply apply_ops_wf, policies_wf_new.
Defined.

(** The policies of a backend: a kind is set exactly when some stored policy of
    that kind targets it, and then to one of them; merging two sets of backend
    policies keeps, kind by kind, the value of the second where it has one. *)
Theorem backend_policies_spec `{!HashIter string TargetedPolicy} s tgt a b :
  (let bp := backend_policies s tgt in
   first_of s (λ p, match p with PBackendTLS x => Some x | _ => None end) [tgt] (bp_backend_tls bp) ∧
   first_of s (λ p, match p with PBackendAuth x => Some x | _ => None end) [tgt] (bp_backend_auth bp) ∧
   first_of s (λ p, match p with PA2a x => Some x | _ => None end) [tgt] (bp_a2a bp) ∧
   first_of s (λ p, match p with PAI x => Some x | _ => None end) [tgt] (bp_llm bp)) ∧
  (let mp := BackendPolicies_merge a b in
   (is_Some (bp_backend_auth b) → bp_backend_auth mp = bp_backend_auth b) ∧
   (bp_backend_auth b = None → bp_backend_auth mp = bp_backend_auth a) ∧
   (is_Some (bp_llm b) → bp_llm mp = bp_llm b) ∧ (bp_llm b = None → bp_llm mp = bp_llm a)).
Proof.
  split.
  - cbn. split_and!.
    + pose proof (attached_spec (λ p, match p with PBackendTLS x => Some x | _ => None end) s tgt) as H.
      destruct (attached _ _ _); [by left|done].
    + pose proof (attached_spec (λ p, match p with PBackendAuth x => Some x | _ => None end) s tgt) as H.
      destruct (attached _ _ _); [by left|done].
    + pose proof (attached_spec (λ p, match p with PA2a x => Some x | _ => None end) s tgt) as H.
      destruct (attached _ _ _); [by left|done].
    + pose proof (attached_spec (λ p, match p with PAI x => Some x | _ => None end) s tgt) as H.
      destruct (attached _ _ _); [by left|done].
  - cbn. split_and!; [intros [x ->]|intros ->|intros [x ->]|intros ->]; done.
Qed.
