(* ===== verification/BindStaging.v ===== *)
(** BindStaging: binds, listeners and routes may arrive in any order: a listener
    waits for its bind and a route for its listener, and the result does not depend
    on the order of arrival. The removal of something that still waits, and an
    update of a listener that still waits, are not handled. *)
From S2P Require Import Prelude Strs DiscoveryTypes AgentTypes RouteSet Routing BindStore.
Import BindStore.

Lemma perm_three {A} (x y z : A) l :
  l ≡ₚ [x; y; z] →
  l = [x; y; z] ∨ l = [y; x; z] ∨ l = [y; z; x] ∨ l = [x; z; y] ∨ l = [z; x; y] ∨ l = [z; y; x].
Proof.
  intros H. symmetry in H. apply permutations_Permutation in H.
  assert (permutations [x; y; z] =
    [[x; y; z]; [y; x; z]; [y; z; x]; [x; z; y]; [z; x; y]; [z; y; x]]) as E by reflexivity.
  rewrite E in H.
  rewrite !elem_of_cons, elem_of_nil in H. tauto.
Qed.

Section staging.
Context `{!HashIter string Bind, !HashIter string Listener, !HashIter string Route}.

(** The tables that route requests. *)
Definition core (s : t) : gmap string Bind * gmap string (gmap string Listener) * gmap string (gmap string Route) :=
  (by_name s, staged_listeners s, staged_routes s).

Lemma with_routes_id l : with_routes l (l_routes l) = l.
Proof. by destruct l. Qed.

Lemma take_none (sr : gmap string (gmap string Route)) k lis :
  sr !! k = None → take_staged_routes sr k lis = Ret (sr, lis).
Proof.
  intros E. unfold take_staged_routes, hm_values. rewrite E. simpl.
  rewrite hm_iter_empty. simpl. by rewrite delete_id, with_routes_id.
Qed.

Lemma take_one (sr : gmap string (gmap string Route)) k lis rk r rs :
  sr !! k = Some {[rk := r]} → RouteSet.insert (l_routes lis) r = Ret rs →
  take_staged_routes sr k lis = Ret (delete k sr, with_routes lis rs).
Proof.
  intros E Hr. unfold take_staged_routes, hm_values. rewrite E. simpl.
  rewrite hm_iter_singleton. simpl. by rewrite Hr.
Qed.

Lemma insert_bind_none s b :
  staged_listeners s !! b_key b = None →
  ∃ s', insert_bind s b = Ret s' ∧
    core s' = (<[b_key b := b]> (by_name s), staged_listeners s, staged_routes s).
Proof.
  intros E. unfold insert_bind. rewrite E. simpl. rewrite hm_iter_empty. simpl.
  eexists. split; [done|]. unfold core. simpl. by rewrite delete_id.
Qed.

Lemma insert_bind_one s b lk l sr l' :
  staged_listeners s !! b_key b = Some {[lk := l]} →
  take_staged_routes (staged_routes s) lk l = Ret (sr, l') →
  ∃ s', insert_bind s b = Ret s' ∧
    core s' = (<[b_key b := with_listeners b (ListenerSet.insert (b_listeners b) l')]> (by_name s),
               delete (b_key b) (staged_listeners s), sr).
Proof.
  intros E Ht. unfold insert_bind. rewrite E. simpl. rewrite hm_iter_singleton. simpl. rewrite Ht. simpl.
  eexists. split; [done|]. done.
Qed.

Lemma find_listener_none (m : gmap string Bind) ln :
  (∀ k b, m !! k = Some b → b_listeners b !! ln = None) →
  find_map (λ b, (λ ls, (b, ls)) <$> ListenerSet.get (b_listeners b) ln) (hm_values m) = None.
Proof.
  intros H. apply find_map_None. intros b [k Hk]%elem_of_hm_values. unfold ListenerSet.get.
  by rewrite (H k b Hk).
Qed.

Lemma find_listener_one (m : gmap string Bind) bk b ln lis :
  (∀ k b, m !! k = Some b → b_listeners b !! ln = None) → b_listeners b !! ln = Some lis →
  find_map (λ b, (λ ls, (b, ls)) <$> ListenerSet.get (b_listeners b) ln) (hm_values (<[bk := b]> m)) =
  Some (b, lis).
Proof.
  intros H Hb. destruct (find_map _ _) as [[b' l']|] eqn:E.
  - apply find_map_Some in E as (l1 & x & l2 & E & Hx & _).
    assert (x ∈ hm_values (<[bk := b]> m)) as Hin by (rewrite E; set_solver).
    apply elem_of_hm_values in Hin as [k [[<- <-]|[_ Hk]]%lookup_insert_Some].
    + unfold ListenerSet.get in Hx. rewrite Hb in Hx. simpl in Hx. by simplify_eq.
    + unfold ListenerSet.get in Hx. by rewrite (H k x Hk) in Hx.
  - rewrite find_map_None in E. specialize (E b).
    unfold ListenerSet.get in E. rewrite Hb in E. enough (Some (b, lis) = None) by done. apply E.
    apply elem_of_hm_values. exists bk. by rewrite lookup_insert_eq.
Qed.

(** ** Each arrival *)

Lemma listener_arrives_bound s l b sr l' :
  by_name s !! b_key b = Some b → staged_listeners s !! b_key b = None →
  b_listeners b !! l_key l = None →
  take_staged_routes (staged_routes s) (l_key l) l = Ret (sr, l') →
  ∃ s', insert_listener s l (b_key b) = Ret s' ∧
    core s' = (<[b_key b := with_listeners b (<[l_key l' := l']> (b_listeners b))]> (by_name s),
               staged_listeners s, sr).
Proof.
  intros Hb Hst Hl Ht. unfold insert_listener, ListenerSet.remove. rewrite Hb, Hl, Ht, comp_bind_ret_l.
  change (delete (l_key l) (b_listeners b)) with (delete (l_key l) (b_listeners b : gmap string Listener)).
  rewrite delete_id by done.
  destruct (insert_bind_none (set_staged s (staged_listeners s) sr)
    (with_listeners b (ListenerSet.insert (b_listeners b) l'))) as (s' & Hs' & Hcore); [done|].
  exists s'. by rewrite Hs', Hcore.
Qed.

Lemma listener_arrives_unbound s l bk sr l' :
  by_name s !! bk = None → staged_listeners s !! bk = None →
  take_staged_routes (staged_routes s) (l_key l) l = Ret (sr, l') →
  ∃ s', insert_listener s l bk = Ret s' ∧
    core s' = (by_name s, <[bk := {[l_key l' := l']}]> (staged_listeners s), sr).
Proof.
  intros Hb Hst Ht. unfold insert_listener. rewrite Hb, Ht. simpl. rewrite Hst. simpl.
  eexists. split; [done|]. done.
Qed.

Lemma route_arrives_unbound s r ln :
  (∀ k b, by_name s !! k = Some b → b_listeners b !! ln = None) → staged_routes s !! ln = None →
  ∃ s', insert_route s r ln = Ret s' ∧
    core s' = (by_name s, staged_listeners s, <[ln := {[route_key r := r]}]> (staged_routes s)).
Proof.
  intros Hb Hst. unfold insert_route. rewrite find_listener_none, Hst by done. simpl.
  eexists. split; [done|]. done.
Qed.

Lemma route_arrives_bound s r ln m b lis rs :
  by_name s = <[b_key b := b]> m → staged_listeners s !! b_key b = None →
  (∀ k b, m !! k = Some b → b_listeners b !! ln = None) → b_listeners b !! ln = Some lis →
  RouteSet.insert (l_routes lis) r = Ret rs →
  ∃ s', insert_route s r ln = Ret s' ∧
    core s' = (<[b_key b := with_listeners b (<[l_key lis := with_routes lis rs]> (b_listeners b))]> m,
               staged_listeners s, staged_routes s).
Proof.
  intros Hbn Hst Hm Hl Hr. unfold insert_route. rewrite Hbn.
  rewrite (find_listener_one m (b_key b) b ln lis) by done. rewrite Hr. simpl.
  destruct (insert_bind_none s (with_listeners b (ListenerSet.insert (b_listeners b) (with_routes lis rs))))
    as (s' & Hs' & Hcore); [done|]. exists s'. split; [done|]. rewrite Hcore, Hbn. unfold ListenerSet.insert.
  simpl. by rewrite insert_insert_eq.
Qed.

(** * Theorems *)

Inductive Arrival := ABind (b : Bind) | AListener (l : Listener) (bind : string) | ARoute (r : Route) (ln : string).

Definition arrive (s : t) (a : Arrival) : comp t :=
  match a with
  | ABind b => insert_bind s b
  | AListener l bind => insert_listener s l bind
  | ARoute r ln => insert_route s r ln
  end.

(** The tables after all three have arrived. *)
Definition arrived (s : t) (b : Bind) (l : Listener) (rs : RouteSet.t) (s' : t) : Prop :=
  by_name s' = <[b_key b := with_listeners b {[l_key l := with_routes l rs]}]> (by_name s) ∧
  staged_listeners s' = staged_listeners s ∧ staged_routes s' = staged_routes s.

Section arrival.
Context (s : t) (b : Bind) (l : Listener) (r : Route) (rs : RouteSet.t).
Context (Hb : by_name s !! b_key b = None).
Context (Hl : ∀ k b', by_name s !! k = Some b' → b_listeners b' !! l_key l = None).
Context (Hsl : staged_listeners s !! b_key b = None).
Context (Hsr : staged_routes s !! l_key l = None).
Context (Hempty : b_listeners b = ∅).
Context (Hr : RouteSet.insert (l_routes l) r = Ret rs).

Abbreviation bound x := (<[b_key b := with_listeners b x]> (by_name s)).

Lemma with_no_listeners : with_listeners b ∅ = b.
Proof. destruct b; simpl in *; by subst. Qed.

Lemma unbound_after_bind k b' :
  <[b_key b := b]> (by_name s) !! k = Some b' → b_listeners b' !! l_key l = None.
Proof. intros [[_ <-]|[_ ?]]%lookup_insert_Some; [by rewrite Hempty|by eapply Hl]. Qed.

(** The last step of the orders that end with the route, the listener, the bind. *)
Lemma last_route s1 :
  core s1 = (bound {[l_key l := l]}, staged_listeners s, staged_routes s) →
  ∃ s', insert_route s1 r (l_key l) = Ret s' ∧ arrived s b l rs s'.
Proof.
  intros [= E1 E2 E3].
  destruct (route_arrives_bound s1 r (l_key l) (by_name s) (with_listeners b {[l_key l := l]}) l rs)
    as (s' & Hs' & [= H1 H2 H3]); [done|by rewrite E2|done|by apply lookup_singleton_eq|done|].
  exists s'. split; [done|]. unfold arrived. rewrite H1, H2, H3, E2, E3. simpl.
  split_and!; [|done..]. unfold with_listeners. simpl. do 2 f_equal. apply insert_singleton_eq.
Qed.

Lemma last_listener s1 :
  core s1 = (<[b_key b := b]> (by_name s), staged_listeners s,
             <[l_key l := {[route_key r := r]}]> (staged_routes s)) →
  ∃ s', insert_listener s1 l (b_key b) = Ret s' ∧ arrived s b l rs s'.
Proof.
  intros [= E1 E2 E3].
  destruct (listener_arrives_bound s1 l b (delete (l_key l) (staged_routes s1)) (with_routes l rs))
    as (s' & Hs' & [= H1 H2 H3]).
  - by rewrite E1, lookup_insert_eq.
  - by rewrite E2.
  - by rewrite Hempty.
  - apply (take_one _ _ _ (route_key r) r); [by rewrite E3, lookup_insert_eq|done].
  - exists s'. split; [done|]. unfold arrived. rewrite H1, H2, H3, E1, E2, E3, Hempty. simpl.
    rewrite insert_insert_eq, delete_insert_id by done. done.
Qed.

Lemma last_bind s1 l' sr :
  by_name s1 = by_name s → staged_listeners s1 = <[b_key b := {[l_key l := l']}]> (staged_listeners s) →
  take_staged_routes (staged_routes s1) (l_key l) l' = Ret (sr, with_routes l rs) → sr = staged_routes s →
  ∃ s', insert_bind s1 b = Ret s' ∧ arrived s b l rs s'.
Proof.
  intros E1 E2 Ht ->.
  destruct (insert_bind_one s1 b (l_key l) l' (staged_routes s) (with_routes l rs))
    as (s' & Hs' & [= H1 H2 H3]); [by rewrite E2, lookup_insert_eq|done|].
  exists s'. split; [done|]. unfold arrived. rewrite H1, H2, H3, E1, E2, delete_insert_id, Hempty by done.
  done.
Qed.

Abbreviation aB := (ABind b).
Abbreviation aL := (AListener l (b_key b)).
Abbreviation aR := (ARoute r (l_key l)).

Lemma run_three x y z s1 s2 :
  arrive s x = Ret s1 → arrive s1 y = Ret s2 →
  (∃ s', arrive s2 z = Ret s' ∧ arrived s b l rs s') →
  ∃ s', foldM arrive [x; y; z] s = Ret s' ∧ arrived s b l rs s'.
Proof.
  intros E1 E2 (s3 & E3 & H). exists s3. split; [|done]. simpl.
  rewrite E1. simpl. rewrite E2. simpl. by rewrite E3.
Qed.

Lemma order_BLR : ∃ s', foldM arrive [aB; aL; aR] s = Ret s' ∧ arrived s b l rs s'.
Proof.
  destruct (insert_bind_none s b Hsl) as (s1 & H1 & [= A1 A2 A3]).
  destruct (listener_arrives_bound s1 l b (staged_routes s1) l) as (s2 & H2 & [= B1 B2 B3]).
  { by rewrite A1, lookup_insert_eq. } { by rewrite A2. } { by rewrite Hempty. }
  { apply take_none. by rewrite A3. }
  apply (run_three _ _ _ s1 s2); [done|done|]. apply last_route. unfold core.
  rewrite B1, B2, B3, A1, A2, A3, Hempty. by rewrite insert_insert_eq.
Qed.

Lemma order_BRL : ∃ s', foldM arrive [aB; aR; aL] s = Ret s' ∧ arrived s b l rs s'.
Proof.
  destruct (insert_bind_none s b Hsl) as (s1 & H1 & [= A1 A2 A3]).
  destruct (route_arrives_unbound s1 r (l_key l)) as (s2 & H2 & [= B1 B2 B3]).
  { rewrite A1. apply unbound_after_bind. } { by rewrite A3. }
  apply (run_three _ _ _ s1 s2); [done|done|]. apply last_listener. unfold core.
  by rewrite B1, B2, B3, A1, A2, A3.
Qed.

Lemma order_LBR : ∃ s', foldM arrive [aL; aB; aR] s = Ret s' ∧ arrived s b l rs s'.
Proof.
  destruct (listener_arrives_unbound s l (b_key b) (staged_routes s) l) as (s1 & H1 & [= A1 A2 A3]);
    [done|done|by apply take_none|].
  destruct (insert_bind_one s1 b (l_key l) l (staged_routes s1) l) as (s2 & H2 & [= B1 B2 B3]).
  { by rewrite A2, lookup_insert_eq. } { apply take_none. by rewrite A3. }
  apply (run_three _ _ _ s1 s2); [done|done|]. apply last_route. unfold core.
  by rewrite B1, B2, B3, A1, A2, A3, Hempty, delete_insert_id.
Qed.

Lemma order_LRB : ∃ s', foldM arrive [aL; aR; aB] s = Ret s' ∧ arrived s b l rs s'.
Proof.
  destruct (listener_arrives_unbound s l (b_key b) (staged_routes s) l) as (s1 & H1 & [= A1 A2 A3]);
    [done|done|by apply take_none|].
  destruct (route_arrives_unbound s1 r (l_key l)) as (s2 & H2 & [= B1 B2 B3]).
  { by rewrite A1. } { by rewrite A3. }
  apply (run_three _ _ _ s1 s2); [done|done|].
  apply (last_bind s2 l (delete (l_key l) (staged_routes s2))).
  - congruence.
  - congruence.
  - apply (take_one _ _ _ (route_key r) r); [by rewrite B3, lookup_insert_eq|done].
  - by rewrite B3, A3, delete_insert_id.
Qed.

Lemma order_RBL : ∃ s', foldM arrive [aR; aB; aL] s = Ret s' ∧ arrived s b l rs s'.
Proof.
  destruct (route_arrives_unbound s r (l_key l)) as (s1 & H1 & [= A1 A2 A3]); [done|done|].
  destruct (insert_bind_none s1 b) as (s2 & H2 & [= B1 B2 B3]); [by rewrite A2|].
  apply (run_three _ _ _ s1 s2); [done|done|]. apply last_listener. unfold core.
  by rewrite B1, B2, B3, A1, A2, A3.
Qed.

Lemma order_RLB : ∃ s', foldM arrive [aR; aL; aB] s = Ret s' ∧ arrived s b l rs s'.
Proof.
  destruct (route_arrives_unbound s r (l_key l)) as (s1 & H1 & [= A1 A2 A3]); [done|done|].
  destruct (listener_arrives_unbound s1 l (b_key b) (delete (l_key l) (staged_routes s1)) (with_routes l rs))
    as (s2 & H2 & [= B1 B2 B3]).
  { by rewrite A1. } { by rewrite A2. }
  { apply (take_one _ _ _ (route_key r) r); [by rewrite A3, lookup_insert_eq|done]. }
  assert (staged_routes s2 = staged_routes s) as E by (by rewrite B3, A3, delete_insert_id).
  apply (run_three _ _ _ s1 s2); [done|done|].
  apply (last_bind s2 (with_routes l rs) (staged_routes s)); [congruence| | |done].
  - rewrite B2, A2. done.
  - rewrite E. by apply take_none.
Qed.

Lemma arrival_orders order :
  order ≡ₚ [aB; aL; aR] → ∃ s', foldM arrive order s = Ret s' ∧ arrived s b l rs s'.
Proof.
  intros [->|[->|[->|[->|[->| ->]]]]]%perm_three;
    eauto using order_BLR, order_BRL, order_LBR, order_LRB, order_RBL, order_RLB.
Qed.
End arrival.

(** C32: a new bind, its listener and a route of the listener can arrive in any
    order: each of the six orders leads, without a panic, to the same tables, in
    which the bind holds the listener with the route, and nothing stays staged. *)
Theorem arrival_order s b l r rs order :
  by_name s !! b_key b = None →
  (∀ k b', by_name s !! k = Some b' → b_listeners b' !! l_key l = None) →
  staged_listeners s !! b_key b = None → staged_routes s !! l_key l = None →
  b_listeners b = ∅ → RouteSet.insert (l_routes l) r = Ret rs →
  order ≡ₚ [ABind b; AListener l (b_key b); ARoute r (l_key l)] →
  ∃ s', foldM arrive order s = Ret s' ∧
    by_name s' = <[b_key b := with_listeners b {[l_key l := with_routes l rs]}]> (by_name s) ∧
    staged_listeners s' = staged_listeners s ∧ staged_routes s' = staged_routes s.
Proof. intros. by eapply arrival_orders. Qed.

Lemma find_contains_none (m : gmap string Bind) k :
  (∀ n b, m !! n = Some b → b_listeners b !! k = None) →
  find (λ v, ListenerSet.contains (b_listeners v) k) (hm_values m) = None.
Proof.
  intros H. apply find_None. intros b [n Hn]%elem_of_hm_values. unfold ListenerSet.contains.
  by rewrite (H n b Hn).
Qed.

(** Removing a listener that is still staged for its bind, or a route that is
    still staged for its listener, changes nothing: it comes into force when the
    bind arrives. *)
Theorem remove_staged_ignored s listener route :
  (∀ n b, by_name s !! n = Some b → b_listeners b !! listener = None) →
  (∀ n b k l, by_name s !! n = Some b → b_listeners b !! k = Some l →
     RouteSet.all (l_routes l) !! route = None) →
  remove_listener s listener = Ret s ∧ remove_route s route = Ret s.
Proof.
  intros Hl Hr. split.
  - unfold remove_listener. by rewrite find_contains_none.
  - unfold remove_route. rewrite (proj2 (find_map_None _ _)); [done|].
    intros b [n Hn]%elem_of_hm_values. rewrite (proj2 (find_None _ _)); [done|].
    intros l [k Hk]%elem_of_hm_values. unfold RouteSet.contains. by rewrite (Hr n b k l Hn Hk).
Qed.
End staging.

(** ** Examples *)

Section examples.
#[local] Existing Instance hm_iter_default.

Definition example_bind : Bind :=
  {| b_key := "b"; b_address := example_dst; b_listeners := ∅ |}.

Definition lis : Listener := example_listener LPHTTP RouteSet.default_set.
Definition rt : Route := example_route "r" [] ["/"].

(** The routes of the listener of the bind, by key. *)
Definition served_routes (c : comp t) : option (list string) :=
  match c with
  | Ret s => b ← by_name s !! "b"; l ← b_listeners b !! "l"; Some (map_to_list (RouteSet.all (l_routes l))).*1
  | Panic => None
  end.

Lemma arrival_order_witness :
  ∃ s', foldM arrive [ARoute rt "l"; AListener lis "b"; ABind example_bind] new = Ret s' ∧
    served_routes (Ret s') = Some ["r"].
Proof.
  destruct (RouteSet.insert RouteSet.default_set rt) as [rs|] eqn:E; [|vm_compute in E; discriminate E].
  destruct (arrival_order new example_bind lis rt rs
    [ARoute rt "l"; AListener lis "b"; ABind example_bind]) as (s' & H & Hb & _ & _).
  - reflexivity.
  - intros k b'. discriminate.
  - reflexivity.
  - reflexivity.
  - reflexivity.
  - exact E.
  - apply (Permutation_rev [ARoute rt "l"; AListener lis "b"; ABind example_bind]).
  - exists s'. split; [exact H|]. unfold served_routes. rewrite Hb. vm_compute in E. injection E as <-.
    vm_compute. reflexivity.
Defined.

(** The listener [l] is removed before its bind arrives, and is served afterwards. *)
Lemma remove_staged_ignored_witness :
  ∃ s, insert_listener new lis "b" = Ret s ∧ remove_listener s "l" = Ret s ∧
    match insert_bind s example_bind with
    | Ret s => is_Some (by_name s !! "b" ≫= λ b, b_listeners b !! "l")
    | Panic => False
    end.
Proof.
  eexists. split; [vm_compute; reflexivity|]. split.
  - match goal with |- remove_listener ?s _ = _ =>
      apply (remove_staged_ignored s "l" "r"); [intros n b; discriminate|intros n b k l; discriminate]
    end.
  - vm_compute. eauto.
Defined.

(** A listener that waits for its bind has taken over the routes staged for it;
    when it is updated while it still waits, the new version replaces it and the
    routes are lost, whereas an update after the bind arrived keeps them. *)
Theorem staged_listener_update_loses_routes :
  served_routes (foldM arrive [ARoute rt "l"; AListener lis "b"; AListener lis "b"; ABind example_bind] new)
    = Some [] ∧
  served_routes (foldM arrive [ARoute rt "l"; AListener lis "b"; ABind example_bind; AListener lis "b"] new)
    = Some ["r"].
Proof. vm_compute. done. Qed.
End examples.
