(* ===== verification/BindEvents.v ===== *)
(** BindEvents: the events of the bind store ([store/binds.rs]) say exactly how its binds
    change, whichever source changes them: who replays them has the binds. *)
From S2P Require Import Prelude Strs Xds DiscoveryTypes AgentTypes AgentXds RouteSet Routing BindStore.

Import BindStore.

(** * The events of the store *)

(** What an event says about the binds. *)
Definition replay (m : gmap string Bind) (e : Event) : gmap string Bind :=
  match e with
  | EventAdd b => <[b_key b := b]> m
  | EventRemove b => delete (b_key b) m
  end.

Definition keys_ok (m : gmap string Bind) : Prop := ∀ k b, m !! k = Some b → b_key b = k.

(** Between two states of the store [evs] was sent. *)
Record published (s s' : t) (evs : list Event) : Prop := {
  pub_tx : tx s' = tx s ++ evs;
  pub_binds : by_name s' = foldl replay (by_name s) evs
}.

Lemma replay_keys_ok m e : keys_ok m → keys_ok (replay m e).
Proof.
  intros Hm k b. destruct e as [b'|b']; simpl.
  - rewrite lookup_insert. case_decide; [by intros [= <-]|apply Hm].
  - intros [_ Hb]%lookup_delete_Some. by apply Hm.
Qed.

Lemma published_keys_ok s s' evs : published s s' evs → keys_ok (by_name s) → keys_ok (by_name s').
Proof.
  intros [_ ->]. generalize (by_name s). induction evs as [|e evs IH]; intros m Hm; [done|].
  apply IH. by apply replay_keys_ok.
Qed.

Lemma published_refl s : published s s [].
Proof. split; [by rewrite app_nil_r|done]. Qed.
Lemma published_trans s1 s2 s3 l1 l2 : published s1 s2 l1 → published s2 s3 l2 → published s1 s3 (l1 ++ l2).
Proof. intros [H1 H2] [H3 H4]. split; [by rewrite H3, H1, app_assoc|by rewrite foldl_app, <-H2]. Qed.
(** What keeps the binds and the channel. *)
Lemma published_same s1 s1' s2 evs : by_name s1' = by_name s1 → tx s1' = tx s1 → published s1' s2 evs → published s1 s2 evs.
Proof. intros Hb Ht [H1 H2]. split; [by rewrite H1, Ht|by rewrite H2, Hb]. Qed.

Section store.
Context `{!HashIter string Bind, !HashIter string Listener, !HashIter string Route}.
Context `{!HashIter string TargetedPolicy, !SetIter string, !Crates}.
Context (error_text : StoreError → string).

Lemma add_staged_keeps l sr b sr' b' :
  foldM add_staged_listener l (sr, b) = Ret (sr', b') → b_key b' = b_key b ∧ b_address b' = b_address b.
Proof.
  revert sr b. induction l as [|[k v] l IH]; intros sr b; simpl; [by intros [= <- <-]|].
  unfold add_staged_listener at 1. destruct (take_staged_routes sr k v) as [[sr1 v1]|]; [|done]. simpl.
  intros [H1 H2]%IH. done.
Qed.

(** The event has the bind as it is stored, with its key and its address. *)
Lemma insert_bind_published s b s' :
  insert_bind s b = Ret s' →
  ∃ b', published s s' [EventAdd b'] ∧ b_key b' = b_key b ∧ b_address b' = b_address b.
Proof.
  unfold insert_bind. destruct (foldM _ _ _) as [[sr b']|] eqn:Hf; [|done]. simpl. intros [= <-].
  apply add_staged_keeps in Hf as [Hk Ha]. exists b'. split; [|done]. by split.
Qed.

Lemma remove_bind_published s n : keys_ok (by_name s) → ∃ evs, published s (remove_bind s n) evs.
Proof.
  intros Hk. unfold remove_bind. destruct (by_name s !! n) as [old|] eqn:Hn; [|exists []; apply published_refl].
  exists [EventRemove old]. split; [done|]. simpl. by rewrite (Hk _ _ Hn).
Qed.

Definition publishes (s s' : t) : Prop := ∃ evs, published s s' evs.

Lemma insert_bind_publishes s s0 b s' :
  by_name s0 = by_name s → tx s0 = tx s → insert_bind s0 b = Ret s' → publishes s s'.
Proof. intros Hb Ht (b' & Hp & _)%insert_bind_published. eexists. by eapply published_same. Qed.

Lemma remove_listener_publishes s l s' : remove_listener s l = Ret s' → publishes s s'.
Proof.
  unfold remove_listener. destruct (find _ _) as [b|].
  - by apply insert_bind_publishes.
  - intros [= <-]. eexists. apply published_refl.
Qed.

Lemma remove_route_publishes s l s' : remove_route s l = Ret s' → publishes s s'.
Proof.
  unfold remove_route. destruct (find_map _ _) as [[b lis]|].
  - by apply insert_bind_publishes.
  - intros [= <-]. eexists. apply published_refl.
Qed.

Lemma insert_listener_publishes s l n s' : insert_listener s l n = Ret s' → publishes s s'.
Proof.
  unfold insert_listener. destruct (by_name s !! n) as [b|].
  - destruct (ListenerSet.remove _ _) as [ls old]. destruct (take_staged_routes _ _ _) as [[sr lis]|]; [|done].
    by apply insert_bind_publishes.
  - destruct (take_staged_routes _ _ _) as [[sr lis]|]; [|done]. simpl. intros [= <-].
    exists []. eapply published_same; [| |apply published_refl]; done.
Qed.

Lemma insert_route_publishes s r n s' : insert_route s r n = Ret s' → publishes s s'.
Proof.
  unfold insert_route. destruct (find_map _ _) as [[b lis]|].
  - destruct (RouteSet.insert _ _) as [rs|]; [|done]. by apply insert_bind_publishes.
  - intros [= <-]. exists []. eapply published_same; [| |apply published_refl]; done.
Qed.

Lemma set_staged_publishes s sl sr : publishes s (set_staged s sl sr).
Proof. exists []. eapply published_same; [| |apply published_refl]; done. Qed.

Lemma remove_resource_publishes s n s' : keys_ok (by_name s) → remove_resource s n = Ret s' → publishes s s'.
Proof.
  intros Hk. unfold remove_resource. destruct (Str.split_once "/" n) as [[r m]|].
  2:{ intros [= <-]. eexists. apply published_refl. }
  destruct (Str.eqb r "bind"); [intros [= <-]; by apply remove_bind_published|].
  destruct (Str.eqb r "listener"); [by apply remove_listener_publishes|].
  destruct (Str.eqb r "route"); [by apply remove_route_publishes|].
  intros [= <-]. eexists. apply published_refl.
Qed.

Lemma insert_xds_publishes s res s' r : insert_xds s res = Ret (s', r) → publishes s s'.
Proof.
  assert (∀ s1 s2 : t, Ret (s1, Ok ()) = Ret (s', r) → publishes s s1 → publishes s s') as Hret.
  { by intros s1 s2 [= <- <-]. }
  destruct res as [w|w|w|w|w|]; simpl.
  - unfold insert_xds_bind. destruct (Bind_try_from w) as [b|e]; [|intros [= <- <-]; eexists; apply published_refl].
    destruct (by_name s !! b_key b) as [old|] eqn:Hold.
    + destruct (insert_bind _ _) as [s1|] eqn:H1; [|done]. simpl. intros [= <- <-].
      apply insert_bind_published in H1 as (b' & [Ht Hb] & Hk & _). exists [EventAdd b']. split.
      * by rewrite Ht; simpl; rewrite app_nil_r.
      * rewrite Hb. simpl. rewrite Hk. simpl. by rewrite insert_delete_eq.
    + destruct (insert_bind _ _) as [s1|] eqn:H1; [|done]. simpl. intros [= <- <-]. by eapply insert_bind_publishes.
  - unfold insert_xds_listener. destruct (Listener_try_from _ _ _) as [[l n]|e]; [|intros [= <- <-]; eexists; apply published_refl].
    destruct (insert_listener _ _ _) as [s1|] eqn:H1; [|done]. simpl. intros [= <- <-]. by eapply insert_listener_publishes.
  - unfold insert_xds_route. destruct (Route_try_from _ _ _ _ _ _ _) as [[[l n]|e]|]; [| |done]; simpl.
    + destruct (insert_route _ _ _) as [s1|] eqn:H1; [|done]. simpl. intros [= <- <-]. by eapply insert_route_publishes.
    + intros [= <- <-]. eexists. apply published_refl.
  - unfold insert_xds_backend. destruct (Backend_try_from w) as [b|e]; intros [= <- <-].
    + exists []. eapply published_same; [| |apply published_refl]; done.
    + eexists; apply published_refl.
  - intros [= <- <-]. eexists; apply published_refl.
  - intros [= <- <-]. eexists; apply published_refl.
Qed.

Lemma handle_updates_publishes s updates s' rejects :
  keys_ok (by_name s) → handle_updates error_text s updates = Ret (s', rejects) → publishes s s'.
Proof.
  revert s rejects. induction updates as [|u updates IH]; intros s rejects Hk; simpl.
  { intros [= <- <-]. eexists. apply published_refl. }
  destruct (handle_one error_text s u) as [[s1 r]|] eqn:H1; [|done]. simpl.
  destruct (handle_updates error_text s1 updates) as [[s2 rs]|] eqn:H2; [|done]. simpl. intros [= <- _].
  assert (publishes s s1) as [l1 Hp1].
  { unfold handle_one in H1. destruct u as [w|n].
    - destruct (insert_xds _ _) as [[s3 r3]|] eqn:H3; [|done]. simplify_eq/=. by eapply insert_xds_publishes.
    - destruct (remove_resource _ _) as [s3|] eqn:H3; [|done]. simplify_eq/=. by eapply remove_resource_publishes. }
  destruct (IH s1 rs) as [l2 Hp2]; [by eapply published_keys_ok|done|]. eexists. by eapply published_trans.
Qed.

Lemma insert_binds_publish binds s s' : foldM insert_bind binds s = Ret s' → publishes s s'.
Proof.
  revert s. induction binds as [|b binds IH]; intros s; simpl; [intros [= <-]; eexists; apply published_refl|].
  destruct (insert_bind s b) as [s1|] eqn:H1; [|done]. simpl. intros [l2 Hp2]%IH.
  apply insert_bind_published in H1 as (b' & Hp1 & _). eexists. by eapply published_trans.
Qed.

Lemma remove_binds_publish l s : keys_ok (by_name s) → publishes s (foldl remove_bind s l).
Proof.
  revert s. induction l as [|n l IH]; intros s Hk; [eexists; apply published_refl|]. simpl.
  destruct (remove_bind_published s n Hk) as [l1 Hp1]. destruct (IH (remove_bind s n)) as [l2 Hp2].
  { by eapply published_keys_ok. }
  eexists. by eapply published_trans.
Qed.

(** What does not touch the binds. *)
Lemma foldl_keeps {A} (f : t → A → t) l s :
  (∀ s x, by_name (f s x) = by_name s ∧ tx (f s x) = tx s) →
  by_name (foldl f s l) = by_name s ∧ tx (foldl f s l) = tx s.
Proof.
  intros Hf. revert s. induction l as [|x l IH]; intros s; [done|]. simpl.
  destruct (IH (f s x)) as [-> ->]. apply Hf.
Qed.

Lemma publishes_keeps s s1 s2 : publishes s s1 → by_name s2 = by_name s1 → tx s2 = tx s1 → publishes s s2.
Proof. intros [l [Ht Hb]] Hb2 Ht2. exists l. split; congruence. Qed.

Lemma remove_policy_keeps s n : by_name (remove_policy s n) = by_name s ∧ tx (remove_policy s n) = tx s.
Proof. unfold remove_policy. by destruct (_ !! _). Qed.

Lemma sync_local_publishes s binds policies backends prev s' prev' :
  keys_ok (by_name s) → sync_local s binds policies backends prev = Ret (s', prev') → publishes s s'.
Proof.
  intros Hk. unfold sync_local. destruct (foldM insert_bind binds s) as [s1|] eqn:H1; [|done]. simpl.
  apply insert_binds_publish in H1 as [l1 Hp1]. pose proof (published_keys_ok _ _ _ Hp1 Hk) as Hk1.
  set (s2 := foldl insert_policy (foldl insert_backend s1 backends) policies).
  assert (by_name s2 = by_name s1 ∧ tx s2 = tx s1) as [Hb2 Ht2].
  { unfold s2. destruct (foldl_keeps insert_policy policies (foldl insert_backend s1 backends)) as [-> ->]; [done|]. by apply foldl_keeps. }
  intros [= <- _].
  set (l := hs_iter _). destruct (remove_binds_publish l s2) as [l2 Hp2]; [by rewrite Hb2|].
  eapply publishes_keeps.
  - exists (l1 ++ l2). eapply published_trans; [exact Hp1|]. by eapply published_same.
  - edestruct (foldl_keeps remove_backend) as [-> _]; [done|].
    edestruct (foldl_keeps remove_policy) as [-> _]; [apply remove_policy_keeps|done].
  - edestruct (foldl_keeps remove_backend) as [_ ->]; [done|].
    edestruct (foldl_keeps remove_policy) as [_ ->]; [apply remove_policy_keeps|done].
Qed.

(** A change by one of the two sources. *)
Inductive change : t → t → Prop :=
| change_xds s updates s' r : handle error_text s updates = Ret (s', r) → change s s'
| change_local s binds policies backends prev s' prev' :
  sync_local s binds policies backends prev = Ret (s', prev') → change s s'.

Lemma change_publishes s s' : keys_ok (by_name s) → change s s' → publishes s s'.
Proof.
  intros Hk Hc. revert Hk. destruct Hc as [s updates s' r Hh|s binds pols bes prev s' prev' Hl]; intros Hk;
    [|by eapply sync_local_publishes]. unfold handle in *.
  destruct (handle_updates _ _ _) as [[s1 rej]|] eqn:H1; [|done]. simplify_eq/=. by eapply handle_updates_publishes.
Qed.

Lemma changes_publish s s' : keys_ok (by_name s) → rtc change s s' → publishes s s'.
Proof.
  intros Hk Hs. induction Hs as [s|s s1 s2 H1 _ IH]; [eexists; apply published_refl|].
  destruct (change_publishes _ _ Hk H1) as [l1 Hp1]. destruct IH as [l2 Hp2]; [by eapply published_keys_ok|].
  eexists. by eapply published_trans.
Qed.

Lemma keys_ok_empty : keys_ok ∅.
Proof. intros k b. by rewrite lookup_empty. Qed.

(** The events sent so far, replayed in order, give the binds of the store, after any
    sequence of xDS responses and reloads of the local file. *)
Theorem bind_events s : rtc change new s → by_name s = foldl replay ∅ (tx s) ∧ keys_ok (by_name s).
Proof.
  intros Hs. destruct (changes_publish new s keys_ok_empty Hs) as [evs Hp].
  split; [|exact (published_keys_ok _ _ _ Hp keys_ok_empty)]. destruct Hp as [Ht Hb]. by rewrite Hb, Ht.
Qed.
End store.
