(* ===== verification/HttpProxy.v ===== *)
(** HttpProxy: the request path of [proxy/httpproxy.rs] and [proxy/mod.rs] around
    the components of the other files: applying filters, resolving and balancing
    backends, the target of a call, and the attempts to send a request.

    The random choices of the [rand] crate are an interface ([Rng]) with the
    documented behaviour of a weighted choice. *)
From S2P Require Import Prelude Strs Http DiscoveryTypes AgentTypes Discovery RouteSet Routing.
From S2P Require Import Filters Replay BindStore DiscoverySpec.

(** * Errors *)

(** The payloads are the texts of the wrapped errors. *)
Inductive ProxyError :=
| BindNotFound | ListenerNotFound | RouteNotFound | NoValidBackends | BackendDoesNotExist
| DnsResolution
| PFilterError (e : FilterError)
| BackendUnsupportedMirror
| JwtAuthenticationFailure (e : string)
| TransformationFailure | ServiceNotFound | InvalidBackendType | NoHealthyEndpoints
| AuthorizationFailed
| BackendAuthenticationFailed (e : string)
| UpstreamCallFailed (e : string)
| RequestTimeout
| Processing (e : string)
| ProcessingString (e : string)
| RateLimitExceeded | RateLimitFailed | PInvalidRequest
| UpgradeFailed (requested answered : option string).

Definition is_retryable (e : ProxyError) : bool :=
  match e with
  | UpstreamCallFailed _ => true
  | RequestTimeout => true
  | DnsResolution => true
  | _ => false
  end.

(** The status of [ProxyError::as_response]. *)
Definition as_status (e : ProxyError) : Z :=
  match e with
  | BindNotFound | ListenerNotFound | RouteNotFound => 404
  | NoValidBackends | BackendDoesNotExist | BackendUnsupportedMirror | ServiceNotFound
  | BackendAuthenticationFailed _ | InvalidBackendType | TransformationFailure => 500
  | UpgradeFailed _ _ => 502
  | PFilterError _ => 500
  | PInvalidRequest => 400
  | JwtAuthenticationFailure _ | AuthorizationFailed => 403
  | DnsResolution | NoHealthyEndpoints | UpstreamCallFailed _ => 503
  | RequestTimeout => 504
  | Processing _ | ProcessingString _ => 503
  | RateLimitExceeded | RateLimitFailed => 429
  end%Z.

(** * Backends *)

(** The stores of [ProxyInputs]. *)
Record Stores := { st_discovery : DiscoveryStore.t; st_binds : BindStore.t }.

Definition resolve_backend (b : BackendReference) (pi : Stores) : result Backend ProxyError :=
  match b with
  | BRService name port =>
    let? svc := ok_or (ServiceStore.get_by_namespaced_host
                         (DiscoveryStore.services (st_discovery pi)) name) ServiceNotFound in
    Ok (BService svc port)
  | BRBackend _ => ok_or (BindStore.backend (st_binds pi) (BackendReference_name b)) ServiceNotFound
  | BRInvalid => Ok BInvalid
  end.

Definition resolve_simple_backend (b : SimpleBackendReference) (pi : Stores)
    : result SimpleBackend ProxyError :=
  match b with
  | SBRService name port =>
    let? svc := ok_or (ServiceStore.get_by_namespaced_host
                         (DiscoveryStore.services (st_discovery pi)) name) ServiceNotFound in
    Ok (SBService svc port)
  | SBRBackend _ =>
    let? be := ok_or (BindStore.backend (st_binds pi) (SimpleBackendReference_name b)) ServiceNotFound in
    map_err (λ _, InvalidBackendType) (SimpleBackend_try_from be)
  | SBRInvalid => Ok SBInvalid
  end.

(** [choose_weighted]: an error when the weights add up to zero or overflow. *)
Class Rng := { choose_weighted : ∀ {A}, (A → N) → list A → option A }.

Definition total_weight {A} (w : A → N) (l : list A) : N := foldr (λ x n, (w x + n)%N) 0%N l.

Class RngLaws `{Rng} : Prop := {
  choose_weighted_Some : ∀ A (w : A → N) l x,
    choose_weighted w l = Some x → x ∈ l ∧ (0 < w x)%N;
  choose_weighted_None : ∀ A (w : A → N) l,
    choose_weighted w l = None → total_weight w l = 0%N ∨ (2 ^ 64 ≤ total_weight w l)%N
}.

Definition select_backend `{Rng} (route : Route) : option RouteBackendReference :=
  choose_weighted rbr_weight (route_backends route).

Section balancing.
Context `{!Rng, !HashIter string Endpoint.t}.

(** The closure of the filter: the endpoints that can take the call. *)
Definition endpoint_option (workloads : WorkloadStore.t) (target_port : N) (svc_port : N)
    (override_dest : option SocketAddr) (ep : Endpoint.t) : option (Endpoint.t * Workload.t) :=
  match WorkloadStore.find_uid workloads (Endpoint.workload_uid ep) with
  | None => None
  | Some wl =>
    if bool_decide (target_port = 0%N) && bool_decide (Endpoint.port ep !! svc_port = None) then None
    else match override_dest with
         | Some o => if decide (sa_ip o ∈ Workload.workload_ips wl) then Some (ep, wl) else None
         | None => Some (ep, wl)
         end
  end.

Definition load_balance (workloads : WorkloadStore.t) (svc : Service.t) (svc_port : N)
    (override_dest : option SocketAddr) : option (Endpoint.t * Workload.t) :=
  match Service.ports svc !! svc_port with
  | None => None
  | Some target_port =>
    let options := omap (endpoint_option workloads target_port svc_port override_dest)
                     (hm_values (Service.endpoints svc)) in
    choose_weighted (λ '(_, wl), Workload.capacity wl) options
  end.

Inductive Version := HTTP_10 | HTTP_11 | HTTP_2.

Record BackendCall := {
  target : Target;
  http_version_override : option Version;
  transport_override : option (InboundProtocol * Identity.t);
  default_policies : option BackendPolicies
}.

(** The service branch of [make_backend_call]. *)
Definition service_call (workloads : WorkloadStore.t) (svc : Service.t) (port : N)
    (override_dest : option SocketAddr) (defaults : option BackendPolicies)
    : result BackendCall ProxyError :=
  match load_balance workloads svc port override_dest with
  | None => Err NoHealthyEndpoints
  | Some (ep, wl) =>
    let svc_target_port := default 0%N (Service.ports svc !! port) in
    let? target_port :=
      match Endpoint.port ep !! port with
      | Some ep_target_port => Ok ep_target_port
      | None => if decide (0 < svc_target_port)%N then Ok svc_target_port else Err NoHealthyEndpoints
      end in
    let version := if Service.port_is_http2 svc port then Some HTTP_2
                   else if Service.port_is_http1 svc port then Some HTTP_11 else None in
    match head (Workload.workload_ips wl) with
    | None => Err NoHealthyEndpoints
    | Some ip =>
      Ok {| target := TgtAddress {| sa_ip := ip; sa_port := target_port |};
            http_version_override := version;
            transport_override := Some (Workload.protocol wl, Workload.identity wl);
            default_policies := defaults |}
    end
  end.

(** *** Providers ([llm/mod.rs]) *)

(** [SYSTEM_TRUST], the TLS configuration with the system's roots. *)
Context (SYSTEM_TRUST : BackendTLS).

Definition Vertex_get_host (region : option string) : string :=
  match region with
  | None => "aiplatform.googleapis.com"
  | Some region => region +:+ "-aiplatform.googleapis.com"
  end.

Definition Bedrock_get_host (region : string) : string :=
  "bedrock-runtime." +:+ region +:+ ".amazonaws.com".

Definition provider_policies (p : AIProvider) (auth : option BackendAuth) : BackendPolicies :=
  {| bp_backend_tls := Some SYSTEM_TRUST; bp_backend_auth := auth; bp_a2a := None; bp_llm := None;
     bp_llm_provider := Some (p, true) |}.

Definition default_connector (p : AIProvider) : Target * BackendPolicies :=
  match p with
  | OpenAI _ => (TgtHostname "api.openai.com" 443, provider_policies p None)
  | Gemini _ => (TgtHostname "generativelanguage.googleapis.com" 443, provider_policies p None)
  | Vertex _ region _ => (TgtHostname (Vertex_get_host region) 443, provider_policies p (Some Gcp))
  | Anthropic _ => (TgtHostname "api.anthropic.com" 443, provider_policies p None)
  | Bedrock _ region => (TgtHostname (Bedrock_get_host region) 443, provider_policies p (Some Aws))
  end.

(** *** Any backend *)

(** What a backend is called with: a [BackendCall], or the MCP relay. *)
Inductive Plan := PlanCall (c : BackendCall) | PlanMcp (name : string) (b : McpBackend).

(** The first part of [make_backend_call]. [local_port] is the port of the
    [TCPConnectionInfo] extension. *)
Definition backend_call `{!HeaderMapOps} (workloads : WorkloadStore.t) (override_dest : option SocketAddr)
    (backend : Backend) (defaults : option BackendPolicies) (req : Request) (local_port : option N)
    : comp (result Plan ProxyError) :=
  let plain tgt := {| target := tgt; http_version_override := None; transport_override := None;
                      default_policies := defaults |} in
  match backend with
  | BAI _ ai =>
    let '(tgt, pol) :=
      match ai_host_override ai with
      | Some tgt => (tgt, {| bp_backend_tls := None; bp_backend_auth := None; bp_a2a := None;
                             bp_llm := None; bp_llm_provider := Some (ai_provider ai, false) |})
      | None => default_connector (ai_provider ai)
      end in
    Ret (Ok (PlanCall {| target := tgt; http_version_override := None; transport_override := None;
                         default_policies := Some pol |}))
  | BService svc port =>
    Ret (let? call := service_call workloads svc port override_dest defaults in Ok (PlanCall call))
  | BOpaque _ tgt => Ret (Ok (PlanCall (plain tgt)))
  | BDynamic =>
    port ← expect local_port;
    host ← get_host req;
    Ret match host with
        | Err _ => Err PInvalidRequest
        | Ok host => Ok (PlanCall (plain (Target_from host port)))
        end
  | BMCP name b => Ret (Ok (PlanMcp name b))
  | BInvalid => Ret (Err BackendDoesNotExist)
  end.

(** The policies of a call: those attached to the backend over the defaults. *)
Definition call_policies `{!HashIter string TargetedPolicy} (binds : BindStore.t) (backend : Backend)
    (defaults : option BackendPolicies) : BackendPolicies :=
  let policies := BindStore.backend_policies binds (PTBackend (Backend_name backend)) in
  match defaults with
  | Some def => BackendPolicies_merge def policies
  | None => policies
  end.
End balancing.

(** * Filters *)

Section filters.
Context `{!HeaderMapOps, !HttpParsers}.

(** The loop keeps the response headers of the last CORS filter. *)
Fixpoint request_filters (path_match : PathMatch) (filters : list RouteFilter)
    (header_map : option HeaderMap) (req : Request)
    : comp (Request * result (option Response * option HeaderMap) FilterError) :=
  match filters with
  | [] => Ret (req, Ok (None, header_map))
  | filter :: filters =>
    match filter with
    | RFRequestHeaderModifier hm =>
      match HeaderModifier_apply hm (req_headers req) with
      | (h, Ok _) => request_filters path_match filters header_map (with_headers req h)
      | (h, Err e) => Ret (with_headers req h, Err e)
      end
    | RFUrlRewrite rw =>
      '(req, r) ← UrlRewrite_apply rw req path_match;
      match r with
      | Ok _ => request_filters path_match filters header_map req
      | Err e => Ret (req, Err e)
      end
    | RFRequestRedirect red =>
      r ← RequestRedirect_apply red req path_match;
      Ret (req, let? resp := r in Ok (Some resp, header_map))
    | RFDirectResponse dr => Ret (req, Ok (Some (DirectResponse_apply dr), header_map))
    | RFCORS c =>
      let res := Cors_apply c req in
      match cors_direct_response res, cors_response_headers res with
      | Some dr, _ => Ret (req, Ok (Some dr, None))
      | None, Some hm => request_filters path_match filters (Some hm) req
      | None, None => request_filters path_match filters header_map req
      end
    | RFResponseHeaderModifier _ | RFRequestMirror _ =>
      request_filters path_match filters header_map req
    end
  end.

Definition apply_request_filters (filters : list RouteFilter) (path_match : PathMatch) (req : Request)
    : comp (Request * result (option Response * option HeaderMap) FilterError) :=
  request_filters path_match filters None req.

Definition get_mirrors (filters : list RouteFilter) : list RequestMirror :=
  omap (λ f, match f with RFRequestMirror m => Some m | _ => None end) filters.

Definition with_resp_headers (resp : Response) (h : HeaderMap) : Response :=
  {| resp_status := resp_status resp; resp_headers := h; resp_body := resp_body resp |}.

Definition response_filter (resp : Response) (f : RouteFilter) : Response * result () FilterError :=
  match f with
  | RFResponseHeaderModifier rh =>
    let '(h, r) := HeaderModifier_apply rh (resp_headers resp) in (with_resp_headers resp h, r)
  | _ => (resp, Ok ())
  end.

Definition apply_response_filters (filters : list RouteFilter) (resp : Response)
    : Response * result () FilterError :=
  try_each response_filter filters resp.

(** ** Attempts *)

Definition should_retry (res : result Response ProxyError) (pol : RetryPolicy) : bool :=
  match res with
  | Ok resp => bool_decide (resp_status resp ∈ codes pol)
  | Err e => is_retryable e
  end.

(** [timeout::Policy::effective_timeout] *)
Definition effective_timeout (p : TimeoutPolicy) : option N :=
  match request_timeout p, backend_request_timeout p with
  | Some a, Some b => Some (N.min a b)
  | Some a, None => Some a
  | None, Some b => Some b
  | None, None => None
  end.

Definition MAX_BUFFERED_BYTES : nat := Z.to_nat (64 * 1024).

#[global] Opaque MAX_BUFFERED_BYTES.

(** The headers of attempt [n]. *)
Definition attempt_request (head : Request) (n : nat) : result Request ProxyError :=
  match n with
  | O => Ok head
  | _ =>
    let? v := ok_or (HeaderValue_from_str (Str.display_nat (N.of_nat n))) (ProcessingString "") in
    Ok (with_headers head (hdr_insert (req_headers head) "x-retry-attempt" v))
  end.
End filters.

Section attempts.
Context `{!HeaderMapOps, !HttpParsers} {E W : Type}.
Local Abbreviation Bodies := (@ReplayBody.Sys HeaderMap E).

(** An attempt in the trace: the request, the state it started from (what else
    attempts share, and the bodies) and its result. *)
Local Abbreviation Attempt := (Request * (W * Bodies) * result Response ProxyError)%type.

(** Sending attempt [n]: what it does to the state (its own body is clone [n]) and
    how it ends. *)
Context (attempt_upstream : nat → Request → W * Bodies → comp (W * Bodies * result Response ProxyError)).

(** [next = Some(this.clone())] *)
Definition keep_clone (n : nat) (c : ReplayBody.Clone) (sys : Bodies) : Bodies :=
  ReplayBody.mkSys (ReplayBody.shared sys)
    (<[S n := ReplayBody.mkClone (ReplayBody.clone (ReplayBody.body c)) [] false false]>
       (ReplayBody.clones sys)).

(** The loop over [0..attempts], from attempt [n] with [fuel] left; the trace
    holds every attempt with the state it started from. *)
Fixpoint attempt_loop (pol : RetryPolicy) (head : Request) (attempts n fuel : nat) (st : W * Bodies)
    (last_res : option (result Response ProxyError)) (trace : list Attempt)
    : comp (W * list Attempt * result Response ProxyError) :=
  match fuel with
  | O => Panic
  | S fuel =>
    this ← expect (ReplayBody.clones st.2 !! n);
    if decide (ReplayBody.is_capped (ReplayBody.body this) (ReplayBody.shared st.2) ≠ Some false)
    then res ← expect last_res; Ret (st.1, trace, res)
    else
      let last := bool_decide (n = attempts - 1) in
      let st := if last then st else (st.1, keep_clone n this st.2) in
      match attempt_request head n with
      | Err e => Ret (st.1, trace, Err e)
      | Ok req =>
        '(st', res) ← attempt_upstream n req st;
        let trace := trace ++ [(req, st, res)] in
        if last || negb (should_retry res pol) then Ret (st'.1, trace, res)
        else attempt_loop pol head attempts (S n) fuel st' (Some res) trace
      end
  end.

(** [r.attempts.get() + 1] on [u8]. *)
Definition total_attempts (retries : option RetryPolicy) : nat :=
  match retries with Some r => N.to_nat ((attempts r + 1) `mod` 256) | None => 1 end.

Definition send_request (retries : option RetryPolicy) (head : Request)
    (inner : list ReplayBody.Inner) (size_hint_lower : nat) (w : W)
    : comp (W * list Attempt * result Response ProxyError) :=
  let attempts := total_attempts retries in
  match (if decide (1 < attempts) then ReplayBody.try_new inner size_hint_lower MAX_BUFFERED_BYTES
         else None), retries with
  | Some body, Some pol =>
    attempt_loop pol head attempts 0 attempts (w, ReplayBody.initial body) None []
  | _, _ =>
    let st := (w, ReplayBody.mkSys None ∅) in
    '(st', res) ← attempt_upstream 0 head st;
    Ret (st'.1, [(head, st, res)], res)
  end.
End attempts.

(** * Theorems *)

(** ** Calls to services *)

Lemma total_weight_elem {A} (w : A → N) l x : x ∈ l → (w x ≤ total_weight w l)%N.
Proof. induction 1 as [x l|x y l _ IH]; simpl; lia. Qed.

Lemma total_weight_bound {A} (w : A → N) l b :
  (∀ x, x ∈ l → (w x ≤ b)%N) → (total_weight w l ≤ N.of_nat (length l) * b)%N.
Proof.
  induction l as [|x l IH]; intros Hb; simpl; [lia|].
  assert (w x ≤ b)%N by (apply Hb; set_solver).
  assert (total_weight w l ≤ N.of_nat (length l) * b)%N by (apply IH; set_solver).
  unfold total_weight in *. lia.
Qed.

Lemma length_omap_le {A B} (f : A → option B) l : length (omap f l) ≤ length l.
Proof. induction l as [|x l IH]; csimpl; [done|]. destruct (f x); simpl; lia. Qed.

Lemma length_hm_values `{HashIter K V} (m : gmap K V) : length (hm_values m) = size m.
Proof. unfold hm_values. by rewrite length_fmap, hm_iter_perm, length_map_to_list. Qed.

(** The endpoints that can take a call. *)
Definition usable (workloads : WorkloadStore.t) (svc : Service.t) (port : N)
    (override_dest : option SocketAddr) (ep : Endpoint.t) (wl : Workload.t) : Prop :=
  (∃ u, Service.endpoints svc !! u = Some ep) ∧
  WorkloadStore.find_uid workloads (Endpoint.workload_uid ep) = Some wl ∧
  (Service.ports svc !! port = Some 0%N → is_Some (Endpoint.port ep !! port)) ∧
  (∀ o, override_dest = Some o → sa_ip o ∈ Workload.workload_ips wl).

Section balancing_facts.
Context `{!Rng, !RngLaws, !HashIter string Endpoint.t}.

Lemma endpoint_option_Some workloads tp port od ep x :
  endpoint_option workloads tp port od ep = Some x ↔
  x.1 = ep ∧ WorkloadStore.find_uid workloads (Endpoint.workload_uid ep) = Some x.2 ∧
  (tp = 0%N → is_Some (Endpoint.port ep !! port)) ∧
  (∀ o, od = Some o → sa_ip o ∈ Workload.workload_ips x.2).
Proof.
  unfold endpoint_option. destruct x as [ep' wl'].
  destruct (WorkloadStore.find_uid _ _) as [wl|]; [|naive_solver].
  destruct (bool_decide (tp = 0%N) && bool_decide (Endpoint.port ep !! port = None)) eqn:E.
  - apply andb_true_iff in E as [->%bool_decide_eq_true Hn%bool_decide_eq_true].
    rewrite Hn. split; [done|]. intros (_ & _ & [? ?] & _); done.
  - assert (tp = 0%N → is_Some (Endpoint.port ep !! port)) as Hport.
    { intros ->. rewrite bool_decide_true in E by done. apply bool_decide_eq_false in E.
      destruct (Endpoint.port ep !! port); [by eexists|done]. }
    destruct od as [o|]; [destruct (decide (sa_ip o ∈ Workload.workload_ips wl))|]; naive_solver.
Qed.

Definition options (workloads : WorkloadStore.t) (svc : Service.t) (tp port : N)
    (od : option SocketAddr) : list (Endpoint.t * Workload.t) :=
  omap (endpoint_option workloads tp port od) (hm_values (Service.endpoints svc)).

Lemma elem_of_options workloads svc tp port od ep wl :
  Service.ports svc !! port = Some tp →
  (ep, wl) ∈ options workloads svc tp port od ↔ usable workloads svc port od ep wl.
Proof.
  intros Htp. unfold options, usable. rewrite list_elem_of_omap, Htp.
  setoid_rewrite elem_of_hm_values. setoid_rewrite endpoint_option_Some. naive_solver.
Qed.

(** With 32-bit capacities and at most [2^32] endpoints the sum of the weights
    does not overflow. *)
Lemma load_balance_spec workloads svc port od :
  (∀ u w, WorkloadStore.find_uid workloads u = Some w → (Workload.capacity w < 2 ^ 32)%N) →
  (N.of_nat (size (Service.endpoints svc)) ≤ 2 ^ 32)%N →
  match load_balance workloads svc port od with
  | Some (ep, wl) => is_Some (Service.ports svc !! port) ∧
      usable workloads svc port od ep wl ∧ (0 < Workload.capacity wl)%N
  | None => Service.ports svc !! port = None ∨
      ∀ ep wl, usable workloads svc port od ep wl → Workload.capacity wl = 0%N
  end.
Proof.
  intros Hcap Hsize. unfold load_balance.
  destruct (Service.ports svc !! port) as [tp|] eqn:Htp; [|by left].
  fold (options workloads svc tp port od).
  destruct (choose_weighted _ _) as [[ep wl]|] eqn:Hc.
  - apply choose_weighted_Some in Hc as [Hin Hw]. rewrite (elem_of_options _ _ _ _ _ _ _ Htp) in Hin.
    split_and!; [by eexists|done|done].
  - right. set (w := λ '(_, wl), Workload.capacity wl : N) in Hc.
    assert (total_weight w (options workloads svc tp port od) < 2 ^ 64)%N as Hlt.
    { eapply N.le_lt_trans; [apply (total_weight_bound _ _ (2 ^ 32 - 1)%N)|].
      - intros [ep wl] (_ & Hu & _)%(elem_of_options _ _ _ _ _ _ _ Htp). apply Hcap in Hu. simpl. lia.
      - pose proof (length_omap_le (endpoint_option workloads tp port od) (hm_values (Service.endpoints svc))).
        rewrite length_hm_values in *. unfold options. nia. }
    apply choose_weighted_None in Hc as [Hz|?]; [|lia]. intros ep wl Hu.
    apply (elem_of_options _ _ _ _ _ _ _ Htp), (total_weight_elem w) in Hu. simpl in Hu. lia.
Qed.
End balancing_facts.

(** C9: a call to a service of a reachable store. With 32-bit capacities and at most
    [2^32] endpoints, the call goes to the first address of a workload of the
    store that lists the service, is an accepted endpoint of it, has a capacity
    and (if a destination is forced) that address, on the endpoint's own port for
    the service port or else the service's non-zero target port. It fails only
    when the service has no such port, every usable endpoint has capacity zero, or
    the chosen workload has no address. *)
Theorem service_call_target `{!Rng, !RngLaws, !HashIter string Endpoint.t, !HashIter string (list Proto.Port),
    !SetIter NamespacedHostname.t, !SetIter string, !HashIter N N} error_text responses n svc port od defaults :
  let d := run error_text responses in
  let workloads := DiscoveryStore.workloads d in
  ServiceStore.get_by_namespaced_host (DiscoveryStore.services d) n = Some svc →
  (∀ u w, WorkloadStore.find_uid workloads u = Some w → (Workload.capacity w < 2 ^ 32)%N) →
  (N.of_nat (size (Service.endpoints svc)) ≤ 2 ^ 32)%N →
  match service_call workloads svc port od defaults with
  | Ok call => ∃ ep wl ip p,
      usable workloads svc port od ep wl ∧ n ∈ Workload.services wl ∧
      Service.should_include_endpoint svc (Endpoint.status ep) = true ∧
      (0 < Workload.capacity wl)%N ∧ head (Workload.workload_ips wl) = Some ip ∧
      (Endpoint.port ep !! port = Some p ∨
       Endpoint.port ep !! port = None ∧ Service.ports svc !! port = Some p ∧ (0 < p)%N) ∧
      target call = TgtAddress {| sa_ip := ip; sa_port := p |} ∧
      transport_override call = Some (Workload.protocol wl, Workload.identity wl) ∧
      default_policies call = defaults
  | Err e => e = NoHealthyEndpoints ∧
      (Service.ports svc !! port = None ∨
       (∀ ep wl, usable workloads svc port od ep wl → Workload.capacity wl = 0%N) ∨
       ∃ ep wl, usable workloads svc port od ep wl ∧ Workload.workload_ips wl = [])
  end.
Proof.
  intros d workloads Hsvc Hcap Hsize. pose proof (load_balance_spec workloads svc port od Hcap Hsize) as Hlb.
  unfold service_call. destruct (load_balance workloads svc port od) as [[ep wl]|]; [|naive_solver].
  destruct Hlb as ([tp Htp] & Hu & Hc). rewrite Htp. simpl.
  pose proof Hu as ([u Hep] & Hw & Hp & Ho).
  destruct (endpoint_workload error_text responses n svc u ep Hsvc Hep) as (Hinc & Huid & w & Hw' & Hlist).
  assert (w = wl) as -> by (unfold workloads, d in Hw; rewrite Huid in Hw; congruence).
  assert (∃ p, (match Endpoint.port ep !! port with
      | Some ep_target_port => Ok ep_target_port
      | None => if decide (0 < tp)%N then Ok tp else Err NoHealthyEndpoints
      end) = Ok p ∧
      (Endpoint.port ep !! port = Some p ∨ Endpoint.port ep !! port = None ∧ Some tp = Some p ∧ (0 < p)%N))
    as (p & -> & Hport).
  { destruct (Endpoint.port ep !! port) as [p|] eqn:Hpp; [by exists p; split; [|left]|].
    case_decide; [by exists tp; split; [|right]|]. assert (tp = 0%N) as -> by lia.
    destruct (Hp Htp) as [? ?]; done. }
  simpl. destruct (head (Workload.workload_ips wl)) as [ip|] eqn:Hip.
  - exists ep, wl, ip, p. split_and!; done.
  - split; [done|]. right. right. exists ep, wl. split; [done|]. by destruct (Workload.workload_ips wl).
Qed.

(** A dynamic backend calls the request's host. An IPv6 address is written in
    brackets there, which [get_host] keeps and the address parser refuses: it
    becomes a host name. *)
Theorem dynamic_backend_ipv6 `{!Rng, !HashIter string Endpoint.t, !HeaderMapOps} SYSTEM_TRUST workloads
    od defaults req port h :
  get_host req = Ret (Ok (String "[" h)) →
  backend_call SYSTEM_TRUST workloads od BDynamic defaults req (Some port) =
    Ret (Ok (PlanCall {| target := TgtHostname (String "[" h) port; http_version_override := None;
                         transport_override := None; default_policies := defaults |})).
Proof. intros Hh. simpl. rewrite Hh. done. Qed.

(** A generator that takes the first item with a weight. *)
Definition example_rng : Rng := {| choose_weighted A w l := find (λ x, bool_decide (0 < w x)%N) l |}.

Lemma example_rng_laws : @RngLaws example_rng.
Proof.
  split; simpl; intros A w l.
  - intros x [Hin Hx]%find_Some_elem. by apply bool_decide_eq_true in Hx.
  - intros Hnone. left. rewrite find_None in Hnone.
    induction l as [|x l IH]; [done|]. simpl.
    assert (¬ (0 < w x)%N) by (apply (bool_decide_eq_false _), Hnone; set_solver).
    assert (total_weight w l = 0%N) by (apply IH; set_solver). unfold total_weight in *. lia.
Qed.

Module CallExample.
#[local] Existing Instance hm_iter_default.
#[local] Existing Instance hs_iter_default.
Import DiscoveryExamples.

Definition responses : list (list (Xds.XdsUpdate DiscoveryStore.XdsAddress)) :=
  [[Xds.Update {| Xds.xr_name := "w";
      Xds.xr_resource := DiscoveryStore.AddrWorkload (proto_workload "w" "ns/a.com") |};
    Xds.Update {| Xds.xr_name := "ns/a.com";
      Xds.xr_resource := DiscoveryStore.AddrService (proto_service "a.com" []) |}]].

Definition store : DiscoveryStore.t := run (λ _, "") responses.
Definition service : Service.t :=
  default (Service.mk "" "" "" [] ∅ ∅ ∅ [] None None None)
    (ServiceStore.get_by_namespaced_host (DiscoveryStore.services store) (host "a.com")).

Definition call : BackendCall :=
  {| target := TgtAddress {| sa_ip := V4 "abcd"; sa_port := 8080 |};
     http_version_override := None;
     transport_override := Some (TCP, Identity.Spiffe "cluster.local" "ns" "default");
     default_policies := None |}.

Lemma capacities u w :
  WorkloadStore.find_uid (DiscoveryStore.workloads store) u = Some w → (Workload.capacity w < 2 ^ 32)%N.
Proof.
  assert (bool_decide (map_Forall (λ _ w, (Workload.capacity w < 2 ^ 32)%N)
    (WorkloadStore.by_uid (DiscoveryStore.workloads store))) = true) as Hall by (vm_compute; reflexivity).
  apply bool_decide_eq_true in Hall. apply Hall.
Qed.

Lemma service_call_target_witness :
  let r := example_rng in
  service_call (DiscoveryStore.workloads store) service 80 None None = Ok call ∧
  ∃ wl, host "a.com" ∈ Workload.services wl.
Proof.
  assert (@service_call example_rng _ (DiscoveryStore.workloads store) service 80 None None = Ok call)
    as Hcall by (vm_compute; reflexivity).
  split; [exact Hcall|].
  pose proof (@service_call_target example_rng example_rng_laws _ _ _ _ _ (λ _, "") responses
    (host "a.com") service 80%N None None) as H. cbv zeta in H. fold store in H. rewrite Hcall in H.
  destruct H as (ep & wl & ip & p & _ & Hin & _);
    [vm_compute; reflexivity|exact capacities|vm_compute; discriminate|by exists wl].
Defined.
End CallExample.

(** ** Attempts *)

Section attempts_facts.
Context `{!HeaderMapOps, !HttpParsers} {E W : Type}.
Local Abbreviation Bodies := (@ReplayBody.Sys HeaderMap E).
Local Abbreviation Attempt := (Request * (W * Bodies) * result Response ProxyError)%type.
Context (attempt_upstream : nat → Request → W * Bodies → comp (W * Bodies * result Response ProxyError)).
Context (inner : list (@ReplayBody.Inner HeaderMap E)) (pol : RetryPolicy) (head : Request).

(** Sending a request returns, and only polls and drops bodies: it makes no clones
    and leaves the clone kept for the next attempt alone. *)
Definition uses_bodies : Prop := ∀ n req w sys, ∃ w' sys' res,
  attempt_upstream n req (w, sys) = Ret (w', sys', res) ∧
  rtc ReplayBody.step sys sys' ∧
  (∀ j, ReplayBody.clones sys !! j = None → ReplayBody.clones sys' !! j = None) ∧
  (∀ c, ReplayBody.clones sys !! S n = Some c → ReplayBody.clones sys' !! S n = Some c).

(** A decimal number is a valid header value. *)
Definition accepts_numbers : Prop := ∀ n, is_Some (HeaderValue_from_str (Str.display_nat n)).

(** The body of attempt [i] delivers the whole inner body. *)
Definition body_complete (i : nat) (sys : Bodies) : Prop :=
  ∃ c k c' sh, ReplayBody.clones sys !! i = Some c ∧
    ReplayBody.poll_many k c (ReplayBody.shared sys) = Ret (c', sh) ∧
    ReplayBody.ended c' = true ∧ ReplayBody.failed c' = false ∧
    ReplayBody.out c' = ReplayBody.frames inner.

(** One attempt of a trace. *)
Definition attempt_ok (i : nat) (e : Attempt) : Prop :=
  attempt_request head i = Ok e.1.1 ∧ (∃ st', attempt_upstream i e.1.1 e.1.2 = Ret (st', e.2)) ∧
  (0 < i → body_complete i e.1.2.2).

(** The body left for the attempt after the last one of the trace cannot be
    used. *)
Definition exhausted (trace : list Attempt) : Prop :=
  ∃ req st res st' c, last trace = Some (req, st, res) ∧
    attempt_upstream (length trace - 1) req st = Ret (st', res) ∧
    ReplayBody.clones st'.2 !! length trace = Some c ∧
    ReplayBody.is_capped (ReplayBody.body c) (ReplayBody.shared st'.2) ≠ Some false.

Context (Huses : uses_bodies) (Hnumbers : accepts_numbers).

Lemma attempt_request_Ok n : ∃ req, attempt_request head n = Ok req.
Proof.
  destruct n as [|n]; [by eexists|]. simpl.
  destruct (Hnumbers (N.of_nat (S n))) as [v Hv]. simpl in Hv. rewrite Hv. by eexists.
Qed.

Lemma keep_clone_step n c (sys : Bodies) :
  ReplayBody.clones sys !! n = Some c → ReplayBody.clones sys !! S n = None →
  ReplayBody.step sys (keep_clone n c sys).
Proof. apply ReplayBody.StepClone. Qed.

Lemma steps_ok max (sys sys' : Bodies) :
  rtc ReplayBody.step sys sys' → ReplayBody.sys_ok (ReplayBody.frames inner) max sys →
  ReplayBody.sys_ok (ReplayBody.frames inner) max sys'.
Proof. induction 1; eauto using ReplayBody.step_ok. Qed.

(** The state in which attempt [n] starts. *)
Definition starting (last : bool) (n : nat) (c : ReplayBody.Clone) (st : W * Bodies) : W * Bodies :=
  if last then st else (st.1, keep_clone n c st.2).

Lemma keep_clone_complete n c (st : W * Bodies) max last :
  ReplayBody.sys_ok (ReplayBody.frames inner) max st.2 →
  ReplayBody.clones st.2 !! n = Some c → ReplayBody.state (ReplayBody.body c) = None →
  ReplayBody.is_capped (ReplayBody.body c) (ReplayBody.shared st.2) = Some false →
  body_complete n (starting last n c st).2.
Proof.
  intros Hok Hn Hs Hc.
  destruct (ReplayBody.fresh_drains _ _ _ _ _ Hok Hn Hs Hc) as (k & c' & sh & Hk & Hrest).
  exists c, k, c', sh. destruct last; [done|]. simpl. split; [|done].
  rewrite lookup_insert_ne by lia. done.
Qed.

(** What holds at the head of the loop. *)
Record loop_inv (n : nat) (st : W * Bodies) (last_res : option (result Response ProxyError))
    (trace : list Attempt) : Prop := {
  li_len : length trace = n;
  li_ok : ReplayBody.sys_ok (ReplayBody.frames inner) MAX_BUFFERED_BYTES st.2;
  li_clone : ∃ c, ReplayBody.clones st.2 !! n = Some c ∧
    (n = 0 ∧ ReplayBody.is_capped (ReplayBody.body c) (ReplayBody.shared st.2) = Some false ∨
     0 < n ∧ ReplayBody.state (ReplayBody.body c) = None);
  li_none : ∀ j, n < j → ReplayBody.clones st.2 !! j = None;
  li_last : last_res = last (trace.*2);
  li_prev : 0 < n → ∃ req st0 res, last trace = Some (req, st0, res) ∧
    attempt_upstream (n - 1) req st0 = Ret (st, res);
  li_trace : ∀ i e, trace !! i = Some e → attempt_ok i e ∧ should_retry e.2 pol = true
}.

(** A finished run. *)
Definition run_ok (attempts : nat) (trace : list Attempt) (res : result Response ProxyError) : Prop :=
  last (trace.*2) = Some res ∧ length trace ≤ attempts ∧
  (∀ i e, trace !! i = Some e → attempt_ok i e ∧ (S i < length trace → should_retry e.2 pol = true)) ∧
  (should_retry res pol = true → length trace = attempts ∨ exhausted trace).

Lemma run_ok_capped attempts n st last_res trace c :
  loop_inv n st last_res trace → n < attempts → ReplayBody.clones st.2 !! n = Some c →
  ReplayBody.is_capped (ReplayBody.body c) (ReplayBody.shared st.2) ≠ Some false →
  ∃ res, last_res = Some res ∧ run_ok attempts trace res.
Proof.
  intros [Hlen Hok (c' & Hc' & Hcl) Hnone -> Hprev Htr] Hn Hc Hcap. assert (c' = c) as -> by congruence.
  destruct Hcl as [[_ ?]|[Hpos _]]; [done|].
  destruct (Hprev Hpos) as (req & st0 & res & Hl & Hup). exists res.
  assert (last trace.*2 = Some res) as Hlast by (rewrite fmap_last, Hl; done).
  split; [done|]. split_and!; [done|lia| |].
  - intros i e Hi. destruct (Htr _ _ Hi). by split.
  - intros _. right. exists req, st0, res, st, c. subst n. split_and!; done.
Qed.

(** The sent attempt. *)
Lemma sent_ok n st last_res trace c req (last_attempt : bool) st' res :
  loop_inv n st last_res trace → ReplayBody.clones st.2 !! n = Some c →
  ReplayBody.is_capped (ReplayBody.body c) (ReplayBody.shared st.2) = Some false →
  attempt_request head n = Ok req →
  attempt_upstream n req (starting last_attempt n c st) = Ret (st', res) →
  attempt_ok n (req, starting last_attempt n c st, res).
Proof.
  intros Hinv Hc Hcap Hreq Hup. split_and!; [done|by eexists|]. intros Hpos. simpl.
  destruct (li_clone _ _ _ _ Hinv) as (c' & Hc' & [[? _]|[_ Hs]]); [lia|].
  assert (c' = c) as -> by congruence.
  by eapply keep_clone_complete; [apply (li_ok _ _ _ _ Hinv)|..].
Qed.

Lemma next_inv n st last_res trace c req st' res :
  loop_inv n st last_res trace → ReplayBody.clones st.2 !! n = Some c →
  attempt_upstream n req (starting false n c st) = Ret (st', res) →
  attempt_ok n (req, starting false n c st, res) → should_retry res pol = true →
  loop_inv (S n) st' (Some res) (trace ++ [(req, starting false n c st, res)]).
Proof.
  intros [Hlen Hok _ Hnone -> Hprev Htr] Hc Hup Hatt Hretry. set (st1 := starting false n c st) in *.
  destruct (Huses n req st1.1 st1.2) as (w' & sys' & res' & Hup' & Hsteps & Hno & Hkeep).
  rewrite <-surjective_pairing, Hup in Hup'. simplify_eq.
  assert (ReplayBody.step st.2 st1.2) as Hstep by (apply keep_clone_step; [done|apply Hnone; lia]).
  split; cbn [snd].
  - rewrite length_app. simpl. lia.
  - eapply steps_ok; [|exact Hok]. by eapply rtc_l.
  - eexists. split; [apply Hkeep; simpl; by apply lookup_insert_eq|]. right. split; [lia|done].
  - intros j Hj. apply Hno. simpl. rewrite lookup_insert_ne by lia. apply Hnone. lia.
  - by rewrite fmap_last, last_snoc.
  - intros _. eexists req, st1, _. rewrite last_snoc. split; [done|].
    by rewrite Nat.sub_succ, Nat.sub_0_r, Hup.
  - intros i e [Hi|[Hge Hi]]%lookup_app_Some; [by apply Htr|].
    apply list_lookup_singleton_Some in Hi as [Hi <-]. replace i with (length trace) by lia. done.
Qed.

(** The loop stops after attempt [n]. *)
Lemma run_ok_stopped attempts n st last_res trace req st1 res :
  n < attempts → loop_inv n st last_res trace → attempt_ok n (req, st1, res) →
  bool_decide (n = attempts - 1) || negb (should_retry res pol) = true →
  run_ok attempts (trace ++ [(req, st1, res)]) res.
Proof.
  intros Hn [Hlen _ _ _ _ _ Htr] Hatt Hstop. split_and!.
  - by rewrite fmap_last, last_snoc.
  - rewrite length_app. simpl. lia.
  - intros i e [Hi|[Hge Hi]]%lookup_app_Some; [split; [|intros _]; by apply (Htr i)|].
    apply list_lookup_singleton_Some in Hi as [Hi <-]. rewrite length_app. simpl.
    replace i with n by lia. split; [done|lia].
  - intros Hr. rewrite Hr in Hstop. simpl in Hstop. rewrite orb_false_r in Hstop.
    apply bool_decide_eq_true in Hstop. left. rewrite length_app. simpl. lia.
Qed.

Lemma attempt_loop_ok attempts fuel n st last_res trace :
  fuel = attempts - n → n < attempts → loop_inv n st last_res trace →
  ∃ w trace' res, attempt_loop attempt_upstream pol head attempts n fuel st last_res trace =
    Ret (w, trace', res) ∧ run_ok attempts trace' res.
Proof.
  revert n st last_res trace. induction fuel as [|fuel IH]; intros n st last_res trace Hfuel Hn Hinv; [lia|].
  destruct (li_clone _ _ _ _ Hinv) as (c & Hc & _). simpl. rewrite Hc. simpl.
  destruct (decide (ReplayBody.is_capped _ _ ≠ Some false)) as [Hcap|Hcap].
  { destruct (run_ok_capped _ _ _ _ _ _ Hinv Hn Hc Hcap) as (res & -> & Hrun). simpl. eauto. }
  apply dec_stable in Hcap. destruct (attempt_request_Ok n) as [req Hreq]. rewrite Hreq.
  change (if bool_decide (n = attempts - 1) then st else (st.1, keep_clone n c st.2))
    with (starting (bool_decide (n = attempts - 1)) n c st).
  set (st1 := starting (bool_decide (n = attempts - 1)) n c st).
  destruct (Huses n req st1.1 st1.2) as (w' & sys' & res & Hup & _).
  rewrite <-surjective_pairing in Hup. rewrite Hup. cbn [mbind comp_mbind fst snd].
  pose proof (sent_ok _ _ _ _ _ _ _ _ _ Hinv Hc Hcap Hreq Hup) as Hatt. fold st1 in Hatt.
  destruct (bool_decide (n = attempts - 1) || negb (should_retry res pol)) eqn:Hstop.
  { eexists _, _, _. split; [done|]. by eapply run_ok_stopped. }
  apply orb_false_iff in Hstop as [Hlast Hr%negb_false_iff].
  subst st1. rewrite Hlast in *. apply bool_decide_eq_false in Hlast.
  apply IH; [lia|lia|]. by eapply next_inv.
Qed.
End attempts_facts.

(** C7: sending a request with a retry policy. The loop never panics and makes at
    most one attempt more than the configured retries; the answer is that of the
    last attempt, every attempt before it ended in a retryable way, attempt [n]
    carries its number, and the body of every repeated attempt delivers the whole
    original body; a retryable answer is returned only when the attempts are used
    up or the body cannot be sent again. With 255 retries the number of attempts
    wraps around in 8 bits, and like a body that is too large from the start the
    request is sent once. *)
Theorem send_request_attempts `{!HeaderMapOps, !HttpParsers} {E W} attempt_upstream
    (inner : list (@ReplayBody.Inner HeaderMap E)) pol head hint (w : W) :
  uses_bodies attempt_upstream → accepts_numbers → (0 < attempts pol < 256)%N →
  ∃ w' trace res, send_request attempt_upstream (Some pol) head inner hint w = Ret (w', trace, res) ∧
    if decide (attempts pol = 255%N ∨ MAX_BUFFERED_BYTES < hint)
    then ∃ st, trace = [(head, st, res)]
    else run_ok attempt_upstream inner pol head (S (N.to_nat (attempts pol))) trace res.
Proof.
  intros Huses Hnum Ha. unfold send_request, total_attempts.
  destruct (decide (attempts pol = 255%N ∨ MAX_BUFFERED_BYTES < hint)) as [Hone|Hmany].
  - assert ((if decide (1 < N.to_nat ((attempts pol + 1) `mod` 256))
             then ReplayBody.try_new inner hint MAX_BUFFERED_BYTES else None) = None) as ->.
    { case_decide as Hlt; [|done]. unfold ReplayBody.try_new. destruct Hone as [Heq|Hbig].
      - rewrite Heq in Hlt. vm_compute in Hlt. lia.
      - by rewrite decide_True. }
    destruct (Huses 0 head w (ReplayBody.mkSys None ∅)) as (w' & sys' & res & -> & _).
    eexists _, _, _. split; [done|]. by eexists.
  - assert (attempts pol ≠ 255%N) by tauto.
    assert ((attempts pol + 1) `mod` 256 = attempts pol + 1)%N as -> by (apply N.mod_small; lia).
    rewrite decide_True by lia.
    destruct (ReplayBody.try_new inner hint MAX_BUFFERED_BYTES) as [b|] eqn:Hb.
    2:{ unfold ReplayBody.try_new in Hb. case_decide; [tauto|done]. }
    replace (N.to_nat (attempts pol + 1)) with (S (N.to_nat (attempts pol))) by lia.
    apply attempt_loop_ok; [done|done|lia|lia|]. split; try done.
    + by eapply ReplayBody.initial_ok.
    + eexists. split; [apply lookup_singleton_eq|]. left. split; [done|]. unfold ReplayBody.try_new in Hb.
      case_decide; [done|]. injection Hb as <-. unfold ReplayBody.is_capped, ReplayBody.state_is_capped. simpl.
      done.
    + intros j Hj. apply lookup_singleton_ne. lia.
    + lia.
Qed.

Module RetryExample.
#[local] Existing Instance gmap_headers.
#[local] Existing Instance example_parsers.

(** The first attempt is refused and drops its body; the second succeeds. *)
Definition upstream (n : nat) (req : Request) (st : () * @ReplayBody.Sys HeaderMap ())
    : comp (() * @ReplayBody.Sys HeaderMap () * result Response ProxyError) :=
  let sys := st.2 in
  Ret ((), match ReplayBody.clones sys !! n with
   | Some c => ReplayBody.mkSys (ReplayBody.drop (ReplayBody.body c) (ReplayBody.shared sys))
                 (delete n (ReplayBody.clones sys))
   | None => sys
   end,
   Ok {| resp_status := match n with O => 503%Z | _ => 200%Z end; resp_headers := hdr_new; resp_body := "" |}).

Definition policy : RetryPolicy := {| attempts := 2; backoff := None; codes := [503%Z] |}.
Definition request : Request :=
  {| req_method := "POST"; req_uri := example_uri "/"; req_headers := hdr_new; req_body := "";
     req_original_url := None |}.

Lemma upstream_uses_bodies : uses_bodies upstream.
Proof.
  intros n req w sys. eexists _, _, _. split; [done|]. cbn [snd].
  case_match; [|by split_and!; [apply rtc_refl|..]]. split_and!; simpl.
  - apply rtc_once. by apply ReplayBody.StepDrop.
  - intros j Hj. apply lookup_delete_None. by right.
  - intros c' Hc'. rewrite lookup_delete_ne by lia. done.
Qed.

Lemma send_request_attempts_witness :
  ∃ w trace res, send_request upstream (Some policy) request [ReplayBody.IFrame (ReplayBody.FData "ab")] 0 () =
      Ret (w, trace, res) ∧ last (trace.*2) = Some res ∧ length trace ≤ 3.
Proof.
  destruct (send_request_attempts upstream [ReplayBody.IFrame (ReplayBody.FData "ab")] policy request 0 ()
    upstream_uses_bodies) as (w & trace & res & Hs & Hrun).
  - intros n. by eexists.
  - simpl. lia.
  - exists w, trace, res. split; [exact Hs|]. revert Hrun. case_decide as H; [exfalso|intros (? & ? & _); done].
    destruct H as [H|H]; [discriminate H|lia].
Defined.
End RetryExample.
