(* ===== verification/AccessLog.v ===== *)
(** AccessLog: the record of a request ([telemetry/log.rs]), the span it is traced with
    ([telemetry/trc.rs]), and the lines that are written ([core/src/telemetry.rs]).

    Values that are only shown are kept as their text. *)
From S2P Require Import Prelude Strs Json Http DiscoveryTypes AgentTypes HttpProxy Cel TraceParent.

(** * Maps in the order they were written *)

Record OrderedStringMap (V : Type) := mkOrdered { map : gmap string V; order : list string }.
Arguments mkOrdered {_} _ _.
Arguments map {_} _.
Arguments order {_} _.

(** [FromIterator]: a later entry replaces an earlier one in the map, and both stay in the
    order. *)
Definition from_iter {V} (items : list (string * V)) : OrderedStringMap V :=
  mkOrdered (foldl (λ m '(k, v), <[k := v]> m) ∅ items) items.*1.

Definition contains_key {V} (self : OrderedStringMap V) (k : string) : bool := bool_decide (is_Some (map self !! k)).

(** [iter]: every key of the order is expected in the map. *)
Definition iter {V} (self : OrderedStringMap V) : comp (list (string * V)) :=
  mapM (λ k, v ← expect (map self !! k); Ret (k, v)) (order self).

(** * What is configured *)

Record LoggingFields := { remove : gset string; add : OrderedStringMap Expression }.
Definition has (self : LoggingFields) (k : string) : bool := bool_decide (k ∈ remove self) || contains_key (add self) k.

Record Config := { cfg_filter : option Expression; cfg_fields : LoggingFields }.

(** A value of a record: a text, a number, or what an expression gives. *)
Inductive LogValue := VText (s : string) | VNumber (n : N) | VJson (v : Value).
Definition Entries : Type := list (string * option LogValue).

Section log.
Context `{!HeaderMapOps, !CelEngine}.

Record CelLogging := { cl_context : ContextBuilder; cl_filter : option Expression; cl_fields : LoggingFields }.

Definition register (ctx : ContextBuilder) (fields : LoggingFields) : ContextBuilder :=
  foldl register_expression ctx (map_to_list (map (add fields))).*2.

Definition CelLogging_new (cfg : Config) : CelLogging :=
  let ctx := ContextBuilder_new in
  let ctx := match cfg_filter cfg with Some f => register_expression ctx f | None => ctx end in
  {| cl_context := register ctx (cfg_fields cfg); cl_filter := cfg_filter cfg; cl_fields := cfg_fields cfg |}.

Definition CelLogging_register (self : CelLogging) (fields : LoggingFields) : CelLogging :=
  {| cl_context := register (cl_context self) fields; cl_filter := cl_filter self; cl_fields := cl_fields self |}.

Definition eval_filter (exec : Executor) (filter : option Expression) : bool :=
  match filter with Some f => eval_bool exec f | None => true end.

(** The value of an added field; nothing when the expression fails, or gives null or what
    is not JSON. *)
Definition eval_field (exec : Executor) (e : Expression) : option Value :=
  v ← eval exec e; match v with COther Null => None | _ => value_json v end.

Definition eval_fields (exec : Executor) (fields : LoggingFields) : comp (list (string * option Value)) :=
  l ← iter (add fields); Ret (List.map (λ ke, (ke.1, eval_field exec ke.2)) l).

(** * The record of a request *)

Record RequestLog := {
  rl_cel : CelLogging;
  rl_tracer : option LoggingFields;
  src_addr : string;
  endpoint : option string;
  bind_name : option string;
  gateway_name : option string;
  listener_name : option string;
  route_rule_name : option string;
  route_name : option string;
  backend_name : option string;
  host : option string;
  method : option string;
  path : option string;
  http_version : option Version;
  status : option N;
  jwt_sub : option string;
  retry_attempt : option N;
  error : option string;
  grpc_status : option N;
  mcp_status : option (option string * option string);
  incoming_span : option TraceParent;
  outgoing_span : option TraceParent;
  rl_llm_request : option LLMRequest;
  rl_llm_response : option LLMResponse;
  a2a_method : option string;
  inference_pool : option string
}.

Definition text (o : option string) : option LogValue := VText <$> o.
Definition version_text (v : Version) : string :=
  match v with HTTP_10 => "HTTP/1.0" | HTTP_11 => "HTTP/1.1" | HTTP_2 => "HTTP/2.0" end.

Definition entries (log : RequestLog) (duration : string) : Entries :=
  let llm_response := rl_llm_response log in
  let input_tokens := match llm_response ≫= input_tokens_from_response with
                      | Some t => Some t
                      | None => lr_input_tokens <$> rl_llm_request log
                      end in
  [("gateway", text (gateway_name log)); ("listener", text (listener_name log));
   ("route_rule", text (route_rule_name log)); ("route", text (route_name log));
   ("endpoint", text (endpoint log)); ("src.addr", Some (VText (src_addr log)));
   ("http.method", text (method log)); ("http.host", text (host log)); ("http.path", text (path log));
   ("http.version", text (version_text <$> http_version log)); ("http.status", VNumber <$> status log);
   ("grpc.status", VNumber <$> grpc_status log);
   ("trace.id", text (display_traceparent <$> outgoing_span log));
   ("span.id", text ((λ t, format_hex 16 (span_id t)) <$> outgoing_span log));
   ("jwt.sub", text (jwt_sub log)); ("a2a.method", text (a2a_method log));
   ("mcp.target", text (mcp_status log ≫= fst)); ("mcp.tool", text (mcp_status log ≫= snd));
   ("inferencepool.selected_endpoint", text (inference_pool log));
   ("llm.provider", text (lr_provider <$> rl_llm_request log));
   ("llm.request.model", text (lr_request_model <$> rl_llm_request log));
   ("llm.request.tokens", VNumber <$> input_tokens);
   ("llm.response.model", text (llm_response ≫= provider_model));
   ("llm.response.tokens", VNumber <$> (llm_response ≫= output_tokens));
   ("retry.attempt", VNumber <$> retry_attempt log); ("error", text (error log)); ("duration", Some (VText duration))].

(** ** Tracing ([Tracer::send]) *)

Record Span := { span_name : string; span_trace : N; span_span : N; span_attributes : list (string * LogValue) }.

Definition values (kv : Entries) : list (string * LogValue) :=
  omap (λ '(k, v), (λ v, (k, v)) <$> v) kv.

Definition tracer_send (tracer : LoggingFields) (request : RequestLog) (exec : Executor) (attrs : Entries) : comp (option Span) :=
  out_span ← expect (outgoing_span request);
  if negb (is_sampled out_span) then Ret None
  else
    raws ← eval_fields exec tracer;
    let version := match http_version request with
                   | Some HTTP_11 => [("network.protocol.version", VText "1.1")]
                   | Some HTTP_2 => [("network.protocol.version", VText "2")]
                   | _ => []
                   end in
    Ret (Some {| span_name := match method request, path request with
                              | Some method, Some path => method +:+ " " +:+ path
                              | _, _ => "unknown"
                              end;
                 span_trace := trace_id out_span; span_span := span_id out_span;
                 span_attributes := values attrs ++ [("url.scheme", VText "http")] ++ version ++
                                    values (List.map (λ kv, (kv.1, VJson <$> kv.2)) raws) |}).

(** ** The end of a request ([DropOnLog::drop]) *)

Record Sent := { sent_labels : list (option string); sent_span : option Span; sent_line : option Entries }.

Definition labels (log : RequestLog) : list (option string) :=
  [bind_name log; gateway_name log; listener_name log; route_name log; route_rule_name log; backend_name log; method log;
   Str.display_nat <$> status log].

Definition log_line (fields : LoggingFields) (exec : Executor) (kv : Entries) : comp Entries :=
  raws ← eval_fields exec fields;
  Ret (List.map (λ kv, (kv.1, if has fields kv.1 then None else kv.2)) kv ++ List.map (λ kv, (kv.1, VJson <$> kv.2)) raws).

(** [enabled]: whether requests are logged at all. *)
Definition drop_log (enabled : bool) (duration : string) (log : RequestLog) : comp Sent :=
  let nothing := {| sent_labels := labels log; sent_span := None; sent_line := None |} in
  let enable_trace := bool_decide (is_Some (rl_tracer log)) in
  if negb enabled && negb enable_trace then Ret nothing
  else
    let ctx := match rl_llm_response log with
               | Some r => with_llm_response (cl_context (rl_cel log)) r
               | None => cl_context (rl_cel log)
               end in
    match build ctx with
    | None => Ret nothing
    | Some exec =>
      let enable_logs := enabled && eval_filter exec (cl_filter (rl_cel log)) in
      if negb enable_logs && negb enable_trace then Ret nothing
      else
        let kv := entries log duration in
        span ← match rl_tracer log with Some t => tracer_send t log exec kv | None => Ret None end;
        line ← (if enable_logs then line ← log_line (cl_fields (rl_cel log)) exec kv; Ret (Some line) else Ret None);
        Ret {| sent_labels := labels log; sent_span := span; sent_line := line |}
    end.
End log.

(** * Writing a line ([telemetry::log]) *)

Section lines.
(** An entry as it is written, and whether writing it succeeded; the start and the end of
    a line. *)
Context (write_entry : string → LogValue → string * bool) (start finish : string).

Fixpoint write_entries (kv : list (string * LogValue)) (buf : string) : string * bool :=
  match kv with
  | [] => (buf, true)
  | (k, v) :: kv =>
    let '(s, ok) := write_entry k v in
    if ok then write_entries kv (buf +:+ s) else (buf +:+ s, false)
  end.

(** The buffer of the thread, and the line that is sent; [sends]: the writer is there. *)
Definition write_line (sends : bool) (kv : Entries) (buf : string) : string * option string :=
  match write_entries (values kv) (buf +:+ start) with
  | (buf, false) => (buf, None)
  | (buf, true) => let buf := buf +:+ finish in if sends then ("", Some buf) else (buf, None)
  end.
End lines.

(** * Theorems *)

(** Every key in the order has a value. *)
Definition wf {V} (m : OrderedStringMap V) : Prop := Forall (λ k, is_Some (map m !! k)) (order m).

Lemma ordered_insert_lookup {V} (items : list (string * V)) (m : gmap string V) k :
  is_Some (m !! k) ∨ k ∈ items.*1 → is_Some (foldl (λ m '(k, v), <[k := v]> m) m items !! k).
Proof.
  revert m. induction items as [|[k' v] items IH]; intros m; simpl; [by intros [?|?%not_elem_of_nil]|].
  intros Hk. apply IH. rewrite lookup_insert. case_decide as Hkk; [by left|].
  destruct Hk as [Hk|[->|Hk]%elem_of_cons]; [by left|done|by right].
Qed.

Lemma from_iter_wf {V} (items : list (string * V)) : wf (from_iter items).
Proof. apply Forall_forall. intros k Hk. apply ordered_insert_lookup. by right. Qed.

Lemma iter_cons {V} (m : gmap string V) k ord v l :
  m !! k = Some v → iter (mkOrdered m ord) = Ret l → iter (mkOrdered m (k :: ord)) = Ret ((k, v) :: l).
Proof. unfold iter. simpl. intros -> Hl. simpl. by rewrite Hl. Qed.

Lemma iter_wf {V} (m : OrderedStringMap V) : wf m →
  ∃ l, iter m = Ret l ∧ l.*1 = order m ∧ Forall (λ kv, map m !! kv.1 = Some kv.2) l.
Proof.
  unfold wf. destruct m as [m ord]. simpl. induction 1 as [|k ord [v Hv] _ (l & Hl & Hk & Hf)]; [by exists []|].
  exists ((k, v) :: l). split_and!; [by apply iter_cons|by csimpl; f_equal|by constructor].
Qed.

Lemma iter_lookups {V} (m : gmap string V) items :
  (∀ k v, (k, v) ∈ items → m !! k = Some v) → iter (mkOrdered m items.*1) = Ret items.
Proof.
  induction items as [|[k v] items IH]; intros Hm; [done|]. csimpl.
  apply iter_cons; [apply Hm; by left|]. apply IH. intros k' v' Hin. apply Hm. by right.
Qed.

Lemma foldl_insert_notin {V} (items : list (string * V)) m k : k ∉ items.*1 →
  foldl (λ m '(k, v), <[k := v]> m) m items !! k = (m : gmap string V) !! k.
Proof.
  revert m. induction items as [|[k' v] items IH]; intros m Hk; [done|]. csimpl in Hk. simpl.
  rewrite IH by set_solver. rewrite lookup_insert_ne by set_solver. done.
Qed.

(** A list of pairs without repeated keys iterates as it was written. *)
Lemma iter_from_iter {V} (items : list (string * V)) : NoDup items.*1 → iter (from_iter items) = Ret items.
Proof.
  intros Hnd. apply iter_lookups. generalize (∅ : gmap string V).
  induction items as [|[k' v'] items IH]; intros m k v; [by intros ?%not_elem_of_nil|]. csimpl in Hnd. simpl.
  apply NoDup_cons in Hnd as [Hn Hnd]. intros [[= -> ->]|Hin]%elem_of_cons; [|by apply IH].
  by rewrite foldl_insert_notin, lookup_insert_eq by done.
Qed.

Section theorems.
Context `{!HeaderMapOps, !CelEngine}.

Lemma eval_fields_wf exec fields : wf (add fields) →
  ∃ l, eval_fields exec fields = Ret l ∧ l.*1 = order (add fields) ∧
    ∀ k o, (k, o) ∈ l ↔ k ∈ order (add fields) ∧ ∃ e, map (add fields) !! k = Some e ∧ o = eval_field exec e.
Proof.
  intros Hwf. destruct (iter_wf _ Hwf) as (l & Hl & Hk & Hf). unfold eval_fields. rewrite Hl. simpl.
  eexists. split; [done|]. split.
  - rewrite <-Hk. clear. induction l as [|[k e] l IH]; [done|]. csimpl. by rewrite IH.
  - intros k o. rewrite Forall_forall in Hf. rewrite list_elem_of_In, in_map_iff, <-Hk. split.
    + intros ([k' e] & [= <- <-] & Hin%list_elem_of_In). split; [by apply (list_elem_of_fmap_2 fst _ (k', e))|].
      exists e. by apply Hf in Hin.
    + intros (Hin & e & He & ->). apply list_elem_of_fmap in Hin as ([k' e'] & -> & Hin). exists (k', e'). simpl.
      pose proof (Hf _ Hin) as He'. simpl in He'. simpl in He. rewrite He in He'. injection He' as ->.
      split; [done|]. by apply list_elem_of_In.
Qed.

Lemma values_elem kv k v : (k, v) ∈ values kv ↔ (k, Some v) ∈ kv.
Proof.
  unfold values. rewrite list_elem_of_omap. split.
  - intros ([k' [v'|]] & Hin & Hv); simplify_eq/=; done.
  - intros Hin. by exists (k, Some v).
Qed.

Lemma values_app kv1 kv2 : values (kv1 ++ kv2) = values kv1 ++ values kv2.
Proof. apply omap_app. Qed.

Lemma values_sublist kv : (values kv).*1 `sublist_of` kv.*1.
Proof.
  induction kv as [|[k [v|]] kv IH]; [done| |]; unfold values; csimpl; [by apply sublist_skip|by apply sublist_cons].
Qed.

(** What a line says. The line of a request has the entries of the request, without those
    that are removed or replaced, and then the added fields in the order they were written,
    each with the value of its expression when there is one; no key has two values unless
    the configuration adds it twice. *)
Theorem log_line_exact fields exec kv : wf (add fields) →
  ∃ line, log_line fields exec kv = Ret line ∧ line.*1 = kv.*1 ++ order (add fields) ∧
    (∀ k v, (k, Some v) ∈ line ↔
       ((k, Some v) ∈ kv ∧ k ∉ remove fields ∧ map (add fields) !! k = None) ∨
       (k ∈ order (add fields) ∧ ∃ e j, map (add fields) !! k = Some e ∧ eval_field exec e = Some j ∧ v = VJson j)) ∧
    (NoDup kv.*1 → NoDup (order (add fields)) → NoDup (values line).*1).
Proof.
  intros Hwf. destruct (eval_fields_wf exec fields Hwf) as (raws & Hr & Hk & Hin). unfold log_line. rewrite Hr. simpl.
  set (base := List.map _ kv). set (added := List.map _ raws).
  assert (base.*1 = kv.*1) as Hb by (unfold base; clear; induction kv as [|[k v] kv IH]; [done|]; csimpl; by rewrite IH).
  assert (added.*1 = order (add fields)) as Ha
    by (unfold added; rewrite <-Hk; clear; induction raws as [|[k v] kv IH]; [done|]; csimpl; by rewrite IH).
  assert (∀ k v, (k, Some v) ∈ base ↔ (k, Some v) ∈ kv ∧ has fields k = false) as Hbase.
  { intros k v. unfold base. rewrite list_elem_of_In, in_map_iff. split.
    - intros ([k' v'] & Hv & Hi%list_elem_of_In). simpl in Hv. destruct (has fields k') eqn:Hh; [done|]. by simplify_eq.
    - intros [Hi%list_elem_of_In Hh]. exists (k, Some v). simpl. by rewrite Hh. }
  assert (∀ k, has fields k = false ↔ k ∉ remove fields ∧ map (add fields) !! k = None) as Hhas.
  { intros k. unfold has, contains_key. rewrite orb_false_iff, !bool_decide_eq_false, <-eq_None_not_Some. done. }
  assert (∀ k v, (k, Some v) ∈ added ↔ k ∈ order (add fields) ∧ ∃ e j, map (add fields) !! k = Some e ∧ eval_field exec e = Some j ∧ v = VJson j) as Hadd.
  { intros k v. unfold added. rewrite list_elem_of_In, in_map_iff. split.
    - intros ([k' o] & Hv & Hi%list_elem_of_In). simpl in Hv. destruct o as [j|]; simplify_eq/=.
      apply Hin in Hi as (Hord & e & He & Hj). split; [done|]. exists e, j. done.
    - intros (Hord & e & j & He & Hj & ->). exists (k, Some j). split; [done|]. apply list_elem_of_In, Hin.
      split; [done|]. by exists e. }
  eexists. split; [done|]. split; [by rewrite fmap_app, Hb, Ha|]. split.
  - intros k v. by rewrite elem_of_app, Hbase, Hadd, Hhas.
  - intros Hnd1 Hnd2. rewrite values_app, fmap_app. apply NoDup_app. split_and!.
    + eapply sublist_NoDup; [|apply values_sublist]; by rewrite Hb.
    + intros k ([k' v] & -> & Hi)%list_elem_of_fmap Hi2. apply values_elem, Hbase in Hi as [_ Hh]. apply Hhas in Hh as [_ Hnone].
      apply list_elem_of_fmap in Hi2 as ([k2 v2] & Hk2 & Hi2). simpl in Hk2, Hnone. rewrite Hk2 in Hnone.
      apply values_elem, Hadd in Hi2 as (_ & e & _ & He & _). congruence.
    + eapply sublist_NoDup; [|apply values_sublist]; by rewrite Ha.
Qed.

(** The keys of a request are different. *)
Lemma entries_keys log duration : NoDup (entries log duration).*1.
Proof. vm_compute. by apply (bool_decide_unpack _). Qed.
Lemma tracer_send_wf tracer request exec attrs : wf (add tracer) → is_Some (outgoing_span request) →
  ∃ o, tracer_send tracer request exec attrs = Ret o ∧
    (is_Some o ↔ ∃ sp, outgoing_span request = Some sp ∧ is_sampled sp = true) ∧
    ∀ span, o = Some span → values attrs `prefix_of` span_attributes span ∧
      ∃ sp, outgoing_span request = Some sp ∧ span_trace span = trace_id sp ∧ span_span span = span_id sp.
Proof.
  intros Hwf [sp Hsp]. unfold tracer_send. rewrite Hsp. simpl. destruct (is_sampled sp) eqn:Hs; simpl.
  - destruct (eval_fields_wf exec tracer Hwf) as (raws & -> & _). simpl. eexists. split; [done|]. split.
    + split; [|done]. intros _. by exists sp.
    + intros span [= <-]. simpl. split; [by eexists|]. by exists sp.
  - exists None. split; [done|]. split; [|done]. split; [by intros []|]. intros (sp' & [= <-] & ?). congruence.
Qed.

(** The context at the end of a request. *)
Definition final_context (log : RequestLog) : ContextBuilder :=
  match rl_llm_response log with
  | Some r => with_llm_response (cl_context (rl_cel log)) r
  | None => cl_context (rl_cel log)
  end.

(** What the end of a request sends. It is counted once, with its labels. A line is
    written exactly when lines are enabled, the context can be built and the filter, when
    there is one, gives true; a span is sent exactly when there is a tracer, the context
    can be built and the span is sampled, whatever the filter says, and it carries the
    entries that the line would have before anything is removed. *)
Theorem log_outcome enabled duration log :
  wf (add (cl_fields (rl_cel log))) →
  (∀ t, rl_tracer log = Some t → wf (add t) ∧ is_Some (outgoing_span log)) →
  ∃ s, drop_log enabled duration log = Ret s ∧ sent_labels s = labels log ∧
    match build (final_context log) with
    | None => sent_line s = None ∧ sent_span s = None
    | Some exec =>
      (is_Some (sent_line s) ↔ enabled = true ∧ eval_filter exec (cl_filter (rl_cel log)) = true) ∧
      (∀ line, sent_line s = Some line → log_line (cl_fields (rl_cel log)) exec (entries log duration) = Ret line) ∧
      (is_Some (sent_span s) ↔ is_Some (rl_tracer log) ∧ ∃ sp, outgoing_span log = Some sp ∧ is_sampled sp = true) ∧
      (∀ span, sent_span s = Some span → values (entries log duration) `prefix_of` span_attributes span)
    end.
Proof.
  intros Hwf Ht. unfold drop_log. fold (final_context log). generalize (entries log duration). intros kv.
  destruct (negb enabled && negb (bool_decide (is_Some (rl_tracer log)))) eqn:E.
  { apply andb_true_iff in E as [He%negb_true_iff Htr%negb_true_iff%bool_decide_eq_false].
    eexists. split; [done|]. split; [done|]. simpl. destruct (build (final_context log)); [|done].
    rewrite He. split_and!; try done; (split; [by intros []|]); [by intros []|by intros []]. }
  destruct (build (final_context log)) as [exec|]; [|by eexists].
  destruct (eval_fields_wf exec _ Hwf) as (raws & Hraws & _). unfold log_line. rewrite Hraws. simpl.
  destruct (rl_tracer log) as [t|].
  - destruct (Ht t eq_refl) as [Hwt Hsp].
    destruct (tracer_send_wf t log exec kv Hwt Hsp) as (o & -> & Hiff & Ho). rewrite andb_false_r. simpl.
    destruct (enabled && eval_filter _ _) eqn:El; simpl; (eexists; split; [done|]; split; [done|]); simpl.
    + apply andb_true_iff in El. split_and!; [done|by intros line [= <-]|naive_solver|by intros span Hs; apply Ho].
    + apply andb_false_iff in El. split_and!; [split; [by intros []|intros [? ?]; destruct El; congruence]|done|naive_solver|by intros span Hs; apply Ho].
  - destruct (enabled && eval_filter _ _) eqn:El; simpl; (eexists; split; [done|]; split; [done|]); simpl.
    + apply andb_true_iff in El. split_and!; [done|by intros line [= <-]|split; [by intros []|by intros [[] _]]|done].
    + apply andb_false_iff in El. split_and!; [split; [by intros []|intros [? ?]; destruct El; congruence]|done|split; [by intros []|by intros [[] _]]|done].
Qed.

Lemma foldl_register (l : list Expression) ctx e :
  e ∈ l ∨ expr_attributes e ⊆ attributes ctx → expr_attributes e ⊆ attributes (foldl register_expression ctx l).
Proof.
  revert ctx. induction l as [|e' l IH]; intros ctx He; simpl; [by destruct He as [?%not_elem_of_nil|]|].
  apply IH. simpl. destruct He as [[->|He]%elem_of_cons|He]; [right; set_solver|by left|right; set_solver].
Qed.

(** Nothing is missing when a line is made: the context records what the filter and every
    added field need. *)
Theorem log_registered cfg e :
  cfg_filter cfg = Some e ∨ (∃ k, map (add (cfg_fields cfg)) !! k = Some e) →
  expr_attributes e ⊆ attributes (cl_context (CelLogging_new cfg)).
Proof.
  intros He. unfold CelLogging_new, register. simpl. apply foldl_register. destruct He as [->|[k Hk]].
  - right. simpl. set_solver.
  - left. apply list_elem_of_fmap. exists (k, e). split; [done|]. by apply elem_of_map_to_list.
Qed.
End theorems.

Section line_theorems.
Context (write_entry : string → LogValue → string * bool) (start finish : string).

Lemma write_entries_ok kv buf : Forall (λ e, (write_entry e.1 e.2).2 = true) kv →
  write_entries write_entry kv buf = (foldl (λ b e, b +:+ (write_entry e.1 e.2).1) buf kv, true).
Proof.
  intros Hok. revert buf. induction Hok as [|[k v] kv He _ IH]; intros buf; simpl; [done|]. simpl in He.
  destruct (write_entry k v) as [s ok]. simpl in He. by rewrite He, IH.
Qed.

Lemma write_entries_prefix kv buf : ∃ s, (write_entries write_entry kv buf).1 = buf +:+ s.
Proof.
  revert buf. induction kv as [|[k v] kv IH]; intros buf; simpl; [exists ""; by rewrite Str.app_nil_r|].
  destruct (write_entry k v) as [s [|]]; [|by exists s]. destruct (IH (buf +:+ s)) as [s' ->]. exists (s +:+ s'). by rewrite Str.app_assoc.
Qed.
(** A line that cannot be written spoils the next one. Lines whose entries can be
    written leave an empty buffer; when an entry cannot, or the writer is gone, what was
    written stays in the thread's buffer, and the next line begins with it. *)
Theorem log_partial_line kv :
  (Forall (λ e, (write_entry e.1 e.2).2 = true) (values kv) →
     write_line write_entry start finish true kv "" =
       ("", Some (foldl (λ b e, b +:+ (write_entry e.1 e.2).1) start (values kv) +:+ finish))) ∧
  (∀ sends buf left, write_line write_entry start finish sends kv buf = (left, None) →
     (∃ s, left = (buf +:+ start) +:+ s) ∧
     ∀ kv' line rest, write_line write_entry start finish true kv' left = (rest, Some line) →
       rest = "" ∧ ∃ s, line = left +:+ s).
Proof.
  assert (∀ kv b, ∃ s, (write_entries write_entry kv b).1 = b +:+ s) as Hpre by apply write_entries_prefix. split.
  - intros Hok. unfold write_line. by rewrite write_entries_ok.
  - intros sends buf left Hw. split.
    + unfold write_line in Hw. destruct (Hpre (values kv) (buf +:+ start)) as [s Hs].
      destruct (write_entries _ _ _) as [b [|]]; simpl in Hs; subst b; [|injection Hw as <-; by exists s].
      destruct sends; [done|]. injection Hw as <-. exists (s +:+ finish). by rewrite <-Str.app_assoc.
    + intros kv' line rest Hw'. unfold write_line in Hw'. destruct (Hpre (values kv') (left +:+ start)) as [s Hs].
      destruct (write_entries _ _ _) as [b [|]]; simpl in Hs; subst b; [|done]. injection Hw' as <- <-. split; [done|].
      exists (start +:+ s +:+ finish). by rewrite !Str.app_assoc.
Qed.
End line_theorems.

(** * A request and its line *)

Module LogExample.
#[local] Existing Instance gmap_headers.

(** Expressions are their own text, and [user] is the number of the request. *)
Definition engine : CelEngine := {|
  Executor := ();
  build_with_mcp _ _ := Some ();
  eval _ e := Some (if Str.eqb (original_expression e) "fail" then COther Null else CString (original_expression e));
  value_json v := match v with CString s => Some (Str s) | _ => None end
|}.
#[local] Existing Instance engine.

Definition expr (s : string) : Expression := {| original_expression := s; expr_attributes := {["request"]} |}.
Definition fields : LoggingFields :=
  {| remove := {["http.path"]}; add := from_iter [("user", expr "me"); ("http.host", expr "fail")] |}.
Definition kv : Entries := [("http.host", Some (VText "a.com")); ("http.path", Some (VText "/secret")); ("error", None)].

Lemma fields_wf : wf (add fields).
Proof. apply from_iter_wf. Qed.

Lemma log_line_exact_witness : ∃ line, @log_line gmap_headers engine fields tt kv = Ret line ∧
  line.*1 = ["http.host"; "http.path"; "error"; "user"; "http.host"].
Proof.
  destruct (@log_line_exact gmap_headers engine fields tt kv fields_wf) as (line & Hl & Hk & _). exists line. split; [exact Hl|].
  rewrite Hk. reflexivity.
Defined.

Definition cel : CelLogging := CelLogging_new {| cfg_filter := None; cfg_fields := fields |}.
Definition request : RequestLog :=
  {| rl_cel := cel; rl_tracer := None; src_addr := "1.2.3.4:5"; endpoint := None; bind_name := None; gateway_name := None;
     listener_name := None; route_rule_name := None; route_name := None; backend_name := None; host := Some "a.com";
     method := Some "GET"; path := Some "/secret"; http_version := None; status := Some 200%N; jwt_sub := None;
     retry_attempt := None; error := None; grpc_status := None; mcp_status := None; incoming_span := None;
     outgoing_span := None; rl_llm_request := None; rl_llm_response := None; a2a_method := None; inference_pool := None |}.

Lemma log_outcome_witness : ∃ s, drop_log true "3ms" request = Ret s ∧ is_Some (sent_line s).
Proof.
  destruct (log_outcome true "3ms" request fields_wf) as (s & Hs & _ & Hline & _); [done|].
  exists s. split; [exact Hs|]. by apply Hline.
Defined.

Lemma log_registered_witness : {["request"]} ⊆ attributes (cl_context cel).
Proof. apply (log_registered {| cfg_filter := None; cfg_fields := fields |} (expr "me")). right. exists "user". reflexivity. Defined.

(** The second value cannot be written. *)
Definition write (k : string) (v : LogValue) : string * bool := (" " +:+ k +:+ "=", match v with VText _ => true | _ => false end).

Lemma log_partial_line_example :
  write_line write "info" "." true [("a", Some (VText "")); ("b", Some (VNumber 1))] "" = ("info a= b=", None) ∧
  write_line write "info" "." true [("c", Some (VText ""))] "info a= b=" = ("", Some "info a= b=info c=.").
Proof. done. Qed.
End LogExample.
