(* ===== verification/HttpHeaders.v ===== *)
(** HttpHeaders: what [proxy/httpproxy.rs] does to the headers and the URI of a
    request before it is routed: [normalize_uri] and [hop_by_hop_headers].

    The typed headers of the [headers] crate are a parameter: whether the
    [Connection] header is there and readable, and which options it lists. *)
From S2P Require Import Prelude Strs Http DiscoveryTypes AgentTypes Filters HttpProxy.

Section headers.
Context `{!HeaderMapOps, !HttpParsers}.
(** [HeaderValue::to_str(..).ok()], [typed_get::<headers::Connection>()] and
    [Uri::from_parts] on scheme, authority and path. *)
Context (to_str : string → option string).
Context (typed_connection : HeaderMap → option (string → bool)).
Context (Uri_from_parts : option string → option string → option string → result Uri string).

(** * Normalisation *)

(** [Uri::default()], left in the request when it fails. *)
Definition Uri_default : Uri :=
  {| uri_scheme := None; uri_authority := None; uri_path_and_query := Some "/"; uri_host := None;
     uri_port := None; uri_path := "/"; uri_query := None |}.

(** [tls] tells whether the connection has a [TLSConnectionInfo]. *)
Definition normalize_uri (version : Version) (tls : bool) (req : Request) : Request * result () string :=
  match version, uri_authority (req_uri req) with
  | (HTTP_10 | HTTP_11), None =>
    let orig := req_uri req in
    match (hdr_get (req_headers req) "host" ≫= to_str) ≫= Authority_try_from with
    | None => (with_uri req Uri_default, Err "no authority or host")
    | Some host =>
      let headers := hdr_remove (req_headers req) "host" in
      let scheme := match uri_path_and_query orig with
                    | Some _ => Some (if tls then HTTPS else HTTP)
                    | None => uri_scheme orig
                    end in
      match Uri_from_parts scheme (Some host) (uri_path_and_query orig) with
      | Ok uri => (with_uri (with_headers req headers) uri, Ok ())
      | Err e => (with_uri (with_headers req headers) Uri_default, Err e)
      end
    end
  | _, _ => (req, Ok ())
  end.

(** * Hop-by-hop headers *)

Definition HOP_HEADERS : list string :=
  ["connection"; "proxy-connection"; "keep-alive"; "proxy-authenticate"; "proxy-authorization";
   "te"; "trailer"; "transfer-encoding"; "upgrade"].

Definition upgrade_type (headers : HeaderMap) : option string :=
  match typed_connection headers with
  | Some con => if con "upgrade" then hdr_get headers "upgrade" else None
  | None => None
  end.

(** [headers().get(TE).and_then(to_str).map(contains("trailers")).unwrap_or(false)] *)
Definition accepts_trailers (headers : HeaderMap) : bool :=
  default false (Str.contains "trailers" <$> (hdr_get headers "te" ≫= to_str)).

(** [on_upgrade] is the [OnUpgrade] extension, which is taken out of the request;
    the upgrade is offered when the client asked for one. *)
Definition hop_by_hop_headers (req : Request) (on_upgrade : option Handle)
    : Request * option (string * Handle) :=
  let trailers := accepts_trailers (req_headers req) in
  let upgrade := upgrade_type (req_headers req) in
  let headers := foldl hdr_remove (req_headers req) HOP_HEADERS in
  let headers := if trailers then hdr_insert headers "te" "trailers" else headers in
  let headers := match upgrade with
                 | Some t => hdr_insert (hdr_insert headers "connection" "upgrade") "upgrade" t
                 | None => headers
                 end in
  (with_headers req headers,
   match upgrade, on_upgrade with Some t, Some u => Some (t, u) | _, _ => None end).
End headers.

(** * Theorems *)

Section facts.
Context `{!HeaderMapOps, !HeaderMapLaws}.

Lemma get_all_removed (names : list string) h k :
  hdr_get_all (foldl hdr_remove h names) k = if decide (k ∈ names) then [] else hdr_get_all h k.
Proof.
  revert h. induction names as [|n names IH]; intros h; simpl; [done|].
  rewrite IH, hdr_get_all_remove. repeat case_decide; set_solver.
Qed.
End facts.

(** The hop-by-hop headers. After the step a request carries exactly: for [te],
    [trailers] if the client accepts them; for [connection] and [upgrade], the
    upgrade the client asked for; none of the other hop-by-hop headers; and every
    other header as it was. An upgrade is offered to the backend only if the
    client asked for one on a connection that can be upgraded. *)
Theorem hop_by_hop_headers_forwarded `{!HeaderMapOps, !HeaderMapLaws} to_str typed_connection req on_upgrade :
  let '(req', offered) := hop_by_hop_headers to_str typed_connection req on_upgrade in
  let upgrade := upgrade_type typed_connection (req_headers req) in
  (∀ k, hdr_get_all (req_headers req') k =
     if decide (k = "te") then (if accepts_trailers to_str (req_headers req) then ["trailers"] else [])
     else if decide (k = "connection") then (match upgrade with Some _ => ["upgrade"] | None => [] end)
     else if decide (k = "upgrade") then option_list upgrade
     else if decide (k ∈ HOP_HEADERS) then []
     else hdr_get_all (req_headers req) k) ∧
  (∀ t u, offered = Some (t, u) ↔ upgrade = Some t ∧ on_upgrade = Some u) ∧
  req_method req' = req_method req ∧ req_uri req' = req_uri req.
Proof.
  unfold hop_by_hop_headers.
  set (tr := accepts_trailers to_str (req_headers req)).
  set (up := upgrade_type typed_connection (req_headers req)).
  assert (∀ k h0, hdr_get_all (if tr then hdr_insert h0 "te" "trailers" else h0) k =
    if decide (k = "te" ∧ tr = true) then ["trailers"] else hdr_get_all h0 k) as Htr.
  { intros k h0. destruct tr; rewrite ?hdr_get_all_insert; repeat case_decide; naive_solver. }
  cbv zeta. split_and!; [|intros t u; destruct up, on_upgrade; naive_solver|done|done].
  intros k. unfold with_headers. cbn [req_headers].
  destruct up as [t|]; rewrite ?hdr_get_all_insert, Htr, get_all_removed; unfold HOP_HEADERS;
    destruct tr; repeat case_decide; set_solver.
Qed.

Lemma hop_by_hop_headers_forwarded_witness :
  let h := gmap_headers in
  let req := {| req_method := "GET"; req_uri := example_uri "/";
                req_headers := hdr_insert (hdr_insert hdr_new "te" "gzip") "x-a" "1";
                req_body := ""; req_original_url := None |} in
  let req' := (hop_by_hop_headers Some (λ _, None) req None).1 in
  hdr_get_all (req_headers req') "te" = [] ∧ hdr_get_all (req_headers req') "x-a" = ["1"].
Proof.
  pose proof (@hop_by_hop_headers_forwarded gmap_headers gmap_headers_laws Some (λ _, None)
    (@Build_Request gmap_headers "GET" (example_uri "/")
      (@hdr_insert gmap_headers (@hdr_insert gmap_headers (@hdr_new gmap_headers) "te" "gzip") "x-a" "1") "" None)
    None) as H.
  destruct H as [H _]. cbv zeta. split; [exact (H "te")|exact (H "x-a")].
Defined.

(** A request that passes normalisation over HTTP/1 has an authority: its own, or
    that of the [Host] header, which is then removed, with the path kept and the
    scheme of the connection. *)
Theorem normalize_uri_authority `{!HeaderMapOps, !HeaderMapLaws, !HttpParsers} to_str Uri_from_parts
    version tls req req' :
  (∀ s a p u, Uri_from_parts s a p = Ok u →
     uri_scheme u = s ∧ uri_authority u = a ∧ uri_path_and_query u = p) →
  version ≠ HTTP_2 →
  normalize_uri to_str Uri_from_parts version tls req = (req', Ok ()) →
  match uri_authority (req_uri req) with
  | Some _ => req' = req
  | None => ∃ host h,
      hdr_get (req_headers req) "host" = Some h ∧ to_str h ≫= Authority_try_from = Some host ∧
      uri_authority (req_uri req') = Some host ∧
      uri_path_and_query (req_uri req') = uri_path_and_query (req_uri req) ∧
      (is_Some (uri_path_and_query (req_uri req)) →
         uri_scheme (req_uri req') = Some (if tls then HTTPS else HTTP)) ∧
      hdr_get_all (req_headers req') "host" = [] ∧
      ∀ k, k ≠ "host" → hdr_get_all (req_headers req') k = hdr_get_all (req_headers req) k
  end.
Proof.
  intros Hparts Hv. unfold normalize_uri.
  destruct (uri_authority (req_uri req)) as [a|]; [by destruct version; intros [= <-]|].
  destruct (hdr_get (req_headers req) "host") as [h|] eqn:Hh; [|by destruct version].
  simpl. destruct (to_str h ≫= Authority_try_from) as [host|] eqn:Ha; [|by destruct version].
  destruct (Uri_from_parts _ _ _) as [u|e] eqn:Hu; [|by destruct version].
  apply Hparts in Hu as (Hs & Haut & Hpq). intros Heq.
  assert (req' = with_uri (with_headers req (hdr_remove (req_headers req) "host")) u) as ->
    by (destruct version; by simplify_eq). simpl.
  exists host, h. split_and!; [done|done|done|done| | |].
  - intros [p Hp]. by rewrite Hs, Hp.
  - rewrite hdr_get_all_remove. by rewrite decide_True.
  - intros k Hk. rewrite hdr_get_all_remove. by rewrite decide_False.
Qed.
