(* ===== verification/Hbone.v ===== *)
(** Hbone: the pool of tunnels ([hbone/src/pool.rs], [hbone/src/client.rs], the counting of
    streams of [hbone/src/lib.rs]): connections are shared by the requests with the same
    key, at most one is being opened for a key at a time, and a request that cannot open
    one itself waits until some connection is put into the pool.

    A connection is the number of its stream counter, which its clones share.  The inner
    pool of the [pingora_pool] crate gives any connection that was put under a hash and
    not taken since, and may drop any at any time.  Tasks interleave at the points where
    the code locks, waits or opens a connection. *)
From S2P Require Import Prelude Strs.

(** * Connections and their streams ([client.rs]) *)

Definition u16_max : N := 65535.

Record H2ConnectClient (K : Type) := mkClient { sender : nat; max_allowed_streams : N; wl_key : K }.
Arguments mkClient {_} _ _ _.
Arguments sender {_} _.
Arguments max_allowed_streams {_} _.
Arguments wl_key {_} _.

(** The counters of the connections. *)
Abbreviation Counts := (gmap nat N).
Definition count_of (counts : Counts) (c : nat) : N := default 0%N (counts !! c).
Definition fetch_add (counts : Counts) (c : nat) : Counts := <[c := ((count_of counts c + 1) mod 65536)%N]> counts.
Definition fetch_sub (counts : Counts) (c : nat) : Counts := <[c := ((count_of counts c + 65535) mod 65536)%N]> counts.

(** What the peer allows, capped by the configuration. *)
Definition max_streams (pool_max_streams_per_conn max_concurrent_send_streams : N) : N :=
  N.min pool_max_streams_per_conn
    (if decide (max_concurrent_send_streams ≤ u16_max)%N then max_concurrent_send_streams else u16_max).

Section client.
Context {K : Type} `{!EqDecision K}.

Definition is_for_workload (self : H2ConnectClient K) (key : K) : result () string :=
  if decide (wl_key self = key) then Ok () else Err "connection does not match workload key!".

Definition will_be_at_max_streamcount (counts : Counts) (self : H2ConnectClient K) : bool :=
  bool_decide (max_allowed_streams self ≤ (count_of counts (sender self) + 1) mod 65536)%N.

Inductive PollReady := Ready | ReadyErr | Pending.
Definition ready_to_use (p : PollReady) : bool := match p with Ready => true | _ => false end.
End client.

(** A stream of a connection: which halves are alive.  [send_request] is [begin], then
    [finish] with the outcome of the request. *)
Record Stream := mkStream { st_conn : nat; st_read : bool; st_write : bool }.

Definition send_request_begin (counts : Counts) (c : nat) : Counts := fetch_add counts c.
Definition send_request_finish (counts : Counts) (c : nat) (ok : bool) : Counts * option Stream :=
  if ok then (counts, Some (mkStream c true true)) else (fetch_sub counts c, None).

(** Dropping the read or the write half.  [Arc::into_inner] gives the value only to the
    last of the two. *)
Definition into_inner_is_none (other_alive : bool) : bool := other_alive.
Definition DropCounter_drop (counts : Counts) (c : nat) (other_alive : bool) : Counts :=
  if into_inner_is_none other_alive then fetch_sub counts c else counts.

(** * The pool ([pool.rs]) *)

Section pool.
Context {K : Type} `{!EqDecision K} (hash : K → N).

Record PoolState := mkPool {
  (** the locks that exist, by hash, and who holds one *)
  writelocks : gset N;
  holder : gmap N nat;
  (** [connected_pool] *)
  connected : gmap N (list (H2ConnectClient K));
  (** how often the notifier has sent *)
  version : nat;
  counts : Counts;
  (** the connections that were opened *)
  opened : nat
}.

(** Where a task is in [connect]: in the checkout (the first one or one after a
    notification), waiting for the lock, in the loop under the lock, opening a connection
    under the lock, before the insertion of the lock, before [try_lock], waiting for a
    notification. *)
Inductive Pc :=
| PcCheckout (initial : bool)
| PcLock (initial : bool)
| PcLoop
| PcSpawn
| PcInsert
| PcTry
| PcWait
| PcDone (r : result (H2ConnectClient K) string).

Record Task := mkTask { t_key : K; t_seen : nat; t_pc : Pc }.
Record Sys := mkSys { pool : PoolState; tasks : gmap nat Task }.

Definition with_connected (p : PoolState) (c : gmap N (list (H2ConnectClient K))) : PoolState :=
  mkPool (writelocks p) (holder p) c (version p) (counts p) (opened p).
Definition lock (h : N) (i : nat) (p : PoolState) : PoolState :=
  mkPool (writelocks p) (<[h := i]> (holder p)) (connected p) (version p) (counts p) (opened p).
Definition unlock (h : N) (p : PoolState) : PoolState :=
  mkPool (writelocks p) (delete h (holder p)) (connected p) (version p) (counts p) (opened p).
Definition pooled (p : PoolState) (h : N) : list (H2ConnectClient K) := default [] (connected p !! h).

Definition maybe_checkin_conn (conn : H2ConnectClient K) (h : N) (p : PoolState) : PoolState :=
  if will_be_at_max_streamcount (counts p) conn then p
  else mkPool (writelocks p) (holder p) (<[h := conn :: pooled p h]> (connected p)) (S (version p)) (counts p) (opened p).

(** [connected_pool.get]: the [n]-th connection of the hash. *)
Definition pool_take (p : PoolState) (h : N) (n : nat) : option (H2ConnectClient K * PoolState) :=
  c ← pooled p h !! n;
  Some (c, with_connected p (<[h := delete n (pooled p h)]> (connected p))).

(** [new_pool_conn], once it has an outcome. *)
Definition new_pool_conn (key : K) (outcome : result N string) (p : PoolState)
    : result (H2ConnectClient K) string * PoolState :=
  match outcome with
  | Ok max =>
    (Ok (mkClient (opened p) max key),
     mkPool (writelocks p) (holder p) (connected p) (version p) (<[opened p := 0%N]> (counts p)) (S (opened p)))
  | Err e => (Err e, p)
  end.

(** What the environment decides in a step: which connection the inner pool gives and
    whether it is ready, how opening one ends. *)
Inductive Choice := ChTake (n : nat) (ready : PollReady) | ChOutcome (r : result N string).

(** The end of a checkout or of a won lock: check in, release, return. *)
Definition return_conn (h : N) (conn : H2ConnectClient K) (p : PoolState) : PoolState * Pc :=
  (unlock h (maybe_checkin_conn conn h p), PcDone (Ok conn)).

(** One iteration of the loop of [checkout_conn_under_writelock]; [None] when the pool
    does not give what was chosen. *)
Definition checkout_loop (key : K) (h : N) (choice : Choice) (p : PoolState) : option (PoolState * Pc) :=
  match pooled p h with
  | [] => Some (p, PcSpawn)
  | _ :: _ =>
    match choice with
    | ChTake n ready =>
      '(conn, p) ← pool_take p h n;
      Some (match is_for_workload conn key with
            | Err e => (unlock h p, PcDone (Err e))
            | Ok _ => if ready_to_use ready then return_conn h conn p else (p, PcLoop)
            end)
    | ChOutcome _ => None
    end
  end.

Definition spawn (key : K) (h : N) (choice : Choice) (p : PoolState) : option (PoolState * Pc) :=
  match choice with
  | ChOutcome outcome =>
    Some (match new_pool_conn key outcome p with
          | (Ok conn, p) => return_conn h conn p
          | (Err e, p) => (unlock h p, PcDone (Err e))
          end)
  | ChTake _ _ => None
  end.

(** The next step of task [i] in [connect]; [None] while it waits.  A missing lock is the
    [unwrap] of [start_conn_if_win_writelock]. *)
Definition advance (i : nat) (t : Task) (choice : Choice) (p : PoolState) : comp (option (PoolState * Task)) :=
  let h := hash (t_key t) in
  let go pc := mkTask (t_key t) (t_seen t) pc in
  match t_pc t with
  | PcCheckout initial =>
    Ret (Some (p, go (if decide (h ∈ writelocks p) then PcLock initial
                      else if initial then PcInsert else PcWait)))
  | PcLock initial =>
    Ret (match holder p !! h with Some _ => None | None => Some (lock h i p, go PcLoop) end)
  | PcLoop => Ret ('(p, pc) ← checkout_loop (t_key t) h choice p; Some (p, go pc))
  | PcSpawn => Ret ('(p, pc) ← spawn (t_key t) h choice p; Some (p, go pc))
  | PcInsert =>
    Ret (Some (mkPool ({[h]} ∪ writelocks p) (holder p) (connected p) (version p) (counts p) (opened p), go PcTry))
  | PcTry =>
    if decide (h ∈ writelocks p) then
      Ret (Some (match holder p !! h with
                 | None => (lock h i p, go PcSpawn)
                 | Some _ => (p, go PcWait)
                 end))
    else Panic
  | PcWait =>
    Ret (if decide (version p = t_seen t) then None
         else Some (p, mkTask (t_key t) (version p) (PcCheckout false)))
  | PcDone _ => Ret None
  end.

(** What happens besides: a request arrives with a clone of the pool, whose receiver has
    seen nothing; the inner pool drops a connection; streams come and go. *)
Inductive step : Sys → Sys → Prop :=
| step_task s i t choice p' t' :
  tasks s !! i = Some t → advance i t choice (pool s) = Ret (Some (p', t')) →
  step s (mkSys p' (<[i := t']> (tasks s)))
| step_arrive s i key :
  tasks s !! i = None → step s (mkSys (pool s) (<[i := mkTask key 0 (PcCheckout true)]> (tasks s)))
| step_evict s h n :
  step s (mkSys (with_connected (pool s) (<[h := delete n (pooled (pool s) h)]> (connected (pool s)))) (tasks s))
| step_streams s counts' :
  step s (mkSys (mkPool (writelocks (pool s)) (holder (pool s)) (connected (pool s)) (version (pool s)) counts'
                   (opened (pool s))) (tasks s)).

Definition initial : Sys := mkSys (mkPool ∅ ∅ ∅ 0 ∅ 0) ∅.
Definition reachable : Sys → Prop := rtc step initial.

(** ** The invariant *)

Definition holds_lock (pc : Pc) : bool := match pc with PcLoop | PcSpawn => true | _ => false end.
Definition needs_lock (pc : Pc) : bool :=
  match pc with PcCheckout true | PcInsert | PcDone _ => false | _ => true end.

Record inv (s : Sys) : Prop := {
  inv_holder : ∀ h i, holder (pool s) !! h = Some i ↔
    ∃ t, tasks s !! i = Some t ∧ hash (t_key t) = h ∧ holds_lock (t_pc t) = true;
  inv_writelocks : ∀ i t, tasks s !! i = Some t → needs_lock (t_pc t) = true → hash (t_key t) ∈ writelocks (pool s);
  inv_pooled : ∀ h c, c ∈ pooled (pool s) h → hash (wl_key c) = h;
  inv_done : ∀ i t c, tasks s !! i = Some t → t_pc t = PcDone (Ok c) → wl_key c = t_key t
}.

(** What a step of a task does to the pool, as far as the invariant goes. *)
Record effect (i : nat) (t t' : Task) (p p' : PoolState) : Prop := {
  ef_key : t_key t' = t_key t;
  ef_writelocks : writelocks p ⊆ writelocks p';
  ef_lock : needs_lock (t_pc t') = true → hash (t_key t) ∈ writelocks p';
  ef_holder : holder p' = if holds_lock (t_pc t') then <[hash (t_key t) := i]> (holder p)
                          else if holds_lock (t_pc t) then delete (hash (t_key t)) (holder p) else holder p;
  ef_taken : holds_lock (t_pc t') = true → holds_lock (t_pc t) = false → holder p !! hash (t_key t) = None;
  ef_pooled : ∀ h c, c ∈ pooled p' h → c ∈ pooled p h ∨ hash (wl_key c) = h;
  ef_done : ∀ c, t_pc t' = PcDone (Ok c) → wl_key c = t_key t
}.

Lemma pooled_insert p h l h' : pooled (with_connected p (<[h := l]> (connected p))) h' = if decide (h = h') then l else pooled p h'.
Proof. unfold pooled, with_connected. simpl. rewrite lookup_insert. by case_decide. Qed.

Lemma elem_of_delete {A} (l : list A) n x : x ∈ delete n l → x ∈ l.
Proof. apply sublist_subseteq, sublist_delete. Qed.

Lemma maybe_checkin_conn_same conn h p :
  writelocks (maybe_checkin_conn conn h p) = writelocks p ∧ holder (maybe_checkin_conn conn h p) = holder p ∧
  version p ≤ version (maybe_checkin_conn conn h p) ∧
  ∀ h' c, c ∈ pooled (maybe_checkin_conn conn h p) h' → c ∈ pooled p h' ∨ c = conn ∧ h' = h.
Proof.
  unfold maybe_checkin_conn. destruct (will_be_at_max_streamcount _ _); [by eauto|]. simpl.
  split_and!; [done|done|lia|]. intros h' c. unfold pooled at 1. simpl. rewrite lookup_insert.
  case_decide; simpl; [subst|by left]. intros [->|Hc]%elem_of_cons; [by right|by left].
Qed.

Lemma pool_take_spec p h n c p' :
  pool_take p h n = Some (c, p') →
  c ∈ pooled p h ∧ p' = with_connected p (<[h := delete n (pooled p h)]> (connected p)).
Proof.
  unfold pool_take. intros (c' & Hc & [= <- <-])%bind_Some. split; [|done]. by eapply list_elem_of_lookup_2.
Qed.

Lemma return_conn_effect i t seen h conn p :
  hash (t_key t) = h → holds_lock (t_pc t) = true → wl_key conn = t_key t →
  effect i t (mkTask (t_key t) seen (return_conn h conn p).2) p (return_conn h conn p).1.
Proof.
  intros <- Hl Hk. destruct (maybe_checkin_conn_same conn (hash (t_key t)) p) as (Hw & Hh & _ & Hc).
  split; simpl; rewrite ?Hl; try done; [by rewrite Hw|by rewrite Hh| |].
  - intros h c [Hin|[-> ->]]%Hc; [by left|right]. by rewrite Hk.
  - by intros c [= <-].
Qed.

Lemma checkout_loop_effect i t choice p p' pc' :
  t_pc t = PcLoop → holder p !! hash (t_key t) = Some i → hash (t_key t) ∈ writelocks p →
  checkout_loop (t_key t) (hash (t_key t)) choice p = Some (p', pc') →
  effect i t (mkTask (t_key t) (t_seen t) pc') p p'.
Proof.
  intros Hpc Hh Hw. unfold checkout_loop. destruct (pooled p (hash (t_key t))) as [|c0 l] eqn:Hp.
  - intros [= <- <-]. split; simpl; try done; [by rewrite insert_id|by rewrite Hpc|by left].
  - destruct choice as [n ready|]; [|done]. intros ([conn p1] & Htake & [= Heq])%bind_Some.
    apply pool_take_spec in Htake as [_ ->].
    set (p1 := with_connected p _) in Heq.
    assert (∀ h c, c ∈ pooled p1 h → c ∈ pooled p h) as Hsub.
    { intros h c. unfold p1. rewrite pooled_insert. case_decide; [subst|done]. apply elem_of_delete. }
    unfold is_for_workload in Heq. destruct (decide (wl_key conn = t_key t)) as [Hk|].
    + destruct (ready_to_use ready).
      * pose proof (return_conn_effect i t (t_seen t) _ conn p1 eq_refl ltac:(by rewrite Hpc) Hk) as [].
        rewrite Heq in *. simpl in *. split; try done. intros h c Hc.
        destruct (ef_pooled0 h c Hc); [left; by apply Hsub|by right].
      * injection Heq as <- <-. split; simpl; try done; [by rewrite insert_id|by rewrite Hpc|]. intros. left. by apply Hsub.
    + injection Heq as <- <-. split; simpl; try done; [by rewrite Hpc|]. intros. left. by apply Hsub.
Qed.

Lemma spawn_effect i t choice p p' pc' :
  t_pc t = PcSpawn →
  spawn (t_key t) (hash (t_key t)) choice p = Some (p', pc') →
  effect i t (mkTask (t_key t) (t_seen t) pc') p p'.
Proof.
  intros Hpc. unfold spawn. destruct choice as [|[max|e]]; [done|..]; simpl; intros [= <- <-].
  - set (p1 := mkPool _ _ _ _ _ _). set (conn := mkClient _ _ _).
    pose proof (return_conn_effect i t (t_seen t) _ conn p1 eq_refl ltac:(by rewrite Hpc) eq_refl) as [].
    by split.
  - split; simpl; try done; [by rewrite Hpc|by left].
Qed.

Lemma advance_effect i t choice p p' t' :
  advance i t choice p = Ret (Some (p', t')) →
  (holds_lock (t_pc t) = true → holder p !! hash (t_key t) = Some i) →
  (needs_lock (t_pc t) = true → hash (t_key t) ∈ writelocks p) →
  effect i t t' p p'.
Proof.
  unfold advance. destruct t as [key seen pc]; simpl. intros Hadv Hh Hw.
  destruct pc as [init|init| | | | | |r]; simpl in *.
  - simplify_eq. case_decide as Hin; [|destruct init; [|by specialize (Hw eq_refl)]]; split; simpl; (done || by left).
  - destruct (holder p !! hash key) as [j|] eqn:Hj; [done|]. simplify_eq. split; simpl; try done; by auto.
  - injection Hadv as Hadv. apply bind_Some in Hadv as ([p1 pc1] & Hc & [= <- <-]).
    eapply (checkout_loop_effect i (mkTask key seen PcLoop)); simpl; eauto.
  - injection Hadv as Hadv. apply bind_Some in Hadv as ([p1 pc1] & Hc & [= <- <-]).
    by eapply (spawn_effect i (mkTask key seen PcSpawn)).
  - simplify_eq. split; simpl; try done; [set_solver|set_solver|by left].
  - case_decide as Hin; [|done]. destruct (holder p !! hash key) as [j|] eqn:Hj; simplify_eq; split; simpl; (done || by left).
  - case_decide; [done|]. simplify_eq. split; simpl; try done; by auto.
  - done.
Qed.

(** The holder of a lock after a step of one task. *)
Lemma holder_step (H : gmap N nat) (ts : gmap nat Task) i t t' :
  (∀ h j, H !! h = Some j ↔ ∃ t, ts !! j = Some t ∧ hash (t_key t) = h ∧ holds_lock (t_pc t) = true) →
  ts !! i = Some t → t_key t' = t_key t →
  (holds_lock (t_pc t') = true → holds_lock (t_pc t) = false → H !! hash (t_key t) = None) →
  ∀ h j,
    (if holds_lock (t_pc t') then <[hash (t_key t) := i]> H
     else if holds_lock (t_pc t) then delete (hash (t_key t)) H else H) !! h = Some j ↔
    ∃ u, <[i := t']> ts !! j = Some u ∧ hash (t_key u) = h ∧ holds_lock (t_pc u) = true.
Proof.
  intros Hholder Ht Hkey Htaken h j.
  assert (∀ h', H !! h' = Some i ↔ hash (t_key t) = h' ∧ holds_lock (t_pc t) = true) as Hi.
  { intros h'. rewrite Hholder, Ht. naive_solver. }
  destruct (decide (i = j)) as [<-|Hne].
  - rewrite lookup_insert_eq.
    transitivity (hash (t_key t) = h ∧ holds_lock (t_pc t') = true).
    2:{ rewrite <-Hkey. split; [by exists t'|]. by intros (u & [= <-] & ?). }
    destruct (holds_lock (t_pc t')); [|destruct (holds_lock (t_pc t)) eqn:Hl].
    + rewrite lookup_insert. case_decide as Hh; [by subst|]. rewrite Hi. by split; intros [? _].
    + rewrite lookup_delete. case_decide as Hh; [by split; [|intros []]|]. rewrite Hi. by split; [intros [? _]|intros []].
    + rewrite Hi. by split; intros [].
  - rewrite lookup_insert_ne, <-Hholder by done.
    destruct (holds_lock (t_pc t')) eqn:H1; [|destruct (holds_lock (t_pc t)) eqn:H2]; [| |done].
    + rewrite lookup_insert. case_decide as Hh; [subst h|done]. split; [by intros [= ->]|]. intros Hj.
      destruct (holds_lock (t_pc t)) eqn:H2; [|by rewrite Htaken in Hj].
      rewrite (proj2 (Hi _)) in Hj by done. by injection Hj.
    + rewrite lookup_delete. case_decide as Hh; [subst h|done]. rewrite (proj2 (Hi _)) by done.
      split; [done|]. by intros [= ->].
Qed.

Lemma inv_step s s' : inv s → step s s' → inv s'.
Proof.
  intros [Hholder Hwl Hpool Hdone] Hstep. destruct Hstep as [s i t choice p' t' Ht Hadv|s i key Hi|s h n|s counts'].
  - destruct (advance_effect _ _ _ _ _ _ Hadv) as [Hkey Hsub Hlock Hh Htaken Hpooled Hd].
    { intros Hl. apply Hholder. eauto. }
    { by eapply Hwl. }
    split; simpl.
    + rewrite Hh. by apply holder_step.
    + intros j tj. destruct (decide (i = j)) as [<-|Hne].
      * rewrite lookup_insert_eq. intros [= <-] Hn. rewrite Hkey. by apply Hlock.
      * rewrite lookup_insert_ne by done. intros Htj Hn. apply Hsub. by eapply Hwl.
    + intros h c [Hc|Hc]%Hpooled; [by apply Hpool|done].
    + intros j tj c. destruct (decide (i = j)) as [<-|Hne].
      * rewrite lookup_insert_eq. intros [= <-] Hpc. rewrite Hkey. by apply Hd.
      * rewrite lookup_insert_ne by done. apply Hdone.
  - split; simpl; [|intros j tj|done|intros j tj c]; [|rewrite lookup_insert; case_decide; [by intros [= <-]|apply Hwl]
                    |rewrite lookup_insert; case_decide; [by intros [= <-]|apply Hdone]].
    intros h j. rewrite Hholder, lookup_insert. case_decide; [|done]. subst j. rewrite Hi. split; [naive_solver|].
    by intros (? & [= <-] & _ & ?).
  - split; simpl; try done. intros h' c. rewrite pooled_insert. case_decide as Heq; [subst|apply Hpool].
    intros Hc. by apply Hpool, elem_of_delete in Hc || (apply elem_of_delete in Hc; by apply Hpool).
  - by split.
Qed.

Lemma reachable_inv s : reachable s → inv s.
Proof.
  intros H. eapply (rtc_ind_r inv initial); [|by eauto using inv_step|exact H].
  split; simpl; try done.
  - intros h i. rewrite lookup_empty. naive_solver.
  - intros h c. unfold pooled. simpl. rewrite lookup_empty. by intros ?%elem_of_nil.
Qed.

(** C26: whatever the requests, their order, and the outcomes of opening connections: for
    each hash at most one task at a time holds the lock, under which connections are
    taken and opened, so that a key never has two being opened; the lock that the code
    unwraps is there; and a request is given a connection of its own key, even if the
    hashes of two keys collide. *)
Theorem hbone_pool_exclusive s :
  reachable s →
  (∀ i j ti tj, tasks s !! i = Some ti → tasks s !! j = Some tj →
    holds_lock (t_pc ti) = true → holds_lock (t_pc tj) = true → hash (t_key ti) = hash (t_key tj) → i = j) ∧
  (∀ i t choice, tasks s !! i = Some t → advance i t choice (pool s) ≠ Panic) ∧
  (∀ i t conn, tasks s !! i = Some t → t_pc t = PcDone (Ok conn) → wl_key conn = t_key t).
Proof.
  intros [Hholder Hwl _ Hdone]%reachable_inv. split_and!.
  - intros i j ti tj Hi Hj Hli Hlj Heq.
    assert (holder (pool s) !! hash (t_key ti) = Some i) as H1 by (apply Hholder; eauto).
    assert (holder (pool s) !! hash (t_key ti) = Some j) as H2 by (apply Hholder; eauto). congruence.
  - intros i [key seen pc] choice Ht. unfold advance. simpl. destruct pc; try done.
    rewrite decide_True; [by destruct (holder (pool s) !! _)|]. by eapply (Hwl i _ Ht).
  - intros i t conn Ht Hpc. by eapply Hdone.
Qed.

(** Task [i] can move, with some decision of the environment. *)
Definition can_move (s : Sys) (i : nat) : Prop :=
  ∃ t choice r, tasks s !! i = Some t ∧ advance i t choice (pool s) = Ret (Some r).

Lemma holder_moves s i t : tasks s !! i = Some t → holds_lock (t_pc t) = true → can_move s i.
Proof.
  intros Ht Hl. destruct t as [key seen pc]. simpl in Hl. destruct pc as [| | | | | | |]; try done.
  - destruct (pooled (pool s) (hash key)) as [|c l] eqn:Hp.
    + eexists _, (ChOutcome (Err "")), _. split; [done|]. unfold advance, checkout_loop. simpl. by rewrite Hp.
    + destruct (is_for_workload c key) eqn:Hk; eexists _, (ChTake 0 ReadyErr), _;
        (split; [done|]); unfold advance, checkout_loop, pool_take; simpl; by rewrite Hp; simpl; rewrite Hk.
  - by eexists _, (ChOutcome (Err "")), _.
Qed.

(** A request that has not returned can move, or waits for the lock of a task that
    can move, or waits for a notification although nothing was put into the pool since
    its receiver looked: nothing else blocks it. *)
Theorem hbone_pool_progress s i t :
  reachable s → tasks s !! i = Some t →
  (∃ r, t_pc t = PcDone r) ∨ can_move s i ∨
  (∃ b, t_pc t = PcLock b ∧ ∃ j, holder (pool s) !! hash (t_key t) = Some j ∧ can_move s j) ∨
  (t_pc t = PcWait ∧ version (pool s) = t_seen t).
Proof.
  intros Hinv%reachable_inv Ht. destruct t as [key seen pc]; simpl.
  destruct pc as [init|init| | | | | |r]; try (right; left; by eapply holder_moves).
  - right; left. by eexists _, (ChTake 0 Ready), _.
  - destruct (holder (pool s) !! hash key) as [j|] eqn:Hj.
    + right; right; left. exists init. split; [done|]. exists j. split; [done|].
      apply (inv_holder s Hinv) in Hj as (tj & Htj & _ & Hl). by eapply holder_moves.
    + right; left. eexists _, (ChTake 0 Ready), _. split; [done|]. unfold advance. simpl. by rewrite Hj.
  - right; left. by eexists _, (ChTake 0 Ready), _.
  - right; left. eexists _, (ChTake 0 Ready), _. split; [done|]. unfold advance. simpl.
    by rewrite decide_True by (by eapply (inv_writelocks s Hinv i _ Ht)).
  - destruct (decide (version (pool s) = seen)) as [Heq|Hne]; [by right; right; right|].
    right; left. eexists _, (ChTake 0 Ready), _. split; [done|]. unfold advance. simpl. by rewrite decide_False.
  - left. by exists r.
Qed.

(** No request is on its way but those that wait for a notification. *)
Definition stalled (s : Sys) : Prop :=
  ∀ i t, tasks s !! i = Some t → (∃ r, t_pc t = PcDone r) ∨ t_pc t = PcWait ∧ version (pool s) = t_seen t.

(** The steps without a new request. *)
Inductive quiet_step : Sys → Sys → Prop :=
| quiet s s' : step s s' → dom (tasks s') = dom (tasks s) → quiet_step s s'.

(** When the only other request for a key fails to open its connection, or opens one
    for a single stream, nothing was put into the pool and the waiting request is not
    woken: until another request comes, it waits, whatever else happens. *)
Theorem hbone_pool_stalls s s' i t :
  stalled s → tasks s !! i = Some t → t_pc t = PcWait → rtc quiet_step s s' →
  tasks s' !! i = Some t ∧ stalled s'.
Proof.
  intros Hst Ht Hpc Hsteps. revert Hst Ht. induction Hsteps as [s|s s1 s2 Hs _ IH]; intros Hst Ht; [done|].
  apply IH; clear IH.
  - destruct Hs as [s s' [s0 j tj choice p' t' Hj Hadv|s0 j key Hj|s0 h n|s0 c] Hdom]; simpl in *.
    + exfalso. unfold advance in Hadv. destruct (Hst j tj Hj) as [[r Hr]|[Hw Hv]].
      * by rewrite Hr in Hadv.
      * by rewrite Hw, decide_True in Hadv.
    + exfalso. apply not_elem_of_dom in Hj. apply Hj. rewrite <-Hdom, dom_insert. set_solver.
    + exact Hst.
    + exact Hst.
  - destruct Hs as [s s' [s0 j tj choice p' t' Hj Hadv|s0 j key Hj|s0 h n|s0 c] Hdom]; simpl in *; [| |done|done].
    + destruct (decide (j = i)) as [->|Hne]; [|by rewrite lookup_insert_ne].
      exfalso. unfold advance in Hadv. destruct (Hst i tj Hj) as [[r Hr]|[Hw Hv]].
      * by rewrite Hr in Hadv.
      * by rewrite Hw, decide_True in Hadv.
    + rewrite lookup_insert_ne; [done|]. congruence.
Qed.
End pool.

(** * How streams are counted *)

Record Streams := mkStreams { sc_counts : Counts; inflight : list nat; live : list Stream }.

Inductive stream_step : Streams → Streams → Prop :=
| ss_begin s c : stream_step s (mkStreams (send_request_begin (sc_counts s) c) (c :: inflight s) (live s))
| ss_finish s c ok l1 l2 :
  inflight s = l1 ++ c :: l2 →
  stream_step s (let '(counts, o) := send_request_finish (sc_counts s) c ok in
                 mkStreams counts (l1 ++ l2) (option_list o ++ live s))
| ss_drop_read s c w l1 l2 :
  live s = l1 ++ mkStream c true w :: l2 →
  stream_step s (mkStreams (DropCounter_drop (sc_counts s) c w) (inflight s) (l1 ++ mkStream c false w :: l2))
| ss_drop_write s c r l1 l2 :
  live s = l1 ++ mkStream c r true :: l2 →
  stream_step s (mkStreams (DropCounter_drop (sc_counts s) c r) (inflight s) (l1 ++ mkStream c r false :: l2)).

(** Requests without an answer, and streams of which both halves are alive. *)
Definition whole (c : nat) (st : Stream) : Prop := st_conn st = c ∧ st_read st = true ∧ st_write st = true.
#[export] Instance whole_dec c st : Decision (whole c st).
Proof. unfold whole. apply _. Defined.
Definition counted (s : Streams) (c : nat) : nat :=
  length (filter (λ c', c' = c) (inflight s)) + length (filter (whole c) (live s)).

Lemma count_of_insert counts c n c' : count_of (<[c := n]> counts) c' = if decide (c = c') then n else count_of counts c'.
Proof. unfold count_of. rewrite lookup_insert. by case_decide. Qed.

Lemma fetch_add_count counts c n c' :
  count_of counts c' = (N.of_nat n mod 65536)%N →
  count_of (fetch_add counts c) c' = (N.of_nat ((if decide (c = c') then 1 else 0) + n) mod 65536)%N.
Proof.
  intros Hn. unfold fetch_add. rewrite count_of_insert. case_decide; subst; [|done].
  rewrite Hn, N.Div0.add_mod_idemp_l. f_equal. lia.
Qed.

Lemma fetch_sub_count counts c n c' :
  count_of counts c' = (N.of_nat ((if decide (c = c') then 1 else 0) + n) mod 65536)%N →
  count_of (fetch_sub counts c) c' = (N.of_nat n mod 65536)%N.
Proof.
  intros Hn. unfold fetch_sub. rewrite count_of_insert. case_decide; subst; [|done].
  rewrite Hn, N.Div0.add_mod_idemp_l.
  replace (N.of_nat (1 + n) + 65535)%N with (N.of_nat n + 1 * 65536)%N by lia. by rewrite N.Div0.mod_add.
Qed.

Lemma length_filter_mid {A} (P : A → Prop) `{!∀ x, Decision (P x)} l1 x l2 :
  length (filter P (l1 ++ x :: l2)) = (if decide (P x) then 1 else 0) + length (filter P (l1 ++ l2)).
Proof. rewrite !filter_app, !length_app, filter_cons. case_decide; simpl; lia. Qed.

Lemma drop_count counts c other n c' :
  count_of counts c' = (N.of_nat ((if decide (c = c' ∧ other = true) then 1 else 0) + n) mod 65536)%N →
  count_of (DropCounter_drop counts c other) c' = (N.of_nat n mod 65536)%N.
Proof.
  unfold DropCounter_drop, into_inner_is_none. destruct other; intros Hn.
  - apply fetch_sub_count. rewrite Hn. f_equal. by repeat case_decide; try tauto.
  - rewrite decide_False in Hn; [done|]. by intros [].
Qed.

(** The counter of a connection counts the requests without an answer and the streams
    of which both halves are alive, modulo 2^16: a stream is taken off when its first
    half is dropped, while the other may still be read or written. *)
Theorem hbone_stream_count s c :
  rtc stream_step (mkStreams ∅ [] []) s →
  count_of (sc_counts s) c = (N.of_nat (counted s c) mod 65536)%N.
Proof.
  intros H. eapply (rtc_ind_r (λ s, count_of (sc_counts s) c = (N.of_nat (counted s c) mod 65536)%N) _); [| |exact H].
  { reflexivity. }
  clear s H. intros s s' _ Hstep IH. unfold counted in *.
  destruct Hstep as [s c0|s c0 ok l1 l2 Hl|s c0 w l1 l2 Hl|s c0 r l1 l2 Hl]; simpl.
  - rewrite (fetch_add_count _ _ _ _ IH). f_equal. rewrite filter_cons. repeat case_decide; simpl; first [congruence|lia].
  - rewrite Hl, length_filter_mid in IH. destruct ok; simpl.
    + rewrite IH. f_equal. rewrite filter_cons. unfold whole at 2. simpl.
      repeat case_decide; simpl; first [lia|naive_solver].
    + apply fetch_sub_count. rewrite IH. f_equal. lia.
  - rewrite Hl, length_filter_mid in IH. rewrite length_filter_mid.
    apply drop_count. rewrite IH. f_equal. unfold whole; simpl. repeat case_decide; first [lia|intuition congruence].
  - rewrite Hl, length_filter_mid in IH. rewrite length_filter_mid.
    apply drop_count. rewrite IH. f_equal. unfold whole; simpl. repeat case_decide; first [lia|intuition congruence].
Qed.

(** * Two requests for one destination *)

Module HboneExample.
(** Keys are numbers; the hash tells only odd from even. *)
Definition hash (k : N) : N := (k mod 2)%N.

(** Task 0 wins the lock, task 1 loses, the connection of task 0 fails. *)
Definition at_pc (p0 p1 : Pc (K := N)) (w : gset N) (h : gmap N nat) : Sys :=
  mkSys (mkPool w h ∅ 0 ∅ 0) (<[1 := mkTask 7%N 0 p1]> {[0 := mkTask 7%N 0 p0]}).
Definition failed : Sys := at_pc (PcDone (Err "refused")) PcWait ({[1%N]} ∪ ({[1%N]} ∪ ∅)) ∅.

Definition play (s : Sys) '((i, choice) : nat * Choice) : Sys :=
  match tasks s !! i with
  | Some t => match advance hash i t choice (pool s) with
              | Ret (Some (p', t')) => mkSys p' (<[i := t']> (tasks s))
              | _ => s
              end
  | None => s
  end.

Lemma play_reachable l s : reachable hash s → reachable hash (foldl play s l).
Proof.
  revert s. induction l as [|[i choice] l IH]; intros s Hs; [done|]. apply IH. unfold play.
  destruct (tasks s !! i) as [t|] eqn:Ht; [|done].
  destruct (advance hash i t choice (pool s)) as [[[p' t']|]|] eqn:Ha; try done.
  eapply rtc_r; [exact Hs|]. by eapply step_task.
Qed.

Definition arrived : Sys := mkSys (pool initial) (<[1 := mkTask 7%N 0 (PcCheckout true)]> {[0 := mkTask 7%N 0 (PcCheckout true)]}).

Lemma failed_reachable : reachable hash failed.
Proof.
  assert (foldl play arrived (((λ i, (i, ChTake 0 Ready)) <$> [0; 1; 0; 1; 0; 1]) ++ [(0, ChOutcome (Err "refused"))]) = failed) as <-
    by (vm_compute; reflexivity).
  apply play_reachable. eapply rtc_l; [exact (step_arrive hash initial 0 7%N eq_refl)|].
  apply rtc_once. exact (step_arrive hash (mkSys (pool initial) {[0 := mkTask 7%N 0 (PcCheckout true)]}) 1 7%N eq_refl).
Qed.

Lemma hbone_pool_exclusive_witness : advance hash 1 (mkTask 7%N 0 PcWait) (ChTake 0 Ready) (pool failed) ≠ Panic.
Proof. exact (proj1 (proj2 (hbone_pool_exclusive hash failed failed_reachable)) 1 _ (ChTake 0 Ready) eq_refl). Defined.

Lemma failed_stalled : stalled failed.
Proof.
  intros i t Hi. unfold failed, at_pc in Hi. simpl in Hi. apply lookup_insert_Some in Hi as [[<- <-]|[_ Hi]]; [by right|].
  apply lookup_singleton_Some in Hi as [<- <-]. left. by eexists.
Qed.

Lemma hbone_pool_progress_witness :
  reachable hash failed ∧ tasks failed !! 1 = Some (mkTask 7%N 0 PcWait) ∧
  ((∃ r, PcWait = PcDone (K := N) r) ∨ can_move hash failed 1 ∨
   (∃ b, PcWait = PcLock (K := N) b ∧ ∃ j, holder (pool failed) !! hash 7%N = Some j ∧ can_move hash failed j) ∨
   (PcWait = PcWait (K := N) ∧ version (pool failed) = 0)).
Proof.
  split; [exact failed_reachable|]. split; [reflexivity|].
  exact (hbone_pool_progress hash failed 1 (mkTask 7%N 0 PcWait) failed_reachable eq_refl).
Defined.

(** The counters may change, the request still waits. *)
Lemma hbone_pool_stalls_witness :
  let s := mkSys (mkPool (writelocks (pool failed)) ∅ ∅ 0 {[3 := 1%N]} 0) (tasks failed) in
  tasks s !! 1 = Some (mkTask 7%N 0 PcWait) ∧ stalled s.
Proof.
  apply (hbone_pool_stalls hash failed _ 1 (mkTask 7%N 0 PcWait) failed_stalled eq_refl eq_refl).
  apply rtc_once, quiet; [|reflexivity]. exact (step_streams hash failed {[3 := 1%N]}).
Defined.

(** A stream that is half closed is not counted. *)
Definition half_closed : Streams := mkStreams (fetch_sub (fetch_add ∅ 0) 0) [] [mkStream 0 false true].

Lemma hbone_stream_count_witness : count_of (sc_counts half_closed) 0 = (N.of_nat (counted half_closed 0) mod 65536)%N.
Proof.
  apply hbone_stream_count.
  eapply rtc_l; [exact (ss_begin (mkStreams ∅ [] []) 0)|].
  eapply rtc_l; [exact (ss_finish (mkStreams (fetch_add ∅ 0) [0] []) 0 true [] [] eq_refl)|].
  eapply rtc_l; [exact (ss_drop_read (mkStreams (fetch_add ∅ 0) [] [mkStream 0 true true]) 0 true [] [] eq_refl)|].
  apply rtc_refl.
Defined.
End HboneExample.
