(* ===== verification/HboneStream.v ===== *)
(** HboneStream: the streams of a tunnel ([hbone/src/lib.rs]) as connections, the server's
    side of a tunnel ([hbone/src/server.rs]) and its pings.

    An HTTP/2 stream is what the library answers to successive polls of it.  A half of a
    stream implements the interface by which connections are copied (Copy), so what holds
    of copying holds of tunnels. *)
From S2P Require Import Prelude BufList Copy.

(** * HTTP/2 streams ([h2]) *)

Inductive Reason := NO_ERROR | CANCEL | STREAM_CLOSED | OtherReason (code : N).
(** [io] is the error of the connection, if it is one. *)
Record H2Error := { reason : option Reason; io : option ErrorKind }.
Definition from_reason (r : Reason) : H2Error := {| reason := Some r; io := None |}.

Definition h2_to_io_error (e : H2Error) : ErrorKind := default OtherKind (io e).

(** ** The reading half *)

(** What [poll_data] answers; with data, whether the stream is at its end after it. *)
Inductive DataEv := DPending | DNone | DData (data : bytes) (end_stream : bool) | DError (e : H2Error).

(** [released]: the flow-control capacity that was given back. *)
Record ReadHalf := mkRead { frames : list DataEv; released : nat }.

Definition read_error (e : H2Error) : result bytes ErrorKind :=
  match reason e with
  | Some NO_ERROR | Some CANCEL => Ok []
  | Some STREAM_CLOSED => Err BrokenPipe
  | _ => Err (h2_to_io_error e)
  end.

Fixpoint poll_data_loop (fs : list DataEv) (rel : nat) : ReadHalf * Poll bytes :=
  match fs with
  | [] => (mkRead [] rel, Pending)
  | DPending :: fs => (mkRead fs rel, Pending)
  | DNone :: fs => (mkRead fs rel, Ready (Ok []))
  | DData [] false :: fs => poll_data_loop fs rel
  | DData data _ :: fs => (mkRead fs (rel + length data), Ready (Ok data))
  | DError e :: fs => (mkRead fs rel, Ready (read_error e))
  end.
Definition read_poll_bytes (this : ReadHalf) : ReadHalf * Poll bytes := poll_data_loop (frames this) (released this).

(** ** The writing half *)

Inductive CapEv := CPending | CNone | CCap (n : nat) | CError.
Inductive ResetEv := SPending | SReset (r : Reason) | SError (e : H2Error).
(** What is answered in one poll: the capacity, whether [send_data] is accepted, and the reset. *)
Record SendEv := { s_cap : CapEv; s_accepts : bool; s_reset : ResetEv }.
Record WriteHalf := mkWrite { sends : list SendEv; sent : bytes; closed : bool }.

(** The answer when the write was refused; a shutdown is content with a reset without error. *)
Definition reset_poll {A} (shutdown : option A) (r : ResetEv) : Poll A :=
  match r with
  | SPending => Pending
  | SReset NO_ERROR => match shutdown with Some a => Ready (Ok a) | None => Ready (Err BrokenPipe) end
  | SReset CANCEL | SReset STREAM_CLOSED => Ready (Err BrokenPipe)
  | SReset reason => Ready (Err (h2_to_io_error (from_reason reason)))
  | SError e => Ready (Err (h2_to_io_error e))
  end.

(** [poll_write_buf]; slicing the buffer past its end panics. *)
Definition write_poll (this : WriteHalf) (buf : bytes) : comp (WriteHalf * Poll nat) :=
  match buf with
  | [] => Ret (this, Ready (Ok 0))
  | _ =>
    match sends this with
    | [] => Ret (this, Pending)
    | e :: es =>
      let rest := mkWrite es (sent this) (closed this) in
      match s_cap e with
      | CPending => Ret (rest, Pending)
      | CNone => Ret (rest, Ready (Ok 0))
      | CCap n =>
        if bool_decide (length buf < n) then Panic
        else if s_accepts e then Ret (mkWrite es (sent this ++ take n buf) (closed this), Ready (Ok n))
        else Ret (rest, reset_poll None (s_reset e))
      | CError => Ret (rest, reset_poll None (s_reset e))
      end
    end
  end.

Definition write_poll_flush (this : WriteHalf) : WriteHalf * Poll () := (this, Ready (Ok ())).

(** [poll_shutdown]: nothing is written, and the stream ends. *)
Definition write_poll_shutdown (this : WriteHalf) : WriteHalf * Poll () :=
  match sends this with
  | [] => (this, Pending)
  | e :: es => if s_accepts e then (mkWrite es (sent this) true, Ready (Ok ()))
               else (mkWrite es (sent this) (closed this), reset_poll (Some ()) (s_reset e))
  end.

(** ** As a stream of bytes ([RWStream], [TokioH2Stream]) *)

Record RWStream := mkRW { rw_read : ReadHalf; rw_buf : bytes }.

(** [remaining] is the space of the reader's buffer; also gives what is put into it. *)
Definition rw_poll_read (this : RWStream) (remaining : nat) : RWStream * Poll () * bytes :=
  let take_from r b := (mkRW r (drop (Nat.min (length b) remaining) b), Ready (Ok ()), take (Nat.min (length b) remaining) b) in
  match rw_buf this with
  | [] =>
    match read_poll_bytes (rw_read this) with
    | (r, Pending) => (mkRW r [], Pending, [])
    | (r, Ready (Err e)) => (mkRW r [], Ready (Err e), [])
    | (r, Ready (Ok b)) => take_from r b
    end
  | b => take_from (rw_read this) b
  end.

Definition tokio_poll_read (this : ReadHalf) (remaining : nat) : ReadHalf * Poll () * bytes :=
  match read_poll_bytes this with
  | (r, Pending) => (r, Pending, [])
  | (r, Ready (Err e)) => (r, Ready (Err e), [])
  | (r, Ready (Ok b)) => if bool_decide (remaining < length b) then (r, Ready (Err OtherKind), []) else (r, Ready (Ok ()), b)
  end.

(** Reads with buffers of the given sizes: what they give, one after the other. *)
Fixpoint rw_reads (this : RWStream) (sizes : list nat) : RWStream * list (Poll () * bytes) :=
  match sizes with
  | [] => (this, [])
  | n :: sizes => let '(this, p, got) := rw_poll_read this n in
                  let '(this, out) := rw_reads this sizes in (this, (p, got) :: out)
  end.

(** * The server's side ([serve_connection]) and the pings *)

(** What happens to a connection: a request comes, with its number, or fails; the peer is
    done; the pings fail; a drain; everything is closed; the time for a drain is over. *)
Inductive ServeEv := SvRequest (r : nat) | SvRequestError | SvDone | SvPingFailed | SvDrain | SvClosed | SvForced.
Inductive Closing := Abrupt | Graceful.
Inductive ServeError := RequestError | DrainTimeout.
Inductive ServePc := Accepting | Closing_ (how : Closing) | Finished (r : result () ServeError).

(** The requests that are handled, what the pings see, and where the loop is. *)
Record Serve := mkServe { handled : list nat; dropped : bool; spc : ServePc }.
Definition serve_start : Serve := mkServe [] false Accepting.

(** [None]: nobody waits for it. *)
Definition serve_step (s : Serve) (e : ServeEv) : option Serve :=
  match spc s, e with
  | Accepting, SvRequest r => Some (mkServe (handled s ++ [r]) (dropped s) Accepting)
  | Accepting, SvRequestError => Some (mkServe (handled s) (dropped s) (Finished (Err RequestError)))
  | Accepting, SvDone => Some (mkServe (handled s) true (Finished (Ok ())))
  | Accepting, SvPingFailed => Some (mkServe (handled s) true (Closing_ Abrupt))
  | Accepting, SvDrain => Some (mkServe (handled s) true (Closing_ Graceful))
  | Closing_ _, SvForced => Some (mkServe (handled s) (dropped s) (Finished (Err DrainTimeout)))
  | Closing_ _, SvClosed => Some (mkServe (handled s) (dropped s) (Finished (Ok ())))
  | _, _ => None
  end.
Fixpoint serve (s : Serve) (es : list ServeEv) : option Serve :=
  match es with [] => Some s | e :: es => s ← serve_step s e; serve s es end.

(** [do_ping_pong]: each round whether the connection is dropped before the ping, what
    comes of it, and whether the connection is dropped after an error. *)
Inductive PingEv := PTimeout | PPong | PError (dropped_after : bool).
Inductive PingEnd := PingRunning | PingQuiet | PingReported.
Fixpoint do_ping_pong (rounds : list (bool * PingEv)) : PingEnd :=
  match rounds with
  | [] => PingRunning
  | (dropped, e) :: rounds =>
    if dropped : bool then PingQuiet
    else match e with
         | PTimeout => PingReported
         | PPong => do_ping_pong rounds
         | PError dropped_after => if dropped_after : bool then PingQuiet else PingReported
         end
  end.

(** * Theorems *)

(** ** Halves of a stream are readers and writers of Copy *)

Definition read_ev (e : DataEv) : option ReadEv :=
  match e with
  | DPending => Some RPending
  | DNone => Some REof
  | DData [] end_stream => if end_stream : bool then Some REof else None
  | DData data _ => Some (RData data)
  | DError e => Some (match read_error e with Ok _ => REof | Err k => RError k end)
  end.

Lemma read_error_data e d : read_error e = Ok d → d = [].
Proof. unfold read_error. by repeat case_match; intros [= <-]. Qed.

(** The reading half of a tunnel's stream is a reader: each poll answers as a reader
    does that is given the frames in order, with empty frames left out and an ended or
    cancelled stream as its end; and the capacity of exactly the bytes that are read is
    given back to the peer. *)
Theorem h2_reader_refines (this this' : ReadHalf) (r : Poll bytes) ws fs :
  read_poll_bytes this = (this', r) →
  poll_bytes (mkIo (omap read_ev (frames this)) ws fs) = (mkIo (omap read_ev (frames this')) ws fs, r) ∧
  released this' = released this + match r with Ready (Ok d) => length d | _ => 0 end.
Proof.
  destruct this as [es rel]. unfold read_poll_bytes. simpl.
  induction es as [|e es IH]; simpl; [intros [= <- <-]; simpl; by rewrite Nat.add_0_r|].
  destruct e as [| |[|x d] [|]|e]; simpl; try (intros [= <- <-]; simpl; by rewrite ?Nat.add_0_r); [exact IH|].
  intros [= <- <-]. simpl. destruct (read_error e) as [d|k] eqn:He; [|by rewrite Nat.add_0_r].
  apply read_error_data in He as ->. by rewrite Nat.add_0_r.
Qed.

Definition write_ev (e : SendEv) : WriteEv :=
  let refused := match reset_poll (A := nat) None (s_reset e) with Ready (Err k) => WError k | _ => WPending end in
  match s_cap e with
  | CPending => WPending
  | CNone => WTakes 0
  | CCap n => if s_accepts e then WTakes n else refused
  | CError => refused
  end.

#[local] Arguments Nat.min : simpl never.

(** The library never gives more capacity than was asked for. *)
Definition within (this : WriteHalf) (buf : bytes) : Prop :=
  match sends this with {| s_cap := CCap n |} :: _ => n ≤ length buf | _ => True end.

(** C39: the writing half is a writer. As long as no more capacity is given than was asked
    for, a write does not panic and answers as a writer does; what is sent grows by exactly
    the bytes it reports. *)
Theorem h2_writer_refines (this : WriteHalf) (buf : bytes) rs fs :
  buf ≠ [] → within this buf →
  ∃ this' r, write_poll this buf = Ret (this', r) ∧
    poll_write_buf (mkIo rs (write_ev <$> sends this) fs) buf = (mkIo rs (write_ev <$> sends this') fs, r) ∧
    sent this' = sent this ++ match r with Ready (Ok n) => take n buf | _ => [] end ∧ closed this' = closed this.
Proof.
  intros Hb Hw. unfold write_poll. destruct buf as [|x buf]; [done|]. destruct this as [[|e es] snt cl]; unfold within in Hw; simpl in *.
  { eexists _, _. split; [done|]. by rewrite app_nil_r. }
  destruct e as [cap acc rst]. unfold write_ev at 1. simpl. destruct cap as [| |n|]; simpl.
  - eexists _, _. split; [done|]. by rewrite app_nil_r.
  - eexists _, _. split; [done|]. simpl. by rewrite app_nil_r.
  - rewrite bool_decide_eq_false_2 by (simpl; lia). destruct acc; simpl.
    + eexists _, _. split; [done|]. unfold poll_write_buf. simpl. rewrite Nat.min_l by (simpl; lia). done.
    + eexists _, _. split; [done|]. destruct rst as [|[]|]; simpl; by rewrite app_nil_r.
  - eexists _, _. split; [done|]. destruct rst as [|[]|]; simpl; by rewrite app_nil_r.
Qed.

(** ** The bytes of a tunnel *)

(** The bytes of the frames up to what was read. *)
Definition frame_bytes (fs : list DataEv) : bytes := concat (omap (λ e, match e with DData d _ => Some d | _ => None end) fs).

Lemma poll_data_bytes fs rel this' r :
  poll_data_loop fs rel = (this', r) →
  ∃ read, fs = read ++ frames this' ∧ frame_bytes read = match r with Ready (Ok d) => d | _ => [] end ∧
    released this' = rel + length (frame_bytes read) ∧
    (r = Ready (Ok []) → ∃ e, last read = Some e ∧ match e with DNone | DData [] true => True | DError e => read_error e = Ok [] | _ => False end).
Proof.
  revert rel. induction fs as [|e fs IH]; intros rel; simpl.
  - intros [= <- <-]. exists []. simpl. by rewrite Nat.add_0_r.
  - assert (∀ d, read_error d = Ok [] ∨ ∃ k, read_error d = Err k) as Herr.
    { intros d. unfold read_error. repeat case_match; eauto. }
    destruct e as [| |[|x d] [|]|e]; simpl.
    + intros [= <- <-]. exists [DPending]. by rewrite Nat.add_0_r.
    + intros [= <- <-]. exists [DNone]. rewrite Nat.add_0_r. repeat split; try done. intros _. by eexists.
    + intros [= <- <-]. exists [DData [] true]. rewrite Nat.add_0_r. repeat split; try done. intros _. by eexists.
    + intros (read & -> & Hb & Hrel & Hend)%IH. exists (DData [] false :: read). split; [done|]. split; [exact Hb|].
      split; [exact Hrel|]. intros Hr. destruct (Hend Hr) as (e & He & Hm). exists e. split; [|done].
      by destruct read.
    + intros [= <- <-]. exists [DData (x :: d) true]. unfold frame_bytes. simpl. by rewrite app_nil_r.
    + intros [= <- <-]. exists [DData (x :: d) false]. unfold frame_bytes. simpl. by rewrite app_nil_r.
    + intros [= <- <-]. exists [DError e]. rewrite Nat.add_0_r. split; [done|].
      destruct (Herr e) as [Hk|[k Hk]]; rewrite Hk; repeat split; try done. intros _. by exists (DError e).
Qed.

Lemma frame_bytes_app a b : frame_bytes (a ++ b) = frame_bytes a ++ frame_bytes b.
Proof. unfold frame_bytes. by rewrite omap_app, concat_app. Qed.

(** What a read of no bytes means: the end of the stream. *)
Definition at_end (read : list DataEv) : Prop :=
  ∃ e, last read = Some e ∧ match e with DNone | DData [] true => True | DError e => read_error e = Ok [] | _ => False end.

Lemma rw_poll_read_spec this n this' p got :
  rw_poll_read this n = (this', p, got) →
  ∃ read, frames (rw_read this) = read ++ frames (rw_read this') ∧
    rw_buf this ++ frame_bytes read = got ++ rw_buf this' ∧
    released (rw_read this') = released (rw_read this) + length (frame_bytes read) ∧ length got ≤ n ∧
    (p = Ready (Ok ()) → got = [] → 0 < n → at_end read) ∧ (p ≠ Ready (Ok ()) → got = [] ∧ rw_buf this' = []).
Proof.
  destruct this as [rd buf]. unfold rw_poll_read. simpl. destruct buf as [|x buf].
  - destruct (read_poll_bytes rd) as [rd' r] eqn:Hr. unfold read_poll_bytes in Hr.
    apply poll_data_bytes in Hr as (read & Hf & Hb & Hrel & Hend).
    destruct r as [|[d|k]]; intros [= <- <- <-]; exists read; simpl; rewrite Hb in *.
    + repeat split; try done. lia.
    + rewrite take_drop. split; [done|]. split; [done|]. split; [done|].
      rewrite length_take. split; [lia|]. split; [|done]. intros _ Hg Hn. apply Hend.
      destruct d; [done|]. apply (f_equal length) in Hg. rewrite length_take in Hg. simpl in Hg. lia.
    + repeat split; try done. lia.
  - intros [= <- <- <-]. exists []. simpl. rewrite app_nil_r, take_drop, Nat.add_0_r.
    split; [done|]. split; [done|]. split; [done|]. rewrite length_take. simpl. split; [lia|]. split; [|done].
    intros _ Hg Hn. apply (f_equal length) in Hg. rewrite length_take in Hg. simpl in Hg. lia.
Qed.

(** C38: A tunnel is a faithful stream of bytes. Whatever the sizes of the buffers it is
    read with, what is read is the bytes of the frames in order, none lost and none twice:
    what is not delivered yet is kept. The peer is given back capacity for exactly the
    frames that were taken, and reading nothing into a buffer with space means that the
    stream has ended. *)
Theorem tunnel_bytes (this this' : RWStream) sizes out :
  rw_reads this sizes = (this', out) →
  ∃ read, frames (rw_read this) = read ++ frames (rw_read this') ∧
    rw_buf this ++ frame_bytes read = concat (snd <$> out) ++ rw_buf this' ∧
    released (rw_read this') = released (rw_read this) + length (frame_bytes read) ∧
    ∀ i n, sizes !! i = Some n → 0 < n → out !! i = Some (Ready (Ok ()), []) →
      ∃ pre post, read = pre ++ post ∧ at_end pre.
Proof.
  revert this this' out. induction sizes as [|n sizes IH]; intros this this' out; simpl.
  - intros [= <- <-]. exists []. simpl. by rewrite app_nil_r, Nat.add_0_r.
  - destruct (rw_poll_read this n) as [[t p] got] eqn:Hp. destruct (rw_reads t sizes) as [t' o] eqn:Ho. intros [= <- <-].
    apply rw_poll_read_spec in Hp as (read & Hf & Hb & Hrel & _ & Hend & _).
    apply IH in Ho as (read' & Hf' & Hb' & Hrel' & Hend'). exists (read ++ read').
    split; [by rewrite Hf, Hf', app_assoc|]. split.
    { rewrite frame_bytes_app, app_assoc, Hb, <-app_assoc, Hb'. simpl. by rewrite app_assoc. }
    split; [rewrite frame_bytes_app, length_app; lia|]. intros [|i] m Hm Hpos Hi; simpl in *.
    + simplify_eq. exists read, read'. split; [done|]. by apply Hend.
    + destruct (Hend' i m Hm Hpos Hi) as (pre & post & -> & Hat). exists (read ++ pre), post. split; [by rewrite app_assoc|].
      destruct Hat as (e & He & Hm'). exists e. split; [|done]. rewrite last_app, He. done.
Qed.

(** The other adapter gives whole frames, and loses one that is larger than its buffer. *)
Lemma tokio_read_loses this n this' d :
  read_poll_bytes this = (this', Ready (Ok d)) →
  tokio_poll_read this n =
    if bool_decide (n < length d) then (this', Ready (Err OtherKind), []) else (this', Ready (Ok ()), d).
Proof. intros Hr. unfold tokio_poll_read. by rewrite Hr. Qed.

(** ** The server's side *)

Lemma serve_finished hs d r es s : serve (mkServe hs d (Finished r)) es = Some s → s = mkServe hs d (Finished r).
Proof. destruct es as [|e es]; simpl; [by intros [= <-]|]. by destruct e. Qed.

(** A tunnel that is drained takes no more requests, and its pings stop. After the
    peer is done, the pings fail or a drain begins, no request is handled any more and the
    pings see that the connection is dropped; it ends well when all streams are closed. Only
    when a request fails is the loop left without telling the pings. *)
Theorem serve_drains es s :
  serve serve_start es = Some s →
  dropped s = match spc s with Accepting | Finished (Err RequestError) => false | _ => true end ∧
  ∀ es', spc s ≠ Accepting → ∀ s', serve s es' = Some s' → handled s' = handled s ∧ dropped s' = dropped s ∧
    (∀ how, spc s = Closing_ how → spc s' ∈ [Closing_ how; Finished (Ok ()); Finished (Err DrainTimeout)]).
Proof.
  intros Hs. split.
  - set (stopped pc := match pc with Accepting | Finished (Err RequestError) => false | _ => true end).
    assert (∀ s0, dropped s0 = stopped (spc s0) → serve s0 es = Some s → dropped s = stopped (spc s)) as Hinv; [|by eapply Hinv; [|exact Hs]].
    clear Hs. induction es as [|e es IH]; intros s0 H0; simpl; [by intros [= <-]|]. intros (s2 & H2 & H1)%bind_Some.
    eapply IH; [|exact H1]. destruct s0 as [hs d pc]. unfold serve_step in H2. simpl in *.
    destruct pc as [|how|r], e; try done; injection H2 as <-; subst stopped; simpl in *; congruence.
  - clear Hs. intros es'. revert s. destruct es' as [|e es']; intros s Hpc s'; simpl.
    + intros [= <-]. repeat split; try done. intros how ->. by left.
    + intros (s1 & H1 & Hs')%bind_Some. destruct s as [hs d pc]. unfold serve_step in H1. simpl in *.
      destruct pc as [|how|r]; [done| |done].
      destruct e; try done; injection H1 as <-; apply serve_finished in Hs' as ->; repeat split; intros how' [= <-]; set_solver.
Qed.

(** The pings report a failure only of a connection that is in use. *)
Lemma ping_reports rounds :
  do_ping_pong rounds = PingReported →
  ∃ pre e, pre ++ [(false, e)] `prefix_of` rounds ∧ Forall (λ r, r = (false, PPong)) pre ∧ (e = PTimeout ∨ e = PError false).
Proof.
  induction rounds as [|[d e] rounds IH]; simpl; [done|]. destruct d; [done|].
  destruct e as [| |[|]]; try done.
  - intros _. exists [], PTimeout. split; [|by split; [|left]]. by exists rounds.
  - intros (pre & e & [k ->] & Hpre & He)%IH. exists ((false, PPong) :: pre), e. split; [by exists k|]. split; [by constructor|done].
  - intros _. exists [], (PError false). split; [|by split; [|right]]. by exists rounds.
Qed.

(** * A stream with an empty frame, and a tunnel that is drained *)

Module TunnelExample.
Definition B (s : string) : bytes := String.list_ascii_of_string s.
Definition half : ReadHalf := mkRead [DData [] false; DData (B "hello") false; DPending; DData (B "you") true; DNone] 0.

Lemma h2_reader_refines_witness : ∃ this' r, read_poll_bytes half = (this', r) ∧ r = Ready (Ok (B "hello")) ∧ released this' = 5.
Proof.
  assert (∃ this' r, read_poll_bytes half = (this', r) ∧ r = Ready (Ok (B "hello"))) as (this' & r & Hr & Hok)
    by (eexists _, _; split; reflexivity).
  exists this', r. split; [exact Hr|]. split; [exact Hok|].
  pose proof (proj2 (h2_reader_refines half this' r [] [] Hr)) as Hrel. rewrite Hok in Hrel. exact Hrel.
Defined.

Definition out : WriteHalf :=
  mkWrite [{| s_cap := CCap 3; s_accepts := true; s_reset := SPending |};
           {| s_cap := CError; s_accepts := false; s_reset := SReset CANCEL |}] [] false.

Lemma h2_writer_refines_witness : ∃ this' r, write_poll out (B "hello") = Ret (this', r) ∧ r = Ready (Ok 3) ∧ sent this' = B "hel".
Proof.
  destruct (h2_writer_refines out (B "hello") [] []) as (this' & r & Hw & Hp & Hs & _); [discriminate|unfold within; vm_compute; lia|].
  assert (r = Ready (Ok 3)) as Hr by (vm_compute in Hp; by injection Hp as _ <-).
  exists this', r. split; [exact Hw|]. split; [exact Hr|]. rewrite Hr in Hs. exact Hs.
Defined.

(** Small buffers, and then the end. *)
Lemma tunnel_bytes_witness :
  ∃ this' o, rw_reads (mkRW half []) [2; 2; 2; 9; 9; 9] = (this', o) ∧ concat (snd <$> o) = B "helloyou" ∧
    released (rw_read this') = 8.
Proof.
  destruct (rw_reads (mkRW half []) [2; 2; 2; 9; 9; 9]) as [this' o] eqn:Hr. exists this', o. split; [reflexivity|].
  destruct (tunnel_bytes _ _ _ _ Hr) as (read & Hf & Hb & Hrel & _). vm_compute in Hr. injection Hr as <- <-.
  split; [reflexivity|]. simpl in Hf. rewrite app_nil_r in Hf. rewrite <-Hf in Hrel. exact Hrel.
Defined.

Definition drained : list ServeEv := [SvRequest 1; SvRequest 2; SvDrain].

Lemma serve_drains_witness :
  ∃ s s', serve serve_start drained = Some s ∧ dropped s = true ∧ serve s [SvClosed] = Some s' ∧ handled s' = [1; 2].
Proof.
  assert (∃ s s', serve serve_start drained = Some s ∧ serve s [SvClosed] = Some s' ∧ spc s ≠ Accepting ∧ handled s = [1; 2])
    as (s & s' & Hs & Hs' & Hpc & Hh) by (eexists _, _; split; [reflexivity|]; split; [reflexivity|]; split; [discriminate|reflexivity]).
  exists s, s'. split; [exact Hs|]. destruct (serve_drains drained s Hs) as [Hd Hrest].
  destruct (Hrest [SvClosed] Hpc s' Hs') as (Hh' & _ & _). split; [|split; [exact Hs'|congruence]].
  rewrite Hd. injection Hs as <-. reflexivity.
Defined.
End TunnelExample.
