(* ===== verification/Drain.v ===== *)
(** Drain: graceful shutdown ([core/src/drain.rs]), readiness ([core/src/readiness.rs]) and
    the life of one bind, which combines them ([run_bind] of [proxy/gateway.rs]): it accepts
    connections until a drain reaches it and ends when those accepted before are done, or a
    deadline is over.

    The futures of a bind interleave at their awaits: a step of [Run] is what one of them
    does from one await to the next.  The senders of the channel by which watchers block a
    drain are told apart by the values that hold them. *)
From S2P Require Import Prelude.

(** * The drain channel ([drain.rs]) *)

Inductive DrainMode := Immediate | Graceful.
#[export] Instance DrainMode_eq_dec : EqDecision DrainMode.
Proof. solve_decision. Defined.

Section channel.
Context {H : Type} `{Countable H}.

(** [signal_tx], and the senders that are alive. *)
Record Channel := mkChannel { signal_tx : option DrainMode; drained_tx : gset H }.

Definition channel (watch : H) : Channel := mkChannel None {[watch]}.
Definition clone_tx (h : H) (ch : Channel) : Channel := mkChannel (signal_tx ch) ({[h]} ∪ drained_tx ch).
Definition drop_tx (h : H) (ch : Channel) : Channel := mkChannel (signal_tx ch) (drained_tx ch ∖ {[h]}).

(** [start_drain_and_wait]: the signal is sent at once, then it waits until all senders
    are gone. *)
Definition start_drain (mode : DrainMode) (ch : Channel) : Channel := mkChannel (Some mode) (drained_tx ch).
Definition drained (ch : Channel) : bool := bool_decide (drained_tx ch = ∅).

(** The mode, or [None] while [wait_for_drain] waits. *)
Definition wait_for_drain (ch : Channel) (signal_alive : bool) : option DrainMode :=
  match signal_tx ch with
  | Some mode => Some mode
  | None => if signal_alive then None else Some Immediate
  end.

(** [Upgrader]: with [None] a watch gets the sender of a channel of its own. *)
Record Upgrader := { up_tx : option H }.
Definition disable (u : Upgrader) (ch : Channel) : Upgrader * Channel :=
  ({| up_tx := None |}, match up_tx u with Some h => drop_tx h ch | None => ch end).
Definition upgrade (u : Upgrader) (h : H) (ch : Channel) : bool * Channel :=
  match up_tx u with Some _ => (true, clone_tx h ch) | None => (false, ch) end.
End channel.
Arguments Channel H {_ _}.
Arguments Upgrader H : clear implicits.

(** * One bind ([run_bind], with [run_with_drain]) *)

(** Who holds a sender of the bind's own channel: the wait of the accept loop, its
    upgrader, a connection. *)
Inductive Holder := HWait | HUpgrader | HConn (i : nat).
#[export] Instance Holder_eq_dec : EqDecision Holder.
Proof. solve_decision. Defined.
#[export] Program Instance Holder_countable : Countable Holder :=
  inj_countable' (λ h, match h with HWait => inl false | HUpgrader => inl true | HConn i => inr i end)
    (λ s, match s with inl false => HWait | inl true => HUpgrader | inr i => HConn i end) _.
Next Obligation. by intros []. Qed.

Inductive ConnState := Open | Completed | Forced.
(** [c_blocks]: the connection got a sender of the bind's channel. *)
Record Conn := mkConn { c_blocks : bool; c_state : ConnState }.

(** The two loops of [accept]; whether the minimum deadline is over. *)
Inductive AcceptPc := Accepting | Draining (slept : bool).
(** [watch] of [run_with_drain]: waiting for the drain, then for the connections. *)
Inductive WatchPc := WaitDrain | WaitConns.
(** How the bind ended: [accept] returned; all connections were done; the maximum deadline
    was over; it was told to stop; its task was aborted. *)
Inductive BindEnd := AcceptReturned | Drained | DeadlineOver | Terminated | Aborted.

Record Run := mkRun {
  upstream : Channel unit;
  upstream_alive : bool;
  sub : Channel Holder;
  upgrader : Upgrader Holder;
  (** [inner_trigger] and [inner_drain] *)
  inner : Channel unit;
  apc : AcceptPc;
  wpc : WatchPc;
  ended : option BindEnd;
  conns : gmap nat Conn
}.

(** What happens: the gateway's drain starts or its trigger is dropped; a client connects;
    the accept loop sees the drain; [min_deadline] is over; [drained_for_minimum] is done;
    [watch] sees the drain, or that all senders are gone, or [deadline] is over; a
    connection is done by itself or sees [force_shutdown]; the task is aborted. *)
Inductive Ev :=
| EvSignal (mode : DrainMode) | EvSignalDropped
| EvConnect (i : nat) | EvAcceptDrain | EvSlept | EvMinimum
| EvWatchDrain | EvDrained | EvDeadline
| EvConnDone (i : nat) | EvConnForced (i : nat)
| EvAbort.

Definition set_conns (s : Run) (sb : Channel Holder) (c : gmap nat Conn) : Run :=
  mkRun (upstream s) (upstream_alive s) sb (upgrader s) (inner s) (apc s) (wpc s) (ended s) c.

(** The start: [accept] has cloned its watch and made the upgrader and the inner channel. *)
Definition started : Run :=
  mkRun (channel ()) true (clone_tx HUpgrader (channel HWait)) {| up_tx := Some HUpgrader |} (channel ())
    Accepting WaitDrain None ∅.

(** Both futures of the [select!] are dropped, with what they hold. *)
Definition finish (e : BindEnd) (s : Run) : Run :=
  let '(u, sb) := disable (upgrader s) (drop_tx HWait (sub s)) in
  mkRun (upstream s) (upstream_alive s) sb u (drop_tx () (inner s)) (apc s) (wpc s) (Some e) (conns s).

(** [handle_stream] *)
Definition handle_stream (i : nat) (s : Run) : Run :=
  let '(blocks, sb) := upgrade (upgrader s) (HConn i) (sub s) in
  set_conns s sb (<[i := mkConn blocks Open]> (conns s)).

(** The accept loop leaves its first [loop]. *)
Definition accept_drain (mode : DrainMode) (s : Run) : Run :=
  let '(u, sb) := disable (upgrader s) (sub s) in
  mkRun (upstream s) (upstream_alive s) (drop_tx HWait sb) u (start_drain mode (inner s)) (Draining false) (wpc s)
    (ended s) (conns s).

(** The end of a connection's task drops its watch. *)
Definition end_conn (i : nat) (st : ConnState) (s : Run) : option Run :=
  match conns s !! i with
  | Some (mkConn blocks Open) =>
    Some (set_conns s (if blocks then drop_tx (HConn i) (sub s) else sub s) (<[i := mkConn blocks st]> (conns s)))
  | _ => None
  end.

(** [force_shutdown.changed()] is ready once [run_with_drain] has sent or is dropped. *)
Definition force_changed (s : Run) : bool := bool_decide (ended s ≠ None).

(** [None]: the event cannot happen now. *)
Definition bind_step (e : Ev) (s : Run) : option Run :=
  match e with
  | EvSignal mode =>
    Some (mkRun (start_drain mode (upstream s)) (upstream_alive s) (sub s) (upgrader s) (inner s) (apc s) (wpc s)
            (ended s) (conns s))
  | EvSignalDropped =>
    Some (mkRun (upstream s) false (sub s) (upgrader s) (inner s) (apc s) (wpc s) (ended s) (conns s))
  | EvConnDone i => end_conn i Completed s
  | EvConnForced i => if force_changed s then end_conn i Forced s else None
  | _ =>
    match ended s with
    | Some _ => None
    | None =>
      match e, apc s, wpc s with
      | EvConnect i, _, _ => match conns s !! i with Some _ => None | None => Some (handle_stream i s) end
      | EvAcceptDrain, Accepting, _ => (λ mode, accept_drain mode s) <$> wait_for_drain (sub s) true
      | EvSlept, Draining _, _ =>
        Some (mkRun (upstream s) (upstream_alive s) (sub s) (upgrader s) (inner s) (Draining true) (wpc s)
                (ended s) (conns s))
      | EvMinimum, Draining true, _ => if drained (inner s) then Some (finish AcceptReturned s) else None
      | EvWatchDrain, _, WaitDrain =>
        match wait_for_drain (upstream s) (upstream_alive s) with
        | None => None
        | Some Graceful =>
          Some (mkRun (upstream s) (upstream_alive s) (start_drain Graceful (sub s)) (upgrader s) (inner s) (apc s)
                  WaitConns (ended s) (conns s))
        | Some Immediate => Some (finish Terminated s)
        end
      | EvDrained, _, WaitConns => if drained (sub s) then Some (finish Drained s) else None
      | EvDeadline, _, WaitConns => Some (finish DeadlineOver s)
      | EvAbort, _, _ => Some (finish Aborted s)
      | _, _, _ => None
      end
    end
  end.

Fixpoint bind_run (evs : list Ev) (s : Run) : option Run :=
  match evs with
  | [] => Some s
  | e :: evs => s ← bind_step e s; bind_run evs s
  end.
Definition reachable (s : Run) : Prop := ∃ evs, bind_run evs started = Some s.

(** A connection that blocks the drain. *)
Definition blocking (s : Run) (i : nat) : Prop := conns s !! i = Some (mkConn true Open).

(** * Readiness ([readiness.rs]) *)

Module Ready.
(** The names that are pending, and those of the [BlockReady] values that are alive. *)
Record t := mk { pending : gset string; blocks : list string }.

Definition new : t := mk ∅ [].
Definition register_task (name : string) (s : t) : t := mk ({[name]} ∪ pending s) (name :: blocks s).
(** [drop] of a [BlockReady], with [removed]. *)
Definition drop (name : string) (l1 l2 : list string) (s : t) : t * bool :=
  (mk (pending s ∖ {[name]}) (l1 ++ l2), bool_decide (name ∈ pending s)).

Inductive step : t → t → Prop :=
| step_register s name : step s (register_task name s)
| step_drop s name l1 l2 : blocks s = l1 ++ name :: l2 → step s (drop name l1 l2 s).1.
End Ready.

(** * Theorems *)

Record run_inv (s : Run) : Prop := {
  ri_accepting : ended s = None → apc s = Accepting →
    up_tx (upgrader s) = Some HUpgrader ∧ HWait ∈ drained_tx (sub s) ∧ HUpgrader ∈ drained_tx (sub s);
  ri_draining : ended s ≠ None ∨ apc s ≠ Accepting →
    up_tx (upgrader s) = None ∧ (HWait ∉ drained_tx (sub s)) ∧ (HUpgrader ∉ drained_tx (sub s));
  ri_conns : ∀ i, HConn i ∈ drained_tx (sub s) ↔ conns s !! i = Some (mkConn true Open);
  ri_inner : ended s = None → drained_tx (inner s) = {[()]};
  ri_late : ∀ i st, conns s !! i = Some (mkConn false st) → signal_tx (sub s) = Some Graceful;
  ri_signal : signal_tx (sub s) = Some Graceful ∨ signal_tx (sub s) = None;
  ri_drain : apc s ≠ Accepting → signal_tx (sub s) = Some Graceful;
  ri_watch : ended s = None → (signal_tx (sub s) = Some Graceful ↔ wpc s = WaitConns);
  ri_forced : ∀ i b, conns s !! i = Some (mkConn b Forced) → ended s ≠ None;
  ri_ended : ended s ≠ Some AcceptReturned;
  ri_all_done : ended s = Some Drained → ∀ i, conns s !! i ≠ Some (mkConn true Open) ∧ conns s !! i ≠ Some (mkConn true Forced)
}.

Lemma run_inv_started : run_inv started.
Proof. split; simpl; try (intros; done || set_solver). Qed.

Lemma run_inv_finish e s :
  run_inv s → ended s = None → e ≠ AcceptReturned → (e = Drained → drained (sub s) = true) → run_inv (finish e s).
Proof.
  intros [Ha Hd Hc Hi Hl Hs Hdr Hw Hf He Hall] Hend Hne Hdone. unfold finish, disable.
  destruct (apc s) eqn:Hpc.
  - destruct (Ha Hend eq_refl) as (-> & _ & _). simpl. split; simpl; try done.
    + set_solver.
    + intros i. rewrite <-Hc. set_solver.
    + congruence.
    + intros [= ->] i. specialize (Hdone eq_refl). unfold drained in Hdone. apply bool_decide_eq_true in Hdone.
      split; [intros Hb; apply Hc in Hb; set_solver|by intros Hb%Hf].
  - destruct Hd as (-> & Hn1 & Hn2); [by right|]. simpl. split; simpl; try done.
    + set_solver.
    + intros i. rewrite <-Hc. set_solver.
    + congruence.
    + intros [= ->] i. specialize (Hdone eq_refl). unfold drained in Hdone. apply bool_decide_eq_true in Hdone.
      split; [intros Hb; apply Hc in Hb; set_solver|by intros Hb%Hf].
Qed.

Lemma run_inv_handle_stream i s :
  run_inv s → ended s = None → conns s !! i = None → run_inv (handle_stream i s).
Proof.
  intros [Ha Hd Hc Hi Hl Hs Hdr Hw Hf He Hall] Hend Hnone. unfold handle_stream, upgrade, set_conns.
  destruct (apc s) eqn:Hpc.
  - destruct (Ha Hend eq_refl) as (Hu & Hh1 & Hh2). rewrite Hu. split; simpl; try done; try congruence.
    + set_solver.
    + intros [Hx|Hx]; congruence.
    + intros j. rewrite lookup_insert. case_decide; subst; [set_solver|]. rewrite <-Hc. set_solver.
    + intros j st. rewrite lookup_insert. case_decide; [congruence|apply Hl].
    + intros j b. rewrite lookup_insert. case_decide; [congruence|apply Hf].
  - destruct Hd as (Hu & Hn1 & Hn2); [by right|]. rewrite Hu. split; simpl; try done; try congruence.
    + intros j. rewrite lookup_insert. case_decide; subst; [|done].
      split; [intros Hj%Hc; congruence|congruence].
    + intros j st. rewrite lookup_insert. case_decide; [|apply Hl]. intros _. apply Hdr. congruence.
    + intros j b. rewrite lookup_insert. case_decide; [congruence|apply Hf].
Qed.

Lemma run_inv_accept_drain mode s :
  run_inv s → ended s = None → apc s = Accepting → wait_for_drain (sub s) true = Some mode →
  run_inv (accept_drain mode s).
Proof.
  intros [Ha Hd Hc Hi Hl Hs Hdr Hw Hf He Hall] Hend Hpc Hwait. unfold accept_drain, disable.
  destruct (Ha Hend Hpc) as (Hu & Hh1 & Hh2). rewrite Hu. split; simpl; try done; try congruence.
  - set_solver.
  - intros j. rewrite <-Hc. set_solver.
  - intros _. unfold wait_for_drain in Hwait. by destruct Hs as [Hs|Hs]; rewrite Hs in *.
Qed.

Lemma run_inv_end_conn i st s s' :
  run_inv s → st ≠ Open → (st = Forced → ended s ≠ None) → end_conn i st s = Some s' → run_inv s'.
Proof.
  intros [Ha Hd Hc Hi Hl Hs Hdr Hw Hf He Hall] Hst Hforced Hs'. unfold end_conn, set_conns in Hs'.
  destruct (conns s !! i) as [[blocks []]|] eqn:Hci; simplify_eq/=. split; simpl; try done.
  - destruct blocks; set_solver.
  - destruct blocks; set_solver.
  - intros j. rewrite lookup_insert. case_decide; subst.
    + split; [|by intros [=]]. destruct blocks; [set_solver|]. intros Hj%Hc. congruence.
    + rewrite <-Hc. destruct blocks; set_solver.
  - intros j st'. rewrite lookup_insert. case_decide; subst.
    + intros [= -> ->]. by eapply Hl.
    + intros Hj. apply Hl in Hj. by destruct blocks.
  - by destruct blocks.
  - intros Hx. by destruct blocks; apply Hdr.
  - intros Hx. by destruct blocks; apply Hw.
  - intros j b. rewrite lookup_insert. case_decide; [|apply Hf]. intros [= _ ->]. by apply Hforced.
  - intros Hdone j. destruct (Hall Hdone j) as [H1 H2]. rewrite lookup_insert. case_decide; subst; [|done].
    split; intros [= -> ->]; [done|]. apply H1. congruence.
Qed.

(** The futures that only move on. *)
Lemma run_inv_slept b s :
  run_inv s → ended s = None → apc s = Draining b →
  run_inv (mkRun (upstream s) (upstream_alive s) (sub s) (upgrader s) (inner s) (Draining true) (wpc s) None (conns s)).
Proof.
  intros [Ha Hd Hc Hi Hl Hs Hdr Hw Hf He Hall] Hend Hpc. rewrite Hend in *.
  split; simpl; try done; intros; first [apply Hd; right|apply Hdr]; congruence.
Qed.

Lemma run_inv_watch_drain s :
  run_inv s → ended s = None → wpc s = WaitDrain →
  run_inv (mkRun (upstream s) (upstream_alive s) (start_drain Graceful (sub s)) (upgrader s) (inner s) (apc s) WaitConns
             None (conns s)).
Proof.
  intros [Ha Hd Hc Hi Hl Hs Hdr Hw Hf He Hall] Hend Hpc. rewrite Hend in *. split; simpl; try done. by left.
Qed.

Lemma run_inv_step e s s' : run_inv s → bind_step e s = Some s' → run_inv s'.
Proof.
  intros Hinv Hstep.
  assert (∀ e', ended s = None → e' ≠ AcceptReturned → (e' = Drained → drained (sub s) = true) →
    run_inv (finish e' s)) as Hfin by (intros; by apply run_inv_finish).
  destruct e; simpl in Hstep.
  - simplify_eq. by destruct Hinv.
  - simplify_eq. by destruct Hinv.
  - repeat case_match; simplify_eq. by apply run_inv_handle_stream.
  - repeat case_match; try done. apply fmap_Some in Hstep as (m & Hm & ->). by apply run_inv_accept_drain.
  - repeat case_match; simplify_eq. eapply run_inv_slept; done.
  - repeat case_match; simplify_eq. exfalso. unfold drained in *. rewrite (ri_inner s Hinv) in *; [|done].
    by case_bool_decide.
  - repeat case_match; simplify_eq; try by apply Hfin.
    by apply run_inv_watch_drain.
  - repeat case_match; simplify_eq; by apply Hfin.
  - repeat case_match; simplify_eq; by apply Hfin.
  - by apply (run_inv_end_conn i Completed s).
  - case_match eqn:Hfc; [|done]. apply (run_inv_end_conn i Forced s); [done|done| |done].
    intros _. unfold force_changed in Hfc. by apply bool_decide_eq_true in Hfc.
  - repeat case_match; simplify_eq; by apply Hfin.
Qed.

Lemma reachable_run_inv s : reachable s → run_inv s.
Proof.
  intros [evs Hrun]. assert (run_inv started) as Hinv by apply run_inv_started.
  revert Hinv Hrun. generalize started. induction evs as [|e evs IH]; simpl; intros s0 Hinv Hrun; [by simplify_eq|].
  apply bind_Some in Hrun as (s1 & H1 & Hrun). eapply IH; [|exact Hrun]. by eapply run_inv_step.
Qed.

(** A drain is graceful. A connection accepted before the bind saw the drain is cut off
    only when the maximum deadline is over, the gateway is told to stop at once, or the
    bind is removed; nothing is cut off while the bind is up, and a connection that does
    not block the drain was accepted after the drain began. *)
Theorem bind_drain_graceful s i :
  reachable s →
  (∀ b, conns s !! i = Some (mkConn b Forced) → ended s ≠ None) ∧
  (conns s !! i = Some (mkConn true Forced) → ended s ∈ [Some DeadlineOver; Some Terminated; Some Aborted]) ∧
  (∀ st, conns s !! i = Some (mkConn false st) → signal_tx (sub s) = Some Graceful).
Proof.
  intros [Ha Hd Hc Hi Hl Hs Hdr Hw Hf He Hall]%reachable_run_inv. split; [intros b; apply Hf|]. split; [|intros st; apply Hl].
  intros Hi'. pose proof (Hf _ _ Hi'). destruct (ended s) as [[]|] eqn:Hend; try done; try set_solver.
Qed.

(** The events of a drain that is left alone: the accept loop notices it and connections
    that block it finish. *)
Definition quiet (s : Run) (e : Ev) : Prop :=
  e = EvAcceptDrain ∨ e = EvDrained ∨ ∃ i, e = EvConnDone i ∧ blocking s i.

Inductive quiet_run : list Ev → Run → Run → Prop :=
| quiet_nil s : quiet_run [] s s
| quiet_cons e evs s s1 s2 : quiet s e → bind_step e s = Some s1 → quiet_run evs s1 s2 → quiet_run (e :: evs) s s2.

Lemma quiet_conns_done n s :
  size (drained_tx (sub s)) = n → run_inv s → ended s = None → apc s ≠ Accepting →
  ∃ evs s', quiet_run evs s s' ∧ ended s' = Some Drained.
Proof.
  revert s. induction n as [|n IH]; intros s Hn Hinv Hend Hpc.
  - exists [EvDrained], (finish Drained s). split.
    + eapply quiet_cons; [right; by left| |apply quiet_nil]. simpl.
      assert (wpc s = WaitConns) as -> by (apply (ri_watch s Hinv Hend), (ri_drain s Hinv Hpc)).
      rewrite Hend. destruct (apc s) eqn:Ha; [done|]. unfold drained. rewrite bool_decide_eq_true_2; [done|].
      by apply leibniz_equiv, size_empty_inv.
    + unfold finish. by destruct (disable _ _).
  - destruct (set_choose_L (drained_tx (sub s))) as [h Hh].
    { intros Heq. rewrite Heq, size_empty in Hn. done. }
    destruct (ri_draining s Hinv (or_intror Hpc)) as (_ & Hn1 & Hn2).
    destruct h as [| |i]; [done|done|]. pose proof Hh as Hb. apply (ri_conns s Hinv) in Hb.
    destruct (end_conn i Completed s) as [s1|] eqn:Hs1; [|unfold end_conn in Hs1; by rewrite Hb in Hs1].
    assert (run_inv s1) as Hinv1 by (by apply (run_inv_end_conn i Completed s)).
    unfold end_conn, set_conns in Hs1. rewrite Hb in Hs1. simplify_eq.
    lazymatch type of Hinv1 with run_inv ?s1 =>
      destruct (IH s1) as (evs & s' & Hrun & Hend'); [|exact Hinv1|exact Hend|exact Hpc|] end.
    { simpl. rewrite size_difference by set_solver. rewrite size_singleton. lia. }
    exists (EvConnDone i :: evs), s'. split; [|done]. eapply quiet_cons; [|by simpl; unfold end_conn; rewrite Hb|done].
    right; right. by exists i.
Qed.

(** A graceful drain ends. Once the bind's drain has begun, it is over as soon as the
    accept loop has noticed and the connections that block it are done: connections
    accepted later never prolong it. *)
Theorem bind_drain_ends s :
  reachable s → ended s = None → wpc s = WaitConns →
  ∃ evs s', quiet_run evs s s' ∧ ended s' = Some Drained.
Proof.
  intros Hinv%reachable_run_inv Hend Hw. destruct (apc s) eqn:Hpc.
  - pose proof (proj2 (ri_watch s Hinv Hend) Hw) as Hsig.
    assert (wait_for_drain (sub s) true = Some Graceful) as Hwait by (unfold wait_for_drain; by rewrite Hsig).
    assert (run_inv (accept_drain Graceful s)) as Hinv' by by apply run_inv_accept_drain.
    destruct (quiet_conns_done _ (accept_drain Graceful s) eq_refl Hinv') as (evs & s' & Hrun & Hend').
    { unfold accept_drain. by destruct (disable _ _). }
    { unfold accept_drain. by destruct (disable _ _). }
    exists (EvAcceptDrain :: evs), s'. split; [|done]. eapply quiet_cons; [by left| |done].
    simpl. by rewrite Hend, Hpc, Hwait.
  - eapply quiet_conns_done; [done|done|done|congruence].
Qed.

(** The minimum deadline has no effect. The accept loop never returns by itself, because
    it holds the watcher of the inner channel it waits for; and when no connection
    accepted before the drain is open, the bind ends at once, whether or not the minimum
    is over. *)
Theorem bind_drain_minimum s b :
  reachable s → ended s = None → apc s = Draining b →
  bind_step EvMinimum s = None ∧
  ((∀ i, ¬ blocking s i) → ∃ s', bind_step EvDrained s = Some s' ∧ ended s' = Some Drained).
Proof.
  intros Hinv%reachable_run_inv Hend Hpc.
  assert (wpc s = WaitConns) as Hw by (apply (ri_watch s Hinv Hend), (ri_drain s Hinv); congruence). split.
  - simpl. rewrite Hend, Hpc. destruct b; [|done]. unfold drained. by rewrite (ri_inner s Hinv Hend).
  - intros Hno. exists (finish Drained s). split; [|unfold finish; by destruct (disable _ _)].
    simpl. rewrite Hend, Hw. unfold drained. rewrite bool_decide_eq_true_2; [done|].
    apply set_eq. intros [| |i]; (split; [|set_solver]).
    + by destruct (ri_draining s Hinv) as (_ & ? & _); [right; congruence|].
    + by destruct (ri_draining s Hinv) as (_ & _ & ?); [right; congruence|].
    + intros Hi%(ri_conns s Hinv). by destruct (Hno i).
Qed.

(** Readiness is exact. When no task is registered under a name that is still pending,
    the pending names are those of the tasks that are not done, and every task is removed
    when it is done; in general nothing is pending that no task blocks. *)
Theorem ready_exact s :
  rtc Ready.step Ready.new s →
  Ready.pending s ⊆ list_to_set (Ready.blocks s) ∧
  (rtc (λ s s', Ready.step s s' ∧ NoDup (Ready.blocks s')) Ready.new s →
   Ready.pending s = list_to_set (Ready.blocks s) ∧
   ∀ name l1 l2, Ready.blocks s = l1 ++ name :: l2 → (Ready.drop name l1 l2 s).2 = true).
Proof.
  intros Hs. split.
  - eapply (rtc_ind_r (λ s, Ready.pending s ⊆ list_to_set (Ready.blocks s)) _); [| |exact Hs]; [done|].
    clear s Hs. intros s s' _ Hstep IH. destruct Hstep as [s name|s name l1 l2 Hb]; simpl; [set_solver|].
    rewrite Hb in IH. rewrite list_to_set_app_L in *. simpl in IH. set_solver.
  - intros Hu. assert (Ready.pending s = list_to_set (Ready.blocks s)) as Heq.
    { apply proj1 with (NoDup (Ready.blocks s)).
      eapply (rtc_ind_r (λ s, Ready.pending s = list_to_set (Ready.blocks s) ∧ NoDup (Ready.blocks s)) _); [| |exact Hu].
      { split; [done|constructor]. }
      clear s Hs Hu. intros s s' _ [Hstep Hnd] [IH Hold]. split; [|done].
      destruct Hstep as [s name|s name l1 l2 Hb]; simpl; [set_solver|].
      rewrite IH, Hb. rewrite Hb in Hold. apply NoDup_app in Hold as (_ & Hd & Hnd2). apply NoDup_cons in Hnd2 as [Hn _].
      specialize (Hd name). set_solver. }
    split; [done|]. intros name l1 l2 Hb. simpl. apply bool_decide_eq_true_2. rewrite Heq, Hb. set_solver.
Qed.

(** * A drain with three connections *)

Module DrainExample.
Definition after (evs : list Ev) : Run := default started (bind_run evs started).

Lemma after_reachable evs : match bind_run evs started with Some _ => true | None => false end = true → reachable (after evs).
Proof. intros H. exists evs. unfold after. by destruct (bind_run evs started). Qed.

(** One client before the drain, one before the accept loop notices, one after. *)
Definition draining : list Ev :=
  [EvConnect 0; EvSignal Graceful; EvWatchDrain; EvConnect 1; EvAcceptDrain; EvConnect 2].
(** The first finishes, the second takes too long. *)
Definition cut_off : list Ev := draining ++ [EvConnDone 0; EvDeadline; EvConnForced 1; EvConnForced 2].

Lemma bind_drain_graceful_witness :
  conns (after cut_off) !! 1 = Some (mkConn true Forced) ∧
  ended (after cut_off) ∈ [Some DeadlineOver; Some Terminated; Some Aborted].
Proof.
  assert (conns (after cut_off) !! 1 = Some (mkConn true Forced)) as H by (vm_compute; reflexivity).
  split; [exact H|]. apply (bind_drain_graceful (after cut_off) 1); [|exact H].
  apply after_reachable. vm_compute. reflexivity.
Defined.

Lemma bind_drain_ends_witness : ∃ evs s', quiet_run evs (after draining) s' ∧ ended s' = Some Drained.
Proof. apply bind_drain_ends; [apply after_reachable| |]; vm_compute; reflexivity. Defined.

(** Without connections the bind is gone before the minimum is over. *)
Definition idle : Run := after [EvSignal Graceful; EvWatchDrain; EvAcceptDrain].

Lemma bind_drain_minimum_witness :
  apc idle = Draining false ∧ ∃ s', bind_step EvDrained idle = Some s' ∧ ended s' = Some Drained.
Proof.
  assert (apc idle = Draining false) as Hpc by (vm_compute; reflexivity).
  assert (conns idle = ∅) as Hc by (vm_compute; reflexivity).
  split; [exact Hpc|]. refine (proj2 (bind_drain_minimum idle false _ _ Hpc) _).
  - apply after_reachable. vm_compute. reflexivity.
  - vm_compute. reflexivity.
  - intros i. unfold blocking. rewrite Hc. discriminate.
Defined.

Lemma ready_exact_witness :
  let s := Ready.register_task "agentgateway" Ready.new in
  Ready.pending s = list_to_set (Ready.blocks s).
Proof.
  refine (proj1 (proj2 (ready_exact _ (rtc_once _ _ (Ready.step_register Ready.new "agentgateway"))) _)).
  apply rtc_once. split; [apply Ready.step_register|]. apply NoDup_singleton.
Defined.
End DrainExample.
