(* ===== verification/App.v ===== *)
(** App: the process as a whole ([app.rs]): how it starts, when it says that it is ready
    ([management/readiness_server.rs], [core/src/signal.rs]), what its admin server answers
    ([management/admin.rs], the log filter of [core/src/telemetry.rs]) and how it ends.

    Tasks interleave at their awaits.  The filter of the log ([Targets]) and the dumps of
    the configuration are other packages'. *)
From S2P Require Import Prelude Strs Drain.

(** * Answers ([hyper_helpers.rs]) *)

Record Answer := { code : N; content_type : option string; text : string }.
Definition empty_response (c : N) : Answer := {| code := c; content_type := None; text := "" |}.
Definition plaintext_response (c : N) (body : string) : Answer := {| code := c; content_type := Some "text/plain"; text := body |}.

Definition OK : N := 200.
Definition BAD_REQUEST : N := 400.
Definition NOT_FOUND : N := 404.
Definition METHOD_NOT_ALLOWED : N := 405.
Definition INTERNAL_SERVER_ERROR : N := 500.

Definition newline : string := String "010" "".

(** * Readiness *)

Definition sorted : list string → list string := merge_sort (λ a b, Is_true (String.leb a b)).

Definition handle_ready `{!SetIter string} (ready : Ready.t) (method : string) : Answer :=
  if Str.eqb method "GET" then
    let pending := hs_iter (Ready.pending ready) in
    match pending with
    | [] => plaintext_response OK ("ready" +:+ newline)
    | _ => plaintext_response INTERNAL_SERVER_ERROR ("not ready, pending: " +:+ String.concat ", " (sorted pending) +:+ newline)
    end
  else empty_response METHOD_NOT_ALLOWED.

Definition readiness_answer `{!SetIter string} (ready : Ready.t) (method path : string) : Answer :=
  if Str.eqb path "/healthz/ready" then handle_ready ready method else empty_response NOT_FOUND.

(** ** Starting ([run]) *)

Definition STATE_MANAGER : string := "state manager".
Definition GATEWAY : string := "agentgateway".

(** How far [run] is: nothing; the readiness server is up; the stores are made; the admin
    server is up; the gateway is queued; its block is dropped; everything is up.  A step
    that fails drops what [run] holds, the blocks it still has, in this order, and the
    sender of the data plane pool last; then [run] has returned the error, the runtime
    of [main] is dropped, and the process is over. *)
Inductive MainPc :=
| MStart | MReadiness | MStores | MAdmin | MQueued | MUnblocked | MRunning
| MFailing (blocks : list string) | MReturned | MExiting | MExited.
(** The gateway's task. *)
Inductive GwPc := GwNone | GwWaiting | GwRunning.

Record Boot := mkBoot {
  b_ready : Ready.t;
  (** the sender of the initial state has sent or is gone *)
  b_xds : bool;
  (** the task that unblocks readiness waits *)
  b_waits : bool;
  b_gw : GwPc;
  (** the readiness server runs, in the data plane pool *)
  b_server : bool;
  b_pc : MainPc
}.
Definition boot_start : Boot := mkBoot Ready.new false false GwNone false MStart.

(** The steps of [run] with their results (what can fail between two of them fails with
    the later one), whether there is a control plane; the initial state comes; the waiting task and the gateway see it.  After a failure: a block is
    dropped; [run] returns; the runtime of [main] is dropped; the pool without tasks to
    wait for ends; the process exits. *)
Inductive BootEv :=
| BReadiness (ok : bool) | BStores (ok has_xds : bool) | BAdmin (ok : bool) | BQueue (ok : bool) | BUnblock | BMetrics (ok : bool)
| BXds | BWaiter | BGateway
| BDropBlock | BReturn | BDropRuntime | BPoolEnds | BExit.

(** [BlockReady] dropped. *)
Definition unblock (name : string) (r : Ready.t) : Ready.t :=
  match list_find (λ n, n = name) (Ready.blocks r) with
  | Some (i, _) => (Ready.drop name (take i (Ready.blocks r)) (drop (S i) (Ready.blocks r)) r).1
  | None => r
  end.

Definition advance (s : Boot) (pc : MainPc) : Boot := mkBoot (b_ready s) (b_xds s) (b_waits s) (b_gw s) (b_server s) pc.

(** What the steps of [run] do when they succeed. *)
Definition start_readiness (s : Boot) : Boot := mkBoot (b_ready s) (b_xds s) (b_waits s) (b_gw s) true MReadiness.
Definition make_stores (has_xds : bool) (s : Boot) : Boot := mkBoot (b_ready s) (negb has_xds) true (b_gw s) (b_server s) MStores.
Definition queue_gateway (s : Boot) : Boot := mkBoot (b_ready s) (b_xds s) (b_waits s) GwWaiting (b_server s) MQueued.
Definition register_tasks (s : Boot) : Boot :=
  mkBoot (Ready.register_task GATEWAY (Ready.register_task STATE_MANAGER (b_ready s))) (b_xds s) (b_waits s) (b_gw s)
    (b_server s) (b_pc s).
Definition drop_block (name : string) (s : Boot) (pc : MainPc) : Boot :=
  mkBoot (unblock name (b_ready s)) (b_xds s) (b_waits s) (b_gw s) (b_server s) pc.

(** The tasks on the runtime of [main] run while [run] waits, and after it. *)
Definition tasks_run (pc : MainPc) : bool :=
  match pc with MStores | MAdmin | MQueued | MUnblocked | MRunning => true | _ => false end.

(** With the runtime of [main] go its tasks: the one that waits drops its block, the
    state manager its sender. *)
Definition drop_runtime (s : Boot) : Boot :=
  mkBoot (if b_waits s then unblock STATE_MANAGER (b_ready s) else b_ready s) true false (b_gw s) (b_server s) MExiting.

Definition boot_step (s : Boot) (e : BootEv) : option Boot :=
  match e with
  | BReadiness ok =>
    match b_pc s with
    | MStart => let s := register_tasks s in
                Some (if ok then start_readiness s else advance s (MFailing [GATEWAY; STATE_MANAGER]))
    | _ => None
    end
  | BStores ok has_xds =>
    match b_pc s with
    | MReadiness => Some (if ok then make_stores has_xds s else advance s (MFailing [GATEWAY; STATE_MANAGER]))
    | _ => None
    end
  | BAdmin ok => match b_pc s with MStores => Some (advance s (if ok then MAdmin else MFailing [GATEWAY])) | _ => None end
  | BQueue ok =>
    match b_pc s with MAdmin => Some (if ok then queue_gateway s else advance s (MFailing [GATEWAY])) | _ => None end
  | BUnblock => match b_pc s with MQueued => Some (drop_block GATEWAY s MUnblocked) | _ => None end
  | BMetrics ok => match b_pc s with MUnblocked => Some (advance s (if ok then MRunning else MFailing [])) | _ => None end
  | BXds =>
    if tasks_run (b_pc s) then Some (mkBoot (b_ready s) true (b_waits s) (b_gw s) (b_server s) (b_pc s)) else None
  | BWaiter =>
    if tasks_run (b_pc s) && b_waits s && b_xds s
    then Some (mkBoot (unblock STATE_MANAGER (b_ready s)) true false (b_gw s) (b_server s) (b_pc s)) else None
  | BGateway =>
    match b_gw s, b_pc s with
    | _, MExited => None
    | GwWaiting, _ =>
      if b_xds s then Some (mkBoot (b_ready s) true (b_waits s) GwRunning (b_server s) (b_pc s)) else None
    | _, _ => None
    end
  | BDropBlock => match b_pc s with MFailing (name :: blocks) => Some (drop_block name s (MFailing blocks)) | _ => None end
  | BReturn => match b_pc s with MFailing [] => Some (advance s MReturned) | _ => None end
  | BDropRuntime => match b_pc s with MReturned => Some (drop_runtime s) | _ => None end
  | BPoolEnds =>
    match b_pc s, b_gw s with
    | (MReturned | MExiting), GwNone => Some (mkBoot (b_ready s) (b_xds s) (b_waits s) GwNone false (b_pc s))
    | _, _ => None
    end
  | BExit =>
    match b_pc s with
    | MExiting => Some (mkBoot (b_ready s) (b_xds s) (b_waits s) GwNone false MExited)
    | _ => None
    end
  end.
Fixpoint boot (s : Boot) (es : list BootEv) : option Boot :=
  match es with [] => Some s | e :: es => s ← boot_step s e; boot s es end.

(** The server answers as long as it runs. *)
Definition answers (s : Boot) : bool := b_server s.
Definition is_ready `{!SetIter string} (s : Boot) : Prop :=
  answers s = true ∧ code (readiness_answer (b_ready s) "GET" "/healthz/ready") = OK.

(** * The admin server *)

Section admin.
(** [filter::Targets]. *)
Context {Targets : Type} (from_str : string → option Targets) (to_string : Targets → string).
Context (env_var : string → option string) (HELP_STRING : string).

Definition NOISY : string := "rmcp=warn,hickory_server::server::server_future=off,".
(** The filter of the environment; a filter that does not parse panics. *)
Definition default_filter : comp Targets := expect (from_str (NOISY +:+ default "info" (env_var "RUST_LOG"))).

(** [LOG_HANDLE]: the filter in use, if logging is set up. *)
Definition set_level (handle : option Targets) (reset : bool) (level : string) : comp (option Targets * result () string) :=
  match handle with
  | None => Ret (None, Err "logging is not initialized")
  | Some current =>
    new_directive ← (if reset then
                       d ← default_filter;
                       Ret (if Str.is_empty level then to_string d else to_string d +:+ "," +:+ level)
                     else Ret (to_string current +:+ "," +:+ level));
    Ret (match from_str new_directive with
         | None => (handle, Err "parse failure")
         | Some new_filter => (Some new_filter, Ok ())
         end)
  end.

Definition list_loggers (handle : option Targets) : Answer :=
  match handle with
  | Some f => plaintext_response OK ("current log level is " +:+ to_string f +:+ newline)
  | None => plaintext_response INTERNAL_SERVER_ERROR
              ("failed to get the log level: logging is not initialized" +:+ newline +:+ " " +:+ HELP_STRING)
  end.

Definition LEVELS : list string := ["off"; "error"; "warn"; "info"; "debug"; "trace"].
Fixpoint validate_clauses (l : list string) : bool :=
  match l with
  | [] => true
  | clause :: l =>
    if bool_decide (clause ∈ LEVELS) then validate_clauses l
    else if Str.contains_char "=" clause then match from_str clause with Some _ => validate_clauses l | None => false end
    else false
  end.
Definition validate_log_level (level : string) : bool := validate_clauses (Str.split "," level).

Definition change_log_level (handle : option Targets) (reset : bool) (level : string) : comp (option Targets * Answer) :=
  if negb reset && Str.is_empty level then Ret (handle, list_loggers handle)
  else if negb (Str.is_empty level) && negb (validate_log_level level) then
    Ret (handle, plaintext_response BAD_REQUEST ("Invalid level provided: " +:+ level +:+ newline +:+ HELP_STRING))
  else
    '(handle, r) ← set_level handle reset level;
    Ret (handle, match r with
                 | Ok _ => list_loggers handle
                 | Err e => plaintext_response BAD_REQUEST ("Failed to set new level: " +:+ e +:+ newline +:+ HELP_STRING)
                 end).

(** [query]: the parameters of the URI. *)
Definition handle_logging (handle : option Targets) (method : string) (query : gmap string string) : comp (option Targets * Answer) :=
  if Str.eqb method "POST" then
    let level := query !! "level" in
    let reset := query !! "reset" in
    match level, reset with
    | None, None => Ret (handle, list_loggers handle)
    | _, _ => change_log_level handle (bool_decide (is_Some reset)) (default "" level)
    end
  else Ret (handle, plaintext_response METHOD_NOT_ALLOWED ("Invalid HTTP method" +:+ newline +:+ " " +:+ HELP_STRING)).

(** Whether a shutdown is triggered, and the answer. *)
Definition handle_server_shutdown (method : string) : bool * Answer :=
  if Str.eqb method "POST" then (true, plaintext_response OK ("shutdown now" +:+ newline)) else (false, empty_response METHOD_NOT_ALLOWED).
End admin.

(** * The end ([wait_termination], [Shutdown::wait]) *)

Inductive TermPc := TWaiting | TDraining | TExited (at_once : bool).
(** [t_double]: a second interrupt exits at once. *)
Record Term := mkTerm { t_pc : TermPc; t_double : bool; t_tracer : bool; t_drain : Channel nat }.

(** An interrupt, a termination signal, a request to the admin server; a watcher is dropped;
    the drain is over. *)
Inductive TermEv := TInterrupt | TTerminate | TExplicit | TWatcherDropped (w : nat) | TDrained.

Definition begin_drain (double : bool) (s : Term) : Term :=
  mkTerm TDraining double false (start_drain Drain.Graceful (t_drain s)).

Definition term_step (s : Term) (e : TermEv) : option Term :=
  match t_pc s, e with
  | TWaiting, TInterrupt => Some (begin_drain true s)
  | TWaiting, (TTerminate | TExplicit) => Some (begin_drain false s)
  | TDraining, TInterrupt => Some (if t_double s then mkTerm (TExited true) true (t_tracer s) (t_drain s) else s)
  | TDraining, (TTerminate | TExplicit) => Some s
  | TDraining, TDrained => if drained (t_drain s) then Some (mkTerm (TExited false) (t_double s) (t_tracer s) (t_drain s)) else None
  | (TWaiting | TDraining), TWatcherDropped w => Some (mkTerm (t_pc s) (t_double s) (t_tracer s) (drop_tx w (t_drain s)))
  | _, _ => None
  end.
Fixpoint terminate (s : Term) (es : list TermEv) : option Term :=
  match es with [] => Some s | e :: es => s ← term_step s e; terminate s es end.
(** With watchers held by the servers and the gateway. *)
Definition term_start (watchers : gset nat) : Term := mkTerm TWaiting false true (mkChannel None watchers).

(** * Theorems *)

Lemma handle_ready_code `{!SetIter string} r : code (readiness_answer r "GET" "/healthz/ready") = OK ↔ Ready.pending r = ∅.
Proof.
  unfold readiness_answer, handle_ready. simpl. pose proof (hs_iter_perm (Ready.pending r)) as Hp.
  destruct (hs_iter (Ready.pending r)) as [|x l] eqn:Hl; simpl; split; try done.
  - intros _. apply Permutation_nil_l in Hp. apply leibniz_equiv. by apply elements_empty_inv.
  - intros Hr. rewrite Hr, elements_empty in Hp. by apply Permutation_nil_r in Hp.
Qed.

(** A start that failed. *)
Definition failed (pc : MainPc) : bool :=
  match pc with MFailing _ | MReturned | MExiting | MExited => true | _ => false end.

(** What blocks readiness while the process starts: the gateway until it is unblocked, the
    state manager as long as its task waits. *)
Definition blocked (pc : MainPc) (waits : bool) : list string :=
  match pc with
  | MReadiness => [GATEWAY; STATE_MANAGER]
  | MStores | MAdmin | MQueued => GATEWAY :: (if waits then [STATE_MANAGER] else [])
  | MUnblocked | MRunning => if waits then [STATE_MANAGER] else []
  | _ => []
  end.
Definition ready_of (l : list string) : Ready.t := Ready.mk (list_to_set l) l.

Lemma pending_cons x l : Ready.pending (ready_of (x :: l)) ≠ ∅.
Proof. simpl. generalize (list_to_set l : gset string). set_solver. Qed.

Lemma unblock_gateway (w : bool) :
  unblock GATEWAY (ready_of (GATEWAY :: (if w then [STATE_MANAGER] else []))) = ready_of (if w then [STATE_MANAGER] else []).
Proof. destruct w; vm_compute; reflexivity. Qed.

Lemma unblock_manager pc :
  tasks_run pc = true → unblock STATE_MANAGER (ready_of (blocked pc true)) = ready_of (blocked pc false).
Proof. intros Ht. destruct pc; try discriminate Ht; vm_compute; reflexivity. Qed.

(** The tasks wait for the state; before a failure, what blocks readiness is known. *)
Record boot_inv (s : Boot) : Prop := {
  bi_gw : b_gw s = GwRunning → b_xds s = true;
  bi_ready : failed (b_pc s) = false → b_ready s = ready_of (blocked (b_pc s) (b_waits s));
  bi_early : b_pc s = MStart ∨ b_pc s = MReadiness → b_waits s = false ∧ b_gw s = GwNone ∧ b_xds s = false;
  bi_server : match b_pc s with
              | MStart | MExited => b_server s = false
              | MFailing _ | MReturned | MExiting => True
              | _ => b_server s = true
              end;
  bi_waits : tasks_run (b_pc s) = true → b_waits s = false → b_xds s = true;
  bi_queued : match b_pc s with
              | MStores | MAdmin => b_gw s = GwNone
              | MQueued | MUnblocked | MRunning => b_gw s ≠ GwNone
              | _ => True
              end
}.

Lemma boot_inv_start : boot_inv boot_start.
Proof. split; done. Qed.

(** The steps of [run]. *)
Lemma boot_inv_main s e s' : boot_inv s →
  match e with BReadiness _ | BStores _ _ | BAdmin _ | BQueue _ | BUnblock | BMetrics _ => True | _ => False end →
  boot_step s e = Some s' → boot_inv s'.
Proof.
  intros [Hg Hr He Hsv Hw Hq] Hm Hstep. destruct s as [r x w g sv pc]. cbn [b_ready b_xds b_waits b_gw b_server b_pc] in *.
  destruct e as [ok|ok has_xds|ok|ok| |ok| | | | | | | |]; try done; cbn [boot_step b_pc] in Hstep;
    destruct pc; try discriminate Hstep; try (rewrite Hr in * by done); simpl in Hsv; subst;
    try (destruct (He (or_introl eq_refl)) as (-> & -> & ->)); try (destruct (He (or_intror eq_refl)) as (-> & -> & ->));
    try destruct ok; injection Hstep as <-; split; simpl; try done; try (by intros [|]); try (intros _; apply unblock_gateway).
Qed.

Lemma boot_inv_step s e s' : boot_inv s → boot_step s e = Some s' → boot_inv s'.
Proof.
  intros Hinv Hstep. destruct e; try (by eapply boot_inv_main in Hstep); destruct Hinv as [Hg Hr He Hsv Hw Hq];
    destruct s as [r x w g sv pc]; cbn [boot_step b_ready b_xds b_waits b_gw b_server b_pc] in *.
  - destruct (tasks_run pc) eqn:Ht; [|done]. injection Hstep as <-. split; simpl; try done. intros [-> | ->]; done.
  - destruct (tasks_run pc) eqn:Ht; [|done]. destruct w; [|done]. destruct x; [|done]. injection Hstep as <-. split; simpl; try done.
    + intros Hf. rewrite (Hr Hf). by apply unblock_manager.
    + intros [-> | ->]; done.
  - destruct g; [destruct pc; discriminate Hstep| |destruct pc; discriminate Hstep].
    assert (x = true ∧ pc ≠ MExited ∧ s' = mkBoot r true w GwRunning sv pc) as (-> & _ & ->)
      by (destruct pc, x; simplify_eq; done).
    split; simpl; try done; [|by destruct pc]. intros Hpc. by destruct (He Hpc) as (_ & ? & _).
  - destruct pc as [| | | | | | |[|name l]| | |]; try done. injection Hstep as <-. split; simpl; try done; by intros [|].
  - destruct pc as [| | | | | | |[|name l]| | |]; try done. injection Hstep as <-. split; simpl; try done; by intros [|].
  - destruct pc; try done. injection Hstep as <-. split; simpl; try done; by intros [|].
  - destruct pc, g; try done; injection Hstep as <-; split; simpl; try done; by intros [|].
  - destruct pc; try done. injection Hstep as <-. split; simpl; try done; by intros [|].
Qed.

Lemma boot_inv_run es s s' : boot_inv s → boot s es = Some s' → boot_inv s'.
Proof.
  revert s. induction es as [|e es IH]; intros s Hinv; simpl; [by intros [= <-]|].
  intros (s1 & H1 & H2)%bind_Some. eapply IH; [|exact H2]. by eapply boot_inv_step.
Qed.

(** C40: ready means that there is something to serve. Unless the start has failed, the
    readiness server says that it is ready only when the initial state has come (or
    there is no control plane) and the gateway has been started; the gateway listens
    only when the initial state has come or its sender is gone; and from every state of
    the started process readiness and a listening gateway can be reached, with nothing
    else to happen than the initial state where it has not come. It does not wait for
    the gateway to listen, nor for the server of the metrics. After a failure the
    server may say that it is ready ([boot_failed_ready]), until the process exits. *)
Theorem boot_ready `{!SetIter string} es s :
  boot boot_start es = Some s →
  (is_ready s → failed (b_pc s) = true ∧ b_pc s ≠ MExited ∨ b_xds s = true ∧ b_gw s ≠ GwNone) ∧
  (b_gw s = GwRunning → b_xds s = true) ∧
  (b_pc s = MRunning →
     ∃ es' s', boot s es' = Some s' ∧ is_ready s' ∧ b_gw s' = GwRunning ∧
       Forall (λ e, e = BWaiter ∨ e = BGateway ∨ e = BXds ∧ b_xds s = false) es').
Proof.
  intros Hs. assert (boot_inv s) as [Hg Hr He Hsv Hw Hq] by (eapply boot_inv_run; [exact boot_inv_start|exact Hs]).
  destruct s as [r x w g sv pc]. cbn [b_ready b_xds b_waits b_gw b_server b_pc] in *. split; [|split; [done|]].
  - intros [Ha Hc%handle_ready_code]. unfold answers in Ha. cbn [b_ready b_server] in *. subst sv.
    assert (failed pc = false → x = true ∧ g ≠ GwNone) as Hrun.
    { intros Hf. rewrite (Hr Hf) in Hc. destruct pc; try discriminate Hf; try discriminate Hsv; cbn [blocked] in Hc;
        try (by apply pending_cons in Hc); (destruct w; [by apply pending_cons in Hc|]); auto. }
    destruct (failed pc) eqn:Hf; [left|right; by apply Hrun]. split; [done|]. by intros ->.
  - intros ->. simpl in Hsv, Hr, Hq. subst sv. rewrite Hr by done. clear Hr Hg He Hs.
    exists ((if x then [] else [BXds]) ++ (if w then [BWaiter] else []) ++ (match g with GwWaiting => [BGateway] | _ => [] end)).
    exists (mkBoot (ready_of (blocked MRunning false)) true false GwRunning true MRunning).
    assert (w = false → x = true) as Hwx by auto.
    split; [|split; [split; [done|by apply handle_ready_code]|split; [done|]]].
    + pose proof (unblock_manager MRunning eq_refl) as Hu. destruct x, w, g; try done; try (by discriminate Hwx);
        simpl in *; rewrite ?Hu; reflexivity.
    + destruct x, w, g; simpl; rewrite ?Forall_cons, ?Forall_nil; naive_solver.
Qed.

(** A start that fails says that it is ready. When the stores cannot be made, [run] drops
    its blocks before the sender of the pool that the readiness server runs in: nothing
    is pending then, and the server says so, although there is nothing to serve. *)
Theorem boot_failed_ready `{!SetIter string} :
  ∃ s, boot boot_start [BReadiness true; BStores false true; BDropBlock; BDropBlock] = Some s ∧
    is_ready s ∧ b_xds s = false ∧ b_gw s = GwNone.
Proof.
  eexists. split; [reflexivity|]. split; [|by split]. split; [done|]. apply handle_ready_code. vm_compute. reflexivity.
Qed.

(** *** The log filter *)

Section logging.
Context {Targets : Type} (from_str : string → option Targets) (to_string : Targets → string).
Context (env_var : string → option string) (HELP_STRING : string).

(** The log level of a module cannot be set the way the help says. A level of the form
    [module:level] is refused, and the filter stays as it is; what a valid level changes is
    the filter in use extended by it. *)
Theorem logging_levels handle current level :
  handle = Some current → level ≠ "" →
  (Str.contains_char "," level = false → Str.contains_char "=" level = false → Str.contains_char ":" level = true →
     ∃ a, change_log_level from_str to_string env_var HELP_STRING handle false level = Ret (handle, a) ∧ code a = BAD_REQUEST) ∧
  (∀ new, validate_log_level from_str level = true → from_str (to_string current +:+ "," +:+ level) = Some new →
     change_log_level from_str to_string env_var HELP_STRING handle false level = Ret (Some new, list_loggers to_string HELP_STRING (Some new))).
Proof.
  intros -> Hne. assert (Str.is_empty level = false) as He by by destruct level.
  unfold change_log_level. rewrite He. simpl. split.
  - intros Hcomma Heq Hcolon. unfold validate_log_level. rewrite Str.split_no_sep by done. simpl. rewrite Heq.
    rewrite bool_decide_eq_false_2; [by eexists|]. intros Hin.
    repeat (apply elem_of_cons in Hin as [->|Hin]; [done|]). by apply elem_of_nil in Hin.
  - intros new Hv Hf. rewrite Hv. simpl. by rewrite Hf.
Qed.
End logging.

(** *** The end *)

Definition ends (e : TermEv) : Prop := e = TInterrupt ∨ e = TTerminate ∨ e = TExplicit.

Record term_inv (es : list TermEv) (s : Term) : Prop := {
  ti_begun : t_pc s ≠ TWaiting ↔ ∃ e, e ∈ es ∧ ends e;
  ti_drained : t_pc s = TExited false → drained_tx (t_drain s) = ∅;
  ti_double : t_double s = true → ∃ pre mid, es = pre ++ TInterrupt :: mid;
  ti_at_once : t_pc s = TExited true → ∃ pre mid, es = pre ++ TInterrupt :: mid ++ [TInterrupt];
  ti_drain : t_pc s ≠ TWaiting → signal_tx (t_drain s) = Some Drain.Graceful ∧ t_tracer s = false
}.

Lemma term_inv_step es s e s' : term_inv es s → term_step s e = Some s' → term_inv (es ++ [e]) s'.
Proof.
  intros [Hb Hdr Hdb Ha Hd] Hstep.
  assert (ends e → ∃ e0, e0 ∈ es ++ [e] ∧ ends e0) as Hends by (intros He; exists e; split; [set_solver|done]).
  assert ((∃ e0, e0 ∈ es ∧ ends e0) → ∃ e0, e0 ∈ es ++ [e] ∧ ends e0) as Hmono by (intros (e0 & ? & ?); exists e0; split; [set_solver|done]).
  assert (∀ d, (d = true → ∃ pre mid, es = pre ++ TInterrupt :: mid) → d = true → ∃ pre mid, es ++ [e] = pre ++ TInterrupt :: mid) as Hdbl.
  { intros d Hd' Hdt. destruct (Hd' Hdt) as (pre & mid & ->). exists pre, (mid ++ [e]). by rewrite <-app_assoc. }
  unfold term_step in Hstep. destruct (t_pc s) eqn:Hpc; [| |done].
  - assert (¬ ∃ e0, e0 ∈ es ∧ ends e0) as Hno by (intros Hex; by apply Hb in Hex).
    destruct e; try discriminate Hstep; injection Hstep as <-.
    + split; simpl; try done. { split; [intros _; by apply Hends; left|done]. } intros _. by exists es, [].
    + split; simpl; try done. split; [intros _; by apply Hends; right; left|done].
    + split; simpl; try done. split; [intros _; by apply Hends; right; right|done].
    + split; simpl; try done.
      * split; [done|]. intros (e0 & Hin & He). apply elem_of_app in Hin as [Hin|Hin]; [by destruct Hno; exists e0|].
        apply list_elem_of_singleton in Hin as ->. by destruct He as [|[|]].
      * by apply Hdbl.
  - assert (TDraining ≠ TWaiting) as Hnw by done. pose proof (Hd Hnw) as [Hsig Htr]. pose proof (proj1 Hb Hnw) as Hex.
    assert (∀ pc, pc ≠ TWaiting → (pc ≠ TWaiting ↔ ∃ e0, e0 ∈ es ++ [e] ∧ ends e0)) as Hbeg
      by (intros pc Hne; split; [intros _; by apply Hmono|done]).
    destruct e; try discriminate Hstep.
    + destruct (t_double s) eqn:Hdt; injection Hstep as <-.
      * split; simpl; [by apply Hbeg|done|intros _; by exists es, []| |done].
        intros _. destruct (Hdb eq_refl) as (pre & mid & ->). exists pre, mid. by rewrite <-app_assoc.
      * split; rewrite ?Hpc; [by apply Hbeg|done|by rewrite Hdt|done|done].
    + injection Hstep as <-. split; rewrite ?Hpc; [by apply Hbeg|done|by apply Hdbl|done|done].
    + injection Hstep as <-. split; rewrite ?Hpc; [by apply Hbeg|done|by apply Hdbl|done|done].
    + injection Hstep as <-. split; simpl; [by apply Hbeg|done|by apply Hdbl|done|done].
    + destruct (drained (t_drain s)) eqn:Hdn; [|done]. injection Hstep as <-.
      split; simpl; [by apply Hbeg| |by apply Hdbl|done|done]. intros _. by apply bool_decide_eq_true in Hdn.
Qed.

Lemma terminate_snoc s es e : terminate s (es ++ [e]) = (s' ← terminate s es; term_step s' e).
Proof.
  revert s. induction es as [|e0 es IH]; intros s; simpl; [by destruct (term_step s e)|].
  destruct (term_step s e0) as [s1|]; simpl; [apply IH|done].
Qed.

(** The process ends gracefully. It begins to end only after a signal or a request; it
    is over when every watcher of the drain is gone, with nothing cut off by this loop; only a
    second interrupt, after a first, ends it at once. The tracer is shut down before the
    drain begins, so that what is still served is not traced. *)
Theorem term_graceful watchers es s :
  terminate (term_start watchers) es = Some s →
  (t_pc s ≠ TWaiting ↔ ∃ e, e ∈ es ∧ (e = TInterrupt ∨ e = TTerminate ∨ e = TExplicit)) ∧
  (t_pc s = TExited false → drained_tx (t_drain s) = ∅) ∧
  (t_pc s = TExited true → ∃ pre mid, es = pre ++ TInterrupt :: mid ++ [TInterrupt]) ∧
  (t_pc s ≠ TWaiting → signal_tx (t_drain s) = Some Drain.Graceful ∧ t_tracer s = false).
Proof.
  intros Hs. assert (term_inv es s) as [Hb Hdr Hdb Ha Hd];
    [|split; [exact Hb|]; split; [exact Hdr|]; split; [exact Ha|exact Hd]].
  revert s Hs. induction es as [|e es IH] using rev_ind; intros s; simpl.
  - intros [= <-]. split; simpl; try done. split; [done|]. intros (e & He & _). by apply elem_of_nil in He.
  - rewrite terminate_snoc. intros (s1 & H1 & H2)%bind_Some. by eapply term_inv_step; [apply IH|].
Qed.

(** * A start with a control plane, and an end with one server *)

Module AppExample.
#[local] Instance iter_default : SetIter string := hs_iter_default.

Definition up : list BootEv := [BReadiness true; BStores true true; BAdmin true; BQueue true; BUnblock; BMetrics true].

Definition after (es : list BootEv) : Boot := default boot_start (boot boot_start es).

(** Not ready before the initial state; ready before the gateway listens. *)
Example not_ready : text (readiness_answer (b_ready (after up)) "GET" "/healthz/ready") = "not ready, pending: state manager" +:+ newline.
Proof. reflexivity. Qed.

(** The state comes and readiness with it, before the gateway listens; and a started
    process without its state gets ready once it comes. *)
Lemma boot_ready_witness :
  (∃ s, boot boot_start (up ++ [BXds; BWaiter]) = Some s ∧ is_ready s ∧ b_gw s = GwWaiting ∧ b_xds s = true) ∧
  ∃ s es' s', boot boot_start up = Some s ∧ b_xds s = false ∧ boot s es' = Some s' ∧ is_ready s' ∧ b_gw s' = GwRunning.
Proof.
  split.
  - assert (∃ s, boot boot_start (up ++ [BXds; BWaiter]) = Some s ∧ is_ready s ∧ b_gw s = GwWaiting ∧ failed (b_pc s) = false)
      as (s & Hs & Hr & Hg & Hpc) by (eexists; repeat split; reflexivity).
    exists s. split; [exact Hs|]. split; [exact Hr|]. split; [exact Hg|].
    destruct (boot_ready _ s Hs) as (Hready & _). destruct (Hready Hr) as [[Hf _]|[Hx _]]; [|exact Hx].
    rewrite Hpc in Hf. discriminate Hf.
  - assert (∃ s, boot boot_start up = Some s ∧ b_pc s = MRunning ∧ b_xds s = false) as (s & Hs & Hpc & Hx)
      by (eexists; repeat split; reflexivity).
    destruct (boot_ready _ s Hs) as (_ & _ & Hlive). destruct (Hlive Hpc) as (es' & s' & Hs' & Hr & Hg & _).
    exists s, es', s'. split; [exact Hs|]. split; [exact Hx|]. split; [exact Hs'|]. split; [exact Hr|exact Hg].
Defined.

(** Filters that are their text. *)
Definition from_str (s : string) : option string := if Str.contains_char " " s then None else Some s.

Lemma logging_levels_witness :
  (∃ a, change_log_level from_str id (λ _, None) "help" (Some "info") false "a2a:debug" = Ret (Some "info", a) ∧ code a = BAD_REQUEST) ∧
  change_log_level from_str id (λ _, None) "help" (Some "info") false "a2a=debug" =
    Ret (Some "info,a2a=debug", list_loggers id "help" (Some "info,a2a=debug")).
Proof.
  split.
  - apply (proj1 (logging_levels from_str id (λ _, None) "help" (Some "info") "info" "a2a:debug" eq_refl ltac:(discriminate))); reflexivity.
  - apply (proj2 (logging_levels from_str id (λ _, None) "help" (Some "info") "info" "a2a=debug" eq_refl ltac:(discriminate))); reflexivity.
Defined.

Lemma term_graceful_witness :
  ∃ s, terminate (term_start {[1; 2]}) [TTerminate; TWatcherDropped 1; TInterrupt; TWatcherDropped 2; TDrained] = Some s ∧
    t_pc s = TExited false ∧ drained_tx (t_drain s) = ∅.
Proof.
  assert (∃ s, terminate (term_start {[1; 2]}) [TTerminate; TWatcherDropped 1; TInterrupt; TWatcherDropped 2; TDrained] = Some s ∧
    t_pc s = TExited false) as (s & Hs & Hpc) by (eexists; split; reflexivity).
  exists s. split; [exact Hs|]. split; [exact Hpc|]. exact (proj1 (proj2 (term_graceful _ _ _ Hs)) Hpc).
Defined.
End AppExample.
