(* ===== verification/ConnPool.v ===== *)
(** ConnPool: the pool of upstream connections
    ([hyper-util-fork/src/client/legacy/pool.rs], with the connections of
    [hyper-util-fork/src/client/legacy/client.rs]): idle connections by key, the requests
    that wait for one, and the lock on new HTTP/2 connections.

    The operations under the lock of the pool are functions on its state; [Sys] adds the
    values that requests hold ([Pooled], [Checkout], [Connecting]) and lets them act in any
    order.  Whether a connection is open is the environment's choice at every operation, of
    which each reads the clock once. *)
From S2P Require Import Prelude.

(** * Contents of a table *)

(** How often a number occurs, and what all entries of a table contain. *)
Definition cnt (x : nat) (l : list nat) : nat := length (filter (λ y, y = x) l).

Lemma cnt_app x l1 l2 : cnt x (l1 ++ l2) = cnt x l1 + cnt x l2.
Proof. unfold cnt. by rewrite filter_app, length_app. Qed.
Lemma cnt_nil x : cnt x [] = 0.
Proof. done. Qed.
Lemma cnt_perm x l1 l2 : l1 ≡ₚ l2 → cnt x l1 = cnt x l2.
Proof. unfold cnt. by intros ->. Qed.
Lemma cnt_elem x l : x ∈ l → 1 ≤ cnt x l.
Proof.
  intros Hx. unfold cnt. destruct (filter _ l) as [|y l'] eqn:E; [|simpl; lia].
  assert (x ∈ filter (λ y, y = x) l) as Hin by (by apply list_elem_of_filter). rewrite E in Hin. by apply not_elem_of_nil in Hin.
Qed.
Lemma cnt_not_elem x l : x ∉ l → cnt x l = 0.
Proof.
  intros Hx. unfold cnt. destruct (filter (λ y, y = x) l) as [|y l'] eqn:E; [done|].
  assert (y ∈ filter (λ y, y = x) l) as Hin by (rewrite E; left). apply list_elem_of_filter in Hin as [-> ?]. done.
Qed.

Section flat.
Context {K A : Type} `{Countable K} (f : A → list nat).

Definition flat (m : gmap K A) : list nat := concat ((λ kx, f kx.2) <$> map_to_list m).

Lemma flat_insert m k v x : m !! k = None → cnt x (flat (<[k := v]> m)) = cnt x (f v) + cnt x (flat m).
Proof.
  intros Hk. rewrite <-cnt_app. apply cnt_perm. unfold flat. rewrite (map_to_list_insert _ _ _ Hk). simpl. done.
Qed.
Lemma flat_delete m k v x : m !! k = Some v → cnt x (flat m) = cnt x (f v) + cnt x (flat (delete k m)).
Proof. intros Hk. rewrite <-(flat_insert (delete k m) k v x) by apply lookup_delete_eq. by rewrite insert_delete_id. Qed.
Lemma flat_delete_none m k : m !! k = None → flat (delete k m) = flat m.
Proof. intros Hk. by rewrite delete_id. Qed.
(** An entry is replaced. *)
Lemma flat_update m k v x :
  cnt x (flat (<[k := v]> m)) + cnt x (from_option f [] (m !! k)) = cnt x (f v) + cnt x (flat m).
Proof.
  rewrite <-insert_delete_eq, flat_insert by apply lookup_delete_eq.
  destruct (m !! k) as [v'|] eqn:Hk; simpl.
  - rewrite (flat_delete m k v' x Hk). lia.
  - rewrite (delete_id _ _ Hk). change (cnt x []) with 0. lia.
Qed.
Lemma flat_remove m k x : cnt x (flat (delete k m)) + cnt x (from_option f [] (m !! k)) = cnt x (flat m).
Proof.
  destruct (m !! k) as [v|] eqn:Hk; simpl.
  - rewrite (flat_delete m k v x Hk). lia.
  - rewrite (delete_id _ _ Hk). change (cnt x []) with 0. lia.
Qed.
Lemma elem_of_flat m k v x : m !! k = Some v → x ∈ f v → x ∈ flat m.
Proof.
  intros Hk Hx. unfold flat. apply list_elem_of_In, in_concat. exists (f v). split; [|by apply list_elem_of_In].
  apply list_elem_of_In, list_elem_of_fmap. exists (k, v). split; [done|]. by apply elem_of_map_to_list.
Qed.
End flat.

(** * Connections ([PoolClient]) *)

Inductive PoolTx := Http1 | Http2.
#[export] Instance PoolTx_eq_dec : EqDecision PoolTx.
Proof. solve_decision. Defined.
Inductive Ver := VerAuto | VerHttp2.

Section pool.
Context {K : Type} `{Countable K}.

(** A sender for the connection with a number; [pc_key] is the key the connection was
    opened for, which the code does not keep. *)
Record PoolClient := mkPoolClient { pc_conn : nat; pc_tx : PoolTx; pc_key : K }.

Inductive Reservation := Shared (to_insert to_return : PoolClient) | Unique (value : PoolClient).
Definition reserve (self : PoolClient) : Reservation :=
  match pc_tx self with Http1 => Unique self | Http2 => Shared self self end.
Definition can_share (self : PoolClient) : bool := match pc_tx self with Http1 => false | Http2 => true end.

(** [!is_poisoned && is_ready], by the environment. *)
Abbreviation Open := (PoolClient → bool).

(** * The pool *)

Record Config := { idle_timeout : option N; max_idle_per_host : nat; timer : bool }.

Record Idle := mkIdle { idle_at : N; value : PoolClient }.

(** A oneshot channel: empty, with a value, without its sender, without its receiver. *)
Inductive Chan := Empty | Sent (c : PoolClient) | TxDropped | RxDropped.

(** The last element of a list of idle connections comes first; waiters are channels,
    which know the key they are for. *)
Record PoolInner := mkPool {
  connecting : gset K;
  idle : gmap K (list Idle);
  waiters : gmap K (list nat);
  idle_interval : bool;
  chans : gmap nat (K * Chan)
}.

Definition set_idle (s : PoolInner) (i : gmap K (list Idle)) : PoolInner :=
  mkPool (connecting s) i (waiters s) (idle_interval s) (chans s).
Definition set_chan (ch : gmap nat (K * Chan)) (w : nat) (st : Chan) : gmap nat (K * Chan) :=
  alter (λ kc, (kc.1, st)) w ch.
Definition chan_of (ch : gmap nat (K * Chan)) (w : nat) : option Chan := snd <$> ch !! w.
Definition is_canceled (ch : gmap nat (K * Chan)) (w : nat) : bool :=
  match chan_of ch w with Some RxDropped => true | _ => false end.

Definition spawn_idle_interval (cfg : Config) (s : PoolInner) : PoolInner :=
  if idle_interval s then s
  else match idle_timeout cfg with
       | None => s
       | Some _ => if timer cfg then mkPool (connecting s) (idle s) (waiters s) true (chans s) else s
       end.

(** The loop of [put] over the waiters: what is left of the value, of the waiters, and the
    channels.  [raced] are the waiters that give up between the check and the sending. *)
Fixpoint put_waiters (raced : nat → bool) (ws : list nat) (v : option PoolClient) (ch : gmap nat (K * Chan))
    : comp (option PoolClient * list nat * gmap nat (K * Chan)) :=
  match ws with
  | [] => Ret (v, [], ch)
  | tx :: ws =>
    if is_canceled ch tx then put_waiters raced ws v ch
    else
      match v with
      | None => Panic
      | Some reserved =>
        let '(v, reserved) :=
          match reserve reserved with
          | Shared to_keep to_send => (Some to_keep, to_send)
          | Unique uniq => (None, uniq)
          end in
        if raced tx then put_waiters raced ws (Some reserved) (set_chan ch tx RxDropped)
        else
          let ch := set_chan ch tx (Sent reserved) in
          match v with
          | None => Ret (None, ws, ch)
          | Some _ => put_waiters raced ws v ch
          end
      end
  end.

(** The end of [put]: the value becomes idle unless there are enough. *)
Definition store (cfg : Config) (now : N) (key : K) (v : PoolClient) (s : PoolInner) : PoolInner :=
  let idle_list := default [] (idle s !! key) in
  if decide (max_idle_per_host cfg ≤ length idle_list) then set_idle s (<[key := idle_list]> (idle s))
  else spawn_idle_interval cfg (set_idle s (<[key := mkIdle now v :: idle_list]> (idle s))).

Definition put (cfg : Config) (now : N) (raced : nat → bool) (key : K) (v : PoolClient) (s : PoolInner)
    : comp PoolInner :=
  if can_share v && bool_decide (is_Some (idle s !! key)) then Ret s
  else
    '(v, ws, ch) ← match waiters s !! key with
                   | Some ws => put_waiters raced ws (Some v) (chans s)
                   | None => Ret (Some v, [], chans s)
                   end;
    let s := mkPool (connecting s) (idle s)
               (match ws with [] => delete key (waiters s) | _ => <[key := ws]> (waiters s) end)
               (idle_interval s) ch in
    Ret (match v with None => s | Some v => store cfg now key v s end).

(** The senders that are dropped: their receivers learn it. *)
Definition drop_tx (ch : gmap nat (K * Chan)) (w : nat) : gmap nat (K * Chan) :=
  match chan_of ch w with Some Empty => set_chan ch w TxDropped | _ => ch end.

(** [connected], with [existed]. *)
Definition connected (key : K) (s : PoolInner) : PoolInner * bool :=
  (mkPool (connecting s ∖ {[key]}) (idle s) (delete key (waiters s)) (idle_interval s)
     (foldl drop_tx (chans s) (default [] (waiters s !! key))),
   bool_decide (key ∈ connecting s)).

Definition clean_waiters (key : K) (s : PoolInner) : PoolInner :=
  match waiters s !! key with
  | None => s
  | Some ws =>
    let ws := filter (λ tx, is_canceled (chans s) tx = false) ws in
    mkPool (connecting s) (idle s) (match ws with [] => delete key (waiters s) | _ => <[key := ws]> (waiters s) end)
      (idle_interval s) (chans s)
  end.

(** [Expiration]: whether more than the timeout has passed. *)
Definition expires (timeout : option N) (now at_ : N) : bool :=
  match timeout with Some timeout => bool_decide (timeout < now - at_)%N | None => false end.

(** The interval task assumes a timeout. *)
Definition clear_expired (cfg : Config) (open : Open) (now : N) (s : PoolInner) : comp PoolInner :=
  match idle_timeout cfg with
  | None => Panic
  | Some dur =>
    let keep l := filter (λ e, open (value e) = true ∧ expires (Some dur) now (idle_at e) = false) l in
    Ret (set_idle s (omap (λ l, match keep l with [] => None | l => Some l end) (idle s)))
  end.

(** [IdlePopper::pop]: the entry and the list that is left. *)
Fixpoint pop (open : Open) (timeout : option N) (now : N) (l : list Idle) : option Idle * list Idle :=
  match l with
  | [] => (None, [])
  | entry :: l =>
    if negb (open (value entry)) then pop open timeout now l
    else if expires timeout now (idle_at entry) then pop open timeout now l
    else
      match reserve (value entry) with
      | Shared to_reinsert to_checkout => (Some (mkIdle (idle_at entry) to_checkout), mkIdle now to_reinsert :: l)
      | Unique unique => (Some (mkIdle (idle_at entry) unique), l)
      end
  end.

(** * What requests hold *)

(** [p_pool]: whether dropping it puts the value back. *)
Record Pooled := mkPooled { p_value : PoolClient; p_is_reused : bool; p_key : K; p_pool : bool }.
Record Checkout := mkCheckout { co_key : K; co_waiter : option nat }.
(** [ct_lock]: whether it holds the lock on new connections with its key. *)
Record Connecting := mkConnecting { ct_key : K; ct_lock : bool }.

Inductive Error := PoolDisabled | CheckoutNoLongerWanted | CheckedOutClosedValue.
Definition Error_is_canceled (e : Error) : bool := match e with CheckedOutClosedValue => true | _ => false end.

Definition reuse (key : K) (v : PoolClient) : Pooled := mkPooled v true key (negb (can_share v)).

(** [Pool::connecting] of an enabled pool. *)
Definition pool_connecting (key : K) (ver : Ver) (s : PoolInner) : PoolInner * option Connecting :=
  match ver with
  | VerHttp2 =>
    if decide (key ∈ connecting s) then (s, None)
    else (mkPool ({[key]} ∪ connecting s) (idle s) (waiters s) (idle_interval s) (chans s), Some (mkConnecting key true))
  | VerAuto => (s, Some (mkConnecting key false))
  end.

(** [alpn_h2] of a [Connecting] without the lock. *)
Definition alpn_h2 (self : Connecting) (s : PoolInner) : PoolInner * option Connecting :=
  pool_connecting (ct_key self) VerHttp2 s.

Definition Connecting_drop (self : Connecting) (s : PoolInner) : PoolInner :=
  if ct_lock self then (connected (ct_key self) s).1 else s.

(** [Pool::pooled] of an enabled pool, the drop of [connecting] included. *)
Definition pooled (cfg : Config) (now : N) (raced : nat → bool) (ct : Connecting) (v : PoolClient) (s : PoolInner)
    : comp (PoolInner * Pooled) :=
  match reserve v with
  | Shared to_insert to_return =>
    s ← put cfg now raced (ct_key ct) to_insert s;
    Ret ((connected (ct_key ct) s).1, mkPooled to_return false (ct_key ct) false)
  | Unique v => Ret (Connecting_drop ct s, mkPooled v false (ct_key ct) true)
  end.

Definition Pooled_drop (cfg : Config) (open : Open) (now : N) (raced : nat → bool) (self : Pooled) (s : PoolInner)
    : comp PoolInner :=
  if negb (open (p_value self)) then Ret s
  else if p_pool self then put cfg now raced (p_key self) (p_value self) s
  else Ret s.

(** ** Polling a checkout *)

Inductive Poll := PollPending | PollReady (r : result Pooled Error).

(** [poll_waiter]; [None] when there is no waiter.  A value that is taken leaves the
    channel. *)
Definition poll_waiter (open : Open) (self : Checkout) (s : PoolInner) : PoolInner * Checkout * option Poll :=
  match co_waiter self with
  | None => (s, self, None)
  | Some rx =>
    let taken := mkPool (connecting s) (idle s) (waiters s) (idle_interval s) (delete rx (chans s)) in
    let self' := mkCheckout (co_key self) None in
    match chan_of (chans s) rx with
    | Some (Sent v) =>
      (taken, self', Some (PollReady (if open v then Ok (reuse (co_key self) v) else Err CheckedOutClosedValue)))
    | Some Empty => (s, self, Some PollPending)
    | _ => (taken, self', Some (PollReady (Err CheckoutNoLongerWanted)))
    end
  end.

(** [Checkout::checkout]; [tx] is a new channel. *)
Definition checkout (cfg : Config) (open : Open) (now : N) (tx : nat) (self : Checkout) (s : PoolInner)
    : PoolInner * Checkout * option Pooled :=
  let '(entry, i) :=
    match idle s !! co_key self with
    | Some list =>
      let '(e, list) := pop open (idle_timeout cfg) now list in
      (e, match e, list with Some _, _ :: _ => <[co_key self := list]> (idle s) | _, _ => delete (co_key self) (idle s) end)
    | None => (None, delete (co_key self) (idle s))
    end in
  let s := set_idle s i in
  match entry, co_waiter self with
  | None, None =>
    (mkPool (connecting s) (idle s) (<[co_key self := default [] (waiters s !! co_key self) ++ [tx]]> (waiters s))
       (idle_interval s) (<[tx := (co_key self, Empty)]> (chans s)),
     mkCheckout (co_key self) (Some tx), None)
  | _, _ => (s, self, (λ e, reuse (co_key self) (value e)) <$> entry)
  end.

Definition checkout_poll (cfg : Config) (open : Open) (now : N) (tx : nat) (self : Checkout) (s : PoolInner)
    : PoolInner * Checkout * Poll :=
  match poll_waiter open self s with
  | (s, self, Some r) => (s, self, r)
  | (s, self, None) =>
    match checkout cfg open now tx self s with
    | (s, self, Some p) => (s, self, PollReady (Ok p))
    | (s, self, None) => (s, self, PollPending)
    end
  end.

(** The receiver of a checkout that is dropped goes first, with what it was sent. *)
Definition drop_rx (w : nat) (s : PoolInner) : PoolInner :=
  mkPool (connecting s) (idle s) (waiters s) (idle_interval s)
    (match chan_of (chans s) w with
     | Some Empty => set_chan (chans s) w RxDropped
     | Some (Sent _) => delete w (chans s)
     | _ => chans s
     end).
End pool.
Arguments PoolClient : clear implicits.
Arguments PoolInner K {_ _}.
Arguments Pooled : clear implicits.
Arguments Checkout : clear implicits.
Arguments Connecting : clear implicits.
Arguments Idle : clear implicits.
Arguments Chan : clear implicits.

(** * The pool in use *)

Section system.
Context {K : Type} `{Countable K} (cfg : Config).

(** [next] is a number that nothing has yet. *)
Record Sys := mkSys {
  inner : PoolInner K;
  held : gmap nat (Pooled K);
  checkouts : gmap nat (Checkout K);
  locks : gmap nat (Connecting K);
  next : nat
}.
Definition initial : Sys := mkSys (mkPool ∅ ∅ ∅ false ∅) ∅ ∅ ∅ 0.

Definition waits (s : Sys) (w : nat) : Prop := ∃ i co, checkouts s !! i = Some co ∧ co_waiter co = Some w.
(** Only a checkout that is being dropped gives up. *)
Definition fair (s : Sys) (raced : nat → bool) : Prop := ∀ w, raced w = true → ¬ waits s w.

Inductive step : Sys → Sys → Prop :=
| step_checkout s key :
  step s (mkSys (inner s) (held s) (<[next s := mkCheckout key None]> (checkouts s)) (locks s) (S (next s)))
| step_pending s i co open now s' co' :
  checkouts s !! i = Some co → checkout_poll cfg open now (next s) co (inner s) = (s', co', PollPending) →
  step s (mkSys s' (held s) (<[i := co']> (checkouts s)) (locks s) (S (next s)))
| step_ready s i co open now s' co' r :
  checkouts s !! i = Some co → checkout_poll cfg open now (next s) co (inner s) = (s', co', PollReady r) →
  step s (mkSys s' (match r with Ok p => <[next s := p]> (held s) | Err _ => held s end) (delete i (checkouts s))
            (locks s) (S (next s)))
| step_checkout_drop s i :
  step s (mkSys (inner s) (held s) (delete i (checkouts s)) (locks s) (next s))
| step_drop_rx s w :
  ¬ waits s w → step s (mkSys (drop_rx w (inner s)) (held s) (checkouts s) (locks s) (next s))
| step_clean s key : step s (mkSys (clean_waiters key (inner s)) (held s) (checkouts s) (locks s) (next s))
| step_connecting s key ver s' ct :
  pool_connecting key ver (inner s) = (s', Some ct) →
  step s (mkSys s' (held s) (checkouts s) (<[next s := ct]> (locks s)) (S (next s)))
| step_alpn s i ct s' o :
  locks s !! i = Some ct → ct_lock ct = false → alpn_h2 ct (inner s) = (s', o) →
  step s (mkSys s' (held s) (checkouts s) (match o with Some ct' => <[i := ct']> (locks s) | None => delete i (locks s) end)
            (next s))
| step_connected s i ct tx now raced s' p :
  locks s !! i = Some ct → (tx = Http2 → ct_lock ct = true) → fair s raced →
  pooled cfg now raced ct (mkPoolClient (next s) tx (ct_key ct)) (inner s) = Ret (s', p) →
  step s (mkSys s' (<[next s := p]> (held s)) (checkouts s) (delete i (locks s)) (S (next s)))
| step_connect_fails s i ct :
  locks s !! i = Some ct →
  step s (mkSys (Connecting_drop ct (inner s)) (held s) (checkouts s) (delete i (locks s)) (next s))
| step_pooled_drop s i p open now raced s' :
  held s !! i = Some p → fair s raced → Pooled_drop cfg open now raced p (inner s) = Ret s' →
  step s (mkSys s' (delete i (held s)) (checkouts s) (locks s) (next s))
| step_expire s open now s' :
  clear_expired cfg open now (inner s) = Ret s' →
  step s (mkSys s' (held s) (checkouts s) (locks s) (next s)).

Definition reachable : Sys → Prop := rtc step initial.

(** * The invariant *)

(** The number of a connection that only one request may use. *)
Definition uid (c : PoolClient K) : list nat := match pc_tx c with Http1 => [pc_conn c] | Http2 => [] end.
Definition idle_ids (l : list (Idle K)) : list nat := concat ((λ e, uid (value e)) <$> l).
Definition chan_ids (kc : K * Chan K) : list nat := match kc.2 with Sent c => uid c | _ => [] end.
(** Where such connections are in the pool. *)
Definition pool_ids (s : PoolInner K) : list nat := flat idle_ids (idle s) ++ flat chan_ids (chans s).
Definition ids (s : Sys) : list nat := pool_ids (inner s) ++ flat (λ p, uid (p_value p)) (held s).

Definition queue (s : PoolInner K) (key : K) : list nat := default [] (waiters s !! key).

Record pool_inv (s : PoolInner K) : Prop := {
  pi_idle : ∀ k l, idle s !! k = Some l → 0 < length l ≤ max_idle_per_host cfg ∧ Forall (λ e, pc_key (value e) = k) l;
  pi_sent : ∀ w k c, chans s !! w = Some (k, Sent c) → pc_key c = k;
  pi_queue : ∀ k w, w ∈ queue s k → chans s !! w = Some (k, Empty) ∨ chans s !! w = Some (k, RxDropped);
  pi_nodup : ∀ k, NoDup (queue s k)
}.

(** A waiter with its receiver is in the queue until it is sent something, or told that
    nothing will come. *)
Definition attended (s : PoolInner K) (k : K) (w : nat) : Prop :=
  ∃ st, chans s !! w = Some (k, st) ∧ st ≠ RxDropped ∧ (st = Empty → w ∈ queue s k).

Lemma set_chan_count ch w st x k0 st0 :
  ch !! w = Some (k0, st0) → chan_ids (k0, st0) = [] →
  cnt x (flat chan_ids (set_chan ch w st)) = cnt x (chan_ids (k0, st)) + cnt x (flat chan_ids ch).
Proof.
  intros Hw Hids. unfold set_chan.
  assert (alter (λ kc : K * Chan K, (kc.1, st)) w ch = <[w := (k0, st)]> ch) as ->.
  { apply map_eq. intros w'. rewrite lookup_insert. case_decide; subst.
    - by rewrite lookup_alter_eq, Hw.
    - by rewrite lookup_alter_ne. }
  pose proof (flat_update chan_ids ch w (k0, st) x) as Hf. rewrite Hw in Hf. simpl in Hf.
  rewrite Hids in Hf. change (cnt x []) with 0 in Hf. lia.
Qed.

Lemma set_chan_lookup (ch : gmap nat (K * Chan K)) w st w' :
  set_chan ch w st !! w' = if decide (w = w') then (λ kc, (kc.1, st)) <$> ch !! w else ch !! w'.
Proof. unfold set_chan. case_decide; subst; [by rewrite lookup_alter_eq|by rewrite lookup_alter_ne]. Qed.

Lemma reserve_shared (v : PoolClient K) : can_share v = true → reserve v = Shared v v.
Proof. unfold can_share, reserve. by destruct (pc_tx v). Qed.
Lemma reserve_unique (v : PoolClient K) : can_share v = false → reserve v = Unique v.
Proof. unfold can_share, reserve. by destruct (pc_tx v). Qed.
Lemma uid_shared v : can_share v = true → uid v = [].
Proof. unfold can_share, uid. by destruct (pc_tx v). Qed.

(** What the loop over the waiters does with them: those in front are served, up to where
    the value is used up. *)
Record put_result (raced : nat → bool) (key : K) (ws : list nat) (v : PoolClient K) (ch : gmap nat (K * Chan K))
    (o : option (PoolClient K)) (ws' : list nat) (ch' : gmap nat (K * Chan K)) : Prop := {
  pr_value : o = Some v ∧ ws' = [] ∨ o = None ∧ can_share v = false;
  pr_waiters : ∃ served, ws = served ++ ws' ∧
    (∀ w, w ∈ served →
       ch' !! w = Some (key, RxDropped) ∧ (raced w = true ∨ ch !! w = Some (key, RxDropped)) ∨ ch' !! w = Some (key, Sent v)) ∧
    (∀ w, w ∉ served → ch' !! w = ch !! w);
  pr_count : ∀ x, cnt x (from_option uid [] o) + cnt x (flat chan_ids ch') = cnt x (uid v) + cnt x (flat chan_ids ch)
}.

(** A waiter that is passed on to. *)
Lemma put_result_next raced key w ws v ch st o ws' ch' :
  w ∉ ws → ch !! w = Some (key, Empty) →
  st = RxDropped ∧ raced w = true ∨ st = Sent v ∧ can_share v = true →
  put_result raced key ws v (set_chan ch w st) o ws' ch' → put_result raced key (w :: ws) v ch o ws' ch'.
Proof.
  intros Hw Hst Hcase [Ho (served & Hsp & Hsv & Hk) Hc].
  assert (∀ w', w' ≠ w → set_chan ch w st !! w' = ch !! w') as Hother.
  { intros w' Hw'. rewrite set_chan_lookup, decide_False; [done|congruence]. }
  assert (ch' !! w = Some (key, st)) as Hself.
  { rewrite Hk by set_solver. by rewrite set_chan_lookup, decide_True, Hst. }
  split; [done| |].
  - exists (w :: served). split_and!; [by rewrite Hsp| |].
    + intros w' [->|Hw']%elem_of_cons; [destruct Hcase as [[-> ?]|[-> _]]; [left|right]; auto|].
      destruct (Hsv w' Hw') as [[H1 H2]|H1]; [left|by right]. rewrite Hother in H2 by set_solver. auto.
    + intros w' Hw'. rewrite Hk by set_solver. apply Hother. set_solver.
  - intros x. rewrite Hc. erewrite set_chan_count by done. destruct Hcase as [[-> _]|[-> Hs]]; [done|].
    change (chan_ids (key, Sent v)) with (uid v). rewrite (uid_shared v Hs), cnt_nil. lia.
Qed.

Lemma put_waiters_spec raced ws v (ch : gmap nat (K * Chan K)) key :
  NoDup ws → (∀ w, w ∈ ws → ch !! w = Some (key, Empty) ∨ ch !! w = Some (key, RxDropped)) →
  ∃ o ws' ch', put_waiters raced ws (Some v) ch = Ret (o, ws', ch') ∧ put_result raced key ws v ch o ws' ch'.
Proof.
  revert ch. induction ws as [|w ws IH]; intros ch Hnd Hws.
  { exists (Some v), [], ch. split; [done|]. split; [by left| |done]. exists []. split_and!; set_solver. }
  apply NoDup_cons in Hnd as [Hw Hnd].
  assert (∀ st, ∃ o ws' ch', put_waiters raced ws (Some v) (set_chan ch w st) = Ret (o, ws', ch') ∧
    put_result raced key ws v (set_chan ch w st) o ws' ch') as Hrec.
  { intros st. apply IH; [done|]. intros w' Hw'. rewrite set_chan_lookup, decide_False by (by intros ->).
    apply Hws. by right. }
  cbn [put_waiters]. unfold is_canceled, chan_of.
  destruct (Hws w) as [Hst|Hst]; [by left| |]; rewrite Hst; simpl.
  - destruct (raced w) eqn:Hr.
    + destruct (Hrec RxDropped) as (o & ws' & ch' & Hp & Hres). exists o, ws', ch'.
      split; [unfold reserve; by destruct (pc_tx v)|]. eapply put_result_next; eauto.
    + destruct (can_share v) eqn:Hs.
      * rewrite (reserve_shared v Hs). destruct (Hrec (Sent v)) as (o & ws' & ch' & Hp & Hres). exists o, ws', ch'.
        split; [done|]. eapply put_result_next; eauto.
      * rewrite (reserve_unique v Hs). exists None, ws, (set_chan ch w (Sent v)). split; [done|].
        split; [by right| |by intros x; erewrite set_chan_count by done].
        exists [w]. split_and!; [done| |].
        -- intros w' ->%list_elem_of_singleton. right. by rewrite set_chan_lookup, decide_True, Hst.
        -- intros w' Hw'. rewrite set_chan_lookup, decide_False; [done|]. set_solver.
  - destruct (IH ch Hnd) as (o & ws' & ch' & Hp & [Ho (served & Hsp & Hsv & Hk) Hc]).
    { intros w' Hw'. apply Hws. by right. }
    exists o, ws', ch'. split; [done|]. split; [done| |done]. exists (w :: served). split_and!; [by rewrite Hsp| |].
    + intros w' [->|Hw']%elem_of_cons; [|by apply Hsv]. left. rewrite Hk by set_solver. auto.
    + intros w' Hw'. apply Hk. set_solver.
Qed.

(** The queue after the served waiters are gone. *)
Lemma queue_rest (m : gmap K (list nat)) key k ws :
  default [] ((match ws with [] => delete key m | _ => <[key := ws]> m end) !! k) =
  if decide (key = k) then ws else default [] (m !! k).
Proof.
  destruct ws as [|w ws]; case_decide; subst.
  - by rewrite lookup_delete_eq.
  - by rewrite lookup_delete_ne.
  - by rewrite lookup_insert_eq.
  - by rewrite lookup_insert_ne.
Qed.

(** Pooling a value. *)
Record put_effect (key : K) (v : PoolClient K) (s s' : PoolInner K) : Prop := {
  pe_connecting : connecting s' = connecting s;
  pe_count : ∀ x, cnt x (pool_ids s') ≤ cnt x (uid v) + cnt x (pool_ids s);
  pe_chans : ∀ w, is_Some (chans s' !! w) → is_Some (chans s !! w)
}.

(** The pool is enabled. *)
Context (Hmax : 0 < max_idle_per_host cfg).

Lemma idle_ids_cons e l x : cnt x (idle_ids (e :: l)) = cnt x (uid (value e)) + cnt x (idle_ids l).
Proof. unfold idle_ids. simpl. apply cnt_app. Qed.

Lemma pool_ids_count (s : PoolInner K) x : cnt x (pool_ids s) = cnt x (flat idle_ids (idle s)) + cnt x (flat chan_ids (chans s)).
Proof. apply cnt_app. Qed.

Lemma from_option_idle (o : option (list (Idle K))) : from_option idle_ids [] o = idle_ids (default [] o).
Proof. by destruct o. Qed.

(** What is put on the list of a key. *)
Lemma store_spec now key v (s : PoolInner K) :
  pool_inv s → pc_key v = key →
  let s' := store cfg now key v s in
  pool_inv s' ∧ connecting s' = connecting s ∧ chans s' = chans s ∧ waiters s' = waiters s ∧
  ∀ x, cnt x (flat idle_ids (idle s')) ≤ cnt x (uid v) + cnt x (flat idle_ids (idle s)).
Proof.
  intros [Hi Hs Hq Hn] Hkey. cbv zeta. unfold store. set (l := default [] (idle s !! key)).
  assert (length l ≤ max_idle_per_host cfg ∧ Forall (λ e, pc_key (value e) = key) l) as [Hlen Hall].
  { unfold l. destruct (idle s !! key) as [l0|] eqn:E; simpl; [|split; [lia|constructor]]. destruct (Hi _ _ E). split; [lia|done]. }
  pose proof (flat_update idle_ids (idle s) key) as Hcount.
  setoid_rewrite from_option_idle in Hcount. fold l in Hcount. case_decide as Hd.
  - split_and!; try done.
    + split; try done. simpl. intros k l' [[<- <-]|[_ Hl]]%lookup_insert_Some; [|by apply Hi]. split; [lia|done].
    + intros x. specialize (Hcount l x). simpl. lia.
  - assert (∀ s1 : PoolInner K, spawn_idle_interval cfg s1 = s1 ∨
      spawn_idle_interval cfg s1 = mkPool (connecting s1) (idle s1) (waiters s1) true (chans s1)) as Hsp.
    { intros s1. unfold spawn_idle_interval. repeat case_match; auto. }
    set (s1 := set_idle s (<[key := mkIdle now v :: l]> (idle s))).
    assert (pool_inv s1) as Hinv1.
    { split; try done. simpl. intros k l' [[<- <-]|[_ Hl]]%lookup_insert_Some; [|by apply Hi]. simpl. split; [lia|].
      by constructor. }
    assert (∀ x, cnt x (flat idle_ids (idle s1)) ≤ cnt x (uid v) + cnt x (flat idle_ids (idle s))) as Hc1.
    { intros x. specialize (Hcount (mkIdle now v :: l) x). rewrite idle_ids_cons in Hcount. simpl in *. lia. }
    destruct Hinv1 as [I1 I2 I3 I4].
    destruct (Hsp s1) as [-> | ->]; (split; [split; assumption|]); split_and!; assumption || done.
Qed.

Lemma put_spec now raced key v (s : PoolInner K) :
  pool_inv s → pc_key v = key →
  ∃ s', put cfg now raced key v s = Ret s' ∧ pool_inv s' ∧ put_effect key v s s' ∧
    (∀ k w, raced w = false → attended s k w → attended s' k w).
Proof.
  intros Hinv Hkey. pose proof Hinv as [Hi Hs Hq Hn]. unfold put.
  case_match; [exists s; split_and!; try done; split; try done; intros x; lia|].
  assert (∃ o ws' ch', match waiters s !! key with
      | Some ws => put_waiters raced ws (Some v) (chans s) | None => Ret (Some v, [], chans s) end = Ret (o, ws', ch') ∧
    put_result raced key (queue s key) v (chans s) o ws' ch') as (o & ws' & ch' & Hpw & [Ho (served & Hsp & Hsv & Hk) Hc]).
  { unfold queue in *. destruct (waiters s !! key) as [ws|] eqn:Hws; simpl.
    - specialize (Hn key). specialize (Hq key). rewrite Hws in *. by apply put_waiters_spec.
    - exists (Some v), [], (chans s). split; [done|]. split; [by left| |done]. exists []. split_and!; set_solver. }
  rewrite Hpw. simpl.
  set (s1 := mkPool (connecting s) (idle s) _ (idle_interval s) ch').
  assert (∀ k, queue s1 k = if decide (key = k) then ws' else queue s k) as Hqueue by (intros k; apply queue_rest).
  assert (∀ w, w ∈ served → w ∈ queue s key) as Hserved by (intros w Hw; rewrite Hsp; set_solver).
  assert (∀ w, w ∈ served → w ∉ ws') as Hdisj.
  { specialize (Hn key). rewrite Hsp in Hn. apply NoDup_app in Hn as (_ & Hd & _). exact Hd. }
  assert (∀ k w, w ∈ queue s1 k → w ∈ queue s k ∧ w ∉ served) as Hrest.
  { intros k w. rewrite Hqueue. case_decide; subst; [intros Hw; split; [rewrite Hsp; set_solver|naive_solver]|].
    intros Hw. split; [done|]. intros Hw'. destruct (Hq k w Hw), (Hq _ w (Hserved w Hw')); congruence. }
  assert (pool_inv s1) as Hinv1.
  { split; [done| | |]; simpl.
    - intros w k c Hw. destruct (decide (w ∈ served)) as [Hin|Hout]; [|rewrite Hk in Hw by done; by eapply Hs].
      destruct (Hsv w Hin) as [[H1 _]|H1]; congruence.
    - intros k w Hw. destruct (Hrest k w Hw) as [H1 H2]. rewrite Hk by done. by apply Hq.
    - intros k. rewrite Hqueue. case_decide; [|done]. specialize (Hn key). rewrite Hsp in Hn. by apply NoDup_app in Hn as (_ & _ & ?). }
  assert (∀ w, is_Some (ch' !! w) → is_Some (chans s !! w)) as Hdom.
  { intros w Hw. destruct (decide (w ∈ served)) as [Hin|Hout]; [|by rewrite Hk in Hw].
    destruct (Hq key w (Hserved w Hin)) as [-> | ->]; eauto. }
  assert (∀ s2, connecting s2 = connecting s → chans s2 = ch' → waiters s2 = waiters s1 →
    ∀ k w, raced w = false → attended s k w → attended s2 k w) as Hatt.
  { intros s2 _ Hch Hw2 k w Hr (st & Hw & Hne & Hin).
    assert (queue s2 k = queue s1 k) as Hqs by (unfold queue; by rewrite Hw2).
    destruct (decide (w ∈ served)) as [Hsrv|Hsrv].
    - destruct (Hq key w (Hserved w Hsrv)) as [He|He]; [|congruence].
      destruct (Hsv w Hsrv) as [[_ [H1|H1]]|H1]; [congruence..|]. exists (Sent v). rewrite Hch. split_and!; [|done|done]. congruence.
    - exists st. rewrite Hch, Hk by done. split_and!; [done|done|]. intros Hst. specialize (Hin Hst).
      rewrite Hqs, Hqueue. case_decide; [subst; rewrite Hsp in Hin; set_solver|done]. }
  destruct o as [v'|].
  - destruct Ho as [[[= ->] _]|[? _]]; [|done]. destruct (store_spec now key v s1 Hinv1 Hkey) as (Hinv2 & H1 & H2 & H3 & H4).
    eexists. split; [reflexivity|].
    split; [exact Hinv2|]. split.
    + split; [done| |by rewrite H2]. intros x. rewrite !pool_ids_count, H2. simpl. specialize (H4 x). specialize (Hc x). simpl in *. lia.
    + by apply Hatt.
  - exists s1. split_and!; [done|done| |by apply Hatt]. split; [done| |done].
    intros x. rewrite !pool_ids_count. simpl. specialize (Hc x). simpl in Hc. lia.
Qed.

(** ** The other operations *)

(** An operation that puts nothing into the pool: it keeps the invariant, takes [out] from
    the pool, and leaves the waiters attended that are not [gone]. *)
Record takes (s s' : PoolInner K) (out : list nat) (gone : nat → Prop) : Prop := {
  tk_inv : pool_inv s';
  tk_count : ∀ x, cnt x (pool_ids s') + cnt x out ≤ cnt x (pool_ids s);
  tk_chans : ∀ w, is_Some (chans s' !! w) → is_Some (chans s !! w);
  tk_attended : ∀ k w, ¬ gone w → attended s k w → attended s' k w
}.

Lemma drop_tx_lookup (ch : gmap nat (K * Chan K)) w w' :
  drop_tx ch w !! w' = if decide (w = w') then (λ kc, (kc.1, match kc.2 with Empty => TxDropped | st => st end)) <$> ch !! w
                       else ch !! w'.
Proof.
  unfold drop_tx, chan_of. destruct (decide (w = w')) as [->|Hne].
  - destruct (ch !! w') as [[k st]|] eqn:E; simpl; [|done].
    destruct st; [rewrite set_chan_lookup, decide_True by done|..]; by rewrite E.
  - destruct (ch !! w) as [[k []]|]; simpl; try done. by rewrite set_chan_lookup, decide_False.
Qed.

Lemma drop_txs_lookup ws (ch : gmap nat (K * Chan K)) w :
  foldl drop_tx ch ws !! w =
  if decide (w ∈ ws) then (λ kc, (kc.1, match kc.2 with Empty => TxDropped | st => st end)) <$> ch !! w else ch !! w.
Proof.
  revert ch. induction ws as [|w' ws IH]; intros ch; cbn [foldl]; [by rewrite decide_False by apply not_elem_of_nil|].
  rewrite IH, drop_tx_lookup. destruct (decide (w' = w)) as [->|Hne].
  - rewrite (decide_True (P := w ∈ w :: ws)) by by left. case_decide; [|done]. destruct (ch !! w) as [[k []]|]; done.
  - repeat case_decide; set_solver.
Qed.

Lemma drop_txs_count ws (ch : gmap nat (K * Chan K)) x : cnt x (flat chan_ids (foldl drop_tx ch ws)) = cnt x (flat chan_ids ch).
Proof.
  revert ch. induction ws as [|w ws IH]; intros ch; simpl; [done|]. rewrite IH. unfold drop_tx, chan_of.
  destruct (ch !! w) as [[k []]|] eqn:E; try done. simpl. by erewrite set_chan_count.
Qed.

Lemma connected_takes key (s : PoolInner K) : pool_inv s → takes s (connected key s).1 [] (λ _, False).
Proof.
  intros [Hi Hs Hq Hn]. unfold connected. simpl.
  set (s' := mkPool _ _ _ _ _). fold (queue s key) in s'.
  assert (∀ k, queue s' k = if decide (key = k) then [] else queue s k) as Hqueue.
  { intros k. unfold queue, s'. simpl. case_decide; subst; [by rewrite lookup_delete_eq|by rewrite lookup_delete_ne]. }
  assert (∀ w, chans s' !! w = if decide (w ∈ queue s key)
    then (λ kc, (kc.1, match kc.2 with Empty => TxDropped | st => st end)) <$> chans s !! w else chans s !! w) as Hch
    by (intros w; apply drop_txs_lookup).
  split.
  - split; [exact Hi| | |].
    + intros w k c. rewrite Hch. case_decide as Hw; [|apply Hs].
      destruct (Hq _ _ Hw) as [-> | ->]; simpl; intros [=].
    + intros k w. rewrite Hqueue. case_decide as Hk; [by intros ?%not_elem_of_nil|]. intros Hw. rewrite Hch.
      rewrite decide_False; [by apply Hq|]. intros Hw'. destruct (Hq _ _ Hw), (Hq _ _ Hw'); congruence.
    + intros k. rewrite Hqueue. case_decide; [constructor|done].
  - intros x. rewrite !pool_ids_count, cnt_nil. simpl. rewrite drop_txs_count. lia.
  - intros w. rewrite Hch. case_decide; [by intros ?%fmap_is_Some|done].
  - intros k w _ (st & Hw & Hne & Hin). rewrite <-Hqueue in Hin || idtac.
    destruct (decide (w ∈ queue s key)) as [Hk|Hk].
    + exists (match st with Empty => TxDropped | st => st end). rewrite Hch, decide_True, Hw by done.
      by destruct st.
    + exists st. rewrite Hch, decide_False by done. split_and!; [done|done|]. intros Hst. rewrite Hqueue.
      case_decide; subst; [by destruct Hk; apply Hin|by apply Hin].
Qed.

Lemma clean_waiters_takes key (s : PoolInner K) : pool_inv s → takes s (clean_waiters key s) [] (λ _, False).
Proof.
  intros [Hi Hs Hq Hn]. unfold clean_waiters. destruct (waiters s !! key) as [ws|] eqn:Hws.
  2:{ split; try done; intros x; rewrite cnt_nil; lia. }
  set (s' := mkPool _ _ _ _ _).
  assert (∀ k, queue s' k = if decide (key = k) then filter (λ tx, is_canceled (chans s) tx = false) ws else queue s k) as Hqueue
    by (intros k; apply queue_rest).
  assert (queue s key = ws) as Hqk by (unfold queue; by rewrite Hws).
  assert (∀ k w, w ∈ queue s' k → w ∈ queue s k) as Hsub.
  { intros k w. rewrite Hqueue. case_decide; [subst k|done]. rewrite Hqk. by intros [_ ?]%list_elem_of_filter. }
  split; try done.
  - split; [exact Hi|exact Hs|by intros k w ?%Hsub; apply Hq|]. intros k. rewrite Hqueue. case_decide; [|done].
    apply NoDup_filter. rewrite <-Hqk. apply Hn.
  - intros x. rewrite !pool_ids_count, cnt_nil. simpl. lia.
  - intros k w _ (st & Hw & Hne & Hin). exists st. split_and!; [done|done|]. intros Hst. specialize (Hin Hst).
    rewrite Hqueue. case_decide; [subst k; rewrite Hqk in Hin|done]. apply list_elem_of_filter. split; [|done].
    unfold is_canceled, chan_of. rewrite Hw. by subst st.
Qed.

Lemma flat_omap {B} (f : B → list nat) (g : B → option B) (m : gmap K B) x :
  (∀ v, cnt x (from_option f [] (g v)) ≤ cnt x (f v)) → cnt x (flat f (omap g m)) ≤ cnt x (flat f m).
Proof.
  intros Hg. induction m as [|k v m Hk IH] using map_ind; [by rewrite omap_empty|].
  rewrite (flat_insert f m k v x Hk). specialize (Hg v). destruct (g v) as [v'|] eqn:E; simpl in Hg.
  - rewrite (omap_insert_Some _ _ _ _ _ E), flat_insert; [lia|]. by rewrite lookup_omap, Hk.
  - rewrite (omap_insert_None _ _ _ _ E), delete_id; [lia|]. by rewrite lookup_omap, Hk.
Qed.

Lemma idle_ids_filter (P : Idle K → Prop) `{!∀ e, Decision (P e)} l x : cnt x (idle_ids (filter P l)) ≤ cnt x (idle_ids l).
Proof.
  induction l as [|e l IH]; [done|]. rewrite filter_cons. case_decide; rewrite !idle_ids_cons; lia.
Qed.

Lemma clear_expired_takes open now (s s' : PoolInner K) :
  pool_inv s → clear_expired cfg open now s = Ret s' → takes s s' [] (λ _, False).
Proof.
  intros [Hi Hs Hq Hn]. unfold clear_expired. destruct (idle_timeout cfg) as [dur|]; [|done]. intros [= <-].
  split; try done.
  - split; try done. simpl. intros k l' Hl. rewrite lookup_omap in Hl. apply bind_Some in Hl as (l & Hl & Hf).
    destruct (Hi k l Hl) as [Hlen Hall]. set (l2 := filter _ l) in Hf.
    assert (length l2 ≤ length l) by apply length_filter. assert (Forall (λ e, pc_key (value e) = k) l2).
    { apply Forall_forall. intros e [_ He]%list_elem_of_filter. by eapply Forall_forall in Hall. }
    clearbody l2. destruct l2 as [|e l3]; simplify_eq. split; [simpl in *; lia|done].
  - intros x. rewrite !pool_ids_count, cnt_nil. simpl.
    match goal with |- context [omap ?g (idle s)] =>
      enough (cnt x (flat idle_ids (omap g (idle s))) ≤ cnt x (flat idle_ids (idle s))) by lia end.
    apply flat_omap. intros l.
    pose proof (idle_ids_filter (λ e, open (value e) = true ∧ expires (Some dur) now (idle_at e) = false) l x).
    by destruct (filter _ l).
Qed.

Lemma pop_spec open timeout now key (l : list (Idle K)) o l' :
  pop open timeout now l = (o, l') → Forall (λ e, pc_key (value e) = key) l →
  length l' ≤ length l ∧ Forall (λ e, pc_key (value e) = key) l' ∧
  (∀ x, cnt x (idle_ids l') + cnt x (from_option (λ e, uid (value e)) [] o) ≤ cnt x (idle_ids l)) ∧
  match o with
  | Some e => open (value e) = true ∧ expires timeout now (idle_at e) = false ∧ pc_key (value e) = key
  | None => l' = []
  end.
Proof.
  revert l'. induction l as [|e l IH]; intros l'; simpl.
  { intros [= <- <-] _. split_and!; try done. }
  intros Hp [He Hl]%Forall_cons.
  assert (∀ l'', pop open timeout now l = (o, l'') → l'' = l' → _) as Hskip by (intros l'' Hpop ->; exact (IH l' Hpop Hl)).
  assert (∀ x, cnt x (idle_ids l) ≤ cnt x (idle_ids (e :: l))) as Hcons by (intros x; rewrite idle_ids_cons; lia).
  destruct (open (value e)) eqn:Ho; simpl in Hp.
  2:{ destruct (Hskip _ Hp eq_refl) as (H1 & H2 & H3 & H4). split_and!; [lia|done| |done]. intros x. etransitivity; [apply H3|apply Hcons]. }
  destruct (expires timeout now (idle_at e)) eqn:Hx.
  { destruct (Hskip _ Hp eq_refl) as (H1 & H2 & H3 & H4). split_and!; [lia|done| |done]. intros x. etransitivity; [apply H3|apply Hcons]. }
  destruct (can_share (value e)) eqn:Hs; [rewrite (reserve_shared _ Hs) in Hp|rewrite (reserve_unique _ Hs) in Hp]; simplify_eq/=.
  - split_and!; [lia|by constructor| |done|done|done]. intros x. rewrite !idle_ids_cons. simpl. rewrite (uid_shared _ Hs), cnt_nil. lia.
  - split_and!; [lia|done| |done|done|done]. intros x. rewrite !idle_ids_cons. lia.
Qed.

(** A table of idle connections from which some are taken. *)
Lemma set_idle_takes (s : PoolInner K) key l' out :
  pool_inv s → (l' = [] ∨ ∃ l, idle s !! key = Some l ∧ length l' ≤ length l) →
  Forall (λ e, pc_key (value e) = key) l' →
  (∀ x, cnt x (idle_ids l') + cnt x out ≤ cnt x (idle_ids (default [] (idle s !! key)))) →
  takes s (set_idle s (match l' with [] => delete key (idle s) | _ => <[key := l']> (idle s) end)) out (λ _, False).
Proof.
  intros [Hi Hs Hq Hn] Hlen Hall Hcount. split; try done.
  - split; try done. simpl. intros k l. destruct l' as [|e l'].
    + intros [_ Hl]%lookup_delete_Some. by apply Hi.
    + intros [[<- <-]|[_ Hl]]%lookup_insert_Some; [|by apply Hi]. destruct Hlen as [?|(l & Hl & Hlen)]; [done|].
      destruct (Hi _ _ Hl) as [? _]. split; [simpl in *; lia|done].
  - intros x. rewrite !pool_ids_count. simpl. specialize (Hcount x). destruct l' as [|e l'].
    + pose proof (flat_remove idle_ids (idle s) key x) as Hr. rewrite from_option_idle in Hr.
      change (idle_ids []) with (@nil nat) in Hcount. rewrite cnt_nil in Hcount. lia.
    + pose proof (flat_update idle_ids (idle s) key (e :: l') x) as Hr. rewrite from_option_idle in Hr. lia.
Qed.

(** ** Checkouts *)

(** The new waiter of a checkout. *)
Lemma new_waiter (s : PoolInner K) key tx :
  pool_inv s → chans s !! tx = None →
  let s' := mkPool (connecting s) (idle s) (<[key := queue s key ++ [tx]]> (waiters s)) (idle_interval s)
              (<[tx := (key, Empty)]> (chans s)) in
  pool_inv s' ∧ (∀ x, cnt x (pool_ids s') = cnt x (pool_ids s)) ∧ attended s' key tx ∧
  (∀ k w, attended s k w → attended s' k w).
Proof.
  intros [Hi Hs Hq Hn] Htx s'.
  assert (∀ k, queue s' k = if decide (key = k) then queue s k ++ [tx] else queue s k) as Hqueue.
  { intros k. unfold queue at 1, s'. simpl. case_decide; subst; [by rewrite lookup_insert_eq|by rewrite lookup_insert_ne]. }
  assert (∀ k w, w ∈ queue s k → w ≠ tx) as Hfresh.
  { intros k w Hw ->. destruct (Hq k tx Hw); congruence. }
  split_and!.
  - split; [exact Hi| | |]; simpl.
    + intros w k c [[<- [=]]|[_ Hw]]%lookup_insert_Some. by eapply Hs.
    + intros k w. rewrite Hqueue. intros Hw.
      assert (w ∈ queue s k ∨ w = tx ∧ key = k) as [Hin|[-> ->]]; [|rewrite lookup_insert_ne by (symmetry; by eapply Hfresh); by apply Hq|rewrite lookup_insert_eq; auto].
      case_decide; [|by left]. apply elem_of_app in Hw as [Hw| ->%list_elem_of_singleton]; auto.
    + intros k. rewrite Hqueue. case_decide; [|done]. apply NoDup_app. split_and!; [done| |apply NoDup_singleton].
      intros w Hw ->%list_elem_of_singleton. by eapply Hfresh.
  - intros x. rewrite !pool_ids_count. simpl. rewrite flat_insert by done. simpl. done.
  - exists Empty. simpl. rewrite lookup_insert_eq. split_and!; [done|done|]. intros _. rewrite Hqueue, decide_True by done. set_solver.
  - intros k w (st & Hw & Hne & Hin). exists st. simpl. rewrite lookup_insert_ne by congruence.
    split_and!; [done|done|]. intros Hst. rewrite Hqueue. specialize (Hin Hst). case_decide; set_solver.
Qed.

(** A channel that is not in a queue goes. *)
Lemma delete_chan_takes (s : PoolInner K) rx :
  pool_inv s → (∀ k, rx ∉ queue s k) →
  takes s (mkPool (connecting s) (idle s) (waiters s) (idle_interval s) (delete rx (chans s)))
    (from_option chan_ids [] (chans s !! rx)) (λ w, w = rx).
Proof.
  intros [Hi Hs Hq Hn] Hrx. split.
  - split; [exact Hi| | |exact Hn]; simpl.
    + intros w k c [_ Hw]%lookup_delete_Some. by eapply Hs.
    + intros k w Hw. rewrite lookup_delete_ne; [by apply Hq|]. intros ->. by eapply Hrx.
  - intros x. rewrite !pool_ids_count. simpl. pose proof (flat_remove chan_ids (chans s) rx x). lia.
  - intros w. simpl. rewrite lookup_delete_is_Some. tauto.
  - intros k w Hne (st & Hw & H2 & H3). exists st. simpl. rewrite lookup_delete_ne by congruence. done.
Qed.

Lemma attended_not_queued (s : PoolInner K) k w st :
  pool_inv s → chans s !! w = Some (k, st) → st ≠ Empty → st ≠ RxDropped → ∀ k', w ∉ queue s k'.
Proof. intros [_ _ Hq _] Hw H1 H2 k' Hin. destruct (Hq k' w Hin); congruence. Qed.

Definition poll_result (co : Checkout K) (tx : nat) (open : PoolClient K → bool) (s s' : PoolInner K) (co' : Checkout K)
    (r : Poll) : Prop :=
  match r with
  | PollPending => (∃ w, co_waiter co' = Some w ∧ attended s' (co_key co) w ∧ (w = tx ∨ co_waiter co = Some w)) ∧
      ∀ x, cnt x (pool_ids s') ≤ cnt x (pool_ids s)
  | PollReady (Ok p) => p_key p = co_key co ∧ pc_key (p_value p) = co_key co ∧ open (p_value p) = true ∧
      p_is_reused p = true ∧ ∀ x, cnt x (pool_ids s') + cnt x (uid (p_value p)) ≤ cnt x (pool_ids s)
  | PollReady (Err e) => ∀ x, cnt x (pool_ids s') ≤ cnt x (pool_ids s)
  end.

Record polled (co : Checkout K) (tx : nat) (open : PoolClient K → bool) (s s' : PoolInner K) (co' : Checkout K) (r : Poll) : Prop := {
  po_inv : pool_inv s';
  po_connecting : connecting s' = connecting s;
  po_key : co_key co' = co_key co;
  po_chans : ∀ w, is_Some (chans s' !! w) → is_Some (chans s !! w) ∨ w = tx ∧ r = PollPending;
  po_attended : ∀ k w, co_waiter co ≠ Some w → attended s k w → attended s' k w;
  po_result : poll_result co tx open s s' co' r
}.

(** A checkout that waits. *)
Lemma poll_waiting open now tx co w (s s' : PoolInner K) co' r :
  pool_inv s → co_waiter co = Some w → attended s (co_key co) w →
  checkout_poll cfg open now tx co s = (s', co', r) → polled co tx open s s' co' r.
Proof.
  intros Hinv Hco Hatt. unfold checkout_poll, poll_waiter. rewrite Hco. destruct Hatt as (st & Hw & Hne & Hin).
  unfold chan_of. rewrite Hw. simpl.
  assert (st ≠ Empty → takes s (mkPool (connecting s) (idle s) (waiters s) (idle_interval s) (delete w (chans s)))
    (chan_ids (co_key co, st)) (λ w', w' = w)) as Htk.
  { intros Hst. pose proof (delete_chan_takes s w Hinv (attended_not_queued s _ w st Hinv Hw Hst Hne)) as Ht. by rewrite Hw in Ht. }
  destruct st as [|c| |]; [| | |done].
  - intros [= <- <- <-]. split; try done; [by left|]. split; [|done]. exists w. split_and!; [done| |by right].
    by exists Empty.
  - destruct (Htk ltac:(done)) as [H1 H2 H3 H4]. intros [= <- <- <-]. split; try done; [by left; apply H3|intros k w' Hw'; apply H4; congruence|].
    simpl. destruct (open c) eqn:Ho; simpl.
    + split_and!; try done. by eapply (pi_sent _ Hinv).
    + intros x. specialize (H2 x). lia.
  - destruct (Htk ltac:(done)) as [H1 H2 H3 H4]. intros [= <- <- <-]. split; try done; [by left; apply H3|intros k w' Hw'; apply H4; congruence|].
    simpl. intros x. specialize (H2 x). lia.
Qed.

(** A checkout on its first poll. *)
Lemma poll_first_checkout open now tx co (s s' : PoolInner K) co' r :
  pool_inv s → co_waiter co = None → chans s !! tx = None →
  checkout_poll cfg open now tx co s = (s', co', r) → polled co tx open s s' co' r.
Proof.
  intros Hinv Hco Htx. unfold checkout_poll, poll_waiter, checkout. rewrite Hco.
  assert (∃ o l', (match idle s !! co_key co with
      | Some l => let '(e, l) := pop open (idle_timeout cfg) now l in
        (e, match e, l with Some _, _ :: _ => <[co_key co := l]> (idle s) | _, _ => delete (co_key co) (idle s) end)
      | None => (None, delete (co_key co) (idle s)) end) =
      (o, match l' with [] => delete (co_key co) (idle s) | _ => <[co_key co := l']> (idle s) end) ∧
    takes s (set_idle s (match l' with [] => delete (co_key co) (idle s) | _ => <[co_key co := l']> (idle s) end))
      (from_option (λ e, uid (value e)) [] o) (λ _, False) ∧
    match o with Some e => open (value e) = true ∧ pc_key (value e) = co_key co | None => True end) as (o & l' & -> & Htk & Ho).
  { destruct (idle s !! co_key co) as [l|] eqn:Hl.
    - destruct (pop open (idle_timeout cfg) now l) as [o l'] eqn:Hpop.
      destruct (pop_spec _ _ _ (co_key co) _ _ _ Hpop) as (H1 & H2 & H3 & H4); [by apply (pi_idle _ Hinv)|].
      exists o, l'. split; [|split].
      + destruct o; [|by subst l']. by destruct l'.
      + apply set_idle_takes; [done|right; by exists l|done|]. by rewrite Hl.
      + destruct o; [|done]. tauto.
    - exists None, []. split_and!; [done| |done]. apply (set_idle_takes s (co_key co) [] []); [done|by left|constructor|]. intros x. rewrite Hl. done. }
  set (s1 := set_idle s _) in *. destruct Htk as [H1 H2 H3 H4]. destruct o as [e|]; simpl.
  - intros [= <- <- <-]. destruct Ho as [Ho Hk]. split; try done. by left.
  - destruct (new_waiter s1 (co_key co) tx H1 Htx) as (Hi & Hc & Ha & Hk). unfold queue in *. simpl in *.
    rewrite Hco. intros [= <- <- <-]. split; try done.
    + intros w. simpl. intros [<-|[_ Hw]]%lookup_insert_is_Some; [by right|by left].
    + intros k w _ Hatt. apply Hk, H4; [tauto|done].
    + split; [|intros x; rewrite Hc; specialize (H2 x); simpl in H2; lia]. exists tx. split_and!; [done|done|by left].
Qed.

(** A receiver that is dropped. *)
Lemma drop_rx_takes w (s : PoolInner K) : pool_inv s → takes s (drop_rx w s) [] (λ w', w' = w).
Proof.
  intros Hinv. pose proof Hinv as [Hi Hs Hq Hn]. unfold drop_rx, chan_of. destruct (chans s !! w) as [[k st]|] eqn:Hw; simpl.
  2:{ split; try done; intros x; rewrite !pool_ids_count, cnt_nil; simpl; lia. }
  destruct st as [|c| |].
  - split; simpl.
    + split; [exact Hi| | |exact Hn]; simpl.
      * intros w' k' c. rewrite set_chan_lookup. case_decide; subst; [by rewrite Hw|apply Hs].
      * intros k' w' Hw'. rewrite set_chan_lookup. case_decide; subst; [|by apply Hq].
        rewrite Hw. simpl. right. destruct (Hq _ _ Hw'); congruence.
    + intros x. rewrite !pool_ids_count, cnt_nil. simpl. erewrite set_chan_count by done.
      change (chan_ids (k, RxDropped)) with (@nil nat). rewrite cnt_nil. lia.
    + intros w'. rewrite set_chan_lookup. case_decide; subst; [by rewrite Hw|done].
    + intros k' w' Hne (st & H1 & H2 & H3). exists st. simpl. rewrite set_chan_lookup, decide_False by congruence. done.
  - destruct (delete_chan_takes s w Hinv) as [H1 H2 H3 H4]; [by eapply attended_not_queued|]. split; [done| |done|done].
    intros x. specialize (H2 x). rewrite cnt_nil. lia.
  - split; try done; intros x; rewrite !pool_ids_count, cnt_nil; simpl; lia.
  - split; try done; intros x; rewrite !pool_ids_count, cnt_nil; simpl; lia.
Qed.

(** ** The invariant of the system *)

Definition locked (lk : gmap nat (Connecting K)) (key : K) (i : nat) : Prop :=
  ∃ ct, lk !! i = Some ct ∧ ct_lock ct = true ∧ ct_key ct = key.

(** The locks on new connections and who holds them. *)
Record lock_inv (s : PoolInner K) (lk : gmap nat (Connecting K)) (n : nat) : Prop := {
  lo_fresh : ∀ i ct, lk !! i = Some ct → i < n;
  lo_held : ∀ key, key ∈ connecting s ↔ ∃ i, locked lk key i;
  lo_one : ∀ key i j, locked lk key i → locked lk key j → i = j
}.

Lemma lock_inv_same s s' lk n n' : lock_inv s lk n → connecting s' = connecting s → n ≤ n' → lock_inv s' lk n'.
Proof. intros [H1 H2 H3] Hc Hn. split; [|by rewrite Hc|done]. intros i ct Hi. apply H1 in Hi. lia. Qed.

Lemma locked_insert lk key i ct k j : lk !! i = None →
  locked (<[i := mkConnecting key ct]> lk) k j ↔ j = i ∧ ct = true ∧ key = k ∨ locked lk k j.
Proof.
  intros Hi. unfold locked. split.
  - intros (c & [[<- <-]|[_ Hc]]%lookup_insert_Some & H1 & H2); [left; done|right; eauto].
  - intros [(-> & -> & ->)|(c & Hc & ?)]; [eexists; by rewrite lookup_insert_eq|].
    exists c. by rewrite lookup_insert_ne by congruence.
Qed.

Lemma lock_inv_connecting s lk n i key ver s' ct :
  lock_inv s lk n → lk !! i = None → i < n → pool_connecting key ver s = (s', Some ct) → lock_inv s' (<[i := ct]> lk) n.
Proof.
  intros [H1 H2 H3] Hi Hn. assert (∀ j c, <[i := ct]> lk !! j = Some c → j < n) as Hf.
  { intros j c [[<- _]|[_ Hj]]%lookup_insert_Some; [done|by eapply H1]. }
  unfold pool_connecting. destruct ver; [|case_decide as Hk; [done|]]; intros [= <- <-]; split; try done; simpl.
  - intros k. rewrite H2. split; intros [j Hj]; exists j; [by apply locked_insert; [|right]|].
    apply locked_insert in Hj; [|done]. by destruct Hj as [(_ & ? & _)|?].
  - intros k j1 j2 [(_ & ? & _)|Hj1]%locked_insert [(_ & ? & _)|Hj2]%locked_insert; try done. by eapply H3.
  - intros k. rewrite elem_of_union, elem_of_singleton, H2. split.
    + intros [->|[j Hj]]; [exists i|exists j]; (apply locked_insert; [done|]); [by left|by right].
    + intros [j [(_ & _ & ->)|Hj]%locked_insert]; [by left|right; by exists j|done].
  - intros k j1 j2 Hj1 Hj2. apply locked_insert in Hj1, Hj2; [|done..].
    destruct Hj1 as [(-> & _ & <-)|Hj1], Hj2 as [(-> & _ & Hk2)|Hj2]; [done| | |by eapply H3].
    + exfalso. apply Hk, H2. by exists j2.
    + exfalso. apply Hk, H2. subst k. by exists j1.
Qed.

Lemma locked_delete lk i k j : locked (delete i lk) k j ↔ j ≠ i ∧ locked lk k j.
Proof.
  unfold locked. split.
  - intros (c & [Hne Hc]%lookup_delete_Some & ?). split; [done|]. by exists c.
  - intros (Hne & c & Hc & ?). exists c. by rewrite lookup_delete_ne.
Qed.

(** A [Connecting] that goes, with the lock or without. *)
Lemma lock_inv_drop s lk n i ct s' :
  lock_inv s lk n → lk !! i = Some ct →
  connecting s' = (if ct_lock ct then connecting s ∖ {[ct_key ct]} else connecting s) → lock_inv s' (delete i lk) n.
Proof.
  intros [H1 H2 H3] Hi Hc. split.
  - intros j c [_ Hj]%lookup_delete_Some. by eapply H1.
  - intros k. rewrite Hc. destruct (ct_lock ct) eqn:Hl.
    + rewrite elem_of_difference, elem_of_singleton, H2. split.
      * intros [[j Hj] Hk]. exists j. apply locked_delete. split; [|done]. intros ->. destruct Hj as (c & Hj & _ & <-). congruence.
      * intros [j [Hne Hj]%locked_delete]. split; [by exists j|]. intros ->. apply Hne. eapply H3; [done|]. by exists ct.
    + rewrite H2. split; intros [j Hj]; exists j; [|by apply locked_delete in Hj as [_ ?]].
      apply locked_delete. split; [|done]. intros ->. destruct Hj as (c & Hj & ? & _). congruence.
  - intros k j1 j2 [_ Hj1]%locked_delete [_ Hj2]%locked_delete. by eapply H3.
Qed.

Record sys_inv (s : Sys) : Prop := {
  si_pool : pool_inv (inner s);
  si_count : ∀ x, cnt x (ids s) ≤ if decide (x < next s) then 1 else 0;
  si_fresh : ∀ i, next s ≤ i → chans (inner s) !! i = None ∧ held s !! i = None ∧ checkouts s !! i = None;
  si_held : ∀ i p, held s !! i = Some p → pc_key (p_value p) = p_key p;
  si_waits : ∀ i co w, checkouts s !! i = Some co → co_waiter co = Some w → attended (inner s) (co_key co) w;
  si_one : ∀ i j ci cj w, checkouts s !! i = Some ci → checkouts s !! j = Some cj →
    co_waiter ci = Some w → co_waiter cj = Some w → i = j;
  si_locks : lock_inv (inner s) (locks s) (next s)
}.

Lemma ids_count s x : cnt x (ids s) = cnt x (pool_ids (inner s)) + cnt x (flat (λ p, uid (p_value p)) (held s)).
Proof. apply cnt_app. Qed.

Lemma sys_inv_initial : sys_inv initial.
Proof.
  split; simpl; try done.
  - split; simpl; try done; intros; try (by rewrite lookup_empty in *); [by apply not_elem_of_nil in H0|constructor].
  - split; simpl; [done| |by intros key i j (ct & Hi & _)]. intros key. split; [set_solver|]. by intros (i & ct & Hi & _).
Qed.

(** A change of the pool that serves or tells the waiters that are not [gone], while
    checkouts at most go. *)
Lemma sys_inv_keeps s s' held' cos locks' gone n :
  sys_inv s → pool_inv s' → (∀ w, is_Some (chans s' !! w) → is_Some (chans (inner s) !! w)) →
  (∀ k w, ¬ gone w → attended (inner s) k w → attended s' k w) → next s ≤ n →
  (∀ i p, held' !! i = Some p → i < n ∧ pc_key (p_value p) = p_key p) →
  (∀ x, cnt x (pool_ids s') + cnt x (flat (λ p, uid (p_value p)) held') ≤ if decide (x < n) then 1 else 0) →
  (∀ i co, cos !! i = Some co → checkouts s !! i = Some co ∧ ∀ w, co_waiter co = Some w → ¬ gone w) →
  lock_inv s' locks' n → sys_inv (mkSys s' held' cos locks' n).
Proof.
  intros [Hp Hc Hf Hh Hw Ho Hl] T1 T3 T4 Hn Hheld Hcount Hcos Hlocks. split; simpl.
  - done.
  - intros x. rewrite ids_count. apply Hcount.
  - intros i Hi. destruct (Hf i) as (H1 & H2 & H3); [lia|]. split_and!.
    + destruct (chans s' !! i) eqn:E; [|done]. destruct (T3 i) as [? ?]; [by rewrite E|congruence].
    + destruct (held' !! i) as [p|] eqn:E; [|done]. destruct (Hheld i p E). lia.
    + destruct (cos !! i) as [co|] eqn:E; [|done]. destruct (Hcos i co E). congruence.
  - intros i p Hi. by destruct (Hheld i p Hi).
  - intros i co w Hi Hw'. destruct (Hcos i co Hi) as [Hi' Hg]. apply T4; [by apply Hg|by eapply Hw].
  - intros i j ci cj w Hi Hj. destruct (Hcos i ci Hi), (Hcos j cj Hj). eauto.
  - done.
Qed.

Lemma sys_inv_held_bound s i p : sys_inv s → held s !! i = Some p → i < next s ∧ pc_key (p_value p) = p_key p.
Proof.
  intros Hinv Hi. split; [|by eapply si_held]. destruct (decide (i < next s)); [done|].
  destruct (si_fresh s Hinv i) as (_ & ? & _); [lia|]. congruence.
Qed.

(** Only the pool changes, and connections only go. *)
Lemma sys_inv_takes s s' cos gone :
  sys_inv s → takes (inner s) s' [] gone → connecting s' = connecting (inner s) →
  (∀ i co, cos !! i = Some co → checkouts s !! i = Some co ∧ ∀ w, co_waiter co = Some w → ¬ gone w) →
  sys_inv (mkSys s' (held s) cos (locks s) (next s)).
Proof.
  intros Hinv [T1 T2 T3 T4] Hcon Hcos. eapply sys_inv_keeps; try done.
  - intros i p. by apply sys_inv_held_bound.
  - intros x. pose proof (si_count s Hinv x) as Hc. rewrite ids_count in Hc. specialize (T2 x). rewrite cnt_nil in T2. lia.
  - eapply lock_inv_same; [by apply si_locks|done|lia].
Qed.

Lemma inv_poll_pending s i co open now s' co' :
  sys_inv s → checkouts s !! i = Some co →
  checkout_poll cfg open now (next s) co (inner s) = (s', co', PollPending) →
  sys_inv (mkSys s' (held s) (<[i := co']> (checkouts s)) (locks s) (S (next s))).
Proof.
  intros Hinv Hi Hpoll. pose proof Hinv as [Hp Hc Hf Hh Hw Ho Hl]. destruct (Hf (next s)) as (Htx & _ & _); [lia|].
  assert (polled co (next s) open (inner s) s' co' PollPending) as [P1 P2 P3 P4 P5 [(w & Hw' & Hatt & Hor) P6]].
  { destruct (co_waiter co) as [w|] eqn:E; [eapply poll_waiting; eauto|by eapply poll_first_checkout]. }
  assert (∀ j cj w', checkouts s !! j = Some cj → co_waiter cj = Some w' → j ≠ i → w' ≠ w) as Hdiff.
  { intros j cj w' Hj Hwj Hne ->. destruct Hor as [-> |Hor].
    - destruct (Hw j cj _ Hj Hwj) as (st & Hst & _). congruence.
    - by destruct Hne; eapply Ho. }
  split; simpl.
  - done.
  - intros x. rewrite ids_count. simpl. specialize (Hc x). rewrite ids_count in Hc. specialize (P6 x). repeat case_decide; lia.
  - intros j Hj. destruct (Hf j) as (H1 & H2 & H3); [lia|]. split_and!; [|done|].
    + destruct (chans s' !! j) eqn:E; [|done]. destruct (P4 j) as [[? ?]|[? _]]; [by rewrite E|congruence|lia].
    + rewrite lookup_insert_ne; [done|]. intros ->. congruence.
  - done.
  - intros j cj w' [[<- <-]|[Hne Hj]]%lookup_insert_Some Hwj; [rewrite P3; congruence|].
    apply P5; [|by eapply Hw]. intros Hco. apply Hne. by eapply Ho.
  - intros j1 j2 c1 c2 w' [[<- <-]|[Hne1 Hj1]]%lookup_insert_Some [[<- <-]|[Hne2 Hj2]]%lookup_insert_Some H1 H2; [done| | |by eapply Ho].
    + exfalso. eapply (Hdiff j2 c2 w'); [done|done|congruence|congruence].
    + exfalso. eapply (Hdiff j1 c1 w'); [done|done|congruence|congruence].
  - eapply lock_inv_same; [done|done|lia].
Qed.

Lemma inv_poll_ready s i co open now s' co' r :
  sys_inv s → checkouts s !! i = Some co →
  checkout_poll cfg open now (next s) co (inner s) = (s', co', PollReady r) →
  sys_inv (mkSys s' (match r with Ok p => <[next s := p]> (held s) | Err _ => held s end) (delete i (checkouts s))
             (locks s) (S (next s))).
Proof.
  intros Hinv Hi Hpoll. pose proof Hinv as [Hp Hc Hf Hh Hw Ho Hl]. destruct (Hf (next s)) as (Htx & Hn & _); [lia|].
  assert (polled co (next s) open (inner s) s' co' (PollReady r)) as [P1 P2 P3 P4 P5 P6].
  { destruct (co_waiter co) as [w|] eqn:E; [eapply poll_waiting; eauto|by eapply poll_first_checkout]. }
  eapply (sys_inv_keeps s s' _ _ _ (λ w, co_waiter co = Some w)); try done.
  - intros w Hs. destruct (P4 w Hs) as [?|[_ ?]]; done.
  - lia.
  - intros j p Hj. assert (held s !! j = Some p ∨ j = next s ∧ r = Ok p) as [Hj'|[-> ->]].
    { destruct r as [q|]; [|by left]. apply lookup_insert_Some in Hj as [[<- <-]|[_ ?]]; auto. }
    + destruct (sys_inv_held_bound s j p Hinv Hj'). split; [lia|done].
    + destruct P6 as (-> & ? & _). split; [lia|done].
  - intros x. specialize (Hc x). rewrite ids_count in Hc. destruct r as [p|e]; simpl in P6.
    + destruct P6 as (_ & _ & _ & _ & P6). specialize (P6 x). rewrite flat_insert by done. repeat case_decide; lia.
    + specialize (P6 x). repeat case_decide; lia.
  - intros j cj [Hne Hj]%lookup_delete_Some. split; [done|]. intros w Hcj Hco. apply Hne. by eapply Ho.
  - eapply lock_inv_same; [done|done|lia].
Qed.

(** Putting a connection into the pool. *)
Lemma inv_put s now raced key v s1 s2 held' locks' n :
  sys_inv s → pc_key v = key → fair s raced → put cfg now raced key v (inner s) = Ret s1 →
  takes s1 s2 [] (λ _, False) → next s ≤ n →
  (∀ i p, held' !! i = Some p → i < n ∧ pc_key (p_value p) = p_key p) →
  (∀ x, cnt x (pool_ids (inner s)) + cnt x (uid v) + cnt x (flat (λ p, uid (p_value p)) held') ≤ if decide (x < n) then 1 else 0) →
  lock_inv s2 locks' n → sys_inv (mkSys s2 held' (checkouts s) locks' n).
Proof.
  intros Hinv Hk Hfair Hput [T1 T2 T3 T4] Hn Hheld Hcount Hlocks.
  destruct (put_spec now raced key v (inner s) (si_pool s Hinv) Hk) as (s1' & Hput' & Q1 & [Q2 Q3 Q4] & Q5).
  rewrite Hput in Hput'. injection Hput' as <-.
  eapply (sys_inv_keeps s s2 _ _ _ (λ w, raced w = true)); try done.
  - intros w Hw. by apply Q4, T3.
  - intros k w Hne Ha. apply T4; [tauto|]. apply Q5; [by destruct (raced w)|done].
  - intros x. specialize (T2 x). specialize (Q3 x). specialize (Hcount x). rewrite cnt_nil in T2. repeat case_decide; lia.
  - intros i co Hi. split; [done|]. intros w Hw Hr. apply (Hfair w Hr). by exists i, co.
Qed.

Lemma uid_fresh n tx key x : cnt x (uid (mkPoolClient n tx key)) ≤ if decide (x = n) then 1 else 0.
Proof.
  unfold uid. destruct tx; simpl; [|by rewrite cnt_nil; lia].
  case_decide; subst; [|by rewrite cnt_not_elem by set_solver]. unfold cnt. rewrite filter_cons. by case_decide.
Qed.

Lemma Connecting_drop_takes ct (s : PoolInner K) : pool_inv s → takes s (Connecting_drop ct s) [] (λ _, False) ∧
  connecting (Connecting_drop ct s) = (if ct_lock ct then connecting s ∖ {[ct_key ct]} else connecting s).
Proof.
  intros Hinv. unfold Connecting_drop. destruct (ct_lock ct); [split; [by apply connected_takes|done]|].
  split; [|done]. split; try done. intros x. rewrite cnt_nil. lia.
Qed.

Lemma inv_connected s i ct tx now raced s' p :
  sys_inv s → locks s !! i = Some ct → (tx = Http2 → ct_lock ct = true) → fair s raced →
  pooled cfg now raced ct (mkPoolClient (next s) tx (ct_key ct)) (inner s) = Ret (s', p) →
  sys_inv (mkSys s' (<[next s := p]> (held s)) (checkouts s) (delete i (locks s)) (S (next s))).
Proof.
  intros Hinv Hi Htx Hfair Hpooled. set (v := mkPoolClient (next s) tx (ct_key ct)) in *.
  pose proof Hinv as [Hp Hc Hf Hh Hw Ho Hl]. destruct (Hf (next s)) as (_ & Hn & _); [lia|].
  assert (p_value p = v ∧ p_key p = ct_key ct) as [Hpv Hpk].
  { unfold pooled in Hpooled. destruct tx; simpl in Hpooled; [by simplify_eq|].
    destruct (put _ _ _ _ _ _); simpl in Hpooled; [by simplify_eq|done]. }
  assert (∀ j q, <[next s := p]> (held s) !! j = Some q → j < S (next s) ∧ pc_key (p_value q) = p_key q) as Hheld.
  { intros j q [[<- <-]|[_ Hj]]%lookup_insert_Some; [rewrite Hpv, Hpk; split; [lia|done]|].
    destruct (sys_inv_held_bound s j q Hinv Hj). split; [lia|done]. }
  assert (∀ x, cnt x (pool_ids (inner s)) + cnt x (flat (λ p, uid (p_value p)) (<[next s := p]> (held s))) ≤
    if decide (x < S (next s)) then 1 else 0) as Hcount.
  { intros x. rewrite flat_insert, Hpv by done. specialize (Hc x). rewrite ids_count in Hc.
    pose proof (uid_fresh (next s) tx (ct_key ct) x). fold v in H0. repeat case_decide; lia. }
  assert (∀ s2, connecting s2 = (if ct_lock ct then connecting (inner s) ∖ {[ct_key ct]} else connecting (inner s)) →
    lock_inv s2 (delete i (locks s)) (S (next s))) as Hlocks.
  { intros s2 Hs2. eapply lock_inv_same; [by eapply lock_inv_drop|done|lia]. }
  unfold pooled in Hpooled. destruct tx; simpl in Hpooled.
  - simplify_eq. destruct (Connecting_drop_takes ct (inner s) Hp) as [[T1 T2 T3 T4] Tc].
    eapply (sys_inv_keeps s _ _ _ _ (λ _, False)); try done; [lia| |by intros; split; [|tauto]|by apply Hlocks].
    intros x. specialize (T2 x). specialize (Hcount x). rewrite cnt_nil in T2. lia.
  - destruct (put cfg now raced (ct_key ct) v (inner s)) as [s1|] eqn:Hput; simpl in Hpooled; [|done]. injection Hpooled as <- <-.
    destruct (put_spec now raced (ct_key ct) v (inner s) Hp eq_refl) as (s1' & Hput' & Q1 & [Q2 _ _] & _).
    rewrite Hput in Hput'. injection Hput' as <-.
    eapply inv_put; [exact Hinv|done|exact Hfair|exact Hput|by apply connected_takes|lia|exact Hheld| |].
    + intros x. specialize (Hcount x). rewrite (uid_shared v eq_refl), cnt_nil. lia.
    + apply Hlocks. rewrite Htx by done. simpl. by rewrite Q2.
Qed.

Lemma inv_pooled_drop s i p open now raced s' :
  sys_inv s → held s !! i = Some p → fair s raced → Pooled_drop cfg open now raced p (inner s) = Ret s' →
  sys_inv (mkSys s' (delete i (held s)) (checkouts s) (locks s) (next s)).
Proof.
  intros Hinv Hi Hfair Hdrop. pose proof Hinv as [Hp Hc Hf Hh Hw Ho Hl].
  assert (∀ j q, delete i (held s) !! j = Some q → j < next s ∧ pc_key (p_value q) = p_key q) as Hheld.
  { intros j q [_ Hj]%lookup_delete_Some. by apply sys_inv_held_bound. }
  assert (∀ x, cnt x (pool_ids (inner s)) + cnt x (uid (p_value p)) + cnt x (flat (λ p, uid (p_value p)) (delete i (held s))) ≤
    if decide (x < next s) then 1 else 0) as Hcount.
  { intros x. specialize (Hc x). rewrite ids_count in Hc. rewrite (flat_delete _ _ _ _ x Hi) in Hc. lia. }
  assert (s' = inner s ∨ put cfg now raced (p_key p) (p_value p) (inner s) = Ret s') as [->|Hput].
  { unfold Pooled_drop in Hdrop. destruct (negb _); [left; congruence|]. destruct (p_pool p); [by right|left; congruence]. }
  - eapply (sys_inv_keeps s _ _ _ _ (λ _, False)); try done.
    + intros x. specialize (Hcount x). lia.
    + intros j co Hj. split; [done|]. tauto.
  - destruct (put_spec now raced (p_key p) (p_value p) (inner s) Hp (Hh i p Hi)) as (s1' & Hput' & Q1 & [Q2 _ _] & _).
    rewrite Hput in Hput'. simplify_eq.
    eapply inv_put; [exact Hinv|by eapply Hh|exact Hfair|exact Hput| |done|exact Hheld|exact Hcount|].
    + split; try done. intros x. rewrite cnt_nil. lia.
    + eapply lock_inv_same; [done|done|lia].
Qed.

Lemma takes_refl (s : PoolInner K) gone : pool_inv s → takes s s [] gone.
Proof. intros Hinv. split; try done. intros x. rewrite cnt_nil. lia. Qed.

(** What only concerns the locks. *)
Lemma inv_locks s s' locks' n :
  sys_inv s → idle s' = idle (inner s) → waiters s' = waiters (inner s) → chans s' = chans (inner s) → next s ≤ n →
  lock_inv s' locks' n → sys_inv (mkSys s' (held s) (checkouts s) locks' n).
Proof.
  intros Hinv Hidle Hwait Hch Hn Hlocks. pose proof Hinv as [[P1 P2 P3 P4] Hc Hf Hh Hw Ho Hl].
  eapply (sys_inv_keeps s _ _ _ _ (λ _, False)); try done; unfold attended, queue, pool_ids in *.
  - split; unfold queue; by rewrite ?Hidle, ?Hwait, ?Hch.
  - by rewrite Hch.
  - rewrite Hch, Hwait. done.
  - intros i p Hi. destruct (sys_inv_held_bound s i p Hinv Hi). split; [lia|done].
  - intros x. specialize (Hc x). rewrite ids_count in Hc. unfold pool_ids in Hc. rewrite Hidle, Hch. repeat case_decide; lia.
  - intros; split; [done|tauto].
Qed.

Lemma sys_inv_step s s' : sys_inv s → step s s' → sys_inv s'.
Proof.
  intros Hinv Hstep. pose proof (si_pool s Hinv) as Hp.
  destruct Hstep as [s key|s i co open now s' co'|s i co open now s' co' r|s i|s w Hw|s key|s key ver s' ct Hct
    |s i ct s' o Hi Hlk Halpn|s i ct tx now raced s' p|s i ct Hi|s i p open now raced s'|s open now s' He].
  - destruct Hinv as [_ Hc Hf Hh Hw Ho Hl]. split; simpl; try done.
    + intros x. specialize (Hc x). unfold ids in *. simpl. repeat case_decide; lia.
    + intros i Hi. destruct (Hf i) as (H1 & H2 & H3); [lia|]. split_and!; [done|done|]. rewrite lookup_insert_ne; [done|lia].
    + intros i co w [[<- <-]|[_ Hi]]%lookup_insert_Some; [done|by eapply Hw].
    + intros i j ci cj w [[<- <-]|[_ Hi]]%lookup_insert_Some [[<- <-]|[_ Hj]]%lookup_insert_Some; try done. by eapply Ho.
    + eapply lock_inv_same; [done|done|simpl; lia].
  - by eapply inv_poll_pending.
  - by eapply inv_poll_ready.
  - eapply sys_inv_takes; [done|by apply (takes_refl _ (λ _, False))|done|].
    intros j co [_ Hj]%lookup_delete_Some. split; [done|tauto].
  - eapply sys_inv_takes; [done|by apply drop_rx_takes|done|].
    intros j co Hj. split; [done|]. intros w' Hw' ->. apply Hw. by exists j, co.
  - eapply sys_inv_takes; [done|by apply clean_waiters_takes| |by intros; split; [|tauto]].
    unfold clean_waiters. by destruct (waiters _ !! _).
  - assert (locks s !! next s = None) as Hn.
    { destruct (locks s !! next s) as [c|] eqn:E; [|done]. pose proof (lo_fresh _ _ _ (si_locks s Hinv) _ _ E). lia. }
    eapply inv_locks; [done|..]; try by (unfold pool_connecting in Hct; repeat case_match; simplify_eq).
    + lia.
    + eapply lock_inv_connecting; [|done|lia|done]. eapply lock_inv_same; [by apply si_locks|done|lia].
  - assert (lock_inv (inner s) (delete i (locks s)) (next s)) as Hdel.
    { eapply lock_inv_drop; [by apply si_locks|done|by rewrite Hlk]. }
    eapply inv_locks; [done|..]; try by (unfold alpn_h2, pool_connecting in Halpn; repeat case_match; simplify_eq).
    destruct o as [ct'|].
    + rewrite <-insert_delete_eq. eapply lock_inv_connecting; [exact Hdel|apply lookup_delete_eq| |exact Halpn].
      by eapply (lo_fresh _ _ _ (si_locks s Hinv)).
    + unfold alpn_h2, pool_connecting in Halpn. case_decide; simplify_eq. done.
  - by eapply inv_connected.
  - destruct (Connecting_drop_takes ct (inner s) Hp) as [[T1 T2 T3 T4] Tc].
    eapply (sys_inv_keeps s _ _ _ _ (λ _, False)); try done.
    + intros j q. by apply sys_inv_held_bound.
    + intros x. pose proof (si_count s Hinv x) as Hc. rewrite ids_count in Hc. specialize (T2 x). rewrite cnt_nil in T2. lia.
    + intros; split; [done|tauto].
    + by eapply lock_inv_drop; [apply si_locks|..].
  - by eapply inv_pooled_drop.
  - eapply sys_inv_takes; [done|by eapply clear_expired_takes| |by intros; split; [|tauto]].
    unfold clear_expired in He. by destruct (idle_timeout cfg); simplify_eq.
Qed.

Lemma sys_reachable_inv s : reachable s → sys_inv s.
Proof.
  intros Hs. eapply (rtc_ind_r sys_inv _); [exact sys_inv_initial| |exact Hs].
  intros s1 s2 _ Hstep Hinv. by eapply sys_inv_step.
Qed.

(** ** Theorems *)

Lemma held_twice s i j p q x :
  sys_inv s → held s !! i = Some p → held s !! j = Some q → x ∈ uid (p_value p) → x ∈ uid (p_value q) → i = j.
Proof.
  intros Hinv Hi Hj Hp Hq. destruct (decide (i = j)) as [|Hne]; [done|]. exfalso.
  pose proof (si_count s Hinv x) as Hc. rewrite ids_count, (flat_delete _ _ _ _ x Hi) in Hc.
  assert (delete i (held s) !! j = Some q) as Hj' by (by rewrite lookup_delete_ne).
  rewrite (flat_delete _ _ _ _ x Hj') in Hc. apply cnt_elem in Hp, Hq. case_decide; lia.
Qed.

Lemma held_not_pooled s i p x : sys_inv s → held s !! i = Some p → x ∈ uid (p_value p) → x ∉ pool_ids (inner s).
Proof.
  intros Hinv Hi Hp Hin. pose proof (si_count s Hinv x) as Hc. rewrite ids_count, (flat_delete _ _ _ _ x Hi) in Hc.
  apply cnt_elem in Hp, Hin. case_decide; lia.
Qed.

(** A connection only one request may use. *)
Definition unique (c : PoolClient K) (x : nat) : Prop := pc_tx c = Http1 ∧ pc_conn c = x.

Lemma elem_of_uid c x : x ∈ uid c ↔ unique c x.
Proof. unfold uid, unique. destruct (pc_tx c); [rewrite list_elem_of_singleton|]; [naive_solver|]. split; [by intros ?%not_elem_of_nil|by intros [? _]]. Qed.

(** C27: an HTTP/1 connection serves one request at a time: in every state that requests,
    connections, evictions and failures can reach, it is held by at most one request, and
    while one holds it it is neither idle nor on its way to a waiter.  A request holds a
    connection that was opened for its key, and no key has more idle connections than
    allowed. *)
Theorem pool_exclusive s :
  reachable s →
  (∀ i j p q x, held s !! i = Some p → held s !! j = Some q → unique (p_value p) x → unique (p_value q) x → i = j) ∧
  (∀ i p x, held s !! i = Some p → unique (p_value p) x →
    (∀ k l e, idle (inner s) !! k = Some l → e ∈ l → ¬ unique (value e) x) ∧
    (∀ w k c, chans (inner s) !! w = Some (k, Sent c) → ¬ unique c x)) ∧
  (∀ i p, held s !! i = Some p → pc_key (p_value p) = p_key p) ∧
  (∀ k l, idle (inner s) !! k = Some l → 0 < length l ≤ max_idle_per_host cfg).
Proof.
  intros Hinv%sys_reachable_inv. split_and!.
  - intros i j p q x Hi Hj Hp Hq. rewrite <-elem_of_uid in Hp, Hq. by eapply held_twice.
  - intros i p x Hi Hp. rewrite <-elem_of_uid in Hp. pose proof (held_not_pooled s i p x Hinv Hi Hp) as Hno.
    unfold pool_ids in Hno. rewrite elem_of_app in Hno. split.
    + intros k l e Hl He Hu. apply Hno. left. eapply elem_of_flat; [exact Hl|]. unfold idle_ids.
      rewrite elem_of_concat. exists (uid (value e)). split; [by apply elem_of_uid|by apply (list_elem_of_fmap_2 (λ e, uid (value e)))].
    + intros w k c Hw Hu. apply Hno. right. eapply elem_of_flat; [exact Hw|]. by apply elem_of_uid.
  - by apply si_held.
  - intros k l Hl. by apply (pi_idle _ (si_pool s Hinv)) in Hl as [? _].
Qed.

Lemma put_waiters_first raced key ws1 w ws2 v (ch : gmap nat (K * Chan K)) :
  can_share v = false → NoDup (ws1 ++ w :: ws2) →
  (∀ w', w' ∈ ws1 → ch !! w' = Some (key, RxDropped) ∨ ch !! w' = Some (key, Empty) ∧ raced w' = true) →
  ch !! w = Some (key, Empty) → raced w = false →
  ∃ ch', put_waiters raced (ws1 ++ w :: ws2) (Some v) ch = Ret (None, ws2, ch') ∧ ch' !! w = Some (key, Sent v).
Proof.
  intros Hs. revert ch. induction ws1 as [|w1 ws1 IH]; intros ch Hnd Hws Hw Hr; simpl.
  - unfold is_canceled, chan_of. rewrite Hw. simpl. rewrite (reserve_unique v Hs), Hr.
    eexists. split; [done|]. by rewrite set_chan_lookup, decide_True, Hw.
  - apply NoDup_cons in Hnd as [Hn1 Hnd]. unfold is_canceled, chan_of.
    destruct (Hws w1) as [Hw1|[Hw1 Hr1]]; [by left| |]; rewrite Hw1; simpl.
    + apply IH; try done. intros w' Hw'. apply Hws. by right.
    + rewrite (reserve_unique v Hs), Hr1. apply IH; try done.
      * intros w' Hw'. rewrite set_chan_lookup, decide_False by set_solver. apply Hws. by right.
      * rewrite set_chan_lookup, decide_False by set_solver. done.
Qed.

(** No waiter is lost, and the first is served first. A checkout that waits is in the
    queue of its key until something is sent to it or it is told that nothing will come;
    and an HTTP/1 connection that returns to the pool goes to the first waiter of its key
    that has not given up, not to the idle ones. *)
Theorem pool_waiters s :
  reachable s →
  (∀ i co w, checkouts s !! i = Some co → co_waiter co = Some w → attended (inner s) (co_key co) w) ∧
  (∀ now raced key v ws1 w ws2, pc_key v = key → can_share v = false → queue (inner s) key = ws1 ++ w :: ws2 →
     (∀ w', w' ∈ ws1 → chan_of (chans (inner s)) w' = Some RxDropped ∨ raced w' = true) →
     chan_of (chans (inner s)) w = Some Empty → raced w = false →
     ∃ s', put cfg now raced key v (inner s) = Ret s' ∧ chans s' !! w = Some (key, Sent v) ∧
       queue s' key = ws2 ∧ idle s' = idle (inner s)).
Proof.
  intros Hinv%sys_reachable_inv. split; [by apply si_waits|].
  intros now raced key v ws1 w ws2 Hk Hs Hq Hws1 Hw Hr. destruct (si_pool s Hinv) as [_ _ Hqueue Hnd].
  specialize (Hqueue key). specialize (Hnd key). rewrite Hq in *. unfold chan_of in *.
  destruct (put_waiters_first raced key ws1 w ws2 v (chans (inner s)) Hs Hnd) as (ch' & Hput & Hsent).
  - intros w' Hw'. destruct (Hqueue w') as [H1|H1]; [set_solver| |by left].
    destruct (Hws1 w' Hw') as [H2|H2]; [by rewrite H1 in H2|by right].
  - destruct (Hqueue w) as [H1|H1]; [set_solver|done|]. by rewrite H1 in Hw.
  - done.
  - unfold put. rewrite Hs. simpl. unfold queue in Hq at 1.
    destruct (waiters (inner s) !! key) as [ws|] eqn:Hws; simpl in Hq; [|by destruct ws1]. rewrite Hq, Hput. simpl.
    eexists. split; [done|]. split_and!; [done| |done]. unfold queue. simpl. by rewrite queue_rest, decide_True.
Qed.

(** At most one new HTTP/2 connection per key is being opened, the lock is always there
    when it is given back, and when opening fails, every checkout of the key that waits is
    told. *)
Theorem pool_connecting_lock s i ct :
  reachable s → locks s !! i = Some ct → ct_lock ct = true →
  (∀ j ct', locks s !! j = Some ct' → ct_lock ct' = true → ct_key ct' = ct_key ct → j = i) ∧
  (connected (ct_key ct) (inner s)).2 = true ∧
  (pool_connecting (ct_key ct) VerHttp2 (inner s)).2 = None ∧
  (∀ j co w, checkouts s !! j = Some co → co_waiter co = Some w → co_key co = ct_key ct →
     chan_of (chans (inner s)) w = Some Empty →
     ∀ open, (poll_waiter open co (Connecting_drop ct (inner s))).2 = Some (PollReady (Err CheckoutNoLongerWanted))).
Proof.
  intros Hinv%sys_reachable_inv Hi Hl. pose proof (si_locks s Hinv) as [Hf Hheld Hone].
  assert (ct_key ct ∈ connecting (inner s)) as Hin by (apply Hheld; exists i, ct; done). split_and!.
  - intros j ct' Hj Hl' Hk. eapply Hone; [by exists ct'|by exists ct].
  - simpl. by apply bool_decide_eq_true_2.
  - simpl. by rewrite decide_True.
  - intros j co w Hj Hw Hk Hst open. destruct (si_waits s Hinv j co w Hj Hw) as (st & Hch & _ & Hq).
    unfold chan_of in Hst. rewrite Hch in Hst. simpl in Hst. simplify_eq. specialize (Hq eq_refl). unfold Connecting_drop. rewrite Hl.
    unfold poll_waiter, connected, chan_of. rewrite Hw. simpl. rewrite drop_txs_lookup, decide_True, Hch; [done|].
    rewrite <-Hk. exact Hq.
Qed.

(** A checkout that succeeds gives a connection of its key that is open. *)
Theorem checkout_open s i co open now s' co' p :
  reachable s → checkouts s !! i = Some co →
  checkout_poll cfg open now (next s) co (inner s) = (s', co', PollReady (Ok p)) →
  open (p_value p) = true ∧ pc_key (p_value p) = co_key co ∧ p_is_reused p = true.
Proof.
  intros Hinv%sys_reachable_inv Hi Hpoll. destruct (si_fresh s Hinv (next s)) as (Htx & _ & _); [lia|].
  assert (polled co (next s) open (inner s) s' co' (PollReady (Ok p))) as [_ _ _ _ _ (? & ? & ? & ? & _)]; [|done].
  pose proof (si_pool s Hinv). destruct (co_waiter co) as [w|] eqn:E; [|by eapply poll_first_checkout].
  eapply poll_waiting; try done. by eapply si_waits.
Qed.
End system.

(** * A connection that is used twice *)

Module ConnPoolExample.
Definition cfg : Config := {| idle_timeout := Some 90%N; max_idle_per_host := 2; timer := true |}.
Definition conn : PoolClient nat := mkPoolClient 1 Http1 5.
Definition open (_ : PoolClient nat) : bool := true.
Definition raced (_ : nat) : bool := false.

Abbreviation State := (@Sys nat _ _).

Definition lock_taken : State := mkSys (inner initial) ∅ ∅ {[0 := mkConnecting 5 false]} 1.
Definition opened : State := mkSys (inner initial) {[1 := mkPooled conn false 5 true]} ∅ ∅ 2.
Definition pool_with_idle : PoolInner nat := mkPool ∅ {[5 := [mkIdle 3%N conn]]} ∅ true ∅.
Definition returned : State := mkSys pool_with_idle ∅ ∅ ∅ 2.
Definition asked : State := mkSys pool_with_idle ∅ {[2 := mkCheckout 5 None]} ∅ 3.
Definition reused : State := mkSys (mkPool ∅ ∅ ∅ true ∅) {[3 := mkPooled conn true 5 true]} ∅ ∅ 4.

Lemma step_to (s s1 s2 : State) : step cfg s s1 → s1 = s2 → step cfg s s2.
Proof. by intros H <-. Qed.

Lemma asked_reachable : reachable cfg asked.
Proof.
  eapply rtc_l; [eapply (step_to _ _ lock_taken); [by eapply (step_connecting cfg initial 5 VerAuto)|by vm_compute]|].
  eapply rtc_l; [eapply (step_to _ _ opened);
    [by eapply (step_connected cfg lock_taken 0 _ Http1 0%N raced)|by vm_compute]|].
  eapply rtc_l; [eapply (step_to _ _ returned);
    [eapply (step_pooled_drop cfg opened 1 _ open 3%N raced); [done|done|by vm_compute]|by vm_compute]|].
  apply rtc_once. eapply step_to; [apply (step_checkout cfg returned 5)|by vm_compute].
Qed.

Lemma asked_poll : ∃ s' co',
  checkout_poll cfg open 10%N 3 (mkCheckout 5 None) pool_with_idle = (s', co', PollReady (Ok (mkPooled conn true 5 true))).
Proof. eexists _, _. vm_compute. reflexivity. Qed.

Lemma reused_reachable : reachable cfg reused.
Proof.
  eapply rtc_r; [exact asked_reachable|]. eapply step_to.
  - eapply (step_ready cfg asked 2 (mkCheckout 5 None) open 10%N); [done|by vm_compute].
  - by vm_compute.
Qed.

Lemma max_idle_positive : 0 < max_idle_per_host cfg.
Proof. simpl. lia. Qed.

(** The connection that is held is not idle. *)
Lemma pool_exclusive_witness : held reused !! 3 = Some (mkPooled conn true 5 true) ∧
  pc_key conn = 5 ∧ (∀ k l e, idle (inner reused) !! k = Some l → e ∈ l → ¬ unique (value e) 1).
Proof.
  destruct (pool_exclusive cfg max_idle_positive reused reused_reachable) as (_ & H2 & H3 & _).
  split; [by vm_compute|]. split; [by apply (H3 3 (mkPooled conn true 5 true)); vm_compute|].
  apply (H2 3 (mkPooled conn true 5 true) 1); [by vm_compute|by split].
Defined.

Lemma checkout_open_witness : open conn = true ∧ pc_key conn = 5.
Proof.
  destruct asked_poll as (s' & co' & Hp).
  destruct (checkout_open cfg max_idle_positive asked 2 (mkCheckout 5 None) open 10%N s' co' (mkPooled conn true 5 true) asked_reachable)
    as (H1 & H2 & _); [by vm_compute|exact Hp|]. by split.
Defined.

(** A checkout that waits, and a connection that comes back. *)
Definition waiting : State :=
  mkSys (mkPool ∅ ∅ {[5 := [1]]} false {[1 := (5, Empty)]}) ∅ {[0 := mkCheckout 5 (Some 1)]} ∅ 2.

Lemma waiting_reachable : reachable cfg waiting.
Proof.
  eapply rtc_l; [apply (step_checkout cfg initial 5)|]. apply rtc_once. eapply step_to.
  - eapply (step_pending cfg _ 0 (mkCheckout 5 None) open 0%N); [by vm_compute|by vm_compute].
  - by vm_compute.
Qed.

Lemma pool_waiters_witness : ∃ s', put cfg 7%N raced 5 conn (inner waiting) = Ret s' ∧ chans s' !! 1 = Some (5, Sent conn).
Proof.
  destruct (pool_waiters cfg max_idle_positive waiting waiting_reachable) as [_ Hput].
  destruct (Hput 7%N raced 5 conn [] 1 []) as (s' & H1 & H2 & _); try by vm_compute.
  - intros w' Hw'. by apply not_elem_of_nil in Hw'.
  - by exists s'.
Defined.

(** The lock for one key. *)
Definition locked_once : State := mkSys (mkPool {[5]} ∅ ∅ false ∅) ∅ ∅ {[0 := mkConnecting 5 true]} 1.

Lemma locked_once_reachable : reachable cfg locked_once.
Proof.
  apply rtc_once. eapply step_to; [by eapply (step_connecting cfg initial 5 VerHttp2)|by vm_compute].
Qed.

Lemma pool_connecting_lock_witness : (pool_connecting 5 VerHttp2 (inner locked_once)).2 = None.
Proof.
  exact (proj1 (proj2 (proj2 (pool_connecting_lock cfg max_idle_positive locked_once 0 (mkConnecting 5 true)
    locked_once_reachable eq_refl eq_refl)))).
Defined.
End ConnPoolExample.
