(* ===== verification/Client.v ===== *)
(** Client: the upstream client of [client/mod.rs]: which transport a call uses, how
    its URI is rewritten, where it connects to and what it opens there.

    Name resolution (see Dns), [Uri::from_parts] and the HTTP exchange itself are
    parameters. *)
From S2P Require Import Prelude Strs Http DiscoveryTypes AgentTypes Filters HttpProxy.

(** * Transports *)

Inductive Transport :=
| Plaintext
| TlsTransport (tls : BackendTLS)
| Hbone (inner : option BackendTLS) (ident : Identity.t).

Definition transport_name (t : Transport) : string :=
  match t with Plaintext => "plaintext" | TlsTransport _ => "tls" | Hbone _ _ => "hbone" end.

(** [From<Option<BackendTLS>>] *)
Definition Transport_from (tls : option BackendTLS) : Transport :=
  match tls with Some c => TlsTransport c | None => Plaintext end.

Definition transport_scheme (t : Transport) : string :=
  match t with
  | Plaintext => HTTP
  | TlsTransport _ => HTTPS
  | Hbone (Some _) _ => HTTPS
  | Hbone None _ => HTTP
  end.

Record Call `{!HeaderMapOps} := { call_req : Request; call_target : Target; call_transport : Transport }.

(** The key of the connection pool. *)
Record PoolKey := {
  pk_target : Target;
  pk_dest : SocketAddr;
  pk_transport : Transport;
  pk_version : Version
}.

(** * Connecting *)

Inductive ServerName := SNIp (ip : IpAddr) | SNDns (name : string).

Inductive Connection :=
| Dial (ep : SocketAddr)
| DialTls (ep : SocketAddr) (tls : BackendTLS) (server_name : ServerName)
| Tunnel (authority : string) (dst : SocketAddr) (ident : Identity.t).

(** The port of the tunnel. *)
Definition HBONE_PORT : N := 15008.

Section connect.
(** [DnsName::try_from] and the text of an address. *)
Context (dns_name : string → option string) (show_addr : SocketAddr → string).

(** [Connector::call]: [pooled] tells whether there is a pool for tunnels. *)
Definition connect (pooled : bool) (k : PoolKey) : comp (result Connection string) :=
  let ep := pk_dest k in
  match pk_transport k with
  | Plaintext => Ret (Ok (Dial ep))
  | TlsTransport config =>
    name ← match pk_target k with
           | TgtAddress _ => Ret (SNIp (sa_ip ep))
           | TgtHostname host _ => name ← expect (dns_name host); Ret (SNDns name)
           end;
    Ret (Ok (DialTls ep config name))
  | Hbone (Some _) _ => Ret (Err "todo: inner TLS is not currently supported")
  | Hbone None identity =>
    Ret (if pooled then Ok (Tunnel (show_addr ep) {| sa_ip := sa_ip ep; sa_port := HBONE_PORT |} identity)
         else Err "hbone pool disabled")
  end.
End connect.

(** * Calls *)

Section calls.
Context `{!HeaderMapOps, !HttpParsers}.
Context (Uri_from_parts : option string → option string → option string → result Uri string).
(** The resolver, and the exchange over a connection of the pool. *)
Context (resolve : string → option IpAddr).
Context (exchange : PoolKey → Request → result Response string).
Context (SYSTEM_TRUST : BackendTLS).

(** The port of the authority is the default one of the scheme. *)
Definition is_default_port (scheme : string) (port : option N) : bool :=
  Str.eqb scheme HTTPS && bool_decide (port = Some 443%N) ||
  Str.eqb scheme HTTP && bool_decide (port = Some 80%N).

(** The URI that is sent: the scheme of the transport, and no default port. *)
Definition call_uri (t : Transport) (uri : Uri) : comp (result Uri string) :=
  let scheme := transport_scheme t in
  authority ← match uri_authority uri with
              | None => Ret None
              | Some a =>
                if is_default_port scheme (uri_port uri)
                then h ← expect (uri_host uri ≫= Authority_try_from); Ret (Some h)
                else Ret (Some a)
              end;
  Ret (Uri_from_parts (Some scheme) authority (uri_path_and_query uri)).

Definition destination_of (t : Target) : result SocketAddr ProxyError :=
  match t with
  | TgtAddress addr => Ok addr
  | TgtHostname hostname port =>
    let? ip := ok_or (resolve hostname) DnsResolution in Ok {| sa_ip := ip; sa_port := port |}
  end.

Definition call (version : Version) (c : Call) : comp (result Response ProxyError) :=
  match destination_of (call_target c) with
  | Err e => Ret (Err e)
  | Ok dest =>
    uri ← call_uri (call_transport c) (req_uri (call_req c));
    Ret (let? uri := map_err Processing uri in
         map_err UpstreamCallFailed
           (exchange {| pk_target := call_target c; pk_dest := dest; pk_transport := call_transport c;
                        pk_version := version |} (with_uri (call_req c) uri)))
  end.

(** [simple_call]: everything from the URI. *)
Definition simple_call (version : Version) (req : Request) : comp (result Response ProxyError) :=
  match uri_host (req_uri req), uri_scheme (req_uri req) with
  | None, _ => Ret (Err (ProcessingString "no hostname set"))
  | Some _, None => Ret (Err (ProcessingString "no scheme set"))
  | Some host, Some scheme =>
    let https := Str.eqb scheme HTTPS in
    let port := default (if https then 443 else 80)%N (uri_port (req_uri req)) in
    call version {| call_req := req; call_target := Target_from host port;
                    call_transport := if https then TlsTransport SYSTEM_TRUST else Plaintext |}
  end.
End calls.

(** * Theorems *)

(** Where a call goes. A call that reaches the network is sent to the address of its
    target (for a name, what the name resolves to, with the target's port), with the
    scheme of its transport and its path; the authority is the request's, without a
    default port. *)
Theorem client_call_destination `{!HeaderMapOps, !HttpParsers} Uri_from_parts resolve
    (exchange : PoolKey → Request → result Response string) version c resp :
  (∀ s a p u, Uri_from_parts s a p = Ok u →
     uri_scheme u = s ∧ uri_authority u = a ∧ uri_path_and_query u = p) →
  (∀ s a, Authority_try_from s = Some a → a = s) →
  call Uri_from_parts resolve exchange version c = Ret (Ok resp) →
  ∃ key uri, exchange key (with_uri (call_req c) uri) = Ok resp ∧
    pk_transport key = call_transport c ∧
    match call_target c with
    | TgtAddress addr => pk_dest key = addr
    | TgtHostname h port => resolve h = Some (sa_ip (pk_dest key)) ∧ sa_port (pk_dest key) = port
    end ∧
    uri_scheme uri = Some (transport_scheme (call_transport c)) ∧
    uri_path_and_query uri = uri_path_and_query (req_uri (call_req c)) ∧
    uri_authority uri =
      match uri_authority (req_uri (call_req c)) with
      | None => None
      | Some a => if is_default_port (transport_scheme (call_transport c)) (uri_port (req_uri (call_req c)))
                  then uri_host (req_uri (call_req c)) else Some a
      end.
Proof.
  intros Hparts Hauth. unfold call.
  destruct (destination_of _ _) as [dest|e] eqn:Hd; [|done].
  unfold call_uri. destruct (match uri_authority _ with None => _ | Some _ => _ end) as [authority|] eqn:Ha; [|done].
  cbn [mbind comp_mbind]. destruct (Uri_from_parts _ _ _) as [uri|e] eqn:Hu; [|done]. cbn.
  destruct (exchange _ _) as [resp'|e] eqn:He; [|done]. intros [= ->].
  apply Hparts in Hu as (Hs & Hua & Hp). eexists _, uri. split; [exact He|]. split; [done|]. split_and!; [|done|done|].
  - unfold destination_of in Hd. destruct (call_target c) as [addr|h port]; [by simplify_eq|].
    destruct (resolve h); by simplify_eq/=.
  - rewrite Hua. destruct (uri_authority (req_uri (call_req c))) as [a|]; [|by simplify_eq].
    destruct (is_default_port _ _); [|by simplify_eq].
    destruct (uri_host (req_uri (call_req c))) as [h|]; [|done]. simpl in Ha.
    destruct (Authority_try_from h) as [a'|] eqn:Ht; [|done]. apply Hauth in Ht as ->. by simplify_eq/=.
Qed.

(** Encryption inside a tunnel is refused, and so is a tunnel without a pool; a tunnel
    goes to the tunnel port of the endpoint and names the endpoint itself. *)
Theorem connect_tunnel dns_name show_addr pooled k inner ident :
  pk_transport k = Hbone inner ident →
  match connect dns_name show_addr pooled k with
  | Ret (Ok c) => inner = None ∧ pooled = true ∧
      c = Tunnel (show_addr (pk_dest k)) {| sa_ip := sa_ip (pk_dest k); sa_port := HBONE_PORT |} ident
  | Ret (Err _) => inner ≠ None ∨ pooled = false
  | Panic => False
  end.
Proof. intros Hk. unfold connect. rewrite Hk. destruct inner, pooled; naive_solver. Qed.

(** ** Examples *)

Module ClientExample.
#[local] Existing Instance gmap_headers.
#[local] Existing Instance example_parsers.

Definition from_parts (s a p : option string) : result Uri string :=
  Ok {| uri_scheme := s; uri_authority := a; uri_path_and_query := p; uri_host := a; uri_port := None;
        uri_path := default "" p; uri_query := None |}.

Definition addr : SocketAddr := {| sa_ip := V4 "addr"; sa_port := 443 |}.
Definition the_call : Call :=
  {| call_req := {| req_method := "GET";
                    req_uri := {| uri_scheme := Some "http"; uri_authority := Some "a.com:443";
                                  uri_path_and_query := Some "/x"; uri_host := Some "a.com";
                                  uri_port := Some 443%N; uri_path := "/x"; uri_query := None |};
                    req_headers := hdr_new; req_body := ""; req_original_url := None |};
     call_target := TgtHostname "a.com" 443; call_transport := TlsTransport {| btls_config := 0%N |} |}.

(** Answers with the address it was sent to. *)
Definition exchange (k : PoolKey) (r : Request) : result Response string :=
  Ok {| resp_status := 200; resp_headers := hdr_new; resp_body := default "" (uri_authority (req_uri r)) |}.

Lemma client_call_destination_witness : ∃ key uri,
  exchange key (with_uri (call_req the_call) uri) =
    Ok {| resp_status := 200; resp_headers := hdr_new; resp_body := "a.com" |} ∧
  uri_authority uri = Some "a.com".
Proof.
  destruct (client_call_destination from_parts (λ _, Some (sa_ip addr)) exchange HTTP_11 the_call
    {| resp_status := 200; resp_headers := hdr_new; resp_body := "a.com" |})
    as (key & uri & He & _ & _ & _ & _ & Hu).
  - intros s a p u [= <-]. done.
  - intros s a [= <-]. done.
  - reflexivity.
  - exists key, uri. split; [exact He|exact Hu].
Defined.
End ClientExample.
