(* ===== verification/Tls.v ===== *)
(** Tls: who a peer of a TLS connection is ([transport/tls.rs]): the identities of a
    certificate, and the verifiers of the names, of the trust domain and of the identity.

    The reading of certificates ([X509Lib]) and the verification of their signatures are
    the libraries'. *)
From S2P Require Import Prelude Strs DiscoveryTypes.

(** * Certificates *)

Inductive GeneralName := URI (uri : string) | OtherName.
(** What is used of a certificate: its validity in seconds and its alternative names. *)
Record X509 := { x_not_before : Z; x_not_after : Z; x_san : result (option (list GeneralName)) string }.

(** [rustls_pemfile::Item]. *)
Inductive Item := Pkcs8Key (key : string) | X509Certificate (der : string) | OtherItem.

Class X509Lib := {
  read_one : string → result (option Item) string;
  read_all : string → list (result Item string);
  from_der : string → result X509 string
}.

Inductive CertificateError :=
  BadEncoding | ApplicationVerificationFailure | NotValidForName | NotValidForNameContext | CertOther (msg : string).
Inductive RustlsError := InvalidCertificate (e : CertificateError) | OtherError (msg : string).

Definition identities (cert : X509) : result (list Identity.t) string :=
  let? names := x_san cert in
  match names with
  | Some names =>
    Ok (omap (λ n, match n with
                   | URI uri => match Identity.from_str uri with Ok id => Some id | Err _ => None end
                   | OtherName => None
                   end) names)
  | None => Ok []
  end.

Definition display_list (ids : list Identity.t) : string := Str.join "," (Identity.fmt <$> ids).

(** * Verifiers *)

Section verifiers.
Context `{!X509Lib}.

Definition mismatch (want got : string) : RustlsError :=
  InvalidCertificate (CertOther
    ("identity verification error: peer did not present the expected trustdomain (" +:+ want +:+ "), got " +:+ got)).

Definition has_trust_domain (want : string) (id : Identity.t) : bool :=
  let 'Identity.Spiffe td _ _ := id in Str.eqb td want.

(** The certificate's identities, with the errors of the verifiers. *)
Definition peer_identities (cert : string) : result (list Identity.t) RustlsError :=
  let? c := map_err (λ _, InvalidCertificate BadEncoding) (from_der cert) in
  map_err (λ _, InvalidCertificate ApplicationVerificationFailure) (identities c).

Definition verify_trust_domain (trust_domain : option string) (client_cert : string) : result () RustlsError :=
  match trust_domain with
  | None => Ok ()
  | Some want =>
    let? ids := peer_identities client_cert in
    match List.find (has_trust_domain want) ids with
    | Some _ => Ok ()
    | None => Err (mismatch want (display_list ids))
    end
  end.

(** [TrustDomainVerifier] over the verifier of chains. *)
Definition verify_client_cert {C} (base : string → list string → N → result C RustlsError) (trust_domain : option string)
    (end_entity : string) (intermediates : list string) (now : N) : result C RustlsError :=
  let? res := base end_entity intermediates now in
  let? _ := verify_trust_domain trust_domain end_entity in
  Ok res.

Fixpoint any_identity (wanted ids : list Identity.t) : bool :=
  match ids with
  | [] => false
  | ident :: ids =>
    match List.find (λ id, bool_decide (id = ident)) wanted with Some _ => true | None => any_identity wanted ids end
  end.

Definition verify_full_san (identity : list Identity.t) (server_cert : string) : result () RustlsError :=
  let? ids := peer_identities server_cert in
  if any_identity identity ids then Ok () else Err (mismatch (display_list identity) (display_list ids)).

(** [IdentityVerifier]: [parse] and [signed] are the library's reading and its verification
    of the chain up to the roots. *)
Definition verify_server_cert {P R} (parse : string → result P RustlsError)
    (signed : P → R → list string → N → result () RustlsError) (roots : R) (identity : list Identity.t)
    (end_entity : string) (intermediates : list string) (now : N) : result () RustlsError :=
  let? cert := parse end_entity in
  let? _ := signed cert roots intermediates now in
  verify_full_san identity end_entity.

(** [NoServerNameVerification] over the verifier of chains and names. *)
Definition verify_without_name (inner : result () RustlsError) : result () RustlsError :=
  match inner with
  | Ok scv => Ok scv
  | Err (InvalidCertificate cert_error) =>
    match cert_error with
    | NotValidForName | NotValidForNameContext => Ok ()
    | _ => Err (InvalidCertificate cert_error)
    end
  | Err e => Err e
  end.

(** * Theorems *)

Lemma peer_identities_spec cert id : (∃ ids, peer_identities cert = Ok ids ∧ id ∈ ids) ↔
  ∃ c names uri, from_der cert = Ok c ∧ x_san c = Ok (Some names) ∧ URI uri ∈ names ∧ Identity.from_str uri = Ok id.
Proof.
  unfold peer_identities, identities. destruct (from_der cert) as [c|]; simpl; [|naive_solver].
  destruct (x_san c) as [[names|]|] eqn:Hsan; simpl.
  - split.
    + intros (ids & [= <-] & (n & Hn & Hid)%list_elem_of_omap). destruct n as [uri|]; [|done].
      destruct (Identity.from_str uri) as [id'|] eqn:E; simpl in Hid; [|done]. injection Hid as ->. by exists c, names, uri.
    + intros (c' & names' & uri & [= <-] & Hs & Hn & Hid). rewrite Hsan in Hs. injection Hs as <-. eexists. split; [done|].
      apply list_elem_of_omap. exists (URI uri). split; [done|]. simpl. by rewrite Hid.
  - split; [by intros (ids & [= <-] & ?%not_elem_of_nil)|].
    intros (c' & names & uri & [= <-] & Hs & _). congruence.
  - split; [by intros (ids & ? & _)|]. intros (c' & names & uri & [= <-] & Hs & _). congruence.
Qed.

Lemma any_identity_spec wanted ids : any_identity wanted ids = true ↔ ∃ id, id ∈ ids ∧ id ∈ wanted.
Proof.
  induction ids as [|i ids IH]; simpl; [split; [done|by intros (id & ?%not_elem_of_nil & _)]|].
  destruct (List.find _ wanted) as [x|] eqn:Hf.
  - apply List.find_some in Hf as [Hx ->%bool_decide_eq_true]. split; [|done]. intros _.
    exists i. split; [by left|by apply list_elem_of_In].
  - rewrite IH. split; [intros (id & ? & ?); exists id; split; [by right|done]|].
    intros (id & [->|Hid]%elem_of_cons & Hw); [|by exists id].
    eapply List.find_none in Hf; [|by apply list_elem_of_In]. by rewrite bool_decide_eq_false in Hf.
Qed.

Lemma verify_full_san_spec wanted cert : verify_full_san wanted cert = Ok () ↔
  ∃ ids id, peer_identities cert = Ok ids ∧ id ∈ ids ∧ id ∈ wanted.
Proof.
  unfold verify_full_san. destruct (peer_identities cert) as [ids|]; simpl; [|naive_solver].
  destruct (any_identity wanted ids) eqn:E.
  - apply any_identity_spec in E as (id & ? & ?). split; [|done]. by exists ids, id.
  - split; [done|]. intros (ids' & id & [= <-] & ? & ?). assert (any_identity wanted ids = true) by (apply any_identity_spec; eauto). congruence.
Qed.

Lemma verify_trust_domain_spec td cert : verify_trust_domain (Some td) cert = Ok () ↔
  ∃ ids id, peer_identities cert = Ok ids ∧ id ∈ ids ∧ has_trust_domain td id = true.
Proof.
  unfold verify_trust_domain. destruct (peer_identities cert) as [ids|]; simpl; [|naive_solver].
  destruct (List.find _ ids) as [x|] eqn:Hf.
  - apply List.find_some in Hf as [?%list_elem_of_In ?]. split; [|done]. by exists ids, x.
  - split; [done|]. intros (ids' & id & [= <-] & Hin%list_elem_of_In & Hid). eapply List.find_none in Hf; [|done]. congruence.
Qed.

(** A peer is who it says. A server is accepted exactly when its certificate can be
    read, is signed by one of the roots, and an URI among its alternative names is an
    identity that is expected; a client, when the chain is accepted and an URI is an
    identity of the trust domain. *)
Theorem tls_peer_verified {P R C} (parse : string → result P RustlsError)
    (signed : P → R → list string → N → result () RustlsError) (base : string → list string → N → result C RustlsError)
    roots wanted td end_entity intermediates now :
  (verify_server_cert parse signed roots wanted end_entity intermediates now = Ok () ↔
     (∃ p, parse end_entity = Ok p ∧ signed p roots intermediates now = Ok ()) ∧
     ∃ c names uri id, from_der end_entity = Ok c ∧ x_san c = Ok (Some names) ∧ URI uri ∈ names ∧
       Identity.from_str uri = Ok id ∧ id ∈ wanted) ∧
  (∀ res, verify_client_cert base (Some td) end_entity intermediates now = Ok res ↔
     base end_entity intermediates now = Ok res ∧
     ∃ c names uri id, from_der end_entity = Ok c ∧ x_san c = Ok (Some names) ∧ URI uri ∈ names ∧
       Identity.from_str uri = Ok id ∧ has_trust_domain td id = true).
Proof.
  assert (∀ Q : Identity.t → Prop, (∃ ids id, peer_identities end_entity = Ok ids ∧ id ∈ ids ∧ Q id) ↔
    ∃ c names uri id, from_der end_entity = Ok c ∧ x_san c = Ok (Some names) ∧ URI uri ∈ names ∧
      Identity.from_str uri = Ok id ∧ Q id) as Hids.
  { intros Q. split.
    - intros (ids & id & Hp & Hin & Hq).
      destruct (proj1 (peer_identities_spec end_entity id)) as (c & names & uri & ? & ? & ? & ?); [by exists ids|].
      by exists c, names, uri, id.
    - intros (c & names & uri & id & ? & ? & ? & ? & Hq).
      destruct (proj2 (peer_identities_spec end_entity id)) as (ids & ? & ?); [by exists c, names, uri|].
      by exists ids, id. }
  split.
  - unfold verify_server_cert. rewrite <-Hids, <-verify_full_san_spec.
    destruct (parse end_entity) as [p|]; simpl; [|split; [done|by intros [(? & ? & _) _]]].
    destruct (signed p roots intermediates now) as [[]|] eqn:Hs; simpl.
    + split; [intros Hv; split; [by exists p|done]|by intros [_ Hv]].
    + split; [done|]. intros [(p' & [= <-] & Hs') _]. congruence.
  - intros res. unfold verify_client_cert. rewrite <-Hids, <-verify_trust_domain_spec.
    destruct (base _ _ _) as [r|]; cbn [and_then]; [|split; [done|by intros [? _]]].
    destruct (verify_trust_domain (Some td) end_entity) as [[]|]; simpl.
    + split; [by intros [= ->]|by intros [? _]].
    + split; [done|by intros [_ ?]].
Qed.
End verifiers.
