(* ===== verification/CaClient.v ===== *)
(** CaClient: the gateway's own identity ([control/caclient.rs]): reading the certificates
    that the authority signs, the state they are kept in, their renewal, and the TLS
    configurations made from them; and how the control plane is reached
    ([control/mod.rs]).

    The authority, the clock and the library of certificates are the environment's.  Times
    are nanoseconds since the epoch. *)
From S2P Require Import Prelude Strs Http DiscoveryTypes AgentTypes Filters Client Tls.

Inductive Error :=
| CaClient (e : string) | CaClientCreation (e : string) | EmptyResponse | Csr (e : string) | InvalidRootCert (e : string)
| CertificateParse (e : string) | Rustls (e : string) | Verifier (e : string) | SanMismatch (expected actual : string)
| Expired | NotReady.

(** * Certificates *)

Record Expiration := { not_before : N; not_after : N }.
Record Certificate := { cert_expiry : Expiration; cert_identity : option Identity.t; der : string }.
Record WorkloadCertificate := {
  roots : list string;
  chain : list Certificate;
  private_key : string;
  expiry : Expiration;
  identity : Identity.t
}.

Definition NANOS : N := 1000000000.
(** A time before the epoch is the epoch. *)
Definition from_secs (t : Z) : N := (Z.to_N t * NANOS)%N.
Definition expiration (cert : X509) : Expiration :=
  {| not_before := from_secs (x_not_before cert); not_after := from_secs (x_not_after cert) |}.

(** The first URI of the certificate. *)
Definition first_uri (names : list GeneralName) : option string :=
  head (omap (λ n, match n with URI uri => Some uri | OtherName => None end) names).
Definition identity_of (cert : X509) : option Identity.t :=
  match x_san cert with
  | Ok (Some names) =>
    san ← first_uri names; match Identity.from_str san with Ok id => Some id | Err _ => None end
  | _ => None
  end.

Section certificates.
Context `{!X509Lib}.

Definition parse_key (key : string) : result string Error :=
  let? parsed := map_err CertificateParse (read_one key) in
  let? parsed := ok_or parsed (CertificateParse "no key") in
  match parsed with Pkcs8Key c => Ok c | _ => Err (CertificateParse "no key") end.

Definition certificate (with_identity : bool) (item : Item) : result Certificate Error :=
  match item with
  | X509Certificate der =>
    let? cert := map_err CertificateParse (from_der der) in
    Ok {| cert_expiry := expiration cert; cert_identity := if with_identity then identity_of cert else None; der := der |}
  | _ => Err (CertificateParse "no certificate")
  end.

Definition parse_cert (cert : string) : result Certificate Error :=
  let? parsed := map_err CertificateParse (read_one cert) in
  let? parsed := ok_or parsed (CertificateParse "no certificate") in
  certificate true parsed.

Definition parse_cert_multi (cert : string) : result (list Certificate) Error :=
  let? parsed := map_err CertificateParse (try_map (λ r, r) (read_all cert)) in
  try_map (certificate false) parsed.

(** [parsable] are the roots that the store takes. *)
Definition WorkloadCertificate_new (parsable : string → bool) (key cert : string) (chain : list string)
    : result WorkloadCertificate Error :=
  let? cert := parse_cert cert in
  let? identity := ok_or (cert_identity cert) (CertificateParse "to identity found") in
  let? raw_root := ok_or (last chain) (InvalidRootCert "no root certificate present") in
  let? key := parse_key key in
  let? roots := parse_cert_multi raw_root in
  let? chains := try_map parse_cert (take (length chain - 1) chain) in
  Ok {| roots := filter (λ d, parsable d = true) (der <$> roots); expiry := cert_expiry cert; private_key := key;
        chain := cert :: chains; identity := identity |}.
End certificates.

Definition is_expired (now : N) (self : WorkloadCertificate) : bool := bool_decide (not_after (expiry self) < now)%N.

Definition refresh_at (self : WorkloadCertificate) : N :=
  let nb := not_before (expiry self) in
  let na := not_after (expiry self) in
  if decide (nb ≤ na)%N then (nb + (na - nb) / 2)%N else na.

(** ** TLS configurations *)

(** A client's configuration: who is accepted, and what is shown. *)
Record ClientTls := {
  ct_roots : list string;
  ct_accepts : list Identity.t;
  ct_chain : list string;
  ct_key : string;
  ct_alpn : list string;
  ct_sni : bool
}.
Record ServerTls := { st_roots : list string; st_trust_domain : option string; st_chain : list string; st_key : string }.

Section mtls.
(** Whether a chain and a key can be used, and a store of roots. *)
Context (auth_cert : list string → string → result () string) (build : list string → result () string).

Definition mtls (alpn : string) (sni : bool) (self : WorkloadCertificate) (accepts : list Identity.t) : result ClientTls Error :=
  let? _ := map_err Rustls (auth_cert (der <$> chain self) (private_key self)) in
  Ok {| ct_roots := roots self; ct_accepts := accepts; ct_chain := der <$> chain self; ct_key := private_key self;
        ct_alpn := [alpn]; ct_sni := sni |}.
Definition legacy_mtls : WorkloadCertificate → list Identity.t → result ClientTls Error := mtls "istio" true.
Definition hbone_mtls : WorkloadCertificate → list Identity.t → result ClientTls Error := mtls "h2" false.

Definition hbone_termination (self : WorkloadCertificate) : result ServerTls Error :=
  let 'Identity.Spiffe trust_domain _ _ := identity self in
  let? _ := map_err Verifier (build (roots self)) in
  let? _ := map_err Rustls (auth_cert (der <$> chain self) (private_key self)) in
  Ok {| st_roots := roots self; st_trust_domain := Some trust_domain; st_chain := der <$> chain self;
        st_key := private_key self |}.
End mtls.

(** * The client of the authority *)

Inductive CertificateState := StNotReady | Available (cert : WorkloadCertificate) | StError (e : Error).

(** What the environment does in a fetch: the connection, the key and the request, and the
    answer to it. *)
Record Fetch := {
  f_connector : result () string;
  f_csr : result (string * string) string;
  f_create : string → result (list string) string
}.

Section client.
Context `{!X509Lib} (parsable : string → bool).
(** The identity of the configuration. *)
Context (config_identity : Identity.t).

(** [fetch_and_update_certificate]: the certificate that becomes available. *)
Definition fetch_certificate (f : Fetch) : result WorkloadCertificate Error :=
  let? _ := map_err CaClientCreation (f_connector f) in
  let? csr := map_err Csr (f_csr f) in
  let? cert_chain := map_err CaClient (f_create f (fst csr)) in
  match cert_chain with
  | [] => Err EmptyResponse
  | leaf_cert :: chain_certs =>
    let? cert := WorkloadCertificate_new parsable (snd csr) leaf_cert chain_certs in
    if decide (identity cert = config_identity) then Ok cert
    else Err (SanMismatch (Identity.fmt config_identity) (Identity.fmt (identity cert)))
  end.

(** The state after a fetch, with the failure as its caller stores it. *)
Definition fetch_and_update (f : Fetch) : CertificateState :=
  match fetch_certificate f with Ok cert => Available cert | Err e => StError e end.

Definition should_renew (now : N) (state : CertificateState) : bool :=
  match state with
  | Available cert => bool_decide (refresh_at cert ≤ now)%N
  | StError _ | StNotReady => true
  end.

(** A round of the loop of [run_fetcher]. *)
Definition tick (now : N) (f : Fetch) (state : CertificateState) : CertificateState :=
  if should_renew now state then fetch_and_update f else state.

(** [run_fetcher]: the state after a first fetch and the rounds so far; before, there is
    none. *)
Definition run_fetcher (first : Fetch) (ticks : list (N * Fetch)) : CertificateState :=
  foldl (λ state '(now, f), tick now f state) (fetch_and_update first) ticks.

(** [get_identity] in a state; [None] when it waits for another. *)
Definition get_identity (now : N) (state : CertificateState) : option (result WorkloadCertificate Error) :=
  match state with
  | Available cert => Some (if negb (is_expired now cert) then Ok cert else Err Expired)
  | StError err => Some (Err err)
  | StNotReady => None
  end.
End client.

(** * Reaching the control plane *)

Inductive AuthSource := Token (path cluster_id : string) | StaticToken (token cluster_id : string) | AuthNone.

Section control.
Context `{!HeaderMapOps} (HeaderValue_from_bytes : string → option string) (read : string → result string string).

Definition load_token (path : string) : result string string :=
  let? t := read path in
  if Str.eqb t "" then Err "token file exists, but was empty" else Ok t.

(** The headers so far are kept when a value is refused. *)
Definition insert_auth (token cluster_id : string) (h : HeaderMap) : HeaderMap * result () string :=
  match HeaderValue_from_bytes ("Bearer " +:+ token) with
  | None => (h, Err "failed to parse header value")
  | Some hv =>
    let h := hdr_insert h "authorization" hv in
    match HeaderValue_from_bytes cluster_id with
    | None => (h, Err "failed to parse header value")
    | Some v => (hdr_insert h "clusterid" v, Ok ())
    end
  end.

Definition insert_headers (self : AuthSource) (h : HeaderMap) : HeaderMap * result () string :=
  match self with
  | Token path cluster_id =>
    match load_token path with Ok t => insert_auth t cluster_id h | Err e => (h, Err e) end
  | StaticToken token cluster_id => insert_auth token cluster_id h
  | AuthNone => (h, Ok ())
  end.

(** [get_target] of a URI that was parsed. *)
Definition get_target (parse : string → result Uri string) (raw : string) (ca : BackendTLS) : result (Target * Transport) string :=
  let? uri := parse raw in
  let? authority := ok_or (uri_authority uri) "URI must have authority" in
  let? target := map_err (λ _, "invalid target") (Target_try_from authority) in
  match uri_scheme uri with
  | Some s =>
    if Str.eqb s "http" then Ok (target, Plaintext)
    else if Str.eqb s "https" then Ok (target, TlsTransport ca)
    else Err ("Unsupported scheme: " +:+ s)
  | None => Err "Unsupported scheme: none"
  end.
End control.

(** * Theorems *)

Section theorems.
Context `{!X509Lib}.

Lemma first_uri_elem names uri : first_uri names = Some uri → URI uri ∈ names.
Proof.
  unfold first_uri. intros Hh. assert (uri ∈ omap (λ n, match n with URI uri => Some uri | OtherName => None end) names) as Hin
    by (destruct (omap _ names); [done|]; injection Hh as ->; by left).
  apply list_elem_of_omap in Hin as (n & Hn & Hu). destruct n; by simplify_eq.
Qed.

Lemma identity_of_identities cert id : identity_of cert = Some id → ∃ ids, identities cert = Ok ids ∧ id ∈ ids.
Proof.
  unfold identity_of, identities. destruct (x_san cert) as [[names|]|]; [|done..]. simpl.
  destruct (first_uri names) as [uri|] eqn:Hu; [|done]. simpl.
  destruct (Identity.from_str uri) as [id'|] eqn:Hid; [|done]. intros [= ->]. eexists. split; [done|].
  apply list_elem_of_omap. exists (URI uri). split; [by apply first_uri_elem|]. simpl. by rewrite Hid.
Qed.

(** The leaf of a certificate: what it was read from. *)
Lemma parse_cert_ok s c : parse_cert s = Ok c →
  ∃ x, from_der (der c) = Ok x ∧ cert_expiry c = expiration x ∧ cert_identity c = identity_of x.
Proof.
  unfold parse_cert, certificate. destruct (read_one s) as [[[| |]|]|]; simpl; try done.
  destruct (from_der der0) as [x|] eqn:Hx; simpl; [|done]. intros [= <-]. by exists x.
Qed.

Lemma WorkloadCertificate_new_ok parsable key cert chain0 w :
  WorkloadCertificate_new parsable key cert chain0 = Ok w →
  ∃ leaf rest, parse_cert cert = Ok leaf ∧ chain w = leaf :: rest ∧ length rest = length chain0 - 1 ∧
    cert_identity leaf = Some (identity w) ∧ expiry w = cert_expiry leaf ∧ parse_key key = Ok (private_key w).
Proof.
  unfold WorkloadCertificate_new. destruct (parse_cert cert) as [leaf|] eqn:Hl; simpl; [|done].
  destruct (cert_identity leaf) as [id|] eqn:Hid; simpl; [|done].
  destruct (last chain0) as [root|]; simpl; [|done]. destruct (parse_key key) as [k|] eqn:Hk; simpl; [|done].
  destruct (parse_cert_multi root) as [rs|]; simpl; [|done].
  destruct (try_map parse_cert _) as [cs|] eqn:Hc; simpl; [|done]. intros [= <-]. exists leaf, cs. simpl.
  apply try_map_Ok, Forall2_length in Hc. rewrite length_take in Hc. split_and!; try done. lia.
Qed.

Context (parsable : string → bool) (config_identity : Identity.t).
Abbreviation run := (run_fetcher parsable config_identity).

Lemma fetch_certificate_ok f w : fetch_certificate parsable config_identity f = Ok w →
  identity w = config_identity ∧ ∃ csr key leaf rest chains, f_csr f = Ok (csr, key) ∧ parse_key key = Ok (private_key w) ∧
    f_create f csr = Ok (leaf :: rest) ∧ parse_cert leaf = Ok chains ∧
    head (chain w) = Some chains ∧ cert_identity chains = Some config_identity ∧ expiry w = cert_expiry chains.
Proof.
  unfold fetch_certificate. destruct (f_connector f); simpl; [|done].
  destruct (f_csr f) as [[csr key]|]; simpl; [|done].
  destruct (f_create f csr) as [[|leaf rest]|] eqn:Hc; simpl; try done.
  destruct (WorkloadCertificate_new parsable key leaf rest) as [w'|] eqn:Hw; simpl; [|done].
  destruct (decide _) as [Hi|]; [|done]. intros [= ->]. split; [done|].
  apply WorkloadCertificate_new_ok in Hw as (lc & cs & Hl & Hch & _ & Hid & He & Hk).
  exists csr, key, leaf, rest, lc. rewrite Hch, Hid, Hi. done.
Qed.

Lemma fetch_and_update_available f w : fetch_and_update parsable config_identity f = Available w →
  fetch_certificate parsable config_identity f = Ok w.
Proof. unfold fetch_and_update. destruct (fetch_certificate _ _ f); by intros [= ->]. Qed.

Lemma run_fetcher_snoc first ticks now f :
  run first (ticks ++ [(now, f)]) = tick parsable config_identity now f (run first ticks).
Proof. unfold run_fetcher. by rewrite foldl_app. Qed.

(** The last fetch that was made: in the rounds after it the certificate was not due. *)
Definition last_fetch (first : Fetch) (ticks : list (N * Fetch)) (w : WorkloadCertificate) (f : Fetch) : Prop :=
  ∃ before later, first :: ticks.*2 = before ++ f :: later.*2 ∧ later `suffix_of` ticks ∧
    Forall (λ tf, should_renew tf.1 (Available w) = false) later.

(** The certificate that is available comes from the last fetch. *)
Lemma run_fetcher_available first ticks w : run first ticks = Available w →
  ∃ f, last_fetch first ticks w f ∧ fetch_certificate parsable config_identity f = Ok w.
Proof.
  induction ticks as [|[now f] ticks IH] using rev_ind.
  - intros Hw%fetch_and_update_available. exists first. split; [|done]. exists [], []. split_and!; [done..|constructor].
  - rewrite run_fetcher_snoc. unfold tick. destruct (should_renew _ _) eqn:Hn.
    + intros Hw%fetch_and_update_available. exists f. split; [|done]. exists (first :: ticks.*2), [].
      rewrite fmap_app. split_and!; [done|by apply suffix_nil|constructor].
    + intros Hrun. rewrite Hrun in Hn. destruct (IH Hrun) as (f' & (before & later & Heq & [k ->] & Hl) & Hw). exists f'.
      split; [|done]. exists before, (later ++ [(now, f)]). split_and!.
      * rewrite !fmap_app. rewrite fmap_app in Heq. by rewrite app_comm_cons, Heq, <-app_assoc.
      * exists k. by rewrite app_assoc.
      * apply Forall_app. split; [done|]. by constructor.
Qed.

(** C24: the identity the gateway shows is its own. A certificate that a request gets,
    at any time in the life of the fetcher, has not expired, names the configured
    identity and comes from the last fetch that was made: what the configuration for
    tunnels shows first is the first certificate of the authority's answer to that
    fetch's signing request, and its key is the key that was made with this request.
    Peers that expect the identity accept the certificate shown. *)
Theorem ca_identity first ticks now w auth_cert accepts tls :
  get_identity now (run first ticks) = Some (Ok w) → hbone_mtls auth_cert w accepts = Ok tls →
  (now ≤ not_after (expiry w))%N ∧ identity w = config_identity ∧
  ct_roots tls = roots w ∧ ct_accepts tls = accepts ∧ ct_sni tls = false ∧
  ∃ f csr key answer rest leaf, last_fetch first ticks w f ∧
    f_csr f = Ok (csr, key) ∧ parse_key key = Ok (ct_key tls) ∧
    f_create f csr = Ok (answer :: rest) ∧ parse_cert answer = Ok leaf ∧ head (ct_chain tls) = Some (der leaf) ∧
    verify_full_san [config_identity] (der leaf) = Ok () ∧
    (let 'Identity.Spiffe td _ _ := config_identity in verify_trust_domain (Some td) (der leaf) = Ok ()).
Proof.
  unfold get_identity. destruct (run first ticks) as [|w'|] eqn:Hr; [done| |done].
  unfold is_expired. destruct (bool_decide _) eqn:He; simpl; [done|]. intros [= ->]. apply bool_decide_eq_false in He.
  unfold hbone_mtls, mtls. destruct (auth_cert _ _); simpl; [|done]. intros [= <-]. simpl.
  apply run_fetcher_available in Hr as (f & Hf & (Hi & csr & key & leaf & rest & lc & Hcsr & Hk & Hcr & Hp & Hh & Hid & Hex)%fetch_certificate_ok).
  split_and!; [lia|done..|]. exists f, csr, key, leaf, rest, lc. split_and!; [done..| | |].
  - destruct (chain w); [done|]. by injection Hh as ->.
  - apply parse_cert_ok in Hp as (x & Hx & _ & Hid'). rewrite Hid' in Hid.
    apply identity_of_identities in Hid as (ids & Hids & Hin). apply verify_full_san_spec.
    exists ids, config_identity. split_and!; [|done|by left]. unfold peer_identities. rewrite Hx. simpl. by rewrite Hids.
  - apply parse_cert_ok in Hp as (x & Hx & _ & Hid'). rewrite Hid' in Hid.
    apply identity_of_identities in Hid as (ids & Hids & Hin).
    assert (peer_identities (der lc) = Ok ids) as Hpeer by (unfold peer_identities; rewrite Hx; simpl; by rewrite Hids).
    destruct config_identity as [td ns sa] eqn:E. apply verify_trust_domain_spec. eexists ids, _. split_and!; [done|done|].
    simpl. by apply Str.eqb_eq.
Qed.

(** [period] is the time between two rounds: what a fetch at [now] has to give. *)
Definition good_fetch (period now : N) (f : Fetch) : Prop :=
  ∃ w, fetch_certificate parsable config_identity f = Ok w ∧ (now + period ≤ not_after (expiry w))%N ∧
    (not_before (expiry w) + 2 * period ≤ not_after (expiry w))%N.

(** A certificate that is not renewed lasts for another period. *)
Lemma not_renewed_lasts period now w :
  (not_before (expiry w) + 2 * period ≤ not_after (expiry w))%N → should_renew now (Available w) = false →
  (now + period ≤ not_after (expiry w))%N.
Proof.
  unfold should_renew, refresh_at. intros Hlong Hn%bool_decide_eq_false. rewrite decide_True in Hn by lia.
  pose proof (N.Div0.mul_div_le (not_after (expiry w) - not_before (expiry w)) 2).
  pose proof (N.div_le_lower_bound (not_after (expiry w) - not_before (expiry w)) 2 period). lia.
Qed.

(** A working authority keeps the certificate valid. When every fetch gives a certificate
    that lasts for two periods and is good for one more, then from the first fetch on, at
    any time up to a period after the last round, a request gets a certificate. *)
Theorem ca_never_expires period t0 first ticks :
  good_fetch period t0 first → Forall (λ tf, good_fetch period tf.1 tf.2) ticks →
  ∀ now, (now ≤ default t0 (last ticks.*1) + period)%N →
  ∃ w, get_identity now (run first ticks) = Some (Ok w).
Proof.
  intros Hfirst Hticks.
  assert (∃ w, run first ticks = Available w ∧ (not_before (expiry w) + 2 * period ≤ not_after (expiry w))%N ∧
    (default t0 (last ticks.*1) + period ≤ not_after (expiry w))%N) as (w & Hw & _ & Hlast).
  { induction ticks as [|[now f] ticks IH] using rev_ind.
    - destruct Hfirst as (w & Hf & Hnow & Hlong). exists w. unfold run_fetcher, fetch_and_update. simpl. by rewrite Hf.
    - apply Forall_app in Hticks as [Hticks [Hf _]%Forall_cons]. destruct (IH Hticks) as (w & Hw & Hlong & _).
      rewrite run_fetcher_snoc, fmap_app, Hw. simpl. rewrite last_snoc. simpl. unfold tick.
      destruct (should_renew now (Available w)) eqn:Hr.
      + destruct Hf as (w' & Hf & Hnow & Hlong'). simpl in Hf. exists w'. unfold fetch_and_update. by rewrite Hf.
      + exists w. split_and!; [done|done|]. by apply not_renewed_lasts. }
  intros now Hnow. exists w. rewrite Hw. unfold get_identity, is_expired. rewrite bool_decide_eq_false_2 by lia. done.
Qed.

(** A renewal that fails takes a valid certificate away. From the middle of its validity
    on a certificate is renewed; when the authority then answers with an error, requests
    fail with that error until a later fetch succeeds, although the certificate they had
    is still valid. *)
Theorem ca_failed_renewal now f e w later :
  (refresh_at w ≤ now)%N → (now ≤ not_after (expiry w))%N → fetch_certificate parsable config_identity f = Err e →
  Forall (λ tf, is_Some (match fetch_certificate parsable config_identity tf.2 with Err e => Some e | Ok _ => None end)) later →
  get_identity now (Available w) = Some (Ok w) ∧
  ∀ t, ∃ e', get_identity t (foldl (λ st '(now, f), tick parsable config_identity now f st)
                              (tick parsable config_identity now f (Available w)) later) = Some (Err e').
Proof.
  intros Hr Hn Hf Hlater. split.
  - unfold get_identity, is_expired. by rewrite bool_decide_eq_false_2 by lia.
  - intros t. assert (tick parsable config_identity now f (Available w) = StError e) as ->.
    { unfold tick, should_renew, fetch_and_update. by rewrite bool_decide_eq_true_2, Hf. }
    clear Hf Hr Hn. revert e. induction later as [|[n f'] later IH]; intros e; simpl; [by exists e|].
    apply Forall_cons in Hlater as [[e' He] Hlater]. unfold tick at 2. simpl. unfold fetch_and_update.
    simpl in He. destruct (fetch_certificate _ _ f'); [done|]. by apply IH.
Qed.
End theorems.

(** * A certificate and its renewal *)

Module CaExample.
Definition id : Identity.t := Identity.Spiffe "td" "ns" "sa".
(** Texts are their own contents; a certificate is valid from 0 to 100 seconds. *)
Definition lib : X509Lib := {|
  read_one s := Ok (Some (if Str.starts_with "key" s then Pkcs8Key s else X509Certificate s));
  read_all s := [Ok (X509Certificate s)];
  from_der s := Ok {| x_not_before := 0; x_not_after := 100; x_san := Ok (Some [URI "spiffe://td/ns/ns/sa/sa"]) |}
|}.
#[local] Existing Instance lib.

Definition parsable (_ : string) : bool := true.
Definition fetch : Fetch :=
  {| f_connector := Ok (); f_csr := Ok ("csr", "key"); f_create := λ _, Ok ["leaf"; "root"] |}.
Definition failing : Fetch := {| f_connector := Err "down"; f_csr := Ok ("csr", "key"); f_create := λ _, Err "down" |}.
Definition cert : WorkloadCertificate :=
  {| roots := ["root"];
     chain := [{| cert_expiry := {| not_before := 0; not_after := 100000000000 |}; cert_identity := Some id; der := "leaf" |}];
     private_key := "key"; expiry := {| not_before := 0; not_after := 100000000000 |}; identity := id |}.
Definition auth_cert (_ : list string) (_ : string) : result () string := Ok ().
Definition tls : ClientTls :=
  {| ct_roots := ["root"]; ct_accepts := [id]; ct_chain := ["leaf"]; ct_key := "key"; ct_alpn := ["h2"]; ct_sni := false |}.

(** A renewal with a new key, and a round that does not renew: the certificate and the
    key are those of the second fetch. *)
Definition renewed : Fetch :=
  {| f_connector := Ok (); f_csr := Ok ("csr2", "key2");
     f_create := λ csr, if Str.eqb csr "csr2" then Ok ["leaf2"; "root"] else Err "denied" |}.
Definition ticks : list (N * Fetch) := [(60000000000%N, renewed); (40000000000%N, fetch)].
Definition cert2 : WorkloadCertificate :=
  {| roots := ["root"];
     chain := [{| cert_expiry := {| not_before := 0; not_after := 100000000000 |}; cert_identity := Some id; der := "leaf2" |}];
     private_key := "key2"; expiry := {| not_before := 0; not_after := 100000000000 |}; identity := id |}.
Definition tls2 : ClientTls :=
  {| ct_roots := ["root"]; ct_accepts := [id]; ct_chain := ["leaf2"]; ct_key := "key2"; ct_alpn := ["h2"]; ct_sni := false |}.

Lemma ca_identity_witness :
  identity cert2 = id ∧
  ∃ f csr key answer rest leaf, last_fetch fetch ticks cert2 f ∧ f_csr f = Ok (csr, key) ∧ parse_key key = Ok "key2" ∧
    f_create f csr = Ok (answer :: rest) ∧ parse_cert answer = Ok leaf ∧ Some "leaf2" = Some (der leaf) ∧
    verify_full_san [id] (der leaf) = Ok ().
Proof.
  destruct (ca_identity parsable id fetch ticks 61000000000%N cert2 auth_cert [id] tls2)
    as (_ & Hi & _ & _ & _ & f & csr & key & answer & rest & leaf & Hf & Hcsr & Hk & Ha & Hp & Hh & Hv & _);
    [vm_compute; reflexivity|reflexivity|]. split; [exact Hi|]. exists f, csr, key, answer, rest, leaf.
  split; [exact Hf|]. split; [exact Hcsr|]. split; [exact Hk|]. split; [exact Ha|]. split; [exact Hp|].
  split; [exact Hh|exact Hv].
Defined.

(** A round every 30 seconds. *)
Lemma ca_never_expires_witness : ∃ w, get_identity 60000000000%N (run_fetcher parsable id fetch [(40000000000%N, fetch)]) = Some (Ok w).
Proof.
  assert (good_fetch parsable id 30000000000 0 fetch ∧ good_fetch parsable id 30000000000 40000000000 fetch) as [H0 H1]
    by (split; exists cert; (split; [reflexivity|]); simpl; lia).
  apply (ca_never_expires parsable id 30000000000%N 0%N fetch [(40000000000%N, fetch)] H0); [|simpl; lia].
  by repeat constructor.
Defined.

Lemma ca_failed_renewal_witness : get_identity 60000000000%N (Available cert) = Some (Ok cert) ∧
  ∃ e, get_identity 60000000000%N (tick parsable id 60000000000%N failing (Available cert)) = Some (Err e).
Proof.
  destruct (ca_failed_renewal parsable id 60000000000%N failing (CaClientCreation "down") cert []) as [H1 H2];
    [by vm_compute|simpl; lia|reflexivity|done|].
  split; [exact H1|]. apply (H2 60000000000%N).
Defined.
End CaExample.
