(* ===== verification/Config.v ===== *)
(** Config: the static configuration ([config.rs], [lib.rs]): each setting from an
    environment variable, else from the file, else its default; the address of a server
    ([Address]); and the identity that the gateway reports ([ProxyMetadata]).

    The environment, the file system, the number of CPUs, the configuration of the resolver
    and the parsers of other packages (YAML, URIs, durations, expressions) are parameters.
    Durations are in nanoseconds. *)
From Stdlib Require Import SpecFloat.
From S2P Require Import Prelude Strs StdText IpParse DiscoveryTypes Http AgentTypes Cel AccessLog CaClient.

(** * Addresses of servers ([Address]) *)

Inductive Address := Localhost (ipv6_enabled : bool) (port : N) | SocketAddress (s : SocketAddr).

Definition Address_to_string (self : Address) : string :=
  match self with
  | Localhost _ port => "localhost:" +:+ Str.display_nat port
  | SocketAddress s => SocketAddr_to_string s
  end.

Definition ipv4_localhost : IpAddr := V4 (group (127 * 256) +:+ group 1).
Definition ipv6_localhost : IpAddr := V6 (zero_groups 7 +:+ group 1).
Definition ipv4_unspecified : IpAddr := V4 (zero_groups 2).
Definition ipv6_unspecified : IpAddr := V6 (zero_groups 8).

Definition into_iter (self : Address) : list SocketAddr :=
  match self with
  | Localhost ipv6_enabled port =>
    if ipv6_enabled then [{| sa_ip := ipv4_localhost; sa_port := port |}; {| sa_ip := ipv6_localhost; sa_port := port |}]
    else [{| sa_ip := ipv4_localhost; sa_port := port |}]
  | SocketAddress s => [s]
  end.

Definition Address_new (ipv6_enabled : bool) (s : string) : comp (result Address string) :=
  if Str.starts_with "localhost:" s then
    '(_, ports) ← expect (Str.split_once ":" s);
    Ret (let? port := uint_from_str U16_MAX ports in Ok (Localhost ipv6_enabled port))
  else Ret (let? a := ok_or (parse_socket_addr s) "invalid socket address syntax" in Ok (SocketAddress a)).

Definition Address_port (self : Address) : N :=
  match self with Localhost _ port => port | SocketAddress s => sa_port s end.

Definition with_ipv6 (ipv6 : bool) (self : Address) : Address :=
  match self with Localhost _ port => Localhost ipv6 port | x => x end.

Definition maybe_downgrade_ipv6 (updated_v6 : bool) (self : Address) : Address :=
  match self with Localhost true port => Localhost updated_v6 port | x => x end.

(** * The file *)

Record RawHTTP2 := {
  h2_window_size : option N;
  h2_connection_window_size : option N;
  h2_frame_size : option N;
  h2_pool_max_streams_per_conn : option N;
  h2_pool_unused_release_timeout : option N
}.
(** [add] keeps the order of the file, each key once. *)
Record RawLoggingFields := { raw_remove : list string; raw_add : list (string * string) }.
Record RawTracing := { otlp_endpoint : string; tracing_fields : option RawLoggingFields }.
Record RawLogging := { raw_filter : option string; logging_fields : option RawLoggingFields }.

Record RawConfig := {
  raw_enable_ipv6 : option bool;
  raw_local_xds_path : option string;
  raw_ca_address : option string;
  raw_xds_address : option string;
  raw_namespace : option string;
  raw_gateway : option string;
  raw_trust_domain : option string;
  raw_service_account : option string;
  raw_cluster_id : option string;
  raw_network : option string;
  raw_admin_addr : option string;
  raw_stats_addr : option string;
  raw_readiness_addr : option string;
  raw_auth_token : option string;
  raw_connection_termination_deadline : option N;
  raw_connection_min_termination_deadline : option N;
  raw_worker_threads : option string;
  raw_tracing : option RawTracing;
  raw_logging : option RawLogging;
  raw_http2 : option RawHTTP2
}.
Definition RawConfig_default : RawConfig :=
  Build_RawConfig None None None None None None None None None None None None None None None None None None None None.

(** * The configuration *)

Inductive ConfigSource := CfgFile (path : string) | CfgStatic (data : string).
Record XDSConfig := { x_address : option string; x_namespace : string; x_gateway : string; x_local_config : option ConfigSource }.
Inductive ThreadingMode := Multithreaded | ThreadPerCore.
Inductive RootCert := RootFile (path : string) | RootStatic (data : string) | RootDefault.
(** [caclient::Config] *)
Record CaConfig := {
  ca_addr : string; ca_secret_ttl : N; ca_identity : Identity.t; ca_auth : AuthSource; ca_root : RootCert
}.
(** [agent_hbone::Config] *)
Record HboneConfig := {
  window_size : N; connection_window_size : N; frame_size : N; pool_max_streams_per_conn : N; pool_unused_release_timeout : N
}.
Record ProxyMetadata := {
  pm_instance_ip : string; pm_pod_name : string; pm_pod_namespace : string; pm_node_name : string; pm_role : string;
  pm_node_id : string
}.
(** [trc::Config] *)
Record TracingConfig := { trc_endpoint : option string; trc_fields : LoggingFields }.

Record Config (Dns : Type) := mkConfig {
  network : string;
  termination_max_deadline : N;
  termination_min_deadline : N;
  num_worker_threads : N;
  admin_addr : Address;
  stats_addr : Address;
  readiness_addr : Address;
  self_addr : option string;
  hbone : HboneConfig;
  xds : XDSConfig;
  ca : option CaConfig;
  tracing : TracingConfig;
  logging : AccessLog.Config;
  dns : Dns;
  proxy_metadata : ProxyMetadata;
  threading_mode : ThreadingMode
}.
Arguments mkConfig {_}.
Arguments network {_}.
Arguments termination_max_deadline {_}.
Arguments termination_min_deadline {_}.
Arguments num_worker_threads {_}.
Arguments admin_addr {_}.
Arguments stats_addr {_}.
Arguments readiness_addr {_}.
Arguments self_addr {_}.
Arguments hbone {_}.
Arguments xds {_}.
Arguments ca {_}.
Arguments tracing {_}.
Arguments logging {_}.
Arguments dns {_}.
Arguments proxy_metadata {_}.
Arguments threading_mode {_}.

Definition secs (n : N) : N := (n * 1000000000)%N.
Definition MIB : N := 1048576.

(** [a.or(b)] *)
Definition or {A} (a b : option A) : option A := match a with Some _ => a | None => b end.

Definition empty_to_none (inp : option string) : option string :=
  match inp with Some s => if Str.is_empty s then None else inp | None => None end.

Section config.
(** [env::var], [Path::exists], what [/proc] says of IPv6 on the loopback, [num_cpus::get]. *)
Context (var : string → option string) (exists_ : string → bool) (read_sysctl : result string string) (num_cpus : N).
(** [duration_str::parse], [http::Uri::try_from] as the scheme of the URI, the parser of expressions. *)
Context (parse_duration_str : string → result N string) (uri_scheme_of : string → result (option string) string).
Context (cel_parse : string → option CelExpression).
(** [yamlviajson::from_str] of [NestedRawConfig], [read_system_conf]. *)
Context {Dns : Type} (from_yaml : string → result (option RawConfig) string) (read_system_conf : result Dns string).
(** Whether the build checks arithmetic. *)
Context (overflow_checks : bool).

(** [parse], given [FromStr]. *)
Definition parse {A} (from_str : string → result A string) (env : string) : result (option A) string :=
  match var env with
  | Some val =>
    match from_str val with
    | Ok v => Ok (Some v)
    | Err e => Err ("invalid env var " +:+ env +:+ "=" +:+ val +:+ " (" +:+ e +:+ ")")
    end
  | None => Ok None
  end.
Definition parse_string : string → result (option string) string := parse Ok.
Definition parse_default {A} (from_str : string → result A string) (env : string) (dflt : A) : result A string :=
  let? v := parse from_str env in Ok (default dflt v).

Definition parse_duration (env : string) : result (option N) string :=
  let? ds := parse_string env in
  match ds with
  | Some ds =>
    match parse_duration_str ds with
    | Ok d => Ok (Some d)
    | Err e => Err ("invalid env var " +:+ env +:+ "=" +:+ ds +:+ " (" +:+ e +:+ ")")
    end
  | None => Ok None
  end.

Definition validate_uri (uri_str : option string) : result (option string) string :=
  match uri_str with
  | None => Ok None
  | Some s =>
    let? scheme := uri_scheme_of s in
    match scheme with None => Ok (Some ("https://" +:+ s)) | Some _ => Ok (Some s) end
  end.

Definition get_cpu_count : result N string :=
  let? limit := parse (uint_from_str U64_MAX) "CPU_LIMIT" in
  match limit with Some limit => Ok limit | None => Ok num_cpus end.

Definition f64_hundred : spec_float := f64_of_uint 100.

Definition parse_worker_threads : result N string :=
  let? value := parse_string "WORKER_THREADS" in
  match value with
  | Some value =>
    match Str.strip_suffix "%" value with
    | Some percent_str =>
      let? percent := map_err (λ e, "invalid percentage: " +:+ e) (f64_from_str percent_str) in
      if SFleb percent (S754_zero false) || SFltb f64_hundred percent then Err "percentage must be between 0 and 100"
      else
        let? cpu_count := get_cpu_count in
        Ok (N.max (ceil_as_uint U64_MAX (SFdiv 53 1024 (SFmul 53 1024 (f64_of_uint cpu_count) percent) f64_hundred)) 1)
    | None => map_err (λ e, "invalid number: " +:+ e) (uint_from_str U64_MAX value)
    end
  | None => get_cpu_count
  end.

(** ** Parts of [parse_config], in its order *)

Definition ipv6_enabled_on_localhost : result bool string :=
  let? s := read_sysctl in Ok (negb (Str.eqb (trim s) "1")).

(** Whether IPv6 is enabled, and on the loopback. *)
Definition parse_ipv6 (raw : RawConfig) : result (bool * bool) string :=
  let? v := parse bool_from_str "IPV6_ENABLED" in
  let ipv6_enabled := default true (or v (raw_enable_ipv6 raw)) in
  Ok (ipv6_enabled,
      if ipv6_enabled then match ipv6_enabled_on_localhost with Ok b => b | Err _ => true end else false).

Definition parse_xds (raw : RawConfig) (local_config : option ConfigSource) : result XDSConfig string :=
  let? address := parse_string "XDS_ADDRESS" in
  let? address := validate_uri (or (empty_to_none address) (raw_xds_address raw)) in
  let? (namespace, gateway) :=
    (match address with
     | Some _ =>
       let? namespace := parse_string "NAMESPACE" in
       let? namespace := ok_or (or namespace (raw_namespace raw)) "NAMESPACE is required" in
       let? gateway := parse_string "GATEWAY" in
       let? gateway := ok_or (or gateway (raw_gateway raw)) "GATEWAY is required" in
       Ok (namespace, gateway)
     | None => Ok ("", "")
     end) in
  Ok {| x_address := address; x_namespace := namespace; x_gateway := gateway; x_local_config := local_config |}.

Definition self_addr_of (xds : XDSConfig) : option string :=
  if negb (Str.is_empty (x_namespace xds)) && negb (Str.is_empty (x_gateway xds))
  then Some (x_gateway xds +:+ "." +:+ x_namespace xds +:+ ".svc.cluster.local") else None.

Definition istio_token : string := "./var/run/secrets/tokens/istio-token".

Definition parse_auth (tok : option string) (cluster : string) : result AuthSource string :=
  match tok with
  | None => Ok (if exists_ istio_token then Token istio_token cluster else AuthNone)
  | Some p => if exists_ p then Ok (Token p cluster) else Err ("auth token " +:+ p +:+ " not found")
  end.

Definition parse_ca (raw : RawConfig) : result (option CaConfig) string :=
  let? address := parse_string "CA_ADDRESS" in
  let? ca_address := validate_uri (empty_to_none address) in
  match ca_address with
  | None => Ok None
  | Some addr =>
    let? td := parse_string "TRUST_DOMAIN" in
    let td := default "cluster.local" (or td (raw_trust_domain raw)) in
    let? ns := parse_string "NAMESPACE" in
    let? ns := ok_or (or ns (raw_namespace raw)) "NAMESPACE is required" in
    let? sa := parse_string "SERVICE_ACCOUNT" in
    let? sa := ok_or (or sa (raw_service_account raw)) "SERVICE_ACCOUNT is required" in
    let? cluster := parse_string "CLUSTER_ID" in
    let cluster := default "Kubernetes" (or cluster (raw_cluster_id raw)) in
    let? tok := parse_string "AUTH_TOKEN" in
    let? auth := parse_auth (or tok (raw_auth_token raw)) cluster in
    let? ca_cert := parse_default Ok "CA_ROOT_CA" "./var/run/secrets/istio/root-cert.pem" in
    Ok (Some {| ca_addr := addr; ca_secret_ttl := secs 86400; ca_identity := Identity.Spiffe td ns sa; ca_auth := auth;
                ca_root := if exists_ ca_cert then RootFile ca_cert else RootDefault |})
  end.

(** An address from the environment or the file. *)
Definition parse_addr (env : string) (raw : option string) (ipv6_localhost_enabled : bool) (dflt : Address)
    : comp (result Address string) :=
  match parse_string env with
  | Err e => Ret (Err e)
  | Ok v => match or v raw with Some addr => Address_new ipv6_localhost_enabled addr | None => Ret (Ok dflt) end
  end.

(** [secs - 1] of an unsigned integer: without checks it wraps around. *)
Definition minus_one (n : N) : comp N :=
  if bool_decide (n = 0)%N then (if overflow_checks then Panic else Ret U64_MAX) else Ret (n - 1)%N.

Definition grace_deadline (grace : N) : comp N :=
  d ← (if bool_decide (10 < grace)%N then Ret (grace - 5)%N else minus_one grace); Ret (secs (N.max d 1)).

Definition parse_max_deadline (from_settings : option N) : comp (result N string) :=
  match from_settings with
  | Some period => Ret (Ok period)
  | None =>
    match parse (uint_from_str U64_MAX) "TERMINATION_GRACE_PERIOD_SECONDS" with
    | Err e => Ret (Err e)
    | Ok (Some grace) => d ← grace_deadline grace; Ret (Ok d)
    | Ok None => Ret (Ok (secs 5))
    end
  end.

Definition parse_expression (s : string) : result Expression string := ok_or (Expression_new cel_parse s) "invalid expression".

Definition parse_fields (fields : option RawLoggingFields) : result LoggingFields string :=
  match fields with
  | None => Ok {| remove := ∅; add := from_iter [] |}
  | Some fields =>
    let? add := try_map (λ '(k, v), let? e := parse_expression v in Ok (k, e)) (raw_add fields) in
    Ok {| remove := list_to_set (raw_remove fields); add := from_iter add |}
  end.

Definition parse_hbone (raw : RawConfig) : result HboneConfig string :=
  let http2 (f : RawHTTP2 → option N) : option N := raw_http2 raw ≫= f in
  let? w := parse (uint_from_str U32_MAX) "HTTP2_STREAM_WINDOW_SIZE" in
  let? c := parse (uint_from_str U32_MAX) "HTTP2_CONNECTION_WINDOW_SIZE" in
  let? f := parse (uint_from_str U32_MAX) "HTTP2_FRAME_SIZE" in
  let? p := parse (uint_from_str U16_MAX) "POOL_MAX_STREAMS_PER_CONNECTION" in
  let? t := parse_duration "POOL_UNUSED_RELEASE_TIMEOUT" in
  Ok {| window_size := default (4 * MIB)%N (or w (http2 h2_window_size));
        connection_window_size := default (16 * MIB)%N (or c (http2 h2_connection_window_size));
        frame_size := default MIB (or f (http2 h2_frame_size));
        pool_max_streams_per_conn := default 100%N (or p (http2 h2_pool_max_streams_per_conn));
        pool_unused_release_timeout := default (secs 300) (or t (http2 h2_pool_unused_release_timeout)) |}.

Definition proxy_metadata_of : ProxyMetadata :=
  let instance_ip := default "1.1.1.1" (var "INSTANCE_IP") in
  let pod_name := default "" (var "POD_NAME") in
  let ns := default "" (var "POD_NAMESPACE") in
  {| pm_instance_ip := instance_ip; pm_pod_name := pod_name; pm_pod_namespace := ns;
     pm_node_name := default "" (var "NODE_NAME"); pm_role := ns +:+ "~" +:+ default "" (var "GATEWAY");
     pm_node_id := "agentgateway~" +:+ instance_ip +:+ "~" +:+ pod_name +:+ "." +:+ ns +:+ "~" +:+ ns +:+ ".svc.cluster.local" |}.

(** [let? x := r in k] of a computation that may panic. *)
Definition bind_result {A B} (r : comp (result A string)) (k : A → comp (result B string)) : comp (result B string) :=
  r ← r; match r with Ok a => k a | Err e => Ret (Err e) end.
Local Notation "'do?' x := r 'in' k" := (bind_result r (λ x, k)) (at level 10, x pattern, k at level 200).

Definition parse_config (contents : string) (filename : option string) : comp (result (Config Dns) string) :=
  do? nested := Ret (from_yaml contents) in
  let raw := default RawConfig_default nested in
  do? (ipv6_enabled, ipv6_localhost_enabled) := Ret (parse_ipv6 raw) in
  let bind_wildcard := if ipv6_enabled then ipv6_unspecified else ipv4_unspecified in
  do? local_xds_path := Ret (parse_string "LOCAL_XDS_PATH") in
  let local_config := CfgFile <$> or (or local_xds_path (raw_local_xds_path raw)) filename in
  do? resolver := Ret read_system_conf in
  do? xds := Ret (parse_xds raw local_config) in
  do? ca := Ret (parse_ca raw) in
  do? network := Ret (parse_string "NETWORK") in
  do? min := Ret (parse_duration "CONNECTION_MIN_TERMINATION_DEADLINE") in
  do? max := Ret (parse_duration "CONNECTION_TERMINATION_DEADLINE") in
  do? otlp := Ret (parse_string "OTLP_ENDPOINT") in
  do? admin_addr := parse_addr "ADMIN_ADDR" (raw_admin_addr raw) ipv6_localhost_enabled (Localhost ipv6_localhost_enabled 15000) in
  do? stats_addr := parse_addr "STATS_ADDR" (raw_stats_addr raw) ipv6_localhost_enabled
                      (SocketAddress {| sa_ip := bind_wildcard; sa_port := 15020 |}) in
  do? readiness_addr := parse_addr "READINESS_ADDR" (raw_readiness_addr raw) ipv6_localhost_enabled
                          (SocketAddress {| sa_ip := bind_wildcard; sa_port := 15021 |}) in
  do? threading := Ret (parse_string "THREADING_MODE") in
  do? num_worker_threads := Ret parse_worker_threads in
  do? max_deadline := parse_max_deadline (or max (raw_connection_min_termination_deadline raw)) in
  do? tracing_fields := Ret (parse_fields (raw_tracing raw ≫= tracing_fields)) in
  do? filter := Ret (match raw_logging raw ≫= raw_filter with
                     | Some f => let? e := parse_expression f in Ok (Some e)
                     | None => Ok None
                     end) in
  do? logging_fields := Ret (parse_fields (raw_logging raw ≫= logging_fields)) in
  do? hbone := Ret (parse_hbone raw) in
  Ret (Ok (mkConfig
    (default "" (or network (raw_network raw)))
    max_deadline (default 0%N (or min (raw_connection_min_termination_deadline raw)))
    num_worker_threads admin_addr stats_addr readiness_addr (self_addr_of xds) hbone xds ca
    {| trc_endpoint := or (empty_to_none otlp) (otlp_endpoint <$> raw_tracing raw); trc_fields := tracing_fields |}
    {| cfg_filter := filter; cfg_fields := logging_fields |}
    resolver proxy_metadata_of
    (if decide (threading = Some "thread_per_core") then ThreadPerCore else Multithreaded))).
End config.

(** * Theorems *)

Lemma bind_result_Ok {A B} (r : comp (result A string)) (k : A → comp (result B string)) b :
  bind_result r k = Ret (Ok b) ↔ ∃ a, r = Ret (Ok a) ∧ k a = Ret (Ok b).
Proof. unfold bind_result. destruct r as [[a|e]|]; simpl; naive_solver. Qed.

Ltac config_inv H :=
  repeat lazymatch type of H with
  | bind_result _ _ = Ret (Ok _) =>
    let a := fresh "a" in let Ha := fresh "Ha" in
    apply bind_result_Ok in H as (a & Ha & H); try (injection Ha as Ha)
  | (match ?p with (_, _) => _ end) = _ => destruct p
  | Ret (Ok _) = Ret (Ok _) => injection H as H
  end.

Section theorems.
Context (var : string → option string) (exists_ : string → bool) (read_sysctl : result string string) (num_cpus : N).
Context (parse_duration_str : string → result N string) (uri_scheme_of : string → result (option string) string).
Context (cel_parse : string → option CelExpression).
Context {Dns : Type} (from_yaml : string → result (option RawConfig) string) (read_system_conf : result Dns string).
Context (overflow_checks : bool).

Abbreviation parse_config from_yaml :=
  (parse_config var exists_ read_sysctl num_cpus parse_duration_str uri_scheme_of cel_parse from_yaml read_system_conf overflow_checks).

(** [v] is what is set: in the environment, else in the file, else by default. *)
Definition setting {A} (from_str : string → result A string) (env : string) (file : option A) (dflt v : A) : Prop :=
  match var env with Some s => from_str s = Ok v | None => v = default dflt file end.
(** The same where there is no default. *)
Definition required (env : string) (file : option string) (v : string) : Prop :=
  match var env with Some s => v = s | None => file = Some v end.

Lemma parse_setting {A} (from_str : string → result A string) env o file dflt :
  parse var from_str env = Ok o → setting from_str env file dflt (default dflt (or o file)).
Proof. unfold parse, setting. destruct (var env) as [s|]; [|by intros [= <-]]. destruct (from_str s); by intros [= <-]. Qed.

Lemma parse_duration_setting env o file dflt :
  parse_duration var parse_duration_str env = Ok o → setting parse_duration_str env file dflt (default dflt (or o file)).
Proof.
  unfold parse_duration, parse_string, parse, setting. destruct (var env) as [s|]; simpl; [|by intros [= <-]].
  destruct (parse_duration_str s); by intros [= <-].
Qed.

Lemma parse_string_Ok env o : parse_string var env = Ok o → o = var env.
Proof. unfold parse_string, parse. by destruct (var env); intros [= <-]. Qed.

Lemma parse_string_required env o file v e :
  parse_string var env = Ok o → ok_or (or o file) e = Ok (E := string) v → required env file v.
Proof. intros ->%parse_string_Ok. unfold required. destruct (var env); simpl; [by intros [= ->]|]. destruct file; by intros [= ->]. Qed.

Lemma parse_duration_default env o : parse_duration var parse_duration_str env = Ok o → var env = None → o = None.
Proof. unfold parse_duration, parse_string, parse. intros Ho Hv. rewrite Hv in Ho. by injection Ho. Qed.

(** An address that is kept has a scheme, or was given [https]. *)
Definition with_scheme (given a : string) : Prop :=
  (∃ sch, uri_scheme_of given = Ok (Some sch) ∧ a = given) ∨ (uri_scheme_of given = Ok None ∧ a = "https://" +:+ given).

Lemma validate_uri_Ok o a : validate_uri uri_scheme_of o = Ok (Some a) → ∃ given, o = Some given ∧ with_scheme given a.
Proof.
  unfold validate_uri, with_scheme. destruct o as [s|]; [|done]. destruct (uri_scheme_of s) as [[sch|]|] eqn:Hs; simpl; [..|done];
    intros [= <-]; exists s; split; try done; [left|right]; eauto.
Qed.

Lemma validate_uri_None o : validate_uri uri_scheme_of o = Ok None → o = None.
Proof. unfold validate_uri. destruct o as [s|]; [|done]. by destruct (uri_scheme_of s) as [[]|]. Qed.

Lemma parse_xds_Ok raw lc xds :
  parse_xds var uri_scheme_of raw lc = Ok xds →
  x_local_config xds = lc ∧
  match x_address xds with
  | Some a => (∃ given, or (empty_to_none (var "XDS_ADDRESS")) (raw_xds_address raw) = Some given ∧ with_scheme given a) ∧
              required "NAMESPACE" (raw_namespace raw) (x_namespace xds) ∧ required "GATEWAY" (raw_gateway raw) (x_gateway xds)
  | None => or (empty_to_none (var "XDS_ADDRESS")) (raw_xds_address raw) = None ∧ self_addr_of xds = None
  end.
Proof.
  unfold parse_xds. destruct (parse_string var "XDS_ADDRESS") as [o|] eqn:Ho; simpl; [|done].
  apply parse_string_Ok in Ho as ->. destruct (validate_uri _ _) as [[a|]|] eqn:Hv; simpl; [..|done].
  - destruct (parse_string var "NAMESPACE") as [n|] eqn:Hn; simpl; [|done].
    destruct (ok_or (or n _) _) as [ns|] eqn:Hns; simpl; [|done].
    destruct (parse_string var "GATEWAY") as [g|] eqn:Hg; simpl; [|done].
    destruct (ok_or (or g _) _) as [gw|] eqn:Hgw; simpl; [|done]. intros [= <-]. simpl. split; [done|].
    split; [by apply validate_uri_Ok|]. split; by eapply parse_string_required.
  - apply validate_uri_None in Hv. by intros [= <-].
Qed.

(** What the configuration of the authority is made of; [caAddress] of the file is not. *)
Record ca_settled (raw : RawConfig) (c : CaConfig) : Prop := {
  cas_addr : ∃ given, empty_to_none (var "CA_ADDRESS") = Some given ∧ with_scheme given (ca_addr c);
  cas_ttl : ca_secret_ttl c = secs 86400;
  cas_identity : ∃ td ns sa, ca_identity c = Identity.Spiffe td ns sa ∧
    setting Ok "TRUST_DOMAIN" (raw_trust_domain raw) "cluster.local" td ∧
    required "NAMESPACE" (raw_namespace raw) ns ∧ required "SERVICE_ACCOUNT" (raw_service_account raw) sa;
  cas_auth : ∃ cluster, setting Ok "CLUSTER_ID" (raw_cluster_id raw) "Kubernetes" cluster ∧
    match or (var "AUTH_TOKEN") (raw_auth_token raw) with
    | Some p => exists_ p = true ∧ ca_auth c = Token p cluster
    | None => ca_auth c = if exists_ istio_token then Token istio_token cluster else AuthNone
    end;
  cas_root : let p := default "./var/run/secrets/istio/root-cert.pem" (var "CA_ROOT_CA") in
    ca_root c = if exists_ p then RootFile p else RootDefault
}.

Lemma parse_ca_Ok raw o :
  parse_ca var exists_ uri_scheme_of raw = Ok o →
  match o with Some c => ca_settled raw c | None => empty_to_none (var "CA_ADDRESS") = None end.
Proof.
  unfold parse_ca. destruct (parse_string var "CA_ADDRESS") as [ca|] eqn:Ho; simpl; [|done].
  apply parse_string_Ok in Ho as ->. destruct (validate_uri _ _) as [[a|]|] eqn:Hv; simpl; [| |done].
  2:{ intros [= <-]. by apply validate_uri_None in Hv. }
  destruct (parse_string var "TRUST_DOMAIN") as [td|] eqn:Htd; simpl; [|done].
  destruct (parse_string var "NAMESPACE") as [n|] eqn:Hn; simpl; [|done].
  destruct (ok_or (or n _) _) as [ns|] eqn:Hns; simpl; [|done].
  destruct (parse_string var "SERVICE_ACCOUNT") as [s|] eqn:Hs; simpl; [|done].
  destruct (ok_or (or s _) _) as [sa|] eqn:Hsa; simpl; [|done].
  destruct (parse_string var "CLUSTER_ID") as [cl|] eqn:Hcl; simpl; [|done].
  destruct (parse_string var "AUTH_TOKEN") as [tok|] eqn:Htok; simpl; [|done]. apply parse_string_Ok in Htok as ->.
  destruct (parse_auth _ _ _) as [auth|] eqn:Hauth; simpl; [|done].
  destruct (parse_default _ _ _ _) as [cc|] eqn:Hcc; simpl; [|done].
  intros [= <-]. split; simpl.
  - by apply validate_uri_Ok.
  - done.
  - do 3 eexists. split; [done|]. split; [by apply parse_setting|]. split; by eapply parse_string_required.
  - eexists. split; [by eapply parse_setting|]. unfold parse_auth in Hauth.
    destruct (or (var "AUTH_TOKEN") _) as [p|]; [|by simplify_eq]. destruct (exists_ p); by simplify_eq.
  - unfold parse_default, parse in Hcc. destruct (var "CA_ROOT_CA"); by simplify_eq/=.
Qed.

Lemma parse_hbone_Ok raw h (http2 := λ f : RawHTTP2 → option N, raw_http2 raw ≫= f) :
  parse_hbone var parse_duration_str raw = Ok h →
  setting (uint_from_str U32_MAX) "HTTP2_STREAM_WINDOW_SIZE" (http2 h2_window_size) (4 * MIB)%N (window_size h) ∧
  setting (uint_from_str U32_MAX) "HTTP2_CONNECTION_WINDOW_SIZE" (http2 h2_connection_window_size) (16 * MIB)%N
    (connection_window_size h) ∧
  setting (uint_from_str U32_MAX) "HTTP2_FRAME_SIZE" (http2 h2_frame_size) MIB (frame_size h) ∧
  setting (uint_from_str U16_MAX) "POOL_MAX_STREAMS_PER_CONNECTION" (http2 h2_pool_max_streams_per_conn) 100%N
    (pool_max_streams_per_conn h) ∧
  setting parse_duration_str "POOL_UNUSED_RELEASE_TIMEOUT" (http2 h2_pool_unused_release_timeout) (secs 300)
    (pool_unused_release_timeout h).
Proof.
  unfold parse_hbone. destruct (parse var _ "HTTP2_STREAM_WINDOW_SIZE") as [w|] eqn:H1; simpl; [|done].
  destruct (parse var _ "HTTP2_CONNECTION_WINDOW_SIZE") as [c|] eqn:H2; simpl; [|done].
  destruct (parse var _ "HTTP2_FRAME_SIZE") as [f|] eqn:H3; simpl; [|done].
  destruct (parse var _ "POOL_MAX_STREAMS_PER_CONNECTION") as [p|] eqn:H4; simpl; [|done].
  destruct (parse_duration _ _ "POOL_UNUSED_RELEASE_TIMEOUT") as [t|] eqn:H5; simpl; [|done].
  intros [= <-]. simpl. repeat split; (by apply parse_setting) || by apply parse_duration_setting.
Qed.

Lemma parse_addr_Ok env file v6 dflt a :
  parse_addr var env file v6 dflt = Ret (Ok a) →
  match or (var env) file with Some s => Address_new v6 s = Ret (Ok a) | None => a = dflt end.
Proof.
  unfold parse_addr. destruct (parse_string var env) as [o|] eqn:Ho; [|done].
  apply parse_string_Ok in Ho as ->. destruct (or _ _); [done|]. by intros [= ->].
Qed.

Lemma parse_worker_threads_Ok n :
  parse_worker_threads var num_cpus = Ok n →
  match var "WORKER_THREADS" with
  | None => setting (uint_from_str U64_MAX) "CPU_LIMIT" None num_cpus n
  | Some value =>
    match Str.strip_suffix "%" value with
    | None => uint_from_str U64_MAX value = Ok n
    | Some p => is_ok (f64_from_str p) = true ∧ (1 ≤ n)%N
    end
  end.
Proof.
  unfold parse_worker_threads, get_cpu_count. destruct (parse_string var "WORKER_THREADS") as [o|] eqn:Ho; simpl; [|done].
  apply parse_string_Ok in Ho as ->. destruct (var "WORKER_THREADS") as [value|].
  - destruct (Str.strip_suffix "%" value) as [p|].
    + destruct (f64_from_str p) as [f|]; simpl; [|done]. destruct (_ || _); [done|].
      destruct (parse var _ "CPU_LIMIT") as [[c|]|]; cbn [and_then]; [..|done]; intros [= <-]; (split; [done|lia]).
    + by destruct (uint_from_str U64_MAX value).
  - destruct (parse var _ "CPU_LIMIT") as [c|] eqn:Hc; simpl; [|done]. intros Hn.
    pose proof (parse_setting _ _ _ None num_cpus Hc) as Hs. by destruct c; injection Hn as ->.
Qed.

Lemma parse_max_deadline_Ok o m :
  parse_max_deadline var overflow_checks o = Ret (Ok m) →
  match o with
  | Some d => m = d
  | None =>
    match var "TERMINATION_GRACE_PERIOD_SECONDS" with
    | Some s => ∃ grace, uint_from_str U64_MAX s = Ok grace ∧ grace_deadline overflow_checks grace = Ret m
    | None => m = secs 5
    end
  end.
Proof.
  unfold parse_max_deadline, parse. destruct o as [d|]; [by intros [= ->]|].
  destruct (var "TERMINATION_GRACE_PERIOD_SECONDS") as [s|]; [|by intros [= <-]].
  destruct (uint_from_str U64_MAX s) as [g|]; [|done]. destruct (grace_deadline overflow_checks g) as [d|] eqn:Hd; [|done].
  intros [= <-]. by exists g.
Qed.

Lemma parse_duration_Ok env o : parse_duration var parse_duration_str env = Ok o →
  match var env with Some s => ∃ d, parse_duration_str s = Ok d ∧ o = Some d | None => o = None end.
Proof.
  unfold parse_duration, parse_string, parse. destruct (var env) as [s|]; simpl; [|by intros [= <-]].
  destruct (parse_duration_str s); intros [= <-]; eauto.
Qed.

Lemma parse_ipv6_Ok raw v6 v6_localhost :
  parse_ipv6 var read_sysctl raw = Ok (v6, v6_localhost) →
  setting bool_from_str "IPV6_ENABLED" (raw_enable_ipv6 raw) true v6 ∧
  v6_localhost = v6 && (match ipv6_enabled_on_localhost read_sysctl with Ok b => b | Err _ => true end).
Proof.
  unfold parse_ipv6. destruct (parse var _ _) as [o|] eqn:Ho; cbn [and_then]; [|done]. intros [= <- <-].
  split; [by eapply parse_setting|]. by destruct (default true _).
Qed.

(** An address of a server of the gateway itself. *)
Definition served_at (env : string) (file : option string) (v6 : bool) (dflt a : Address) : Prop :=
  match or (var env) file with Some s => Address_new v6 s = Ret (Ok a) | None => a = dflt end.

(** Where each setting of a configuration comes from, all of them. *)
Record settled (raw : RawConfig) (filename : option string) (v6 v6_localhost : bool) (cfg : Config Dns) : Prop := {
  set_ipv6 : setting bool_from_str "IPV6_ENABLED" (raw_enable_ipv6 raw) true v6;
  set_ipv6_localhost : v6_localhost =
    v6 && (match ipv6_enabled_on_localhost read_sysctl with Ok b => b | Err _ => true end);
  set_network : setting Ok "NETWORK" (raw_network raw) "" (network cfg);
  set_min_deadline : setting parse_duration_str "CONNECTION_MIN_TERMINATION_DEADLINE"
    (raw_connection_min_termination_deadline raw) 0%N (termination_min_deadline cfg);
  (** [connectionTerminationDeadline] of the file is not read: its minimum is. *)
  set_max_deadline :
    match var "CONNECTION_TERMINATION_DEADLINE", raw_connection_min_termination_deadline raw,
          var "TERMINATION_GRACE_PERIOD_SECONDS" with
    | Some s, _, _ => parse_duration_str s = Ok (termination_max_deadline cfg)
    | None, Some d, _ => termination_max_deadline cfg = d
    | None, None, Some s => ∃ grace, uint_from_str U64_MAX s = Ok grace ∧
        grace_deadline overflow_checks grace = Ret (termination_max_deadline cfg)
    | None, None, None => termination_max_deadline cfg = secs 5
    end;
  (** [workerThreads] of the file is not read. *)
  set_worker_threads :
    match var "WORKER_THREADS" with
    | None => setting (uint_from_str U64_MAX) "CPU_LIMIT" None num_cpus (num_worker_threads cfg)
    | Some value =>
      match Str.strip_suffix "%" value with
      | None => uint_from_str U64_MAX value = Ok (num_worker_threads cfg)
      | Some p => is_ok (f64_from_str p) = true ∧ (1 ≤ num_worker_threads cfg)%N
      end
    end;
  set_threading : threading_mode cfg = ThreadPerCore ↔ var "THREADING_MODE" = Some "thread_per_core";
  set_admin : served_at "ADMIN_ADDR" (raw_admin_addr raw) v6_localhost (Localhost v6_localhost 15000) (admin_addr cfg);
  set_stats : served_at "STATS_ADDR" (raw_stats_addr raw) v6_localhost
    (SocketAddress {| sa_ip := if v6 then ipv6_unspecified else ipv4_unspecified; sa_port := 15020 |}) (stats_addr cfg);
  set_readiness : served_at "READINESS_ADDR" (raw_readiness_addr raw) v6_localhost
    (SocketAddress {| sa_ip := if v6 then ipv6_unspecified else ipv4_unspecified; sa_port := 15021 |}) (readiness_addr cfg);
  set_local_config :
    x_local_config (xds cfg) = CfgFile <$> or (or (var "LOCAL_XDS_PATH") (raw_local_xds_path raw)) filename;
  set_xds :
    match x_address (xds cfg) with
    | Some a => (∃ given, or (empty_to_none (var "XDS_ADDRESS")) (raw_xds_address raw) = Some given ∧ with_scheme given a) ∧
                required "NAMESPACE" (raw_namespace raw) (x_namespace (xds cfg)) ∧
                required "GATEWAY" (raw_gateway raw) (x_gateway (xds cfg))
    | None => or (empty_to_none (var "XDS_ADDRESS")) (raw_xds_address raw) = None ∧ self_addr cfg = None
    end;
  set_self_addr : self_addr cfg = self_addr_of (xds cfg);
  set_ca : match ca cfg with Some c => ca_settled raw c | None => empty_to_none (var "CA_ADDRESS") = None end;
  set_window : setting (uint_from_str U32_MAX) "HTTP2_STREAM_WINDOW_SIZE" (raw_http2 raw ≫= h2_window_size) (4 * MIB)%N
    (window_size (hbone cfg));
  set_connection_window : setting (uint_from_str U32_MAX) "HTTP2_CONNECTION_WINDOW_SIZE"
    (raw_http2 raw ≫= h2_connection_window_size) (16 * MIB)%N (connection_window_size (hbone cfg));
  set_frame : setting (uint_from_str U32_MAX) "HTTP2_FRAME_SIZE" (raw_http2 raw ≫= h2_frame_size) MIB (frame_size (hbone cfg));
  set_pool_streams : setting (uint_from_str U16_MAX) "POOL_MAX_STREAMS_PER_CONNECTION"
    (raw_http2 raw ≫= h2_pool_max_streams_per_conn) 100%N (pool_max_streams_per_conn (hbone cfg));
  set_pool_timeout : setting parse_duration_str "POOL_UNUSED_RELEASE_TIMEOUT"
    (raw_http2 raw ≫= h2_pool_unused_release_timeout) (secs 300) (pool_unused_release_timeout (hbone cfg));
  set_otlp : trc_endpoint (tracing cfg) = or (empty_to_none (var "OTLP_ENDPOINT")) (otlp_endpoint <$> raw_tracing raw);
  set_trace_fields : parse_fields cel_parse (raw_tracing raw ≫= tracing_fields) = Ok (trc_fields (tracing cfg));
  set_log_filter :
    match raw_logging raw ≫= raw_filter with
    | Some f => ∃ e, parse_expression cel_parse f = Ok e ∧ cfg_filter (logging cfg) = Some e
    | None => cfg_filter (logging cfg) = None
    end;
  set_log_fields : parse_fields cel_parse (raw_logging raw ≫= logging_fields) = Ok (cfg_fields (logging cfg));
  set_dns : read_system_conf = Ok (dns cfg);
  set_metadata : proxy_metadata cfg = proxy_metadata_of var
}.

(** C36: where each setting comes from. Every setting of a configuration that is made
    is accounted for by [settled]: most are the value of their environment variable,
    else the one of the file, else the default. The exceptions are that the address
    of the authority, the number of threads and the threading mode come from the
    environment alone, that the longest deadline is the file's minimum where the
    environment does not set it, and then follows from the grace period, that fields
    and filters of logs and traces come from the file alone, that an empty address or
    endpoint in the environment is none, and that a control plane or an authority
    requires the namespace, and the name of the gateway or the service account. *)
Theorem config_settings contents filename cfg :
  parse_config from_yaml contents filename = Ret (Ok cfg) →
  ∃ nested v6 v6_localhost, from_yaml contents = Ok nested ∧
    settled (default RawConfig_default nested) filename v6 v6_localhost cfg.
Proof.
  unfold Config.parse_config. intros Hc. config_inv Hc. subst cfg.
  repeat match goal with
  | H : from_yaml _ = Ok ?n |- _ => exists n; set (raw := default RawConfig_default n) in *; clearbody raw
  | H : parse_string var _ = Ok _ |- _ => apply parse_string_Ok in H; subst
  | H : parse_ipv6 _ _ _ = Ok (?b, ?b0) |- _ => exists b, b0; apply parse_ipv6_Ok in H as [Hv6 Hv6l]
  | H : parse_xds _ _ _ _ = Ok _ |- _ => apply parse_xds_Ok in H as [Hlc Hx]
  | H : parse_ca _ _ _ _ = Ok _ |- _ => apply parse_ca_Ok in H
  | H : parse_hbone _ _ _ = Ok _ |- _ => apply parse_hbone_Ok in H as (? & ? & ? & ? & ?)
  | H : parse_addr _ _ _ _ _ = Ret (Ok _) |- _ => apply parse_addr_Ok in H
  | H : parse_worker_threads _ _ = Ok _ |- _ => apply parse_worker_threads_Ok in H
  | H : parse_duration _ _ "CONNECTION_TERMINATION_DEADLINE" = Ok _ |- _ => apply parse_duration_Ok in H
  | H : parse_max_deadline _ _ _ = Ret (Ok _) |- _ => apply parse_max_deadline_Ok in H
  end. split; [eassumption|].
  split; cbn -[parse_fields parse_expression]; try done.
  - unfold setting. by destruct (var "NETWORK").
  - by apply parse_duration_setting.
  - match goal with H : match var "CONNECTION_TERMINATION_DEADLINE" with Some _ => _ | None => _ end |- _ => rename H into Hd end.
    destruct (var "CONNECTION_TERMINATION_DEADLINE") as [s|]; [destruct Hd as (d & Hd & ->); by simplify_eq/=|].
    subst. by destruct (raw_connection_min_termination_deadline raw).
  - by case_decide.
  - match goal with H : _ = Ok ?e |- context [?e] => revert H end. destruct (raw_logging raw ≫= raw_filter) as [f|]; [|by intros [= <-]].
    destruct (parse_expression cel_parse f) as [e|]; [|done]. intros [= <-]. eauto.
Qed.

(** What is left of the file's settings without the three that are never read. *)
Definition forget_unread (raw : RawConfig) : RawConfig :=
  Build_RawConfig (raw_enable_ipv6 raw) (raw_local_xds_path raw) None (raw_xds_address raw) (raw_namespace raw) (raw_gateway raw)
    (raw_trust_domain raw) (raw_service_account raw) (raw_cluster_id raw) (raw_network raw) (raw_admin_addr raw)
    (raw_stats_addr raw) (raw_readiness_addr raw) (raw_auth_token raw) None (raw_connection_min_termination_deadline raw) None
    (raw_tracing raw) (raw_logging raw) (raw_http2 raw).

(** Three settings of the file have no effect: the configuration is the same
    whatever the file says for [caAddress], [workerThreads] and
    [connectionTerminationDeadline]. Where the environment does not set the deadlines, the
    file's minimum is the maximum too. *)
Theorem config_unread_settings from_yaml' contents filename :
  from_yaml' contents = (let? raw := from_yaml contents in Ok (forget_unread <$> raw)) →
  parse_config from_yaml' contents filename = parse_config from_yaml contents filename ∧
  ∀ raw d cfg, from_yaml contents = Ok (Some raw) → raw_connection_min_termination_deadline raw = Some d →
    var "CONNECTION_MIN_TERMINATION_DEADLINE" = None → var "CONNECTION_TERMINATION_DEADLINE" = None →
    parse_config from_yaml contents filename = Ret (Ok cfg) →
    termination_min_deadline cfg = d ∧ termination_max_deadline cfg = d.
Proof.
  intros Hf. split.
  - unfold Config.parse_config. rewrite Hf. destruct (from_yaml contents) as [[raw|]|]; reflexivity.
  - intros raw d cfg Hy Hd Hmin Hmax Hc. unfold Config.parse_config in Hc. config_inv Hc. subst cfg. simpl.
    match goal with H : from_yaml contents = Ok ?n |- _ => assert (n = Some raw) as -> by congruence end. simpl in *.
    match goal with H : parse_duration _ _ "CONNECTION_MIN_TERMINATION_DEADLINE" = _ |- _ =>
      apply parse_duration_default in H as ->; [|done] end.
    match goal with H : parse_duration _ _ "CONNECTION_TERMINATION_DEADLINE" = _ |- _ =>
      apply parse_duration_default in H as ->; [|done] end.
    rewrite Hd in *. simpl in *. split; [done|].
    congruence.
Qed.

(** The deadline of a drain that is derived from the grace period of the pod: below it
    with at least a second left for connections, from two seconds on; a grace period of
    one second is used up, and one of none overflows. *)
Theorem grace_deadline_below grace :
  ((2 ≤ grace)%N → ∃ d, grace_deadline overflow_checks grace = Ret (secs d) ∧ (1 ≤ d < grace)%N ∧ (11 ≤ grace → d + 5 = grace)%N) ∧
  grace_deadline overflow_checks 1 = Ret (secs 1) ∧
  grace_deadline overflow_checks 0 = (if overflow_checks then Panic else Ret (secs U64_MAX)).
Proof.
  split; [|split; [done|by destruct overflow_checks]]. intros Hg. unfold grace_deadline, minus_one.
  case_bool_decide as H10; simpl.
  - exists (grace - 5)%N. replace (N.max (grace - 5) 1) with (grace - 5)%N by lia. repeat split; lia.
  - rewrite bool_decide_eq_false_2 by lia. simpl. exists (grace - 1)%N.
    replace (N.max (grace - 1) 1) with (grace - 1)%N by lia. repeat split; lia.
Qed.

(** A percentage of the CPUs is at least one thread. No thread at all is configured only
    by a number that says so. *)
Theorem worker_threads_positive n :
  parse_worker_threads var num_cpus = Ok n →
  (∀ value p, var "WORKER_THREADS" = Some value → Str.strip_suffix "%" value = Some p → (1 ≤ n)%N) ∧
  (n = 0%N → (∃ value, var "WORKER_THREADS" = Some value ∧ Str.strip_suffix "%" value = None ∧ uint_from_str U64_MAX value = Ok 0%N) ∨
             (var "WORKER_THREADS" = None ∧ get_cpu_count var num_cpus = Ok 0%N)).
Proof.
  unfold parse_worker_threads. destruct (parse_string var "WORKER_THREADS") as [o|] eqn:Ho; simpl; [|done].
  apply parse_string_Ok in Ho as ->. destruct (var "WORKER_THREADS") as [value|] eqn:Hv; [|intros ->; split; [done|intros ->; by right]].
  destruct (Str.strip_suffix "%" value) as [p|] eqn:Hp; simpl.
  - destruct (f64_from_str p) as [f|]; simpl; [|done]. destruct (_ || _); [done|].
    destruct (get_cpu_count var num_cpus) as [c|]; simpl; [|done]. intros Hn. injection Hn as Hn.
    assert (1 ≤ n)%N by lia. split; [done|lia].
  - intros Hn. split; [intros ? ? [= <-]; congruence|]. intros ->. left. exists value. split; [done|]. split; [done|].
    by destruct (uint_from_str U64_MAX value) as [m|]; simpl in Hn; [injection Hn as ->|].
Qed.

(** Values of the environment that cannot be used, of the variables that are read
    then. *)
Inductive invalid_env (contents : string) : string → string → Prop :=
| invalid_ipv6 s : is_ok (bool_from_str s) = false → invalid_env contents "IPV6_ENABLED" s
| invalid_uri env s : env ∈ ["XDS_ADDRESS"; "CA_ADDRESS"] → s ≠ "" → is_ok (uri_scheme_of s) = false → invalid_env contents env s
| invalid_u32 env s :
  env ∈ ["HTTP2_STREAM_WINDOW_SIZE"; "HTTP2_CONNECTION_WINDOW_SIZE"; "HTTP2_FRAME_SIZE"] →
  is_ok (uint_from_str U32_MAX s) = false → invalid_env contents env s
| invalid_u16 s : is_ok (uint_from_str U16_MAX s) = false → invalid_env contents "POOL_MAX_STREAMS_PER_CONNECTION" s
| invalid_duration env s :
  env ∈ ["CONNECTION_MIN_TERMINATION_DEADLINE"; "CONNECTION_TERMINATION_DEADLINE"; "POOL_UNUSED_RELEASE_TIMEOUT"] →
  is_ok (parse_duration_str s) = false → invalid_env contents env s
| invalid_addr env s :
  env ∈ ["ADMIN_ADDR"; "STATS_ADDR"; "READINESS_ADDR"] → (∀ v6 a, Address_new v6 s ≠ Ret (Ok a)) → invalid_env contents env s
| invalid_threads s :
  Str.strip_suffix "%" s = None → is_ok (uint_from_str U64_MAX s) = false → invalid_env contents "WORKER_THREADS" s
| invalid_percentage s p :
  Str.strip_suffix "%" s = Some p →
  (∀ f, f64_from_str p = Ok f → SFleb f (S754_zero false) || SFltb f64_hundred f = true) → invalid_env contents "WORKER_THREADS" s
| invalid_cpus s :
  (∀ value, var "WORKER_THREADS" = Some value → is_Some (Str.strip_suffix "%" value)) →
  is_ok (uint_from_str U64_MAX s) = false → invalid_env contents "CPU_LIMIT" s
| invalid_grace s :
  var "CONNECTION_TERMINATION_DEADLINE" = None →
  (∀ raw, from_yaml contents = Ok (Some raw) → raw_connection_min_termination_deadline raw = None) →
  is_ok (uint_from_str U64_MAX s) = false → invalid_env contents "TERMINATION_GRACE_PERIOD_SECONDS" s.

Lemma parse_valid {A} (f : string → result A string) env s o :
  var env = Some s → parse var f env = Ok o → is_ok (f s) = true.
Proof. intros Hv Ho. unfold parse in Ho. rewrite Hv in Ho. by destruct (f s). Qed.

Lemma parse_duration_valid env s o :
  var env = Some s → parse_duration var parse_duration_str env = Ok o → is_ok (parse_duration_str s) = true.
Proof. intros Hv Ho%parse_duration_Ok. rewrite Hv in Ho. by destruct Ho as (d & -> & _). Qed.

Lemma parse_addr_valid env s file v6 d a :
  var env = Some s → parse_addr var env file v6 d = Ret (Ok a) → Address_new v6 s = Ret (Ok a).
Proof. intros Hv Ho%parse_addr_Ok. by rewrite Hv in Ho. Qed.

Lemma validate_uri_valid s file o :
  validate_uri uri_scheme_of (or (empty_to_none (Some s)) file) = Ok o → s ≠ "" → is_ok (uri_scheme_of s) = true.
Proof. destruct s as [|c s]; [done|]. simpl. by destruct (uri_scheme_of _). Qed.

Lemma parse_xds_valid raw lc x s :
  parse_xds var uri_scheme_of raw lc = Ok x → var "XDS_ADDRESS" = Some s → s ≠ "" → is_ok (uri_scheme_of s) = true.
Proof.
  unfold parse_xds. intros (o & ->%parse_string_Ok & Hx)%and_then_Ok Hv. rewrite Hv in Hx.
  apply and_then_Ok in Hx as (a & Ha & _). by eapply validate_uri_valid.
Qed.

Lemma parse_ca_valid raw c s :
  parse_ca var exists_ uri_scheme_of raw = Ok c → var "CA_ADDRESS" = Some s → s ≠ "" → is_ok (uri_scheme_of s) = true.
Proof.
  unfold parse_ca. intros (o & ->%parse_string_Ok & Hx)%and_then_Ok Hv. rewrite Hv in Hx.
  apply and_then_Ok in Hx as (a & Ha & _). eapply (validate_uri_valid s None). by destruct s.
Qed.

Lemma parse_worker_threads_valid n s :
  parse_worker_threads var num_cpus = Ok n → var "WORKER_THREADS" = Some s →
  match Str.strip_suffix "%" s with
  | None => is_ok (uint_from_str U64_MAX s) = true
  | Some p => ∃ f, f64_from_str p = Ok f ∧ SFleb f (S754_zero false) || SFltb f64_hundred f = false
  end.
Proof.
  unfold parse_worker_threads. intros (o & ->%parse_string_Ok & Hn)%and_then_Ok Hv. rewrite Hv in Hn.
  destruct (Str.strip_suffix "%" s) as [p|]; [|by destruct (uint_from_str U64_MAX s)].
  apply and_then_Ok in Hn as (f & Hf & Hn). destruct (f64_from_str p) as [f'|]; simplify_eq/=. exists f. split; [done|].
  by destruct (_ || _).
Qed.

Lemma parse_cpus_valid n s :
  parse_worker_threads var num_cpus = Ok n →
  (∀ value, var "WORKER_THREADS" = Some value → is_Some (Str.strip_suffix "%" value)) →
  var "CPU_LIMIT" = Some s → is_ok (uint_from_str U64_MAX s) = true.
Proof.
  unfold parse_worker_threads, get_cpu_count. intros (o & ->%parse_string_Ok & Hn)%and_then_Ok Hw Hv.
  destruct (var "WORKER_THREADS") as [value|].
  - destruct (Hw value eq_refl) as [p Hp]. rewrite Hp in Hn. apply and_then_Ok in Hn as (f & _ & Hn).
    destruct (_ || _); [done|]. apply and_then_Ok in Hn as (c & Hc & _). apply and_then_Ok in Hc as (l & Hl & _).
    by eapply parse_valid.
  - apply and_then_Ok in Hn as (l & Hl & _). by eapply parse_valid.
Qed.

Lemma parse_max_deadline_valid m s :
  parse_max_deadline var overflow_checks None = Ret (Ok m) → var "TERMINATION_GRACE_PERIOD_SECONDS" = Some s →
  is_ok (uint_from_str U64_MAX s) = true.
Proof. intros H%parse_max_deadline_Ok Hv. rewrite Hv in H. by destruct H as (g & -> & _). Qed.

(** C37: an invalid value of a variable that is read is never ignored. When a flag, the
    address of the control plane or of the authority, a size, a deadline, the address
    of a server, the number or the percentage of threads does not parse, or the limit
    of CPUs or the grace period where they are needed, there is no configuration,
    whatever the other variables and the file say. *)
Theorem config_invalid_env contents filename env s cfg :
  var env = Some s → invalid_env contents env s → parse_config from_yaml contents filename ≠ Ret (Ok cfg).
Proof.
  intros Hv Hbad Hc. unfold Config.parse_config, parse_ipv6, parse_hbone in Hc. config_inv Hc.
  repeat match goal with H : and_then (parse _ _ _) _ = Ok _ |- _ => apply and_then_Ok in H as (? & ? & H) end.
  repeat match goal with H : and_then (parse_duration _ _ _) _ = Ok _ |- _ => apply and_then_Ok in H as (? & ? & H) end.
  destruct Hbad as [s Hb|env s Hin Hne Hb|env s Hin Hb|s Hb|env s Hin Hb|env s Hin Hb|s Hs Hb|s p Hs Hb|s Hw Hb|s Hd Hf Hb].
  - erewrite parse_valid in Hb; [done|exact Hv|eassumption].
  - repeat (apply elem_of_cons in Hin as [->|Hin];
      [first [erewrite parse_xds_valid in Hb; [done|eassumption|done..]|erewrite parse_ca_valid in Hb; [done|eassumption|done..]]|]). by apply elem_of_nil in Hin.
  - repeat (apply elem_of_cons in Hin as [->|Hin]; [erewrite parse_valid in Hb; [done|exact Hv|eassumption]|]). by apply elem_of_nil in Hin.
  - erewrite parse_valid in Hb; [done|exact Hv|eassumption].
  - repeat (apply elem_of_cons in Hin as [->|Hin]; [erewrite parse_duration_valid in Hb; [done|exact Hv|eassumption]|]). by apply elem_of_nil in Hin.
  - repeat (apply elem_of_cons in Hin as [->|Hin]; [eapply Hb, parse_addr_valid; [exact Hv|eassumption]|]). by apply elem_of_nil in Hin.
  - match goal with H : parse_worker_threads _ _ = Ok _ |- _ => apply (parse_worker_threads_valid _ s) in H; [|done] end.
    rewrite Hs in *. congruence.
  - match goal with H : parse_worker_threads _ _ = Ok _ |- _ => apply (parse_worker_threads_valid _ s) in H; [|done] end.
    rewrite Hs in *. naive_solver congruence.
  - erewrite parse_cpus_valid in Hb; [done|eassumption|done..].
  - match goal with H : parse_duration _ _ "CONNECTION_TERMINATION_DEADLINE" = Ok _ |- _ =>
      apply parse_duration_default in H as ->; [|done] end.
    match goal with H : from_yaml contents = Ok ?n |- _ => assert (raw_connection_min_termination_deadline
      (default RawConfig_default n) = None) as Hraw by (destruct n; [by apply Hf|done]) end.
    match goal with H : parse_max_deadline _ _ _ = Ret (Ok _) |- _ => rewrite Hraw in H end.
    erewrite parse_max_deadline_valid in Hb; [done|eassumption|done..].
Qed.
End theorems.

(** ** Addresses are read back as they are written *)

Lemma pretty_go_app x s t : pretty.pretty_N_go x (s +:+ t) = pretty.pretty_N_go x s +:+ t.
Proof.
  revert s. induction (N.lt_wf_0 x) as [x _ IH]. intros s.
  destruct (decide (x = 0)%N) as [->|Hx]; [by rewrite !pretty.pretty_N_go_0|].
  rewrite (pretty.pretty_N_go_step x (s +:+ t)), (pretty.pretty_N_go_step x s) by lia. apply (IH (x / 10)%N (N.div_lt x 10 ltac:(lia) ltac:(lia)) (String _ s)).
Qed.

Lemma display_nat_go n : n ≠ 0%N → Str.display_nat n = pretty.pretty_N_go n "".
Proof. intros Hn. unfold Str.display_nat, pretty.pretty, pretty.pretty_N. by rewrite decide_False. Qed.

Lemma to_digit_char d : (d < 10)%N → to_digit 10 (pretty.pretty_N_char d) = Some d.
Proof.
  intros Hd. assert (List.forallb (λ d, bool_decide (to_digit 10 (pretty.pretty_N_char d) = Some d)) [0; 1; 2; 3; 4; 5; 6; 7; 8; 9]%N = true)
    as Hall by reflexivity.
  rewrite forallb_forall in Hall. eapply bool_decide_eq_true, Hall. simpl. lia.
Qed.

(** A printed number is read back, with what follows it. *)
Lemma read_digits_go x s k v n rest :
  read_digits 10 k x s = Some (v, n, rest) →
  ∃ d, read_digits 10 (d + k) 0 (pretty.pretty_N_go x s) = Some (v, d + n, rest) ∧
       Str.len (pretty.pretty_N_go x s) = d + Str.len s ∧ (x ≠ 0%N → 0 < d).
Proof.
  revert s k n. induction (N.lt_wf_0 x) as [x _ IH]. intros s k n Hr.
  destruct (decide (x = 0)%N) as [->|Hx]; [exists 0; by rewrite pretty.pretty_N_go_0|].
  rewrite pretty.pretty_N_go_step by lia.
  destruct (IH (x / 10)%N ltac:(apply N.div_lt; lia) (String (pretty.pretty_N_char (x mod 10)) s) (S k) (S n)) as (d & Hd & Hl & _).
  - cbn [read_digits]. rewrite to_digit_char by (apply N.mod_lt; lia).
    replace (x / 10 * 10 + x mod 10)%N with x by (pose proof (N.div_mod x 10); lia). by rewrite Hr.
  - exists (S d). replace (S d + k) with (d + S k) by lia. replace (S d + n) with (d + S n) by lia.
    split; [done|]. split; [|lia]. rewrite Hl. simpl. lia.
Qed.

Lemma uint_from_str_display max n : (n ≤ max)%N → uint_from_str max (Str.display_nat n) = Ok n.
Proof.
  intros Hn. destruct (decide (n = 0)%N) as [->|H0]; [unfold uint_from_str; simpl; by rewrite bool_decide_eq_true_2|].
  assert (∀ x s, (x ≤ max)%N → digits_from_str max 0 (pretty.pretty_N_go x s) = digits_from_str max x s) as Hgo.
  { intros x. induction (N.lt_wf_0 x) as [x _ IH]. intros s Hx.
    destruct (decide (x = 0)%N) as [->|Hx0]; [by rewrite pretty.pretty_N_go_0|].
    rewrite pretty.pretty_N_go_step by lia. pose proof (N.div_mod x 10 ltac:(lia)) as Hdm.
    pose proof (N.div_lt x 10 ltac:(lia) ltac:(lia)) as Hlt. rewrite (IH _ Hlt) by (eapply N.le_trans; [by apply N.lt_le_incl|done]). cbn [digits_from_str].
    pose proof (to_digit_char (x mod 10) ltac:(apply N.mod_lt; lia)) as Hd. unfold to_digit in Hd.
    destruct (bool_decide (48 ≤ _ ≤ 57)%N); [|exfalso; repeat case_bool_decide; first [discriminate|lia]].
    case_bool_decide; [|done]. assert (Str.byte (pretty.pretty_N_char (x `mod` 10)) - 48 = x `mod` 10)%N as -> by congruence. rewrite bool_decide_eq_true_2 by lia. f_equal. lia. }
  specialize (Hgo n "" Hn). rewrite display_nat_go by done. unfold uint_from_str.
  destruct (pretty.pretty_N_go n "") as [|a s] eqn:Hs.
  { exfalso. pose proof (Str.display_nat_inj n 0) as Hi. rewrite display_nat_go, Hs in Hi by done.
    destruct (read_digits_go n "" 0 n 0 "" eq_refl) as (d & _ & Hl & Hd). rewrite Hs in Hl. simpl in Hl. specialize (Hd H0). lia. }
  destruct (decide (a = "+"%char)) as [->|Ha]; [by simpl in Hgo|].
  replace (match String a s with String "+"%char r => r | _ => String a s end) with (String a s)
    by (destruct a as [[] [] [] [] [] [] [] []]; congruence || done).
  simpl Str.eqb. by rewrite Hgo.
Qed.

Lemma Localhost_new v6 port : (port ≤ U16_MAX)%N → Address_new v6 ("localhost:" +:+ Str.display_nat port) = Ret (Ok (Localhost v6 port)).
Proof.
  intros Hp. unfold Address_new. replace (Str.starts_with "localhost:" ("localhost:" +:+ Str.display_nat port)) with true
    by (symmetry; apply Str.starts_with_spec; eauto).
  assert (∀ s, Str.split_once ":" ("localhost:" +:+ s) = Some ("localhost", s)) as -> by (intros s; reflexivity).
  simpl expect. rewrite comp_bind_ret_l. by rewrite uint_from_str_display.
Qed.

(** An octet is read back, with what follows it; 256 cases of the digits alone. *)
Definition octet_ok (n : N) : bool :=
  let s := Str.display_nat n in
  match read_digits 10 3 0 s with
  | Some (v, k, "") => bool_decide (v = n) && negb (bool_decide (k = 0)) && negb (Str.starts_with "0" s && bool_decide (1 < k))
  | _ => false
  end.

Lemma octets_all_ok n : (n < 256)%N → octet_ok n = true.
Proof.
  intros Hn. assert (List.forallb octet_ok (N.of_nat <$> seq 0 256) = true) as Hall by (vm_compute; reflexivity).
  rewrite forallb_forall in Hall. apply Hall, list_elem_of_In, list_elem_of_fmap. exists (N.to_nat n).
  split; [lia|]. apply elem_of_seq. lia.
Qed.

(** What cannot continue a number. *)
Definition ends_number (rest : string) : Prop :=
  match rest with String a _ => to_digit 10 a = None | "" => True end.

Lemma read_digits_app r m acc s v k rest :
  ends_number rest → r = 10%N → read_digits r m acc s = Some (v, k, "") → read_digits r m acc (s +:+ rest) = Some (v, k, rest).
Proof.
  intros Hr ->. revert m acc v k. induction s as [|a s IH]; intros m acc v k; simpl.
  - intros [= <- <-]. destruct rest as [|b rest]; [done|]. simpl in *. by rewrite Hr.
  - destruct (to_digit 10 a); [|done]. destruct m as [|m]; [done|].
    destruct (read_digits 10 m _ s) as [[[v' k'] r']|] eqn:Hd; [|done]. intros [= -> <- ->]. by erewrite IH.
Qed.

Lemma read_octet n rest : (n < 256)%N → ends_number rest → read_number 10 3 false 255 (Str.display_nat n +:+ rest) = Some (n, rest).
Proof.
  intros Hn Hr. pose proof (octets_all_ok n Hn) as Hok. unfold octet_ok in Hok. unfold read_number.
  destruct (read_digits 10 3 0 (Str.display_nat n)) as [[[v k] r]|] eqn:Hd; [|done]. destruct r; [|done].
  rewrite (read_digits_app _ _ _ _ v k rest Hr eq_refl Hd).
  apply andb_true_iff in Hok as [[Hv%bool_decide_eq_true Hk%negb_true_iff]%andb_true_iff Hz]. subst v.
  rewrite bool_decide_eq_false_2 by lia. rewrite Hk. simpl negb.
  replace (Str.starts_with "0" (Str.display_nat n +:+ rest)) with (Str.starts_with "0" (Str.display_nat n)).
  - apply negb_true_iff in Hz. by rewrite andb_true_l, Hz.
  - destruct (Str.display_nat n) as [|a s]; [by injection Hd as <- <-; rewrite bool_decide_eq_true_2 in Hk|].
    rewrite Str.app_cons. unfold Str.starts_with. simpl. by destruct (decide _).
Qed.

Lemma read_octets_step i count n rest :
  (n < 256)%N → ends_number rest →
  read_octets i (S count) (match i with O => "" | S _ => "." end +:+ (Str.display_nat n +:+ rest)) =
  match read_octets (S i) count rest with Some (os, s) => Some (octet n +:+ os, s) | None => None end.
Proof.
  intros Hn Hr. cbn [read_octets]. unfold read_separator. destruct i as [|i].
  - rewrite decide_False by lia. change ("" +:+ ?s) with s. by rewrite read_octet.
  - rewrite decide_True by lia. change ("." +:+ ?s) with (String "." s). unfold read_given_char. rewrite decide_True by done.
    by rewrite read_octet.
Qed.

Lemma read_octets_end i rest : read_octets i 0 rest = Some ("", rest).
Proof. done. Qed.

Lemma read_port_display port : (port ≤ 65535)%N → read_port (":" +:+ Str.display_nat port) = Some (port, "").
Proof.
  intros Hp. destruct (decide (port = 0)%N) as [->|H0]; [reflexivity|]. rewrite display_nat_go by done.
  change (":" +:+ ?s) with (String ":" s). unfold read_port, read_given_char. rewrite decide_True by done. unfold read_number.
  destruct (read_digits_go port "" 0 port 0 "" eq_refl) as (d & Hd & Hl & Hpos).
  rewrite Hl. simpl Str.len. rewrite Hd, Nat.add_0_r. rewrite bool_decide_eq_false_2 by lia.
  specialize (Hpos H0). rewrite bool_decide_eq_false_2 by lia. done.
Qed.

(** The address of a server is read back. Printing a loopback address, or a socket
    address of IPv4, and reading it again gives the same address, with the setting for
    IPv6 that is given. *)
Theorem address_roundtrip v6 (a : Address) :
  (Address_port a ≤ 65535)%N →
  match a with SocketAddress s => match sa_ip s with V4 o => Str.len o = 4 | V6 _ => False end | Localhost _ _ => True end →
  Address_new v6 (Address_to_string a) = Ret (Ok (with_ipv6 v6 a)).
Proof.
  intros Hp Ha. destruct a as [b port|[ip port]]; simpl in Hp.
  - by apply Localhost_new.
  - destruct ip as [o|]; simpl in Ha; [|done].
    destruct o as [|a0 [|a1 [|a2 [|a3 [|]]]]]; simpl in Ha; try done. cbn [Address_to_string SocketAddr_to_string sa_ip sa_port].
    change (display_v4 (octets_of _)) with (Str.display_nat (Str.byte a0) +:+ "." +:+ (Str.display_nat (Str.byte a1) +:+ "." +:+
      (Str.display_nat (Str.byte a2) +:+ "." +:+ Str.display_nat (Str.byte a3)))).
    rewrite !Str.app_assoc.
    assert (∀ c, (Str.byte c < 256)%N) as Hb by (intros c; apply N_ascii_bounded).
    unfold Address_new.
    destruct (Str.starts_with "localhost:" _) eqn:Hl.
    { exfalso. apply Str.starts_with_spec in Hl as [r Hr]. pose proof (Str.display_nat_digits "l" (Str.byte a0) eq_refl) as Hn.
      pose proof (octets_all_ok _ (Hb a0)) as Hok. unfold octet_ok in Hok.
      destruct (Str.display_nat (Str.byte a0)) as [|x s]; [done|]. rewrite Str.contains_char_cons, orb_false_iff, bool_decide_eq_false in Hn.
      injection Hr as Hx _. by destruct Hn. }
    unfold parse_socket_addr, read_socket_addr_v4, read_ipv4_addr.
    pose proof (read_octets_step 0) as H0. pose proof (read_octets_step 1) as H1. pose proof (read_octets_step 2) as H2.
    pose proof (read_octets_step 3) as H3. cbv iota in H0, H1, H2, H3. change ("" +:+ ?s) with s in H0.
    rewrite H0, H1, H2, H3, read_octets_end, read_port_display by done. simpl.
    unfold octet, Str.byte. rewrite !ascii_N_embedding. done.
Qed.

(** * An environment and a file *)

Module ConfigExample.
Definition env (l : list (string * string)) (k : string) : option string := snd <$> Prelude.find (λ e, Str.eqb e.1 k) l.
Definition vars : list (string * string) :=
  [("XDS_ADDRESS", "istiod:15010"); ("NAMESPACE", "prod"); ("HTTP2_STREAM_WINDOW_SIZE", "65535"); ("WORKER_THREADS", "50%");
   ("OTLP_ENDPOINT", ""); ("READINESS_ADDR", "127.0.0.1:8081")].
Definition raw : RawConfig :=
  Build_RawConfig (Some false) None (Some "https://ca") None (Some "dev") (Some "gw") None None None (Some "net") (Some "localhost:9000")
    None None None (Some (secs 60)) (Some (secs 2)) (Some "7") None (Some {| raw_filter := None;
      logging_fields := Some {| raw_remove := ["k"]; raw_add := [("m", "x")] |} |}) None.
Definition scheme (s : string) : result (option string) string :=
  if Str.contains_char " " s then Err "invalid uri character" else
  match Str.split_once ":" s with Some (a, b) => Ok (if Str.starts_with "//" b then Some a else None) | None => Ok None end.
Definition expr (s : string) : option CelExpression := Some (Ident s).
Definition config (l : list (string * string)) (raw : option RawConfig) : comp (result (Config ()) string) :=
  parse_config (env l) (λ _, false) (Ok "0") 9 (λ _, Err "duration") scheme expr (λ _, Ok raw) (Ok ()) false "yaml" (Some "gw.yaml").

Definition made : Config () :=
  mkConfig "net" (secs 2) (secs 2) 5 (Localhost false 9000)
    (SocketAddress {| sa_ip := ipv4_unspecified; sa_port := 15020 |})
    (SocketAddress {| sa_ip := ipv4_localhost; sa_port := 8081 |})
    (Some "gw.prod.svc.cluster.local")
    {| window_size := 65535; connection_window_size := 16 * MIB; frame_size := MIB; pool_max_streams_per_conn := 100;
       pool_unused_release_timeout := secs 300 |}
    {| x_address := Some "https://istiod:15010"; x_namespace := "prod"; x_gateway := "gw"; x_local_config := Some (CfgFile "gw.yaml") |}
    None
    {| trc_endpoint := None; trc_fields := {| remove := ∅; add := from_iter [] |} |}
    {| cfg_filter := None;
       cfg_fields := {| remove := {["k"]};
                        add := from_iter [("m", {| original_expression := "x"; expr_attributes := attributes_of (Ident "x") |})] |} |}
    () (proxy_metadata_of (env vars)) Multithreaded.

(** The environment wins over the file; nine CPUs at half are five threads. *)
Example config_made : config vars (Some raw) = Ret (Ok made).
Proof. vm_compute. reflexivity. Qed.

Lemma config_settings_witness :
  config vars (Some raw) = Ret (Ok made) ∧
  (∃ v6 v6_localhost, settled (env vars) (λ _, false) (Ok "0") 9 (λ _, Err "duration") scheme expr (Ok ()) false raw
     (Some "gw.yaml") v6 v6_localhost made) ∧
  setting (env vars) Ok "NETWORK" (Some "net") "" (network made) ∧
  setting (env vars) (uint_from_str U32_MAX) "HTTP2_STREAM_WINDOW_SIZE" None (4 * MIB)%N (window_size (hbone made)) ∧
  empty_to_none (env vars "CA_ADDRESS") = None ∧ termination_max_deadline made = secs 2.
Proof.
  assert (config vars (Some raw) = Ret (Ok made)) as H by (vm_compute; reflexivity). split; [exact H|].
  destruct (config_settings _ _ _ _ _ _ _ _ _ _ _ _ _ H) as (nested & v6 & v6l & Hy & Hs).
  injection Hy as <-. split; [exists v6, v6l; exact Hs|].
  split; [exact (set_network _ _ _ _ _ _ _ _ _ _ _ _ _ _ Hs)|].
  split; [exact (set_window _ _ _ _ _ _ _ _ _ _ _ _ _ _ Hs)|].
  split; [exact (set_ca _ _ _ _ _ _ _ _ _ _ _ _ _ _ Hs)|].
  exact (set_max_deadline _ _ _ _ _ _ _ _ _ _ _ _ _ _ Hs).
Defined.

(** The file asks for a minute; the drain gets two seconds. *)
Lemma config_unread_settings_witness :
  config vars (Some (forget_unread raw)) = config vars (Some raw) ∧
  raw_connection_termination_deadline raw = Some (secs 60) ∧ termination_max_deadline made = secs 2.
Proof.
  pose proof (config_unread_settings (env vars) (λ _, false) (Ok "0") 9 (λ _, Err "duration") scheme expr
    (λ _, Ok (Some raw)) (Ok ()) false (λ _, Ok (Some (forget_unread raw))) "yaml" (Some "gw.yaml") eq_refl) as [Heq Hd].
  split; [exact Heq|]. split; [reflexivity|].
  refine (proj2 (Hd raw (secs 2) made eq_refl eq_refl eq_refl eq_refl _)). vm_compute. reflexivity.
Defined.

Lemma config_invalid_env_witness :
  config [("WORKER_THREADS", "120%")] None ≠ Ret (Ok made) ∧ config [("XDS_ADDRESS", "istiod 15010")] None ≠ Ret (Ok made).
Proof.
  split; unfold config.
  - eapply (config_invalid_env _ _ _ _ _ _ _ _ _ _ _ _ "WORKER_THREADS" "120%"); [reflexivity|].
    eapply invalid_percentage; [reflexivity|]. intros f Hf. vm_compute in Hf. injection Hf as <-. vm_compute. reflexivity.
  - eapply (config_invalid_env _ _ _ _ _ _ _ _ _ _ _ _ "XDS_ADDRESS" "istiod 15010"); [reflexivity|].
    apply invalid_uri; [left|discriminate|vm_compute; reflexivity].
Defined.

Lemma worker_threads_positive_witness : parse_worker_threads (env vars) 9 = Ok 5%N ∧ (1 ≤ 5)%N.
Proof.
  assert (parse_worker_threads (env vars) 9 = Ok 5%N) as H by (vm_compute; reflexivity). split; [exact H|].
  exact (proj1 (worker_threads_positive _ _ _ H) "50%" "50" eq_refl eq_refl).
Defined.

(** What is not a number is within 0 and 100; a number may ask for no thread. *)
Example worker_threads_odd :
  parse_worker_threads (env [("WORKER_THREADS", "NaN%")]) 9 = Ok 1%N ∧ parse_worker_threads (env [("WORKER_THREADS", "0")]) 9 = Ok 0%N.
Proof. by vm_compute. Qed.

Lemma address_roundtrip_witness :
  Address_new true (Address_to_string (SocketAddress {| sa_ip := ipv4_localhost; sa_port := 15021 |})) =
  Ret (Ok (SocketAddress {| sa_ip := ipv4_localhost; sa_port := 15021 |})).
Proof. apply (address_roundtrip true); [done|reflexivity]. Defined.
End ConfigExample.
