(* ===== verification/Stream.v ===== *)
(** Stream: the connections of the gateway ([transport/stream.rs], [hyperrustls/mod.rs],
    [transport/tls.rs]): what is known of a connection and is found again by the layers
    above it ([Extension]), the layers a connection consists of ([SocketType]), and its byte
    counters, which its clones share.

    [http::Extensions] is a map whose keys are types: an interface with its laws.  TLS
    handshakes and the streams themselves are the environment's. *)
From S2P Require Import Prelude Strs DiscoveryTypes IpParse AgentTypes Filters Client.

(** * What is known of a connection *)

Record TCPConnectionInfo := { peer_addr : SocketAddr; local_addr : SocketAddr; start : N }.

Inductive Alpn := Http11 | H2 | OtherAlpn.
#[export] Instance Alpn_eq_dec : EqDecision Alpn.
Proof. solve_decision. Defined.
Definition Alpn_from (value : string) : Alpn :=
  if Str.eqb value "h2" then H2 else if Str.eqb value "http/1.1" then Http11 else OtherAlpn.

(** The identity of the peer has no data. *)
Record TLSConnectionInfo := { src_identity : option unit; tls_server_name : option string; negotiated_alpn : option Alpn }.
Record HBONEConnectionInfo := { hbone_address : SocketAddr }.

(** The types that are kept, and their values. *)
Inductive Kind := KTcp | KTls | KHbone.
#[export] Instance Kind_eq_dec : EqDecision Kind.
Proof. solve_decision. Defined.
Definition info (k : Kind) : Type :=
  match k with KTcp => TCPConnectionInfo | KTls => TLSConnectionInfo | KHbone => HBONEConnectionInfo end.

(** [http::Extensions] *)
Class ExtensionMap := {
  Extensions : Type;
  ext_new : Extensions;
  ext_insert : ∀ k, info k → Extensions → Extensions * option (info k);
  ext_get : ∀ k, Extensions → option (info k);
  ext_get_new : ∀ k, ext_get k ext_new = None;
  ext_insert_old : ∀ k v m, (ext_insert k v m).2 = ext_get k m;
  ext_get_insert : ∀ k v m, ext_get k (ext_insert k v m).1 = Some v;
  ext_get_insert_ne : ∀ k k' v m, k ≠ k' → ext_get k' (ext_insert k v m).1 = ext_get k' m
}.

Definition to_canonical_ip (ip : IpAddr) : IpAddr :=
  match ip with
  | V6 o => match Str.strip_prefix (zero_groups 5 +:+ group 65535) o with Some v4 => V4 v4 | None => ip end
  | V4 _ => ip
  end.
Definition to_canonical (addr : SocketAddr) : SocketAddr := {| sa_ip := to_canonical_ip (sa_ip addr); sa_port := sa_port addr |}.

(** * Layers *)

(** A stream of the environment, by a number. *)
Inductive SocketType :=
| Tcp (stream : nat)
| Tls (stream : nat) (under : SocketType)
| HboneStream (stream : nat)
| Memory (stream : nat)
| Boxed (inner : SocketType).

(** The stream that reads and writes of a socket go to. *)
Fixpoint leaf (s : SocketType) : nat :=
  match s with Tcp n | Tls n _ | HboneStream n | Memory n => n | Boxed inner => leaf inner end.

Inductive LoggingMode := LogNone | Downstream | Upstream.
Definition LoggingMode_to_string (l : LoggingMode) : string :=
  match l with LogNone => "none" | Downstream => "downstream" | Upstream => "upstream" end.

(** [counter]: the shared counts, by their address. *)
Record Metrics := { counter : option nat; m_logging : LoggingMode }.
Definition Metrics_default : Metrics := {| counter := None; m_logging := LogNone |}.

(** ** Byte counters *)

(** The counts behind each address: sent and received. *)
Abbreviation Counts := (gmap nat (N * N)).
Definition add64 (a : N) (amt : N) : N := ((a + amt) mod 2 ^ 64)%N.
Definition sent (c : nat) (amt : N) (h : Counts) : Counts := alter (λ '(s, r), (add64 s amt, r)) c h.
Definition recv (c : nat) (amt : N) (h : Counts) : Counts := alter (λ '(s, r), (s, add64 r amt)) c h.
Definition load (c : nat) (h : Counts) : N * N := default (0, 0)%N (h !! c).

Definition with_counter (h : Counts) : Counts * Metrics :=
  let c := fresh (dom h) in (<[c := (0, 0)%N]> h, {| counter := Some c; m_logging := LogNone |}).

(** The event of a connection that is dropped. *)
Record Closed := { closed_target : string; closed_sent : option N; closed_recv : option N }.
Definition Metrics_drop (m : Metrics) (h : Counts) : option Closed :=
  let counts := (λ c, load c h) <$> counter m in
  let event t := Some {| closed_target := t; closed_sent := fst <$> counts; closed_recv := snd <$> counts |} in
  match m_logging m with
  | LogNone => None
  | Upstream => event "upstream connection"
  | Downstream => event "downstream connection"
  end.

Section socket.
Context `{!ExtensionMap}.

(** ** [Extension] *)

Inductive Extension := Single (e : Extensions) | Wrapped (e : Extensions) (inner : Extension).

Definition Extension_new : Extension := Single ext_new.
Definition wrap (ext : Extension) : Extension := Wrapped ext_new ext.

Definition insert (k : Kind) (v : info k) (self : Extension) : Extension * option (info k) :=
  match self with
  | Single e => let '(e, old) := ext_insert k v e in (Single e, old)
  | Wrapped e inner => let '(e, old) := ext_insert k v e in (Wrapped e inner, old)
  end.

Fixpoint get (k : Kind) (self : Extension) : option (info k) :=
  match self with
  | Single e => ext_get k e
  | Wrapped e inner => match ext_get k e with Some got => Some got | None => get k inner end
  end.

Definition copy (k : Kind) (self : Extension) (ext : Extensions) : Extensions :=
  match get k self with Some got => (ext_insert k got ext).1 | None => ext end.

(** ** [Socket] *)

Record Socket := mkSocket { ext_of : Extension; inner : SocketType; metrics : Metrics }.

Definition into_parts (self : Socket) : Extension * Metrics * SocketType := (ext_of self, metrics self, inner self).

(** Whether hyper is told that the connection is HTTP/2. *)
Definition connected (self : Socket) : bool :=
  bool_decide ((get KTls (ext_of self) ≫= negotiated_alpn) = Some H2).

Definition from_memory (stream : nat) (i : TCPConnectionInfo) (h : Counts) : Counts * Socket :=
  let '(h, m) := with_counter h in
  (h, mkSocket (insert KTcp i Extension_new).1 (Memory stream) m).

(** The options and addresses of the TCP stream are the system's answers. *)
Definition from_tcp (stream : nat) (set_nodelay : result () string) (peer local : result SocketAddr string) (now : N) (h : Counts)
    : Counts * result Socket string :=
  match (let? _ := set_nodelay in let? p := peer in let? l := local in
         Ok {| peer_addr := to_canonical p; local_addr := to_canonical l; start := now |}) with
  | Err e => (h, Err e)
  | Ok i => let '(h, m) := with_counter h in (h, Ok (mkSocket (insert KTcp i Extension_new).1 (Tcp stream) m))
  end.

(** What a TLS stream knows: the name of the client's hello, for a server, and the
    protocol that was agreed on. *)
Record TlsStream := { tls_stream : nat; tls_under : SocketType; server_side : option (option string); alpn_protocol : option string }.

Definition from_tls (ext : Extension) (m : Metrics) (t : TlsStream) : Socket :=
  let i := {| src_identity := None; tls_server_name := server_side t ≫= id;
              negotiated_alpn := Alpn_from <$> alpn_protocol t |} in
  mkSocket (insert KTls i ext).1 (Tls (tls_stream t) (tls_under t)) m.

Definition from_hbone (ext : Extension) (address : SocketAddr) (stream : nat) : Socket :=
  mkSocket (insert KHbone {| hbone_address := address |} (wrap ext)).1 (HboneStream stream) Metrics_default.

Definition with_logging (l : LoggingMode) (self : Socket) : Socket :=
  mkSocket (ext_of self) (inner self) {| counter := counter (metrics self); m_logging := l |}.

Definition socket_ext (k : Kind) (self : Socket) : option (info k) := get k (ext_of self).
Definition must_ext (k : Kind) (self : Socket) : comp (info k) := expect (socket_ext k self).
Definition tcp (self : Socket) : comp TCPConnectionInfo := expect (get KTcp (ext_of self)).

Definition target_address (self : Socket) : comp SocketAddr :=
  match get KHbone (ext_of self) with
  | Some hci => Ret (hbone_address hci)
  | None => t ← tcp self; Ret (local_addr t)
  end.

(** [dial]: the stream of a connection, or its failure. *)
Definition dial (connect : result nat string) (set_nodelay : result () string) (peer local : result SocketAddr string) (now : N)
    (h : Counts) : Counts * result Socket string :=
  match connect with Ok stream => from_tcp stream set_nodelay peer local now h | Err e => (h, Err e) end.

(** [tls::accept], [terminate_tls] and the connector of HTTPS: a handshake over the
    connection.  A server keeps what is known of it; a client starts anew. *)
Definition accept_tls (handshake : SocketType → result TlsStream string) (conn : Socket) : result Socket string :=
  let '(ext, m, inner) := into_parts conn in
  let? t := handshake (Boxed inner) in Ok (from_tls ext m t).
Definition connect_tls (handshake : SocketType → result TlsStream string) (conn : Socket) : result Socket string :=
  let '(_, m, inner) := into_parts conn in
  let? t := handshake (Boxed inner) in Ok (from_tls Extension_new m t).

(** ** Reading and writing *)

Inductive Poll (A : Type) := Pending | Ready (r : result A string).
Arguments Pending {_}.
Arguments Ready {_} _.

(** A poll of the stream of a socket: a read puts bytes into the buffer, whatever it gives;
    a write gives the bytes that were taken. *)
Inductive Io := Read (filled : N) (r : Poll ()) | Write (r : Poll N) | WriteVectored (r : Poll N) | Flush (r : Poll ()) | Shutdown (r : Poll ()).

(** What a poll of the socket does to the counts. *)
Definition poll_io (self : Socket) (io : Io) (h : Counts) : Counts :=
  match counter (metrics self), io with
  | Some c, Read filled _ => recv c filled h
  | Some c, (Write (Ready (Ok bytes)) | WriteVectored (Ready (Ok bytes))) => sent c bytes h
  | _, _ => h
  end.

(** Polls of several sockets, in the order they happen. *)
Definition run_io (ios : list (Socket * Io)) (h : Counts) : Counts := foldl (λ h '(s, io), poll_io s io h) h ios.

(** ** The connector of the client ([Connector::call]) *)

(** The connections of the environment: a TCP stream, a handshake over it, a tunnel. *)
Record Env := {
  e_connect : result nat string;
  e_nodelay : result () string;
  e_peer : result SocketAddr string;
  e_local : result SocketAddr string;
  e_now : N;
  e_handshake : SocketType → result TlsStream string;
  e_tunnel : result nat string
}.

Definition establish (env : Env) (c : Connection) (h : Counts) : Counts * result Socket string :=
  let dialed := dial (e_connect env) (e_nodelay env) (e_peer env) (e_local env) (e_now env) h in
  let logged '(h, r) := (h, let? s := r in Ok (with_logging Upstream s)) in
  match c with
  | Dial _ => logged dialed
  | DialTls _ _ _ => logged (dialed.1, let? s := dialed.2 in connect_tls (e_handshake env) s)
  | Tunnel _ dst _ => logged (h, let? stream := e_tunnel env in Ok (from_hbone Extension_new dst stream))
  end.

(** * Theorems *)

Lemma get_insert k v self : get k (insert k v self).1 = Some v.
Proof.
  destruct self as [e|e inner]; simpl; destruct (ext_insert k v e) as [e' old] eqn:He; simpl;
    pose proof (ext_get_insert k v e) as Hg; rewrite He in Hg; simpl in Hg; by rewrite Hg.
Qed.

Lemma get_insert_ne k k' v self : k ≠ k' → get k' (insert k v self).1 = get k' self.
Proof.
  intros Hk. destruct self as [e|e inner]; simpl; destruct (ext_insert k v e) as [e' old] eqn:He; simpl;
    pose proof (ext_get_insert_ne k k' v e Hk) as Hg; rewrite He in Hg; simpl in Hg; by rewrite Hg.
Qed.

Lemma get_wrap k ext : get k (wrap ext) = get k ext.
Proof. unfold wrap. simpl. by rewrite ext_get_new. Qed.

Lemma get_new k : get k Extension_new = None.
Proof. apply ext_get_new. Qed.
#[local] Arguments insert : simpl never.
#[local] Arguments wrap : simpl never.

Lemma Alpn_from_H2 a : Alpn_from a = H2 → a = "h2".
Proof.
  unfold Alpn_from. destruct (Str.eqb a "h2") eqn:He; [intros _; by apply Str.eqb_eq|]. by destruct (Str.eqb a "http/1.1").
Qed.

(** *** Layers of a connection *)

(** A layer over a connection: TLS, or the stream of a CONNECT request to an address. *)
Inductive Layer := LTls (t : TlsStream) | LHbone (address : SocketAddr) (stream : nat).
Definition layer (s : Socket) (l : Layer) : Socket :=
  match l with
  | LTls t => from_tls (ext_of s) (metrics s) t
  | LHbone a stream => from_hbone (ext_of s) a stream
  end.
Definition hbone_of (l : Layer) : option SocketAddr := match l with LHbone a _ => Some a | LTls _ => None end.
Definition tls_of (l : Layer) : option TlsStream := match l with LTls t => Some t | LHbone _ _ => None end.

Lemma accept_tls_layer handshake s s' : accept_tls handshake s = Ok s' → ∃ t, handshake (Boxed (inner s)) = Ok t ∧ s' = layer s (LTls t).
Proof. unfold accept_tls. simpl. destruct (handshake _) as [t|]; simpl; [|done]. intros [= <-]. by exists t. Qed.

(** A connection as it is accepted. *)
Definition raw (i : TCPConnectionInfo) (s : Socket) : Prop := ext_of s = (insert KTcp i Extension_new).1.

Lemma from_tcp_raw stream nd p l now h h' s :
  from_tcp stream nd p l now h = (h', Ok s) →
  ∃ pa la, p = Ok pa ∧ l = Ok la ∧ raw {| peer_addr := to_canonical pa; local_addr := to_canonical la; start := now |} s ∧
    counter (metrics s) = Some (fresh (dom h)) ∧ h' = <[fresh (dom h) := (0, 0)%N]> h.
Proof.
  unfold from_tcp. destruct nd; simpl; [|done]. destruct p as [pa|]; simpl; [|done]. destruct l as [la|]; simpl; [|done].
  intros [= <- <-]. by exists pa, la.
Qed.

Lemma layers_get i base ls :
  raw i base → let s := foldl layer base ls in
  get KTcp (ext_of s) = Some i ∧
  get KHbone (ext_of s) = (λ a, {| hbone_address := a |}) <$> last (omap hbone_of ls) ∧
  (get KTls (ext_of s) ≫= negotiated_alpn) = (t ← last (omap tls_of ls); Alpn_from <$> alpn_protocol t).
Proof.
  intros Hraw. induction ls as [|l ls (Ht & Hh & Hl)] using rev_ind; simpl.
  - rewrite Hraw, get_insert, !get_insert_ne, !get_new by done. repeat split; reflexivity.
  - rewrite foldl_app, !omap_app. simpl. destruct l as [t|a stream]; simpl.
    + rewrite !(get_insert_ne KTls) by done. rewrite app_nil_r, last_snoc. split; [done|]. split; [done|]. by rewrite get_insert.
    + rewrite !app_nil_r, last_snoc, (get_insert_ne KHbone KTcp), (get_insert_ne KHbone KTls), !get_wrap by done.
      split; [done|]. split; [|done].
      by rewrite get_insert.
Qed.

(** A connection stays itself under its layers. Whatever layers of TLS and of CONNECT
    streams are put over an accepted connection, its addresses are those it was accepted
    with and are never missing; the target is the address of the last CONNECT, else the
    local address; and it is HTTP/2 to hyper exactly when the last handshake agreed on
    it. *)
Theorem socket_layers i base ls :
  raw i base → let s := foldl layer base ls in
  tcp s = Ret i ∧
  target_address s = Ret (default (local_addr i) (last (omap hbone_of ls))) ∧
  (connected s = true ↔ ∃ t, last (omap tls_of ls) = Some t ∧ alpn_protocol t = Some "h2").
Proof.
  intros Hraw s. destruct (layers_get i base ls Hraw) as (Ht & Hh & Hl). fold s in Ht, Hh, Hl.
  unfold tcp, target_address, connected. rewrite Hh, Hl. unfold tcp. rewrite Ht. split; [done|].
  split; [by destruct (last (omap hbone_of ls))|]. rewrite bool_decide_eq_true.
  destruct (last (omap tls_of ls)) as [t|]; simpl; [|split; [done|by intros (? & ? & _)]]. split.
  - intros Ha. exists t. split; [done|]. destruct (alpn_protocol t) as [a|]; [|done]. simpl in Ha. injection Ha as Ha.
    by apply Alpn_from_H2 in Ha as ->.
  - intros (t' & [= <-] & ->). done.
Qed.

(** *** Bytes *)

(** What the sockets with a counter sent and received. *)
Definition sent_by (c : nat) (e : Socket * Io) : N :=
  match counter (metrics e.1), e.2 with
  | Some c', (Write (Ready (Ok n)) | WriteVectored (Ready (Ok n))) => if decide (c' = c) then n else 0
  | _, _ => 0
  end%N.
Definition recv_by (c : nat) (e : Socket * Io) : N :=
  match counter (metrics e.1), e.2 with Some c', Read n _ => if decide (c' = c) then n else 0 | _, _ => 0 end%N.
Definition total (f : Socket * Io → N) (ios : list (Socket * Io)) : N := foldr (λ e n, f e + n)%N 0%N ios.

Lemma add64_add a x y : add64 (add64 a x) y = add64 a (x + y).
Proof. unfold add64. by rewrite N.Div0.add_mod_idemp_l, N.add_assoc. Qed.

Lemma add64_0 a : (a < 2 ^ 64)%N → add64 a 0 = a.
Proof. intros Ha. unfold add64. by rewrite N.add_0_r, N.mod_small. Qed.

Lemma add64_lt a x : (add64 a x < 2 ^ 64)%N.
Proof. apply N.mod_lt. lia. Qed.

Lemma poll_io_count s io h c a b :
  h !! c = Some (a, b) → (a < 2 ^ 64 ∧ b < 2 ^ 64)%N →
  poll_io s io h !! c = Some (add64 a (sent_by c (s, io)), add64 b (recv_by c (s, io))).
Proof.
  intros Hc [Ha Hb]. unfold poll_io, sent_by, recv_by. simpl.
  destruct (counter (metrics s)) as [c'|]; [|by rewrite !add64_0].
  destruct io as [n r|[|[n|]]|[|[n|]]|r|r]; rewrite ?add64_0 by done; try done; unfold sent, recv; case_decide; subst;
    rewrite ?add64_0 by done; first [by rewrite lookup_alter_eq, Hc | by rewrite lookup_alter_ne by done].
Qed.

(** Every byte of a connection is counted once. After any reads and writes of any
    connections the counts of a connection, which layers of TLS share, are the bytes that
    were read into buffers and the bytes that were taken by writes, modulo 2^64; and the
    event of a connection that is closed reports them. *)
Theorem socket_bytes ios (h : Counts) c a b m :
  h !! c = Some (a, b) → (a < 2 ^ 64 ∧ b < 2 ^ 64)%N → counter m = Some c → m_logging m ≠ LogNone →
  let h' := run_io ios h in
  h' !! c = Some (add64 a (total (sent_by c) ios), add64 b (total (recv_by c) ios)) ∧
  ∃ e, Metrics_drop m h' = Some e ∧ closed_sent e = Some (add64 a (total (sent_by c) ios)) ∧
    closed_recv e = Some (add64 b (total (recv_by c) ios)).
Proof.
  intros Hc Hab Hm Hl h'.
  assert (h' !! c = Some (add64 a (total (sent_by c) ios), add64 b (total (recv_by c) ios))) as Hh.
  { unfold h'. clear h' Hm Hl. revert h a b Hc Hab. induction ios as [|[s io] ios IH]; intros h a b Hc Hab; simpl.
    - destruct Hab. by rewrite !add64_0.
    - rewrite <-!add64_add. apply IH; [by apply poll_io_count|]. split; apply add64_lt. }
  split; [done|]. unfold Metrics_drop, load. rewrite Hm. simpl. rewrite Hh. simpl.
  destruct (m_logging m); [done|eexists..]; repeat split; reflexivity.
Qed.

(** A handshake of a server keeps the counts of the connection. *)
Lemma accept_tls_counter handshake s s' : accept_tls handshake s = Ok s' → metrics s' = metrics s.
Proof. by intros (t & _ & ->)%accept_tls_layer. Qed.

(** *** The client's connections *)

(** A connection of the client is HTTP/2 only by agreement. What is dialed for a pooled
    connection is marked for HTTP/2 exactly when its TLS handshake agreed on [h2]: plain
    connections and tunnels never are. It is logged as an upstream, and every one but a
    tunnel counts its bytes from zero. *)
Theorem upstream_connection env c h h' s :
  establish env c h = (h', Ok s) →
  m_logging (metrics s) = Upstream ∧
  (connected s = true ↔ ∃ ep config name tcp t, c = DialTls ep config name ∧ e_connect env = Ok tcp ∧ e_handshake env (Boxed (Tcp tcp)) = Ok t ∧
     alpn_protocol t = Some "h2") ∧
  match c with
  | Tunnel _ dst _ => counter (metrics s) = None ∧ target_address s = Ret dst
  | _ => ∃ n, counter (metrics s) = Some n ∧ n ∉ dom h ∧ h' = <[n := (0, 0)%N]> h
  end.
Proof.
  assert (∀ s0 h0, dial (e_connect env) (e_nodelay env) (e_peer env) (e_local env) (e_now env) h = (h0, Ok s0) →
    ∃ i stream, e_connect env = Ok stream ∧ raw i s0 ∧ counter (metrics s0) = Some (fresh (dom h)) ∧
    h0 = <[fresh (dom h) := (0, 0)%N]> h ∧ inner s0 = Tcp stream) as Hdial.
  { unfold dial, from_tcp. intros s0 h0. destruct (e_connect env) as [stream|]; [|done]. destruct (e_nodelay env); simpl; [|done].
    destruct (e_peer env); simpl; [|done]. destruct (e_local env); simpl; [|done]. intros [= <- <-]. by eexists _, stream. }
  unfold establish. destruct (dial _ _ _ _ _ h) as [h0 r0]. destruct c as [ep|ep config name|auth dst ident]; simpl.
  - intros [= <- Hs]. destruct r0 as [s0|]; simpl in Hs; [|done]. injection Hs as <-.
    destruct (Hdial s0 h0 eq_refl) as (i & stream & _ & Hraw & Hc & -> & _). split; [done|]. split.
    + unfold connected. simpl. rewrite Hraw, get_insert_ne, get_new by done. rewrite bool_decide_eq_true. simpl. split; [done|].
      by intros (? & ? & ? & ? & ? & ? & _).
    + exists (fresh (dom h)). split; [done|]. split; [apply is_fresh|done].
  - intros [= <- Hs]. destruct r0 as [s0|]; simpl in Hs; [|done]. destruct (Hdial s0 h0 eq_refl) as (i & stream & Hcon & Hraw & Hc & -> & Hi).
    unfold connect_tls in Hs. simpl in Hs. destruct (e_handshake env (Boxed (inner s0))) as [t|] eqn:Ht; simpl in Hs; [|done].
    injection Hs as <-. split; [done|]. split.
    + unfold connected. simpl. rewrite get_insert. simpl. rewrite bool_decide_eq_true. split.
      * intros Ha. exists ep, config, name, stream, t. split; [done|]. split; [done|]. split; [by rewrite <-Hi|].
        destruct (alpn_protocol t) as [a|]; [|done]. simpl in Ha. injection Ha as Ha. by apply Alpn_from_H2 in Ha as ->.
      * intros (? & ? & ? & stream' & t' & _ & Hcon' & Ht' & Ha). assert (stream' = stream) as -> by congruence.
        rewrite <-Hi in Ht'. assert (t' = t) as -> by congruence. by rewrite Ha.
    + exists (fresh (dom h)). split; [done|]. split; [apply is_fresh|done].
  - intros [= <- Hs]. destruct (e_tunnel env) as [stream|]; simpl in Hs; [|done]. injection Hs as <-. split; [done|]. split.
    + unfold connected. rewrite bool_decide_eq_true. simpl. rewrite (get_insert_ne KHbone KTls), get_wrap, get_new by done.
      split; [done|].
      by intros (? & ? & ? & ? & ? & ? & _).
    + split; [done|]. unfold target_address. simpl. by rewrite get_insert.
Qed.
End socket.
Arguments Pending {_}.
Arguments Ready {_} _.

(** * A connection with TLS and a tunnel *)

Module StreamExample.
Definition ext : Type := ∀ k, option (info k).
Definition put (k : Kind) (v : info k) (m : ext) : ext :=
  λ k', match decide (k = k') with left Hk => Some (eq_rect k info v k' Hk) | right _ => m k' end.
#[global] Program Instance ext_map : ExtensionMap := {|
  Extensions := ext; ext_new := λ _, None; ext_insert := λ k v m, (put k v m, m k); ext_get := λ k m, m k |}.
Next Obligation. done. Qed.
Next Obligation. done. Qed.
Next Obligation. intros k v m. simpl. unfold put. by destruct k. Qed.
Next Obligation. intros k k' v m Hk. simpl. unfold put. by destruct (decide (k = k')). Qed.

Definition addr (a : IpAddr) (port : N) : SocketAddr := {| sa_ip := a; sa_port := port |}.
Definition mapped : IpAddr := V6 (zero_groups 5 +:+ group 65535 +:+ "abcd").
Definition accepted : Counts * result Socket string := from_tcp 1 (Ok ()) (Ok (addr mapped 4000)) (Ok (addr (V4 "efgh") 443)) 7 ∅.
Definition conn_info : TCPConnectionInfo := {| peer_addr := addr (V4 "abcd") 4000; local_addr := addr (V4 "efgh") 443; start := 7 |}.
Definition base : Socket := match accepted.2 with Ok s => s | Err _ => from_hbone Extension_new (addr mapped 0) 0 end.
Definition tls_stream_of (alpn : string) : TlsStream :=
  {| tls_stream := 2; tls_under := Boxed (Tcp 1); server_side := Some (Some "a.com"); alpn_protocol := Some alpn |}.

(** A client in a tunnel over TLS: the tunnel's target, the client's address. *)
Lemma socket_layers_witness :
  let s := foldl layer base [LTls (tls_stream_of "h2"); LHbone (addr (V4 "wxyz") 80) 3] in
  raw conn_info base ∧ tcp s = Ret conn_info ∧ target_address s = Ret (addr (V4 "wxyz") 80) ∧ connected s = true.
Proof.
  assert (raw conn_info base) as Hraw by reflexivity. intros s. split; [exact Hraw|].
  destruct (socket_layers conn_info base [LTls (tls_stream_of "h2"); LHbone (addr (V4 "wxyz") 80) 3] Hraw) as (Ht & Ha & Hc).
  split; [exact Ht|]. split; [exact Ha|]. apply Hc. exists (tls_stream_of "h2"). split; reflexivity.
Defined.

Definition ios : list (Socket * Io) :=
  [(base, Read 10 (Ready (Ok ()))); (layer base (LTls (tls_stream_of "x")), Write (Ready (Ok 5%N))); (base, Write Pending);
   (base, Read 2 Pending)].

Lemma socket_bytes_witness :
  run_io ios accepted.1 !! 0 = Some (5, 12)%N ∧
  ∃ e, Metrics_drop {| counter := Some 0; m_logging := Downstream |} (run_io ios accepted.1) = Some e ∧ closed_sent e = Some 5%N.
Proof.
  assert (accepted.1 !! 0 = Some (0, 0)%N) as H0 by reflexivity. split; [vm_compute; reflexivity|].
  destruct (socket_bytes ios accepted.1 0 0 0 {| counter := Some 0; m_logging := Downstream |} H0) as (_ & e & He & Hs & _).
  - split; reflexivity.
  - reflexivity.
  - discriminate.
  - exists e. split; [exact He|exact Hs].
Defined.

Definition env : Env :=
  {| e_connect := Ok 9; e_nodelay := Ok (); e_peer := Ok (addr (V4 "abcd") 1); e_local := Ok (addr (V4 "abcd") 2); e_now := 0;
     e_handshake := λ under, Ok {| tls_stream := 10; tls_under := under; server_side := None; alpn_protocol := Some "h2" |};
     e_tunnel := Ok 11 |}.
Definition https : Connection := DialTls (addr (V4 "abcd") 443) {| btls_config := 3%N |} (SNDns "a.com").

Lemma upstream_connection_witness :
  ∃ h' s, establish env https ∅ = (h', Ok s) ∧ connected s = true ∧ m_logging (metrics s) = Upstream.
Proof.
  assert (∃ h' s, establish env https ∅ = (h', Ok s)) as (h' & s & Hs) by (eexists _, _; reflexivity). exists h', s.
  split; [exact Hs|]. destruct (upstream_connection env https ∅ h' s Hs) as (Hl & Hc & _). split; [|exact Hl].
  apply Hc. eexists _, _, _, _, _. split; [reflexivity|]. split; [reflexivity|]. split; [reflexivity|reflexivity].
Defined.
End StreamExample.
