(* ===== verification/HyperClient.v ===== *)
(** HyperClient: how a request is sent over a connection of the pool
    ([hyper-util-fork/src/client/legacy/client.rs]): the race between an idle connection and
    a new one, the form of the request's target, and the repetition of requests that were
    never sent.  It implements the exchange of [Client].

    Opening connections and sending over one are the environment's; [Uri::from_parts] and
    the check of header values are parameters. *)
From S2P Require Import Prelude Strs Http DiscoveryTypes AgentTypes Filters HttpProxy ConnPool Client.

(** * Configuration and errors *)

Record Config := { retry_canceled_requests : bool; set_host : bool; ver : Ver }.
(** [Builder::new], which the gateway does not change. *)
Definition client_config : Config := {| retry_canceled_requests := true; set_host := true; ver := VerAuto |}.

Inductive ErrorKind := Canceled | ChannelClosed | Connect | UserUnsupportedVersion | SendRequest | NoPoolKey.
#[export] Instance ErrorKind_eq_dec : EqDecision ErrorKind.
Proof. solve_decision. Defined.
Definition is_canceled (e : ErrorKind) : bool := match e with Canceled => true | _ => false end.

Inductive ClientConnectError := Normal (e : ErrorKind) | CheckoutIsClosed (e : Error).

(** * Opening a connection ([connect_to]) *)

Section connect.
Context {K : Type} `{Countable K} (cfg : ConnPool.Config).

Definition ver_of (version : Version) : Ver := match version with HTTP_2 => VerHttp2 | _ => VerAuto end.
Definition is_ver_h2 (version : Version) : bool := match version with HTTP_2 => true | _ => false end.

(** The connecting lock comes first. *)
Definition connect_begin (key : K) (version : Version) (s : PoolInner K) : PoolInner K * result (Connecting K) ErrorKind :=
  match pool_connecting key (ver_of version) s with
  | (s, Some lock) => (s, Ok lock)
  | (s, None) => (s, Err Canceled)
  end.

(** The connector has connected and negotiated [alpn_h2] or not. *)
Definition connect_established (version : Version) (negotiated_h2 : bool) (connecting : Connecting K) (s : PoolInner K)
    : PoolInner K * result (Connecting K * PoolTx) ErrorKind :=
  if negotiated_h2 && negb (is_ver_h2 version) then
    match alpn_h2 connecting s with
    | (s, Some lock) => (s, Ok (lock, Http2))
    | (s, None) => (s, Err Canceled)
    end
  else (s, Ok (connecting, if is_ver_h2 version || negotiated_h2 then Http2 else Http1)).
End connect.

(** * Getting a connection *)

Section client.
Context {P : Type}.

(** What [future::select] of the checkout and the connect gives: which is ready first, and
    what the other gives if it is awaited. *)
Inductive Race :=
| CheckoutFirst (r : result P Error) (connecting : result P ErrorKind)
| ConnectFirst (r : result P ErrorKind) (checkout : result P Error).

(** [pool_key]: the request has one; without a pool the connection is opened. *)
Definition one_connection_for (cfg : Config) (pool_key enabled : bool) (direct : result P ErrorKind) (race : Race)
    : result P ClientConnectError :=
  if negb pool_key then Err (Normal NoPoolKey)
  else if negb enabled then map_err Normal direct
  else
    let is_ver_h2 := match ver cfg with VerHttp2 => true | VerAuto => false end in
    match race with
    | CheckoutFirst (Ok checked_out) _ => Ok checked_out
    | ConnectFirst (Ok connected) _ => Ok connected
    | CheckoutFirst (Err err) connecting =>
      if Error_is_canceled err then map_err Normal connecting else Err (Normal Connect)
    | ConnectFirst (Err err) checkout =>
      if is_canceled err then
        map_err (λ err, if is_ver_h2 && Error_is_canceled err then CheckoutIsClosed err else Normal Connect) checkout
      else Err (Normal err)
    end.

(** The loop over the races it takes; [None] when they are not enough. *)
Fixpoint connection_for (cfg : Config) (pool_key enabled : bool) (races : list (result P ErrorKind * Race))
    : option (result P ErrorKind) :=
  match races with
  | [] => None
  | (direct, race) :: races =>
    match one_connection_for cfg pool_key enabled direct race with
    | Ok pooled => Some (Ok pooled)
    | Err (Normal err) => Some (Err err)
    | Err (CheckoutIsClosed _) =>
      if retry_canceled_requests cfg then connection_for cfg pool_key enabled races else Some (Err Connect)
    end
  end.
End client.
Arguments Race : clear implicits.

(** * Sending *)

Section send.
Context `{!HeaderMapOps, !HttpParsers} {K : Type}.
Context (Uri_from_parts : option string → option string → option string → result Uri string).

(** [Uri::default()] is a slash. *)
Definition Uri_default : Uri :=
  {| uri_scheme := None; uri_authority := None; uri_path_and_query := Some "/"; uri_host := None; uri_port := None;
     uri_path := "/"; uri_query := None |}.

Definition unwrap {A} (r : result A string) : comp A := match r with Ok a => Ret a | Err _ => Panic end.

Definition origin_form (uri : Uri) : comp Uri :=
  match uri_path_and_query uri with
  | Some path => if Str.eqb path "/" then Ret Uri_default else unwrap (Uri_from_parts None None (Some path))
  | None => Ret Uri_default
  end.

Definition absolute_form (uri : Uri) : comp Uri :=
  match uri_scheme uri with
  | Some scheme => if Str.eqb scheme HTTPS then origin_form uri else Ret uri
  | None => Ret uri
  end.

Definition authority_form (uri : Uri) : comp Uri :=
  match uri_authority uri with
  | Some auth => unwrap (Uri_from_parts None (Some auth) None)
  | None => Panic
  end.

Definition is_schema_secure (uri : Uri) : bool :=
  match uri_scheme uri with Some s => Str.eqb s "wss" || Str.eqb s "https" | None => false end.

Definition get_non_default_port (uri : Uri) : option N :=
  match uri_port uri, is_schema_secure uri with
  | Some port, secure =>
    if bool_decide (port = 443%N) && secure then None
    else if bool_decide (port = 80%N) && negb secure then None
    else Some port
  | None, _ => None
  end.

(** The [Host] header, when there is none. *)
Definition host_header (uri : Uri) (h : HeaderMap) : comp HeaderMap :=
  match hdr_get h "host" with
  | Some _ => Ret h
  | None =>
    hostname ← expect (uri_host uri);
    v ← expect (HeaderValue_from_str (match get_non_default_port uri with
                                      | Some port => hostname +:+ ":" +:+ Str.display_nat port
                                      | None => hostname
                                      end));
    Ret (hdr_insert h "host" v)
  end.

(** The request as it is given to a connection of the kind [tx]. *)
Definition prepare (cfg : Config) (tx : PoolTx) (is_proxied : bool) (version : Version) (req : Request)
    : comp (result Request ErrorKind) :=
  match tx with
  | Http2 => Ret (Ok req)
  | Http1 =>
    match version with
    | HTTP_2 => Ret (Err UserUnsupportedVersion)
    | _ =>
      headers ← (if set_host cfg then host_header (req_uri req) (req_headers req) else Ret (req_headers req));
      uri ← (if Str.eqb (req_method req) "CONNECT" then authority_form (req_uri req)
             else if is_proxied then absolute_form (req_uri req)
             else origin_form (req_uri req));
      Ret (Ok (with_uri (with_headers req headers) uri))
    end
  end.

(** What happens to a request that is given to a connection: an answer, an error after it
    may have been sent, or an error with the request handed back. *)
Inductive Sending := Answered (resp : Response) | Failed | HandedBack.

(** An attempt: the connection it gets, whether it is a proxy, and the sending. *)
Record Attempt := { at_connection : result (Pooled K) ErrorKind; at_proxied : bool; at_sending : Sending }.

Inductive TrySendError := Retryable (error : ErrorKind) (req : Request) (connection_reused : bool) | Nope (error : ErrorKind).

(** The result, and the request that was given to a connection. *)
Definition try_send_request (cfg : Config) (version : Version) (req : Request) (a : Attempt)
    : comp (option Request * result Response TrySendError) :=
  match at_connection a with
  | Err err => Ret (None, Err (Nope err))
  | Ok pooled =>
    r ← prepare cfg (pc_tx (p_value pooled)) (at_proxied a) version req;
    Ret (match r with
         | Err err => (None, Err (Nope err))
         | Ok req =>
           (Some req, match at_sending a with
                      | Answered resp => Ok resp
                      | Failed => Err (Nope SendRequest)
                      | HandedBack => Err (Retryable Canceled req (p_is_reused pooled))
                      end)
         end)
  end.

(** The loop of [send_request] over the attempts it takes, with the requests given to
    connections; [None] when the attempts are not enough. *)
Fixpoint send_loop (cfg : Config) (version : Version) (uri : Uri) (req : Request) (attempts : list Attempt)
    : comp (list Request * option (result Response ErrorKind)) :=
  match attempts with
  | [] => Ret ([], None)
  | a :: attempts =>
    '(given, r) ← try_send_request cfg version req a;
    match r with
    | Ok resp => Ret (option_list given, Some (Ok resp))
    | Err (Nope err) => Ret (option_list given, Some (Err err))
    | Err (Retryable error req connection_reused) =>
      if negb (retry_canceled_requests cfg) || negb connection_reused then Ret (option_list given, Some (Err error))
      else
        '(log, r) ← send_loop cfg version uri (with_uri req uri) attempts;
        Ret (option_list given ++ log, r)
    end
  end.

Definition send_request (cfg : Config) (version : Version) (req : Request) (attempts : list Attempt) :=
  send_loop cfg version (req_uri req) req attempts.
End send.

(** * Theorems *)

Section send_theorems.
Context `{!HeaderMapOps, !HttpParsers, !HeaderMapLaws}.
Context (Uri_from_parts : option string → option string → option string → result Uri string).
(** [Uri::from_parts] keeps the parts it is given. *)
Context (Hparts : ∀ s a p u, Uri_from_parts s a p = Ok u →
  uri_scheme u = s ∧ uri_authority u = a ∧ uri_path_and_query u = p).

Lemma origin_form_spec u u' : origin_form Uri_from_parts u = Ret u' →
  uri_scheme u' = None ∧ uri_authority u' = None ∧ uri_path_and_query u' = Some (default "/" (uri_path_and_query u)).
Proof.
  unfold origin_form, unwrap. destruct (uri_path_and_query u) as [p|]; [|by intros [= <-]].
  destruct (Str.eqb p "/") eqn:E; [apply Str.eqb_eq in E as ->; by intros [= <-]|].
  destruct (Uri_from_parts _ _ _) as [v|] eqn:Hu; [|done]. intros [= <-]. by apply Hparts in Hu.
Qed.

Lemma authority_form_spec u u' : authority_form Uri_from_parts u = Ret u' →
  uri_scheme u' = None ∧ uri_authority u' = uri_authority u ∧ uri_path_and_query u' = None.
Proof.
  unfold authority_form, unwrap. destruct (uri_authority u) as [a|]; [|done].
  destruct (Uri_from_parts _ _ _) as [v|] eqn:Hu; [|done]. intros [= <-]. by apply Hparts in Hu.
Qed.

Lemma host_header_spec u h h' : host_header u h = Ret h' →
  (∃ v, hdr_get h' "host" = Some v ∧ (∀ w, hdr_get h "host" = Some w → v = w) ∧
    (hdr_get h "host" = None → ∃ name, uri_host u = Some name ∧
       HeaderValue_from_str (match get_non_default_port u with
                             | Some port => name +:+ ":" +:+ Str.display_nat port | None => name end) = Some v)) ∧
  (∀ k, k ≠ "host" → hdr_get_all h' k = hdr_get_all h k).
Proof.
  unfold host_header. destruct (hdr_get h "host") as [w|] eqn:Hw; [intros [= <-]; rewrite Hw; naive_solver|].
  destruct (uri_host u) as [name|]; [|done]. simpl. destruct (HeaderValue_from_str _) as [v|] eqn:Hv; [|done].
  intros [= <-]. split.
  - exists v. unfold hdr_get. rewrite hdr_get_all_insert, decide_True by done. naive_solver.
  - intros k Hk. by rewrite hdr_get_all_insert, decide_False by done.
Qed.

(** The form of a request on the wire. Over HTTP/2 a request is sent as it is. Over
    HTTP/1 an HTTP/2 request is refused; any other keeps its method and body, has a [Host]
    header (its own, or the URI's host with a port that is not the scheme's), and its
    target is the authority for CONNECT and the path with the query otherwise, unless the
    connection is a proxy's and the scheme is not https. *)
Theorem hyper_request_form cfg tx proxied version req req' :
  set_host cfg = true → prepare Uri_from_parts cfg tx proxied version req = Ret (Ok req') →
  req_method req' = req_method req ∧ req_body req' = req_body req ∧
  match tx with
  | Http2 => req' = req
  | Http1 =>
    version ≠ HTTP_2 ∧
    (∃ v, hdr_get (req_headers req') "host" = Some v ∧ (∀ w, hdr_get (req_headers req) "host" = Some w → v = w) ∧
      (hdr_get (req_headers req) "host" = None → ∃ name, uri_host (req_uri req) = Some name ∧
         HeaderValue_from_str (match get_non_default_port (req_uri req) with
                               | Some port => name +:+ ":" +:+ Str.display_nat port | None => name end) = Some v)) ∧
    (∀ k, k ≠ "host" → hdr_get_all (req_headers req') k = hdr_get_all (req_headers req) k) ∧
    (uri_scheme (req_uri req'), uri_authority (req_uri req'), uri_path_and_query (req_uri req')) =
      (if Str.eqb (req_method req) "CONNECT" then (None, uri_authority (req_uri req), None)
       else if proxied && negb (bool_decide (uri_scheme (req_uri req) = Some HTTPS))
       then (uri_scheme (req_uri req), uri_authority (req_uri req), uri_path_and_query (req_uri req))
       else (None, None, Some (default "/" (uri_path_and_query (req_uri req)))))
  end.
Proof.
  intros Hset. destruct tx; simpl; [|by intros [= <-]].
  assert (version = HTTP_2 ∨ version ≠ HTTP_2) as [->|Hv] by (destruct version; naive_solver); [done|]. rewrite Hset.
  destruct (host_header (req_uri req) (req_headers req)) as [h|] eqn:Hh; [|by destruct version].
  apply host_header_spec in Hh as [Hhost Hrest]. intros Hp.
  assert (∃ u, (if Str.eqb (req_method req) "CONNECT" then authority_form Uri_from_parts (req_uri req)
                else if proxied then absolute_form Uri_from_parts (req_uri req)
                else origin_form Uri_from_parts (req_uri req)) = Ret u ∧
    req' = with_uri (with_headers req h) u) as (u & Hu & ->)
    by (destruct version; try done; apply comp_bind_Ret in Hp as (? & [= <-] & (u & Hu & [= <-])%comp_bind_Ret); by exists u).
  do 2 (split; [done|]). split; [done|]. split; [exact Hhost|]. split; [exact Hrest|]. simpl.
  destruct (Str.eqb (req_method req) "CONNECT"); [by apply authority_form_spec in Hu as (-> & -> & ->)|].
  destruct proxied; simpl; [|by apply origin_form_spec in Hu as (-> & -> & ->)].
  unfold absolute_form in Hu. destruct (uri_scheme (req_uri req)) as [s|] eqn:Hs.
  - destruct (Str.eqb s HTTPS) eqn:E; [apply Str.eqb_eq in E as ->|assert (s ≠ HTTPS) by (rewrite <-Str.eqb_eq; congruence)].
    + rewrite bool_decide_eq_true_2 by done. by apply origin_form_spec in Hu as (-> & -> & ->).
    + rewrite bool_decide_eq_false_2 by congruence. simpl. by injection Hu as <-; rewrite Hs.
  - rewrite bool_decide_eq_false_2 by done. simpl. by injection Hu as <-; rewrite Hs.
Qed.
End send_theorems.

Section attempts.
Context `{!HeaderMapOps, !HttpParsers} {K : Type}.
Context (Uri_from_parts : option string → option string → option string → result Uri string).

Lemma prepare_same cfg tx proxied version req req' :
  prepare Uri_from_parts cfg tx proxied version req = Ret (Ok req') →
  req_method req' = req_method req ∧ req_body req' = req_body req.
Proof.
  destruct tx; simpl; [|by intros [= <-]].
  destruct version; try done; intros (? & _ & (? & _ & [= <-])%comp_bind_Ret)%comp_bind_Ret; done.
Qed.

(** An attempt that leaves the request to be sent again: it was handed back by a connection
    that had served before. *)
Definition repeats (a : Attempt (K := K)) : Prop :=
  ∃ p, at_connection a = Ok p ∧ p_is_reused p = true ∧ at_sending a = HandedBack.
(** [a] is given [req]. *)
Definition given cfg version (req req' : Request) (a : Attempt (K := K)) : Prop :=
  ∃ p q, at_connection a = Ok p ∧ prepare Uri_from_parts cfg (pc_tx (p_value p)) (at_proxied a) version q = Ret (Ok req') ∧
    req_uri q = req_uri req ∧ req_method q = req_method req ∧ req_body q = req_body req.

Lemma try_send_request_inv cfg version req a g r : try_send_request Uri_from_parts cfg version req a = Ret (g, r) →
  (∀ req', g = Some req' → given cfg version req req' a) ∧
  match r with
  | Ok resp => at_sending a = Answered resp ∧ is_Some g
  | Err (Nope _) => g = None ∨ at_sending a = Failed
  | Err (Retryable _ req' reused) => g = Some req' ∧ at_sending a = HandedBack ∧ (reused = true ↔ repeats a)
  end.
Proof.
  unfold try_send_request, repeats. destruct (at_connection a) as [p|e] eqn:Hc; [|intros [= <- <-]; naive_solver].
  intros ([q|e] & Hp & [= <- <-])%comp_bind_Ret.
  - split; [intros req' [= <-]; by exists p, req|]. destruct (at_sending a); naive_solver.
  - split; [done|by left].
Qed.

Lemma given_same cfg version req0 req req' a : req_uri req = req_uri req0 → req_method req = req_method req0 →
  req_body req = req_body req0 → given cfg version req req' a → given cfg version req0 req' a.
Proof. intros Hu Hm Hb (p & q & Hc & Hp & ? & ? & ?). exists p, q. split_and!; congruence. Qed.

(** C28: a request is sent at most once. It is only sent again when retrying is configured and
    every connection that it was given to before had served another request and handed it
    back unsent; the first attempt that ends otherwise decides: its answer is the answer,
    and after a failure there is no other attempt.  Each attempt starts from the original
    URI, method and body. *)
Theorem hyper_at_most_once cfg version req attempts log r :
  send_request Uri_from_parts cfg version req attempts = Ret (log, r) →
  match r with
  | None => Forall repeats attempts ∧ Forall2 (given cfg version req) log attempts
  | Some r => ∃ before a rest sent g, attempts = before ++ a :: rest ∧ log = sent ++ option_list g ∧
      Forall repeats before ∧ Forall2 (given cfg version req) sent before ∧
      (before ≠ [] → retry_canceled_requests cfg = true) ∧
      (∀ req', g = Some req' → given cfg version req req' a) ∧
      match r with
      | Ok resp => at_sending a = Answered resp ∧ is_Some g
      | Err _ => g = None ∨ at_sending a = Failed ∨
                 at_sending a = HandedBack ∧ (retry_canceled_requests cfg = true → ¬ repeats a)
      end
  end.
Proof.
  intros Hl. assert (∃ req1, req_uri req1 = req_uri req ∧ req_method req1 = req_method req ∧ req_body req1 = req_body req ∧
    send_loop Uri_from_parts cfg version (req_uri req) req1 attempts = Ret (log, r)) as (req1 & Hu & Hm & Hb & Hl1) by by exists req.
  clear Hl. revert req1 Hu Hm Hb log r Hl1. induction attempts as [|a attempts IH]; intros req1 Hu Hm Hb log r; simpl.
  { by intros [= <- <-]. }
  intros ([g t] & Ht & Hr)%comp_bind_Ret. apply try_send_request_inv in Ht as [Hg Ht].
  assert (∀ req', g = Some req' → given cfg version req req' a) as Hg0 by (intros ??; eapply given_same; eauto).
  assert (∀ o, Ret (option_list g, Some o) = Ret (log, r) → r = Some o ∧ log = [] ++ option_list g) as Hend by naive_solver.
  destruct t as [resp|[error req' reused|err]].
  - apply Hend in Hr as [-> ->]. exists [], a, attempts, [], g. naive_solver.
  - destruct Ht as (-> & Hs & Hrep). destruct (negb (retry_canceled_requests cfg) || negb reused) eqn:E.
    { apply Hend in Hr as [-> ->]. exists [], a, attempts, [], (Some req'). split_and!; try done.
      right; right. split; [done|]. destruct reused, (retry_canceled_requests cfg); naive_solver. }
    apply orb_false_iff in E as [Hc ->%negb_false_iff]. apply negb_false_iff in Hc. assert (repeats a) as Ha by naive_solver.
    apply comp_bind_Ret in Hr as ([log' r'] & Hl & [= <- <-]). specialize (Hg0 req' eq_refl).
    apply IH in Hl; [|done|destruct Hg0 as (? & ? & ? & [? ?]%prepare_same & ? & ? & ?); simpl; congruence..]. destruct r' as [r'|]; [|by destruct Hl; split; constructor].
    destruct Hl as (before & a' & rest & sent & g' & -> & -> & Hl). exists (a :: before), a', rest, (req' :: sent), g'.
    destruct Hl as (? & ? & ? & ? & ?). split_and!; try done; by constructor.
  - apply Hend in Hr as [-> ->]. exists [], a, attempts, [], g. naive_solver.
Qed.
End attempts.

(** Getting a connection takes one race: the first of the idle and the new connection that
    is ready is used; when the checkout is cancelled the new connection decides, and when
    opening is cancelled (another request holds the lock) the checkout does.  A checkout
    that fails then is an error, whatever the version of the request: it is only tried
    again for a client that is configured for HTTP/2, which this one is not. *)
Theorem hyper_one_race {P} (direct : result P ErrorKind) race races :
  connection_for client_config true true ((direct, race) :: races) =
  Some (match race with
        | CheckoutFirst (Ok p) _ | ConnectFirst (Ok p) _ => Ok p
        | CheckoutFirst (Err e) connecting => if Error_is_canceled e then connecting else Err Connect
        | ConnectFirst (Err e) checkout => if is_canceled e then map_err (λ _, Connect) checkout else Err e
        end).
Proof. destruct race as [[p|e] [p'|e']|[p|e] [p'|e']]; simpl; try done; by destruct e. Qed.

Section connect_theorems.
Context {K : Type} `{Countable K} (cfg : ConnPool.Config).

(** The state with another pool and locks. *)
Definition with_locks (s : Sys (K := K)) (inner' : PoolInner K) (locks' : gmap nat (Connecting K)) (n : nat) : Sys :=
  mkSys inner' (held s) (checkouts s) locks' n.

Lemma connect_begin_lock key version (s s' : PoolInner K) ct : connect_begin key version s = (s', Ok ct) →
  pool_connecting key (ver_of version) s = (s', Some ct) ∧ ct_key ct = key ∧ ct_lock ct = is_ver_h2 version.
Proof.
  unfold connect_begin. destruct (pool_connecting _ _ s) as [s1 [ct1|]] eqn:E; [|done]. intros [= -> ->]. split; [done|].
  destruct version; simpl in E; [by simplify_eq..|]. destruct (decide _); by simplify_eq.
Qed.

Lemma connect_established_lock version h2 ct (s s' : PoolInner K) ct' tx :
  ct_lock ct = is_ver_h2 version → connect_established version h2 ct s = (s', Ok (ct', tx)) →
  ct_key ct' = ct_key ct ∧ (tx = Http2 ↔ ct_lock ct' = true) ∧
  ((s' = s ∧ ct' = ct) ∨ ct_lock ct = false ∧ alpn_h2 ct s = (s', Some ct')).
Proof.
  unfold connect_established. intros Hl. destruct (h2 && negb (is_ver_h2 version)) eqn:E.
  - apply andb_true_iff in E as [-> E%negb_true_iff]. rewrite E in Hl.
    destruct (alpn_h2 ct s) as [s1 [ct1|]] eqn:Ha; [|done]. intros [= <- <- <-].
    assert (ct_key ct1 = ct_key ct ∧ ct_lock ct1 = true) as [Hk Hl1]
      by (unfold alpn_h2 in Ha; simpl in Ha; destruct (decide _); by simplify_eq/=).
    by split_and!; [| |right].
  - intros [= <- <- <-]. split_and!; [done| |by left]. rewrite Hl. by destruct h2, (is_ver_h2 version).
Qed.

(** Opening a connection follows the protocol of the pool. From a reachable state of the
    pool, starting to connect, failing, and ending with a connection of the kind that was
    asked for or negotiated lead to reachable states (so what is proved of those holds of
    the client): a connection is HTTP/2 exactly when it holds the key's connecting lock as
    it enters the pool, and a request for HTTP/2 never gets an HTTP/1 connection. *)
Theorem hyper_connect_refines s : reachable cfg s →
  (∀ key version s' ct, connect_begin key version (inner s) = (s', Ok ct) →
     ct_key ct = key ∧ ct_lock ct = is_ver_h2 version ∧
     reachable cfg (with_locks s s' (<[next s := ct]> (locks s)) (S (next s)))) ∧
  (∀ i ct version h2 s1 r, locks s !! i = Some ct → ct_lock ct = is_ver_h2 version →
     connect_established version h2 ct (inner s) = (s1, r) →
     match r with
     | Err _ => reachable cfg (with_locks s s1 (delete i (locks s)) (next s))
     | Ok (ct', tx) =>
       (is_ver_h2 version = true → tx = Http2) ∧ (tx = Http2 ↔ ct_lock ct' = true) ∧ ct_key ct' = ct_key ct ∧
       ∀ now raced s2 p, fair s raced →
         pooled cfg now raced ct' (mkPoolClient (next s) tx (ct_key ct')) s1 = Ret (s2, p) →
         reachable cfg (mkSys s2 (<[next s := p]> (held s)) (checkouts s) (delete i (locks s)) (S (next s)))
     end).
Proof.
  intros Hs. split.
  - intros key version s' ct (Hc & Hk & Hl)%connect_begin_lock. do 2 (split; [done|]).
    eapply rtc_r; [exact Hs|]. by eapply step_connecting.
  - intros i ct version h2 s1 r Hi Hl Hr. destruct r as [[ct' tx]|e].
    + destruct (connect_established_lock _ _ _ _ _ _ _ Hl Hr) as (Hk & Htx & Hcase).
      split_and!; [|done..|].
      { intros Hv. apply Htx. destruct Hcase as [[_ ->]|[Hf _]]; congruence. }
      intros now raced s2 p Hf Hp. destruct Hcase as [[-> ->]|[Hfree Ha]].
      * eapply rtc_r; [exact Hs|]. eapply step_connected; [done|by apply Htx|done|done].
      * eapply rtc_r; [eapply rtc_r; [exact Hs|by eapply (step_alpn _ _ i ct)]|]. simpl.
        replace (delete i (locks s)) with (delete i (<[i := ct']> (locks s))) by by rewrite delete_insert_eq.
        refine (step_connected cfg (mkSys s1 (held s) (checkouts s) (<[i := ct']> (locks s)) (next s)) i ct' tx now raced s2 p _ _ Hf Hp);
          [apply lookup_insert_eq|by apply Htx].
    + unfold connect_established in Hr. destruct (h2 && negb (is_ver_h2 version)) eqn:E; [|done].
      apply andb_true_iff in E as [-> E%negb_true_iff]. rewrite E in Hl.
      destruct (alpn_h2 ct (inner s)) as [s2 [ct'|]] eqn:Ha; simplify_eq.
      eapply rtc_r; [exact Hs|]. exact (step_alpn cfg s i ct s1 None Hi Hl Ha).
Qed.
End connect_theorems.

(** * Examples *)

Module HyperExample.
#[local] Existing Instance gmap_headers.
#[local] Existing Instance gmap_headers_laws.
#[local] Existing Instance example_parsers.

Definition from_parts (s a p : option string) : result Uri string :=
  Ok {| uri_scheme := s; uri_authority := a; uri_path_and_query := p; uri_host := a; uri_port := None;
        uri_path := default "" p; uri_query := None |}.
Lemma from_parts_law s a p u : from_parts s a p = Ok u →
  uri_scheme u = s ∧ uri_authority u = a ∧ uri_path_and_query u = p.
Proof. by intros [= <-]. Qed.

Definition req : Request :=
  {| req_method := "GET";
     req_uri := {| uri_scheme := Some "http"; uri_authority := Some "a.com:8080"; uri_path_and_query := Some "/x";
                   uri_host := Some "a.com"; uri_port := Some 8080%N; uri_path := "/x"; uri_query := None |};
     req_headers := hdr_new; req_body := "b"; req_original_url := None |}.
Definition sent : Request :=
  {| req_method := "GET";
     req_uri := {| uri_scheme := None; uri_authority := None; uri_path_and_query := Some "/x";
                   uri_host := None; uri_port := None; uri_path := "/x"; uri_query := None |};
     req_headers := hdr_insert hdr_new "host" "a.com:8080"; req_body := "b"; req_original_url := None |}.

Lemma hyper_request_form_witness : prepare from_parts client_config Http1 false HTTP_11 req = Ret (Ok sent) ∧
  req_method sent = req_method req ∧ uri_path_and_query (req_uri sent) = Some "/x".
Proof.
  assert (prepare from_parts client_config Http1 false HTTP_11 req = Ret (Ok sent)) as Hp by reflexivity.
  destruct (hyper_request_form from_parts from_parts_law client_config Http1 false HTTP_11 req sent eq_refl Hp)
    as (Hm & _ & _ & _ & _ & Hu).
  split; [exact Hp|]. split; [exact Hm|]. simpl in Hu. simpl. congruence.
Defined.

(** A connection that was closed while it was idle, and a new one. *)
Definition stale : Attempt (K := nat) :=
  {| at_connection := Ok (mkPooled (mkPoolClient 1 Http1 5) true 5 true); at_proxied := false; at_sending := HandedBack |}.
Definition resp : Response := {| resp_status := 200; resp_headers := hdr_new; resp_body := "" |}.
Definition fresh : Attempt (K := nat) :=
  {| at_connection := Ok (mkPooled (mkPoolClient 2 Http1 5) false 5 true); at_proxied := false; at_sending := Answered resp |}.

Lemma hyper_at_most_once_witness :
  send_request from_parts client_config HTTP_11 req [stale; fresh] = Ret ([sent; sent], Some (Ok resp)) ∧
  ∃ before a rest, [stale; fresh] = before ++ a :: rest ∧ at_sending a = Answered resp.
Proof.
  assert (send_request from_parts client_config HTTP_11 req [stale; fresh] = Ret ([sent; sent], Some (Ok resp))) as Hs by reflexivity.
  split; [exact Hs|].
  destruct (hyper_at_most_once from_parts client_config HTTP_11 req [stale; fresh] [sent; sent] (Some (Ok resp)) Hs)
    as (before & a & rest & _ & _ & Ha & _ & _ & _ & _ & _ & Hr & _).
  exists before, a, rest. by split.
Defined.

Lemma hyper_connect_refines_witness :
  reachable ConnPoolExample.cfg (with_locks (K := nat) initial (mkPool {[5]} ∅ ∅ false ∅) {[0 := mkConnecting 5 true]} 1).
Proof.
  destruct (hyper_connect_refines (K := nat) ConnPoolExample.cfg initial (rtc_refl _ _)) as [H _].
  destruct (H 5 HTTP_2 (mkPool {[5]} ∅ ∅ false ∅) (mkConnecting 5 true)) as (_ & _ & Hr); [vm_compute; reflexivity|].
  exact Hr.
Defined.
End HyperExample.
