(* ===== verification/Connected.v ===== *)
(** Connected: what the HTTP client knows of a transport
    ([hyper-util-fork/src/client/legacy/connect/mod.rs]), the capture of it by a caller
    ([connect/capture.rs]), and a connection under a drain ([GracefulConnectionFuture] of
    [core/src/drain.rs]). *)
From S2P Require Import Prelude.

(** * [Connected] *)

Section connected.
Context {V : Type}.

Inductive Alpn := H2 | NoAlpn.

(** A value of some type: the type's identifier and the value; [http::Extensions] holds one
    value of each type. *)
Local Abbreviation Typed := (string * V)%type.
Local Abbreviation Extensions := (gmap string V).

Inductive Extra :=
| ExtraEnvelope (v : Typed)
| ExtraChain (prev : Extra) (v : Typed).

Fixpoint Extra_set (this : Extra) (res : Extensions) : Extensions :=
  match this with
  | ExtraEnvelope v => <[v.1 := v.2]> res
  | ExtraChain prev v => <[v.1 := v.2]> (Extra_set prev res)
  end.

Fixpoint clone_box (this : Extra) : Extra :=
  match this with
  | ExtraEnvelope v => ExtraEnvelope v
  | ExtraChain prev v => ExtraChain (clone_box prev) v
  end.

(** The flags of the pills, by the address of their [Arc]; a [Connected] has the address
    of its own. *)
Local Abbreviation Pills := (gmap nat bool).

Record Connected := mkConnected {
  alpn : Alpn;
  proxied : bool;
  extra : option Extra;
  pill : nat
}.

Definition healthy (h : Pills) : Pills * nat := let p := fresh (dom h) in (<[p := false]> h, p).
Definition poison (this : Connected) (h : Pills) : Pills := <[pill this := true]> h.
Definition poisoned (this : Connected) (h : Pills) : bool := default false (h !! pill this).

Definition Connected_new (h : Pills) : Pills * Connected :=
  let '(h, p) := healthy h in (h, mkConnected NoAlpn false None p).
Definition proxy (is_proxied : bool) (this : Connected) : Connected :=
  mkConnected (alpn this) is_proxied (extra this) (pill this).
Definition with_extra (v : Typed) (this : Connected) : Connected :=
  mkConnected (alpn this) (proxied this)
    (Some (match extra this with Some prev => ExtraChain prev v | None => ExtraEnvelope v end)) (pill this).
Definition get_extras (this : Connected) (extensions : Extensions) : Extensions :=
  match extra this with Some e => Extra_set e extensions | None => extensions end.
Definition negotiated_h2 (this : Connected) : Connected :=
  mkConnected H2 (proxied this) (extra this) (pill this).
Definition is_negotiated_h2 (this : Connected) : bool := match alpn this with H2 => true | NoAlpn => false end.
Definition Connected_clone (this : Connected) : Connected :=
  mkConnected (alpn this) (proxied this) (clone_box <$> extra this) (pill this).

(** ** Extras *)

Lemma clone_box_eq e : clone_box e = e.
Proof. induction e as [|e IH v]; simpl; congruence. Qed.
Lemma Connected_clone_eq c : Connected_clone c = c.
Proof. destruct c as [a x [e|] p]; unfold Connected_clone; simpl; [by rewrite clone_box_eq|done]. Qed.

Lemma get_extras_with_extra v c ext : get_extras (with_extra v c) ext = <[v.1 := v.2]> (get_extras c ext).
Proof. destruct c as [a x [e|] p]; done. Qed.

(** Extras are kept. Those that are added to a connection are found in the extensions
    of an answer, the last one of each type, and what else was there stays; also when the
    connection is cloned in between. *)
Theorem connected_extras (vs : list Typed) (c : Connected) ext t :
  extra c = None →
  let c' := foldl (λ c v, with_extra v (Connected_clone c)) c vs in
  get_extras c' ext !! t = match last (filter (λ v, v.1 = t) vs) with Some v => Some v.2 | None => ext !! t end ∧
  alpn c' = alpn c ∧ proxied c' = proxied c ∧ pill c' = pill c.
Proof.
  intros Hc. induction vs as [|v vs [IH1 IH2]] using rev_ind; [by unfold get_extras; simpl; rewrite Hc|].
  rewrite foldl_app. cbn [foldl]. rewrite Connected_clone_eq, get_extras_with_extra. split; [|exact IH2].
  rewrite filter_app, filter_cons, filter_nil. destruct (decide (v.1 = t)) as [<-|Hn].
  - rewrite last_snoc. apply lookup_insert_eq.
  - rewrite app_nil_r, <-IH1. by rewrite lookup_insert_ne.
Qed.

(** ** Poisoning

    The connections that exist, and their pills. *)

Record Sys := mkSys { pills : Pills; conns : list Connected }.
Inductive Op := ONew | OClone (i : nat) | OSet (i : nat) (f : Connected → Connected) | OPoison (i : nat).

(** What may be done to a connection besides: its methods but [poison] keep its pill. *)
Definition keeps_pill (o : Op) : Prop := match o with OSet _ f => ∀ c, pill (f c) = pill c | _ => True end.

Definition op_step (s : Sys) (o : Op) : Sys :=
  match o with
  | ONew => let '(h, c) := Connected_new (pills s) in mkSys h (conns s ++ [c])
  | OClone i => match conns s !! i with Some c => mkSys (pills s) (conns s ++ [Connected_clone c]) | None => s end
  | OSet i f => mkSys (pills s) (alter f i (conns s))
  | OPoison i => match conns s !! i with Some c => mkSys (poison c (pills s)) (conns s) | None => s end
  end.

(** The transports: connection [i] is a handle of the transport at [i], and which
    transports were poisoned. *)
Definition transports_step (s : list nat * (nat → Prop) * nat) (o : Op) : list nat * (nat → Prop) * nat :=
  let '(ts, bad, n) := s in
  match o with
  | ONew => (ts ++ [n], bad, S n)
  | OClone i => match ts !! i with Some t => (ts ++ [t], bad, n) | None => s end
  | OSet _ _ => s
  | OPoison i => match ts !! i with Some t => (ts, λ t', t' = t ∨ bad t', n) | None => s end
  end.

(** The pill of each transport is its own. *)
Record same (p : nat → nat) (s : Sys) (ts : list nat) (bad : nat → Prop) (n : nat) : Prop := {
  same_conns : Forall2 (λ c t, t < n ∧ pill c = p t) (conns s) ts;
  same_inj t t' : t < n → t' < n → p t = p t' → t = t';
  same_dom t : t < n → is_Some (pills s !! p t);
  same_bad t : t < n → pills s !! p t = Some true ↔ bad t;
  same_fresh t : bad t → t < n
}.

Lemma same_lookup p s ts bad n i : same p s ts bad n →
  match conns s !! i, ts !! i with
  | Some c, Some t => t < n ∧ pill c = p t
  | None, None => True
  | _, _ => False
  end.
Proof.
  intros H. pose proof (same_conns _ _ _ _ _ H) as Hf.
  destruct (conns s !! i) as [c|] eqn:Hc.
  - destruct (Forall2_lookup_l _ _ _ _ _ Hf Hc) as (t & -> & Ht). done.
  - destruct (ts !! i) as [t|] eqn:Ht; [|done]. destruct (Forall2_lookup_r _ _ _ _ _ Hf Ht) as (c & Hc' & _). congruence.
Qed.

Lemma same_new p s ts bad n : same p s ts bad n → ∃ p', same p' (op_step s ONew) (ts ++ [n]) bad (S n).
Proof.
  intros H. set (q := fresh (dom (pills s))).
  assert (∀ t, t < n → p t ≠ q) as Hq.
  { intros t Ht Heq. destruct (same_dom _ _ _ _ _ H t Ht) as [b Hb]. apply elem_of_dom_2 in Hb. rewrite Heq in Hb.
    by apply is_fresh in Hb. }
  assert (∀ t, t < S n → t < n ∨ t = n) as Hcase by lia.
  exists (λ t, if decide (t = n) then q else p t). destruct H as [Hc Hi Hd Hb Hf]. split; simpl; fold q.
  - apply Forall2_app; [|constructor; [|constructor]; simpl; rewrite decide_True by done; split; [lia|done]].
    eapply Forall2_impl; [exact Hc|]. intros c t [Ht ->]. simpl. rewrite decide_False by lia. split; [lia|done].
  - intros t t' Ht Ht'. destruct (Hcase t Ht) as [Hlt| ->], (Hcase t' Ht') as [Hlt'| ->]; repeat case_decide; try lia.
    + by apply Hi.
    + intros ?. exfalso. by apply (Hq t).
    + intros ?. exfalso. by apply (Hq t').
  - intros t Ht. destruct (Hcase t Ht) as [Hlt| ->]; [rewrite decide_False by lia|rewrite decide_True by done].
    + rewrite lookup_insert_ne by (intros ?; by apply (Hq t)). by apply Hd.
    + rewrite lookup_insert_eq. by eexists.
  - intros t Ht. destruct (Hcase t Ht) as [Hlt| ->]; [rewrite decide_False by lia|rewrite decide_True by done].
    + rewrite lookup_insert_ne by (intros ?; by apply (Hq t)). by apply Hb.
    + rewrite lookup_insert_eq. split; [done|]. intros ?%Hf. lia.
  - intros t Ht. specialize (Hf t Ht). lia.
Qed.

Lemma same_poison p s ts bad n c t : same p s ts bad n → t < n → pill c = p t →
  same p (mkSys (poison c (pills s)) (conns s)) ts (λ t', t' = t ∨ bad t') n.
Proof.
  intros [Hc Hi Hd Hb Hf] Ht Hp. split; simpl; unfold poison; rewrite ?Hp.
  - done.
  - done.
  - intros t' Ht'. destruct (decide (p t = p t')) as [->|Hb1]; [rewrite lookup_insert_eq; by eexists|].
    rewrite lookup_insert_ne by done. by apply Hd.
  - intros t' Ht'. destruct (decide (p t = p t')) as [Heq|Hne].
    + rewrite <-Heq, lookup_insert_eq. split; [|done]. intros _. left. by apply Hi.
    + rewrite lookup_insert_ne by done. rewrite (Hb t' Ht'). split; [by right|]. by intros [->|Hb1].
  - intros t' [->|Hb1]; [done|by apply Hf].
Qed.

Lemma same_step p s ts bad n o : same p s ts bad n → keeps_pill o →
  ∃ p', let '(ts', bad', n') := transports_step (ts, bad, n) o in same p' (op_step s o) ts' bad' n'.
Proof.
  intros H Hk. destruct o as [|i|i f|i].
  - destruct (same_new _ _ _ _ _ H) as [p' Hp']. by exists p'.
  - exists p. cbn [transports_step op_step]. pose proof (same_lookup _ _ _ _ _ i H) as Hl.
    destruct (conns s !! i) as [c|], (ts !! i) as [t|]; try done. destruct H as [Hc Hi Hd Hb Hf]. split; simpl; try done.
    apply Forall2_app; [done|]. rewrite Connected_clone_eq. by constructor.
  - exists p. destruct H as [Hc Hi Hd Hb Hf]. split; simpl; try done. simpl in Hk.
    clear Hi Hd Hb Hf. revert i. induction Hc as [|c t l l' Ht Hc IH]; intros i; [done|].
    destruct i as [|i]; simpl; constructor; try done; [by rewrite Hk|apply IH].
  - exists p. cbn [transports_step op_step]. pose proof (same_lookup _ _ _ _ _ i H) as Hl.
    destruct (conns s !! i) as [c|], (ts !! i) as [t|]; try done. destruct Hl. by apply same_poison.
Qed.

(** A connection is poisoned exactly when one of the handles of its transport was: its
    clones share the flag, other transports keep theirs. *)
Theorem connected_poison (os : list Op) i c :
  Forall keeps_pill os →
  let s := foldl op_step (mkSys ∅ []) os in
  let '(ts, bad, _) := foldl transports_step ([], λ _, False, 0) os in
  conns s !! i = Some c → ∃ t, ts !! i = Some t ∧ (poisoned c (pills s) = true ↔ bad t).
Proof.
  intros Hk s. assert (∃ p, let '(ts, bad, n) := foldl transports_step ([], λ _, False, 0) os in same p s ts bad n) as [p Hp].
  { subst s. induction os as [|o os IH] using rev_ind; [exists id; split; simpl; try done; intros ?; lia|].
    apply Forall_app in Hk as [Hk [Ho _]%Forall_cons]. destruct (IH Hk) as [p Hp]. rewrite !foldl_app. simpl.
    destruct (foldl transports_step _ os) as [[ts bad] n]. eapply same_step; [exact Hp|exact Ho]. }
  destruct (foldl transports_step _ os) as [[ts bad] n]. intros Hc. pose proof (same_lookup _ _ _ _ _ i Hp) as Hl.
  rewrite Hc in Hl. destruct (ts !! i) as [t|]; [|done]. destruct Hl as [Ht Hpill]. exists t. split; [done|].
  rewrite <-(same_bad _ _ _ _ _ Hp t Ht). unfold poisoned. rewrite Hpill.
  destruct (same_dom _ _ _ _ _ Hp t Ht) as [b ->]. simpl. destruct b; naive_solver.
Qed.
End connected.

(** * Capturing the connection of a request ([connect/capture.rs])

    A watch channel holds the last value and counts the changes; the sender is an
    extension of the request and goes with it. *)

Section capture.
Context {V : Type}.
Local Abbreviation Connected := (Connected (V := V)).

Record Watch := mkWatch { w_value : option Connected; w_version : nat; w_sender : bool }.
Record CaptureConnection := mkCapture { rx : Watch; rx_seen : nat }.
Definition capture_connection : CaptureConnection := mkCapture (mkWatch None 0 true) 0.

Definition set (connected : Connected) (w : Watch) : Watch :=
  mkWatch (Some (Connected_clone connected)) (S (w_version w)) (w_sender w).
Definition drop_sender (w : Watch) : Watch := mkWatch (w_value w) (w_version w) false.

Definition connection_metadata (c : CaptureConnection) : option Connected := w_value (rx c).

(** [wait_for_connection_metadata]: before its first poll, and in [changed]. *)
Inductive WaitPc := WaitStart | WaitChanged.
Inductive WaitResult := WaitPending | WaitReady (m : option Connected).

Definition changed_poll (c : CaptureConnection) : CaptureConnection * WaitResult :=
  if decide (w_version (rx c) = rx_seen c) then (c, if w_sender (rx c) then WaitPending else WaitReady (w_value (rx c)))
  else (mkCapture (rx c) (w_version (rx c)), WaitReady (w_value (rx c))).
Definition wait_poll (pc : WaitPc) (c : CaptureConnection) : CaptureConnection * WaitResult :=
  match pc with
  | WaitStart => match w_value (rx c) with Some m => (c, WaitReady (Some m)) | None => changed_poll c end
  | WaitChanged => changed_poll c
  end.

(** What happens to the request, with polls of one wait in between. *)
Inductive CaptureEv := Established (c : Connected) | RequestDropped | WaitPoll.

Definition capture_step (s : CaptureConnection * WaitPc * option (option Connected)) (e : CaptureEv)
    : CaptureConnection * WaitPc * option (option Connected) :=
  let '(c, pc, r) := s in
  match e with
  | Established m => (if w_sender (rx c) then mkCapture (set m (rx c)) (rx_seen c) else c, pc, r)
  | RequestDropped => (mkCapture (drop_sender (rx c)) (rx_seen c), pc, r)
  | WaitPoll =>
    match r with
    | Some _ => s
    | None => let '(c, a) := wait_poll pc c in (c, WaitChanged, match a with WaitReady m => Some m | WaitPending => None end)
    end
  end.
Definition capture_run (es : list CaptureEv) := foldl capture_step (capture_connection, WaitStart, None) es.

(** The connections a request is given while it exists. *)
Fixpoint established (alive : bool) (es : list CaptureEv) : list Connected :=
  match es with
  | [] => []
  | Established m :: es => if alive then m :: established alive es else established alive es
  | RequestDropped :: es => established false es
  | WaitPoll :: es => established alive es
  end.
Definition alive (es : list CaptureEv) : bool := forallb (λ e, match e with RequestDropped => false | _ => true end) es.

Lemma established_snoc b es e : established b (es ++ [e]) =
  established b es ++ match e with Established m => if b && alive es then [m] else [] | _ => [] end.
Proof.
  revert b. induction es as [|e' es IH]; intros b; simpl; [destruct e, b; done|].
  destruct e' as [m| |]; simpl; rewrite IH; [by destruct b| |done].
  destruct e as [m| |]; simpl; rewrite ?andb_false_r; done.
Qed.
Lemma alive_snoc es e : alive (es ++ [e]) = alive es && alive [e].
Proof. apply forallb_app. Qed.

Lemma capture_run_inv es :
  let '(c, pc, r) := capture_run es in
  w_value (rx c) = last (established true es) ∧ w_sender (rx c) = alive es ∧ w_version (rx c) = length (established true es) ∧
  (r = None → rx_seen c = 0).
Proof.
  induction es as [|e es IH] using rev_ind; [done|]. unfold capture_run in *. rewrite foldl_app, established_snoc, alive_snoc.
  destruct (foldl capture_step _ es) as [[c pc] r]. destruct IH as (Hv & Hs & Hn & Hr). cbn [foldl].
  destruct e as [m| |]; cbn [capture_step alive forallb]; rewrite ?andb_true_r, ?app_nil_r.
  - rewrite Hs. destruct (alive es); simpl; [|by rewrite app_nil_r].
    rewrite last_snoc, length_app, Connected_clone_eq. simpl. split_and!; [done|done|lia|done].
  - simpl. by rewrite andb_false_r.
  - destruct r as [r|]; [done|]. specialize (Hr eq_refl). assert (∀ pc, let '(c', a) := wait_poll pc c in
      rx c' = rx c ∧ (a = WaitPending → rx_seen c' = 0)) as Hp.
    { intros pc'. destruct pc'; unfold wait_poll; [destruct (w_value (rx c)); [done|]|]; unfold changed_poll; case_decide; done. }
    specialize (Hp pc). destruct (wait_poll pc c) as [c' a]. destruct Hp as [-> Hp]. split_and!; [done..|].
    destruct a; [intros _; by apply Hp|done].
Qed.

(** A caller sees the connection of its request. The metadata are always those of the
    last connection that the request was given. A wait that is polled is over when there is
    one, and gives it; while the request goes on without, it is pending; and it ends with
    nothing when the request is over without a connection. *)
Theorem capture_metadata es :
  let '(c, _, r) := capture_run es in
  connection_metadata c = last (established true es) ∧
  (r = None → (capture_run (es ++ [WaitPoll])).2 =
     match last (established true es) with Some m => Some (Some m) | None => if alive es then None else Some None end).
Proof.
  pose proof (capture_run_inv es) as H. unfold capture_run in *. rewrite foldl_app.
  destruct (foldl capture_step _ es) as [[c pc] r]. destruct H as (Hv & Hs & Hn & Hr). split; [done|].
  intros ->. specialize (Hr eq_refl). cbn [foldl capture_step]. rewrite <-Hv, <-Hs. unfold wait_poll, changed_poll. rewrite Hr, Hn.
  destruct (established true es) as [|m ms] eqn:He.
  - simpl in Hv. rewrite Hv. simpl. by destruct pc, (w_sender (rx c)).
  - rewrite decide_False by done. assert (∃ m', w_value (rx c) = Some m') as [m' Hm'].
    { rewrite Hv. destruct (last (m :: ms)) eqn:Hl; [by eexists|]. by apply last_None in Hl. }
    rewrite Hm'. by destruct pc.
Qed.
End capture.

(** * A connection under a drain *)

Section graceful.
(** The connection: a poll, and [graceful_shutdown]. *)
Context {C O G : Type} (conn_poll : C → C * option O) (graceful_shutdown : C → C).

(** A future that is ready after some polls, if ever, and may not be polled after. *)
Inductive Cancel := Waiting (polls : nat) (guard : G) | Never | Completed.
Definition cancel_poll (f : Cancel) : comp (Cancel * option G) :=
  match f with
  | Waiting 0 g => Ret (Completed, Some g)
  | Waiting (S n) g => Ret (Waiting n g, None)
  | Never => Ret (Never, None)
  | Completed => Panic
  end.

Record GracefulConnectionFuture := mkGraceful { conn : C; cancel : Cancel; cancelled_guard : option G }.
Definition wrap_connection (c : C) (f : Cancel) : GracefulConnectionFuture := mkGraceful c f None.

Definition graceful_poll (this : GracefulConnectionFuture) : comp (GracefulConnectionFuture * option O) :=
  this ← match cancelled_guard this with
         | Some _ => Ret this
         | None =>
           p ← cancel_poll (cancel this);
           Ret (match p.2 with
                | Some guard => mkGraceful (graceful_shutdown (conn this)) p.1 (Some guard)
                | None => mkGraceful (conn this) p.1 None
                end)
         end;
  let '(c, r) := conn_poll (conn this) in
  Ret (mkGraceful c (cancel this) (cancelled_guard this), r).

(** Polls until the result. *)
Fixpoint polls (n : nat) (this : GracefulConnectionFuture) : comp (GracefulConnectionFuture * option O) :=
  match n with
  | 0 => Ret (this, None)
  | S n => p ← graceful_poll this; match p.2 with Some r => Ret p | None => polls n p.1 end
  end.
Fixpoint conn_polls (n : nat) (c : C) : C * option O :=
  match n with
  | 0 => (c, None)
  | S n => let '(c, r) := conn_poll c in match r with Some r => (c, Some r) | None => conn_polls n c end
  end.

Lemma polls_guarded n c f g :
  polls n (mkGraceful c f (Some g)) = Ret (mkGraceful (conn_polls n c).1 f (Some g), (conn_polls n c).2).
Proof.
  revert c. induction n as [|n IH]; intros c; [done|]. simpl. unfold graceful_poll. simpl.
  destruct (conn_poll c) as [c' [r|]]; simpl; [done|]. apply IH.
Qed.

(** A drained connection is shut down once. Under a drain a connection is polled as it
    would be on its own until the drain begins; then, if it is not done, it is asked once to
    shut down, before its next poll, and from there the drain is held up until it is done;
    the future of the drain is never polled again. *)
Theorem graceful_connection n k c g :
  ∃ this' r, polls n (wrap_connection c (Waiting k g)) = Ret (this', r) ∧
  match conn_polls (n `min` k) c with
  | (c', Some r') => conn this' = c' ∧ r = Some r' ∧ cancelled_guard this' = None
  | (c', None) =>
    if decide (n ≤ k) then conn this' = c' ∧ r = None ∧ cancelled_guard this' = None
    else (conn this', r) = conn_polls (n - k) (graceful_shutdown c') ∧ cancelled_guard this' = Some g
  end.
Proof.
  revert n c. induction k as [|k IH]; intros [|n] c; simpl; try by eexists _, _.
  - unfold wrap_connection, graceful_poll. simpl. destruct (conn_poll (graceful_shutdown c)) as [c' [r|]]; simpl.
    + by eexists _, _.
    + rewrite polls_guarded. eexists _, _. split; [done|]. simpl. by destruct (conn_polls n c').
  - unfold graceful_poll. simpl. destruct (conn_poll c) as [c' [r|]]; simpl; [by eexists _, _|].
    destruct (IH n c') as (this' & r & Hp & H). unfold wrap_connection in Hp. rewrite Hp. eexists _, _. split; [done|].
    destruct (conn_polls (n `min` k) c') as [c'' [r'|]]; [done|]. repeat case_decide; try lia; done.
Qed.

(** Without a drain it is the connection. *)
Lemma graceful_undrained n c :
  polls n (wrap_connection c Never) = Ret (wrap_connection (conn_polls n c).1 Never, (conn_polls n c).2).
Proof.
  revert c. induction n as [|n IH]; intros c; [done|]. simpl. unfold graceful_poll. simpl.
  destruct (conn_poll c) as [c' [r|]]; simpl; [done|]. apply IH.
Qed.
End graceful.

(** * A connection that is cloned, poisoned and captured *)

Module ConnectedExample.
Definition c0 : Connected (V := nat) := mkConnected NoAlpn true None 0.

Lemma connected_extras_witness :
  get_extras (with_extra ("u16", 2) (Connected_clone (with_extra ("u8", 1) c0))) ∅ !! "u8" = Some 1.
Proof. destruct (connected_extras [("u8", 1); ("u16", 2)] c0 ∅ "u8" eq_refl) as [H _]. exact H. Defined.

Definition ops : list (Op (V := nat)) := [ONew; ONew; OClone 0; OSet 2 negotiated_h2; OPoison 2].
Lemma connected_poison_witness :
  let s := foldl op_step (mkSys ∅ []) ops in
  ∃ c, conns s !! 0 = Some c ∧ poisoned c (pills s) = true.
Proof.
  destruct (foldl op_step (mkSys ∅ []) ops) as [h cs] eqn:Hs. assert (∃ c, cs !! 0 = Some c) as [c Hc].
  { assert (conns (foldl op_step (mkSys ∅ []) ops) !! 0 = Some (mkConnected NoAlpn false None 0)) as H by (vm_compute; reflexivity).
    rewrite Hs in H. simpl in H. eauto. }
  exists c. split; [exact Hc|].
  assert (Forall keeps_pill ops) as Hk by (repeat constructor).
  pose proof (connected_poison ops 0 c Hk) as H. rewrite Hs in H. destruct (H Hc) as (t & Ht & Hb). apply Hb.
  injection Ht as <-. left. reflexivity.
Defined.

Lemma graceful_connection_witness :
  ∃ this' r, polls (λ n : nat * nat, ((n.1, n.2 - 1), if n.2 - 1 =? 0 then Some n.1 else None)) (λ n, (S n.1, n.2))
    5 (wrap_connection (0, 4) (Waiting 2 tt)) = Ret (this', r) ∧ r = Some 1 ∧ cancelled_guard this' = Some tt.
Proof.
  destruct (graceful_connection (λ n : nat * nat, ((n.1, n.2 - 1), if n.2 - 1 =? 0 then Some n.1 else None)) (λ n, (S n.1, n.2)) 5 2 (0, 4) tt)
    as (this' & r & Hp & H1 & H2). exists this', r. split; [exact Hp|]. injection H1 as _ ->. split; [reflexivity|exact H2].
Defined.

Lemma capture_metadata_witness :
  (capture_run (V := nat) [WaitPoll; Established c0; WaitPoll]).2 = Some (Some c0).
Proof. exact (proj2 (capture_metadata (V := nat) [WaitPoll; Established c0]) eq_refl). Defined.
End ConnectedExample.
