(* ===== verification/Auth.v ===== *)
(** Auth: authentication and the external services of the policy chain:
    [http/jwt.rs], [http/auth.rs], [http/ext_authz.rs] and
    [http/remoteratelimit.rs].

    Token verification ([jsonwebtoken]), the credentials of the clouds and the
    answers of the gRPC services are parameters; what the gateway does with them is
    modelled: which key checks a token, what is stripped from the request and put
    back, and how an answer changes the request and the response. *)
From S2P Require Import Prelude Strs Json Http DiscoveryTypes AgentTypes Filters Cel HttpProxy.

(** * The request under the policies *)

(** The request with its [Claims] extension, and the parts of the request log that
    policies write. *)
Record ReqState `{!HeaderMapOps} := mkReqState {
  rs_req : Request;
  rs_claims : option Claims;
  rs_cel : ContextBuilder;
  rs_jwt_sub : option string
}.

Definition set_req `{!HeaderMapOps} (s : ReqState) (req : Request) : ReqState :=
  mkReqState _ req (rs_claims s) (rs_cel s) (rs_jwt_sub s).

Definition set_headers `{!HeaderMapOps} (s : ReqState) (h : HeaderMap) : ReqState :=
  set_req s (with_headers (rs_req s) h).

(** * Tokens ([jwt.rs]) *)

Module Jwt.
Inductive TokenError :=
| Invalid (e : string) | InvalidHeader (e : string) | Missing | MissingKeyId | UnknownKeyId (kid : string).

(** [jsonwebtoken::Validation]: the algorithm, and the audiences and issuers that
    are accepted, where these are checked. *)
Record Validation := { v_alg : string; v_aud : option (list string); v_iss : option (list string) }.

Definition Validation_new (alg : string) : Validation :=
  {| v_alg := alg; v_aud := None; v_iss := None |}.
Definition set_audience (v : Validation) (aud : list string) : Validation :=
  {| v_alg := v_alg v; v_aud := Some aud; v_iss := v_iss v |}.

(** [jsonwebtoken]: [decode_header] gives the [kid] of a token; [decode] checks
    the token with a key and gives its claims. *)
Class JwtLib := {
  DecodingKey : Type;
  decode_header : string → result (option string) string;
  jwt_decode : string → DecodingKey → Validation → result (list (string * Value)) string;
  from_rsa_components : string → string → result DecodingKey string;
  from_ec_components : string → string → result DecodingKey string;
  (** the algorithms that both crates know, by name *)
  algorithm_from_str : string → option string
}.

Record Jwk `{!JwtLib} := { decoding : DecodingKey; validation : Validation }.

(** ** Configuration *)

Inductive AlgorithmParameters :=
| RSA (n e : string) | EllipticCurve (x y : string) | OtherParameters (name : string).

(** [jsonwebtoken::jwk::Jwk] *)
Record JwkSpec := {
  key_algorithm : option string;
  key_id : option string;
  algorithm : AlgorithmParameters
}.

(** [FileInlineOrRemote] of [serdes.rs]. *)
Inductive FileInlineOrRemote := File (file : string) | Inline (s : string) | Remote (url : Uri).

Inductive JwkError :=
| JwkLoadError (e : string)
| JwkMissingKeyId
| DecodingError (kid e : string)
| UnexpectedAlgorithm (kid : string) (a : AlgorithmParameters).

Record LocalJwtConfig := {
  lj_issuer : string;
  lj_audiences : list string;
  lj_jwks : FileInlineOrRemote
}.

(** [FileInlineOrRemote::load]: the contents of a file, a text, or the body of an
    answer (its size is limited), parsed. *)
Section source.
Context `{!BodyReader} {T : Type} (read_to_string : string → result string string) (from_str : string → result T string).
Context (simple_call : Uri → result string string) (from_slice : string → option T).

Definition load (self : FileInlineOrRemote) : result T string :=
  match self with
  | File file => let? s := read_to_string file in from_str s
  | Inline s => from_str s
  | Remote url => let? body := simple_call url in ok_or (from_body from_slice body) ""
  end.
End source.

Section jwt.
Context `{!JwtLib}.

Definition to_supported_alg (a : option string) : option string := a ← a; algorithm_from_str a.

(** One key of the set: [None] when it is passed over. *)
Definition load_key (audiences : list string) (jwk : JwkSpec) : result (option (string * Jwk)) JwkError :=
  match to_supported_alg (key_algorithm jwk) with
  | None => Ok None
  | Some key_alg =>
    let? kid := ok_or (key_id jwk) JwkMissingKeyId in
    let? decoding_key :=
      match algorithm jwk with
      | RSA n e => map_err (DecodingError kid) (from_rsa_components n e)
      | EllipticCurve x y => map_err (DecodingError kid) (from_ec_components x y)
      | other => Err (UnexpectedAlgorithm kid other)
      end in
    Ok (Some (kid, {| decoding := decoding_key;
                      validation := set_audience (Validation_new key_alg) audiences |}))
  end.

Fixpoint load_keys (audiences : list string) (jwks : list JwkSpec) (keys : gmap string Jwk)
    : result (gmap string Jwk) JwkError :=
  match jwks with
  | [] => Ok keys
  | jwk :: jwks =>
    let? k := load_key audiences jwk in
    load_keys audiences jwks (match k with Some (kid, k) => <[kid := k]> keys | None => keys end)
  end.

(** [LocalJwtConfig::try_into], given how the keys are loaded. *)
Definition try_into (load : FileInlineOrRemote → result (list JwkSpec) string) (self : LocalJwtConfig)
    : result (gmap string Jwk) JwkError :=
  let? jwks := map_err JwkLoadError (load (lj_jwks self)) in
  load_keys (lj_audiences self) jwks ∅.

(** ** Requests *)

Definition validate_claims (keys : gmap string Jwk) (token : string) : result Claims TokenError :=
  let? kid := map_err InvalidHeader (decode_header token) in
  let? kid := ok_or kid MissingKeyId in
  let? key := ok_or (keys !! kid) (UnknownKeyId kid) in
  let? claims := map_err Invalid (jwt_decode token (decoding key) (validation key)) in
  Ok {| claims_inner := claims; claims_jwt := token |}.

(** The extractor of bearer tokens of the [headers] crate, on the values of the
    [authorization] header. *)
Context (bearer : list string → option string).

Definition apply `{!HeaderMapOps} (keys : gmap string Jwk) (s : ReqState) : ReqState * result () TokenError :=
  match bearer (hdr_get_all (req_headers (rs_req s)) "authorization") with
  | None => (s, Ok ())
  | Some token =>
    match validate_claims keys token with
    | Err e => (s, Err e)
    | Ok claims =>
      let sub := match map_get (claims_inner claims) "sub" with
                 | Some (Str sub) => Some sub
                 | _ => rs_jwt_sub s
                 end in
      (mkReqState _ (with_headers (rs_req s) (hdr_remove (req_headers (rs_req s)) "authorization"))
         (Some claims) (with_jwt (rs_cel s) claims) sub, Ok ())
    end
  end.
End jwt.
End Jwt.

(** * Backend credentials ([auth.rs]) *)

Section backend_auth.
Context `{!HeaderMapOps, !HttpParsers}.

(** The headers of the Google credentials ([None]: not modified since the last
    time, although nothing is kept from then). *)
Context (gcp_headers : result (option HeaderMap) string).

Definition gcp_get_token : result string string :=
  let? h := gcp_headers in
  let? h := ok_or h "Expecting headers to be present" in
  ok_or (hdr_get h "authorization") "no authorization header".

Definition insert_bearer (s : ReqState) (token : string) : ReqState :=
  match HeaderValue_from_str ("Bearer " +:+ token) with
  | Some v => set_headers s (hdr_insert (req_headers (rs_req s)) "authorization" v)
  | None => s
  end.

(** The error is [ProxyError::BackendAuthenticationFailed]. *)
Definition apply_backend_auth (auth : option BackendAuth) (s : ReqState) : ReqState * result () string :=
  match auth with
  | None => (s, Ok ())
  | Some Passthrough =>
    (match rs_claims s with Some claim => insert_bearer s (claims_jwt claim) | None => s end, Ok ())
  | Some (Key k) => (insert_bearer s k, Ok ())
  | Some Gcp =>
    match gcp_get_token with
    | Ok token => (set_headers s (hdr_insert (req_headers (rs_req s)) "authorization" token), Ok ())
    | Err e => (s, Err e)
    end
  | Some Aws => (s, Ok ())
  end.

(** [aws_sigv4::http_request::SignableRequest] *)
Record SignableRequest := {
  sr_method : string;
  sr_uri : string;
  sr_headers : list (string * string);
  sr_body : string
}.

(** The header pairs of a request: the iterator names only the first value of a
    header. *)
Fixpoint header_pairs (name : string) (l : list (option string * string)) : list (string * string) :=
  match l with
  | [] => []
  | (k, v) :: l => let name := default name k in (name, v) :: header_pairs name l
  end.

Definition iter_headers (h : HeaderMap) : list (string * string) := header_pairs "" (hdr_into_iter h).

(** [str::from_utf8], and the signature: the headers it adds. *)
Context (from_utf8 : string → option string) (sign : SignableRequest → result (list (string * string)) string).

Definition signable_request (req : Request) : SignableRequest :=
  {| sr_method := req_method req;
     sr_uri := Str.replace "http://" "https://" (Uri_to_string (req_uri req));
     sr_headers := filter (λ kv, kv.1 ≠ "content-length")
       (omap (λ kv, v ← from_utf8 kv.2; Some (kv.1, v)) (iter_headers (req_headers req)));
     sr_body := req_body req |}.

Definition sign_request (req : Request) : result Request string :=
  let? signature := sign (signable_request req) in
  let headers := foldl (λ h '(k, v), hdr_insert h k v) (req_headers req) signature in
  let? len := ok_or (HeaderValue_from_str (Str.display_nat (N.of_nat (Str.len (req_body req))))) "" in
  Ok (with_headers req (hdr_insert headers "content-length" len)).

Definition apply_late_backend_auth (auth : option BackendAuth) (req : Request) : result Request string :=
  match auth with Some Aws => sign_request req | _ => Ok req end.
End backend_auth.

(** * External authorization ([ext_authz.rs]) *)

(** [envoy.config.core.v3.HeaderValue] *)
Record ProtoHeader := { ph_key : string; ph_value : string; ph_raw_value : string }.

(** [HeaderValueOption] *)
Record HeaderOption := { ho_header : option ProtoHeader; ho_append : option bool }.

Inductive AuthzHttpResponse :=
| DeniedResponse (status : option Z) (headers : list HeaderOption) (body : string)
| OkResponse (headers : list HeaderOption) (headers_to_remove : list string)
    (response_headers_to_add : list HeaderOption).

(** The code of the status, and the HTTP part. *)
Record CheckResponse := { cr_status : option Z; cr_http_response : option AuthzHttpResponse }.

Record CheckRequest := {
  cq_time : Z;
  cq_method : string;
  cq_headers : gmap string string;
  cq_path : string;
  cq_host : string;
  cq_scheme : string;
  cq_protocol : string;
  cq_context_extensions : gmap string string;
  cq_tls_session : bool
}.

(** The connection's extensions: when it was opened, if known, and whether it is
    encrypted; and the version of the request, as it is printed. *)
Record ConnInfo := { ci_start : option Z; ci_tls : bool; ci_version : string }.

Section ext_authz.
Context `{!HeaderMapOps, !HttpParsers}.
Context (to_str : string → option string) (HeaderValue_from_bytes : string → option string).

(** An empty [raw_value] makes the key the value. *)
Definition proto_value (h : ProtoHeader) : option string :=
  if Str.is_empty (ph_raw_value h) then HeaderValue_from_bytes (ph_key h)
  else HeaderValue_from_bytes (ph_raw_value h).

Definition process_header (hm : HeaderMap) (header : HeaderOption) : HeaderMap :=
  match ho_header header with
  | None => hm
  | Some h =>
    match HeaderName_from_bytes (ph_key h), proto_value h with
    | Some hn, Some hv => if default false (ho_append header) then hdr_append hm hn hv else hdr_insert hm hn hv
    | _, _ => hm
    end
  end.

Definition process_headers (hm : HeaderMap) (headers : list HeaderOption) : HeaderMap :=
  foldl process_header hm headers.

Definition check_request_of (self : ExtAuthz) (conn : ConnInfo) (start : Z) (req : Request) : CheckRequest :=
  {| cq_time := start;
     cq_method := req_method req;
     cq_headers := foldl (λ m '(k, v), <[k := default "" (to_str v)]> m) ∅ (iter_headers (req_headers req));
     cq_path := uri_path (req_uri req);
     cq_host := default "" (uri_host (req_uri req));
     cq_scheme := default "http" (uri_scheme (req_uri req));
     cq_protocol := Str.replace "3.0" "3" (Str.replace "2.0" "2" (ci_version conn));
     cq_context_extensions := default ∅ (ea_context self);
     cq_tls_session := ci_tls conn |}.

Definition StatusCode_from_u16 (code : Z) : option Z :=
  if decide (100 ≤ code < 1000)%Z then Some code else None.

Definition remove_named (hm : HeaderMap) (name : string) : HeaderMap :=
  match HeaderName_from_bytes name with Some k => hdr_remove hm k | None => hm end.

Definition FORBIDDEN : Z := 403.

Definition some_headers (headers : list HeaderOption) : option HeaderMap :=
  match headers with [] => None | _ => Some (process_headers hdr_new headers) end.

(** What an answer does to the request and to the response. *)
Definition authz_response (resp : AuthzHttpResponse) (s : ReqState) : ReqState * PolicyResponse :=
  match resp with
  | DeniedResponse status headers body =>
    let status := default FORBIDDEN (code ← status; StatusCode_from_u16 (code mod 65536)) in
    (s, {| direct_response := Some {| resp_status := status; resp_headers := process_headers hdr_new headers;
                                      resp_body := body |};
           response_headers := None |})
  | OkResponse headers headers_to_remove response_headers_to_add =>
    let h := foldl remove_named (req_headers (rs_req s)) headers_to_remove in
    (set_headers s (process_headers h headers),
     {| direct_response := None; response_headers := some_headers response_headers_to_add |})
  end.

(** The authorization service; [None] is a call that fails. *)
Context (authz : Target → CheckRequest → option CheckResponse).

Definition ext_authz_check (self : ExtAuthz) (conn : ConnInfo) (s : ReqState)
    : comp (ReqState * result PolicyResponse ProxyError) :=
  start ← expect (ci_start conn);
  match authz (ea_target self) (check_request_of self conn start (rs_req s)) with
  | None => Ret (s, Err AuthorizationFailed)
  | Some cr =>
    status ← expect (cr_status cr);
    Ret (if decide (status ≠ 0%Z) then (s, Err AuthorizationFailed)
         else match cr_http_response cr with
              | None => (s, Ok PolicyResponse_default)
              | Some resp => let '(s, p) := authz_response resp s in (s, Ok p)
              end)
  end.
End ext_authz.

(** * Remote rate limits ([remoteratelimit.rs]) *)

Record RateLimitResponse := {
  overall_code : Z;
  rr_response_headers_to_add : list ProtoHeader;
  rr_request_headers_to_add : list ProtoHeader;
  rr_raw_body : string
}.

Definition CODE_OK : Z := 1.
Definition TOO_MANY_REQUESTS : Z := 429.

Section remote_rate_limit.
Context `{!HeaderMapOps, !HttpParsers, !HashIter string Descriptor}.
Context (to_str : string → option string) (HeaderValue_from_bytes : string → option string).

Definition rl_process_header (hm : HeaderMap) (h : ProtoHeader) : HeaderMap :=
  match HeaderName_from_bytes (ph_key h), proto_value HeaderValue_from_bytes h with
  | Some hn, Some hv => hdr_insert hm hn hv
  | _, _ => hm
  end.

Definition rl_process_headers (hm : HeaderMap) (headers : list ProtoHeader) : HeaderMap :=
  foldl rl_process_header hm headers.

(** The entries of the request's descriptor; [Ok None] when a header is missing,
    which is not a match. *)
Fixpoint descriptor_entries (l : list (string * Descriptor)) (req : Request)
    : result (option (list (string * string))) ProxyError :=
  match l with
  | [] => Ok (Some [])
  | (k, lookup) :: l =>
    match (match lookup with
           | DRequestHeader name =>
             match hdr_get (req_headers req) name with
             | None => Ok None
             | Some hv => let? v := ok_or (to_str hv) PInvalidRequest in Ok (Some v)
             end
           | DStatic v => Ok (Some v)
           end) with
    | Err e => Err e
    | Ok None => Ok None
    | Ok (Some value) =>
      let? rest := descriptor_entries l req in
      Ok (rest ← rest; Some ((k, value) :: rest))
    end
  end.

(** The rate limit service: the answer for the domain [crd] and these entries. *)
Context (should_rate_limit : Target → list (string * string) → option RateLimitResponse).

Definition remote_check (self : RemoteRateLimit) (s : ReqState) : ReqState * result PolicyResponse ProxyError :=
  match descriptor_entries (hm_iter (descriptors self)) (rs_req s) with
  | Err e => (s, Err e)
  | Ok None => (s, Ok PolicyResponse_default)
  | Ok (Some entries) =>
    match should_rate_limit (rrl_target self) entries with
    | None => (s, Err RateLimitFailed)
    | Some cr =>
      if decide (overall_code cr ≠ CODE_OK) then
        (s, Ok {| direct_response :=
                    Some {| resp_status := TOO_MANY_REQUESTS;
                            resp_headers := rl_process_headers hdr_new (rr_response_headers_to_add cr);
                            resp_body := rr_raw_body cr |};
                  response_headers := None |})
      else
        (set_headers s (rl_process_headers (req_headers (rs_req s)) (rr_request_headers_to_add cr)),
         Ok {| direct_response := None;
               response_headers := match rr_response_headers_to_add cr with
                                   | [] => None
                                   | l => Some (rl_process_headers hdr_new l)
                                   end |})
    end
  end.
End remote_rate_limit.

(** * Theorems *)

Section jwt_facts.
Context `{!Jwt.JwtLib, !HeaderMapOps, !HeaderMapLaws} (bearer : list string → option string).

(** Authenticating a request. With no bearer token the request goes on
    unchanged. A token is accepted exactly when a configured key, the one the token
    names, verifies it; then its claims are kept and the [authorization] header, and
    nothing else, is taken out of the request. A refused token leaves the request as
    it was. *)
Theorem jwt_apply (keys : gmap string Jwt.Jwk) s :
  match Jwt.apply bearer keys s with
  | (s', Ok _) =>
    match bearer (hdr_get_all (req_headers (rs_req s)) "authorization") with
    | None => s' = s
    | Some token => ∃ kid key claims,
        Jwt.decode_header token = Ok (Some kid) ∧ keys !! kid = Some key ∧
        Jwt.jwt_decode token (Jwt.decoding key) (Jwt.validation key) = Ok claims ∧
        rs_claims s' = Some {| claims_inner := claims; claims_jwt := token |} ∧
        rs_req s' = with_headers (rs_req s) (req_headers (rs_req s')) ∧
        (∀ k, hdr_get_all (req_headers (rs_req s')) k =
           if decide (k = "authorization") then [] else hdr_get_all (req_headers (rs_req s)) k)
    end
  | (s', Err _) => s' = s ∧
      ∃ token, bearer (hdr_get_all (req_headers (rs_req s)) "authorization") = Some token ∧
        ∀ kid key, Jwt.decode_header token = Ok (Some kid) → keys !! kid = Some key →
          ∃ e, Jwt.jwt_decode token (Jwt.decoding key) (Jwt.validation key) = Err e
  end.
Proof.
  unfold Jwt.apply, Jwt.validate_claims.
  destruct (bearer _) as [token|] eqn:Hb; [|done].
  destruct (Jwt.decode_header token) as [[kid|]|e] eqn:Hh; simpl.
  - destruct (keys !! kid) as [key|] eqn:Hk; simpl.
    + destruct (Jwt.jwt_decode _ _ _) as [claims|e] eqn:Hd; simpl.
      * exists kid, key, claims. split_and!; [done..|]. intros k. rewrite hdr_get_all_remove.
        repeat case_decide; congruence.
      * split; [done|]. exists token. split; [done|]. intros kid' key' Hkid ?.
        rewrite Hh in Hkid. simplify_eq. eauto.
    + split; [done|]. exists token. split; [done|]. intros kid' key' Hkid ?.
      rewrite Hh in Hkid. simplify_eq.
  - split; [done|]. exists token. split; [done|]. intros kid key Hkid. congruence.
  - split; [done|]. exists token. split; [done|]. intros kid key Hkid. congruence.
Qed.

Lemma load_keys_iss aud jwks keys keys' :
  Jwt.load_keys aud jwks keys = Ok keys' →
  map_Forall (λ _ k, Jwt.v_iss (Jwt.validation k) = None ∧ Jwt.v_aud (Jwt.validation k) = Some aud) keys →
  map_Forall (λ _ k, Jwt.v_iss (Jwt.validation k) = None ∧ Jwt.v_aud (Jwt.validation k) = Some aud) keys'.
Proof.
  revert keys. induction jwks as [|jwk jwks IH]; intros keys; simpl; [by intros [= <-]|].
  intros (k & Hk & Hl)%and_then_Ok Hkeys. eapply IH; [exact Hl|]. destruct k as [[kid k]|]; [|done].
  unfold Jwt.load_key in Hk. destruct (Jwt.to_supported_alg _) as [alg|]; [|done].
  apply and_then_Ok in Hk as (kid' & _ & Hk). apply and_then_Ok in Hk as (dk & _ & Hk).
  injection Hk as <- <-. by apply map_Forall_insert_2.
Qed.

(** The keys of a configuration. Tokens are checked for the configured
    audiences; the configured issuer is not used: whatever it is, the same keys are
    loaded and no key checks the issuer of a token. *)
Theorem jwt_issuer_unchecked load cfg issuer keys :
  Jwt.try_into load cfg = Ok keys →
  Jwt.try_into load {| Jwt.lj_issuer := issuer; Jwt.lj_audiences := Jwt.lj_audiences cfg;
                       Jwt.lj_jwks := Jwt.lj_jwks cfg |} = Ok keys ∧
  ∀ kid key, keys !! kid = Some key →
    Jwt.v_iss (Jwt.validation key) = None ∧
    Jwt.v_aud (Jwt.validation key) = Some (Jwt.lj_audiences cfg).
Proof.
  intros Hk. split; [done|]. intros kid key Hkey. apply and_then_Ok in Hk as (jwks & _ & Hk).
  by apply (load_keys_iss _ _ _ _ Hk (map_Forall_empty _) kid key).
Qed.

(** Passing a token on. A request that came with the header [Bearer token] and
    was authenticated goes to a backend that takes the client's credentials with the
    same header and otherwise unchanged. *)
Theorem jwt_passthrough_roundtrip `{!HttpParsers} gcp keys s s' token :
  hdr_get_all (req_headers (rs_req s)) "authorization" = ["Bearer " +:+ token] →
  bearer ["Bearer " +:+ token] = Some token →
  HeaderValue_from_str ("Bearer " +:+ token) = Some ("Bearer " +:+ token) →
  Jwt.apply bearer keys s = (s', Ok ()) →
  let '(s'', r) := apply_backend_auth gcp (Some Passthrough) s' in
  r = Ok () ∧ rs_req s'' = with_headers (rs_req s) (req_headers (rs_req s'')) ∧
  ∀ k, hdr_get_all (req_headers (rs_req s'')) k = hdr_get_all (req_headers (rs_req s)) k.
Proof.
  intros Hauth Hbearer Hvalue. unfold Jwt.apply. rewrite Hauth, Hbearer.
  unfold Jwt.validate_claims.
  destruct (Jwt.decode_header token) as [[kid|]|]; simpl; [|done|done].
  destruct (keys !! kid) as [key|]; simpl; [|done].
  destruct (Jwt.jwt_decode _ _ _) as [claims|]; simpl; [|done].
  intros [= <-]. simpl. unfold insert_bearer. rewrite Hvalue. split_and!; [done|done|].
  intros k. simpl. rewrite hdr_get_all_insert, hdr_get_all_remove. by repeat case_decide; subst.
Qed.
End jwt_facts.

Section ext_facts.
Context `{!HeaderMapOps, !HttpParsers, !HeaderMapLaws}.
Context (to_str HeaderValue_from_bytes : string → option string).
Context (authz : Target → CheckRequest → option CheckResponse).
Local Abbreviation check := (ext_authz_check to_str HeaderValue_from_bytes authz).

(** External authorization. The request is stopped with 403 when the service
    cannot be reached or answers with a status other than OK, whatever response it
    prescribes; the response of a denial is used only when its status is OK. An
    answer without a status is a panic. *)
Theorem ext_authz_outcome self conn s start :
  ci_start conn = Some start →
  match authz (ea_target self) (check_request_of to_str self conn start (rs_req s)) with
  | None => check self conn s = Ret (s, Err AuthorizationFailed)
  | Some cr =>
    match cr_status cr with
    | None => check self conn s = Panic
    | Some code =>
      if decide (code = 0%Z) then
        match cr_http_response cr with
        | None => check self conn s = Ret (s, Ok PolicyResponse_default)
        | Some (DeniedResponse status headers body) => ∃ p resp,
            check self conn s = Ret (s, Ok p) ∧ direct_response p = Some resp ∧ resp_body resp = body ∧
            (status = None → resp_status resp = FORBIDDEN) ∧
            (∀ c, status = Some c → (100 ≤ c < 1000)%Z → resp_status resp = c)
        | Some (OkResponse headers to_remove to_add) => ∃ s' p,
            check self conn s = Ret (s', Ok p) ∧ should_short_circuit p = false ∧
            rs_req s' = with_headers (rs_req s) (req_headers (rs_req s'))
        end
      else check self conn s = Ret (s, Err AuthorizationFailed) ∧ as_status AuthorizationFailed = FORBIDDEN
    end
  end.
Proof.
  intros Hstart. unfold ext_authz_check. rewrite Hstart. simpl.
  destruct (authz _ _) as [cr|]; [|done]. destruct (cr_status cr) as [code|]; [|done]. simpl.
  destruct (decide (code = 0%Z)) as [->|Hne]; [|by rewrite decide_True].
  destruct (cr_http_response cr) as [[status headers body|headers to_remove to_add]|]; simpl; [| |done].
  - eexists _, _. split_and!; [done..| |].
    + by intros ->.
    + intros c -> Hc. simpl. rewrite Z.mod_small by lia. unfold StatusCode_from_u16. by rewrite decide_True.
  - eexists _, _. done.
Qed.

(** The headers an external service prescribes. A header that carries a text
    [value] but no raw bytes is set to its own name, not to that text. *)
Theorem proto_header_value hm h name v :
  HeaderName_from_bytes (ph_key h) = Some name → HeaderValue_from_bytes (ph_key h) = Some v →
  ph_raw_value h = "" →
  hdr_get_all (process_header HeaderValue_from_bytes hm {| ho_header := Some h; ho_append := None |}) name = [v] ∧
  hdr_get_all (rl_process_header HeaderValue_from_bytes hm h) name = [v].
Proof.
  intros Hn Hv Hraw. unfold process_header, rl_process_header, proto_value. simpl. rewrite Hn, Hraw. simpl.
  rewrite Hv. rewrite hdr_get_all_insert, decide_True by done. done.
Qed.
End ext_facts.

(** ** Examples *)

Module AuthExample.
#[local] Existing Instance gmap_headers.
#[local] Existing Instance gmap_headers_laws.
#[local] Existing Instance example_parsers.

(** A library for which a token is [kid:key], and a key verifies its own text. *)
Definition lib : Jwt.JwtLib := {|
  Jwt.DecodingKey := string;
  Jwt.decode_header t := match Str.split_once ":" t with Some (kid, _) => Ok (Some kid) | None => Err "" end;
  Jwt.jwt_decode t k _ := match Str.split_once ":" t with
                          | Some (_, k') => if Str.eqb k k' then Ok [("sub", Str "alice")] else Err "signature"
                          | None => Err "" end;
  Jwt.from_rsa_components n _ := Ok n;
  Jwt.from_ec_components x _ := Ok x;
  Jwt.algorithm_from_str a := Some a
|}.
#[local] Existing Instance lib.

Definition config : Jwt.LocalJwtConfig :=
  {| Jwt.lj_issuer := "https://issuer"; Jwt.lj_audiences := ["gw"]; Jwt.lj_jwks := Jwt.File "keys" |}.
Definition jwks : list Jwt.JwkSpec :=
  [{| Jwt.key_algorithm := Some "RS256"; Jwt.key_id := Some "k1"; Jwt.algorithm := Jwt.RSA "secret" "" |}].
Definition keys : gmap string Jwt.Jwk :=
  {[ "k1" := {| Jwt.decoding := "secret" : Jwt.DecodingKey;
                Jwt.validation := Jwt.set_audience (Jwt.Validation_new "RS256") ["gw"] |} ]}.

Definition bearer (vs : list string) : option string :=
  match vs with v :: _ => Str.strip_prefix "Bearer " v | [] => None end.

Definition state (auth : string) : ReqState :=
  mkReqState _ {| req_method := "GET"; req_uri := example_uri "/"; req_body := "";
                  req_headers := hdr_insert hdr_new "authorization" auth; req_original_url := None |}
    None ContextBuilder_new None.

Lemma jwt_apply_witness :
  ∃ s', (Jwt.apply bearer keys (state "Bearer k1:secret")).1 = s' ∧
    hdr_get_all (req_headers (rs_req s')) "authorization" = [].
Proof.
  pose proof (@jwt_apply lib gmap_headers gmap_headers_laws bearer keys (state "Bearer k1:secret")) as H.
  assert ((Jwt.apply bearer keys (state "Bearer k1:secret")).2 = Ok ()) as Hr by reflexivity.
  destruct (Jwt.apply bearer keys (state "Bearer k1:secret")) as [s' r]. simpl in Hr. subst r.
  exists s'. split; [reflexivity|].
  assert (bearer (hdr_get_all (req_headers (rs_req (state "Bearer k1:secret"))) "authorization") =
    Some "k1:secret") as Hb by reflexivity.
  rewrite Hb in H. destruct H as (kid & key & claims & _ & _ & _ & _ & _ & H). rewrite H. reflexivity.
Defined.

Lemma jwt_issuer_unchecked_witness :
  Jwt.try_into (λ _, Ok jwks)
    {| Jwt.lj_issuer := "https://other"; Jwt.lj_audiences := ["gw"]; Jwt.lj_jwks := Jwt.File "keys" |} = Ok keys.
Proof. apply (jwt_issuer_unchecked (λ _, Ok jwks) config "https://other" keys). reflexivity. Defined.

Lemma jwt_passthrough_roundtrip_witness : ∃ s',
  Jwt.apply bearer keys (state "Bearer k1:secret") = (s', Ok ()) ∧
  hdr_get_all (req_headers (rs_req (apply_backend_auth (Err "") (Some Passthrough) s').1)) "authorization" =
    ["Bearer k1:secret"].
Proof.
  set (s' := (Jwt.apply bearer keys (state "Bearer k1:secret")).1).
  assert (Jwt.apply bearer keys (state "Bearer k1:secret") = (s', Ok ())) as Hs' by reflexivity.
  exists s'. split; [exact Hs'|].
  pose proof (jwt_passthrough_roundtrip bearer (Err "") keys (state "Bearer k1:secret") s' "k1:secret"
    eq_refl eq_refl eq_refl Hs') as H.
  destruct (apply_backend_auth (Err "") (Some Passthrough) s') as [s'' r].
  destruct H as (_ & _ & H). exact (H "authorization").
Defined.

Definition policy : ExtAuthz := {| ea_target := TgtHostname "authz" 9000; ea_context := None |}.
Definition conn : ConnInfo := {| ci_start := Some 0%Z; ci_tls := false; ci_version := "HTTP/2.0" |}.

(** A denial with its own status is answered with 403. *)
Definition denies (t : Target) (q : CheckRequest) : option CheckResponse :=
  Some {| cr_status := Some 7%Z; cr_http_response := Some (DeniedResponse (Some 401%Z) [] "login") |}.

Lemma ext_authz_outcome_witness :
  ext_authz_check Some Some denies policy conn (state "x") = Ret (state "x", Err AuthorizationFailed).
Proof.
  exact (proj1 (ext_authz_outcome Some Some denies policy conn (state "x") 0 eq_refl)).
Defined.

Lemma proto_header_value_witness :
  hdr_get_all (rl_process_header Some hdr_new
    {| ph_key := "x-user"; ph_value := "alice"; ph_raw_value := "" |}) "x-user" = ["x-user"].
Proof.
  exact (proj2 (@proto_header_value gmap_headers example_parsers gmap_headers_laws Some hdr_new
    {| ph_key := "x-user"; ph_value := "alice"; ph_raw_value := "" |} "x-user" "x-user" eq_refl eq_refl eq_refl)).
Defined.
End AuthExample.
