(* ===== verification/Tunnel.v ===== *)
(** Tunnel: reaching a destination through a proxy by an HTTP CONNECT request
    ([hyper-util-fork/client/legacy/connect/proxy/tunnel.rs]): the headers of the request,
    its text, and the reading of the answer.

    The connector below, and what the connection answers to reads and writes, are the
    environment's. *)
From S2P Require Import Prelude Strs Http Auth.

Inductive TunnelError :=
| ConnectFailed (e : string) | Io (e : string) | MissingHost | ProxyAuthRequired | ProxyHeadersTooLong
| TunnelUnexpectedEof | TunnelUnsuccessful.

Section tunnel.
Context `{!HeaderMapOps}.

(** * The headers of the request *)

Inductive Headers := Empty | Auth (v : string) | Extra (h : HeaderMap).

Definition PROXY_AUTHORIZATION : string := "proxy-authorization".

(** [Extend] of a header map: the first value of a name replaces those there. *)
Fixpoint extend_from (m : HeaderMap) (key : string) (l : list (option string * string)) : HeaderMap :=
  match l with
  | [] => m
  | (Some k, v) :: l => extend_from (hdr_insert m k v) k l
  | (None, v) :: l => extend_from (hdr_append m key v) key l
  end.
Definition extend (m h : HeaderMap) : HeaderMap := extend_from m "" (hdr_into_iter h).

Definition with_auth (auth : string) (self : Headers) : Headers :=
  match self with
  | Empty | Auth _ => Auth auth
  | Extra extra => Extra (hdr_insert extra PROXY_AUTHORIZATION auth)
  end.

Definition with_headers (headers : HeaderMap) (self : Headers) : Headers :=
  match self with
  | Empty => Extra headers
  | Auth auth =>
    Extra (match hdr_get_all headers PROXY_AUTHORIZATION with [] => hdr_insert headers PROXY_AUTHORIZATION auth | _ => headers end)
  | Extra extra => Extra (extend extra headers)
  end.

(** * The request *)

Definition CRLF : string := String "013" (String "010" "").
Definition header_line (name value : string) : string := name +:+ ": " +:+ value +:+ CRLF.
Definition header_lines (headers : Headers) : string :=
  match headers with
  | Auth auth => header_line "Proxy-Authorization" auth
  | Extra extra => String.concat "" ((λ '(name, value), header_line name value) <$> iter_headers extra)
  | Empty => ""
  end.
Definition connect_request (host : string) (port : N) (headers : Headers) : string :=
  let dst := host +:+ ":" +:+ Str.display_nat port in
  "CONNECT " +:+ dst +:+ " HTTP/1.1" +:+ CRLF +:+ "Host: " +:+ dst +:+ CRLF +:+ header_lines headers +:+ CRLF.

(** * The answer *)

Definition BUFFER : nat := 8 * 1024.
Definition is_200 (recvd : string) : bool := Str.starts_with "HTTP/1.1 200" recvd || Str.starts_with "HTTP/1.0 200" recvd.

(** [recvd]: what was read so far; each read fills at most the rest of the buffer. [None]
    while the connection has not answered. *)
Fixpoint read_answer (reads : list (result string string)) (recvd : string) : option (result () TunnelError) :=
  match reads with
  | [] => None
  | Err e :: _ => Some (Err (Io e))
  | Ok data :: reads =>
    let data := String.substring 0 (BUFFER - Str.len recvd) data in
    if Str.is_empty data then Some (Err TunnelUnexpectedEof)
    else
      let recvd := recvd +:+ data in
      if is_200 recvd then
        if Str.ends_with (CRLF +:+ CRLF) recvd then Some (Ok ())
        else if bool_decide (Str.len recvd = BUFFER) then Some (Err ProxyHeadersTooLong)
        else read_answer reads recvd
      else if Str.starts_with "HTTP/1.1 407" recvd then Some (Err ProxyAuthRequired)
      else Some (Err TunnelUnsuccessful)
  end.

(** The request is written, then the answer is read. *)
Definition tunnel (write : string → result () string) (reads : list (result string string))
    (host : string) (port : N) (headers : Headers) : option (result () TunnelError) :=
  match write (connect_request host port headers) with
  | Err e => Some (Err (Io e))
  | Ok _ => read_answer reads ""
  end.

(** [Tunnel::call]: the proxy is connected to before the destination is looked at. *)
Definition call (connecting : result () string) (write : string → result () string) (reads : list (result string string))
    (headers : Headers) (dst : Uri) : option (result () TunnelError) :=
  match connecting with
  | Err e => Some (Err (ConnectFailed e))
  | Ok _ =>
    match uri_host dst with
    | None => Some (Err MissingHost)
    | Some host => tunnel write reads host (default 443%N (uri_port dst)) headers
    end
  end.
End tunnel.

(** * Theorems *)

Section headers.
Context `{!HeaderMapOps, !HeaderMapLaws}.

Lemma extend_group k v vs m key l k' :
  hdr_get_all (extend_from m key (hdr_group k (v :: vs) ++ l)) k' =
  hdr_get_all (extend_from (foldl (λ m v, hdr_append m k v) (hdr_insert m k v) vs) k l) k'.
Proof.
  simpl. generalize (hdr_insert m k v). clear m. induction vs as [|w vs IH]; intros m; simpl; [done|]. apply IH.
Qed.

Lemma appended_group k v vs m k' :
  hdr_get_all (foldl (λ m v, hdr_append m k v) (hdr_insert m k v) vs) k' = if decide (k = k') then v :: vs else hdr_get_all m k'.
Proof.
  induction vs as [|w vs IH] using rev_ind; simpl; [apply hdr_get_all_insert|].
  rewrite foldl_snoc, hdr_get_all_append, IH. case_decide; [done|]. by rewrite app_nil_r.
Qed.

Lemma extend_groups (f : string → list string) ks m key k :
  NoDup ks → (∀ k, k ∈ ks → f k ≠ []) →
  hdr_get_all (extend_from m key (concat ((λ k, hdr_group k (f k)) <$> ks))) k =
  if decide (k ∈ ks) then f k else hdr_get_all m k.
Proof.
  revert m key. induction ks as [|k0 ks IH]; intros m key Hnd Hne.
  - by rewrite decide_False by set_solver.
  - apply NoDup_cons in Hnd as [Hk0 Hnd]. csimpl. pose proof (Hne k0 ltac:(left)) as Hf.
    destruct (f k0) as [|v vs] eqn:Hv; [done|]. rewrite extend_group, IH by set_solver. rewrite appended_group.
    destruct (decide (k ∈ ks)) as [Hin|Hin]; [by rewrite decide_True by set_solver|].
    case_decide as Hk; [subst k; by rewrite decide_True by set_solver|]. by rewrite decide_False by set_solver.
Qed.

(** What is extended has the values of the new map, where it has some. *)
Lemma get_all_extend m h k :
  hdr_get_all (extend m h) k = match hdr_get_all h k with [] => hdr_get_all m k | vs => vs end.
Proof.
  destruct (hdr_into_iter_spec h) as (ks & Hnd & Hin & Hiter). unfold extend. rewrite Hiter.
  rewrite extend_groups; [|done|by intros k' Hk'; apply Hin]. case_decide as Hk; rewrite Hin in Hk.
  - by destruct (hdr_get_all h k).
  - apply dec_stable in Hk. by rewrite Hk.
Qed.

(** The credentials that a tunnel sends. *)
Definition auth_of (self : Headers) : list string :=
  match self with Empty => [] | Auth a => [a] | Extra h => hdr_get_all h PROXY_AUTHORIZATION end.

(** The credentials of a tunnel. Those that are set last are sent; headers that are
    added later replace them only when they have credentials of their own, and keep all
    other headers they do not name. *)
Theorem tunnel_credentials (self : Headers) a h :
  auth_of (with_auth a self) = [a] ∧
  auth_of (with_headers h self) =
    match hdr_get_all h PROXY_AUTHORIZATION with [] => auth_of self | vs => vs end ∧
  (∀ extra k, self = Extra extra →
     ∃ m, with_headers h self = Extra m ∧
       hdr_get_all m k = match hdr_get_all h k with [] => hdr_get_all extra k | vs => vs end).
Proof.
  split; [|split].
  - destruct self as [| |h']; [done|done|]. simpl. rewrite hdr_get_all_insert. by rewrite decide_True.
  - destruct self as [|b|h']; simpl; [by destruct (hdr_get_all h _)| |apply get_all_extend].
    destruct (hdr_get_all h PROXY_AUTHORIZATION) eqn:Hh; simpl; [|by rewrite Hh].
    rewrite hdr_get_all_insert. by rewrite decide_True.
  - intros extra k ->. eexists. split; [done|]. apply get_all_extend.
Qed.
End headers.

(** What the reads so far give, each within the buffer; [None] after a failure or an end. *)
Fixpoint received (reads : list (result string string)) (recvd : string) : option string :=
  match reads with
  | [] => Some recvd
  | Err _ :: _ => None
  | Ok data :: reads =>
    let data := String.substring 0 (BUFFER - Str.len recvd) data in
    if Str.is_empty data then None else received reads (recvd +:+ data)
  end.

(** The answer so far is the start of a success that goes on. *)
Definition goes_on (recvd : string) : Prop :=
  is_200 recvd = true ∧ Str.ends_with (CRLF +:+ CRLF) recvd = false ∧ Str.len recvd ≠ BUFFER.

(** When a tunnel is made. The answer is accepted at a read exactly when what was
    received then, at most 8192 bytes, is a response with status 200 that ends with an
    empty line, and what was received at each read before was already recognised as such a
    response. *)
Theorem tunnel_accepted reads recvd :
  read_answer reads recvd = Some (Ok ()) ↔
  ∃ pre last post text, reads = pre ++ last :: post ∧ received (pre ++ [last]) recvd = Some text ∧
    is_200 text = true ∧ Str.ends_with (CRLF +:+ CRLF) text = true ∧
    ∀ k, 0 < k ≤ length pre → ∃ t, received (take k pre) recvd = Some t ∧ goes_on t.
Proof.
  revert recvd. induction reads as [|[data|e] reads IH]; intros recvd; simpl.
  - split; [done|]. intros (pre & last & post & text & Hr & _). by destruct pre.
  - destruct (Str.is_empty (String.substring 0 (BUFFER - Str.len recvd) data)) eqn:Hd.
    { split; [done|]. intros ([|d pre] & last & post & text & Hr & Ht & _); injection Hr as <-; simpl in Ht; by rewrite Hd in Ht. }
    set (r := recvd +:+ String.substring 0 (BUFFER - Str.len recvd) data).
    assert (∀ l, received (Ok data :: l) recvd = received l r) as Hrec by (intros l; simpl; by rewrite Hd).
    assert (∀ last pre post, Ok data :: reads = pre ++ last :: post → (pre = [] ∧ last = Ok data ∧ post = reads) ∨
      ∃ pre', pre = Ok data :: pre' ∧ reads = pre' ++ last :: post) as Hsplit.
    { intros last [|d pre] post Hr; injection Hr as -> ->; [by left|right]. by exists pre. }
    destruct (is_200 r) eqn:H200; [destruct (Str.ends_with (CRLF +:+ CRLF) r) eqn:He; [|case_bool_decide as Hlen]|].
    + split; [intros _|done]. exists [], (Ok data), reads, r. split; [done|]. simpl app. rewrite Hrec. split; [done|].
      split; [done|]. split; [done|]. simpl. lia.
    + split; [done|]. intros (pre & last & post & text & Hr & Ht & _ & Hte & Hk).
      destruct (Hsplit _ _ _ Hr) as [(-> & -> & ->)|(pre' & -> & ->)].
      * simpl app in Ht. rewrite Hrec in Ht. injection Ht as <-. congruence.
      * destruct (Hk 1) as (t & Ht1 & _ & _ & Hl); [simpl; lia|]. simpl take in Ht1. rewrite take_0, Hrec in Ht1. by injection Ht1 as <-.
    + rewrite IH. split.
      * intros (pre & last & post & text & -> & Ht & H2 & Hte & Hk). exists (Ok data :: pre), last, post, text.
        split; [done|]. simpl app. rewrite Hrec. repeat (split; [done|]). intros [|k] Hkl; [lia|]. simpl take. rewrite Hrec.
        destruct (decide (k = 0)) as [->|Hk0]; [exists r; rewrite take_0; by repeat split|]. apply Hk. simpl in Hkl. lia.
      * intros (pre & last & post & text & Hr & Ht & H2 & Hte & Hk).
        destruct (Hsplit _ _ _ Hr) as [(-> & -> & ->)|(pre' & -> & ->)].
        { simpl app in Ht. rewrite Hrec in Ht. injection Ht as <-. congruence. }
        exists pre', last, post, text. split; [done|]. simpl app in Ht. rewrite Hrec in Ht. repeat (split; [done|]).
        intros k Hkl. destruct (Hk (S k)) as (t & Ht' & Hg); [simpl; lia|]. simpl take in Ht'. rewrite Hrec in Ht'. by exists t.
    + split; [by destruct (Str.starts_with _ _)|]. intros (pre & last & post & text & Hr & Ht & H2 & Hte & Hk).
      destruct (Hsplit _ _ _ Hr) as [(-> & -> & ->)|(pre' & -> & ->)].
      * simpl app in Ht. rewrite Hrec in Ht. injection Ht as <-. congruence.
      * destruct (Hk 1) as (t & Ht1 & Hg & _); [simpl; lia|]. simpl take in Ht1. rewrite take_0, Hrec in Ht1. injection Ht1 as <-. congruence.
  - split; [done|]. intros ([|d pre] & last & post & text & Hr & Ht & _); injection Hr as <-; by simpl in Ht.
Qed.

Lemma starts_with_len p s : Str.starts_with p s = true → Str.len p ≤ Str.len s.
Proof. intros [r ->]%Str.starts_with_spec. rewrite Str.len_app. lia. Qed.

(** The start of a good answer is refused when it comes in two reads and the first is too
    short for its status. *)
Theorem tunnel_short_read data reads :
  data ≠ "" → Str.len data < 12 → read_answer (Ok data :: reads) "" = Some (Err TunnelUnsuccessful).
Proof.
  intros Hne Hlen. cbn [read_answer].
  assert (String.substring 0 (BUFFER - Str.len "") data = data) as ->.
  { assert (∀ n s, Str.len s ≤ n → String.substring 0 n s = s) as Hsub.
    { induction n as [|n IH]; intros [|a s] Hs; simpl in *; [done|lia|done|]. f_equal. apply IH. lia. }
    apply Hsub. unfold BUFFER. simpl Str.len. lia. }
  destruct data as [|a d]; [done|]. simpl Str.is_empty. change ("" +:+ ?s) with s. unfold is_200.
  assert (∀ p, Str.len p = 12 → Str.starts_with p (String a d) = false) as Hp.
  { intros p Hp. destruct (Str.starts_with p (String a d)) eqn:Hs; [|done]. apply starts_with_len in Hs. lia. }
  by rewrite !Hp.
Qed.

(** * A proxy with credentials *)

Module TunnelClientExample.
#[local] Existing Instance gmap_headers.
#[local] Existing Instance gmap_headers_laws.

Example request :
  connect_request "a.com" 443 (with_auth "Basic x" Empty) =
  "CONNECT a.com:443 HTTP/1.1" +:+ CRLF +:+ "Host: a.com:443" +:+ CRLF +:+ "Proxy-Authorization: Basic x" +:+ CRLF +:+ CRLF.
Proof. reflexivity. Qed.

Definition first : string := "HTTP/1.1 200 OK" +:+ CRLF.
Definition reads : list (result string string) := [Ok first; Ok CRLF; Ok "data"].

(** The answer may come in parts, once its status is there. *)
Lemma tunnel_accepted_witness :
  read_answer reads "" = Some (Ok ()) ∧
  ∃ pre last post text, reads = pre ++ last :: post ∧ received (pre ++ [last]) "" = Some text ∧ is_200 text = true.
Proof.
  assert (read_answer reads "" = Some (Ok ())) as H by (vm_compute; reflexivity). split; [exact H|].
  destruct (proj1 (tunnel_accepted reads "") H) as (pre & last & post & text & Hr & Ht & H2 & _).
  exists pre, last, post, text. split; [exact Hr|]. split; [exact Ht|exact H2].
Defined.

Lemma tunnel_short_read_witness : read_answer [Ok "HTTP/1.1"; Ok (" 200 OK" +:+ CRLF +:+ CRLF)] "" = Some (Err TunnelUnsuccessful).
Proof. apply tunnel_short_read; [discriminate|]. simpl. lia. Defined.

Lemma tunnel_credentials_witness : auth_of (with_auth "Basic y" (Extra (hdr_insert hdr_new "x-a" "1"))) = ["Basic y"].
Proof. exact (proj1 (tunnel_credentials (Extra (hdr_insert hdr_new "x-a" "1")) "Basic y" hdr_new)). Defined.

(** An answer with data behind it in the same read is waited on for good. *)
Example early_data : read_answer [Ok (first +:+ CRLF +:+ "hello")] "" = None.
Proof. by vm_compute. Qed.
End TunnelClientExample.
