(* ===== verification/RequestBuilder.v ===== *)
(** RequestBuilder: building a request step by step ([proxy/request_builder.rs]): its
    headers, query, body and version, the first error, the credentials of its URL, and the
    conversions from and to the requests of the gateway.

    URLs, header names and values, serialization and the check of a URI are other packages';
    whether a header value is sensitive is only for printing. *)
From S2P Require Import Prelude Strs Http HttpProxy Auth Tunnel.

(** [url::Url] *)
Class UrlLib := {
  Url : Type;
  url_parse : string → result Url string;
  as_str : Url → string;
  append_pairs : Url → list (string * string) → Url;
  query_of : Url → option string;
  clear_query : Url → Url;
  has_authority : Url → bool;
  username : Url → string;
  password : Url → option string;
  (** [None] when it refuses *)
  set_username : Url → string → option Url;
  set_password : Url → option string → option Url
}.

Section builder.
Context `{!HeaderMapOps, !UrlLib} {Extensions : Type} (no_extensions : Extensions).
Context (name_of value_of : string → result string string).
(** The check of [http::request::Builder]: the URI of the URL. *)
Context (uri_of : string → result string string).

Record Request := mkRequest {
  method : string; url : Url; headers : HeaderMap; body : option string; version : Version; extensions : Extensions
}.
(** [http::Request], its URI as text. *)
Record HttpRequest := mkHttp {
  h_method : string; h_uri : string; h_headers : HeaderMap; h_body : string; h_version : Version; h_extensions : Extensions
}.

Definition Request_new (m : string) (u : Url) : Request := mkRequest m u hdr_new None HTTP_11 no_extensions.
Definition set_headers (r : Request) (h : HeaderMap) : Request := mkRequest (method r) (url r) h (body r) (version r) (extensions r).
Definition set_body (r : Request) (b : string) : Request :=
  mkRequest (method r) (url r) (headers r) (Some b) (version r) (extensions r).
Definition set_url (r : Request) (u : Url) : Request := mkRequest (method r) u (headers r) (body r) (version r) (extensions r).

Definition RequestBuilder : Type := result Request string.

Definition builder_new (m u : string) : RequestBuilder := let? u := url_parse u in Ok (Request_new m u).

(** [header], whatever its sensitivity. *)
Definition header (key value : string) (self : RequestBuilder) : RequestBuilder :=
  let? req := self in let? k := name_of key in let? v := value_of value in
  Ok (set_headers req (hdr_append (headers req) k v)).

(** [prev]: the name of the entry before; a value without a name and no entry before it
    cannot happen. *)
Fixpoint replace_from (dst : HeaderMap) (prev : option string) (src : list (option string * string)) : comp HeaderMap :=
  match src with
  | [] => Ret dst
  | (Some key, value) :: src => replace_from (hdr_insert dst key value) (Some key) src
  | (None, value) :: src =>
    match prev with
    | Some key => replace_from (hdr_append dst key value) prev src
    | None => Panic
    end
  end.
Definition replace_headers (dst src : HeaderMap) : comp HeaderMap := replace_from dst None (hdr_into_iter src).

Definition with_headers (h : HeaderMap) (self : RequestBuilder) : comp RequestBuilder :=
  match self with Ok req => hs ← replace_headers (headers req) h; Ret (Ok (set_headers req hs)) | Err e => Ret (Err e) end.

Definition with_body (b : string) (self : RequestBuilder) : RequestBuilder := let? req := self in Ok (set_body req b).

(** [query]: what was serialized before a failure stays in the URL, which is dropped. *)
Definition query (pairs : result (list (string * string)) string) (self : RequestBuilder) : RequestBuilder :=
  let? req := self in
  let? pairs := pairs in
  let u := append_pairs (url req) pairs in
  Ok (set_url req (if bool_decide (query_of u = Some "") then clear_query u else u)).

Definition with_version (v : Version) (self : RequestBuilder) : RequestBuilder :=
  let? req := self in Ok (mkRequest (method req) (url req) (headers req) (body req) v (extensions req)).

Definition CONTENT_TYPE : string := "content-type".
Definition or_insert (h : HeaderMap) (k v : string) : HeaderMap :=
  match hdr_get_all h k with [] => hdr_insert h k v | _ => h end.

(** [form] and [json], of the serialized value. *)
Definition typed_body (ty : string) (b : result string string) (self : RequestBuilder) : RequestBuilder :=
  let? req := self in let? b := b in Ok (set_body (set_headers req (or_insert (headers req) CONTENT_TYPE ty)) b).
Definition form : result string string → RequestBuilder → RequestBuilder := typed_body "application/x-www-form-urlencoded".
Definition json : result string string → RequestBuilder → RequestBuilder := typed_body "application/json".

(** [TryFrom<Request> for http::Request] *)
Definition to_http (r : Request) : result HttpRequest string :=
  let? u := uri_of (as_str (url r)) in Ok (mkHttp (method r) u (headers r) (default "" (body r)) (version r) (extensions r)).
(** [TryFrom<http::Request> for Request] *)
Definition from_http (r : HttpRequest) : result Request string :=
  let? u := url_parse (h_uri r) in Ok (mkRequest (h_method r) u (h_headers r) (Some (h_body r)) (h_version r) (h_extensions r)).

Definition build (self : RequestBuilder) : result HttpRequest string := let? req := self in to_http req.

(** [extract_authority], given [percent_decode] to UTF-8. *)
Definition extract_authority (decode : string → option string) (u : Url) : comp (Url * option (string * option string)) :=
  if has_authority u then
    match decode (username u) with
    | None => Ret (u, None)
    | Some user =>
      let pass := password u ≫= decode in
      if negb (Str.is_empty user) || bool_decide (is_Some pass) then
        u1 ← expect (set_username u "");
        u2 ← expect (set_password u1 None);
        Ret (u2, Some (user, pass))
      else Ret (u, None)
    end
  else Ret (u, None).

(** ** A chain of calls *)

Inductive Call :=
| CHeader (k v : string) | CHeaders (h : HeaderMap) | CBody (b : string) | CQuery (pairs : result (list (string * string)) string)
| CVersion (v : Version) | CForm (b : result string string) | CJson (b : result string string).

Definition apply_call (c : Call) (self : RequestBuilder) : comp RequestBuilder :=
  match c with
  | CHeader k v => Ret (header k v self)
  | CHeaders h => with_headers h self
  | CBody b => Ret (with_body b self)
  | CQuery p => Ret (query p self)
  | CVersion v => Ret (with_version v self)
  | CForm b => Ret (form b self)
  | CJson b => Ret (json b self)
  end.
Definition calls (cs : list Call) (self : RequestBuilder) : comp RequestBuilder := foldM (λ b c, apply_call c b) cs self.

(** * Theorems *)

Section theorems.
Context `{!HeaderMapLaws}.

(** Replacing headers is extending them, and the impossible does not happen. *)
Lemma replace_from_extend dst k src :
  (∀ v, head src ≠ Some (None, v)) ∨ is_Some k → replace_from dst k src = Ret (extend_from dst (default "" k) src).
Proof.
  revert dst k. induction src as [|[[key|] v] src IH]; intros dst k Hk; simpl; [done|..].
  - rewrite IH by (right; by eexists). done.
  - destruct k as [k|]; [rewrite IH by (right; by eexists); done|]. exfalso. destruct Hk as [Hk|[? ?]]; [by apply (Hk v)|done].
Qed.

Lemma into_iter_named (h : HeaderMap) v : head (hdr_into_iter h) ≠ Some (None, v).
Proof.
  destruct (hdr_into_iter_spec h) as (ks & _ & Hin & ->). destruct ks as [|k ks]; [done|]. csimpl.
  pose proof (proj1 (Hin k) ltac:(left)) as Hk. by destruct (hdr_get_all h k).
Qed.

Lemma replace_headers_extend dst src : replace_headers dst src = Ret (extend dst src).
Proof. apply replace_from_extend. left. intros v. apply into_iter_named. Qed.

(** The first error of a chain of calls is its result. No chain panics; once a call has
    failed no later call changes that, and before, each call has added to the request. *)
Theorem builder_first_error cs (self : RequestBuilder) :
  ∃ r, calls cs self = Ret r ∧
    (∀ e, self = Err e → r = Err e) ∧
    (∀ e req, self = Ok req → r = Err e → ∃ pre c post req', cs = pre ++ c :: post ∧
       calls pre self = Ret (Ok req') ∧ apply_call c (Ok req') = Ret (Err e)).
Proof.
  assert (∀ c e, apply_call c (Err e) = Ret (Err e)) as Herr by by intros [].
  assert (∀ c b, ∃ r, apply_call c b = Ret r) as Htotal.
  { intros c self0. destruct c; try by eexists. simpl. unfold with_headers. destruct self0; [|by eexists].
    rewrite replace_headers_extend. by eexists. }
  assert (∀ cs e, calls cs (Err e) = Ret (Err e)) as Hsticky.
  { intros cs'. induction cs' as [|c cs' IH]; intros e; [done|]. unfold calls. simpl. rewrite Herr. apply IH. }
  revert self. induction cs as [|c cs IH]; intros self.
  - exists self. split; [done|]. split; [done|]. by intros e req -> [=].
  - destruct (Htotal c self) as [b Hb]. destruct (IH b) as (r & Hr & He & Hok). exists r. unfold calls. simpl. rewrite Hb.
    split; [exact Hr|]. split.
    + intros e ->. rewrite Herr in Hb. injection Hb as <-. by apply He.
    + intros e req -> ->. destruct b as [req'|e'].
      * destruct (Hok e req' eq_refl eq_refl) as (pre & c' & post & req'' & -> & Hpre & Hc').
        exists (c :: pre), c', post, req''. split; [done|]. unfold calls. simpl. rewrite Hb. done.
      * pose proof (He e' eq_refl) as [= ->]. by exists [], c, cs, req.
Qed.

(** Headers that are set as a whole replace those of the same names, with all their
    values, and keep the others; a form or a JSON body is given its content type unless there
    is one. *)
Theorem builder_headers (req : Request) h k ty b :
  (∃ req', with_headers h (Ok req) = Ret (Ok req') ∧
     hdr_get_all (headers req') k = match hdr_get_all h k with [] => hdr_get_all (headers req) k | vs => vs end ∧
     body req' = body req ∧ url req' = url req) ∧
  (∃ req', typed_body ty (Ok b) (Ok req) = Ok req' ∧ body req' = Some b ∧
     hdr_get_all (headers req') CONTENT_TYPE = match hdr_get_all (headers req) CONTENT_TYPE with [] => [ty] | vs => vs end).
Proof.
  split.
  - simpl. rewrite replace_headers_extend. eexists. split; [done|]. simpl. split; [apply get_all_extend|done].
  - eexists. split; [done|]. split; [done|]. simpl. unfold or_insert. destruct (hdr_get_all (headers req) CONTENT_TYPE) eqn:Hh.
    + rewrite hdr_get_all_insert. by rewrite decide_True.
    + done.
Qed.
End theorems.

(** A request survives the conversions. When the text of its URL is a URI and reads as
    the same URL, converting a request to the gateway's and back gives the same request,
    with an empty body where it had none. *)
Theorem request_roundtrip (r : Request) :
  uri_of (as_str (url r)) = Ok (as_str (url r)) → url_parse (as_str (url r)) = Ok (url r) →
  (let? h := to_http r in from_http h) = Ok (set_body r (default "" (body r))).
Proof. intros Hu Hp. unfold to_http. rewrite Hu. simpl. unfold from_http. simpl. by rewrite Hp. Qed.

(** The credentials of a URL are taken out of it. *)
Lemma extract_authority_removes decode u u' c :
  (∀ v w v', set_username v w = Some v' → username v' = w) →
  (∀ v w v', set_password v w = Some v' → password v' = w ∧ username v' = username v) →
  extract_authority decode u = Ret (u', Some c) → username u' = "" ∧ password u' = None.
Proof.
  intros Hsu Hsp. unfold extract_authority. destruct (has_authority u); [|done]. destruct (decode (username u)); [|done].
  destruct (_ || _); [|done]. destruct (set_username u "") as [u1|] eqn:H1; simpl; [|done].
  destruct (set_password u1 None) as [u2|] eqn:H2; simpl; [|done]. intros [= <- _].
  apply Hsu in H1. apply Hsp in H2 as [-> ->]. done.
Qed.
End builder.

(** * A chain with a bad header *)

Module BuilderExample.
#[local] Existing Instance gmap_headers.
#[local] Existing Instance gmap_headers_laws.

(** URLs that are their text and its query. *)
#[local] Instance urls : UrlLib := {|
  Url := string * option string;
  url_parse s := if Str.starts_with "http" s then Ok (s, None) else Err "relative URL without a base";
  as_str u := match u.2 with Some q => u.1 +:+ "?" +:+ q | None => u.1 end;
  append_pairs u l := (u.1, Some (String.concat "&" ((λ '(k, v), k +:+ "=" +:+ v) <$> l)));
  query_of u := u.2; clear_query u := (u.1, None);
  has_authority _ := false; username _ := ""; password _ := None;
  set_username _ _ := None; set_password _ _ := None
|}.
Definition value_of (s : string) : result string string := if Str.contains_char "010" s then Err "invalid header value" else Ok s.
Definition Builder : Type := RequestBuilder (Extensions := unit).
Definition get : Builder := builder_new tt "GET" "http://lo".
Definition request : Request (Extensions := unit) := mkRequest "GET" ("http://lo", None) hdr_new None HTTP_11 tt.

Definition chain : list Call := [CBody "b"; CHeader "x-a" (String "010" ""); CQuery (Err "late")].
Definition chain_result : calls Ok value_of chain get = Ret (Err "invalid header value") := eq_refl.

Lemma builder_first_error_witness :
  calls Ok value_of chain get = Ret (Err "invalid header value") ∧
  ∃ pre c post, chain = pre ++ c :: post ∧ calls Ok value_of pre get = Ret (Ok (set_body request "b")).
Proof.
  destruct (builder_first_error (Extensions := unit) Ok value_of chain get) as (r & Hr & _ & Hok).
  rewrite chain_result in Hr. injection Hr as <-.
  split; [exact chain_result|]. destruct (Hok _ request eq_refl eq_refl) as (pre & c & post & req' & Hcs & Hpre & _).
  exists [CBody "b"], (CHeader "x-a" (String "010" "")), [CQuery (Err "late")]. split; reflexivity.
Defined.

Lemma builder_headers_witness :
  ∃ req', with_headers (hdr_insert hdr_new "x-a" "2") (Ok request) = Ret (Ok req') ∧ hdr_get_all (headers req') "x-a" = ["2"].
Proof.
  destruct (proj1 (builder_headers request (hdr_insert hdr_new "x-a" "2") "x-a" "" "")) as (req' & Hr & Hh & _).
  exists req'. split; [exact Hr|]. rewrite Hh. reflexivity.
Defined.

Lemma request_roundtrip_witness :
  (let? h := to_http Ok request in from_http h) = Ok (set_body request "").
Proof. apply (request_roundtrip Ok request); reflexivity. Defined.
End BuilderExample.
