(* ===== verification/ExtProc.v ===== *)
(** ExtProc: external processing of requests and responses ([http/ext_proc.rs]).

    The headers and the body of a message are sent to a server while its answers are
    applied: changes of headers, and chunks of the new body.  Two tasks run: one sends the
    body ([pump]), the other receives the answers until one ends the body ([pc]).  The
    system interleaves them with the server; queues are bounded as the code's channels.
    The same system stands for requests and for responses; [mutate_request] and
    [mutate_response] of [RequestPath] use its outcome. *)
From S2P Require Import Prelude Strs Http Filters Auth.

(** * Messages *)

Inductive Dir := DRequest | DResponse.

(** [ProcessingRequest]. *)
Inductive ProcessingRequest :=
| RequestHeaders (headers : list (string * string))
| RequestBody (body : string) (end_of_stream : bool)
| RequestTrailers (trailers : list (string * string))
| ResponseHeaders (headers : list (string * string))
| ResponseBody (body : string) (end_of_stream : bool)
| ResponseTrailers (trailers : list (string * string)).

Inductive Mutation := Body | ClearBody | StreamedResponse (body : string) (end_of_stream : bool).
(** A header to set can lack its value. *)
Record HeaderMutation := { set_headers : list (option (string * string)); remove_headers : list string }.
Record CommonResponse := { header_mutation : option HeaderMutation; body_mutation : option (option Mutation) }.

Inductive ProcessingResponse :=
| RespRequestHeaders (response : option CommonResponse)
| RespRequestBody (response : option CommonResponse)
| RespResponseHeaders (response : option CommonResponse)
| RespResponseBody (response : option CommonResponse)
| RespOther.

Definition response_for (d : Dir) (presp : ProcessingResponse) : option CommonResponse :=
  match d, presp with
  | DRequest, (RespRequestHeaders (Some cr) | RespRequestBody (Some cr)) => Some cr
  | DResponse, (RespResponseHeaders (Some cr) | RespResponseBody (Some cr)) => Some cr
  | _, _ => None
  end.

Section ext_proc.
Context `{!HeaderMapOps, !HttpParsers} (HeaderValue_from_bytes : string → option string).

Definition headers_msg (d : Dir) (headers : HeaderMap) : ProcessingRequest :=
  match d with DRequest => RequestHeaders (iter_headers headers) | DResponse => ResponseHeaders (iter_headers headers) end.
Definition body_msg (d : Dir) (body : string) (eos : bool) : ProcessingRequest :=
  match d with DRequest => RequestBody body eos | DResponse => ResponseBody body eos end.
Definition trailers_msg (d : Dir) (trailers : HeaderMap) : ProcessingRequest :=
  match d with DRequest => RequestTrailers (iter_headers trailers) | DResponse => ResponseTrailers (iter_headers trailers) end.

(** * Sending the body *)

(** A frame of a body, or its failure. *)
Inductive BodyFrame := Data (data : string) | Trailers (trailers : HeaderMap) | BodyError.

(** The next message of the task that sends the body, and what is left of the body. *)
Definition pump_next (d : Dir) (body : list BodyFrame) : ProcessingRequest * option (list BodyFrame) :=
  match body with
  | Data data :: body => (body_msg d data false, Some body)
  | Trailers t :: body => (trailers_msg d t, Some body)
  | BodyError :: _ | [] => (body_msg d "" true, None)
  end.

(** * Applying an answer *)

Definition CONTENT_LENGTH : string := "content-length".

Definition remove_header (h : HeaderMap) (rm : string) : HeaderMap :=
  match HeaderName_from_bytes rm with Some name => hdr_remove h name | None => h end.

Fixpoint set_all (sets : list (option (string * string))) (h : HeaderMap) : result HeaderMap string :=
  match sets with
  | [] => Ok h
  | None :: sets => set_all sets h
  | Some (key, raw_value) :: sets =>
    let? hk := ok_or (HeaderName_from_bytes key) "invalid HTTP header name" in
    if Str.eqb hk CONTENT_LENGTH then set_all sets h
    else
      let? v := ok_or (HeaderValue_from_bytes raw_value) "failed to parse header value" in
      set_all sets (hdr_insert h hk v)
  end.

Definition mutate_headers (cr : CommonResponse) (h : HeaderMap) : result HeaderMap string :=
  let? h := match header_mutation cr with
            | Some m => set_all (set_headers m) (foldl remove_header h (remove_headers m))
            | None => Ok h
            end in
  Ok (hdr_remove h CONTENT_LENGTH).

(** The chunk that is sent on to the new body, and whether it is the last one. *)
Definition streamed_chunk (cr : CommonResponse) : option (string * bool) :=
  match body_mutation cr with Some (Some (StreamedResponse body eos)) => Some (body, eos) | _ => None end.

(** The handling of an answer up to the sending of the chunk; without a chunk it returns
    [false]. *)
Definition handle_response (d : Dir) (h : HeaderMap) (presp : ProcessingResponse)
    : result (HeaderMap * option (string * bool)) string :=
  match response_for d presp with
  | None => Ok (h, None)
  | Some cr => let? h := mutate_headers cr h in Ok (h, streamed_chunk cr)
  end.

Definition handle_response_for_request_mutation := handle_response DRequest.
Definition handle_response_for_response_mutation := handle_response DResponse.

(** * The system *)

Inductive Pc := PStart | PRecv | PSend (chunk : string) (eos : bool) | PDone | PFailed (e : string).

#[export] Instance Pc_eq_dec : EqDecision Pc.
Proof. solve_decision. Defined.

(** [tx] and [rx] are the channels to and from the server and [got] what it has taken;
    [pump] is what is left to send of the body; [chunks] is the channel of the new body and
    [taken] what was read of it; [seen] are the answers so far. *)
Record State := mkState {
  pc : Pc;
  headers : HeaderMap;
  pump : option (list BodyFrame);
  tx : list ProcessingRequest;
  got : list ProcessingRequest;
  rx : list ProcessingResponse;
  closed : bool;
  seen : list ProcessingResponse;
  chunks : list string;
  taken : list string
}.

(** The capacities of the channels. *)
Definition CHANNEL : nat := 10.
Definition CHUNK_CHANNEL : nat := 1.

Context (d : Dir) (h0 : HeaderMap) (body : list BodyFrame).

Definition initial : State := mkState PStart h0 None [] [] [] false [] [] [].

Definition handled (s : State) (presp : ProcessingResponse) (rest : list ProcessingResponse) : State :=
  let next pc h := mkState pc h (pump s) (tx s) (got s) rest (closed s) (seen s ++ [presp]) (chunks s) (taken s) in
  match handle_response d (headers s) presp with
  | Ok (h, None) => next PRecv h
  | Ok (h, Some (chunk, eos)) => next (PSend chunk eos) h
  | Err e => next (PFailed e) (headers s)
  end.

Inductive step : State → State → Prop :=
| step_start s :
  pc s = PStart → closed s = false →
  step s (mkState PRecv (headers s) (Some body) (tx s ++ [headers_msg d (headers s)]) (got s) (rx s) (closed s) (seen s)
            (chunks s) (taken s))
| step_start_fails s :
  pc s = PStart → closed s = true →
  step s (mkState (PFailed "failed to send ext_proc request") (headers s) (pump s) (tx s) (got s) (rx s) (closed s)
            (seen s) (chunks s) (taken s))
| step_pump s fs :
  pump s = Some fs → closed s = false → length (tx s) < CHANNEL →
  step s (mkState (pc s) (headers s) (pump_next d fs).2 (tx s ++ [(pump_next d fs).1]) (got s) (rx s) (closed s) (seen s)
            (chunks s) (taken s))
| step_pump_fails s :
  closed s = true →
  step s (mkState (pc s) (headers s) None (tx s) (got s) (rx s) (closed s) (seen s) (chunks s) (taken s))
| step_server_takes s m rest :
  tx s = m :: rest →
  step s (mkState (pc s) (headers s) (pump s) rest (got s ++ [m]) (rx s) (closed s) (seen s) (chunks s) (taken s))
| step_server_answers s m :
  closed s = false → length (rx s) < CHANNEL →
  step s (mkState (pc s) (headers s) (pump s) (tx s) (got s) (rx s ++ [m]) (closed s) (seen s) (chunks s) (taken s))
| step_server_closes s :
  step s (mkState (pc s) (headers s) (pump s) (tx s) (got s) (rx s) true (seen s) (chunks s) (taken s))
| step_recv s m rest :
  pc s = PRecv → rx s = m :: rest → step s (handled s m rest)
| step_recv_closed s :
  pc s = PRecv → rx s = [] → closed s = true →
  step s (mkState (PFailed "no more response messages") (headers s) (pump s) (tx s) (got s) (rx s) (closed s) (seen s)
            (chunks s) (taken s))
| step_send s chunk eos :
  pc s = PSend chunk eos → length (chunks s) < CHUNK_CHANNEL →
  step s (mkState (if eos then PDone else PRecv) (headers s) (pump s) (tx s) (got s) (rx s) (closed s) (seen s)
            (chunks s ++ [chunk]) (taken s))
| step_read s chunk rest :
  pc s = PDone → chunks s = chunk :: rest →
  step s (mkState (pc s) (headers s) (pump s) (tx s) (got s) (rx s) (closed s) (seen s) rest (taken s ++ [chunk])).

Definition reachable : State → Prop := rtc step initial.

(** * What is sent *)

Fixpoint body_messages (body : list BodyFrame) : list ProcessingRequest :=
  match body with
  | Data data :: body => body_msg d data false :: body_messages body
  | Trailers t :: body => trailers_msg d t :: body_messages body
  | BodyError :: _ | [] => [body_msg d "" true]
  end.

Definition pending (o : option (list BodyFrame)) : list ProcessingRequest := from_option body_messages [] o.

Lemma pump_next_messages fs : body_messages fs = (pump_next d fs).1 :: pending (pump_next d fs).2.
Proof. by destruct fs as [|[] fs]. Qed.

Definition all_messages : list ProcessingRequest := headers_msg d h0 :: body_messages body.

(** * What is received *)

Definition streamed (ms : list ProcessingResponse) : list (string * bool) :=
  omap (λ m, response_for d m ≫= streamed_chunk) ms.

Definition apply_headers (h : HeaderMap) (m : ProcessingResponse) : result HeaderMap string :=
  match response_for d m with Some cr => mutate_headers cr h | None => Ok h end.
Fixpoint apply_all (ms : list ProcessingResponse) (h : HeaderMap) : result HeaderMap string :=
  match ms with [] => Ok h | m :: ms => let? h := apply_headers h m in apply_all ms h end.

Lemma streamed_snoc ms m : streamed (ms ++ [m]) = streamed ms ++ option_list (response_for d m ≫= streamed_chunk).
Proof. unfold streamed. rewrite omap_app. simpl. by destruct (response_for d m ≫= streamed_chunk). Qed.

Lemma apply_all_snoc ms m h h1 : apply_all ms h = Ok h1 → apply_all (ms ++ [m]) h = apply_headers h1 m.
Proof.
  revert h. induction ms as [|m' ms IH]; intros h; simpl; [intros [= ->]; by destruct (apply_headers h1 m)|].
  destruct (apply_headers h m') as [h'|]; [apply IH|done].
Qed.

Lemma handle_response_ok h m : handle_response d h m =
  (let? h' := apply_headers h m in Ok (h', response_for d m ≫= streamed_chunk)).
Proof. unfold handle_response, apply_headers. by destruct (response_for d m). Qed.

Lemma mutate_headers_content_length `{!HeaderMapLaws} cr h h' :
  mutate_headers cr h = Ok h' → hdr_get_all h' CONTENT_LENGTH = [].
Proof.
  unfold mutate_headers. destruct (header_mutation cr) as [mt|]; simpl.
  - destruct (set_all _ _); simpl; [|done]. intros [= <-]. by rewrite hdr_get_all_remove, decide_True.
  - intros [= <-]. by rewrite hdr_get_all_remove, decide_True.
Qed.

(** Once an answer with a body was applied there is no content length. *)
Lemma apply_all_content_length `{!HeaderMapLaws} ms h h' :
  apply_all ms h = Ok h' → streamed ms ≠ [] → hdr_get_all h' CONTENT_LENGTH = [].
Proof.
  assert (∀ ms h h', apply_all ms h = Ok h' → hdr_get_all h CONTENT_LENGTH = [] → hdr_get_all h' CONTENT_LENGTH = []) as Hkeep.
  { clear ms h h'. induction ms as [|m ms IH]; intros h h'; simpl; [by intros [= ->]|].
    unfold apply_headers at 1. destruct (response_for d m) as [cr|]; [|by intros; eapply IH].
    destruct (mutate_headers cr h) as [h1|] eqn:Hm; simpl; [|done]. intros Ha _. eapply IH; [done|]. by eapply mutate_headers_content_length. }
  revert h. induction ms as [|m ms IH]; intros h; simpl; [done|].
  unfold apply_headers at 1. unfold streamed. simpl. destruct (response_for d m) as [cr|]; simpl; [|by apply IH].
  destruct (mutate_headers cr h) as [h1|] eqn:Hm; simpl; [|done]. intros Ha _.
  eapply Hkeep; [done|]. by eapply mutate_headers_content_length.
Qed.

Definition progress (s : State) : Prop :=
  match pc s with
  | PStart => seen s = [] ∧ chunks s = [] ∧ taken s = [] ∧ headers s = h0 ∧ pump s = None ∧ tx s = [] ∧ got s = []
  | PRecv => ((streamed (seen s) = [] ∧ chunks s = []) ∨ ∃ c, streamed (seen s) = [(c, false)] ∧ chunks s = [c]) ∧ taken s = []
  | PSend c eos => ((streamed (seen s) = [(c, eos)] ∧ chunks s = []) ∨
                    ∃ c0, streamed (seen s) = [(c0, false); (c, eos)] ∧ chunks s = [c0]) ∧ taken s = []
  | PDone => ∃ c, streamed (seen s) = [(c, true)] ∧ taken s ++ chunks s = [c]
  | PFailed _ => taken s = []
  end.

Record inv (s : State) : Prop := {
  inv_progress : progress s;
  inv_headers : (∀ e, pc s ≠ PFailed e) → apply_all (seen s) h0 = Ok (headers s);
  inv_sent : ∃ rest, got s ++ tx s ++ pending (pump s) ++ rest = (if decide (pc s = PStart) then [] else all_messages) ∧
    (closed s = false → rest = [])
}.

Lemma ext_inv_initial : inv initial.
Proof. split; simpl; [done|done|]. exists []. done. Qed.

(** Steps of the other tasks. *)
Lemma inv_other s s' : inv s → pc s' = pc s → headers s' = headers s → seen s' = seen s → chunks s' = chunks s →
  taken s' = taken s → (pc s = PStart → pump s' = pump s ∧ tx s' = tx s ∧ got s' = got s) →
  (∃ rest, got s' ++ tx s' ++ pending (pump s') ++ rest = (if decide (pc s = PStart) then [] else all_messages) ∧
    (closed s' = false → rest = [])) → inv s'.
Proof.
  intros [Hp Hh _] Hpc Hhd Hs Hc Ht Hstart Hsent. split; [|by rewrite Hpc, Hhd, Hs|by rewrite Hpc].
  unfold progress in *. rewrite Hpc, Hs, Hc, Ht, Hhd. destruct (pc s); try done. destruct Hstart as (-> & -> & ->); [done|]. done.
Qed.

(** Steps of the loop once the headers are sent. *)
Lemma inv_loop s s' : inv s → pc s ≠ PStart → pc s' ≠ PStart → pump s' = pump s → tx s' = tx s → got s' = got s →
  closed s' = closed s → progress s' →
  ((∀ e, pc s' ≠ PFailed e) → apply_all (seen s') h0 = Ok (headers s')) → inv s'.
Proof.
  intros [_ _ Hsent] Hpc Hpc' Hp Ht Hg Hc Hprog Hh. split; [done|done|].
  rewrite Hp, Ht, Hg, Hc, decide_False by done. rewrite decide_False in Hsent by done. exact Hsent.
Qed.

Lemma inv_recv s m rest : inv s → pc s = PRecv → inv (handled s m rest).
Proof.
  intros Hinv Hpc. destruct (id Hinv) as [Hp Hh Hs]. unfold progress in Hp. rewrite Hpc in Hp, Hh.
  specialize (Hh ltac:(done)). unfold handled. rewrite handle_response_ok.
  destruct (apply_headers (headers s) m) as [h|e] eqn:Ha; simpl.
  - destruct (response_for d m ≫= streamed_chunk) as [[c eos]|] eqn:Hc;
      apply (inv_loop s); try done; try (by rewrite Hpc); simpl; unfold progress; simpl;
      rewrite ?streamed_snoc, ?Hc, ?(apply_all_snoc _ _ _ _ Hh); try done; destruct Hp as [[[-> ->]|(c0 & -> & ->)] ->]; simpl; eauto.
  - apply (inv_loop s); try done; [by rewrite Hpc|by destruct Hp|]. intros Hf. by destruct (Hf e).
Qed.

Lemma ext_inv_step s s' : inv s → step s s' → inv s'.
Proof.
  intros Hinv Hstep. pose proof Hinv as [Hp Hh (rest & Hs & Hrest)].
  destruct Hstep as [s Hpc Hc|s Hpc Hc|s fs Hf Hc Hl|s Hc|s m rest' Ht|s m Hc Hl|s|s m rest' Hpc Hr|s Hpc Hr Hc|s c eos Hpc Hl|s c rest' Hpc Hk].
  - unfold progress in Hp. rewrite Hpc in Hp, Hh. destruct Hp as (Hseen & Hk & Htk & Hhd & Hpu & Htx & Hg).
    split; unfold progress; simpl; [by rewrite Hseen; auto|by rewrite Hseen, Hhd|].
    exists []. by rewrite Hg, Htx, Hhd, app_nil_r.
  - unfold progress in Hp. rewrite Hpc in Hp, Hh. split; unfold progress; simpl; [by destruct Hp as (_ & _ & -> & _)|intros Hf; by destruct (Hf "failed to send ext_proc request")|].
    destruct Hp as (_ & _ & _ & _ & -> & -> & ->). exists all_messages. rewrite Hc. by split.
  - apply (inv_other s); try done; simpl.
    + intros Hpc. unfold progress in Hp. rewrite Hpc in Hp. destruct Hp as (? & ? & ? & ? & ? & ? & ?). split_and!; congruence.
    + exists rest. split; [|done]. rewrite <-Hs, Hf. simpl. rewrite pump_next_messages. by rewrite <-!app_assoc.
  - apply (inv_other s); try done; simpl.
    + intros Hpc. unfold progress in Hp. rewrite Hpc in Hp. destruct Hp as (? & ? & ? & ? & ? & ? & ?). split_and!; congruence.
    + exists (pending (pump s) ++ rest). by rewrite Hc.
  - apply (inv_other s); try done; simpl.
    + intros Hpc. unfold progress in Hp. rewrite Hpc in Hp. destruct Hp as (? & ? & ? & ? & ? & ? & ?). split_and!; congruence.
    + exists rest. split; [|done]. rewrite <-Hs, Ht. by rewrite <-!app_assoc.
  - apply (inv_other s); try done. by exists rest.
  - apply (inv_other s); try done. exists rest. by split.
  - by apply inv_recv.
  - unfold progress in Hp. rewrite Hpc in Hp. apply (inv_loop s); try done; [by rewrite Hpc|by destruct Hp|]. simpl. intros Hf. by destruct (Hf "no more response messages").
  - unfold progress in Hp. rewrite Hpc in Hp, Hh. unfold CHUNK_CHANNEL in Hl.
    destruct Hp as [[[Hst Hk]|(c0 & Hst & Hk)] Htk]; [|rewrite Hk in Hl; simpl in Hl; lia].
    apply (inv_loop s); try done; [by rewrite Hpc|by destruct eos| |simpl; intros _; by apply Hh].
    unfold progress. simpl. rewrite Hk, Htk, Hst. destruct eos; [by exists c|]. split; [|done]. right. by exists c.
  - unfold progress in Hp. rewrite Hpc in Hp, Hh. destruct Hp as (c0 & Hst & Hk0).
    apply (inv_loop s); try done; simpl; [by rewrite Hpc|by rewrite Hpc| |by intros _; apply Hh].
    unfold progress. simpl. rewrite Hpc. exists c0. split; [done|]. by rewrite <-Hk0, Hk, <-app_assoc.
Qed.

Lemma ext_reachable_inv s : reachable s → inv s.
Proof.
  intros Hs. eapply (rtc_ind_r inv _); [exact ext_inv_initial| |exact Hs].
  intros s1 s2 _ Hstep Hinv. by eapply ext_inv_step.
Qed.

(** * Theorems *)

(** C23: what the server is sent. In every interleaving it receives, in this order, the
    headers and the frames of the body with their trailers, and at the end that the body
    has ended: what it has taken and what is under way is a prefix of that, and all of it
    once the body is sent, as long as the server listens. *)
Theorem ext_proc_forwards s : reachable s →
  (got s ++ tx s) `prefix_of` all_messages ∧
  (pc s ≠ PStart → closed s = false → got s ++ tx s ++ pending (pump s) = all_messages) ∧
  (pc s ≠ PStart → closed s = false → pump s = None → got s ++ tx s = all_messages).
Proof.
  intros [_ _ (rest & Hs & Hrest)]%ext_reachable_inv. split_and!.
  - destruct (decide (pc s = PStart)); [|eexists; by rewrite <-Hs, <-app_assoc].
    apply app_eq_nil in Hs as [-> [-> _]%app_eq_nil]. apply prefix_nil.
  - intros Hpc Hc. rewrite decide_False in Hs by done. by rewrite (Hrest Hc), app_nil_r in Hs.
  - intros Hpc Hc Hp. rewrite decide_False in Hs by done. rewrite (Hrest Hc), Hp in Hs. simpl in Hs. by rewrite app_nil_r in Hs.
Qed.

(** Whatever the body, the server is told that it has ended; also when reading it failed. *)
Theorem ext_proc_end_of_stream : last (body_messages body) = Some (body_msg d "" true).
Proof.
  induction body as [|[data|t|] fs IH]; simpl; [done| | |done]; rewrite last_cons, IH; done.
Qed.

(** The result. When the processing succeeds, the headers are those of the message with
    every answer applied in order and without a content length; the server has sent exactly
    one chunk of a body, marked as the last one, and that chunk is the new body. *)
Theorem ext_proc_result `{!HeaderMapLaws} s : reachable s → pc s = PDone →
  apply_all (seen s) h0 = Ok (headers s) ∧ hdr_get_all (headers s) CONTENT_LENGTH = [] ∧
  ∃ chunk, streamed (seen s) = [(chunk, true)] ∧ taken s ++ chunks s = [chunk].
Proof.
  intros [Hp Hh _]%ext_reachable_inv Hpc. unfold progress in Hp. rewrite Hpc in Hp, Hh. specialize (Hh ltac:(done)).
  split; [done|]. split; [|done]. destruct Hp as (c & Hst & _).
  apply (apply_all_content_length (seen s) h0); [done|]. by rewrite Hst.
Qed.

Lemma seen_grows s s' : rtc step s s' → ∃ ms, seen s' = seen s ++ ms.
Proof.
  induction 1 as [s|s1 s2 s3 Hs _ [ms IH]]; [by exists []; rewrite app_nil_r|].
  assert (∃ ms, seen s2 = seen s1 ++ ms) as [ms1 H1].
  { destruct Hs; simpl; try (by exists []; rewrite app_nil_r).
    exists [m]. unfold handled. by destruct (handle_response _ _ _) as [[h [[c eos]|]]|]. }
  exists (ms1 ++ ms). by rewrite IH, H1, <-app_assoc.
Qed.

(** A body in several chunks is never passed on. The channel of the new body has room
    for one chunk, and nothing reads it before the processing has returned: once the server
    has sent a chunk and another one, the processing never succeeds and no byte of the new
    body is ever read; a task that waits to send waits forever. *)
Theorem ext_proc_stalls s : reachable s → 2 ≤ length (streamed (seen s)) →
  ∀ s', rtc step s s' → pc s' ≠ PDone ∧ taken s' = [] ∧ (∀ c eos, pc s = PSend c eos → pc s' = PSend c eos).
Proof.
  intros Hr Hlen s' Hs. assert (reachable s') as Hr' by (unfold reachable in *; by etrans).
  assert (2 ≤ length (streamed (seen s'))) as Hlen'.
  { destruct (seen_grows _ _ Hs) as [ms ->]. unfold streamed. rewrite omap_app, length_app. unfold streamed in Hlen. lia. }
  pose proof (ext_reachable_inv _ Hr') as [Hp _ _]. unfold progress in Hp. split; [|split].
  - intros Hpc. rewrite Hpc in Hp. destruct Hp as (c & Hst & _). rewrite Hst in Hlen'. simpl in Hlen'. lia.
  - destruct (pc s'); [by destruct Hp as (_ & _ & ? & _)|by destruct Hp|by destruct Hp| |done].
    destruct Hp as (c & Hst & _). rewrite Hst in Hlen'. simpl in Hlen'. lia.
  - intros c eos Hpc. clear Hr' Hlen' Hp. induction Hs as [s|s1 s2 s3 Hst Hs IH]; [by intros|].
    pose proof (ext_reachable_inv _ Hr) as [Hp _ _]. unfold progress in Hp. rewrite Hpc in Hp.
    destruct Hp as [[[Hone _]|(c0 & _ & Hk)] _]; [rewrite Hone in Hlen; simpl in Hlen; lia|].
    apply IH; [by eapply rtc_r| |].
    + destruct (seen_grows s1 s2 (rtc_once _ _ Hst)) as [ms ->]. unfold streamed in *. rewrite omap_app, length_app. lia.
    + destruct Hst; simpl; try congruence. rewrite Hk in *. simpl in *. unfold CHUNK_CHANNEL in *. lia.
Qed.

(** A body in one chunk is passed on. When the answers that arrive change headers
    without an error and the last one carries the whole body, the processing succeeds with
    the changed headers and that body. *)
Theorem ext_proc_completes s ms m chunk h :
  pc s = PRecv → chunks s = [] → rx s = ms ++ [m] → streamed ms = [] → streamed [m] = [(chunk, true)] →
  apply_all (ms ++ [m]) (headers s) = Ok h →
  ∃ s', rtc step s s' ∧ pc s' = PDone ∧ headers s' = h ∧ chunks s' = [chunk].
Proof.
  revert s. induction ms as [|m' ms IH]; intros s Hpc Hk Hrx Hms Hm Ha.
  - simpl in Ha. destruct (apply_headers (headers s) m) as [h1|] eqn:Hh; [|done]. injection Ha as ->.
    assert (response_for d m ≫= streamed_chunk = Some (chunk, true)) as Hc
      by (unfold streamed in Hm; simpl in Hm; destruct (response_for d m ≫= streamed_chunk); by simplify_eq).
    eexists. split.
    + eapply rtc_l; [by apply (step_recv s m [])|]. apply rtc_once.
      apply (step_send _ chunk true); unfold handled; rewrite handle_response_ok, Hh; simpl; rewrite Hc; [done|].
      simpl. rewrite Hk. by unfold CHUNK_CHANNEL; simpl; lia.
    + unfold handled. rewrite handle_response_ok, Hh. simpl. rewrite Hc. simpl. by rewrite Hk.
  - simpl in Ha. destruct (apply_headers (headers s) m') as [h1|] eqn:Hh; [|done]. simpl in Ha.
    assert (response_for d m' ≫= streamed_chunk = None ∧ streamed ms = []) as [Hc Hms']
      by (unfold streamed in Hms; simpl in Hms; destruct (response_for d m' ≫= streamed_chunk); by simplify_eq).
    destruct (IH (handled s m' (ms ++ [m]))) as (s' & Hs' & Hrest);
      try (unfold handled; rewrite handle_response_ok, Hh; simpl; by rewrite Hc); [done..|].
    exists s'. split; [|done]. eapply rtc_l; [by apply step_recv|done].
Qed.
End ext_proc.

(** The two functions are the same system for the two directions. *)
Definition mutate_request `{!HeaderMapOps, !HttpParsers} (HeaderValue_from_bytes : string → option string) :=
  step HeaderValue_from_bytes DRequest.
Definition mutate_response `{!HeaderMapOps, !HttpParsers} (HeaderValue_from_bytes : string → option string) :=
  step HeaderValue_from_bytes DResponse.

(** * Examples *)

Module ExtProcExample.
#[local] Existing Instance gmap_headers.
#[local] Existing Instance gmap_headers_laws.
#[local] Existing Instance example_parsers.

Definition h0 : HeaderMap := hdr_new.
Definition body : list BodyFrame := [Data "ab"].
Abbreviation sys_step := (step Some DRequest body).
Abbreviation sys_reachable := (reachable Some DRequest h0 body).

(** An answer with a chunk. *)
Definition answer (chunk : string) (eos : bool) : ProcessingResponse :=
  RespRequestBody (Some {| header_mutation := None; body_mutation := Some (Some (StreamedResponse chunk eos)) |}).

Definition msgs : list ProcessingRequest := [RequestHeaders []].
Definition started : State := mkState PRecv h0 (Some body) msgs [] [] false [] [] [].
Definition pumped : State :=
  mkState PRecv h0 (Some []) (msgs ++ [RequestBody "ab" false]) [] [] false [] [] [].

Lemma ext_step_to (s s1 s2 : State) : sys_step s s1 → s1 = s2 → sys_step s s2.
Proof. by intros H <-. Qed.

Lemma started_reachable : sys_reachable started.
Proof. apply rtc_once. eapply ext_step_to; [by apply step_start|reflexivity]. Qed.

Lemma pumped_reachable : sys_reachable pumped.
Proof.
  eapply rtc_r; [exact started_reachable|].
  eapply ext_step_to; [apply (step_pump Some DRequest body started body); [done..|by unfold CHANNEL; simpl; lia]|].
  reflexivity.
Qed.

Lemma ext_proc_forwards_witness :
  got pumped ++ tx pumped ++ pending DRequest (pump pumped) = [RequestHeaders []; RequestBody "ab" false; RequestBody "" true].
Proof.
  destruct (ext_proc_forwards Some DRequest h0 body pumped pumped_reachable) as (_ & H & _).
  rewrite H; [reflexivity|done|done].
Defined.

Definition arrived (pc : Pc) (rx seen : list ProcessingResponse) (chunks : list string) : State :=
  mkState pc h0 (Some body) msgs [] rx false seen chunks [].

Lemma answered pc seen chunks m : sys_step (arrived pc [] seen chunks) (arrived pc [m] seen chunks).
Proof. eapply ext_step_to; [apply (step_server_answers _ _ _ _ m); [done|by unfold CHANNEL; simpl; lia]|done]. Qed.

Lemma received seen chunks c eos :
  sys_step (arrived PRecv [answer c eos] seen chunks) (arrived (PSend c eos) [] (seen ++ [answer c eos]) chunks).
Proof. eapply ext_step_to; [by eapply (step_recv _ _ _ _ (answer c eos) [])|reflexivity]. Qed.

Lemma sent seen c eos :
  sys_step (arrived (PSend c eos) [] seen []) (arrived (if eos then PDone else PRecv) [] seen [c]).
Proof. eapply ext_step_to; [apply (step_send _ _ _ _ c eos); [done|by unfold CHUNK_CHANNEL; simpl; lia]|done]. Qed.

Definition one_chunk : State := arrived PDone [] [answer "AB" true] ["AB"].
Lemma one_chunk_reachable : sys_reachable one_chunk.
Proof.
  eapply rtc_r; [eapply rtc_r; [eapply rtc_r; [exact started_reachable|]|]|];
    [apply (answered PRecv [] [] (answer "AB" true))|apply (received [] [] "AB" true)|apply (sent _ "AB" true)].
Qed.

Lemma ext_proc_result_witness : ∃ chunk, streamed DRequest (seen one_chunk) = [(chunk, true)] ∧ taken one_chunk ++ chunks one_chunk = [chunk].
Proof. by destruct (ext_proc_result Some DRequest h0 body one_chunk one_chunk_reachable eq_refl) as (_ & _ & H). Defined.

Definition two_chunks : State := arrived (PSend "B" true) [] [answer "A" false; answer "B" true] ["A"].
Lemma two_chunks_reachable : sys_reachable two_chunks.
Proof.
  eapply rtc_r; [eapply rtc_r; [eapply rtc_r; [eapply rtc_r; [eapply rtc_r; [exact started_reachable|]|]|]|]|];
    [apply (answered PRecv [] [] (answer "A" false))|apply (received [] [] "A" false)|apply (sent _ "A" false)
    |apply (answered PRecv _ _ (answer "B" true))|apply (received [answer "A" false] ["A"] "B" true)].
Qed.

(** The processing of a body in two chunks waits forever. *)
Lemma ext_proc_stalls_witness : pc two_chunks = PSend "B" true ∧ taken two_chunks = [].
Proof.
  destruct (ext_proc_stalls Some DRequest h0 body two_chunks two_chunks_reachable) with (s' := two_chunks) as (_ & H & Hs);
    [by simpl; lia|by apply rtc_refl|]. split; [by apply Hs|exact H].
Defined.

Lemma ext_proc_completes_witness : ∃ s', rtc sys_step (arrived PRecv [answer "AB" true] [] []) s' ∧ pc s' = PDone.
Proof.
  destruct (ext_proc_completes Some DRequest body (arrived PRecv [answer "AB" true] [] []) [] (answer "AB" true) "AB" h0)
    as (s' & Hs & Hpc & _); [done..|vm_compute; reflexivity|]. by exists s'.
Defined.
End ExtProcExample.
