(* ===== verification/Llm.v ===== *)
(** Llm: calls to LLM providers ([llm/mod.rs] and the [Provider]s of [llm/openai.rs],
    [llm/gemini.rs], [llm/vertex.rs], [llm/anthropic.rs], [llm/bedrock.rs]): how a
    request is set up, guarded, counted and translated, how the answer is translated
    back, and how the token limits are charged for it.

    [serde_json] on the message types, the tokenizer and the webhook are parameters.
    The token limiters are shared objects: the state is a heap from their handles. *)
From S2P Require Import Prelude Strs Json Http DiscoveryTypes AgentTypes Routing Filters Cel BufList Parse.
From S2P Require Import LlmTypes LlmGuard RateLimit HttpProxy.

(** * Errors and results *)

Inductive AIError :=
| MissingField (field : string) | ModelNotFound | MessageNotFound | AIIncompleteResponse | UnknownModel
| StreamingUnsupported | UnsupportedModel | UnsupportedContent | RequestTooLarge | PromptWebhookError
| RequestParsing | RequestMarshal | ResponseParsing | ResponseMarshal | JoinError.

Inductive RequestResult `{!HeaderMapOps} :=
| Success (req : Request) (info : LLMRequest)
| Rejected (resp : Response).

Definition provider (p : AIProvider) : string :=
  match p with
  | OpenAI _ => "openai" | Anthropic _ => "anthropic" | Gemini _ => "gemini"
  | Vertex _ _ _ => "vertex" | Bedrock _ _ => "bedrock"
  end.

(** * Setting up a request *)

Definition Vertex_get_path_for_model (region : option string) (project_id : string) : string :=
  "/v1beta1/projects/" +:+ project_id +:+ "/locations/" +:+ default "global" region +:+
  "/endpoints/openapi/chat/completions".

Definition Bedrock_get_path_for_model (model : string) : string := "/model/" +:+ model +:+ "/converse".

Section setup.
Context `{!HeaderMapOps, !HttpParsers}.
(** [Uri::from_parts], and the bearer token of the [authorization] header. *)
Context (Uri_from_parts : option string → option string → option string → result Uri string).
Context (bearer : list string → option string).

(** [modify_uri] with a new authority and path. *)
Definition set_destination (req : Request) (authority path : string) : result Request string :=
  let? uri := Uri_from_parts (uri_scheme (req_uri req)) (Some authority) (Some path) in
  Ok (with_uri req uri).

(** The same with texts that have to be parsed first. *)
Definition parse_destination (req : Request) (authority path : string) : result Request string :=
  let? path := ok_or (PathAndQuery_try_from path) "invalid path" in
  let? authority := ok_or (Authority_try_from authority) "invalid authority" in
  set_destination req authority path.

(** The bearer token becomes the key of Anthropic. *)
Definition move_api_key (req : Request) : result Request string :=
  match bearer (hdr_get_all (req_headers req) "authorization") with
  | None => Ok req
  | Some token =>
    let h := hdr_remove (req_headers req) "authorization" in
    let? api_key := ok_or (HeaderValue_from_str token) "invalid header value" in
    Ok (with_headers req (hdr_insert (hdr_insert h "x-api-key" api_key) "anthropic-version" "2023-06-01"))
  end.

(** The request after [setup_request]; on an error it is dropped. *)
Definition setup_request (p : AIProvider) (req : Request) : result Request string :=
  match p with
  | OpenAI _ => set_destination req "api.openai.com" "/v1/chat/completions"
  | Anthropic _ =>
    let? req := set_destination req "api.anthropic.com" "/v1/messages" in move_api_key req
  | Gemini _ => set_destination req "generativelanguage.googleapis.com" "/v1beta/openai/chat/completions"
  | Vertex _ region project_id =>
    parse_destination req (Vertex_get_host region) (Vertex_get_path_for_model region project_id)
  | Bedrock model region =>
    parse_destination req (Bedrock_get_host region) (Bedrock_get_path_for_model model)
  end.
End setup.

(** * Counting tokens *)

Inductive Tokenizer := O200kBase | Cl100kBase | R50kBase | P50kBase | P50kEdit | Gpt2.
#[export] Instance Tokenizer_eq_dec : EqDecision Tokenizer.
Proof. solve_decision. Defined.

Inductive CoreBPE := o200k_base | cl100k_base | r50k_base.

Definition get_bpe_from_tokenizer (t : Tokenizer) : CoreBPE :=
  match t with
  | O200kBase => o200k_base
  | Cl100kBase => cl100k_base
  | R50kBase | P50kBase | P50kEdit | Gpt2 => r50k_base
  end.

Section tokens.
(** [tiktoken_rs]: the tokenizer of a model, and the number of tokens of a text. *)
Context (get_tokenizer : string → option Tokenizer) (encode_len : CoreBPE → string → N).

(** The turn of the loop for one message. *)
Definition message_tokens (bpe : CoreBPE) (m : ChatCompletionMessage) : comp N :=
  text ← must_as_text (m_content m);
  Ret (3 + 1 + encode_len bpe text +
       match m_name m with Some name => encode_len bpe name + 1 | None => 0 end)%N.

Fixpoint sum_tokens (bpe : CoreBPE) (msgs : list ChatCompletionMessage) : comp N :=
  match msgs with
  | [] => Ret 0%N
  | m :: msgs => n ← message_tokens bpe m; rest ← sum_tokens bpe msgs; Ret (n + rest)%N
  end.

Definition num_tokens_from_messages (model : string) (messages : list ChatCompletionMessage)
    : comp (result N AIError) :=
  let tokenizer := default Cl100kBase (get_tokenizer model) in
  if decide (tokenizer ≠ Cl100kBase ∧ tokenizer ≠ O200kBase) then Ret (Err UnsupportedModel)
  else n ← sum_tokens (get_bpe_from_tokenizer tokenizer) messages; Ret (Ok (n + 3)%N).

(** The count runs in a task of its own: a panic there is an error here. *)
Definition to_llm_request (p : AIProvider) (req : ChatCompletionRequest) : result LLMRequest AIError :=
  let? tokens := match num_tokens_from_messages (cc_model req) (cc_messages req) with
                 | Ret r => r
                 | Panic => Err JoinError
                 end in
  Ok {| lr_input_tokens := tokens; lr_request_model := cc_model req; lr_provider := provider p;
        lr_streaming := default false (cc_stream req) |}.
End tokens.

(** * The texts of messages *)

(** [serde_json::to_vec] and [from_slice] on the message types. *)
Class LlmSerde := {
  request_from_slice : string → option ChatCompletionRequest;
  request_to_vec : ChatCompletionRequest → option string;
  anthropic_request_to_vec : Anthropic.MessagesRequest → option string;
  bedrock_request_to_vec : Bedrock.ConverseRequest → option string;
  response_from_slice : string → option ChatCompletionResponse;
  anthropic_response_from_slice : string → option Anthropic.MessagesResponse;
  bedrock_response_from_slice : string → option Bedrock.ConverseResponse;
  error_from_slice : string → option ChatCompletionErrorResponse;
  anthropic_error_from_slice : string → option string;
  bedrock_error_from_slice : string → option string;
  response_to_vec : ChatCompletionResponse → option string;
  error_to_vec : ChatCompletionErrorResponse → option string;
  is_utf8 : string → bool
}.

(** [process_request] of the provider and its text. *)
Definition provider_request `{!LlmSerde} (p : AIProvider) (req : ChatCompletionRequest) : option string :=
  match p with
  | OpenAI model => request_to_vec (openai_process_request model req)
  | Gemini model | Vertex model _ _ => request_to_vec (override_model model req)
  | Anthropic model => anthropic_request_to_vec (Anthropic.translate_request (override_model model req))
  | Bedrock model _ => bedrock_request_to_vec (Bedrock.translate_request (with_model req model))
  end.

(** [now] and [now_ms] are the clock in seconds and milliseconds. *)
Definition provider_response `{!LlmSerde} (now_ms : N) (now : Z) (p : AIProvider) (bytes : string)
    : result ChatCompletionResponse AIError :=
  match p with
  | OpenAI _ | Gemini _ | Vertex _ _ _ => ok_or (response_from_slice bytes) ResponseParsing
  | Anthropic _ =>
    let? resp := ok_or (anthropic_response_from_slice bytes) ResponseParsing in
    Ok (Anthropic.translate_response now resp)
  | Bedrock model _ =>
    let? resp := ok_or (bedrock_response_from_slice bytes) ResponseParsing in
    map_err (λ _, AIIncompleteResponse) (Bedrock.translate_response now_ms now resp model)
  end.

Definition provider_error `{!LlmSerde} (p : AIProvider) (bytes : string)
    : result ChatCompletionErrorResponse AIError :=
  match p with
  | OpenAI _ | Gemini _ | Vertex _ _ _ => ok_or (error_from_slice bytes) ResponseParsing
  | Anthropic _ =>
    let? resp := ok_or (anthropic_error_from_slice bytes) ResponseParsing in
    Ok (Anthropic.translate_error resp)
  | Bedrock _ _ =>
    let? resp := ok_or (bedrock_error_from_slice bytes) ResponseParsing in
    Ok (Bedrock.translate_error resp)
  end.

(** [StatusCode::is_success] *)
Definition is_success (status : Z) : bool := bool_decide (200 ≤ status < 300)%Z.

Definition process_response_status `{!LlmSerde} (now_ms : N) (now : Z) (p : AIProvider) (status : Z)
    (bytes : string) : result (result ChatCompletionResponse ChatCompletionErrorResponse) AIError :=
  if is_success status then let? r := provider_response now_ms now p bytes in Ok (Ok r)
  else let? e := provider_error p bytes in Ok (Err e).

(** * Charging the limiters *)

Abbreviation Limiters := (gmap Handle Ratelimiter.t).

(** [i64] arithmetic, wrapping. *)
Definition tokens_to_remove (llm_resp : LLMResponse) : Z :=
  let base := Z.of_N (lr_input_tokens (llm_request llm_resp)) in
  let input_mismatch :=
    match input_tokens_from_response llm_resp with
    | Some real => as_i64 (as_i64 (Z.of_N real) - as_i64 base)
    | None => 0%Z
    end in
  let response := default 0%N (Cel.output_tokens llm_resp) in
  as_i64 (input_mismatch + as_i64 (Z.of_N response)).

Definition amend_all (rate_limit : list RateLimit) (n : Z) (lims : Limiters) : Limiters :=
  foldl (λ lims lrl, alter (λ s, Ratelimiter.amend_tokens s n) (ratelimit lrl) lims) lims rate_limit.

Definition amend_tokens (rate_limit : list RateLimit) (llm_resp : LLMResponse) (lims : Limiters) : Limiters :=
  amend_all rate_limit (tokens_to_remove llm_resp) lims.

(** * Requests *)

(** [SimpleChatCompletionMessage::from] *)
Definition SimpleMessage_from (m : ChatCompletionMessage) : SimpleMessage :=
  {| Cel.role := role_name (m_role m);
     Cel.content := match m_content m with Text t => t | ImageUrls _ => "image" end |}.

Definition is_text (m : ChatCompletionMessage) : bool :=
  match m_content m with Text _ => true | ImageUrls _ => false end.

Section requests.
Context `{!HeaderMapOps, !BodyReader, !LlmSerde}.
Context (get_tokenizer : string → option Tokenizer) (encode_len : CoreBPE → string → N).
(** The prompt guard's libraries and webhook (see LlmGuard). *)
Context (compile : string → string → list (nat * nat)) (phone_valid : string → string → bool).
Context (send_request : Target → HeaderMap → list SimpleMessage → result RequestAction string).

(** What is written to the log: the request and, if it is wanted, the prompt. *)
Definition log_request (cel : ContextBuilder) (info : LLMRequest) (req : ChatCompletionRequest)
    : ContextBuilder :=
  let '(cel, needs_prompt) := with_llm_request cel info in
  if needs_prompt then with_llm_prompt cel (SimpleMessage_from <$> cc_messages req) else cel.

(** The guard's verdict. *)
Definition guard_request (policies : option LlmPolicy) (req : ChatCompletionRequest) (h : HeaderMap)
    : comp (result (ChatCompletionRequest * option Response) AIError) :=
  match policies with
  | None => Ret (Ok (req, None))
  | Some p => r ← guard_apply compile phone_valid send_request p req h; Ret (map_err (λ _, PromptWebhookError) r)
  end.

(** What follows the guard. *)
Definition finish_request (p : AIProvider) (parts : Request) (log : option ContextBuilder)
    (req : ChatCompletionRequest) : option ContextBuilder * result RequestResult AIError :=
  match to_llm_request get_tokenizer encode_len p req with
  | Err e => (log, Err e)
  | Ok llm_info =>
    let log := (λ cel, log_request cel llm_info req) <$> log in
    match provider_request p req with
    | None => (log, Err RequestMarshal)
    | Some body =>
      (log, Ok (Success {| req_method := req_method parts; req_uri := req_uri parts;
                           req_headers := hdr_remove (req_headers parts) "content-length";
                           req_body := body; req_original_url := req_original_url parts |} llm_info))
    end
  end.

(** The log afterwards, and the outcome. *)
Definition process_request (p : AIProvider) (policies : option LlmPolicy) (req : Request)
    (log : option ContextBuilder) : comp (option ContextBuilder * result RequestResult AIError) :=
  match to_bytes (req_body req) BODY_LIMIT with
  | None => Ret (log, Err RequestTooLarge)
  | Some bytes =>
    match request_from_slice bytes with
    | None => Ret (log, Err RequestParsing)
    | Some chat =>
      if existsb (negb ∘ is_text) (cc_messages chat) then Ret (log, Err UnsupportedContent)
      else
        r ← guard_request policies chat (req_headers req);
        Ret match r with
            | Err e => (log, Err e)
            | Ok (_, Some dr) => (log, Ok (Rejected dr))
            | Ok (chat, None) => finish_request p req log chat
            end
    end
  end.
End requests.

(** * Responses *)

(** [AsyncLog::non_atomic_mutate]: nothing happens when the log is empty. *)
Definition non_atomic_mutate {A} (log : option A) (f : A → A) : option A := f <$> log.

Definition set_usage (r : LLMResponse) (u : Usage) : LLMResponse :=
  {| llm_request := llm_request r;
     input_tokens_from_response := Some (Z.to_N (as_u64 (prompt_tokens u)));
     Cel.output_tokens := Some (Z.to_N (as_u64 (completion_tokens u)));
     Cel.total_tokens := Some (Z.to_N (as_u64 (LlmTypes.total_tokens u)));
     provider_model := provider_model r; completion := completion r |}.

Definition set_completion (r : LLMResponse) (c : option string) : LLMResponse :=
  {| llm_request := llm_request r; input_tokens_from_response := input_tokens_from_response r;
     Cel.output_tokens := Cel.output_tokens r; Cel.total_tokens := Cel.total_tokens r;
     provider_model := provider_model r;
     completion := match c with Some c => Some [c] | None => completion r end |}.

Definition set_provider_model (r : LLMResponse) (model : string) : LLMResponse :=
  {| llm_request := llm_request r; input_tokens_from_response := input_tokens_from_response r;
     Cel.output_tokens := Cel.output_tokens r; Cel.total_tokens := Cel.total_tokens r;
     provider_model := Some model; completion := completion r |}.

Definition LLMResponse_of (req : LLMRequest) : LLMResponse :=
  {| llm_request := req; input_tokens_from_response := None; Cel.output_tokens := None;
     Cel.total_tokens := None; provider_model := None; completion := None |}.

(** The answer that stands for a body that could not be read. *)
Definition unreadable `{!LlmSerde} (bytes : string) : ChatCompletionErrorResponse :=
  {| err_event_id := None;
     err_error := {| er_type := "invalid_request_error";
                     er_message := "failed to process response body: " +:+
                                   (if is_utf8 bytes then bytes else "invalid utf8");
                     er_param := None; er_code := None; er_event_id := None |} |}.

(** ** Streams of the common format *)

(** The variables of the closure of [default_process_streaming], the log and the
    limiters. *)
Record Stream := mkStream {
  s_completion : option string;
  seen_provider : bool;
  s_log : option LLMResponse;
  s_limiters : Limiters
}.

(** The text of a chunk is added to the completion. *)
Definition push_delta (c : option string) (f : ChatCompletionStreamResponse) : option string :=
  c ← c;
  Some (match head (sr_choices f) ≫= (λ ch, rd_content (cs_delta ch)) with
        | Some delta => c +:+ delta
        | None => c
        end).

(** A chunk with usage. *)
Definition record_usage (rate_limit : list RateLimit) (h : Stream) (u : Usage) : Stream :=
  match s_log h with
  | None => h
  | Some r =>
    let r := set_completion (set_usage r u) (s_completion h) in
    mkStream None (seen_provider h) (Some r) (amend_tokens rate_limit r (s_limiters h))
  end.

Definition default_stream_handler {JE} (rate_limit : list RateLimit) (h : Stream)
    (f : option (result ChatCompletionStreamResponse JE)) : Stream :=
  match f with
  | Some (Ok f) =>
    let completion := push_delta (s_completion h) f in
    let log := if seen_provider h then s_log h
               else non_atomic_mutate (s_log h) (λ r, set_provider_model r (sr_model f)) in
    let h := mkStream completion true log (s_limiters h) in
    match sr_usage f with Some u => record_usage rate_limit h u | None => h end
  | Some (Err _) => h
  | None =>
    match s_log h with
    | None => h
    | Some r => mkStream None (seen_provider h) (Some (set_completion r (s_completion h))) (s_limiters h)
    end
  end.

(** What reads the body of a streamed answer: the closure of
    [default_process_streaming] with its variables and the limiters it charges, or
    Anthropic's. *)
Inductive StreamReader :=
| Passthrough (rate_limit : list RateLimit) (h : Stream)
| AnthropicStream (s : Anthropic.StreamState).

Definition process_streaming (now : Z) (p : AIProvider) (req : LLMRequest) (rate_limit : list RateLimit)
    (include_completion_in_log : bool) (lims : Limiters) : result StreamReader AIError :=
  match p with
  | Anthropic _ => Ok (AnthropicStream (Anthropic.initial_stream now))
  | Bedrock _ _ => Err StreamingUnsupported
  | OpenAI _ | Gemini _ | Vertex _ _ _ =>
    Ok (Passthrough rate_limit
          (mkStream (if include_completion_in_log then Some "" else None) false
             (Some (LLMResponse_of req)) lims))
  end.

(** ** Whole answers *)

Section responses.
Context `{!HeaderMapOps, !BodyReader, !LlmSerde}.

Definition completions (r : ChatCompletionResponse) : list string :=
  omap (λ c, rm_content (ch_message c)) (cr_choices r).

(** The record for the log and the text for the client. *)
Definition translate_outcome (req : LLMRequest) (include_completion_in_log : bool)
    (r : result ChatCompletionResponse ChatCompletionErrorResponse) : result (LLMResponse * string) AIError :=
  match r with
  | Ok success =>
    let u := cr_usage success in
    let llm_resp :=
      {| llm_request := req;
         input_tokens_from_response := Some (Z.to_N (as_u64 (prompt_tokens u)));
         Cel.output_tokens := Some (Z.to_N (as_u64 (completion_tokens u)));
         Cel.total_tokens := Some (Z.to_N (as_u64 (LlmTypes.total_tokens u)));
         provider_model := Some (cr_model success);
         completion := if include_completion_in_log then Some (completions success) else None |} in
    let? body := ok_or (response_to_vec success) ResponseMarshal in
    Ok (llm_resp, body)
  | Err err =>
    let? body := ok_or (error_to_vec err) ResponseMarshal in
    Ok (LLMResponse_of req, body)
  end.

(** The log and the limiters afterwards, and the response. *)
Definition process_whole (now_ms : N) (now : Z) (p : AIProvider) (req : LLMRequest)
    (rate_limit : list RateLimit) (include_completion_in_log : bool) (resp : Response)
    (log : option LLMResponse) (lims : Limiters)
    : option LLMResponse * Limiters * result Response AIError :=
  match to_bytes (resp_body resp) BODY_LIMIT with
  | None => (log, lims, Err RequestTooLarge)
  | Some bytes =>
    let openai_response :=
      match process_response_status now_ms now p (resp_status resp) bytes with
      | Ok r => r
      | Err _ => Err (unreadable bytes)
      end in
    match translate_outcome req include_completion_in_log openai_response with
    | Err e => (log, lims, Err e)
    | Ok (llm_resp, body) =>
      (Some llm_resp, amend_tokens rate_limit llm_resp lims,
       Ok {| resp_status := resp_status resp; resp_headers := hdr_remove (resp_headers resp) "content-length";
             resp_body := body |})
    end
  end.

(** [process_response]: a streamed answer is read later, by what is returned. *)
Definition process_response (now_ms : N) (now : Z) (p : AIProvider) (req : LLMRequest)
    (rate_limit : list RateLimit) (include_completion_in_log : bool) (resp : Response)
    (log : option LLMResponse) (lims : Limiters)
    : option LLMResponse * Limiters * result (Response * option StreamReader) AIError :=
  if lr_streaming req then
    let log := Some (LLMResponse_of req) in
    (log, lims,
     let? reader := process_streaming now p req rate_limit include_completion_in_log lims in
     Ok (resp, Some reader))
  else
    let '(log, lims, r) := process_whole now_ms now p req rate_limit include_completion_in_log resp log lims in
    (log, lims, let? resp := r in Ok (resp, None)).
End responses.

(** * Theorems *)

(** ** Token accounting *)

(** Taking [n] tokens, or giving back [-n], saturating. *)
Definition charge (a n : Z) : Z := Z.max 0 (Z.min u64_max (a - n)).

Definition bounded (s : Ratelimiter.t) : Prop := (0 ≤ Ratelimiter.available s ≤ u64_max)%Z.

Lemma amend_available s n :
  bounded s → Ratelimiter.available (Ratelimiter.amend_tokens s n) = charge (Ratelimiter.available s) n.
Proof.
  unfold bounded, Ratelimiter.amend_tokens, charge, saturating_add64, saturating_sub64. intros Hs.
  case_decide; [subst; lia|]. simpl. case_decide; lia.
Qed.

Lemma amend_bounded s n : bounded s → bounded (Ratelimiter.amend_tokens s n).
Proof. intros Hs. unfold bounded. rewrite amend_available by done. unfold charge, u64_max. lia. Qed.

Lemma amend_all_lookup rl n lims h :
  NoDup (ratelimit <$> rl) →
  amend_all rl n lims !! h =
    if decide (h ∈ ratelimit <$> rl) then (λ s, Ratelimiter.amend_tokens s n) <$> (lims !! h) else lims !! h.
Proof.
  unfold amend_all. revert lims. induction rl as [|r rl IH]; intros lims Hnd; csimpl; [done|].
  apply NoDup_cons in Hnd as [Hr Hnd]. rewrite IH by done.
  destruct (decide (h = ratelimit r)) as [->|Hne].
  - rewrite decide_False, decide_True by (done || set_solver). by rewrite lookup_alter_eq.
  - rewrite lookup_alter_ne by done. repeat case_decide; set_solver.
Qed.

Lemma amend_all_0 rl lims : amend_all rl 0 lims = lims.
Proof.
  unfold amend_all. revert lims. induction rl as [|r rl IH]; intros lims; simpl; [done|].
  rewrite IH. apply map_eq. intros h. destruct (decide (h = ratelimit r)) as [->|].
  - rewrite lookup_alter_eq. by destruct (lims !! _).
  - by rewrite lookup_alter_ne.
Qed.

(** Counts of 32 bits survive the trip through unsigned 64-bit numbers. *)
Definition is_i32 (n : Z) : Prop := (- 2 ^ 31 ≤ n < 2 ^ 31)%Z.

Lemma as_i64_u64 n : is_i32 n → as_i64 (Z.of_N (Z.to_N (as_u64 n))) = n.
Proof.
  unfold is_i32, as_i64, as_u64. intros Hn. rewrite Z2N.id by (apply Z.mod_pos_bound; lia).
  rewrite Zplus_mod_idemp_l, Z.mod_small by lia. lia.
Qed.

Lemma as_i64_id n : (- 2 ^ 63 ≤ n < 2 ^ 63)%Z → as_i64 n = n.
Proof. unfold as_i64. intros Hn. rewrite Z.mod_small by lia. lia. Qed.

Definition usage_ok (u : Usage) : Prop := is_i32 (prompt_tokens u) ∧ is_i32 (completion_tokens u).

(** What a usage costs beyond the estimate. *)
Definition usage_cost (req : LLMRequest) (u : Usage) : Z :=
  (prompt_tokens u + completion_tokens u - Z.of_N (lr_input_tokens req))%Z.

Lemma tokens_to_remove_usage r u :
  usage_ok u → (Z.of_N (lr_input_tokens (llm_request r)) < 2 ^ 62)%Z →
  input_tokens_from_response r = Some (Z.to_N (as_u64 (prompt_tokens u))) →
  Cel.output_tokens r = Some (Z.to_N (as_u64 (completion_tokens u))) →
  tokens_to_remove r = usage_cost (llm_request r) u.
Proof.
  intros [Hp Hc] Hb Hin Hout. unfold tokens_to_remove, usage_cost. rewrite Hin, Hout. simpl.
  rewrite !as_i64_u64 by done. unfold is_i32 in *.
  rewrite (as_i64_id (Z.of_N _)) by lia.
  rewrite (as_i64_id (prompt_tokens u - _)) by lia. rewrite as_i64_id by lia. lia.
Qed.

Section accounting.
Context `{!HeaderMapOps, !BodyReader, !LlmSerde}.

(** The usage an answer reports, if it is an answer that reaches the client. *)
Definition answer_usage (now_ms : N) (now : Z) (p : AIProvider) (resp : Response) : option Usage :=
  bytes ← to_bytes (resp_body resp) BODY_LIMIT;
  match process_response_status now_ms now p (resp_status resp) bytes with
  | Ok (Ok r) => _ ← response_to_vec r; Some (cr_usage r)
  | _ => None
  end.

Lemma process_whole_limiters now_ms now p req rl inc resp log lims :
  (∀ u, answer_usage now_ms now p resp = Some u → usage_ok u) →
  (Z.of_N (lr_input_tokens req) < 2 ^ 62)%Z →
  (process_whole now_ms now p req rl inc resp log lims).1.2 =
  match answer_usage now_ms now p resp with
  | Some u => amend_all rl (usage_cost req u) lims
  | None => lims
  end.
Proof.
  unfold answer_usage, process_whole. intros Hok Hb.
  destruct (to_bytes _ _) as [bytes|]; [|done]. csimpl in *. revert Hok.
  destruct (process_response_status _ _ _ _ _) as [[r|e]|e]; unfold translate_outcome; csimpl.
  - destruct (response_to_vec r) as [body|]; [|done]. csimpl. intros Hok. unfold amend_tokens. f_equal.
    (apply tokens_to_remove_usage; [by apply Hok|done..]).
  - destruct (error_to_vec e); [|done]. intros _. apply amend_all_0.
  - destruct (error_to_vec _); [|done]. intros _. apply amend_all_0.
Qed.
End accounting.

(** What a call to a provider costs. A token limiter that let the request pass has
    lent it the estimate of its prompt; when the answer comes, the bucket holds what
    the check found in it less the tokens that the provider reports for the prompt
    and for the completion (nothing, if that is more than there was). For an answer
    that is an error, cannot be read or is too large, the estimate stays charged. *)
Theorem llm_token_accounting `{!HeaderMapOps, !BodyReader, !LlmSerde} now_ms now p req rl inc resp log
    lims lrl s0 clock s :
  NoDup (ratelimit <$> rl) → lrl ∈ rl → lims !! ratelimit lrl = Some s → bounded s →
  (Z.of_N (lr_input_tokens req) < 2 ^ 62)%Z →
  (∀ u, answer_usage now_ms now p resp = Some u →
     usage_ok u ∧ 0 ≤ prompt_tokens u ∧ 0 ≤ completion_tokens u)%Z →
  check_llm_request s0 Tokens (Z.of_N (lr_input_tokens req)) clock = Ret (Some (s, true)) →
  ∃ found s', (Z.of_N (lr_input_tokens req) ≤ Ratelimiter.available found)%Z ∧
    (process_whole now_ms now p req rl inc resp log lims).1.2 !! ratelimit lrl = Some s' ∧
    Ratelimiter.available s' =
      match answer_usage now_ms now p resp with
      | Some u => Z.max 0 (Z.min u64_max (Ratelimiter.available found - (prompt_tokens u + completion_tokens u)))
      | None => (Ratelimiter.available found - Z.of_N (lr_input_tokens req))%Z
      end.
Proof.
  intros Hnd Hin Hl Hs Hb Hu Hc. destruct (check_llm_takes _ _ _ _ Hc) as (found & -> & Hle).
  exists found. rewrite process_whole_limiters; [|by intros u0 Hu0; apply Hu|done].
  destruct (answer_usage now_ms now p resp) as [u|] eqn:Ha; [|by eauto].
  rewrite amend_all_lookup, decide_True, Hl by (done || by apply list_elem_of_fmap_2). csimpl.
  eexists. split_and!; [done|done|]. rewrite amend_available by done. unfold charge, usage_cost. simpl.
  destruct (Hu u eq_refl) as (_ & ? & ?). f_equal. f_equal. lia.
Qed.

(** ** Streams *)

Section streams.
Context {JE : Type} (from_slice : bytes → result ChatCompletionStreamResponse JE).

(** The usage a frame of the stream reports. *)
Definition frame_usage (o : Sse.SseFrame) : option Usage :=
  d ← Sse.unwrap_sse_data o;
  if decide (d = Sse.DONE) then None
  else match from_slice d with Ok f => sr_usage f | Err _ => None end.

Local Abbreviation step rl := (Sse.passthrough_handler from_slice (default_stream_handler rl)).

(** One frame: the request of the log stays, a usage is charged. *)
Lemma stream_step rl h o req :
  llm_request <$> s_log h = Some req → (Z.of_N (lr_input_tokens req) < 2 ^ 62)%Z →
  (∀ u, frame_usage o = Some u → usage_ok u) →
  llm_request <$> s_log (step rl h o) = Some req ∧
  s_limiters (step rl h o) =
    match frame_usage o with
    | Some u => amend_all rl (usage_cost req u) (s_limiters h)
    | None => s_limiters h
    end.
Proof.
  intros Hl Hb Hok. unfold Sse.passthrough_handler, frame_usage in *.
  destruct (s_log h) as [r|] eqn:Hlog; simplify_option_eq.
  destruct (Sse.unwrap_sse_data o) as [d|]; csimpl in *; [|by rewrite ?Hlog].
  case_decide; simpl; [by rewrite ?Hlog|].
  destruct (from_slice d) as [f|e]; simpl; [|by rewrite ?Hlog].
  destruct (sr_usage f) as [u|]; simpl; [|by destruct (seen_provider h); rewrite ?Hlog].
  unfold record_usage. simpl. rewrite ?Hlog. destruct (seen_provider h); simpl; (split; [done|]);
    unfold amend_tokens; f_equal; (etrans; [apply (tokens_to_remove_usage _ u); [by apply Hok|done..]|done]).
Qed.

Lemma stream_fold rl req frames h :
  llm_request <$> s_log h = Some req → (Z.of_N (lr_input_tokens req) < 2 ^ 62)%Z →
  Forall usage_ok (omap frame_usage frames) →
  s_limiters (foldl (step rl) h frames) =
    foldl (λ lims u, amend_all rl (usage_cost req u) lims) (s_limiters h) (omap frame_usage frames).
Proof.
  intros Hl Hb. revert h Hl. induction frames as [|o frames IH]; intros h Hl; csimpl; [done|].
  intros Hok. destruct (stream_step rl h o req) as [Hreq Hlims]; [done|done| |].
  { intros u Hu. rewrite Hu in Hok. by apply Forall_cons in Hok as [? _]. }
  destruct (frame_usage o) as [u|]; csimpl in *; [apply Forall_cons in Hok as [_ Hok]|];
    rewrite IH by done; by rewrite Hlims.
Qed.

Lemma fold_charges rl req us lims h s :
  NoDup (ratelimit <$> rl) → h ∈ ratelimit <$> rl → lims !! h = Some s → bounded s →
  ∃ s', foldl (λ lims u, amend_all rl (usage_cost req u) lims) lims us !! h = Some s' ∧
    Ratelimiter.available s' = foldl (λ a u, charge a (usage_cost req u)) (Ratelimiter.available s) us.
Proof.
  intros Hnd Hin. revert lims s. induction us as [|u us IH]; intros lims s Hl Hs; simpl; [eauto|].
  destruct (IH (amend_all rl (usage_cost req u) lims) (Ratelimiter.amend_tokens s (usage_cost req u)))
    as (s' & Hs' & Hav).
  - by rewrite amend_all_lookup, decide_True, Hl.
  - by apply amend_bounded.
  - exists s'. split; [done|]. by rewrite Hav, amend_available.
Qed.
End streams.

(** C33: what a streamed answer costs when it is passed through, as those of OpenAI,
    Gemini and Vertex are; those of Anthropic are translated and never charged. However
    the bytes of the answer are cut into frames, the client gets them unchanged, and the
    bucket of a token limiter is charged the prompt and completion tokens, less the
    estimate, of every chunk that reports its usage: once per such chunk, not once per
    answer. The answer comes to its end without an error and its bytes decode to frames; the
    limiters are distinct; reported counts are 32-bit numbers, the estimate is below 2^62;
    the bucket stays between 0 and 2^64-1. *)
Theorem llm_stream_accounting {D T E JE : Type} `{!Decoder D Sse.SseFrame E, !DecoderLaws _}
    (from_slice : bytes → result ChatCompletionStreamResponse JE) now p req rl inc lims rl' h
    (l : list (Inner T E)) d frames fuel lrl s :
  process_streaming now p req rl inc lims = Ok (Passthrough rl' h) →
  no_error l → List.length (body_data l) < fuel →
  decode_all (Passthrough.handle Passthrough.collect) (body_data l) d [] = Some (frames, Ok ()) →
  NoDup (ratelimit <$> rl) → lrl ∈ rl → lims !! ratelimit lrl = Some s → bounded s →
  (Z.of_N (lr_input_tokens req) < 2 ^ 62)%Z → Forall usage_ok (omap (frame_usage from_slice) frames) →
  ∃ self s',
    Passthrough.drain (Sse.passthrough_handler from_slice (default_stream_handler rl')) fuel (S (List.length l))
      (Passthrough.parser l d h) [] = Some (self, Ok <$> inner_frames l, true) ∧
    s_limiters (Passthrough.handler_state self) !! ratelimit lrl = Some s' ∧
    Ratelimiter.available s' =
      foldl (λ a u, charge a (usage_cost req u)) (Ratelimiter.available s)
        (omap (frame_usage from_slice) frames).
Proof.
  intros Hp Hne Hl Hd Hnd Hin Hs Hb Hbase Hu.
  assert (rl' = rl ∧ llm_request <$> s_log h = Some req ∧ s_limiters h = lims) as (-> & Hlog & Hlims).
  { destruct p; simplify_eq/=; done. }
  destruct (Passthrough.drain_collected (Sse.passthrough_handler from_slice (default_stream_handler rl))
    fuel l d frames h Hne Hl Hd) as (self & Hself & Hst).
  destruct (fold_charges rl req (omap (frame_usage from_slice) frames) lims (ratelimit lrl) s)
    as (s' & Hs' & Hav); [done|by apply list_elem_of_fmap_2|done|done|].
  exists self, s'. split_and!; [done| |done].
  by rewrite Hst, (stream_fold from_slice rl req frames h Hlog Hbase Hu), Hlims.
Qed.

(** ** Requests *)

Lemma sum_tokens_text encode_len bpe msgs :
  Forall (λ m, is_text m = true) msgs → ∃ n, sum_tokens encode_len bpe msgs = Ret n.
Proof.
  induction 1 as [|m msgs Hm _ [n IH]]; simpl; [eauto|]. unfold message_tokens, is_text in *.
  destruct (m_content m); [|done]. simpl. rewrite IH. simpl. eauto.
Qed.

Section request_facts.
Context `{!HeaderMapOps}.
Context (compile : string → string → list (nat * nat)) (phone_valid : string → string → bool).
Context (send_request : Target → HeaderMap → list SimpleMessage → result RequestAction string).

Lemma guard_rules_text action content rules msg msg' :
  guard_rules compile phone_valid action content rules msg = Ret (inl msg') →
  is_text msg = true → is_text msg' = true.
Proof.
  revert msg. induction rules as [|[b|pat name] rules IH]; intros msg; cbn [guard_rules].
  - by intros [= ->].
  - destruct (recognizer _ _ b content); [apply IH|done].
  - destruct (regex_find pat content) as [[a b]|]; [|apply IH].
    destruct action; [|done]. destruct (replace_range _ _ _ _); [|done].
    simpl. intros Hg _. by eapply IH.
Qed.

Lemma guard_messages_text rgx msgs msgs' resp :
  guard_messages compile phone_valid rgx msgs = Ret (msgs', resp) →
  Forall (λ m, is_text m = true) msgs → Forall (λ m, is_text m = true) msgs'.
Proof.
  revert msgs' resp. induction msgs as [|m msgs IH]; intros msgs' resp; cbn [guard_messages].
  - by intros [= <- <-].
  - intros Hg [Hm Hms]%Forall_cons. destruct (must_as_text (m_content m)); [|done].
    rewrite comp_bind_ret_l in Hg.
    destruct (match rgx with Some _ => _ | None => _ end) as [[m'|r]|] eqn:Hr; [| |done].
    + rewrite comp_bind_ret_l in Hg.
      destruct (guard_messages _ _ _ _) as [[l o]|] eqn:Hl; [|done]. simplify_eq/=.
      apply Forall_cons. split; [|by eapply IH]. destruct rgx; [by eapply guard_rules_text|by simplify_eq].
    + simplify_eq/=. by apply Forall_cons.
Qed.

Lemma guard_apply_text p req h req' resp :
  guard_apply compile phone_valid send_request p req h = Ret (Ok (req', resp)) →
  Forall (λ m, is_text m = true) (cc_messages req) → Forall (λ m, is_text m = true) (cc_messages req').
Proof.
  unfold guard_apply. destruct (prompt_guard p ≫= pg_request) as [g|]; [|by intros [= <- <-]].
  intros Hg Ht.
  destruct (match pg_webhook g with Some _ => _ | None => _ end) as [[[req1 o]|e]|] eqn:Hw;
    [|by simplify_eq/=|done].
  assert (Forall (λ m, is_text m = true) (cc_messages req1)) as Ht1.
  { destruct (pg_webhook g) as [w|]; [|by simplify_eq]. unfold apply_webhook in Hw.
    destruct (webhook_messages _) as [ms|]; [|done]. simpl in Hw.
    destruct (send_request _ _ _) as [[[l|l]|body st|]|]; simplify_eq/=; [| |done].
    - apply Forall_forall. intros m (r & -> & _)%list_elem_of_fmap. done.
    - destruct (valid_status st); by simplify_eq. }
  rewrite comp_bind_ret_l in Hg. destruct o as [dr|]; [by simplify_eq|].
  destruct (guard_messages _ _ _ _) as [[l o]|] eqn:Hl; [|done]. simplify_eq/=.
  by eapply guard_messages_text.
Qed.
End request_facts.

(** What is sent to a provider. The prompt that is counted, logged and translated is
    the one the guard has let through; counting it never fails on a message without a
    text; the request keeps its method, URI and headers, without the length of the
    old body. *)
Theorem llm_request_processed `{!HeaderMapOps, !HeaderMapLaws, !BodyReader, !LlmSerde} get_tokenizer
    encode_len compile phone_valid send_request p policies req log log' r :
  process_request get_tokenizer encode_len compile phone_valid send_request p policies req log = Ret (log', r) →
  r ≠ Err JoinError ∧
  ∀ req' info, r = Ok (Success req' info) →
    ∃ bytes chat chat' n,
      to_bytes (req_body req) BODY_LIMIT = Some bytes ∧ request_from_slice bytes = Some chat ∧
      Forall (λ m, is_text m = true) (cc_messages chat) ∧
      guard_request compile phone_valid send_request policies chat (req_headers req) = Ret (Ok (chat', None)) ∧
      num_tokens_from_messages get_tokenizer encode_len (cc_model chat') (cc_messages chat') = Ret (Ok n) ∧
      info = {| lr_input_tokens := n; lr_request_model := cc_model chat'; lr_provider := provider p;
                lr_streaming := default false (cc_stream chat') |} ∧
      log' = (λ cel, log_request cel info chat') <$> log ∧
      provider_request p chat' = Some (req_body req') ∧
      req_method req' = req_method req ∧ req_uri req' = req_uri req ∧
      ∀ k, hdr_get_all (req_headers req') k =
           if decide (k = "content-length") then [] else hdr_get_all (req_headers req) k.
Proof.
  unfold process_request. destruct (to_bytes _ _) as [bytes|] eqn:Hb; [|by intros [= <- <-]].
  destruct (request_from_slice bytes) as [chat|] eqn:Hp; [|by intros [= <- <-]].
  destruct (existsb (negb ∘ is_text) (cc_messages chat)) eqn:Ht; [by intros [= <- <-]|].
  assert (Forall (λ m, is_text m = true) (cc_messages chat)) as Htext.
  { apply Forall_forall. intros m Hm. destruct (is_text m) eqn:Hi; [done|].
    rewrite <-not_true_iff_false in Ht. destruct Ht. apply existsb_exists. exists m.
    split; [by apply list_elem_of_In|]. simpl. by rewrite Hi. }
  destruct (guard_request _ _ _ _ _ _) as [[[chat' [dr|]]|e]|] eqn:Hg; cbn; [by intros [= <- <-]| | |done].
  - assert (Forall (λ m, is_text m = true) (cc_messages chat')) as Htext'.
    { unfold guard_request in Hg. destruct policies as [pol|]; [|by simplify_eq].
      destruct (guard_apply _ _ _ _ _ _) as [[x|]|] eqn:Ha; simplify_eq/=. by eapply guard_apply_text. }
    unfold finish_request, to_llm_request, num_tokens_from_messages. case_decide as Htk; [by intros [= <- <-]|].
    destruct (sum_tokens_text encode_len
      (get_bpe_from_tokenizer (default Cl100kBase (get_tokenizer (cc_model chat')))) _ Htext') as [n Hn].
    rewrite Hn. simpl. destruct (provider_request p chat') as [body|] eqn:Hpr; intros [= <- <-]; [|done].
    split; [done|]. intros req' info [= <- <-]. exists bytes, chat, chat', (n + 3)%N. split_and!; try done.
    + rewrite decide_False, Hn by done. done.
    + intros k. simpl. rewrite hdr_get_all_remove. by repeat case_decide.
  - intros [= <- <-]. unfold guard_request in Hg. destruct policies as [pol|]; [|done].
    destruct (guard_apply _ _ _ _ _ _) as [[?|?]|]; by simplify_eq/=.
Qed.

(** ** Set-up *)

Definition is_anthropic (p : AIProvider) : bool := match p with Anthropic _ => true | _ => false end.

Lemma set_destination_ok `{!HeaderMapOps} Uri_from_parts req authority path req' :
  set_destination Uri_from_parts req authority path = Ok req' →
  ∃ u, Uri_from_parts (uri_scheme (req_uri req)) (Some authority) (Some path) = Ok u ∧ req' = with_uri req u.
Proof. unfold set_destination. destruct (Uri_from_parts _ _ _); intros [= <-]. eauto. Qed.

Lemma parse_destination_ok `{!HeaderMapOps, !HttpParsers} Uri_from_parts req authority path req' :
  (∀ s a, Authority_try_from s = Some a → a = s) →
  parse_destination Uri_from_parts req authority path = Ok req' →
  ∃ path' u, Uri_from_parts (uri_scheme (req_uri req)) (Some authority) (Some path') = Ok u ∧
    req' = with_uri req u.
Proof.
  intros Hlaw. unfold parse_destination. destruct (PathAndQuery_try_from path) as [p'|]; [|done].
  destruct (Authority_try_from authority) as [a|] eqn:Ha; [|done]. simpl.
  apply Hlaw in Ha as ->. intros (u & Hu & ->)%set_destination_ok. eauto.
Qed.

(** A request that is set up for a provider names the host that the gateway connects
    to for this provider. Anthropic gets the bearer token as its API key and no
    [authorization] header; otherwise no header is changed. *)
Theorem llm_setup `{!HeaderMapOps, !HeaderMapLaws, !HttpParsers} Uri_from_parts bearer SYSTEM_TRUST p req req' :
  (∀ s a q u, Uri_from_parts s a q = Ok u →
     uri_scheme u = s ∧ uri_authority u = a ∧ uri_path_and_query u = q) →
  (∀ s a, Authority_try_from s = Some a → a = s) →
  setup_request Uri_from_parts bearer p req = Ok req' →
  (∃ host, (default_connector SYSTEM_TRUST p).1 = TgtHostname host 443 ∧
           uri_authority (req_uri req') = Some host) ∧
  uri_scheme (req_uri req') = uri_scheme (req_uri req) ∧
  match (if is_anthropic p then bearer (hdr_get_all (req_headers req) "authorization") else None) with
  | None => req_headers req' = req_headers req
  | Some token =>
    hdr_get_all (req_headers req') "authorization" = [] ∧
    (∃ v, HeaderValue_from_str token = Some v ∧ hdr_get_all (req_headers req') "x-api-key" = [v]) ∧
    ∀ k, k ∉ ["authorization"; "x-api-key"; "anthropic-version"] →
      hdr_get_all (req_headers req') k = hdr_get_all (req_headers req) k
  end.
Proof.
  intros Hparts Hauth. destruct p as [m|m|m r pid|m|m r]; simpl.
  - intros (u & (? & ? & ?)%Hparts & ->)%set_destination_ok. simpl. eauto.
  - intros (u & (? & ? & ?)%Hparts & ->)%set_destination_ok. simpl. eauto.
  - intros (q & u & (? & ? & ?)%Hparts & ->)%parse_destination_ok; [|done]. simpl. eauto.
  - destruct (set_destination _ _ _ _) as [req1|] eqn:Hd; simpl; [|done].
    apply set_destination_ok in Hd as (u & (? & ? & ?)%Hparts & ->). unfold move_api_key. simpl.
    destruct (bearer _) as [token|]; [|intros [= <-]; simpl; eauto].
    destruct (HeaderValue_from_str token) as [v|]; intros [= <-]. simpl.
    split; [eauto|]. split; [done|]. split_and!.
    + rewrite !hdr_get_all_insert, hdr_get_all_remove. by rewrite !decide_False, decide_True by done.
    + exists v. split; [done|]. rewrite !hdr_get_all_insert. by rewrite decide_False, decide_True by done.
    + intros k Hk. rewrite !hdr_get_all_insert, hdr_get_all_remove.
      by rewrite !decide_False by set_solver.
  - intros (q & u & (? & ? & ?)%Hparts & ->)%parse_destination_ok; [|done]. simpl. eauto.
Qed.

(** ** Examples *)

Module LlmCallExample.
#[local] Existing Instance gmap_headers.
#[local] Existing Instance gmap_headers_laws.
#[local] Existing Instance example_parsers.
#[local] Existing Instance limited_reader.

Definition usage (p c : Z) : Usage :=
  {| prompt_tokens := p; completion_tokens := c; LlmTypes.total_tokens := p + c |}.

Definition chat (s : string) : ChatCompletionRequest :=
  {| cc_model := "m"; cc_messages := [GuardExample.message s]; cc_temperature := None; cc_top_p := None;
     cc_n := None; cc_response_format := None; cc_stream := None; cc_stream_options := None; cc_stop := None;
     cc_max_tokens := None; cc_presence_penalty := None; cc_frequency_penalty := None; cc_logit_bias := None;
     cc_user := None; cc_seed := None; cc_tools := None; cc_parallel_tool_calls := None; cc_tool_choice := None |}.

Definition answer : ChatCompletionResponse :=
  {| cr_id := None; cr_object := ""; cr_created := 0; cr_model := "m"; cr_choices := [];
     cr_usage := usage 12 30; cr_system_fingerprint := None |}.

(** Texts of the example: a prompt is its text, an answer is ["answer"]. *)
Definition serde : LlmSerde := {|
  request_from_slice s := Some (chat s);
  request_to_vec c := match cc_messages c with m :: _ => match m_content m with Text t => Some t | _ => None end
                                             | [] => None end;
  anthropic_request_to_vec _ := None;
  bedrock_request_to_vec _ := None;
  response_from_slice s := if Str.eqb s "answer" then Some answer else None;
  anthropic_response_from_slice _ := None;
  bedrock_response_from_slice _ := None;
  error_from_slice _ := None;
  anthropic_error_from_slice _ := None;
  bedrock_error_from_slice _ := None;
  response_to_vec _ := Some "translated";
  error_to_vec _ := Some "error";
  is_utf8 _ := true
|}.
#[local] Existing Instance serde.

Definition info : LLMRequest :=
  {| lr_input_tokens := 10; lr_request_model := "m"; lr_provider := "openai"; lr_streaming := false |}.
Definition limit : RateLimit := {| ratelimit := 7%N; limit_type := Tokens |}.
Definition bucket (n : Z) : Ratelimiter.t :=
  Ratelimiter.mk n 0 {| Ratelimiter.capacity := 100; Ratelimiter.refill_amount := 10;
                        Ratelimiter.refill_interval := 1000 |} 5000.

Definition response : Response := {| resp_status := 200; resp_headers := hdr_new; resp_body := "answer" |}.

(** A bucket of 100 tokens lends 10 for the estimate; the answer costs 42. *)
Lemma llm_token_accounting_witness : ∃ s',
  (process_whole 0 0 (OpenAI None) info [limit] false response None {[ 7%N := bucket 90 ]}).1.2 !! 7%N = Some s' ∧
  Ratelimiter.available s' = 58%Z.
Proof.
  destruct (llm_token_accounting 0 0 (OpenAI None) info [limit] false response None {[ 7%N := bucket 90 ]}
    limit (bucket 100) [0%Z] (bucket 90)) as (found & s' & Hf & Hl & Ha).
  - repeat constructor. set_solver.
  - left.
  - reflexivity.
  - split; vm_compute; discriminate.
  - reflexivity.
  - intros u Hu. vm_compute in Hu. injection Hu as <-.
    split; [split; split; vm_compute; congruence|split; vm_compute; congruence].
  - vm_compute. reflexivity.
  - exists s'. split; [exact Hl|]. vm_compute in Hl. injection Hl as <-. reflexivity.
Defined.

(** A stream with two reports of its usage. *)
Definition chunk (u : option Usage) : ChatCompletionStreamResponse :=
  {| sr_id := None; sr_object := ""; sr_created := 0; sr_model := "m"; sr_choices := []; sr_usage := u;
     sr_system_fingerprint := None |}.
Definition from_slice (b : bytes) : result ChatCompletionStreamResponse () :=
  if decide (b = ParseExample.B "u") then Ok (chunk (Some (usage 12 30))) else Ok (chunk None).
Definition body : list (Inner string ()) :=
  [IFrame (FData (ParseExample.B "u")); IPending;
   IFrame (FData (LineCodec.NL :: ParseExample.B "c" ++ [LineCodec.NL] ++ ParseExample.B "u" ++ [LineCodec.NL]));
   IFrame (FData (ParseExample.B "[DONE]" ++ [LineCodec.NL]))].

Definition reader : Stream := mkStream None false (Some (LLMResponse_of info)) {[ 7%N := bucket 90 ]}.

Lemma llm_stream_accounting_witness : ∃ self s',
  Passthrough.drain (Sse.passthrough_handler from_slice (default_stream_handler [limit])) 100 5
    (Passthrough.parser body () reader) [] = Some (self, Ok <$> inner_frames body, true) ∧
  s_limiters (Passthrough.handler_state self) !! 7%N = Some s' ∧ Ratelimiter.available s' = 26%Z.
Proof.
  set (frames := Sse.data_event <$> [ParseExample.B "u"; ParseExample.B "c"; ParseExample.B "u"; Sse.DONE]).
  apply (llm_stream_accounting (Decoder0:=LineCodec.decoder) from_slice 0 (OpenAI None) info [limit] false
    {[ 7%N := bucket 90 ]} [limit] reader body () frames 100 limit (bucket 90)).
  - reflexivity.
  - repeat constructor.
  - vm_compute. lia.
  - vm_compute. reflexivity.
  - repeat constructor. set_solver.
  - left.
  - reflexivity.
  - split; vm_compute; discriminate.
  - reflexivity.
  - change (omap (frame_usage from_slice) frames) with [usage 12 30; usage 12 30].
    repeat constructor; vm_compute; congruence.
Defined.

Definition request : Request :=
  {| req_method := "POST"; req_uri := example_uri "/v1/chat"; req_headers := hdr_insert hdr_new "content-length" "5";
     req_body := "hello"; req_original_url := None |}.

Lemma llm_request_processed_witness : ∃ chat',
  guard_request GuardExample.compile GuardExample.phones (λ _ _ _, Err "") None (chat "hello")
    (req_headers request) = Ret (Ok (chat', None)) ∧
  provider_request (OpenAI None) chat' = Some "hello".
Proof.
  destruct (llm_request_processed (λ _, None) (λ _ _, 2%N) GuardExample.compile GuardExample.phones
    (λ _ _ _, Err "") (OpenAI None) None request None None
    (Ok (Success {| req_method := "POST"; req_uri := example_uri "/v1/chat";
                    req_headers := hdr_remove (req_headers request) "content-length";
                    req_body := "hello"; req_original_url := None |}
           {| lr_input_tokens := 9; lr_request_model := "m"; lr_provider := "openai"; lr_streaming := false |})))
    as [_ H].
  - reflexivity.
  - destruct (H _ _ eq_refl) as (bytes & c & c' & n & Hb & Hc & _ & Hg & _ & _ & _ & Hp & _).
    injection Hb as <-. injection Hc as <-. exists c'. split; [exact Hg|exact Hp].
Defined.

Definition from_parts (s a p : option string) : result Uri string :=
  Ok {| uri_scheme := s; uri_authority := a; uri_path_and_query := p; uri_host := a; uri_port := None;
        uri_path := default "" p; uri_query := None |}.

(** The client's token is moved to the header of Anthropic. *)
Lemma llm_setup_witness : ∃ req',
  setup_request from_parts (λ vs, head vs) (Anthropic None)
    (with_headers request (hdr_insert hdr_new "authorization" "sk-1")) = Ok req' ∧
  hdr_get_all (req_headers req') "authorization" = [] ∧ hdr_get_all (req_headers req') "x-api-key" = ["sk-1"].
Proof.
  eexists. split; [reflexivity|].
  destruct (llm_setup from_parts (λ vs, head vs) {| btls_config := 0%N |} (Anthropic None)
    (with_headers request (hdr_insert hdr_new "authorization" "sk-1"))
    (with_headers (with_uri request (default (example_uri "") (ok
       (from_parts (Some "http") (Some "api.anthropic.com") (Some "/v1/messages")))))
       (hdr_insert (hdr_insert (hdr_remove (hdr_insert hdr_new "authorization" "sk-1") "authorization")
          "x-api-key" "sk-1") "anthropic-version" "2023-06-01")))
    as (_ & _ & H & (v & Hv & Hx) & _).
  - intros s a q u [= <-]. done.
  - intros s a [= <-]. done.
  - reflexivity.
  - split; [exact H|]. injection Hv as <-. exact Hx.
Defined.
End LlmCallExample.
