(* ===== verification/PolicyChain.v ===== *)
(** PolicyChain: the policies of a route on the request path ([apply_request_policies],
    [apply_llm_request_policies] and [ResponsePolicies] of [proxy/httpproxy.rs],
    [RoutePolicies::register_cel_expressions] of [store/binds.rs]).

    The chain runs authentication, external authorization, local limits, remote
    limits and the transformation, in this order, over the request ([ReqState] of
    Auth) and the heap of local limiters ([Limiters] of Llm).  Every check of a
    limiter is given the readings of the clock it may use. *)
From S2P Require Import Prelude Strs Json Http DiscoveryTypes AgentTypes Routing Filters Cel Transformation.
From S2P Require Import RateLimit BindStore HttpProxy Auth Llm.

(** * Local limits *)

Section limits.
(** [check_request] or [check_llm_request]. *)
Context (chk : Ratelimiter.t → RateLimitType → list Z → comp (option (Ratelimiter.t * bool))).

(** [for lrl in limits { if !check { return false } }]; [None] when a check needs
    more readings of its clock. *)
Fixpoint check_limits (clock : nat → list Z) (limits : list RateLimit) (lims : Limiters)
    : comp (option (Limiters * bool)) :=
  match limits with
  | [] => Ret (Some (lims, true))
  | lrl :: limits =>
    s ← expect (lims !! ratelimit lrl);
    r ← chk s (limit_type lrl) (clock 0);
    match r with
    | None => Ret None
    | Some (s, true) => check_limits (clock ∘ S) limits (<[ratelimit lrl := s]> lims)
    | Some (s, false) => Ret (Some (<[ratelimit lrl := s]> lims, false))
    end
  end.
End limits.

(** [apply_llm_request_policies] *)
Definition apply_llm_request_policies (clock : nat → list Z) (policies : LLMRoutePolicies) (req : LLMRequest)
    (lims : Limiters) : comp (option (Limiters * result () ProxyError)) :=
  r ← check_limits (λ s ty, check_llm_request s ty (Z.of_N (lr_input_tokens req))) clock
        (llm_local_rate_limit policies) lims;
  Ret match r with
      | None => None
      | Some (lims, true) => Some (lims, Ok ())
      | Some (lims, false) => Some (lims, Err RateLimitExceeded)
      end.

(** * The chain *)

(** [RoutePolicies::register_cel_expressions] *)
Definition register_cel_expressions `{!HeaderMapOps} (policies : RoutePolicies) (ctx : ContextBuilder)
    : ContextBuilder :=
  match rp_transformation policies with
  | None => ctx
  | Some xfm => foldl register_expression ctx (expressions xfm)
  end.

Section chain.
Context `{!HeaderMapOps, !HttpParsers, !CelEngine, !Jwt.JwtLib, !HashIter string Descriptor}.
(** The [http] and [headers] crates, the keys behind the handles of a
    configuration, and the texts of token errors. *)
Context (to_str HeaderValue_from_bytes : string → option string) (to_vec : Value → option string).
Context (bearer : list string → option string) (key_of : Handle → Jwt.Jwk) (show : Jwt.TokenError → string).
(** The external services. *)
Context (authz : Target → CheckRequest → option CheckResponse).
Context (should_rate_limit : Target → list (string * string) → option RateLimitResponse).

Definition authenticate (policies : RoutePolicies) (s : ReqState) : ReqState * result () ProxyError :=
  match rp_jwt policies with
  | None => (s, Ok ())
  | Some j =>
    let '(s, r) := Jwt.apply bearer (key_of <$> jwt_keys j) s in (s, map_err (JwtAuthenticationFailure ∘ show) r)
  end.

Definition authorize (policies : RoutePolicies) (conn : ConnInfo) (s : ReqState)
    : comp (ReqState * result PolicyResponse ProxyError) :=
  match rp_ext_authz policies with
  | None => Ret (s, Ok PolicyResponse_default)
  | Some x => ext_authz_check to_str HeaderValue_from_bytes authz x conn s
  end.

Definition limit_remotely (policies : RoutePolicies) (s : ReqState) : ReqState * result PolicyResponse ProxyError :=
  match rp_remote_rate_limit policies with
  | None => (s, Ok PolicyResponse_default)
  | Some rrl => remote_check to_str HeaderValue_from_bytes should_rate_limit rrl s
  end.

Definition transform (policies : RoutePolicies) (s : ReqState) : ReqState * result () ProxyError :=
  match rp_transformation policies with
  | None => (s, Ok ())
  | Some j =>
    let '(req, r) := apply_request HeaderValue_from_bytes to_vec j (rs_req s) (rs_cel s) in
    (set_req s req, map_err (λ _, TransformationFailure) r)
  end.

(** The limiters and the request afterwards, and the outcome. *)
Definition apply_request_policies (policies : RoutePolicies) (conn : ConnInfo) (clock : nat → list Z)
    (lims : Limiters) (s : ReqState) : comp (option (Limiters * ReqState * result PolicyResponse ProxyError)) :=
  let '(s, r) := authenticate policies s in
  match r with
  | Err e => Ret (Some (lims, s, Err e))
  | Ok _ =>
    '(s, r) ← authorize policies conn s;
    match r with
    | Err e => Ret (Some (lims, s, Err e))
    | Ok ext_auth =>
      if should_short_circuit ext_auth then Ret (Some (lims, s, Ok ext_auth))
      else
        r ← check_limits check_request clock (rp_local_rate_limit policies) lims;
        Ret match r with
            | None => None
            | Some (lims, false) => Some (lims, s, Err RateLimitExceeded)
            | Some (lims, true) =>
              let '(s, r) := limit_remotely policies s in
              match r with
              | Err e => Some (lims, s, Err e)
              | Ok lrl =>
                let policy_resp := merge ext_auth lrl in
                let '(s, r) := transform policies s in
                Some (lims, s, let? _ := r in Ok policy_resp)
              end
            end
    end
  end.
End chain.

(** * Responses *)

(** [ResponsePolicies] *)
Record ResponsePolicies `{!HeaderMapOps} := {
  rsp_transformation : option Transformation;
  rsp_response_headers : HeaderMap
}.

Section responses.
Context `{!HeaderMapOps, !HttpParsers, !CelEngine}.
Context (HeaderValue_from_bytes : string → option string) (to_vec : Value → option string).

Definition ResponsePolicies_from (transformation : option Transformation) : ResponsePolicies :=
  {| rsp_transformation := transformation; rsp_response_headers := hdr_new |}.

(** [merge_in_headers(h, &mut self.response_headers)] *)
Definition add_response_headers (self : ResponsePolicies) (h : option HeaderMap) : ResponsePolicies :=
  {| rsp_transformation := rsp_transformation self;
     rsp_response_headers := merge_in_headers h (rsp_response_headers self) |}.

Definition ResponsePolicies_apply (self : ResponsePolicies) (resp : Response) (cel : ContextBuilder)
    : Response * result () ProxyError :=
  let '(resp, r) :=
    match rsp_transformation self with
    | None => (resp, Ok ())
    | Some j =>
      let '(resp, r) := apply_response HeaderValue_from_bytes to_vec j resp cel in
      (resp, map_err (λ _, TransformationFailure) r)
    end in
  match r with
  | Err e => (resp, Err e)
  | Ok _ => (with_resp_headers resp (merge_in_headers (Some (rsp_response_headers self)) (resp_headers resp)), Ok ())
  end.
End responses.

(** * Theorems *)

(** ** Limits *)

Section limits_facts.
Context (chk : Ratelimiter.t → RateLimitType → list Z → comp (option (Ratelimiter.t * bool))).

(** What the loop does: the limiters up to the first that refuses have been checked,
    the ones after it and those of other handles are as they were. *)
Lemma check_limits_spec clock limits lims lims' ok :
  NoDup (ratelimit <$> limits) → check_limits chk clock limits lims = Ret (Some (lims', ok)) →
  ∃ k, (if ok then k = length limits else k < length limits) ∧
    (∀ i lrl, limits !! i = Some lrl →
       (∃ s s', lims !! ratelimit lrl = Some s ∧ lims' !! ratelimit lrl = Some s' ∧ i ≤ k ∧
          chk s (limit_type lrl) (clock i) = Ret (Some (s', bool_decide (i < k))))
       ∨ k < i ∧ lims' !! ratelimit lrl = lims !! ratelimit lrl) ∧
    (∀ h, h ∉ ratelimit <$> limits → lims' !! h = lims !! h).
Proof.
  revert clock lims. induction limits as [|lrl limits IH]; intros clock lims Hnd; cbn [check_limits].
  { intros [= <- <-]. exists 0. split_and!; [done| |done]. by intros i lrl Hi. }
  apply NoDup_cons in Hnd as [Hnin Hnd].
  destruct (lims !! ratelimit lrl) as [s|] eqn:Hs; [|done]. cbn [expect mbind comp_mbind].
  destruct (chk s (limit_type lrl) (clock 0)) as [[[s' [|]]|]|] eqn:Hc; cbn [mbind comp_mbind]; [| |done|done].
  - intros Hrest. destruct (IH _ _ Hnd Hrest) as (k & Hk & Hin & Hout). exists (S k). split_and!.
    + destruct ok; simpl; lia.
    + intros [|i] lrl0 Hi; simpl in Hi.
      * injection Hi as <-. left. exists s, s'.
        rewrite (Hout (ratelimit lrl)), lookup_insert_eq by done. split_and!; [done..|lia|].
        rewrite bool_decide_true by lia. done.
      * assert (ratelimit lrl ≠ ratelimit lrl0) as Hne.
        { intros Heq. destruct Hnin. rewrite Heq. by eapply list_elem_of_fmap_2, list_elem_of_lookup_2. }
        destruct (Hin i lrl0 Hi) as [(s1 & s2 & H1 & H2 & H3 & H4)|[H1 H2]].
        -- left. exists s1, s2. rewrite lookup_insert_ne in H1 by done.
           split_and!; [done|done|lia|]. rewrite (bool_decide_ext (S i < S k) (i < k)) by lia. done.
        -- right. rewrite lookup_insert_ne in H2 by done. split; [lia|done].
    + intros h [Hne Hh]%not_elem_of_cons. rewrite Hout, lookup_insert_ne by done. done.
  - intros [= <- <-]. exists 0. split_and!; [simpl; lia| |].
    + intros [|i] lrl0 Hi; simpl in Hi.
      * injection Hi as <-. left. exists s, s'. rewrite lookup_insert_eq. split_and!; [done..|lia|done].
      * right. split; [lia|]. apply lookup_insert_ne. intros Heq. destruct Hnin.
        rewrite Heq. by eapply list_elem_of_fmap_2, list_elem_of_lookup_2.
    + intros h [Hne Hh]%not_elem_of_cons. by rewrite lookup_insert_ne.
Qed.
End limits_facts.

(** ** The chain *)

(** What a granted request leaves of the limiter it met: refilled at the first
    readings of the clock given to this check, the limiter had a token, and one
    token is gone.  Limiters of other things than requests are not touched. *)
Definition charged (clock : nat → list Z) (lims lims' : Limiters) (i : nat) (lrl : RateLimit) : Prop :=
  if decide (limit_type lrl = Requests) then
    ∃ before times found, lims !! ratelimit lrl = Some before ∧
      times `prefix_of` clock i ∧ times ≠ [] ∧ refilled before times = Ret found ∧
      (1 ≤ Ratelimiter.available found)%Z ∧
      lims' !! ratelimit lrl = Some (Ratelimiter.set_available found (Ratelimiter.available found - 1))
  else lims' !! ratelimit lrl = lims !! ratelimit lrl.

(** A limiter that refuses has at most been refilled: it had no token, or can hold none. *)
Definition refuses (clock : nat → list Z) (lims lims' : Limiters) (i : nat) (lrl : RateLimit) : Prop :=
  limit_type lrl = Requests ∧
  ∃ before times found, lims !! ratelimit lrl = Some before ∧
    times `prefix_of` clock i ∧ refilled before times = Ret found ∧
    (Ratelimiter.available found < 1 ∨ Ratelimiter.max_tokens before < 1)%Z ∧
    lims' !! ratelimit lrl = Some found.

Lemma check_limits_charged clock limits lims lims' ok :
  NoDup (ratelimit <$> limits) → check_limits check_request clock limits lims = Ret (Some (lims', ok)) →
  (∀ h, h ∉ ratelimit <$> limits → lims' !! h = lims !! h) ∧
  if ok then ∀ i lrl, limits !! i = Some lrl → charged clock lims lims' i lrl
  else ∃ k lrl, limits !! k = Some lrl ∧ refuses clock lims lims' k lrl ∧
    (∀ i lrl', limits !! i = Some lrl' → i < k → charged clock lims lims' i lrl') ∧
    ∀ i lrl', limits !! i = Some lrl' → k < i → lims' !! ratelimit lrl' = lims !! ratelimit lrl'.
Proof.
  intros Hnd Hc. destruct (check_limits_spec _ _ _ _ _ _ Hnd Hc) as (k & Hk & Hin & Hout). split; [exact Hout|].
  assert (∀ i lrl, limits !! i = Some lrl → i < k → charged clock lims lims' i lrl) as Hch.
  { intros i lrl Hi Hlt. destruct (Hin i lrl Hi) as [(s & s' & Hs & Hs' & _ & Hchk)|[? _]]; [|lia].
    rewrite bool_decide_true in Hchk by done. unfold charged. case_decide as Hty.
    - rewrite Hty in Hchk. apply check_request_from in Hchk as (times & found & Hp & Hf & Hne & Hav & ->).
      exists s, times, found. done.
    - unfold check_request in Hchk. rewrite decide_True in Hchk by done. congruence. }
  destruct ok.
  - intros i lrl Hi. eapply Hch; [done|]. subst k. by eapply lookup_lt_Some.
  - destruct (lookup_lt_is_Some_2 limits k Hk) as [lrl Hl]. exists k, lrl. split_and!; [done| |by eauto|].
    + destruct (Hin k lrl Hl) as [(s & s' & Hs & Hs' & _ & Hchk)|[? _]]; [|lia].
      rewrite bool_decide_false in Hchk by lia. destruct (decide (limit_type lrl = Requests)) as [Hty|Hty].
      * split; [done|]. rewrite Hty in Hchk. apply check_request_from in Hchk as (times & found & Hp & Hf & Hav & ->).
        exists s, times, found. done.
      * unfold check_request in Hchk. by rewrite decide_True in Hchk.
    + intros i lrl' Hi Hlt. destruct (Hin _ _ Hi) as [(? & ? & _ & _ & ? & _)|[_ ?]]; [lia|done].
Qed.

Section chain_facts.
Context `{!HeaderMapOps, !HttpParsers, !CelEngine, !Jwt.JwtLib, !HashIter string Descriptor}.
Context (to_str HeaderValue_from_bytes : string → option string) (to_vec : Value → option string).
Context (bearer : list string → option string) (key_of : Handle → Jwt.Jwk) (show : Jwt.TokenError → string).
Context (authz : Target → CheckRequest → option CheckResponse).
Context (should_rate_limit : Target → list (string * string) → option RateLimitResponse).
Local Abbreviation chain := (apply_request_policies to_str HeaderValue_from_bytes to_vec bearer key_of show
  authz should_rate_limit).

Lemma limit_remotely_error policies s s' e :
  limit_remotely to_str HeaderValue_from_bytes should_rate_limit policies s = (s', Err e) →
  e = PInvalidRequest ∨ e = RateLimitFailed.
Proof.
  unfold limit_remotely, remote_check. destruct (rp_remote_rate_limit policies) as [rrl|]; [|done].
  destruct (descriptor_entries _ _ _) as [[l|]|e'] eqn:Hd; [|done|].
  - destruct (should_rate_limit _ _); [|by intros [= <- <-]; right]. by case_decide.
  - intros [= <- <-]. left. revert Hd. generalize (hm_iter (descriptors rrl)). intros l.
    induction l as [|[k [name|v]] l IH]; simpl; [done| |].
    + destruct (hdr_get _ _) as [hv|]; [|done]. destruct (to_str hv); simpl; [|congruence].
      destruct (descriptor_entries _ l _); simpl; [done|]. intros [= ->]. by apply IH.
    + destruct (descriptor_entries _ l _); simpl; [done|]. intros [= ->]. by apply IH.
Qed.

(** C12: policies and local limits. A request that fails authentication or authorization,
    or is answered by the authorization service, takes nothing from any limiter. A
    request that a limiter refuses takes one token from every limiter of requests
    before it, none from the refusing one and nothing from those after it. Every
    other request, whatever happens to it later in the chain, takes one token from
    every limiter of requests: each is left as the refills due at the readings of the
    clock make it, less one. Limiters that the route does not name stay as they were. *)
Theorem policy_chain_limits policies conn clock lims s lims' s' r :
  NoDup (ratelimit <$> rp_local_rate_limit policies) →
  chain policies conn clock lims s = Ret (Some (lims', s', r)) →
  let limits := rp_local_rate_limit policies in
  let all_charged := ∀ i lrl, limits !! i = Some lrl → charged clock lims lims' i lrl in
  (∀ h, h ∉ ratelimit <$> limits → lims' !! h = lims !! h) ∧
  match r with
  | Err (JwtAuthenticationFailure _ | AuthorizationFailed) => lims' = lims
  | Err RateLimitExceeded => ∃ k lrl, limits !! k = Some lrl ∧ refuses clock lims lims' k lrl ∧
      (∀ i lrl', limits !! i = Some lrl' → i < k → charged clock lims lims' i lrl') ∧
      ∀ i lrl', limits !! i = Some lrl' → k < i → lims' !! ratelimit lrl' = lims !! ratelimit lrl'
  | Ok p => lims' = lims ∧ is_Some (direct_response p) ∨ all_charged
  | Err _ => all_charged
  end.
Proof.
  intros Hnd. unfold apply_request_policies.
  destruct (authenticate bearer key_of show policies s) as [s1 [[]|e]] eqn:Ha.
  2:{ intros [= <- <- <-]. split; [done|]. unfold authenticate in Ha. destruct (rp_jwt policies); [|done].
      destruct (Jwt.apply _ _ _) as [s0 [?|te]]; simplify_eq/=. done. }
  destruct (authorize _ _ _ policies conn s1) as [[s2 [p1|e]]|] eqn:Hz; [| |done]; cbn [mbind comp_mbind].
  2:{ intros [= <- <- <-]. split; [done|]. unfold authorize, ext_authz_check in Hz. destruct (rp_ext_authz policies) as [x|]; [|done].
      destruct (ci_start conn); [|done]. simpl in Hz. destruct (authz _ _) as [cr|]; [|by simplify_eq].
      destruct (cr_status cr); [|done]. simpl in Hz. case_decide; [by simplify_eq|].
      destruct (cr_http_response cr) as [hr|]; [|by simplify_eq]. destruct (authz_response _ _ _); by simplify_eq. }
  destruct (should_short_circuit p1) eqn:Hsc.
  { intros [= <- <- <-]. split; [done|]. left. split; [done|]. unfold should_short_circuit in Hsc.
    by destruct (direct_response p1). }
  destruct (check_limits check_request clock _ lims) as [[[lims1 ok]|]|] eqn:Hc; cbn [mbind comp_mbind]; [|done|done].
  destruct (check_limits_charged _ _ _ _ _ Hnd Hc) as [Hout Hch]. destruct ok; [|by intros [= <- <- <-]].
  destruct (limit_remotely _ _ _ policies s2) as [s3 [p2|e]] eqn:Hr.
  2:{ intros [= <- <- <-]. split; [done|]. by apply limit_remotely_error in Hr as [-> | ->]. }
  unfold transform. destruct (rp_transformation policies) as [xfm|]; [|intros [= <- <- <-]; split; [done|by right]].
  destruct (apply_request _ _ _ _ _) as [req [?|?]]; intros [= <- <- <-]; (split; [done|]); [by right|done].
Qed.

(** The steps one by one: what authentication and authorization have established,
    and that the steps after them keep the claims. *)
Lemma authenticate_ok policies s s1 :
  authenticate bearer key_of show policies s = (s1, Ok ()) →
  req_method (rs_req s1) = req_method (rs_req s) ∧ req_uri (rs_req s1) = req_uri (rs_req s) ∧
  ∀ j token, rp_jwt policies = Some j →
    bearer (hdr_get_all (req_headers (rs_req s)) "authorization") = Some token →
    ∃ kid h claims, Jwt.decode_header token = Ok (Some kid) ∧ jwt_keys j !! kid = Some h ∧
      Jwt.jwt_decode token (Jwt.decoding (key_of h)) (Jwt.validation (key_of h)) = Ok claims ∧
      rs_claims s1 = Some {| claims_inner := claims; claims_jwt := token |}.
Proof.
  unfold authenticate. destruct (rp_jwt policies) as [j|]; [|by intros [= <-]].
  unfold Jwt.apply, Jwt.validate_claims. destruct (bearer _) as [token|]; [|by intros [= <-]].
  destruct (Jwt.decode_header token) as [[kid|]|] eqn:Hh; simpl; [|done..].
  rewrite lookup_fmap. destruct (jwt_keys j !! kid) as [h|] eqn:Hk; simpl; [|done].
  destruct (Jwt.jwt_decode _ _ _) as [claims|] eqn:Hd; simpl; [|done]. intros [= <-]. split_and!; [done|done|].
  intros j' token' [= <-] [= <-]. eauto 10.
Qed.

Lemma authorize_ok policies conn s s1 p :
  authorize to_str HeaderValue_from_bytes authz policies conn s = Ret (s1, Ok p) → should_short_circuit p = false →
  rs_claims s1 = rs_claims s ∧ ∀ x, rp_ext_authz policies = Some x →
    ∃ start cr, authz (ea_target x) (check_request_of to_str x conn start (rs_req s)) = Some cr ∧
      cr_status cr = Some 0%Z ∧ ∀ st h b, cr_http_response cr ≠ Some (DeniedResponse st h b).
Proof.
  unfold authorize, ext_authz_check. destruct (rp_ext_authz policies) as [x|]; [|by intros [= <- <-]].
  destruct (ci_start conn) as [start|]; [|done]. simpl.
  destruct (authz _ _) as [cr|] eqn:Haz; [|by intros [= ]].
  destruct (cr_status cr) as [code|] eqn:Hcode; [|done]. simpl. case_decide as Hz0; [by intros [= ]|].
  subst code. destruct (cr_http_response cr) as [[st h b|]|] eqn:Hh; intros [= <- <-] Hsc; [done| |];
    (split; [done|]); intros x' [= <-]; exists start, cr; split_and!; congruence.
Qed.

Lemma limit_remotely_claims policies s :
  rs_claims (limit_remotely to_str HeaderValue_from_bytes should_rate_limit policies s).1 = rs_claims s.
Proof.
  unfold limit_remotely, remote_check. destruct (rp_remote_rate_limit policies); [|done].
  destruct (descriptor_entries _ _ _) as [[?|]|]; [|done..].
  destruct (should_rate_limit _ _); [|done]. by case_decide.
Qed.

Lemma transform_claims policies s :
  rs_claims (transform HeaderValue_from_bytes to_vec policies s).1 = rs_claims s.
Proof.
  unfold transform. destruct (rp_transformation policies); [|done]. by destruct (apply_request _ _ _ _ _).
Qed.

(** What the policies have established about a request [s] that goes on as [s']. *)
Definition admitted (policies : RoutePolicies) (s s' : ReqState) : Prop :=
  (∀ j token, rp_jwt policies = Some j →
     bearer (hdr_get_all (req_headers (rs_req s)) "authorization") = Some token →
     ∃ kid h claims, Jwt.decode_header token = Ok (Some kid) ∧ jwt_keys j !! kid = Some h ∧
       Jwt.jwt_decode token (Jwt.decoding (key_of h)) (Jwt.validation (key_of h)) = Ok claims ∧
       rs_claims s' = Some {| claims_inner := claims; claims_jwt := token |}) ∧
  (∀ x, rp_ext_authz policies = Some x →
     ∃ q cr, authz (ea_target x) q = Some cr ∧ cq_method q = req_method (rs_req s) ∧
       cq_path q = uri_path (req_uri (rs_req s)) ∧ cr_status cr = Some 0%Z ∧
       ∀ st h b, cr_http_response cr ≠ Some (DeniedResponse st h b)).

Lemma chain_admitted policies conn clock lims s lims' s' p :
  chain policies conn clock lims s = Ret (Some (lims', s', Ok p)) → direct_response p = None →
  admitted policies s s'.
Proof.
  unfold apply_request_policies. intros Hr Hdirect.
  destruct (authenticate bearer key_of show policies s) as [s1 [[]|e]] eqn:Ha; [|by simplify_eq].
  destruct (authorize _ _ _ policies conn s1) as [[s2 [p1|e]]|] eqn:Hz; [|by simplify_eq/=|done].
  cbn [mbind comp_mbind] in Hr.
  destruct (should_short_circuit p1) eqn:Hsc.
  { simplify_eq. unfold should_short_circuit in Hsc. by rewrite Hdirect in Hsc. }
  destruct (check_limits _ _ _ _) as [[[lims1 [|]]|]|]; cbn [mbind comp_mbind] in Hr; try done.
  pose proof (limit_remotely_claims policies s2) as Hc3.
  destruct (limit_remotely _ _ _ policies s2) as [s3 [p2|e]]; [|done].
  pose proof (transform_claims policies s3) as Hc4.
  destruct (transform _ _ policies s3) as [s4 [[]|?]]; [|done]. simplify_eq/=.
  destruct (authenticate_ok _ _ _ Ha) as (Hm & Hu & Hjwt).
  destruct (authorize_ok _ _ _ _ _ Hz Hsc) as [Hc2 Hauthz]. split.
  - intros j token Hj Ht'. destruct (Hjwt j token Hj Ht') as (kid & h & claims & ? & ? & ? & ?).
    exists kid, h, claims. split_and!; [done..|]. congruence.
  - intros x Hx. destruct (Hauthz x Hx) as (start & cr & Haz & Hcr & Hn).
    eexists _, cr. split; [exact Haz|]. simpl. rewrite Hm, Hu. done.
Qed.

(** A request that goes on has been let through by every policy. If tokens are
    checked and it carries one, a configured key has verified it; if there is an
    authorization service, it has answered with the status OK and no denial. *)
Theorem policy_chain_admits policies conn clock lims s lims' s' p :
  chain policies conn clock lims s = Ret (Some (lims', s', Ok p)) → direct_response p = None →
  admitted policies s s'.
Proof. apply chain_admitted. Qed.
End chain_facts.

(** ** Response headers *)

Definition first_of `{!HeaderMapOps} (h : option HeaderMap) (k : string) : option string := h ← h; hdr_get h k.

Section response_facts.
Context `{!HeaderMapOps, !HeaderMapLaws, !HttpParsers, !CelEngine}.
Context (HeaderValue_from_bytes : string → option string) (to_vec : Value → option string).

Lemma merge_in_headers_first h dest k :
  hdr_get_all (merge_in_headers h dest) k =
  match first_of h k with Some v => [v] | None => hdr_get_all dest k end.
Proof.
  destruct h as [h|]; [|done]. rewrite merge_in_headers_get_all. unfold first_of, hdr_get. simpl.
  by destruct (hdr_get_all h k).
Qed.

(** The headers that policies add to a response. Those of the backend's filters win
    over those of the route's filters, these over those of the authorization and rate
    limit services, and all of them over the transformation and the backend's own
    response; of a header with several values only the first is added. *)
Theorem response_headers_precedence t authz route backend resp cel resp' :
  ResponsePolicies_apply HeaderValue_from_bytes to_vec
    (add_response_headers (add_response_headers (add_response_headers (ResponsePolicies_from t) authz) route)
       backend) resp cel = (resp', Ok ()) →
  ∀ k, hdr_get_all (resp_headers resp') k =
    match or (first_of backend k) (or (first_of route k) (first_of authz k)) with
    | Some v => [v]
    | None =>
      match t with
      | None => hdr_get_all (resp_headers resp) k
      | Some j => hdr_get_all (resp_headers (apply_response HeaderValue_from_bytes to_vec j resp cel).1) k
      end
    end.
Proof.
  unfold ResponsePolicies_apply. cbn [rsp_transformation add_response_headers ResponsePolicies_from].
  set (h := rsp_response_headers _). intros Hr k.
  assert (hdr_get_all h k = option_list (or (first_of backend k) (or (first_of route k) (first_of authz k)))) as Hh.
  { unfold h. simpl. rewrite !merge_in_headers_first, hdr_get_all_new.
    by destruct (first_of backend k), (first_of route k), (first_of authz k). }
  destruct t as [j|].
  - destruct (apply_response _ _ j resp cel) as [resp1 [[]|]]; simplify_eq/=.
    change (foldl _ _ (hdr_into_iter h)) with (merge_in_headers (Some h) (resp_headers resp1)).
    rewrite merge_in_headers_get_all, Hh. by destruct (or _ _).
  - simplify_eq/=.
    change (foldl _ _ (hdr_into_iter h)) with (merge_in_headers (Some h) (resp_headers resp)).
    rewrite merge_in_headers_get_all, Hh. by destruct (or _ _).
Qed.
End response_facts.

(** ** Examples *)

Module ChainExample.
#[local] Existing Instance gmap_headers.
#[local] Existing Instance gmap_headers_laws.
#[local] Existing Instance example_parsers.
#[local] Existing Instance TransformationExample.engine.
#[local] Existing Instance AuthExample.lib.

Definition descriptors_iter : HashIter string Descriptor := hm_iter_default.
#[local] Existing Instance descriptors_iter.

Definition limits : list RateLimit :=
  [{| ratelimit := 1%N; limit_type := Requests |}; {| ratelimit := 2%N; limit_type := Requests |}].

Definition policies : RoutePolicies :=
  {| rp_local_rate_limit := limits; rp_remote_rate_limit := None;
     rp_jwt := Some {| jwt_keys := {[ "k1" := 9%N ]} |};
     rp_ext_authz := Some AuthExample.policy; rp_transformation := None |}.

Definition key_of (_ : Handle) : Jwt.Jwk :=
  {| Jwt.decoding := "secret" : Jwt.DecodingKey; Jwt.validation := Jwt.Validation_new "RS256" |}.

Definition allows (t : Target) (q : CheckRequest) : option CheckResponse :=
  Some {| cr_status := Some 0%Z; cr_http_response := None |}.

Definition heap : Limiters := {[ 1%N := LlmCallExample.bucket 5; 2%N := LlmCallExample.bucket 0 ]}.

Definition refused : Limiters := {[ 1%N := LlmCallExample.bucket 4; 2%N := LlmCallExample.bucket 0 ]}.

Definition authenticated : ReqState :=
  (authenticate AuthExample.bearer key_of (λ _, "") policies (AuthExample.state "Bearer k1:secret")).1.

Definition full : Limiters := {[ 1%N := LlmCallExample.bucket 5; 2%N := LlmCallExample.bucket 5 ]}.
Definition after : Limiters := {[ 1%N := LlmCallExample.bucket 4; 2%N := LlmCallExample.bucket 4 ]}.

Lemma distinct_limits : NoDup (ratelimit <$> limits).
Proof. refine (bool_decide_unpack _ _). vm_compute. exact I. Qed.

(** A request both limiters grant, and one the second limiter refuses. *)
Lemma policy_chain_limits_witness :
  (charged (λ _, [0%Z]) full after 0 {| ratelimit := 1%N; limit_type := Requests |} ∧
   charged (λ _, [0%Z]) full after 1 {| ratelimit := 2%N; limit_type := Requests |}) ∧
  ∃ k lrl, limits !! k = Some lrl ∧ refuses (λ _, [0%Z]) heap refused k lrl.
Proof.
  split.
  - destruct (policy_chain_limits Some Some (λ _, None) AuthExample.bearer key_of (λ _, "") allows (λ _ _, None)
      policies AuthExample.conn (λ _, [0%Z]) full (AuthExample.state "Bearer k1:secret") after authenticated
      (Ok PolicyResponse_default) distinct_limits eq_refl) as (_ & [[_ [? H]]|H]); [discriminate H|].
    split; apply H; reflexivity.
  - destruct (policy_chain_limits Some Some (λ _, None) AuthExample.bearer key_of (λ _, "") allows (λ _ _, None)
      policies AuthExample.conn (λ _, [0%Z]) heap (AuthExample.state "Bearer k1:secret") refused authenticated
      (Err RateLimitExceeded) distinct_limits eq_refl) as (_ & k & lrl & Hk & Href & _).
    exists k, lrl. split; [exact Hk|exact Href].
Defined.

Lemma policy_chain_admits_witness : ∃ q cr, allows (ea_target AuthExample.policy) q = Some cr ∧
  cq_method q = "GET" ∧ cr_status cr = Some 0%Z.
Proof.
  destruct (policy_chain_admits Some Some (λ _, None) AuthExample.bearer key_of (λ _, "") allows (λ _ _, None)
    policies AuthExample.conn (λ _, [0%Z]) full (AuthExample.state "Bearer k1:secret") after authenticated
    PolicyResponse_default) as [_ H].
  - reflexivity.
  - reflexivity.
  - destruct (H AuthExample.policy eq_refl) as (q & cr & Hq & Hm & _ & Hs & _).
    exists q, cr. split; [exact Hq|]. split; [exact Hm|exact Hs].
Defined.

Definition authz_headers : HeaderMap := hdr_insert (hdr_insert hdr_new "x-a" "authz") "x-b" "authz".
Definition cors_headers : HeaderMap := hdr_insert hdr_new "x-a" "cors".
Definition response : Response :=
  {| resp_status := 200; resp_headers := hdr_insert hdr_new "x-b" "backend"; resp_body := "" |}.

Lemma response_headers_precedence_witness : ∃ resp',
  (ResponsePolicies_apply Some (λ _, None)
     (add_response_headers (add_response_headers (add_response_headers (ResponsePolicies_from None)
        (Some authz_headers)) (Some cors_headers)) None) response ContextBuilder_new).1 = resp' ∧
  hdr_get_all (resp_headers resp') "x-a" = ["cors"] ∧ hdr_get_all (resp_headers resp') "x-b" = ["authz"].
Proof.
  eexists. split; [reflexivity|].
  pose proof (response_headers_precedence Some (λ _, None) None (Some authz_headers) (Some cors_headers) None
    response ContextBuilder_new _ eq_refl) as H.
  split; [exact (H "x-a")|exact (H "x-b")].
Defined.
End ChainExample.
