(* ===== verification/OpenApi.v ===== *)
(** OpenApi: API descriptions as MCP tools ([mcp/openapi/mod.rs]): the resolution of
    references in an API description, the tools that are made of its operations, and
    the HTTP requests that calls of these tools become.

    The document types are those of the [openapiv3] crate; attributes of a schema that
    the code only copies are one opaque value.  A schema may refer to itself, and then
    the recursive functions of the code never return: they take fuel here, and [None]
    is a call that has not returned. *)
From S2P Require Import Prelude Strs Json Http DiscoveryTypes AgentTypes Filters IpParse HttpProxy.

(** * Documents ([openapiv3]) *)

Inductive ReferenceOr (A : Type) := Reference (r : string) | Item (a : A).
Arguments Reference {_} _.
Arguments Item {_} _.

(** [attrs]: the attributes that are only copied, among them which scalar type it is. *)
Inductive Schema := mkSchema (attrs : Handle) (kind : SchemaKind)
with SchemaKind :=
| ScalarType
| ObjectType (properties : list (string * ReferenceOr Schema)) (additional_properties : option AdditionalProperties)
| ArrayType (items : option (ReferenceOr Schema))
| OneOf (l : list (ReferenceOr Schema))
| AllOf (l : list (ReferenceOr Schema))
| AnyOf (l : list (ReferenceOr Schema))
| Not (s : ReferenceOr Schema)
| AnyKind (properties : list (string * ReferenceOr Schema)) (additional_properties : option AdditionalProperties)
    (items : option (ReferenceOr Schema)) (one_of all_of any_of : list (ReferenceOr Schema))
    (not : option (ReferenceOr Schema))
with AdditionalProperties := APAny (b : bool) | APSchema (s : ReferenceOr Schema).

Record RequestBody := {
  (** by media type, each with its schema *)
  rb_content : list (string * option (ReferenceOr Schema));
  rb_required : bool
}.

Inductive ParameterFormat := PFSchema (s : ReferenceOr Schema) | PFContent (s : string).
Inductive ParameterIn := InHeader | InQuery | InPath | InCookie.
Record OaParameter := {
  par_in : ParameterIn;
  par_name : string;
  par_description : option string;
  par_required : bool;
  par_format : ParameterFormat
}.

Record Operation := {
  op_operation_id : option string;
  op_description : option string;
  op_summary : option string;
  op_request_body : option (ReferenceOr RequestBody);
  op_parameters : list (ReferenceOr OaParameter)
}.

Record Components := {
  c_schemas : gmap string (ReferenceOr Schema);
  c_parameters : gmap string (ReferenceOr OaParameter);
  c_request_bodies : gmap string (ReferenceOr RequestBody)
}.

(** A path item is the list its iterator gives: methods with their operations. *)
Record OpenAPI := {
  oa_servers : list string;
  oa_paths : list (string * ReferenceOr (list (string * Operation)));
  oa_components : option Components
}.

Inductive ParseError :=
| MissingComponents
| InvalidReference (s : string)
| MissingReference (s : string)
| UnsupportedReference (s : string)
| InformationRequired (s : string)
| SerdeError (s : string).

(** * Calls that may not return *)

Abbreviation fres A := (option (result A ParseError)).

Definition fbind {A B} (c : fres A) (k : A → fres B) : fres B :=
  match c with Some (Ok a) => k a | Some (Err e) => Some (Err e) | None => None end.
Notation "'let*' x := c 'in' k" := (fbind c (λ x, k))
  (at level 10, x pattern, k at level 200,
   format "'let*'  x  :=  c  'in' '//' k") : rust_scope.

Fixpoint fmapM {A B} (f : A → fres B) (l : list A) : fres (list B) :=
  match l with
  | [] => Some (Ok [])
  | x :: l => let* y := f x in let* ys := fmapM f l in Some (Ok (y :: ys))
  end.

Definition foptM {A B} (f : A → fres B) (o : option A) : fres (option B) :=
  match o with Some x => let* y := f x in Some (Ok (Some y)) | None => Some (Ok None) end.

(** * References *)

Definition get_server_prefix (server : OpenAPI) : result string ParseError :=
  match oa_servers server with
  | [] => Ok "/"
  | [url] => Ok url
  | _ => Err (UnsupportedReference "multiple servers are not supported")
  end.

(** Following references of one kind: [prefix] is that of the kind, [missing] the
    error for another prefix. *)
Section follow.
Context {A : Type} (prefix : string) (missing : string → ParseError) (table : Components → gmap string (ReferenceOr A)).

Fixpoint follow (fuel : nat) (reference : ReferenceOr A) (doc : OpenAPI) : fres A :=
  match fuel with
  | O => None
  | S fuel =>
    match reference with
    | Item a => Some (Ok a)
    | Reference r =>
      let* name := Some (ok_or (Str.strip_prefix prefix r) (missing r)) in
      let* components := Some (ok_or (oa_components doc) MissingComponents) in
      let* target := Some (ok_or (table components !! name) (MissingReference name)) in
      follow fuel target doc
    end
  end.
End follow.

Definition resolve_schema := follow "#/components/schemas/" InvalidReference c_schemas.
Definition resolve_parameter := follow "#/components/parameters/" MissingReference c_parameters.
Definition resolve_request_body := follow "#/components/requestBodies/" MissingReference c_request_bodies.

(** The kind of a schema with what is below it resolved.  What [additionalProperties]
    says is copied as it is, references included. *)
Definition resolve_kind (resolve : ReferenceOr Schema → fres (ReferenceOr Schema)) (kind : SchemaKind)
    : fres SchemaKind :=
  let properties := fmapM (λ p : string * ReferenceOr Schema, let* s := resolve p.2 in Some (Ok (p.1, s))) in
  match kind with
  | ObjectType props additional => let* props := properties props in Some (Ok (ObjectType props additional))
  | ArrayType items => let* items := foptM resolve items in Some (Ok (ArrayType items))
  | OneOf l => let* l := fmapM resolve l in Some (Ok (OneOf l))
  | AllOf l => let* l := fmapM resolve l in Some (Ok (AllOf l))
  | AnyOf l => let* l := fmapM resolve l in Some (Ok (AnyOf l))
  | Not s => let* s := resolve s in Some (Ok (Not s))
  | AnyKind props additional items one_of all_of any_of not =>
    let* props := properties props in
    let* items := foptM resolve items in
    let* one_of := fmapM resolve one_of in
    let* all_of := fmapM resolve all_of in
    let* any_of := fmapM resolve any_of in
    let* not := foptM resolve not in
    Some (Ok (AnyKind props additional items one_of all_of any_of not))
  | ScalarType => Some (Ok ScalarType)
  end.

Fixpoint resolve_nested_schema (fuel : nat) (reference : ReferenceOr Schema) (doc : OpenAPI) : fres Schema :=
  match fuel with
  | O => None
  | S fuel =>
    let* (mkSchema attrs kind) := resolve_schema fuel reference doc in
    let* kind :=
      resolve_kind (λ r, let* s := resolve_nested_schema fuel r doc in Some (Ok (Item s))) kind in
    Some (Ok (mkSchema attrs kind))
  end.

(** * Tools *)

(** [rmcp::model::Tool] *)
Record Tool := { tool_name : string; tool_description : option string; input_schema : list (string * Value) }.
Record UpstreamOpenAPICall := { oc_method : string; oc_path : string }.

Definition BODY_NAME : string := "body".
Definition HEADER_NAME : string := "header".
Definition QUERY_NAME : string := "query".
Definition PATH_NAME : string := "path".

Inductive ParameterType := PHeader | PQuery | PPath.
#[export] Instance ParameterType_eq_dec : EqDecision ParameterType.
Proof. solve_decision. Defined.
#[export] Instance ParameterType_countable : Countable ParameterType.
Proof.
  refine (inj_countable' (λ t, match t with PHeader => 0 | PQuery => 1 | PPath => 2 end)
    (λ n, match n with 0 => PHeader | 1 => PQuery | _ => PPath end) _).
  abstract (by intros []).
Defined.

Definition ParameterType_to_string (t : ParameterType) : string :=
  match t with PHeader => HEADER_NAME | PQuery => QUERY_NAME | PPath => PATH_NAME end.

(** [serde_json::Map::insert] *)
Fixpoint map_insert (k : string) (v : Value) (m : list (string * Value)) : list (string * Value) :=
  match m with
  | [] => [(k, v)]
  | (k', v') :: m => if Str.eqb k' k then (k', v) :: m else (k', v') :: map_insert k v m
  end.

Record JsonSchema := { js_required : list string; js_properties : list (string * Value) }.
Definition JsonSchema_default : JsonSchema := {| js_required := []; js_properties := [] |}.

(** What it is serialized to; the type is always [object]. *)
Definition JsonSchema_to_object (s : JsonSchema) : list (string * Value) :=
  [("required", Array (Str <$> js_required s)); ("properties", Object (js_properties s)); ("type", Str "object")].

Definition require (k : string) (s : JsonSchema) : JsonSchema :=
  {| js_required := js_required s ++ [k]; js_properties := js_properties s |}.
Definition insert_property (k : string) (v : Value) (s : JsonSchema) : JsonSchema :=
  {| js_required := js_required s; js_properties := map_insert k v (js_properties s) |}.

Section tools.
(** [serde_json::to_value] of a schema. *)
Context (to_value : Schema → result Value string).
Context `{!HashIter ParameterType (list (string * list (string * Value) * bool))}.

Definition build_schema_property (fuel : nat) (open_api : OpenAPI) (item : OaParameter)
    : fres (string * list (string * Value) * bool) :=
  let* schema :=
    match par_format item with
    | PFSchema reference =>
      let* resolved_schema := resolve_schema fuel reference open_api in
      let* v := Some (map_err SerdeError (to_value resolved_schema)) in
      Some (ok_or (as_object v) (UnsupportedReference ("parameter " +:+ par_name item +:+ " is not an object")))
    | PFContent c => Some (Err (UnsupportedReference c))
    end in
  let schema := match par_description item with
                | Some desc => map_insert "description" (Str desc) schema
                | None => schema
                end in
  Some (Ok (par_name item, schema, par_required item)).

Definition parameter_type (p : OaParameter) : result ParameterType ParseError :=
  match par_in p with
  | InHeader => Ok PHeader
  | InQuery => Ok PQuery
  | InPath => Ok PPath
  | InCookie => Err (UnsupportedReference "parameter type COOKIE is not supported")
  end.

(** The parameters by where they go, each list in their order. *)
Fixpoint collect_parameters (fuel : nat) (open_api : OpenAPI) (l : list (ReferenceOr OaParameter))
    (param_schemas : gmap ParameterType (list (string * list (string * Value) * bool)))
    : fres (gmap ParameterType (list (string * list (string * Value) * bool))) :=
  match l with
  | [] => Some (Ok param_schemas)
  | p :: l =>
    let* item := resolve_parameter fuel p open_api in
    let* prop := build_schema_property fuel open_api item in
    let* t := Some (parameter_type item) in
    collect_parameters fuel open_api l (<[t := default [] (param_schemas !! t) ++ [prop]]> param_schemas)
  end.

Definition sub_schema (props : list (string * list (string * Value) * bool)) : JsonSchema :=
  {| js_required := omap (λ '(name, _, req), if req : bool then Some name else None) props;
     js_properties := foldl (λ m '(name, s, _), map_insert name (Object s) m) [] props |}.

Definition add_parameters (final_schema : JsonSchema)
    '((param_type, props) : ParameterType * list (string * list (string * Value) * bool)) : JsonSchema :=
  let sub := sub_schema props in
  let final_schema := if decide (js_required sub = []) then final_schema
                      else require (ParameterType_to_string param_type) final_schema in
  insert_property (ParameterType_to_string param_type) (Object (JsonSchema_to_object sub)) final_schema.

Definition add_body (fuel : nat) (open_api : OpenAPI) (op : Operation) : fres JsonSchema :=
  match op_request_body op with
  | None => Some (Ok JsonSchema_default)
  | Some body =>
    let* body := resolve_request_body fuel body open_api in
    match find (λ c, Str.eqb c.1 "application/json") (rb_content body) with
    | None => Some (Ok JsonSchema_default)
    | Some (_, schema) =>
      let* schema_ref := Some (ok_or schema (MissingReference "application/json")) in
      let* schema := resolve_nested_schema fuel schema_ref open_api in
      let* body_schema := Some (map_err SerdeError (to_value schema)) in
      (* the code adds the body here, and once more after the match *)
      let add s := insert_property BODY_NAME body_schema
                     (if rb_required body then require BODY_NAME s else s) in
      Some (Ok (add (add JsonSchema_default)))
    end
  end.

Definition parse_operation (fuel : nat) (open_api : OpenAPI) (path method : string) (op : Operation)
    : fres (Tool * UpstreamOpenAPICall) :=
  let* name := Some (ok_or (op_operation_id op) (InformationRequired ("operation_id is required for " +:+ path))) in
  let* final_schema := add_body fuel open_api op in
  let* param_schemas := collect_parameters fuel open_api (op_parameters op) ∅ in
  let final_schema := foldl add_parameters final_schema (hm_iter param_schemas) in
  Some (Ok ({| tool_name := name;
               tool_description := Some (default (default name (op_summary op)) (op_description op));
               input_schema := JsonSchema_to_object final_schema |},
            {| oc_method := method; oc_path := path |})).

Definition parse_path (fuel : nat) (open_api : OpenAPI)
    '((path, path_info) : string * ReferenceOr (list (string * Operation)))
    : fres (list (Tool * UpstreamOpenAPICall)) :=
  match path_info with
  | Reference _ => Some (Err (UnsupportedReference path))
  | Item item => fmapM (λ '(method, op), parse_operation fuel open_api path method op) item
  end.

Definition parse_openapi_schema (fuel : nat) (open_api : OpenAPI) : fres (list (Tool * UpstreamOpenAPICall)) :=
  let* tool_defs := fmapM (parse_path fuel open_api) (oa_paths open_api) in
  Some (Ok (concat tool_defs)).
End tools.

(** * Calls *)

Definition Target_to_string (t : Target) : string :=
  match t with
  | TgtAddress addr => SocketAddr_to_string addr
  | TgtHostname hostname port => hostname +:+ ":" +:+ Str.display_nat port
  end.

Definition hostport (self : SimpleBackend) : string :=
  match self with
  | SBService svc port => Service.hostname svc +:+ ":" +:+ Str.display_nat port
  | SBOpaque _ tgt => Target_to_string tgt
  | SBInvalid => "invalid"
  end.

(** The client and the policies of the backend are those of the call it makes. *)
Record Handler := { h_prefix : string; h_tools : list (Tool * UpstreamOpenAPICall); h_backend : SimpleBackend }.

Section call.
Context `{!HeaderMapOps, !HttpParsers}.
(** The printer of numbers, the parsers of methods and URIs, the printer of JSON and
    the decoder of text. *)
Context (number_to_string : Number → string) (to_uppercase : string → string).
Context (Method_from_bytes : string → option string) (Uri_parse : string → option Uri).
Context (to_vec : Value → result string string) (from_utf8 : string → option string).

Definition object_arg (args : list (string * Value)) (k : string) : list (string * Value) :=
  default [] (v ← map_get args k; as_object v).

(** [path.replace(&format!("{{{key}}}"), value)] for the values that have a text. *)
Definition substitute (path : string) '((key, value) : string * Value) : string :=
  match value with
  | Str s => Str.replace ("{" +:+ key +:+ "}") s path
  | Num n => Str.replace ("{" +:+ key +:+ "}") (number_to_string n) path
  | _ => path
  end.

Definition query_string (query_params : list (string * Value)) : string :=
  match omap (λ '(k, v), s ← as_str v; Some (k +:+ "=" +:+ s)) query_params with
  | [] => ""
  | pairs => "?" +:+ Str.join "&" pairs
  end.

Definition add_header_param (headers : HeaderMap) '((key, value) : string * Value) : HeaderMap :=
  match as_str value with
  | None => headers
  | Some s =>
    match HeaderName_from_bytes key, HeaderValue_from_str s with
    | Some h_name, Some h_value => hdr_append headers h_name h_value
    | _, _ => headers
    end
  end.

Definition find_tool (self : Handler) (name : string) : option (Tool * UpstreamOpenAPICall) :=
  find (λ t, Str.eqb (tool_name t.1) name) (h_tools self).

(** The text of the URI that is called. *)
Definition call_uri (self : Handler) (info : UpstreamOpenAPICall) (args : list (string * Value)) : string :=
  let path := foldl substitute (oc_path info) (object_arg args PATH_NAME) in
  "http://" +:+ hostport (h_backend self) +:+ h_prefix self +:+ path +:+
    query_string (object_arg args QUERY_NAME).

Definition build_request (self : Handler) (info : UpstreamOpenAPICall) (args : list (string * Value))
    : result Request string :=
  let? method := ok_or (Method_from_bytes (to_uppercase (oc_method info))) "Invalid HTTP method" in
  let headers := foldl add_header_param (hdr_append hdr_new "accept" "application/json")
                   (object_arg args HEADER_NAME) in
  let? (headers, body) :=
    match map_get args BODY_NAME with
    | Some body_val =>
      let? body := to_vec body_val in Ok (hdr_append headers "content-type" "application/json", body)
    | None => Ok (headers, "")
    end in
  let? uri := ok_or (Uri_parse (call_uri self info args)) "Failed to build request" in
  Ok {| req_method := method; req_uri := uri; req_headers := headers; req_body := body;
        req_original_url := None |}.

(** [call_tool]; [send] is [call_with_default_policies] with the handler's backend.
    Errors are the fixed part of their texts. *)
Definition call_tool `{!BodyReader} (send : Request → result Response string) (self : Handler) (name : string)
    (args : option (list (string * Value))) : result string string :=
  let? (_, info) := ok_or (find_tool self name) ("tool " +:+ name +:+ " not found") in
  let? request := build_request self info (default [] args) in
  let? response := send request in
  let? body := ok_or (to_bytes (resp_body response) BODY_LIMIT) "length limit exceeded" in
  let? body := ok_or (from_utf8 body) "invalid utf-8" in
  if decide (200 ≤ resp_status response < 300)%Z then Ok body
  else Err ("Upstream API call failed: " +:+ body).

Definition tools (self : Handler) : list Tool := (h_tools self).*1.
End call.

(** * Facts on calls that may not return *)

Lemma fbind_Ok {A B} (c : fres A) (k : A → fres B) b :
  fbind c k = Some (Ok b) ↔ ∃ a, c = Some (Ok a) ∧ k a = Some (Ok b).
Proof. destruct c as [[a|e]|]; simpl; naive_solver. Qed.

(** [c'] gives what [c] gives, if that returns. *)
Definition fle {A} (c c' : fres A) : Prop := ∀ r, c = Some r → c' = Some r.

Lemma fle_refl {A} (c : fres A) : fle c c.
Proof. by intros r. Qed.

Lemma fbind_mono {A B} (c c' : fres A) (k k' : A → fres B) :
  fle c c' → (∀ a, fle (k a) (k' a)) → fle (fbind c k) (fbind c' k').
Proof.
  intros Hc Hk r. destruct c as [[a|e]|] eqn:E; simpl; [|intros [= <-]|done].
  - rewrite (Hc _ eq_refl). apply Hk.
  - by rewrite (Hc _ eq_refl).
Qed.

Lemma fmapM_mono {A B} (f f' : A → fres B) l : (∀ x, fle (f x) (f' x)) → fle (fmapM f l) (fmapM f' l).
Proof.
  intros Hf. induction l as [|x l IH]; [apply fle_refl|].
  apply fbind_mono; [done|]. intros y. apply fbind_mono; [done|]. intros ys. apply fle_refl.
Qed.

Lemma foptM_mono {A B} (f f' : A → fres B) o : (∀ x, fle (f x) (f' x)) → fle (foptM f o) (foptM f' o).
Proof.
  intros Hf. destruct o as [x|]; [|apply fle_refl]. apply fbind_mono; [done|]. intros y. apply fle_refl.
Qed.

Create HintDb fres.
#[local] Hint Resolve fle_refl fbind_mono fmapM_mono foptM_mono : fres.

Lemma resolve_kind_mono f f' kind : (∀ r, fle (f r) (f' r)) → fle (resolve_kind f kind) (resolve_kind f' kind).
Proof. intros Hf. destruct kind; simpl; auto 12 with fres. Qed.

Lemma fbind_returns {A B} (c : fres A) (k : A → fres B) : c ≠ None → (∀ a, k a ≠ None) → fbind c k ≠ None.
Proof. intros Hc Hk. by destruct c as [[a|e]|]; simpl. Qed.

Lemma fmapM_returns {A B} (f : A → fres B) l : (∀ x, x ∈ l → f x ≠ None) → fmapM f l ≠ None.
Proof.
  induction l as [|x l IH]; intros Hf; [done|]. apply fbind_returns; [apply Hf; set_solver|].
  intros y. apply fbind_returns; [apply IH; set_solver|done].
Qed.

Lemma foptM_returns {A B} (f : A → fres B) o : (∀ x, x ∈ option_list o → f x ≠ None) → foptM f o ≠ None.
Proof. destruct o as [x|]; intros Hf; [|done]. apply fbind_returns; [apply Hf; set_solver|done]. Qed.

(** What is directly below a schema and is resolved, in the order of the code.  The
    schema of [additionalProperties] is not among it. *)
Definition children (kind : SchemaKind) : list (ReferenceOr Schema) :=
  match kind with
  | ScalarType => []
  | ObjectType props _ => props.*2
  | ArrayType items => option_list items
  | OneOf l | AllOf l | AnyOf l => l
  | Not s => [s]
  | AnyKind props _ items one_of all_of any_of not =>
    props.*2 ++ option_list items ++ one_of ++ all_of ++ any_of ++ option_list not
  end.

Lemma properties_returns f (props : list (string * ReferenceOr Schema)) :
  (∀ c, c ∈ props.*2 → f c ≠ None) →
  fmapM (λ p : string * ReferenceOr Schema, let* s := f p.2 in Some (Ok (p.1, s) : result (string * ReferenceOr Schema) ParseError)) props ≠ None.
Proof.
  intros Hf. apply fmapM_returns. intros p Hp. apply fbind_returns; [|done]. apply Hf.
  by apply list_elem_of_fmap_2.
Qed.

Lemma resolve_kind_returns f kind :
  (∀ c, c ∈ children kind → f c ≠ None) → resolve_kind f kind ≠ None.
Proof.
  intros Hf. destruct kind as [|props ap|items|l|l|l|s|props ap items l1 l2 l3 n]; simpl in *; [done|..];
    repeat (apply fbind_returns; [|intros ?]); try done;
    first [apply properties_returns|apply foptM_returns|apply fmapM_returns|apply Hf; set_solver];
    intros c Hc; apply Hf; set_solver.
Qed.

Lemma fmapM_Ok {A B} (f : A → fres B) l ys :
  fmapM f l = Some (Ok ys) ↔ Forall2 (λ x y, f x = Some (Ok y)) l ys.
Proof.
  revert ys. induction l as [|x l IH]; intros ys; simpl.
  - split; [intros [= <-]; done|intros H; by inversion H].
  - rewrite fbind_Ok. setoid_rewrite fbind_Ok. setoid_rewrite IH. split.
    + intros (y & Hy & zs & Hzs & [= <-]). by constructor.
    + intros H. inversion H; subst. naive_solver.
Qed.

Lemma foptM_Ok {A B} (f : A → fres B) o r :
  foptM f o = Some (Ok r) ↔ Forall2 (λ x y, f x = Some (Ok y)) (option_list o) (option_list r).
Proof.
  destruct o as [x|], r as [y|]; simpl; rewrite ?fbind_Ok; split; intros H;
    first [by inversion H|by destruct H as (z & Hz & [= <-]); repeat constructor|idtac].
  - inversion H; subst. eauto.
Qed.

Lemma properties_Ok f (props : list (string * ReferenceOr Schema)) ps :
  fmapM (λ p : string * ReferenceOr Schema, let* s := f p.2 in Some (Ok (p.1, s) : result (string * ReferenceOr Schema) ParseError)) props
    = Some (Ok ps) →
  Forall2 (λ x y, f x = Some (Ok y)) props.*2 ps.*2.
Proof.
  rewrite fmapM_Ok. induction 1 as [|[k x] y ? ? H]; csimpl; constructor; [|done].
  apply fbind_Ok in H as (s & Hs & [= <-]). done.
Qed.

(** The children of what a kind is resolved to are its own, resolved. *)
Lemma resolve_kind_children f kind kind' :
  resolve_kind f kind = Some (Ok kind') →
  Forall2 (λ c c', f c = Some (Ok c')) (children kind) (children kind').
Proof.
  destruct kind as [|props ap|items|l|l|l|s|props ap items l1 l2 l3 n]; simpl;
    repeat setoid_rewrite fbind_Ok; intros; destruct_and?;
    repeat match goal with
    | H : ∃ _, _ |- _ => destruct H
    | H : _ ∧ _ |- _ => destruct H
    end; simplify_eq/=; repeat apply Forall2_app; repeat constructor; try done;
    first [by apply properties_Ok|by apply foptM_Ok|by apply fmapM_Ok].
Qed.

(** * Following references *)

Section follow_facts.
Context {A : Type} (prefix : string) (missing : string → ParseError) (table : Components → gmap string (ReferenceOr A)).

Lemma follow_mono fuel fuel' reference doc :
  fuel ≤ fuel' → fle (follow prefix missing table fuel reference doc) (follow prefix missing table fuel' reference doc).
Proof.
  revert fuel' reference. induction fuel as [|fuel IH]; intros [|fuel'] reference Hle; try (lia || by intros r).
  destruct reference as [ref|a]; cbn [follow]; [|apply fle_refl].
  repeat (apply fbind_mono; [apply fle_refl|intros ?]). apply IH. lia.
Qed.
End follow_facts.

Lemma resolve_nested_schema_mono fuel fuel' reference doc :
  fuel ≤ fuel' → fle (resolve_nested_schema fuel reference doc) (resolve_nested_schema fuel' reference doc).
Proof.
  revert fuel' reference. induction fuel as [|fuel IH]; intros [|fuel'] reference Hle; try (lia || by intros r).
  simpl. apply fbind_mono; [apply follow_mono; lia|]. intros [attrs kind].
  apply fbind_mono; [|intros ?; apply fle_refl]. apply resolve_kind_mono. intros r.
  apply fbind_mono; [apply IH; lia|intros ?; apply fle_refl].
Qed.

(** The schema a reference names, where it names one. *)
Definition deref (doc : OpenAPI) (r : string) : option (ReferenceOr Schema) :=
  name ← Str.strip_prefix "#/components/schemas/" r;
  components ← oa_components doc;
  c_schemas components !! name.

(** The description of a schema is finite when the references in it are unfolded. *)
Inductive unfolds (doc : OpenAPI) : ReferenceOr Schema → Prop :=
| unfolds_item attrs kind :
  (∀ c, c ∈ children kind → unfolds doc c) → unfolds doc (Item (mkSchema attrs kind))
| unfolds_ref r :
  (∀ s, deref doc r = Some s → unfolds doc s) → unfolds doc (Reference r).

(** Two schemas of one kind with related schemas below them, and the same of
    [additionalProperties]. *)
Inductive below (R : ReferenceOr Schema → ReferenceOr Schema → Prop) : SchemaKind → SchemaKind → Prop :=
| below_scalar : below R ScalarType ScalarType
| below_object props props' additional :
  Forall2 (λ p p', p.1 = p'.1 ∧ R p.2 p'.2) props props' →
  below R (ObjectType props additional) (ObjectType props' additional)
| below_array items items' : option_Forall2 R items items' → below R (ArrayType items) (ArrayType items')
| below_one_of l l' : Forall2 R l l' → below R (OneOf l) (OneOf l')
| below_all_of l l' : Forall2 R l l' → below R (AllOf l) (AllOf l')
| below_any_of l l' : Forall2 R l l' → below R (AnyOf l) (AnyOf l')
| below_not s s' : R s s' → below R (Not s) (Not s')
| below_any props props' additional items items' one_of one_of' all_of all_of' any_of any_of' not not' :
  Forall2 (λ p p', p.1 = p'.1 ∧ R p.2 p'.2) props props' → option_Forall2 R items items' →
  Forall2 R one_of one_of' → Forall2 R all_of all_of' → Forall2 R any_of any_of' → option_Forall2 R not not' →
  below R (AnyKind props additional items one_of all_of any_of not)
    (AnyKind props' additional items' one_of' all_of' any_of' not').

(** A schema with every reference in it replaced by what it names, but for those
    under [additionalProperties]. *)
Inductive resolves (doc : OpenAPI) : ReferenceOr Schema → Schema → Prop :=
| resolves_item attrs kind kind' :
  below (λ c c', ∃ s, c' = Item s ∧ resolves doc c s) kind kind' →
  resolves doc (Item (mkSchema attrs kind)) (mkSchema attrs kind')
| resolves_ref r t s : deref doc r = Some t → resolves doc t s → resolves doc (Reference r) s.

(** No reference is left in a schema where references are resolved. *)
Inductive closed : ReferenceOr Schema → Prop :=
| closed_item attrs kind : (∀ c, c ∈ children kind → closed c) → closed (Item (mkSchema attrs kind)).

Lemma resolve_schema_ref fuel doc r s :
  deref doc r = Some s → resolve_schema (S fuel) (Reference r) doc = resolve_schema fuel s doc.
Proof.
  unfold resolve_schema, deref. cbn [follow].
  destruct (Str.strip_prefix _ _); simpl; [|done].
  destruct (oa_components doc) as [c|]; simpl; [|done]. by intros ->.
Qed.

Lemma resolve_schema_dangling fuel doc r :
  deref doc r = None → ∃ e, resolve_schema (S fuel) (Reference r) doc = Some (Err e).
Proof.
  unfold resolve_schema, deref. cbn [follow].
  destruct (Str.strip_prefix _ _); simpl; [|by eauto].
  destruct (oa_components doc) as [c|]; simpl; [|by eauto]. intros ->. by eauto.
Qed.

(** One amount of fuel serves a whole list. *)
Lemma common_fuel {A} (P : nat → A → Prop) (l : list A) :
  (∀ n m x, n ≤ m → P n x → P m x) → (∀ x, x ∈ l → ∃ n, P n x) → ∃ n, ∀ x, x ∈ l → P n x.
Proof.
  intros Hmono. induction l as [|x l IH]; intros H; [exists 0; set_solver|].
  destruct (H x) as [n Hn]; [set_solver|]. destruct IH as [m Hm]; [set_solver|].
  exists (n `max` m). intros y [->|Hy]%elem_of_cons; eapply Hmono; [|done| |by apply Hm]; lia.
Qed.

Lemma fle_returns {A} (c c' : fres A) : fle c c' → c ≠ None → c' ≠ None.
Proof. intros H. destruct c as [r|]; [|done]. by rewrite (H r eq_refl). Qed.

Lemma unfolds_resolves doc reference :
  unfolds doc reference → ∃ fuel, resolve_nested_schema fuel reference doc ≠ None.
Proof.
  induction 1 as [attrs kind _ IH|r _ IH].
  - destruct (common_fuel (λ n c, resolve_nested_schema n c doc ≠ None) (children kind)) as [n Hn]; [|done|].
    { intros n m c Hle. by apply fle_returns, resolve_nested_schema_mono. }
    exists (S (S n)). change (resolve_nested_schema (S (S n)) (Item (mkSchema attrs kind)) doc) with
      (let* kind := resolve_kind (λ r, let* s := resolve_nested_schema (S n) r doc in Some (Ok (Item s))) kind in
       Some (Ok (mkSchema attrs kind)) : fres Schema).
    apply fbind_returns; [|done]. apply resolve_kind_returns. intros c Hc. apply fbind_returns; [|done].
    eapply fle_returns; [by apply resolve_nested_schema_mono, Nat.le_succ_diag_r|]. by apply Hn.
  - destruct (deref doc r) as [s|] eqn:Hr.
    + destruct (IH s eq_refl) as [[|n] Hn]; [done|]. exists (S (S n)). revert Hn. apply fle_returns.
      cbn [resolve_nested_schema]. rewrite (resolve_schema_ref _ _ _ _ Hr).
      apply fbind_mono; [apply fle_refl|]. intros [attrs kind].
      apply fbind_mono; [|intros ?; apply fle_refl]. apply resolve_kind_mono. intros c.
      apply fbind_mono; [apply (resolve_nested_schema_mono n (S n)); lia|intros ?; apply fle_refl].
    + exists 2. cbn [resolve_nested_schema]. by destruct (resolve_schema_dangling 0 _ _ Hr) as [e ->].
Qed.

Lemma resolve_schema_unfolds fuel reference doc s :
  resolve_schema fuel reference doc = Some (Ok s) → unfolds doc (Item s) → unfolds doc reference.
Proof.
  revert reference. induction fuel as [|fuel IH]; intros reference H Hs; [done|].
  destruct reference as [r|a]; [|by inversion H; subst].
  constructor. intros t Hr. apply IH; [|done]. by rewrite (resolve_schema_ref _ _ _ _ Hr) in H.
Qed.

Lemma resolved_closed fuel reference doc s :
  resolve_nested_schema fuel reference doc = Some (Ok s) → unfolds doc reference ∧ closed (Item s).
Proof.
  revert reference s. induction fuel as [|fuel IH]; intros reference s H; [done|].
  apply fbind_Ok in H as ([attrs kind] & Hbase & H). apply fbind_Ok in H as (kind' & Hkind & [= <-]).
  apply resolve_kind_children in Hkind.
  assert (Forall2 (λ c c', unfolds doc c ∧ closed c') (children kind) (children kind')) as Hall.
  { eapply Forall2_impl; [exact Hkind|]. intros c c' H. apply fbind_Ok in H as (t & Ht & [= <-]). eauto. }
  split.
  - eapply resolve_schema_unfolds; [done|]. constructor. intros c Hc.
    apply list_elem_of_lookup in Hc as [i Hi].
    by destruct (Forall2_lookup_l _ _ _ _ _ Hall Hi) as (? & _ & ? & _).
  - constructor. intros c Hc. apply list_elem_of_lookup in Hc as [i Hi].
    by destruct (Forall2_lookup_r _ _ _ _ _ Hall Hi) as (? & _ & _ & ?).
Qed.

Lemma fmapM_props f (props : list (string * ReferenceOr Schema)) ps :
  fmapM (λ p : string * ReferenceOr Schema, let* s := f p.2 in Some (Ok (p.1, s) : result (string * ReferenceOr Schema) ParseError)) props
    = Some (Ok ps) →
  Forall2 (λ p p', p.1 = p'.1 ∧ f p.2 = Some (Ok p'.2)) props ps.
Proof.
  rewrite fmapM_Ok. intros H. eapply Forall2_impl; [exact H|]. intros [k x] p Hp.
  apply fbind_Ok in Hp as (s & Hs & [= <-]). done.
Qed.

Lemma foptM_rel {A B} (f : A → fres B) o r :
  foptM f o = Some (Ok r) → option_Forall2 (λ x y, f x = Some (Ok y)) o r.
Proof.
  destruct o as [x|]; simpl; [intros (y & Hy & [= <-])%fbind_Ok; by constructor|intros [= <-]; constructor].
Qed.

Lemma resolve_kind_below f kind kind' :
  resolve_kind f kind = Some (Ok kind') → below (λ c c', f c = Some (Ok c')) kind kind'.
Proof.
  destruct kind as [|props ap|items|l|l|l|s|props ap items l1 l2 l3 n]; simpl;
    repeat setoid_rewrite fbind_Ok; intros; destruct_and?;
    repeat match goal with
    | H : ∃ _, _ |- _ => destruct H
    | H : _ ∧ _ |- _ => destruct H
    end; simplify_eq/=; constructor;
    first [by apply fmapM_props|by apply foptM_rel|by apply fmapM_Ok|done].
Qed.

Lemma option_Forall2_mono {A B} (R R' : A → B → Prop) o o' :
  (∀ x y, R x y → R' x y) → option_Forall2 R o o' → option_Forall2 R' o o'.
Proof. intros HR [x y H|]; constructor. by apply HR. Qed.

Lemma below_mono (R R' : ReferenceOr Schema → ReferenceOr Schema → Prop) kind kind' :
  (∀ c c', R c c' → R' c c') → below R kind kind' → below R' kind kind'.
Proof.
  intros HR Hb.
  assert (∀ l l' : list (ReferenceOr Schema), Forall2 R l l' → Forall2 R' l l') as Hl
    by (intros l l' H; by eapply Forall2_impl).
  assert (∀ l l' : list (string * ReferenceOr Schema), Forall2 (λ p p', p.1 = p'.1 ∧ R p.2 p'.2) l l' →
    Forall2 (λ p p', p.1 = p'.1 ∧ R' p.2 p'.2) l l') as Hp
    by (intros l l' H; eapply Forall2_impl; [exact H|]; intros p p' [? ?]; auto).
  destruct Hb; constructor; eauto using option_Forall2_mono.
Qed.

Lemma resolve_schema_resolves fuel reference doc s s' :
  resolve_schema fuel reference doc = Some (Ok s) → resolves doc (Item s) s' → resolves doc reference s'.
Proof.
  revert reference. induction fuel as [|fuel IH]; intros reference H Hs; [done|].
  destruct reference as [r|a]; [|by inversion H; subst].
  destruct (deref doc r) as [t|] eqn:Hr.
  - eapply resolves_ref; [done|]. apply IH; [|done]. by rewrite (resolve_schema_ref _ _ _ _ Hr) in H.
  - by destruct (resolve_schema_dangling fuel _ _ Hr) as [e He]; rewrite He in H.
Qed.

Lemma resolve_nested_resolves fuel reference doc s :
  resolve_nested_schema fuel reference doc = Some (Ok s) → resolves doc reference s.
Proof.
  revert reference s. induction fuel as [|fuel IH]; intros reference s H; [done|].
  apply fbind_Ok in H as ([attrs kind] & Hbase & H). apply fbind_Ok in H as (kind' & Hkind & [= <-]).
  eapply resolve_schema_resolves; [done|]. constructor. eapply below_mono; [|by apply resolve_kind_below].
  intros c c' H. apply fbind_Ok in H as (t & Ht & [= <-]). eauto.
Qed.

(** C19: a call that resolves a schema whose description unfolds to a finite one
    returns, with the same result however much more is spent, and only finite
    descriptions are resolved. The schema it returns is the given one with every
    reference replaced by what it names, in properties, items, [oneOf], [allOf],
    [anyOf] and [not], at any depth: none is left there. What [additionalProperties]
    says is kept as it is, references included. *)
Theorem openapi_resolution_terminates doc reference :
  (unfolds doc reference →
    ∃ r fuel0, ∀ fuel, fuel0 ≤ fuel → resolve_nested_schema fuel reference doc = Some r) ∧
  (∀ fuel s, resolve_nested_schema fuel reference doc = Some (Ok s) →
    unfolds doc reference ∧ resolves doc reference s ∧ closed (Item s)).
Proof.
  split.
  - intros [n Hn]%unfolds_resolves. destruct (resolve_nested_schema n reference doc) as [r|] eqn:E; [|done].
    exists r, n. intros fuel Hle. by eapply resolve_nested_schema_mono.
  - intros fuel s H. destruct (resolved_closed _ _ _ _ H). eauto using resolve_nested_resolves.
Qed.

(** A reference under [additionalProperties] is still there in the resolved schema,
    and so in the input schema of the tool, whose readers have no description to look
    it up in. *)
Theorem openapi_additional_properties doc attrs r fuel :
  2 ≤ fuel →
  let schema := mkSchema attrs (ObjectType [] (Some (APSchema (Reference r)))) in
  resolve_nested_schema fuel (Item schema) doc = Some (Ok schema).
Proof. intros Hf. destruct fuel as [|[|fuel]]; [lia..|]. done. Qed.

(** The resolution of a schema with a property that refers to the schema itself, as
    in any description of a tree or a list, does not return: the code recurses until
    its stack is exhausted. *)
Theorem openapi_recursive_schema doc name attrs props property :
  c_schemas <$> oa_components doc = Some {[ name := Item (mkSchema attrs (ObjectType props None)) ]} →
  props = [(property, Reference ("#/components/schemas/" +:+ name))] →
  ∀ fuel, resolve_nested_schema fuel (Reference ("#/components/schemas/" +:+ name)) doc = None.
Proof.
  intros Hdoc -> fuel.
  assert (deref doc ("#/components/schemas/" +:+ name) =
    Some (Item (mkSchema attrs (ObjectType [(property, Reference ("#/components/schemas/" +:+ name))] None)))) as Hr.
  { unfold deref. rewrite Str.strip_prefix_app. destruct (oa_components doc) as [c|]; [|done].
    simplify_eq/=. rewrite Hdoc. by simplify_map_eq. }
  induction fuel as [|fuel IH]; [done|]. cbn [resolve_nested_schema].
  destruct fuel as [|fuel]; [done|]. rewrite (resolve_schema_ref _ _ _ _ Hr).
  destruct fuel as [|fuel]; [done|]. cbn [resolve_schema follow fbind resolve_kind fmapM snd].
  by rewrite IH.
Qed.

(** * Path templates *)

Inductive segment := Lit (s : string) | Param (name : string).

Definition segment_text (s : segment) : string :=
  match s with Lit s => s | Param name => "{" +:+ name +:+ "}" end.
Fixpoint template_text (t : list segment) : string :=
  match t with [] => "" | s :: t => segment_text s +:+ template_text t end.

Definition no_char (a : ascii) (s : string) : bool := Str.forallb (λ b, negb (bool_decide (b = a))) s.

(** No brace is ambiguous in a template. *)
Definition segment_ok (s : segment) : Prop :=
  match s with
  | Lit s => no_char "{" s
  | Param name => no_char "{" name ∧ no_char "}" name
  end.

(** The text of an argument, where it has one. *)
Definition arg_text (number_to_string : Number → string) (v : Value) : option string :=
  match v with Str s => Some s | Num n => Some (number_to_string n) | _ => None end.

Definition fill_one (k v : string) (s : segment) : segment :=
  match s with Param name => if decide (name = k) then Lit v else s | Lit _ => s end.

(** A template with the arguments that have a text in the place of its parameters. *)
Definition fill (number_to_string : Number → string) (args : list (string * Value)) (s : segment) : segment :=
  match s with
  | Param name =>
    match v ← map_get args name; arg_text number_to_string v with Some v => Lit v | None => s end
  | Lit _ => s
  end.

Lemma replace_not_here t r a s :
  Str.starts_with t (String a s) = false → Str.replace t r (String a s) = String a (Str.replace t r s).
Proof. unfold Str.replace. cbn [Str.replace_from]. by intros ->. Qed.

Lemma replace_skip_prefix a p r lit s :
  no_char a lit → Str.replace (String a p) r (lit +:+ s) = lit +:+ Str.replace (String a p) r s.
Proof.
  induction lit as [|b lit IH]; intros H; [done|].
  apply andb_True in H as [Hb H]. case_bool_decide; [done|].
  rewrite !Str.app_cons, replace_not_here; [by rewrite IH|].
  unfold Str.starts_with. simpl. by rewrite decide_False by congruence.
Qed.

Lemma no_char_app a s s' : no_char a (s +:+ s') ↔ no_char a s ∧ no_char a s'.
Proof.
  unfold no_char. induction s as [|b s IH]; simpl; [naive_solver|].
  rewrite !andb_True, IH. naive_solver.
Qed.

Lemma no_char_split a n n' s s' :
  no_char a n → no_char a n' → n +:+ String a s = n' +:+ String a s' → n = n'.
Proof.
  revert n'. induction n as [|b n IH]; intros [|b' n'] Hn Hn'; rewrite ?Str.app_cons; simpl; intros [=]; subst.
  - done.
  - apply andb_True in Hn' as [Hb _]. by case_bool_decide.
  - apply andb_True in Hn as [Hb _]. by case_bool_decide.
  - apply andb_True in Hn as [_ Hn]. apply andb_True in Hn' as [_ Hn']. f_equal. by apply IH.
Qed.

Lemma replace_segment k r seg s :
  no_char "}" k → segment_ok seg →
  Str.replace ("{" +:+ k +:+ "}") r (segment_text seg +:+ s) =
    segment_text (fill_one k r seg) +:+ Str.replace ("{" +:+ k +:+ "}") r s.
Proof.
  intros Hk Hs. destruct seg as [lit|name]; simpl in *; [by apply replace_skip_prefix|].
  destruct Hs as [Ho Hc]. case_decide as Hn; [subst; by apply Str.replace_here|].
  change ("{" +:+ name +:+ "}") with (String "{" (name +:+ "}")). rewrite !Str.app_cons, replace_not_here.
  - rewrite replace_skip_prefix; [done|]. by apply no_char_app.
  - apply not_true_iff_false. intros [rest Hrest]%Str.starts_with_spec.
    rewrite !Str.app_cons, !Str.app_assoc in Hrest. injection Hrest as Hrest.
    eapply Hn, no_char_split; [done|done|exact Hrest].
Qed.

Lemma replace_template k r t :
  no_char "}" k → Forall segment_ok t →
  Str.replace ("{" +:+ k +:+ "}") r (template_text t) = template_text (fill_one k r <$> t).
Proof.
  intros Hk. induction 1 as [|seg t Hs _ IH]; [done|]. simpl. by rewrite replace_segment, IH.
Qed.

Lemma fill_one_ok k r t : no_char "{" r → Forall segment_ok t → Forall segment_ok (fill_one k r <$> t).
Proof.
  intros Hr Ht. apply Forall_fmap. eapply Forall_impl; [exact Ht|]. intros [lit|name]; simpl; [done|].
  by case_decide.
Qed.

Lemma fill_cons nts k v args seg :
  map_get args k = None →
  fill nts ((k, v) :: args) seg =
    fill nts args (match arg_text nts v with Some r => fill_one k r seg | None => seg end).
Proof.
  intros Hk. destruct seg as [lit|name]; simpl; [by destruct (arg_text nts v)|].
  rewrite map_get_cons. destruct (Str.eqb k name) eqn:E.
  - apply Str.eqb_eq in E as <-. simpl. destruct (arg_text nts v) as [r|]; simpl; rewrite ?decide_True by done; simpl; by rewrite ?Hk.
  - destruct (arg_text nts v) as [r|]; simpl; [|done]. rewrite decide_False; [done|].
    intros ->. by rewrite (proj2 (Str.eqb_eq k k) eq_refl) in E.
Qed.

Lemma map_get_None (m : list (string * Value)) k : k ∉ m.*1 → map_get m k = None.
Proof.
  induction m as [|[k' v] m IH]; csimpl; [done|]. intros [Hne Hk]%not_elem_of_cons.
  rewrite map_get_cons. destruct (Str.eqb k' k) eqn:E; [by apply Str.eqb_eq in E as ->|auto].
Qed.

Lemma substitute_text nts path k v :
  substitute nts path (k, v) =
    match arg_text nts v with Some r => Str.replace ("{" +:+ k +:+ "}") r path | None => path end.
Proof. by destruct v. Qed.

(** The path of a call is its template with every parameter that has a string or a
    number among the arguments replaced by it, in every place, whatever the order of the
    arguments; the other parameters stay as they are.  The values are inserted as they
    are, so they must have no opening brace. *)
Theorem openapi_path_params nts t args :
  Forall segment_ok t →
  NoDup args.*1 →
  Forall (λ '(k, v), no_char "}" k ∧ ∀ r, arg_text nts v = Some r → no_char "{" r) args →
  foldl (substitute nts) (template_text t) args = template_text (fill nts args <$> t).
Proof.
  intros Ht Hnd Hargs. revert t Ht. induction args as [|[k v] args IH]; intros t Ht; cbn [foldl].
  - f_equal. symmetry. rewrite <-(list_fmap_id t) at 2. apply list_fmap_ext. by intros i [].
  - apply Forall_cons in Hargs as [[Hk Hv] Hargs]. csimpl in Hnd. apply NoDup_cons in Hnd as [Hin Hnd].
    rewrite substitute_text.
    rewrite (list_fmap_ext _ (λ seg, fill nts args (match arg_text nts v with
                                                     | Some r => fill_one k r seg | None => seg end)) t)
      by (intros; apply fill_cons, map_get_None, Hin).
    destruct (arg_text nts v) as [r|]; [|by apply IH].
    rewrite replace_template by done. rewrite IH; [by rewrite <-list_fmap_compose|done|done|].
    apply fill_one_ok; auto.
Qed.

Lemma template_text_app t t' : template_text (t ++ t') = template_text t +:+ template_text t'.
Proof. induction t as [|s t IH]; simpl; [done|]. by rewrite IH, Str.app_assoc. Qed.

(** The URI of a call with one argument of the path, the last of the template. *)
Lemma call_uri_path_end nts self info lit name v rest :
  oc_path info = template_text [Lit lit; Param name] → Forall segment_ok [Lit lit; Param name] → no_char "{" v →
  call_uri nts self info ((PATH_NAME, Object [(name, Str v)]) :: rest) =
    "http://" +:+ hostport (h_backend self) +:+ h_prefix self +:+ lit +:+ v +:+
      query_string (object_arg ((PATH_NAME, Object [(name, Str v)]) :: rest) QUERY_NAME).
Proof.
  intros Hpath Hok Hv. unfold call_uri. rewrite Hpath.
  change (object_arg _ PATH_NAME) with [(name, Str v)]. cbn [foldl substitute].
  rewrite replace_template; [|apply Forall_cons_1 in Hok as [_ [[]]%Forall_cons_1]; done|done].
  simpl. rewrite decide_True by done. simpl. by rewrite Str.app_nil_r, !Str.app_assoc.
Qed.

(** Arguments are not encoded in the URI that is called: one query argument can
    stand for two, and an argument of the path can add to the query. *)
Theorem openapi_arguments_ambiguous nts self info k v k' v' :
  call_uri nts self info [(QUERY_NAME, Object [(k, Str (v +:+ "&" +:+ k' +:+ "=" +:+ v'))])] =
    call_uri nts self info [(QUERY_NAME, Object [(k, Str v); (k', Str v')])] ∧
  (∀ lit name,
    oc_path info = template_text [Lit lit; Param name] →
    Forall segment_ok [Lit lit; Param name] → no_char "{" v → no_char "{" (v +:+ "?" +:+ k' +:+ "=" +:+ v') →
    call_uri nts self info [(PATH_NAME, Object [(name, Str (v +:+ "?" +:+ k' +:+ "=" +:+ v'))])] =
      call_uri nts self info [(PATH_NAME, Object [(name, Str v)]); (QUERY_NAME, Object [(k', Str v')])]).
Proof.
  split.
  - unfold call_uri. change (object_arg _ PATH_NAME) with (@nil (string * Value)). do 4 f_equal.
    unfold query_string. simpl. by rewrite (Str.app_assoc k).
  - intros lit name Hpath Hok Hv Hv'. rewrite !(call_uri_path_end _ _ _ _ _ _ _ Hpath Hok) by done.
    unfold query_string. simpl. by rewrite Str.app_nil_r.
Qed.

(** * The schema of a tool *)

Lemma map_get_insert k v m k' :
  map_get (map_insert k v m) k' = if decide (k = k') then Some v else map_get m k'.
Proof.
  assert (∀ a b, Str.eqb a b = bool_decide (a = b)) as Heqb.
  { intros a b. case_bool_decide; [by apply Str.eqb_eq|].
    apply not_true_iff_false. by intros ?%Str.eqb_eq. }
  induction m as [|[k0 v0] m IH]; cbn [map_insert]; rewrite ?map_get_cons, !Heqb.
  - by case_bool_decide; case_decide.
  - destruct (decide (k0 = k)) as [->|Hne]; rewrite ?bool_decide_eq_true_2, ?bool_decide_eq_false_2 by done;
      rewrite !map_get_cons, Heqb.
    + repeat case_bool_decide; repeat case_decide; congruence.
    + rewrite IH. repeat case_bool_decide; repeat case_decide; congruence.
Qed.

#[export] Instance ParameterType_to_string_inj : Inj (=) (=) ParameterType_to_string.
Proof. by intros [] []. Qed.

Section schema_facts.
Context (to_value : Schema → result Value string).
Context `{!HashIter ParameterType (list (string * list (string * Value) * bool))}.

(** A parameter with its type and its property. *)
Definition parameter_of (fuel : nat) (doc : OpenAPI) (p : ReferenceOr OaParameter)
    (tp : ParameterType * (string * list (string * Value) * bool)) : Prop :=
  ∃ item, resolve_parameter fuel p doc = Some (Ok item) ∧
    build_schema_property to_value fuel doc item = Some (Ok tp.2) ∧ parameter_type item = Ok tp.1.

Definition of_type {A} (t : ParameterType) (items : list (ParameterType * A)) : list A :=
  (filter (λ tp, tp.1 = t) items).*2.

Definition nonempty {A} (l : list A) : option (list A) := match l with [] => None | _ => Some l end.

Lemma collect_parameters_spec fuel doc l m m' :
  collect_parameters to_value fuel doc l m = Some (Ok m') →
  ∃ items, Forall2 (parameter_of fuel doc) l items ∧
    ∀ t, m' !! t = match of_type t items with [] => m !! t | ps => Some (default [] (m !! t) ++ ps) end.
Proof.
  revert m. induction l as [|p l IH]; intros m H; cbn [collect_parameters] in H.
  - injection H as <-. exists []. split; [done|]. intros t. done.
  - apply fbind_Ok in H as (item & Hitem & H). apply fbind_Ok in H as (prop & Hprop & H).
    apply fbind_Ok in H as (t & Ht & H). injection Ht as Ht.
    destruct (IH _ H) as (items & Hall & Hm'). exists ((t, prop) :: items). split.
    { constructor; [|done]. by exists item. }
    intros t'. rewrite Hm'. unfold of_type. rewrite filter_cons. simpl. case_decide as Heq; [subst t'|].
    + rewrite lookup_insert_eq. csimpl. destruct ((filter _ items).*2); [done|by rewrite <-app_assoc].
    + by rewrite lookup_insert_ne.
Qed.

Lemma add_parameters_properties l s k :
  NoDup l.*1 →
  map_get (js_properties (foldl add_parameters s l)) k =
    match list_find (λ tp, ParameterType_to_string tp.1 = k) l with
    | Some (_, (_, props)) => Some (Object (JsonSchema_to_object (sub_schema props)))
    | None => map_get (js_properties s) k
    end.
Proof.
  revert s. induction l as [|[t props] l IH]; intros s Hnd; [done|]. csimpl in Hnd.
  apply NoDup_cons in Hnd as [Hin Hnd]. cbn [foldl]. rewrite IH by done. clear IH. cbn [list_find].
  assert (∀ s, map_get (js_properties (add_parameters s (t, props))) k =
    if decide (ParameterType_to_string t = k) then Some (Object (JsonSchema_to_object (sub_schema props)))
    else map_get (js_properties s) k) as Hadd.
  { intros s'. unfold add_parameters. case_decide; simpl; by rewrite map_get_insert. }
  rewrite Hadd. cbn [fst]. case_decide as Heq.
  - destruct (list_find _ l) as [[i [t' props']]|] eqn:E; [|done].
    apply list_find_Some in E as (Hi & Ht & _). simpl in Ht. exfalso. apply Hin.
    assert (t = t') as -> by (apply (inj ParameterType_to_string); congruence).
    apply list_elem_of_fmap. exists (t', props'). split; [done|]. by eapply list_elem_of_lookup_2.
  - by destruct (list_find _ l) as [[i [t' props']]|].
Qed.

Lemma add_parameters_required l s :
  js_required (foldl add_parameters s l) =
    js_required s ++
      omap (λ '(t, props), if decide (js_required (sub_schema props) = []) then None
                            else Some (ParameterType_to_string t)) l.
Proof.
  revert s. induction l as [|[t props] l IH]; intros s; cbn [foldl omap list_omap]; [by rewrite app_nil_r|].
  rewrite IH. unfold add_parameters at 1. case_decide; simpl; [done|]. by rewrite <-app_assoc.
Qed.

Lemma sub_schema_required props : js_required (sub_schema props) ≠ [] ↔ ∃ name s, (name, s, true) ∈ props.
Proof.
  simpl. induction props as [|[[name s] req] props IH]; simpl; [set_solver|]. destruct req; simpl.
  - split; [|done]. intros _. exists name, s. set_solver.
  - rewrite IH. set_solver.
Qed.

Lemma find_type (m : gmap ParameterType (list (string * list (string * Value) * bool))) t :
  (list_find (λ tp, ParameterType_to_string tp.1 = ParameterType_to_string t) (hm_iter m)) = None ∧ m !! t = None ∨
  ∃ i props, list_find (λ tp, ParameterType_to_string tp.1 = ParameterType_to_string t) (hm_iter m) = Some (i, (t, props)) ∧
    m !! t = Some props.
Proof.
  destruct (list_find _ (hm_iter m)) as [[i [t' props]]|] eqn:E.
  - right. apply list_find_Some in E as (Hi & Ht & _). apply (inj ParameterType_to_string) in Ht. simpl in Ht. subst t'.
    exists i, props. split; [done|]. by eapply elem_of_hm_iter, list_elem_of_lookup_2.
  - left. split; [done|]. apply eq_None_not_Some. intros [props Hm]. apply list_find_None in E.
    rewrite Forall_forall in E. by apply (E (t, props)); [apply elem_of_hm_iter|].
Qed.

Lemma elem_of_of_type {A} t (items : list (ParameterType * A)) p : p ∈ of_type t items ↔ (t, p) ∈ items.
Proof.
  unfold of_type. rewrite list_elem_of_fmap. setoid_rewrite list_elem_of_filter. split.
  - intros ([t' p'] & -> & Ht & Hin). simpl in *. by subst.
  - intros Hin. by exists (t, p).
Qed.

(** The tool of an operation is named by its id, and its schema has a property for
    the headers, the query and the path when the operation has such parameters: the
    object of their schemas in which those the operation requires are required, in
    their order; the property is itself required exactly when one of them is.  The body
    is that of [add_body]. *)
Theorem openapi_tool_schema fuel doc path method op tool call :
  parse_operation to_value fuel doc path method op = Some (Ok (tool, call)) →
  ∃ final base items,
    op_operation_id op = Some (tool_name tool) ∧
    call = {| oc_method := method; oc_path := path |} ∧
    input_schema tool = JsonSchema_to_object final ∧
    add_body to_value fuel doc op = Some (Ok base) ∧
    Forall2 (parameter_of fuel doc) (op_parameters op) items ∧
    map_get (js_properties final) BODY_NAME = map_get (js_properties base) BODY_NAME ∧
    (∀ t, map_get (js_properties final) (ParameterType_to_string t) =
      match of_type t items with
      | [] => map_get (js_properties base) (ParameterType_to_string t)
      | props => Some (Object (JsonSchema_to_object (sub_schema props)))
      end) ∧
    (∀ k, k ∈ js_required final ↔
      k ∈ js_required base ∨ ∃ t name s, k = ParameterType_to_string t ∧ (t, (name, s, true)) ∈ items).
Proof.
  intros H. unfold parse_operation in H. apply fbind_Ok in H as (name & Hname & H). apply fbind_Ok in H as (base & Hbase & H).
  apply fbind_Ok in H as (m & Hm & H). injection H as <- <-.
  destruct (collect_parameters_spec _ _ _ _ _ Hm) as (items & Hitems & Hlookup).
  assert (∀ t ps, m !! t = Some ps ↔ ps ≠ [] ∧ ps = of_type t items) as Hm'.
  { intros t ps. rewrite Hlookup, lookup_empty. destruct (of_type t items) as [|p l]; simpl; naive_solver. }
  exists (foldl add_parameters base (hm_iter m)), base, items.
  destruct (op_operation_id op) as [n|]; simplify_eq/=. split_and!; try done.
  - rewrite add_parameters_properties by apply NoDup_hm_iter.
    rewrite (proj2 (list_find_None _ _)); [done|]. apply Forall_forall. by intros [[] ?].
  - intros t. rewrite add_parameters_properties by apply NoDup_hm_iter.
    pose proof (Hlookup t) as Ht. rewrite lookup_empty in Ht.
    destruct (find_type m t) as [[-> Hnone]|(i & props & -> & Hsome)].
    + rewrite Hnone in Ht. by destruct (of_type t items).
    + rewrite Hsome in Ht. by destruct (of_type t items); simplify_eq/=.
  - intros k. rewrite add_parameters_required, elem_of_app. apply or_iff_compat_l.
    rewrite list_elem_of_omap. split.
    + intros ([t ps] & Hin & Hk). case_decide as Hreq; [done|]. injection Hk as <-.
      apply elem_of_hm_iter, Hm' in Hin as [_ ->].
      apply sub_schema_required in Hreq as (nm & s & Hp). exists t, nm, s. by rewrite <-elem_of_of_type.
    + intros (t & nm & s & -> & Hin). apply elem_of_of_type in Hin. exists (t, of_type t items). split.
      * apply elem_of_hm_iter, Hm'. split; [|done]. intros Hnil. by rewrite Hnil in Hin; apply elem_of_nil in Hin.
      * rewrite decide_False; [done|]. apply sub_schema_required. eauto.
Qed.
End schema_facts.

(** * A description of one operation *)

Module OpenApiExample.
#[local] Instance types_iter {V} : HashIter ParameterType V := hm_iter_default.

Definition to_value (s : Schema) : result Value string :=
  match s with mkSchema attrs _ => Ok (Object [("type", Num (PosInt attrs))]) end.

Definition scalar : ReferenceOr Schema := Item (mkSchema 1%N ScalarType).
Definition pet : ReferenceOr Schema :=
  Item (mkSchema 2%N (ObjectType [("name", Reference "#/components/schemas/Name")] None)).
Definition pet_ref : ReferenceOr Schema := Reference "#/components/schemas/Pet".

Definition parameter (w : ParameterIn) (name : string) (req : bool) : OaParameter :=
  {| par_in := w; par_name := name; par_description := None; par_required := req; par_format := PFSchema scalar |}.

Definition update_pet : Operation :=
  {| op_operation_id := Some "updatePet"; op_description := None; op_summary := Some "Update a pet";
     op_request_body := Some (Item {| rb_content := [("application/json", Some pet_ref)]; rb_required := true |});
     op_parameters := [Item (parameter InQuery "dry" false); Reference "#/components/parameters/id"] |}.

Definition doc : OpenAPI :=
  {| oa_servers := ["/v1"]; oa_paths := [("/pets/{id}", Item [("put", update_pet)])];
     oa_components := Some {|
       c_schemas := {[ "Pet" := pet; "Name" := scalar ]};
       c_parameters := {[ "id" := Item (parameter InPath "id" true) ]};
       c_request_bodies := ∅ |} |}.

(** A node refers to the next one. *)
Definition node_props : list (string * ReferenceOr Schema) := [("next", Reference "#/components/schemas/Node")].
Definition list_doc : OpenAPI :=
  {| oa_servers := []; oa_paths := [];
     oa_components := Some {|
       c_schemas := {[ "Node" := Item (mkSchema 3%N (ObjectType node_props None)) ]};
       c_parameters := ∅; c_request_bodies := ∅ |} |}.

Definition tool : Tool * UpstreamOpenAPICall :=
  match parse_operation to_value 5 doc "/pets/{id}" "put" update_pet with
  | Some (Ok t) => t
  | _ => ({| tool_name := ""; tool_description := None; input_schema := [] |}, {| oc_method := ""; oc_path := "" |})
  end.

(** The body is required twice. *)
Example tool_required :
  map_get (input_schema tool.1) "required" = Some (Array [Str "body"; Str "body"; Str "path"]).
Proof. vm_compute. reflexivity. Qed.

Example update_pet_parses : parse_openapi_schema to_value 5 doc = Some (Ok [tool]).
Proof. vm_compute. reflexivity. Qed.

Definition handler : Handler :=
  {| h_prefix := "/v1"; h_tools := [tool]; h_backend := SBOpaque "pets" (TgtHostname "pets.example" 80) |}.

Example update_uri :
  call_uri (λ _, "7") handler tool.2
    [("path", Object [("id", Num (PosInt 7))]); ("query", Object [("dry", Str "yes"); ("n", Num (PosInt 1))])]
  = "http://pets.example:80/v1/pets/7?dry=yes".
Proof. vm_compute. reflexivity. Qed.

(** Without a server in the description the path has two slashes. *)
Example default_prefix :
  call_uri (λ _, "") {| h_prefix := "/"; h_tools := []; h_backend := SBOpaque "pets" (TgtHostname "pets.example" 80) |}
    {| oc_method := "get"; oc_path := "/pets" |} []
  = "http://pets.example:80//pets" ∧ get_server_prefix list_doc = Ok "/".
Proof. split; vm_compute; reflexivity. Qed.

(** The name of a pet is resolved. *)
Lemma openapi_resolution_terminates_witness :
  (∃ r fuel0, ∀ fuel, fuel0 ≤ fuel → resolve_nested_schema fuel pet_ref doc = Some r) ∧
  let s := mkSchema 2%N (ObjectType [("name", scalar)] None) in
  resolve_nested_schema 5 pet_ref doc = Some (Ok s) ∧ resolves doc pet_ref s ∧ closed (Item s).
Proof.
  assert (unfolds doc pet_ref) as H.
  { apply unfolds_ref. intros s Hs. vm_compute in Hs. injection Hs as <-. apply unfolds_item.
    intros c Hc. apply list_elem_of_singleton in Hc as ->. apply unfolds_ref. intros s Hs.
    vm_compute in Hs. injection Hs as <-. apply unfolds_item. intros c Hc. by apply elem_of_nil in Hc. }
  split; [exact (proj1 (openapi_resolution_terminates doc pet_ref) H)|]. split; [reflexivity|].
  exact (proj2 (proj2 (openapi_resolution_terminates doc pet_ref) 5 _ eq_refl)).
Defined.

Lemma openapi_additional_properties_witness :
  let schema := mkSchema 1%N (ObjectType [] (Some (APSchema pet_ref))) in
  resolve_nested_schema 2 (Item schema) doc = Some (Ok schema).
Proof. exact (openapi_additional_properties doc 1%N "#/components/schemas/Pet" 2 (le_n 2)). Defined.

Lemma openapi_recursive_schema_witness :
  ∀ fuel, resolve_nested_schema fuel (Reference "#/components/schemas/Node") list_doc = None.
Proof. apply (openapi_recursive_schema list_doc "Node" 3%N node_props "next"); reflexivity. Defined.

Lemma openapi_path_params_witness :
  foldl (substitute (λ _, "7")) "/pets/{id}/toys/{toy}" [("toy", Str "ball"); ("id", Num (PosInt 7))]
    = "/pets/7/toys/ball".
Proof.
  apply (openapi_path_params (λ _, "7") [Lit "/pets/"; Param "id"; Lit "/toys/"; Param "toy"]).
  - repeat constructor.
  - apply (bool_decide_unpack _). vm_compute. exact I.
  - repeat constructor; intros r [= <-]; constructor.
Defined.

Lemma openapi_arguments_ambiguous_witness :
  call_uri (λ _, "") handler {| oc_method := "get"; oc_path := "/pets/{id}" |} [("path", Object [("id", Str "7?dry=no")])] =
  call_uri (λ _, "") handler {| oc_method := "get"; oc_path := "/pets/{id}" |}
    [("path", Object [("id", Str "7")]); ("query", Object [("dry", Str "no")])].
Proof.
  apply (proj2 (openapi_arguments_ambiguous (λ _, "") handler {| oc_method := "get"; oc_path := "/pets/{id}" |}
    "" "7" "dry" "no")) with (lit := "/pets/") (name := "id"); repeat constructor.
Defined.

Lemma openapi_tool_schema_witness :
  ∃ final base items,
    op_operation_id update_pet = Some (tool_name tool.1) ∧
    tool.2 = {| oc_method := "put"; oc_path := "/pets/{id}" |} ∧
    input_schema tool.1 = JsonSchema_to_object final ∧
    add_body to_value 5 doc update_pet = Some (Ok base) ∧
    Forall2 (parameter_of to_value 5 doc) (op_parameters update_pet) items ∧
    map_get (js_properties final) BODY_NAME = map_get (js_properties base) BODY_NAME ∧
    (∀ t, map_get (js_properties final) (ParameterType_to_string t) =
      match of_type t items with
      | [] => map_get (js_properties base) (ParameterType_to_string t)
      | props => Some (Object (JsonSchema_to_object (sub_schema props)))
      end) ∧
    (∀ k, k ∈ js_required final ↔
      k ∈ js_required base ∨ ∃ t name s, k = ParameterType_to_string t ∧ (t, (name, s, true)) ∈ items).
Proof. apply (openapi_tool_schema to_value 5 doc "/pets/{id}" "put" update_pet). vm_compute. reflexivity. Defined.
End OpenApiExample.
