(* ===== verification/McpRelay.v ===== *)
(** McpRelay: the MCP relay ([mcp/relay/mod.rs], [relay/pool.rs], [relay/upstream.rs]):
    one server for a client, made of the servers of a backend's targets.

    The protocol library's client and server loops are not under the repository: an
    upstream connection is a [Peer] with the answer [send_request] gives during the
    operation (the pool is locked for the whole of it), and the operations of the relay
    are the handlers the server loop calls; each returns what it sends ([Sends]).  Metrics
    and spans are left out. *)
From S2P Require Import Prelude Strs Json Http DiscoveryTypes AgentTypes Cel BindStore HttpProxy OpenApi.

(** * The protocol ([rmcp::model]) *)

Record ErrorData := { ed_code : Z; ed_message : string; ed_data : option Value }.
Definition invalid_request (message : string) : ErrorData :=
  {| ed_code := -32600; ed_message := message; ed_data := None |}.
Definition internal_error (message : string) : ErrorData :=
  {| ed_code := -32603; ed_message := message; ed_data := None |}.

(** What the relay only passes on is a value. *)
Record Prompt := { prompt_name : string; prompt_description : option string; prompt_arguments : option Value }.
Record Resource := { resource_uri : string; resource_rest : Value }.
Record ResourceTemplate := { rt_uri_template : string; rt_rest : Value }.

Record Paged (A : Type) := mkPaged { items : list A; next_cursor : option string }.
Arguments mkPaged {_} _ _.
Arguments items {_} _.
Arguments next_cursor {_} _.

(** A page of a listing is asked for by its cursor. *)
Definition PaginatedRequestParam := string.

Inductive ClientRequest :=
| ListToolsRequest (params : option PaginatedRequestParam)
| GetPromptRequest (name : string) (arguments : option (list (string * Value)))
| ListPromptsRequest (params : option PaginatedRequestParam)
| ListResourcesRequest (params : option PaginatedRequestParam)
| ListResourceTemplatesRequest (params : option PaginatedRequestParam)
| ReadResourceRequest (uri : string)
| CallToolRequest (name : string) (arguments : option (list (string * Value))).

Record GetPromptResult := { gp_description : option string; gp_messages : list Value }.
Record CallToolResult := { ct_content : list Value; ct_is_error : option bool }.

Inductive ServerResult :=
| ListToolsResult (r : Paged Tool)
| RGetPrompt (r : GetPromptResult)
| ListPromptsResult (r : Paged Prompt)
| ListResourcesResult (r : Paged Resource)
| ListResourceTemplatesResult (r : Paged ResourceTemplate)
| ReadResourceResult (contents : list Value)
| RCallTool (r : CallToolResult)
| OtherResult.

(** * Upstreams ([upstream.rs]) *)

Inductive ServiceError :=
| SEMcpError (e : ErrorData)
| SETimeout (timeout : string)
| SECancelled (reason : option string)
| SEUnexpectedResponse
| SETransportSend (e : string)
| SEOther.

Inductive UpstreamError := UServiceError (e : ServiceError) | UOpenAPIError (e : string).

Definition error_code (self : UpstreamError) : string :=
  match self with
  | UServiceError e =>
    match e with
    | SEMcpError _ => "mcp_error"
    | SETimeout _ => "timeout"
    | SECancelled reason => default "cancelled" reason
    | SEUnexpectedResponse => "unexpected_response"
    | SETransportSend _ => "transport_error"
    | SEOther => "unknown"
    end
  | UOpenAPIError _ => "openapi_error"
  end.

Definition ErrorData_from (value : UpstreamError) : ErrorData :=
  match value with
  | UOpenAPIError e => internal_error e
  | UServiceError e =>
    match e with
    | SEMcpError e => e
    | SETimeout timeout => internal_error ("request timed out after " +:+ timeout)
    | SECancelled (Some reason) => internal_error reason
    | SECancelled None => internal_error "unknown reason"
    | SEUnexpectedResponse => internal_error "unexpected response"
    | SETransportSend e => internal_error e
    | SEOther => internal_error "unknown error"
    end
  end.

Inductive FilterMatcher :=
| FEquals (m : string) | FPrefix (m : string) | FSuffix (m : string) | FContains (m : string) | FRegex (m : string).

Definition FilterMatcher_matches (is_match : string → string → bool) (self : FilterMatcher) (value : string) : bool :=
  match self with
  | FEquals m => Str.eqb value m
  | FPrefix m => Str.starts_with m value
  | FSuffix m => Str.ends_with m value
  | FContains m => Str.contains m value
  | FRegex m => is_match m value
  end.

Section upstream.
Context {Peer : Type}.

Inductive UpstreamTarget := UMcp (m : Peer) | UOpenAPI (m : Handler).

Context (send_request : Peer → ClientRequest → result ServerResult ServiceError).
(** [Handler::call_tool] *)
Context (openapi_call : Handler → string → option (list (string * Value)) → result string string).

(** What leaves the relay: a request to an upstream server, or the call of an
    operation of an API.  The operations return what they send, in order, beside their
    result. *)
Inductive Sending :=
| SentMcp (m : Peer) (request : ClientRequest)
| SentApi (m : Handler) (name : string) (arguments : option (list (string * Value))).
Definition Sends (A : Type) : Type := list Sending * A.

Definition silent {A} (r : A) : Sends A := ([], r).
Definition sends_map {A B} (f : A → B) (m : Sends A) : Sends B := (m.1, f m.2).
(** [?] after something was sent. *)
Definition sends_bind {A B E} (m : Sends (result A E)) (f : A → Sends (result B E)) : Sends (result B E) :=
  match m with
  | (sent, Ok a) => let '(sent', r) := f a in (sent ++ sent', r)
  | (sent, Err e) => (sent, Err e)
  end.

(** Asking an upstream server, and the answer it must give. *)
Definition ask {A} (m : Peer) (request : ClientRequest) (answer : ServerResult → option A)
    : Sends (result A UpstreamError) :=
  ([SentMcp m request],
   let? r := map_err UServiceError (send_request m request) in
   ok_or (answer r) (UServiceError SEUnexpectedResponse)).

Definition target_list_tools (self : UpstreamTarget) (request : option PaginatedRequestParam)
    : Sends (result (Paged Tool) UpstreamError) :=
  match self with
  | UMcp m => ask m (ListToolsRequest request) (λ r, match r with ListToolsResult r => Some r | _ => None end)
  | UOpenAPI m => silent (Ok (mkPaged (tools m) None))
  end.

Definition target_get_prompt (self : UpstreamTarget) (name : string) (arguments : option (list (string * Value)))
    : Sends (result GetPromptResult UpstreamError) :=
  match self with
  | UMcp m => ask m (GetPromptRequest name arguments) (λ r, match r with RGetPrompt r => Some r | _ => None end)
  | UOpenAPI _ => silent (Ok {| gp_description := None; gp_messages := [] |})
  end.

Definition target_list_prompts (self : UpstreamTarget) (request : option PaginatedRequestParam)
    : Sends (result (Paged Prompt) UpstreamError) :=
  match self with
  | UMcp m => ask m (ListPromptsRequest request) (λ r, match r with ListPromptsResult r => Some r | _ => None end)
  | UOpenAPI _ => silent (Ok (mkPaged [] None))
  end.

Definition target_list_resources (self : UpstreamTarget) (request : option PaginatedRequestParam)
    : Sends (result (Paged Resource) UpstreamError) :=
  match self with
  | UMcp m => ask m (ListResourcesRequest request) (λ r, match r with ListResourcesResult r => Some r | _ => None end)
  | UOpenAPI _ => silent (Ok (mkPaged [] None))
  end.

Definition target_list_resource_templates (self : UpstreamTarget) (request : option PaginatedRequestParam)
    : Sends (result (Paged ResourceTemplate) UpstreamError) :=
  match self with
  | UMcp m =>
    ask m (ListResourceTemplatesRequest request)
      (λ r, match r with ListResourceTemplatesResult r => Some r | _ => None end)
  | UOpenAPI _ => silent (Ok (mkPaged [] None))
  end.

Definition target_read_resource (self : UpstreamTarget) (uri : string) : Sends (result (list Value) UpstreamError) :=
  match self with
  | UMcp m => ask m (ReadResourceRequest uri) (λ r, match r with ReadResourceResult r => Some r | _ => None end)
  | UOpenAPI _ => silent (Ok [])
  end.

(** [Content::text] *)
Definition text_content (s : string) : Value := Object [("type", Str "text"); ("text", Str s)].

Definition target_call_tool (self : UpstreamTarget) (name : string) (arguments : option (list (string * Value)))
    : Sends (result CallToolResult UpstreamError) :=
  match self with
  | UMcp m => ask m (CallToolRequest name arguments) (λ r, match r with RCallTool r => Some r | _ => None end)
  | UOpenAPI m =>
    ([SentApi m name arguments],
     let? res := map_err UOpenAPIError (openapi_call m name arguments) in
     Ok {| ct_content := [text_content res]; ct_is_error := None |})
  end.
End upstream.
Arguments UpstreamTarget : clear implicits.
Arguments Sending : clear implicits.
Arguments Sends : clear implicits.

(** * The pool of connections ([pool.rs]) *)

Section pool.
Context {Peer : Type}.

(** [McpTarget] of [sse.rs]: a target with the policies for calls to it. *)
Record PoolTarget := { pt_name : string; pt_spec : McpTargetSpec; pt_policies : BackendPolicies }.

Record ConnectionPool := mkPool { cp_targets : list PoolTarget; by_name : gmap string (UpstreamTarget Peer) }.
Definition ConnectionPool_new (backend : list PoolTarget) : ConnectionPool := mkPool backend ∅.

Definition pool_get (self : ConnectionPool) (name : string) : result (UpstreamTarget Peer) string :=
  ok_or (by_name self !! name) ("requested target " +:+ name +:+ " is not initialized").

Definition pool_remove (self : ConnectionPool) (name : string) : ConnectionPool * option (UpstreamTarget Peer) :=
  (mkPool (cp_targets self) (delete name (by_name self)), by_name self !! name).

Definition pool_list (self : ConnectionPool) : list (string * UpstreamTarget Peer) :=
  omap (λ tgt, pair (pt_name tgt) <$> by_name self !! pt_name tgt) (cp_targets self).

Section connect.
(** How a connection to a server is opened: with the backend, the policies for it and
    the text of its endpoint, or as a process.  The resolution of backends is [resolve_simple_backend]. *)
Inductive Endpoint :=
| EpSse (be : SimpleBackend) (policies : BackendPolicies) (sse_endpoint : string)
| EpStreamable (be : SimpleBackend) (policies : BackendPolicies) (uri : string)
| EpProcess (cmd : string) (args : list string) (env : gmap string string).
Context (serve_client : Endpoint → result Peer string).
Context (resolve : SimpleBackendReference → result SimpleBackend ProxyError) (proxy_error : ProxyError → string).
Context (schema_of : Handle → OpenAPI) (to_value : Schema → result Value string) (parse_error : ParseError → string).
Context `{!HashIter OpenApi.ParameterType (list (string * list (string * Value) * bool))}.

Definition or_default (path default : string) : string := match path with "" => default | _ => path end.

(** The connection to a target; [None] when the description of an API is not resolved
    within the fuel. *)
Definition connect_target (fuel : nat) (target : PoolTarget) : option (result (UpstreamTarget Peer) string) :=
  match pt_spec target with
  | McpSse backend path =>
    Some (let? be := map_err proxy_error (resolve backend) in
          let? peer := serve_client (EpSse be (pt_policies target) ("http://" +:+ hostport be +:+ or_default path "/sse")) in
          Ok (UMcp peer))
  | McpMcp backend path =>
    Some (let? be := map_err proxy_error (resolve backend) in
          let? peer := serve_client (EpStreamable be (pt_policies target) (or_default path "/mcp")) in Ok (UMcp peer))
  | McpStdio cmd args env => Some (let? peer := serve_client (EpProcess cmd args env) in Ok (UMcp peer))
  | McpOpenAPI backend schema =>
    match parse_openapi_schema to_value fuel (schema_of schema) with
    | None => None
    | Some tools =>
      Some (let? tools := map_err parse_error tools in
            let? prefix := map_err parse_error (get_server_prefix (schema_of schema)) in
            let? be := map_err proxy_error (resolve backend) in
            Ok (UOpenAPI {| h_prefix := prefix; h_tools := tools; h_backend := be |}))
    end
  end.

Definition connect (fuel : nat) (self : ConnectionPool) (target : PoolTarget)
    : option (ConnectionPool * result () string) :=
  match by_name self !! pt_name target with
  | Some _ => Some (self, Ok ())
  | None =>
    r ← connect_target fuel target;
    match r with
    | Ok transport => Some (mkPool (cp_targets self) (<[pt_name target := transport]> (by_name self)), Ok ())
    | Err e => Some (self, Err e)
    end
  end.

(** The loop of [initialize]: what was connected before a failure stays. *)
Fixpoint initialize_targets (fuel : nat) (self : ConnectionPool) (targets : list PoolTarget)
    : option (ConnectionPool * result () string) :=
  match targets with
  | [] => Some (self, Ok ())
  | tgt :: targets =>
    if decide (is_Some (by_name self !! pt_name tgt))
    then Some (self, Err ("connection " +:+ pt_name tgt +:+ " already initialized"))
    else
      '(self, r) ← connect fuel self tgt;
      match r with
      | Ok _ => initialize_targets fuel self targets
      | Err e => Some (self, Err e)
      end
  end.

Definition pool_initialize (fuel : nat) (self : ConnectionPool)
    : option (ConnectionPool * result (list (string * UpstreamTarget Peer)) string) :=
  '(self, r) ← initialize_targets fuel self (cp_targets self);
  Some (self, let? _ := r in Ok (pool_list self)).
End connect.
End pool.
Arguments ConnectionPool : clear implicits.

(** * The relay ([relay/mod.rs]) *)

Definition DELIMITER : ascii := "_".

(** [MCPInfo]: what the request log learns. *)
Record MCPInfo := { tool_call_name : option string; target_name : option string }.

(** The extensions of a message: the parts of the HTTP request it came with. *)
Record Identity := { id_claims : option Claims; connection_id : option string }.

Section relay.
Context `{!HeaderMapOps, !CelEngine} {Peer : Type}.
Context (send_request : Peer → ClientRequest → result ServerResult ServiceError).
Context (openapi_call : Handler → string → option (list (string * Value)) → result string string).

Record Relay := mkRelay {
  pool : ConnectionPool Peer;
  policies : list RuleSet;
  default_target_name : option string
}.

Record Parts := {
  pa_claims : option Claims;
  pa_src_identity : option string;
  pa_log : option MCPInfo;
  pa_cel : option ContextBuilder
}.

Definition Relay_new (targets : list PoolTarget) (policies : list RuleSet) : Relay :=
  mkRelay (ConnectionPool_new targets) policies
    (match targets with [t] => Some (pt_name t) | _ => None end).

Definition parse_resource_name (self : Relay) (res : string) : result (string * string) ErrorData :=
  match default_target_name self with
  | Some default => Ok (default, res)
  | None => ok_or (Str.split_once DELIMITER res) (invalid_request "invalid resource name")
  end.

Definition resource_name (self : Relay) (target name : string) : string :=
  match default_target_name self with
  | None => target +:+ String DELIMITER name
  | Some _ => name
  end.

(** Who asks, the log and the context of expressions; the code panics without the
    latter. *)
Definition setup_request_log (ext : option Parts) : comp (result (Identity * MCPInfo * ContextBuilder) ErrorData) :=
  match ext with
  | None => Ret (Err (internal_error "failed to extract parts"))
  | Some parts =>
    cel ← expect (pa_cel parts);
    Ret (Ok ({| id_claims := pa_claims parts; connection_id := pa_src_identity parts |},
             default {| tool_call_name := None; target_name := None |} (pa_log parts), cel))
  end.

Definition setup_request (ext : option Parts) : comp (result Identity ErrorData) :=
  r ← setup_request_log ext;
  Ret (let? (rq, _, _) := r in Ok rq).

(** After [setup_request]. *)
Definition with_setup {A} (ext : option Parts) (k : ContextBuilder → Sends Peer (result A ErrorData))
    : comp (Sends Peer (result A ErrorData)) :=
  r ← setup_request_log ext;
  Ret (sends_bind (silent r) (λ '(_, _, cel), k cel)).

Definition remove_target (self : Relay) (name : string) : Relay :=
  mkRelay (fst (pool_remove (pool self) name)) (policies self) (default_target_name self).

(** The successful answers of all connections, in the order of the targets; failures
    are dropped.  All are asked, in that order and without waiting for answers. *)
Definition gather {A B} (self : Relay) (f : string → UpstreamTarget Peer → Sends Peer (result (list A) B))
    : Sends Peer (list A) :=
  (concat ((λ '(name, svc), (f name svc).1) <$> pool_list (pool self)),
   concat (omap (λ '(name, svc), match (f name svc).2 with Ok l => Some l | Err _ => None end)
             (pool_list (pool self)))).

Definition list_resources (self : Relay) (request : option PaginatedRequestParam) (ext : option Parts)
    : comp (Sends Peer (result (Paged Resource) ErrorData)) :=
  with_setup ext (λ _,
    sends_map (λ l, Ok (mkPaged l None)) (gather self (λ _ svc,
      sends_map (λ r, let? r := r in Ok (items r)) (target_list_resources send_request svc request)))).

Definition list_resource_templates (self : Relay) (request : option PaginatedRequestParam) (ext : option Parts)
    : comp (Sends Peer (result (Paged ResourceTemplate) ErrorData)) :=
  with_setup ext (λ _,
    sends_map (λ l, Ok (mkPaged l None)) (gather self (λ _ svc,
      sends_map (λ r, let? r := r in Ok (items r)) (target_list_resource_templates send_request svc request)))).

Definition list_prompts (self : Relay) (request : option PaginatedRequestParam) (ext : option Parts)
    : comp (Sends Peer (result (Paged Prompt) ErrorData)) :=
  with_setup ext (λ _,
    sends_map (λ l, Ok (mkPaged l None)) (gather self (λ name svc,
      sends_map (λ r, let? r := r in
        Ok ((λ p, {| prompt_name := resource_name self name (prompt_name p);
                     prompt_description := prompt_description p;
                     prompt_arguments := prompt_arguments p |}) <$> items r))
        (target_list_prompts send_request svc request)))).

Definition list_tools (self : Relay) (request : option PaginatedRequestParam) (ext : option Parts)
    : comp (Sends Peer (result (Paged Tool) ErrorData)) :=
  with_setup ext (λ cel,
    sends_map (λ l, Ok (mkPaged l None)) (gather self (λ name svc,
      sends_map (λ r, let? r := r in
        Ok ((λ t, {| tool_name := resource_name self name (tool_name t);
                     tool_description := tool_description t; input_schema := input_schema t |}) <$>
            filter (λ t, RuleSets_validate (policies self)
                           (RTool {| ri_target := name; ri_id := tool_name t |}) cel = true)
              (items r)))
        (target_list_tools send_request svc request)))).

(** Authorization, and the connection, for a name that a client uses. *)
Definition authorized (self : Relay) (service_name : string) (resource : ResourceType) (cel : ContextBuilder)
    : result (UpstreamTarget Peer) ErrorData :=
  if RuleSets_validate (policies self) resource cel then
    map_err (λ _, invalid_request ("Service " +:+ service_name +:+ " not found"))
      (pool_get (pool self) service_name)
  else Err (invalid_request "not allowed").

Definition read_resource (self : Relay) (uri : string) (ext : option Parts)
    : comp (Sends Peer (result (list Value) ErrorData)) :=
  with_setup ext (λ cel,
    sends_bind (silent (parse_resource_name self uri)) (λ '(service_name, resource),
    sends_bind
      (silent (authorized self service_name (RResource {| ri_target := service_name; ri_id := resource |}) cel)) (λ svc,
    sends_map (map_err ErrorData_from) (target_read_resource send_request svc resource)))).

Definition get_prompt (self : Relay) (name : string) (arguments : option (list (string * Value))) (ext : option Parts)
    : comp (Sends Peer (result GetPromptResult ErrorData)) :=
  with_setup ext (λ cel,
    sends_bind (silent (parse_resource_name self name)) (λ '(service_name, prompt),
    sends_bind
      (silent (authorized self service_name (RPrompt {| ri_target := service_name; ri_id := prompt |}) cel)) (λ svc,
    sends_map (map_err ErrorData_from) (target_get_prompt send_request svc prompt arguments)))).

(** With what the log then has. *)
Definition call_tool (self : Relay) (name : string) (arguments : option (list (string * Value))) (ext : option Parts)
    : comp (Sends Peer (result CallToolResult ErrorData) * option MCPInfo) :=
  r ← setup_request_log ext;
  match r with
  | Err e => Ret (silent (Err e), None)
  | Ok (_, log, cel) =>
    match parse_resource_name self name with
    | Err e => Ret (silent (Err e), Some log)
    | Ok (service_name, tool) =>
      let log := {| tool_call_name := Some tool; target_name := Some service_name |} in
      Ret (sends_bind
             (silent (authorized self service_name (RTool {| ri_target := service_name; ri_id := tool |}) cel)) (λ svc,
           sends_map (map_err ErrorData_from) (target_call_tool send_request openapi_call svc tool arguments)),
           Some log)
    end
  end.

Section initialize.
Context (serve_client : Endpoint → result Peer string).
Context (resolve : SimpleBackendReference → result SimpleBackend ProxyError) (proxy_error : ProxyError → string).
Context (schema_of : Handle → OpenAPI) (to_value : Schema → result Value string) (parse_error : ParseError → string).
Context `{!HashIter OpenApi.ParameterType (list (string * list (string * Value) * bool))}.

(** The static information about the gateway is left out of the answer. *)
Definition initialize (fuel : nat) (self : Relay) (ext : option Parts) : comp (option (Relay * result () ErrorData)) :=
  r ← setup_request ext;
  Ret match r with
      | Err e => Some (self, Err e)
      | Ok _ =>
        '(pool, r) ← pool_initialize serve_client resolve proxy_error schema_of to_value parse_error fuel (pool self);
        Some (mkRelay pool (policies self) (default_target_name self),
              match r with
              | Ok _ => Ok ()
              | Err e => Err (internal_error ("Failed to list connections: " +:+ e))
              end)
      end.
End initialize.
End relay.

(** * Initialization *)

Section pool_facts.
Context {Peer : Type} (serve_client : Endpoint → result Peer string).
Context (resolve : SimpleBackendReference → result SimpleBackend ProxyError) (proxy_error : ProxyError → string).
Context (schema_of : Handle → OpenAPI) (to_value : Schema → result Value string) (parse_error : ParseError → string).
Context `{!HashIter OpenApi.ParameterType (list (string * list (string * Value) * bool))}.

#[local] Abbreviation connect' := (connect serve_client resolve proxy_error schema_of to_value parse_error).
#[local] Abbreviation init_targets :=
  (initialize_targets serve_client resolve proxy_error schema_of to_value parse_error).
#[local] Abbreviation init := (pool_initialize serve_client resolve proxy_error schema_of to_value parse_error).

Definition names (l : list PoolTarget) : gset string := list_to_set (pt_name <$> l).

Lemma names_nil (s : gset string) : s ∪ names [] = s.
Proof. unfold names. set_solver. Qed.

Lemma connect_spec fuel self tgt self' r :
  by_name self !! pt_name tgt = None → connect' fuel self tgt = Some (self', r) →
  cp_targets self' = cp_targets self ∧
  match r with
  | Ok _ => ∃ t, by_name self' = <[pt_name tgt := t]> (by_name self)
  | Err _ => self' = self
  end.
Proof.
  unfold connect. intros -> (c & _ & H)%bind_Some.
  destruct c as [t|e]; simplify_eq/=; [eauto|done].
Qed.

Lemma initialize_targets_spec fuel self l self' r :
  init_targets fuel self l = Some (self', r) →
  cp_targets self' = cp_targets self ∧
  ∃ done rest, l = done ++ rest ∧ dom (by_name self') = dom (by_name self) ∪ names done ∧
    match r with Ok _ => rest = [] | Err _ => rest ≠ [] end.
Proof.
  revert self. induction l as [|tgt l IH]; intros self H; simpl in H.
  - simplify_eq. split; [done|]. exists [], []. by rewrite names_nil.
  - case_decide as Hin; [simplify_eq; split; [done|]; exists [], (tgt :: l); by rewrite names_nil|].
    apply eq_None_not_Some in Hin.
    destruct (connect' fuel self tgt) as [[self1 r1]|] eqn:Hc; simplify_eq/=.
    destruct (connect_spec _ _ _ _ _ Hin Hc) as [Htgts Hr1]. destruct r1 as [u|e].
    + destruct Hr1 as [t Ht]. destruct (IH _ H) as (Htgts' & done & rest & -> & Hdom & Hr).
      split; [congruence|]. exists (tgt :: done), rest. split_and!; [done| |done].
      rewrite Hdom, Ht. unfold names. set_solver.
    + simplify_eq. split; [done|]. exists [], (tgt :: l). by rewrite names_nil.
Qed.

Lemma pool_list_all self :
  (∀ t, t ∈ cp_targets self → is_Some (by_name self !! pt_name t)) →
  (@pool_list Peer self).*1 = pt_name <$> cp_targets self.
Proof.
  unfold pool_list. induction (cp_targets self) as [|t l IH]; intros Hall; [done|].
  destruct (Hall t) as [svc Hsvc]; [set_solver|]. cbn [omap list_omap]. rewrite Hsvc. csimpl.
  f_equal. apply IH. set_solver.
Qed.

(** Initialization connects the targets in their order and stops at the first that
    fails.  After a success every target has its connection, in the order of the
    backend; whatever was connected stays, also after a failure, and then every later
    initialization fails at the first target. *)
Theorem relay_pool_initialize fuel targets self' r :
  init fuel (ConnectionPool_new targets) = Some (self', r) →
  cp_targets self' = targets ∧
  (∃ done rest, targets = done ++ rest ∧ dom (by_name self') = names done ∧
    match r with
    | Ok connections => rest = [] ∧ connections = pool_list self' ∧ connections.*1 = pt_name <$> targets
    | Err _ => rest ≠ []
    end ∧
    (done ≠ [] → ∀ fuel', ∃ e, init fuel' self' = Some (self', Err e))).
Proof.
  unfold pool_initialize. intros ([self1 r1] & H & Heq)%bind_Some. simplify_eq/=.
  destruct (initialize_targets_spec _ _ _ _ _ H) as (Htgts & done & rest & Hl & Hdom & Hr).
  simpl in Htgts, Hdom, Hl. rewrite dom_empty_L, union_empty_l_L in Hdom.
  split; [done|]. exists done, rest. split_and!; [done..| |].
  - destruct r1 as [u|e]; simpl; [|done]. subst rest. split_and!; [done..|]. rewrite <-Htgts.
    apply pool_list_all. intros t Ht. apply elem_of_dom. rewrite Hdom. unfold names.
    apply elem_of_list_to_set, list_elem_of_fmap_2. rewrite app_nil_r in Hl. congruence.
  - intros Hne fuel'. destruct done as [|t done]; [done|]. rewrite Htgts, Hl. simpl.
    rewrite decide_True; [by eexists|]. apply elem_of_dom. rewrite Hdom. unfold names. set_solver.
Qed.
End pool_facts.

(** * Names *)

Section relay_facts.
Context `{!HeaderMapOps, !CelEngine} {Peer : Type}.
Implicit Types (self : @Relay Peer).

(** A relay is made for its targets; every operation keeps them. *)
Definition Relay_wf self : Prop :=
  default_target_name self = match cp_targets (pool self) with [t] => Some (pt_name t) | _ => None end.

(** With several targets, no name has the delimiter. *)
Definition names_plain self : Prop :=
  default_target_name self = None →
  ∀ t, t ∈ cp_targets (pool self) → Str.contains_char DELIMITER (pt_name t) = false.

Lemma parse_plain self target name :
  default_target_name self = None → Str.contains_char DELIMITER target = false →
  parse_resource_name self (target +:+ String DELIMITER name) = Ok (target, name).
Proof.
  intros Hd Ht. unfold parse_resource_name. rewrite Hd.
  by rewrite (proj2 (Str.split_once_Some DELIMITER _ target name)).
Qed.

Lemma elem_of_pool_list (p : ConnectionPool Peer) name svc :
  (name, svc) ∈ pool_list p ↔ (∃ t, t ∈ cp_targets p ∧ pt_name t = name) ∧ by_name p !! name = Some svc.
Proof.
  unfold pool_list. rewrite list_elem_of_omap. split.
  - intros (t & Ht & Hp). destruct (by_name p !! pt_name t) eqn:Hsvc; simplify_eq/=. eauto.
  - intros ((t & Ht & <-) & Hsvc). exists t. by rewrite Hsvc.
Qed.

Lemma resource_name_parse self name svc id :
  Relay_wf self → names_plain self → (name, svc) ∈ pool_list (pool self) →
  parse_resource_name self (resource_name self name id) = Ok (name, id).
Proof.
  intros Hwf Hplain [(t & Ht & <-) Hsvc]%elem_of_pool_list. unfold resource_name.
  destruct (default_target_name self) as [d|] eqn:Hd.
  - unfold parse_resource_name. rewrite Hd. unfold Relay_wf in Hwf.
    destruct (cp_targets (pool self)) as [|t' []]; simplify_eq. by apply list_elem_of_singleton in Ht as ->.
  - apply parse_plain; auto.
Qed.

Lemma elem_of_gather {A B} self (f : string → UpstreamTarget Peer → Sends Peer (result (list A) B)) x :
  x ∈ (gather self f).2 ↔
  ∃ name svc l, (name, svc) ∈ pool_list (pool self) ∧ (f name svc).2 = Ok l ∧ x ∈ l.
Proof.
  unfold gather. cbn [snd]. rewrite elem_of_concat. split.
  - intros (l & Hx & ([name svc] & Hin & Hl)%list_elem_of_omap).
    destruct ((f name svc).2) as [l'|] eqn:E; simplify_eq/=. by exists name, svc, l.
  - intros (name & svc & l & Hin & Hl & Hx). exists l. split; [done|]. apply list_elem_of_omap. exists (name, svc). by rewrite Hl.
Qed.

Lemma Ret_inj {A} (a b : A) : Ret a = Ret b → a = b.
Proof. by intros [=]. Qed.

Lemma with_setup_cel {A} parts cel (k : ContextBuilder → Sends Peer (result A ErrorData)) :
  pa_cel parts = Some cel → with_setup (Some parts) k = Ret (k cel).
Proof.
  intros Hcel. unfold with_setup, setup_request_log. rewrite Hcel. cbn. by destruct (k cel).
Qed.

Lemma listing_page {A} (g : Sends Peer (list A)) sent page :
  Ret (sends_map (λ l, Ok (E := ErrorData) (mkPaged l None)) g) = Ret (sent, Ok page) → page = mkPaged g.2 None.
Proof. by intros [= _ <-]. Qed.

Section upstreams.
Context (send_request : Peer → ClientRequest → result ServerResult ServiceError).
Context (openapi_call : Handler → string → option (list (string * Value)) → result string string).

(** A tool of a target that the policies permit. *)
Definition offered self (request : option PaginatedRequestParam) (cel : ContextBuilder)
    (name : string) (svc : UpstreamTarget Peer) (t : Tool) : Prop :=
  (name, svc) ∈ pool_list (pool self) ∧
  (∃ page, (target_list_tools send_request svc request).2 = Ok page ∧ t ∈ items page) ∧
  RuleSets_validate (policies self) (RTool {| ri_target := name; ri_id := tool_name t |}) cel = true.

(** C18: the tools of a relay, when no name of several targets has an underscore and
    for one page of each target's tools. They are those of its connected targets that
    the policies permit, each under a name of its target, and under the name with which
    a tool is listed it is called: the call reaches the target that has it, under its
    own name there, and the log names both. *)
Theorem relay_listed_tools self parts cel request sent page :
  Relay_wf self → names_plain self → pa_cel parts = Some cel →
  list_tools send_request self request (Some parts) = Ret (sent, Ok page) →
  (∀ name svc t, offered self request cel name svc t →
    {| tool_name := resource_name self name (tool_name t); tool_description := tool_description t;
       input_schema := input_schema t |} ∈ items page) ∧
  (∀ tool, tool ∈ items page → ∃ name svc t,
    offered self request cel name svc t ∧
    tool_description tool = tool_description t ∧ input_schema tool = input_schema t ∧
    ∀ arguments, call_tool send_request openapi_call self (tool_name tool) arguments (Some parts) =
      Ret (sends_map (map_err ErrorData_from) (target_call_tool send_request openapi_call svc (tool_name t) arguments),
           Some {| tool_call_name := Some (tool_name t); target_name := Some name |})).
Proof.
  intros Hwf Hplain Hcel Hlist. unfold list_tools in Hlist.
  rewrite (with_setup_cel _ _ _ Hcel) in Hlist. apply listing_page in Hlist as ->. cbn [items]. split.
  - intros name svc t (Hin & (p & Hp & Ht) & Hv). apply elem_of_gather. exists name, svc.
    unfold sends_map. cbn [snd]. rewrite Hp. eexists. split_and!; [done|done|]. apply list_elem_of_fmap. exists t.
    split; [done|]. by apply list_elem_of_filter.
  - intros tool (name & svc & l & Hin & Hl & Ht)%elem_of_gather. unfold sends_map in Hl. cbn [snd] in Hl.
    destruct ((target_list_tools send_request svc request).2) as [p|e] eqn:Hp; simplify_eq/=.
    apply list_elem_of_fmap in Ht as (t & -> & [Hv Ht]%list_elem_of_filter).
    exists name, svc, t. split_and!; [by split_and!; eauto|done|done|]. intros arguments.
    unfold call_tool, setup_request_log. rewrite Hcel. simpl.
    rewrite (resource_name_parse _ _ _ _ Hwf Hplain Hin). unfold authorized, pool_get. rewrite Hv.
    by apply elem_of_pool_list in Hin as [_ ->].
Qed.
End upstreams.

(** A target with the delimiter in its name: what it lists is taken for something of
    the target named by the part before the delimiter.  Without such a target the tool
    that is listed cannot be called; with one, the call goes there, and the permission
    that is checked is for that target. *)
Theorem relay_delimiter_in_target send_request openapi_call self parts cel target rest name arguments :
  default_target_name self = None → Str.contains_char DELIMITER target = false →
  pa_cel parts = Some cel →
  let listed := resource_name self (target +:+ String DELIMITER rest) name in
  let id := rest +:+ String DELIMITER name in
  parse_resource_name self listed = Ok (target, id) ∧
  call_tool send_request openapi_call self listed arguments (Some parts) =
    Ret (if RuleSets_validate (policies self) (RTool {| ri_target := target; ri_id := id |}) cel then
           match by_name (pool self) !! target with
           | Some svc =>
             sends_map (map_err ErrorData_from) (target_call_tool send_request openapi_call svc id arguments)
           | None => silent (Err (invalid_request ("Service " +:+ target +:+ " not found")))
           end
         else silent (Err (invalid_request "not allowed")),
         Some {| tool_call_name := Some id; target_name := Some target |}).
Proof.
  intros Hd Ht Hcel listed id.
  assert (parse_resource_name self listed = Ok (target, id)) as Hparse.
  { unfold listed, resource_name. rewrite Hd, Str.app_assoc, Str.app_cons. by apply parse_plain. }
  split; [done|]. unfold call_tool, setup_request_log. rewrite Hcel. simpl. rewrite Hparse.
  unfold authorized, pool_get. destruct (RuleSets_validate _ _ _); [|done].
  by destruct (by_name (pool self) !! target).
Qed.

(** Resources are listed with the URIs their servers give, whatever the policies.
    With several targets a listed resource can be read only when its URI happens to
    start with the name of a connected target and the delimiter. *)
Theorem relay_listed_resources send_request self parts cel request sent page r :
  default_target_name self = None → pa_cel parts = Some cel →
  list_resources send_request self request (Some parts) = Ret (sent, Ok page) →
  (r ∈ items page ↔ ∃ name svc l, (name, svc) ∈ pool_list (pool self) ∧
    (target_list_resources send_request svc request).2 = Ok l ∧ r ∈ items l) ∧
  ((∀ name rest, is_Some (by_name (pool self) !! name) → resource_uri r ≠ name +:+ String DELIMITER rest) →
    ∃ message, read_resource send_request self (resource_uri r) (Some parts) =
      Ret (silent (Err (invalid_request message)))).
Proof.
  intros Hd Hcel Hlist. unfold list_resources in Hlist.
  rewrite (with_setup_cel _ _ _ Hcel) in Hlist. apply listing_page in Hlist as ->. cbn [items]. split.
  - rewrite elem_of_gather. unfold sends_map. cbn [snd].
    split; intros (name & svc & l & Hin & Hl & Hr); exists name, svc.
    + destruct ((target_list_resources send_request svc request).2) as [p|e] eqn:Hp; simplify_eq/=. eauto.
    + rewrite Hl. simpl. eauto.
  - intros Hno. unfold read_resource, with_setup, setup_request_log. rewrite Hcel. simpl.
    unfold parse_resource_name. rewrite Hd.
    destruct (Str.split_once DELIMITER (resource_uri r)) as [[name rest]|] eqn:Hs; simpl; [|by eexists].
    apply Str.split_once_Some in Hs as [Hs _]. unfold authorized, pool_get.
    destruct (RuleSets_validate _ _ _); simpl; [|by eexists].
    destruct (by_name (pool self) !! name) as [svc|] eqn:Hsvc; simpl; [|by eexists].
    exfalso. by eapply Hno; [eexists|].
Qed.
(** What a client's call may send: nothing, and then it is an error; or, when the name
    stands for a thing of a connected target that the policies permit, what [to] says. *)
Definition guarded {A} self (ext : option Parts) (name : string) (resource : ResourceId → ResourceType)
    (to : UpstreamTarget Peer → string → list (Sending Peer)) (outcome : Sends Peer (result A ErrorData)) : Prop :=
  outcome.1 = [] ∧ is_ok outcome.2 = false ∨
  ∃ parts cel target id svc, ext = Some parts ∧ pa_cel parts = Some cel ∧
    parse_resource_name self name = Ok (target, id) ∧
    RuleSets_validate (policies self) (resource {| ri_target := target; ri_id := id |}) cel = true ∧
    by_name (pool self) !! target = Some svc ∧ outcome.1 = to svc id.

Lemma authorized_Ok self name resource cel svc :
  authorized self name resource cel = Ok svc →
  by_name (pool self) !! name = Some svc ∧ RuleSets_validate (policies self) resource cel = true.
Proof.
  unfold authorized, pool_get. destruct (RuleSets_validate _ _ _); [|done].
  by destruct (by_name (pool self) !! name); intros; simplify_eq/=.
Qed.

(** The shape of the three operations. *)
Lemma guarded_call {A} self parts cel name resource to (k : UpstreamTarget Peer → string → Sends Peer (result A ErrorData)) :
  pa_cel parts = Some cel → (∀ svc id, (k svc id).1 = to svc id) →
  guarded self (Some parts) name resource to
    (sends_bind (silent (parse_resource_name self name)) (λ '(service_name, id),
     sends_bind (silent (authorized self service_name (resource {| ri_target := service_name; ri_id := id |}) cel))
       (λ svc, k svc id))).
Proof.
  intros Hcel Hk. destruct (parse_resource_name self name) as [[target id]|e] eqn:Hp; [|by left].
  cbn [sends_bind silent]. destruct (authorized _ _ _ _) as [svc|e] eqn:Ha; [|by left].
  apply authorized_Ok in Ha as [Hsvc Hv]. right. exists parts, cel, target, id, svc. split_and!; [done..|].
  rewrite <-Hk. by destruct (k svc id).
Qed.

(** C17: what a client's calls send to the upstreams. A call of a tool, a prompt or a
    resource sends at most one request: the client's, under the name the target knows,
    over the connection of the target its name stands for, and only if the policies
    permit that thing of that target. Any other call sends nothing and is an error. So
    no name a client can use reaches an upstream past the policies. *)
Theorem relay_only_permitted send api self ext name arguments :
  (∀ outcome log, call_tool send api self name arguments ext = Ret (outcome, log) →
    guarded self ext name RTool (λ svc id,
      match svc with
      | UMcp m => [SentMcp m (CallToolRequest id arguments)]
      | UOpenAPI h => [SentApi h id arguments]
      end) outcome) ∧
  (∀ outcome, get_prompt send self name arguments ext = Ret outcome →
    guarded self ext name RPrompt (λ svc id,
      match svc with UMcp m => [SentMcp m (GetPromptRequest id arguments)] | UOpenAPI _ => [] end) outcome) ∧
  (∀ outcome, read_resource send self name ext = Ret outcome →
    guarded self ext name RResource (λ svc id,
      match svc with UMcp m => [SentMcp m (ReadResourceRequest id)] | UOpenAPI _ => [] end) outcome).
Proof.
  destruct ext as [parts|]; [|split_and!; [intros o log [= <- _]|intros o [= <-]..]; by left].
  destruct (pa_cel parts) as [cel|] eqn:Hcel.
  2:{ unfold call_tool, get_prompt, read_resource, with_setup, setup_request_log. by rewrite Hcel. }
  split_and!.
  - intros outcome log. unfold call_tool, setup_request_log. rewrite Hcel. cbn [expect mbind comp_mbind].
    pose proof (guarded_call self parts cel name RTool
      (λ svc id, match svc with
                 | UMcp m => [SentMcp m (CallToolRequest id arguments)]
                 | UOpenAPI h => [SentApi h id arguments]
                 end)
      (λ svc id, sends_map (map_err ErrorData_from) (target_call_tool send api svc id arguments)) Hcel
      ltac:(by intros [])) as Hg.
    destruct (parse_resource_name self name) as [[target id]|e]; cbn [sends_bind silent] in Hg; intros [= <- _];
      [|by left].
    destruct (authorized _ _ _ _) as [[m|h]|e]; cbn [sends_bind silent] in *; exact Hg.
  - intros outcome. unfold get_prompt. rewrite (with_setup_cel _ _ _ Hcel). intros <-%Ret_inj.
    apply (guarded_call self parts cel name RPrompt _
      (λ svc id, sends_map (map_err ErrorData_from) (target_get_prompt send svc id arguments)) Hcel). by intros [].
  - intros outcome. unfold read_resource. rewrite (with_setup_cel _ _ _ Hcel). intros <-%Ret_inj.
    apply (guarded_call self parts cel name RResource _
      (λ svc id, sends_map (map_err ErrorData_from) (target_read_resource send svc id)) Hcel). by intros [].
Qed.
End relay_facts.

(** * A relay of two servers and an API *)

Module RelayExample.
#[local] Existing Instance gmap_headers.
#[local] Existing Instance OpenApiExample.types_iter.

(** Expressions are the names of tools and targets that they permit. *)
#[local] Instance engine : CelEngine := {|
  Executor := option ResourceType;
  build_with_mcp _ r := Some r;
  eval r e :=
    Some (CBool match r with
                | Some (RTool id) => Str.eqb (ri_id id) (original_expression e)
                | _ => false
                end);
  value_json _ := None
|}.

Definition rule (tool : string) : RuleSet :=
  {| rules := [{| original_expression := tool; expr_attributes := ∅ |}] |}.

(** A server answers with its name. *)
Definition echo (name : string) : Tool := {| tool_name := "echo"; tool_description := Some name; input_schema := [] |}.
Definition drop_tool : Tool := {| tool_name := "drop"; tool_description := None; input_schema := [] |}.
Definition send (peer : string) (request : ClientRequest) : result ServerResult ServiceError :=
  match request with
  | ListToolsRequest _ => Ok (ListToolsResult (mkPaged [echo peer; drop_tool] None))
  | ListResourcesRequest _ =>
    Ok (ListResourcesResult (mkPaged [{| resource_uri := "file:///etc/hosts"; resource_rest := Null |}] None))
  | CallToolRequest id _ => Ok (RCallTool {| ct_content := [Str (peer +:+ "/" +:+ id)]; ct_is_error := None |})
  | _ => Err SEOther
  end.
Definition api (h : Handler) (name : string) (arguments : option (list (string * Value))) : result string string :=
  Err "tool not found".

Definition target (name : string) (spec : McpTargetSpec) : PoolTarget :=
  {| pt_name := name; pt_spec := spec; 
     pt_policies := {| bp_backend_tls := None; bp_backend_auth := None; bp_a2a := None; bp_llm_provider := None;
                       bp_llm := None |} |}.
Definition targets : list PoolTarget :=
  [ target "time" (McpStdio "time" [] ∅); target "disk" (McpMcp SBRInvalid "");
    target "pets" (McpOpenAPI SBRInvalid 1%N) ].

Definition serve (ep : Endpoint) : result string string :=
  match ep with EpProcess cmd _ _ => Ok cmd | EpStreamable _ _ uri => Ok uri | EpSse _ _ _ => Err "refused" end.
Definition start (targets : list PoolTarget) :=
  pool_initialize serve (λ _, Ok SBInvalid) (λ _, "") (λ _, OpenApiExample.doc) OpenApiExample.to_value
    (λ _, "") 5 (ConnectionPool_new targets).

Definition connected : ConnectionPool string := default (ConnectionPool_new targets) (fst <$> start targets).
Definition relay : Relay := mkRelay connected [rule "echo"; rule "updatePet"] None.

Definition cel : ContextBuilder := ContextBuilder_new.
Definition parts : Parts :=
  {| pa_claims := None; pa_src_identity := None; pa_log := None; pa_cel := Some cel |}.

Definition tools_page : Paged Tool :=
  match list_tools send relay None (Some parts) with Ret (_, Ok page) => page | _ => mkPaged [] None end.

Example tools_listed : tool_name <$> items tools_page = ["time_echo"; "disk_echo"; "pets_updatePet"].
Proof. vm_compute. reflexivity. Qed.

Example relay_wf : Relay_wf relay ∧ names_plain relay.
Proof.
  split; [reflexivity|]. intros _ t Ht. vm_compute in Ht.
  repeat (apply elem_of_cons in Ht as [->|Ht]; [reflexivity|]). by apply elem_of_nil in Ht.
Qed.

Lemma relay_listed_tools_witness :
  ∃ name svc t,
    offered send relay None cel name svc t ∧ tool_description (echo "/mcp") = tool_description t ∧
    ∀ arguments, call_tool send api relay "disk_echo" arguments (Some parts) =
      Ret (sends_map (map_err ErrorData_from) (target_call_tool send api svc (tool_name t) arguments),
           Some {| tool_call_name := Some (tool_name t); target_name := Some name |}).
Proof.
  destruct (proj2 (relay_listed_tools send api relay parts cel None _ tools_page (proj1 relay_wf) (proj2 relay_wf)
    eq_refl (eq_refl : list_tools send relay None (Some parts) =
      Ret ([SentMcp "time" (ListToolsRequest None); SentMcp "/mcp" (ListToolsRequest None)], Ok tools_page)))
    {| tool_name := "disk_echo"; tool_description := Some "/mcp"; input_schema := [] |})
    as (name & svc & t & Ho & Hd & _ & Hcall).
  - vm_compute. right. left.
  - exists name, svc, t. split; [exact Ho|]. split; [exact Hd|exact Hcall].
Defined.

Lemma relay_pool_initialize_witness :
  ∃ connections, start targets = Some (connected, Ok connections) ∧ connections.*1 = ["time"; "disk"; "pets"].
Proof.
  exists (pool_list connected). split; [vm_compute; reflexivity|].
  destruct (relay_pool_initialize serve (λ _, Ok SBInvalid) (λ _, "") (λ _, OpenApiExample.doc)
    OpenApiExample.to_value (λ _, "") 5 targets connected (Ok (pool_list connected))) as (_ & done & rest & _ & _ & H & _).
  - vm_compute. reflexivity.
  - exact (proj2 (proj2 H)).
Defined.

(** A target whose name has the delimiter, beside one it is taken for. *)
Definition clash : Relay :=
  mkRelay (mkPool [target "db" (McpStdio "db" [] ∅); target "db_admin" (McpStdio "admin" [] ∅)]
            {[ "db" := UMcp "db"; "db_admin" := UMcp "admin" ]}) [] None.

Lemma relay_delimiter_in_target_witness :
  resource_name clash "db_admin" "drop" = "db_admin_drop" ∧
  call_tool send api clash "db_admin_drop" None (Some parts) =
    Ret (([SentMcp "db" (CallToolRequest "admin_drop" None)],
          Ok {| ct_content := [Str "db/admin_drop"]; ct_is_error := None |}),
         Some {| tool_call_name := Some "admin_drop"; target_name := Some "db" |}).
Proof.
  split; [reflexivity|].
  exact (proj2 (relay_delimiter_in_target send api clash parts cel "db" "admin" "drop" None eq_refl eq_refl eq_refl)).
Defined.

Lemma relay_listed_resources_witness :
  ∃ message, read_resource send relay "file:///etc/hosts" (Some parts) =
    Ret (silent (Err (invalid_request message))).
Proof.
  apply (proj2 (relay_listed_resources send relay parts cel None _
    (match list_resources send relay None (Some parts) with Ret (_, Ok page) => page | _ => mkPaged [] None end)
    {| resource_uri := "file:///etc/hosts"; resource_rest := Null |} eq_refl eq_refl eq_refl)).
  intros name rest _ H. simpl in H.
  assert (Str.contains_char DELIMITER (name +:+ String DELIMITER rest) = false) as Hno by (by rewrite <-H).
  clear H. induction name as [|a name IH]; [done|].
  rewrite Str.app_cons, Str.contains_char_cons in Hno. by apply orb_false_iff in Hno as [_ ?%IH].
Defined.

(** A tool that the policies do not permit, and one they do: the first sends nothing. *)
Lemma relay_only_permitted_witness :
  let refused := call_tool send api relay "time_drop" None (Some parts) in
  let sent := call_tool send api relay "time_echo" None (Some parts) in
  match refused, sent with
  | Ret (o, _), Ret (o', _) =>
    o = ([], Err (invalid_request "not allowed")) ∧ is_ok o'.2 = true ∧
    guarded relay (Some parts) "time_echo" RTool (λ svc id,
      match svc with
      | UMcp m => [SentMcp m (CallToolRequest id None)]
      | UOpenAPI h => [SentApi h id None]
      end) o' ∧
    o'.1 = [SentMcp "time" (CallToolRequest "echo" None)]
  | _, _ => False
  end.
Proof.
  cbv zeta. destruct (call_tool send api relay "time_echo" None (Some parts)) as [[o' log]|] eqn:E; [|discriminate E].
  split; [reflexivity|]. pose proof (proj1 (relay_only_permitted send api relay (Some parts) "time_echo" None) o' log E) as H.
  vm_compute in E. injection E as <- <-. split; [reflexivity|]. split; [exact H|reflexivity].
Defined.
End RelayExample.
