(* ===== verification/McpServe.v ===== *)
(** McpServe: the HTTP side of the MCP relay: the requests it makes to servers over HTTP
    ([ClientWrapper] of [mcp/relay/pool.rs]) and those it serves ([mcp/sse.rs]): the SSE
    sessions, the OAuth metadata, and the relay of a backend.

    A stream of events is the text of its body.  The streamable HTTP server is an
    interface, and so are the server loops that read the messages of SSE sessions. *)
From S2P Require Import Prelude Strs Json Http DiscoveryTypes AgentTypes Filters Cel BindStore HttpProxy OpenApi McpRelay.

(** * Requests to servers ([pool.rs]) *)

Definition EVENT_STREAM_MIME_TYPE : string := "text/event-stream".
Definition JSON_MIME_TYPE : string := "application/json".
Definition HEADER_SESSION_ID : string := "mcp-session-id".
Definition HEADER_LAST_EVENT_ID : string := "last-event-id".

Inductive StreamableHttpError :=
| SHClient (e : string)
| UnexpectedContentType (ct : option string)
| ServerDoesNotSupportSse.

Section client.
Context `{!HeaderMapOps, !HttpParsers, !BodyReader}.
(** The messages of the protocol with their printer and parser; the parser of URIs; the
    texts that [to_str] accepts; the printer of status codes; and [call_with_default_policies] for the backend. *)
Context {Message Answer : Type} (to_vec : Message → result string string) (from_slice : string → option Answer).
Context (Uri_parse : string → option Uri) (to_str : string → option string).
Context (status_text : Z → string).
Context (send : SimpleBackend → Request → result Response string).

Inductive StreamableHttpPostResponse :=
| Accepted
| PostSse (events : string) (session_id : option string)
| PostJson (message : Answer) (session_id : option string).

Definition parse_uri (uri : string) : result string StreamableHttpError :=
  match Uri_parse uri with
  | Some u => Ok (default "" (uri_path_and_query u))
  | None => Err (SHClient "invalid uri")
  end.

(** The text of the URI that is called. *)
Definition upstream_uri (backend : SimpleBackend) (path_and_query : string) : string :=
  "http://" +:+ hostport backend +:+ path_and_query.

(** [Request::builder()] with headers that are appended in turn. *)
Definition build (uri method : string) (headers : list (string * string)) (body : string)
    : result Request StreamableHttpError :=
  let? uri := ok_or (Uri_parse uri) (SHClient "invalid uri") in
  let? headers := foldl (λ r '(k, v), let? m := r in
                     let? v := ok_or (HeaderValue_from_str v) (SHClient "failed to parse header value") in
                     Ok (hdr_append m k v)) (Ok hdr_new) headers in
  Ok {| req_method := method; req_uri := uri; req_headers := headers; req_body := body; req_original_url := None |}.

(** [is_client_error() || is_server_error()] *)
Definition is_error_status (status : Z) : bool := bool_decide (400 ≤ status < 600)%Z.
Definition received_status (status : Z) : string := "received status code " +:+ status_text status.

Definition call (backend : SimpleBackend) (req : Request) : result Response StreamableHttpError :=
  map_err SHClient (send backend req).

Definition insert_session (session_id : option string) (req : Request) : result Request StreamableHttpError :=
  match session_id with
  | None => Ok req
  | Some id =>
    let? v := ok_or (HeaderValue_from_str id) (SHClient "failed to parse header value") in
    Ok (with_headers req (hdr_insert (req_headers req) HEADER_SESSION_ID v))
  end.

Definition post_message (backend : SimpleBackend) (uri : string) (message : Message) (session_id : option string)
    : result StreamableHttpPostResponse StreamableHttpError :=
  let? path := parse_uri uri in
  let? body := map_err SHClient (to_vec message) in
  let? req := build (upstream_uri backend path) "POST"
                [("content-type", "application/json");
                 ("accept", EVENT_STREAM_MIME_TYPE +:+ ", " +:+ JSON_MIME_TYPE)] body in
  let? req := insert_session session_id req in
  let? resp := call backend req in
  if decide (resp_status resp = 202%Z) then Ok Accepted
  else if is_error_status (resp_status resp) then Err (SHClient (received_status (resp_status resp)))
  else
    let content_type := hdr_get (resp_headers resp) "content-type" in
    let session_id := hdr_get (resp_headers resp) HEADER_SESSION_ID ≫= to_str in
    match content_type with
    | Some ct =>
      if Str.starts_with EVENT_STREAM_MIME_TYPE ct then Ok (PostSse (resp_body resp) session_id)
      else if Str.starts_with JSON_MIME_TYPE ct then
        let? message := ok_or (from_body from_slice (resp_body resp)) (SHClient "invalid message") in
        Ok (PostJson message session_id)
      else Err (UnexpectedContentType (Some ct))
    | None => Err (UnexpectedContentType None)
    end.

Definition delete_session (backend : SimpleBackend) (uri session_id : string) : result () StreamableHttpError :=
  let? path := parse_uri uri in
  let? req := build (upstream_uri backend path) "DELETE" [(HEADER_SESSION_ID, session_id)] "" in
  let? resp := call backend req in
  if decide (resp_status resp = 405%Z) then Ok ()
  else if is_error_status (resp_status resp) then Err (SHClient (received_status (resp_status resp)))
  else Ok ().

Definition last_event_header (last_event_id : option string) : list (string * string) :=
  match last_event_id with Some id => [(HEADER_LAST_EVENT_ID, id)] | None => [] end.

(** The content type that a stream of events must have. *)
Definition event_stream (resp : Response) : result string StreamableHttpError :=
  match hdr_get (resp_headers resp) "content-type" with
  | Some ct =>
    if Str.starts_with EVENT_STREAM_MIME_TYPE ct then Ok (resp_body resp) else Err (UnexpectedContentType (Some ct))
  | None => Err (UnexpectedContentType None)
  end.

Definition get_stream (backend : SimpleBackend) (uri session_id : string) (last_event_id : option string)
    : result string StreamableHttpError :=
  let? path := parse_uri uri in
  let? req := build (upstream_uri backend path) "GET"
                ([("accept", EVENT_STREAM_MIME_TYPE); (HEADER_SESSION_ID, session_id)] ++
                   last_event_header last_event_id) "" in
  let? resp := call backend req in
  if decide (resp_status resp = 405%Z) then Err ServerDoesNotSupportSse
  else if is_error_status (resp_status resp) then Err (SHClient (received_status (resp_status resp)))
  else event_stream resp.

(** The SSE transport; the context of the trace in the headers is left out. *)
Definition sse_post_message (backend : SimpleBackend) (uri : Uri) (message : Message) : result () StreamableHttpError :=
  let? body := map_err SHClient (to_vec message) in
  let? req := build (upstream_uri backend (default "" (uri_path_and_query uri))) "POST"
                [("content-type", "application/json")] body in
  let? resp := call backend req in
  if is_error_status (resp_status resp) then Err (SHClient (received_status (resp_status resp))) else Ok ().

Definition sse_get_stream (backend : SimpleBackend) (uri : Uri) (last_event_id : option string)
    : result string StreamableHttpError :=
  let? req := build (upstream_uri backend (default "" (uri_path_and_query uri))) "GET"
                (("accept", EVENT_STREAM_MIME_TYPE) :: last_event_header last_event_id) "" in
  let? resp := call backend req in
  if is_error_status (resp_status resp) then Err (SHClient (received_status (resp_status resp)))
  else event_stream resp.
End client.

(** * OAuth metadata ([sse.rs]) *)

Section metadata.
Context `{!HeaderMapOps, !HttpParsers, !BodyReader}.
Context (Uri_parse : string → option Uri) (from_slice : string → option Value).
Context (simple_call : Request → result Response string).

Definition get_redirect_url (req : Request) (strip_base : string) : string :=
  let uri := default (req_uri req) (req_original_url req) in
  match Str.strip_suffix strip_base (uri_path uri) with
  | Some p => Str.replace (uri_path uri) p (Uri_to_string uri)
  | None => Uri_to_string uri
  end.

Definition protected_resource_metadata (req : Request) (auth : McpAuthentication) : Value :=
  let new_uri := get_redirect_url req "/.well-known/oauth-protected-resource" in
  Object [("resource", Str (new_uri +:+ "/mcp"));
          ("authorization_servers", Array [Str new_uri]);
          ("scopes_supported", Array (Str <$> scopes auth));
          ("bearer_methods_supported", Array [Str "header"]);
          ("mcp_protocol_version", Str "2025-06-18");
          ("resource_type", Str "mcp-server")].

(** The text at a key of the answer is changed in place. *)
Definition edit_endpoint (key : string) (f : string → string) (resp : Value) : result Value string :=
  match traverse resp [key] with
  | Some (Str _) =>
    ok_or (traverse_mut resp [key] (λ v, match v with Str s => Str (f s) | v => v end)) (key +:+ " missing")
  | _ => Err (key +:+ " missing")
  end.

Definition plain_request (uri : Uri) (method body : string) : Request :=
  {| req_method := method; req_uri := uri; req_headers := hdr_new; req_body := body; req_original_url := None |}.

Definition authorization_server_metadata (req : Request) (auth : McpAuthentication) : result Value string :=
  let new_uri := get_redirect_url req "/.well-known/oauth-authorization-server" in
  let? uri := ok_or (Uri_parse (issuer auth +:+ "/.well-known/oauth-authorization-server")) "invalid uri" in
  let? upstream := simple_call (plain_request uri "GET" "") in
  let? resp := ok_or (from_body from_slice (resp_body upstream)) "invalid body" in
  match provider auth with
  | Some Auth0 => edit_endpoint "authorization_endpoint" (λ ae, ae +:+ "?audience=" +:+ audience auth) resp
  | Some Keycloak => edit_endpoint "registration_endpoint" (λ _, new_uri +:+ "/client-registration") resp
  | None => Ok resp
  end.

Definition client_registration (req : Request) (auth : McpAuthentication) : result Response string :=
  let? uri := ok_or (Uri_parse (issuer auth +:+ "/clients-registrations/openid-connect")) "invalid uri" in
  simple_call (plain_request uri "POST" (req_body req)).
End metadata.

(** * The server of a gateway ([App]) *)

Section app.
Context `{!HeaderMapOps, !HttpParsers, !BodyReader, !CelEngine} {Peer Message : Type}.
(** Messages that are requests get the parts of the HTTP request; the extractors of the
    query and the body. *)
Context (is_request : Message → bool) (form_urlencoded : string → list (string * string)).
Context (parse_message : Request → option Message).

(** The parts of a request with the extensions that handlers read. *)
Record RequestParts := { rp_request : Request; rp_cel : ContextBuilder; rp_claims : option Claims }.

(** The sender of a session, with what the loop of the session has not received, and
    whether that loop still receives. *)
Record Session := mkSession {
  ss_relay : @Relay Peer;
  ss_queue : list (Message * option RequestParts);
  ss_open : bool
}.

Definition CHANNEL_CAPACITY : nat := 64.

Record App := mkApp { sse_txs : gmap string Session }.

Definition session_id_of (req : Request) : option string :=
  match filter (λ kv, kv.1 = "sessionId") (form_urlencoded (default "" (uri_query (req_uri req)))) with
  | [(_, id)] => Some id
  | _ => None
  end.

Definition with_parts (message : Message) (parts : RequestParts) : Message * option RequestParts :=
  (message, if is_request message then Some parts else None).

(** The status of the answer; [None] while the channel is full. *)
Definition sse_post_handler (self : App) (parts : RequestParts) : option (App * Z) :=
  match session_id_of (rp_request parts) with
  | None => Some (self, 400%Z)
  | Some session_id =>
    match parse_message (rp_request parts) with
    | None => Some (self, 400%Z)
    | Some message =>
      match sse_txs self !! session_id with
      | None => Some (self, 404%Z)
      | Some tx =>
        if ss_open tx then
          if decide (length (ss_queue tx) < CHANNEL_CAPACITY) then
            let tx := mkSession (ss_relay tx) (ss_queue tx ++ [with_parts message parts]) true in
            Some (mkApp (<[session_id := tx]> (sse_txs self)), 202%Z)
          else None
        else Some (self, 410%Z)
      end
    end
  end.

(** The session and the data of its first event; [session] is generated. *)
Definition sse_get_handler (self : App) (session : string) (relay : Relay) : App * string :=
  (mkApp (<[session := mkSession relay [] true]> (sse_txs self)), "?sessionId=" +:+ session).

(** The task of a session: the server loop receives a message, stops, and is removed. *)
Definition session_receive (self : App) (session : string) : option (App * (Message * option RequestParts)) :=
  tx ← sse_txs self !! session;
  match ss_open tx, ss_queue tx with
  | true, m :: queue => Some (mkApp (<[session := mkSession (ss_relay tx) queue true]> (sse_txs self)), m)
  | _, _ => None
  end.
Definition session_stop (self : App) (session : string) : App :=
  mkApp (alter (λ tx, mkSession (ss_relay tx) (ss_queue tx) false) session (sse_txs self)).
Definition session_remove (self : App) (session : string) : App := mkApp (delete session (sse_txs self)).

Section serve.
Context (Uri_parse : string → option Uri) (from_slice : string → option Value).
Context (simple_call : Request → result Response string).
(** [StreamableHttpService]: with the relay that it makes for a new session. *)
Context (streamable : @Relay Peer → RequestParts → Response).
Context `{!HashIter string TargetedPolicy}.

Inductive Served :=
| SvSession (first_event : string)
| SvStatus (status : Z)
| SvJson (v : Value)
| SvResponse (r : Response).

(** [McpBackendGroup::targets] *)
Definition group_targets (binds : BindStore.t) (name : string) (backends : McpBackend) : list PoolTarget :=
  (λ t, {| pt_name := mt_name t; pt_spec := mt_spec t;
           pt_policies := BindStore.backend_policies binds (PTBackend name) |}) <$> mcp_targets backends.

(** The context of the rules, and the request after its body was looked at. *)
Definition serve_context (authorization_policies : list RuleSet) (claims : option Claims) (req : Request)
    : ContextBuilder * Request :=
  let ctx := RuleSets_register authorization_policies ContextBuilder_new in
  let '(ctx, needs_body) := with_request ctx req in
  let '(ctx, req) :=
    if needs_body : bool then
      let '(rest, body) := inspect_raw_body (req_body req) in
      (match body with Some body => with_request_body ctx body | None => ctx end,
       {| req_method := req_method req; req_uri := req_uri req; req_headers := req_headers req;
          req_body := rest; req_original_url := req_original_url req |})
    else (ctx, req) in
  (match claims with Some jwt => with_jwt ctx jwt | None => ctx end, req).

Definition or_500 (r : result Served string) : Served :=
  match r with Ok v => v | Err _ => SvStatus 500%Z end.

Definition serve (self : App) (binds : BindStore.t) (name : string) (backends : McpBackend) (claims : option Claims)
    (session : string) (req : Request) : option (App * Served) :=
  let targets := group_targets binds name backends in
  let '(authorization_policies, authn) := BindStore.mcp_policies binds name in
  let '(ctx, req) := serve_context authorization_policies claims req in
  let parts := {| rp_request := req; rp_cel := ctx; rp_claims := claims |} in
  let relay := Relay_new targets authorization_policies in
  let path := uri_path (req_uri req) in
  if decide (path = "/sse" ∧ req_method req = "GET") then
    let '(self, event) := sse_get_handler self session relay in Some (self, SvSession event)
  else if decide (path = "/sse" ∧ req_method req = "POST") then
    '(self, status) ← sse_post_handler self parts; Some (self, SvStatus status)
  else
    let other := Some (self, SvResponse (streamable relay parts)) in
    match authn with
    | None => other
    | Some auth =>
      if decide (path = "/.well-known/oauth-protected-resource")
      then Some (self, SvJson (protected_resource_metadata req auth))
      else if decide (path = "/.well-known/oauth-authorization-server")
      then Some (self, or_500 (let? v := authorization_server_metadata Uri_parse from_slice simple_call req auth in
                               Ok (SvJson v)))
      else if decide (path = "/client-registration")
      then Some (self, or_500 (let? r := client_registration Uri_parse simple_call req auth in Ok (SvResponse r)))
      else other
    end.
End serve.
End app.

(** * Sessions *)

Section sessions.
Context `{!HeaderMapOps, !CelEngine} {Peer Message : Type}.
Context (is_request : Message → bool) (form_urlencoded : string → list (string * string)).
Context (parse_message : Request → option Message).

#[local] Abbreviation post := (sse_post_handler is_request form_urlencoded parse_message).
#[local] Abbreviation App' := (@App _ Peer Message).

Inductive event :=
| EvConnect (session : string)
| EvPost (parts : RequestParts) (status : Z)
| EvReceive (session : string) (m : Message * option RequestParts)
| EvStop (session : string)
| EvRemove (session : string).

(** The histories of an [App]; generated session ids are never used twice. *)
Inductive run : list event → App' → Prop :=
| run_nil : run [] (mkApp ∅)
| run_connect tr app session relay :
  run tr app → EvConnect session ∉ tr →
  run (tr ++ [EvConnect session]) (fst (sse_get_handler app session relay))
| run_post tr app parts app' status :
  run tr app → post app parts = Some (app', status) → run (tr ++ [EvPost parts status]) app'
| run_receive tr app session app' m :
  run tr app → session_receive app session = Some (app', m) → run (tr ++ [EvReceive session m]) app'
| run_stop tr app session : run tr app → run (tr ++ [EvStop session]) (session_stop app session)
| run_remove tr app session : run tr app → run (tr ++ [EvRemove session]) (session_remove app session).

(** What was accepted for a session, and what its loop has received. *)
Definition accepted (session : string) (tr : list event) : list (Message * option RequestParts) :=
  omap (λ e, match e with
             | EvPost parts 202 =>
               if decide (session_id_of form_urlencoded (rp_request parts) = Some session)
               then m ← parse_message (rp_request parts); Some (with_parts is_request m parts)
               else None
             | _ => None
             end) tr.
Definition received (session : string) (tr : list event) : list (Message * option RequestParts) :=
  omap (λ e, match e with EvReceive s m => if decide (s = session) then Some m else None | _ => None end) tr.

(** The state of a session after a history. *)
Definition session_ok (tr : list event) (session : string) (o : option (@Session _ Peer Message)) : Prop :=
  match o with
  | Some tx =>
    EvConnect session ∈ tr ∧ length (ss_queue tx) ≤ CHANNEL_CAPACITY ∧
    accepted session tr = received session tr ++ ss_queue tx
  | None => ∃ lost, accepted session tr = received session tr ++ lost ∧ (EvConnect session ∉ tr → lost = [])
  end.

Lemma accepted_app session tr tr' : accepted session (tr ++ tr') = accepted session tr ++ accepted session tr'.
Proof. apply omap_app. Qed.
Lemma received_app session tr tr' : received session (tr ++ tr') = received session tr ++ received session tr'.
Proof. apply omap_app. Qed.

(** An event that is none of a session changes nothing about it. *)
Lemma session_ok_skip tr e session o :
  session_ok tr session o → accepted session [e] = [] → received session [e] = [] → e ≠ EvConnect session →
  session_ok (tr ++ [e]) session o.
Proof.
  intros Hok Ha Hr He. unfold session_ok. rewrite accepted_app, received_app, Ha, Hr, !app_nil_r.
  destruct o as [tx|]; simpl in *.
  - rewrite elem_of_app. naive_solver.
  - destruct Hok as (lost & ? & Hl). exists lost. split; [done|]. rewrite elem_of_app. naive_solver.
Qed.

Lemma unconnected_accepts_nothing tr session :
  session_ok tr session None → EvConnect session ∉ tr → accepted session tr = received session tr.
Proof. intros (lost & -> & Hl) Hn. by rewrite (Hl Hn), app_nil_r. Qed.

Lemma post_spec (app : App') parts app' status :
  post app parts = Some (app', status) →
  (app' = app ∧ status ≠ 202%Z) ∨
  ∃ session m (tx : @Session _ Peer Message),
    session_id_of form_urlencoded (rp_request parts) = Some session ∧
    parse_message (rp_request parts) = Some m ∧ sse_txs app !! session = Some tx ∧ ss_open tx = true ∧
    length (ss_queue tx) < CHANNEL_CAPACITY ∧ status = 202%Z ∧
    app' = mkApp (<[session := mkSession (ss_relay tx) (ss_queue tx ++ [with_parts is_request m parts]) true]> (sse_txs app)).
Proof.
  unfold sse_post_handler.
  destruct (session_id_of _ _) as [session|]; [|intros [= <- <-]; by left].
  destruct (parse_message _) as [m|]; [|intros [= <- <-]; by left].
  destruct (sse_txs app !! session) as [tx|] eqn:Htx; [|intros [= <- <-]; by left].
  destruct (ss_open tx) eqn:Ho; [|intros [= <- <-]; by left].
  case_decide; [|done]. intros [= <- <-]. right. by exists session, m, tx.
Qed.

Lemma accepted_refused session parts status : status ≠ 202%Z → accepted session [EvPost parts status] = [].
Proof.
  intros Hs. unfold accepted. simpl. destruct (decide (status = 202%Z)); [done|].
  by repeat (case_match; try done).
Qed.

Lemma run_session_ok tr app session : run tr app → session_ok tr session (sse_txs app !! session).
Proof.
  induction 1 as [|tr app s relay _ IH Hnew|tr app parts app' status _ IH Hpost|tr app s app' m _ IH Hrecv
                  |tr app s _ IH|tr app s _ IH].
  - simpl. rewrite lookup_empty. by exists [].
  - simpl. destruct (decide (s = session)) as [->|Hne].
    + rewrite lookup_insert_eq. simpl. rewrite accepted_app, received_app. split_and!; [set_solver|lia|].
      destruct (sse_txs app !! session) as [tx|]; [by destruct IH as [? _]|].
      simpl. by rewrite (unconnected_accepts_nothing _ _ IH Hnew), !app_nil_r.
    + rewrite lookup_insert_ne by done. apply session_ok_skip; [done..|congruence].
  - apply post_spec in Hpost as [[-> Hs]|(s & m & tx & Hid & Hm & Htx & Ho & Hlen & -> & ->)].
    + apply session_ok_skip; [done|by apply accepted_refused|done|done].
    + simpl. destruct (decide (s = session)) as [->|Hne].
      * rewrite Htx in IH. destruct IH as (Hc & _ & Heq). rewrite lookup_insert_eq. simpl.
        rewrite accepted_app, received_app, app_nil_r, Heq, <-app_assoc, length_app. simpl.
        split_and!; [set_solver|lia|]. f_equal. f_equal. unfold accepted. simpl.
        rewrite decide_True by done. by rewrite Hm.
      * rewrite lookup_insert_ne by done. apply session_ok_skip; [done| |done|done].
        unfold accepted. simpl. rewrite decide_False; [done|congruence].
  - unfold session_receive in Hrecv. apply bind_Some in Hrecv as (tx & Htx & Hrecv).
    destruct (ss_open tx), (ss_queue tx) as [|m' queue] eqn:Hq; simplify_eq/=.
    destruct (decide (s = session)) as [->|Hne].
    + rewrite Htx in IH. destruct IH as (Hc & Hlen & Heq). rewrite lookup_insert_eq. simpl.
      rewrite accepted_app, received_app, app_nil_r, Heq, Hq. rewrite Hq in Hlen. simpl in Hlen.
      split_and!; [set_solver|lia|]. unfold received at 2. simpl. rewrite decide_True by done.
      by rewrite <-app_assoc.
    + rewrite lookup_insert_ne by done. apply session_ok_skip; [done|done| |done].
      unfold received. simpl. by rewrite decide_False.
  - simpl. destruct (decide (s = session)) as [->|Hne].
    + rewrite lookup_alter_eq. apply session_ok_skip; [|done..].
      by destruct (sse_txs app !! session).
    + rewrite lookup_alter_ne by done. by apply session_ok_skip.
  - simpl. destruct (decide (s = session)) as [->|Hne].
    + rewrite lookup_delete_eq. apply session_ok_skip; [|done..].
      destruct (sse_txs app !! session) as [tx|]; [|done]. destruct IH as (Hc & _ & Heq). by exists (ss_queue tx).
    + rewrite lookup_delete_ne by done. by apply session_ok_skip.
Qed.

(** C20: the messages that are posted to a session, and are answered 202, are received by
    its loop in their order, each once, and those of a session in the table that were not
    received are in its queue, at most 64; requests come with the parts of their HTTP
    request.  A post for another session id is answered 404. *)
Theorem mcp_sse_sessions tr app session :
  run tr app →
  match sse_txs app !! session with
  | Some tx =>
    accepted session tr = received session tr ++ ss_queue tx ∧ length (ss_queue tx) ≤ CHANNEL_CAPACITY ∧
    (∀ m parts, (m, parts) ∈ ss_queue tx → is_request m = true → is_Some parts)
  | None =>
    received session tr `prefix_of` accepted session tr ∧
    (∀ parts m, session_id_of form_urlencoded (rp_request parts) = Some session →
      parse_message (rp_request parts) = Some m → post app parts = Some (app, 404%Z))
  end.
Proof.
  intros Hrun. pose proof (run_session_ok _ _ session Hrun) as Hok.
  destruct (sse_txs app !! session) as [tx|] eqn:Htx.
  - destruct Hok as (_ & Hlen & Heq). split_and!; [done..|]. intros m parts Hin Hreq.
    assert ((m, parts) ∈ accepted session tr) as Hacc by (rewrite Heq; set_solver).
    unfold accepted in Hacc. apply list_elem_of_omap in Hacc as (e & _ & He).
    destruct e as [|p status| | |]; try done. destruct (decide (status = 202%Z)) as [->|Hs].
    + case_decide; [|done]. destruct (parse_message _); [|done]. unfold with_parts in He. simplify_eq/=. rewrite Hreq. by eexists.
    + exfalso. revert He. clear -Hs. by repeat (case_match; try done).
  - destruct Hok as (lost & -> & _). split; [by apply prefix_app_r|]. intros parts m Hid Hm.
    unfold sse_post_handler. by rewrite Hid, Hm, Htx.
Qed.
End sessions.

(** * What goes out *)

Section client_facts.
Context `{!HeaderMapOps, !HttpParsers, !BodyReader} {Message Answer : Type}.
Context (to_vec : Message → result string string) (from_slice : string → option Answer).
Context (Uri_parse : string → option Uri) (to_str : string → option string) (status_text : Z → string).

(** The URI of a request is read from the backend's host and a path. *)
Definition to_backend (backend : SimpleBackend) (req : Request) : Prop :=
  ∃ path, Uri_parse (upstream_uri backend path) = Some (req_uri req).

Lemma build_uri uri method headers body req :
  build Uri_parse uri method headers body = Ok req → Uri_parse uri = Some (req_uri req).
Proof.
  unfold build. destruct (Uri_parse uri) as [u|]; simpl; [|done].
  destruct (foldl _ _ headers); simpl; by intros; simplify_eq/=.
Qed.

Lemma insert_session_uri id req req' : insert_session id req = Ok req' → req_uri req' = req_uri req.
Proof.
  unfold insert_session. destruct id as [id|]; [|by intros; simplify_eq].
  destruct (HeaderValue_from_str id); intros; by simplify_eq/=.
Qed.

Section same_answers.
Context (send send' : SimpleBackend → Request → result Response string) (backend : SimpleBackend).
Hypothesis Hsend : ∀ req, to_backend backend req → send backend req = send' backend req.

Lemma call_same {B} path method headers body (f : Request → result Request StreamableHttpError)
    (k : Response → result B StreamableHttpError) :
  (∀ req req', f req = Ok req' → req_uri req' = req_uri req) →
  (let? req := build Uri_parse (upstream_uri backend path) method headers body in
   let? req := f req in let? resp := call send backend req in k resp) =
  (let? req := build Uri_parse (upstream_uri backend path) method headers body in
   let? req := f req in let? resp := call send' backend req in k resp).
Proof.
  intros Hf. destruct (build _ _ _ _ _) as [req|] eqn:Hb; simpl; [|done].
  destruct (f req) as [req'|] eqn:Hreq; simpl; [|done].
  unfold call. rewrite Hsend; [done|]. exists path. rewrite (Hf _ _ Hreq). by eapply build_uri.
Qed.

Lemma call_same_plain {B} path method headers body (k : Response → result B StreamableHttpError) :
  (let? req := build Uri_parse (upstream_uri backend path) method headers body in
   let? resp := call send backend req in k resp) =
  (let? req := build Uri_parse (upstream_uri backend path) method headers body in
   let? resp := call send' backend req in k resp).
Proof. apply (call_same _ _ _ _ Ok). by intros; simplify_eq. Qed.
End same_answers.

(** Whatever endpoint a server announces, and whatever its session is called, the
    relay's requests to it go to the host of its backend: the results depend on nothing
    but the answers to requests whose URI is made of that host and a path. *)
Theorem mcp_requests_to_backend send send' backend uri (endpoint : Uri) message session_id last_event_id :
  (∀ req, to_backend backend req → send backend req = send' backend req) →
  post_message to_vec from_slice Uri_parse to_str status_text send backend uri message session_id =
    post_message to_vec from_slice Uri_parse to_str status_text send' backend uri message session_id ∧
  (∀ id, delete_session Uri_parse status_text send backend uri id =
    delete_session Uri_parse status_text send' backend uri id) ∧
  (∀ id, get_stream Uri_parse status_text send backend uri id last_event_id =
    get_stream Uri_parse status_text send' backend uri id last_event_id) ∧
  sse_post_message to_vec Uri_parse status_text send backend endpoint message =
    sse_post_message to_vec Uri_parse status_text send' backend endpoint message ∧
  sse_get_stream Uri_parse status_text send backend endpoint last_event_id =
    sse_get_stream Uri_parse status_text send' backend endpoint last_event_id.
Proof.
  intros Hsend. split_and!; [|intros id|intros id| |];
    unfold post_message, delete_session, get_stream, sse_post_message, sse_get_stream.
  - destruct (parse_uri _ uri) as [path|]; simpl; [|done]. destruct (to_vec message) as [body|]; simpl; [|done].
    apply call_same; [done|]. intros. by eapply insert_session_uri.
  - destruct (parse_uri _ uri) as [path|]; simpl; [|done]. by apply call_same_plain.
  - destruct (parse_uri _ uri) as [path|]; simpl; [|done]. by apply call_same_plain.
  - destruct (to_vec message) as [body|]; simpl; [|done]. by apply call_same_plain.
  - by apply call_same_plain.
Qed.
End client_facts.

(** * Metadata *)

Section metadata_facts.
Context `{!HeaderMapOps, !HttpParsers, !BodyReader}.
Context (Uri_parse : string → option Uri) (from_slice : string → option Value).
Context (simple_call : Request → result Response string).

Lemma contains_char_no_char c s : Str.contains_char c s = false → no_char c s.
Proof.
  induction s as [|a s IH]; [done|]. rewrite Str.contains_char_cons. intros [Ha Hs]%orb_false_iff.
  unfold no_char. simpl. rewrite Ha. by apply IH.
Qed.

Lemma contains_char_split c s :
  Str.contains_char c s = true → ∃ l r, s = l +:+ String c r ∧ Str.contains_char c l = false.
Proof.
  induction s as [|a s IH]; [done|]. rewrite Str.contains_char_cons. case_bool_decide as Ha; simpl.
  - intros _. subst a. by exists "", s.
  - intros (l & r & -> & Hl)%IH. exists (String a l), r.
    rewrite Str.contains_char_cons, Str.app_cons. by rewrite bool_decide_false.
Qed.

(** A path is found in the text of a URI where it stands, unless its first segment is
    the authority. *)
Lemma path_not_in_authority auth q rest :
  no_char "/" auth → Str.contains_char "/" q = true → Str.starts_with (auth +:+ "/") q = false →
  Str.starts_with (String "/" q) (String "/" (auth +:+ String "/" rest)) = false.
Proof.
  intros Hauth Hq Hno. apply not_true_iff_false. intros [rest' Hrest]%Str.starts_with_spec.
  rewrite Str.app_cons in Hrest. injection Hrest as Hrest.
  apply contains_char_split in Hq as (pre & post & -> & Hpre).
  rewrite Str.app_assoc, Str.app_cons in Hrest.
  apply no_char_split in Hrest as <-; [|done|by apply contains_char_no_char].
  apply not_true_iff_false in Hno. apply Hno. apply Str.starts_with_spec. exists post.
  by rewrite Str.app_assoc, Str.app_cons.
Qed.

(** The address that the metadata announces is that of the request, as the client
    sent it, without the well-known suffix of its path: scheme, authority, what is before
    the suffix, and the query. *)
Theorem mcp_redirect_url req strip_base scheme auth q p query :
  let uri := default (req_uri req) (req_original_url req) in
  uri_path uri = String "/" q → String "/" q = p +:+ strip_base →
  Uri_to_string uri = scheme +:+ "://" +:+ auth +:+ uri_path uri +:+ query →
  no_char "/" scheme → no_char "/" auth →
  Str.contains_char "/" q = true → Str.starts_with "/" q = false → Str.starts_with (auth +:+ "/") q = false →
  Str.contains (uri_path uri) query = false →
  get_redirect_url req strip_base = scheme +:+ "://" +:+ auth +:+ p +:+ query.
Proof.
  intros uri Hpath Hp Htext Hscheme Hauth Hslash Hfirst Hno Hquery. unfold get_redirect_url. fold uri.
  rewrite Htext, Hpath in *. rewrite (proj2 (Str.strip_suffix_Some strip_base _ p) Hp).
  rewrite replace_skip_prefix by done. f_equal.
  change ("://" +:+ auth +:+ String "/" q +:+ query)
    with (":" +:+ String "/" (String "/" (auth +:+ String "/" q +:+ query))).
  rewrite replace_skip_prefix by done. rewrite replace_not_here.
  2:{ destruct q as [|a q]; [done|]. unfold Str.starts_with in *. simpl in *.
      destruct (decide (a = "/"%char)) as [->|]; [|done]. by destruct q. }
  rewrite replace_not_here.
  2:{ rewrite (Str.app_cons "/" q query). by apply path_not_in_authority. }
  rewrite replace_skip_prefix, Str.replace_here, Str.replace_none by done. done.
Qed.

Lemma edit_endpoint_spec key f resp resp' :
  edit_endpoint key f resp = Ok resp' →
  ∃ s, traverse resp [key] = Some (Str s) ∧ traverse resp' [key] = Some (Str (f s)) ∧
    ∀ key' path, key' ≠ key → traverse resp' (key' :: path) = traverse resp (key' :: path).
Proof.
  unfold edit_endpoint. destruct (traverse resp [key]) as [[| | |s| |]|] eqn:Hs; try done.
  destruct (traverse_mut resp [key] _) as [v|] eqn:Hm; simpl; [|done]. intros [= <-]. exists s.
  split_and!; [done| |].
  - pose proof (traverse_mut_get _ _ _ _ [] Hm) as Hget. rewrite app_nil_r, Hs in Hget. exact Hget.
  - intros key' path Hne. by apply (traverse_mut_other resp [] key key' _ _ [] path Hm).
Qed.

(** The metadata of the authorization server is what the issuer answers, except for
    one field: with Auth0 the audience is added to the authorization endpoint, with
    Keycloak the registration endpoint is the gateway's own; without the field, or without
    an answer that is JSON within the limit, there is an error. *)
Theorem mcp_authorization_metadata req auth v :
  authorization_server_metadata Uri_parse from_slice simple_call req auth = Ok v →
  ∃ uri upstream answer,
    Uri_parse (issuer auth +:+ "/.well-known/oauth-authorization-server") = Some uri ∧
    simple_call (plain_request uri "GET" "") = Ok upstream ∧
    from_body from_slice (resp_body upstream) = Some answer ∧
    match provider auth with
    | None => v = answer
    | Some idp =>
      let '(key, f) := match idp with
                       | Auth0 => ("authorization_endpoint", λ ae, ae +:+ "?audience=" +:+ audience auth)
                       | Keycloak =>
                         ("registration_endpoint", λ _,
                            get_redirect_url req "/.well-known/oauth-authorization-server" +:+ "/client-registration")
                       end in
      ∃ s, traverse answer [key] = Some (Str s) ∧ traverse v [key] = Some (Str (f s)) ∧
        ∀ key' path, key' ≠ key → traverse v (key' :: path) = traverse answer (key' :: path)
    end.
Proof.
  unfold authorization_server_metadata.
  destruct (Uri_parse _) as [uri|] eqn:Huri; simpl; [|done].
  destruct (simple_call _) as [upstream|e] eqn:Hcall; simpl; [|done].
  destruct (from_body from_slice _) as [answer|] eqn:Hbody; simpl; [|done]. intros Hv.
  exists uri, upstream, answer. split_and!; [done..|].
  destruct (provider auth) as [[]|]; [exact (edit_endpoint_spec _ _ _ _ Hv)..|congruence].
Qed.
End metadata_facts.

(** * A session and an issuer *)

Module McpServeExample.
#[local] Existing Instance gmap_headers.
#[local] Existing Instance example_parsers.
#[local] Existing Instance limited_reader.
#[local] Existing Instance RelayExample.engine.

Definition uri (path : string) (query : option string) : Uri :=
  {| uri_scheme := Some "https"; uri_authority := Some "gw.example"; uri_path_and_query := None;
     uri_host := None; uri_port := None; uri_path := path; uri_query := query |}.
Definition request (method path : string) (query : option string) (body : string) : Request :=
  {| req_method := method; req_uri := uri path query; req_headers := hdr_new; req_body := body;
     req_original_url := None |}.

(** Bodies are messages, requests but for ["note"]; queries are session ids. *)
Definition is_request (m : string) : bool := negb (Str.eqb m "note").
Definition form (q : string) : list (string * string) := [("sessionId", q)].
Definition parts (req : Request) : RequestParts :=
  {| rp_request := req; rp_cel := ContextBuilder_new; rp_claims := None |}.
Definition posted (session body : string) : RequestParts := parts (request "POST" "/sse" (Some session) body).

Definition history : list event :=
  [EvConnect "s1"; EvPost (posted "s1" "call") 202; EvPost (posted "s2" "call") 404; EvReceive "s1" ("call", Some (posted "s1" "call"));
   EvPost (posted "s1" "note") 202].

Definition relay : @Relay string := Relay_new [] [].
Definition parse_body (r : Request) : option string := Some (req_body r).

(** The states along the history. *)
Definition after {A} (o : option (@App _ string string * A)) : @App _ string string := default (mkApp ∅) (fst <$> o).
Definition app1 : @App _ string string := fst (sse_get_handler (mkApp ∅) "s1" relay).
Definition app2 := after (sse_post_handler is_request form parse_body app1 (posted "s1" "call")).
Definition app3 := after (session_receive app2 "s1").
Definition app4 := after (sse_post_handler is_request form parse_body app3 (posted "s1" "note")).

Lemma history_runs : run is_request form parse_body history app4.
Proof.
  refine (run_post _ _ _ ([_; _; _; _]) app3 _ _ _ (run_receive _ _ _ ([_; _; _]) app2 "s1" _ _
    (run_post _ _ _ ([_; _]) app2 _ _ _ (run_post _ _ _ ([_]) app1 _ _ _
      (run_connect _ _ _ [] (mkApp ∅) "s1" relay (run_nil _ _ _) _) _) _) _) _);
    [apply not_elem_of_nil|reflexivity..].
Qed.

Lemma mcp_sse_sessions_witness :
  accepted is_request form parse_body "s1" history = received "s1" history ++ [("note", None)] ∧
  received (Message := string) "s2" history `prefix_of` accepted is_request form parse_body "s2" history.
Proof.
  split.
  - exact (proj1 (mcp_sse_sessions is_request form parse_body history app4 "s1" history_runs)).
  - exact (proj1 (mcp_sse_sessions is_request form parse_body history app4 "s2" history_runs)).
Defined.

Definition to_text (u : Uri) : string :=
  "https" +:+ "://" +:+ "gw.example" +:+ uri_path u +:+ "?x=1".

Lemma mcp_redirect_url_witness :
  @get_redirect_url _ {| HeaderName_from_bytes := Some; HeaderValue_from_str := Some; Authority_try_from := Some;
      PathAndQuery_try_from := Some; Method_from_str := Some; Uri_build _ _ _ := Err ""; Uri_to_string := to_text |}
    (request "GET" "/mcp/.well-known/oauth-protected-resource" (Some "x=1") "")
    "/.well-known/oauth-protected-resource" = "https://gw.example/mcp?x=1".
Proof.
  apply (mcp_redirect_url (request "GET" "/mcp/.well-known/oauth-protected-resource" (Some "x=1") "")
    "/.well-known/oauth-protected-resource" "https" "gw.example" "mcp/.well-known/oauth-protected-resource" "/mcp" "?x=1");
    vm_compute; solve [reflexivity|exact I].
Defined.

Definition keycloak : McpAuthentication :=
  {| issuer := "https://id.example"; scopes := []; audience := "mcp"; provider := Some Keycloak |}.
Definition answer : Value := Object [("issuer", Str "id"); ("registration_endpoint", Str "https://id.example/register")].

Lemma mcp_authorization_metadata_witness :
  ∃ v, authorization_server_metadata (λ s, Some (uri s None)) (λ _, Some answer)
         (λ _, Ok {| resp_status := 200; resp_headers := hdr_new; resp_body := "{}" |})
         (request "GET" "/.well-known/oauth-authorization-server" None "") keycloak = Ok v ∧
    traverse v ["issuer"] = Some (Str "id").
Proof.
  eexists. split; [vm_compute; reflexivity|].
  edestruct (mcp_authorization_metadata (λ s, Some (uri s None)) (λ _, Some answer)
         (λ _, Ok {| resp_status := 200; resp_headers := hdr_new; resp_body := "{}" |})
         (request "GET" "/.well-known/oauth-authorization-server" None "") keycloak) as (u & up & a & _ & Hup & Ha & H).
  { vm_compute. reflexivity. }
  injection Hup as <-. vm_compute in Ha. injection Ha as <-. destruct H as (s & _ & _ & H).
  exact (H "issuer" [] ltac:(discriminate)).
Defined.

(** What is answered elsewhere does not matter. *)
Definition parse (s : string) : option Uri :=
  Some {| uri_scheme := None; uri_authority := Some s; uri_path_and_query := Some "/mcp";
          uri_host := None; uri_port := None; uri_path := "/mcp"; uri_query := None |}.
Definition backend : SimpleBackend := SBOpaque "mcp" (TgtHostname "mcp.example" 80).
Definition send (_ : SimpleBackend) (req : Request) : result Response string :=
  Ok {| resp_status := 202; resp_headers := hdr_new; resp_body := "" |}.
Definition send_at_backend (b : SimpleBackend) (req : Request) : result Response string :=
  match uri_authority (req_uri req) with
  | Some a => if Str.starts_with "http://mcp.example:80" a then send b req else Err "elsewhere"
  | None => Err "elsewhere"
  end.

Lemma send_there req : to_backend parse backend req → send backend req = send_at_backend backend req.
Proof.
  intros [path Hp]. injection Hp as Hp. unfold send_at_backend. rewrite <-Hp.
  change (uri_authority _) with (Some ("http://mcp.example:80" +:+ path)). cbv iota beta.
  by rewrite (proj2 (Str.starts_with_spec "http://mcp.example:80" _) (ex_intro _ path eq_refl)).
Qed.

Lemma mcp_requests_to_backend_witness :
  post_message Ok (λ _, Some "") parse Some (λ _, "") send_at_backend backend "http://evil.example/mcp" "{}" None = Ok Accepted.
Proof.
  rewrite <-(proj1 (mcp_requests_to_backend Ok (λ _, Some "") parse Some (λ _, "") send send_at_backend backend
    "http://evil.example/mcp" (uri "/mcp" None) "{}" None None send_there)).
  reflexivity.
Defined.
End McpServeExample.
