(* ===== verification/LocalConfig.v ===== *)
(** LocalConfig: the configuration file ([types/local.rs], the file source of
    [state_manager.rs] and the TLS material of [http/backendtls.rs]): the form in
    which users write binds, listeners, routes and policies, its conversion to the
    gateway's data model, and the loading and reloading of the stores from it.

    Files, YAML, PEM, [rustls] and [serde] are parameters.  A conversion may fail
    with a message and may panic, so it is a [cres]. *)
From S2P Require Import Prelude Strs Json Http DiscoveryTypes IpParse AgentTypes RouteSet Routing Discovery BindStore BindPolicies Auth.

(** * Conversions that fail or panic *)

Abbreviation cres A := (comp (result A string)).

Definition cbind {A B} (c : cres A) (k : A → cres B) : cres B :=
  match c with Ret (Ok a) => k a | Ret (Err e) => Ret (Err e) | Panic => Panic end.

Notation "'let!' x := c 'in' k" := (cbind c (λ x, k))
  (at level 10, x pattern, k at level 200,
   format "'let!'  x  :=  c  'in' '//' k") : rust_scope.

Definition lift {A} (r : result A string) : cres A := Ret r.

Lemma cbind_Ok {A B} (c : cres A) (k : A → cres B) b :
  cbind c k = Ret (Ok b) ↔ ∃ a, c = Ret (Ok a) ∧ k a = Ret (Ok b).
Proof. destruct c as [[a|e]|]; simpl; naive_solver. Qed.

(** * The configuration as it is written *)

Inductive SimpleLocalBackend :=
| SLService (name : NamespacedHostname.t) (port : N)
| SLOpaque (t : Target)
| SLInvalid.

Record McpBackendHost := { mbh_host : string; mbh_port : N }.

Definition McpBackendHost_try_from (value : McpBackendHost) : result SimpleLocalBackend string :=
  Ok (SLOpaque (Target_from (mbh_host value) (mbh_port value))).

Inductive LocalMcpTargetSpec :=
| LSse (backend : SimpleLocalBackend) (path : string)
| LMcp (backend : SimpleLocalBackend) (path : string)
| LStdio (cmd : string) (args : list string) (env : gmap string string)
| LOpenAPI (backend : SimpleLocalBackend) (schema : Handle).

Record LocalMcpTarget := { lmt_name : string; lmt_spec : LocalMcpTargetSpec }.
Record LocalMcpBackend := { lmb_targets : list LocalMcpTarget }.

Inductive LocalBackend :=
| LBService (name : NamespacedHostname.t) (port : N)
| LBOpaque (t : Target)
| LBDynamic
| LBMCP (b : LocalMcpBackend)
| LBAI (b : AIBackend)
| LBInvalid.

Record LocalRouteBackend := { lrb_weight : N; lrb_backend : LocalBackend }.

(** [percentage] is an [f64]. *)
Record LocalRequestMirror := { lrm_backend : SimpleLocalBackend; lrm_percentage : SpecFloat.spec_float }.

(** The paths of PEM files. *)
Record LocalBackendTLS := {
  lbt_cert : option string;
  lbt_key : option string;
  lbt_root : option string;
  lbt_insecure : bool;
  lbt_insecure_host : bool
}.
Record LocalTLSServerConfig := { lts_cert : string; lts_key : string }.

Record FilterOrPolicy := {
  fp_request_header_modifier : option HeaderModifier;
  fp_response_header_modifier : option HeaderModifier;
  fp_request_redirect : option RequestRedirect;
  fp_url_rewrite : option UrlRewrite;
  fp_request_mirror : option LocalRequestMirror;
  fp_direct_response : option DirectResponse;
  fp_cors : option Cors;
  fp_mcp_authorization : option RuleSet;
  fp_mcp_authentication : option McpAuthentication;
  fp_a2a : option A2aPolicy;
  fp_ai : option LlmPolicy;
  fp_backend_tls : option LocalBackendTLS;
  fp_backend_auth : option BackendAuth;
  fp_local_rate_limit : list RateLimit;
  fp_remote_rate_limit : option RemoteRateLimit;
  fp_jwt_auth : option Jwt.LocalJwtConfig;
  fp_ext_authz : option ExtAuthz;
  fp_transformations : option Transformation;
  fp_timeout : option TimeoutPolicy;
  fp_retry : option RetryPolicy
}.

Record LocalRoute := {
  lr_route_name : option string;
  lr_rule_name : option string;
  lr_hostnames : list string;
  lr_matches : list RouteMatch;
  lr_policies : option FilterOrPolicy;
  lr_backends : list LocalRouteBackend
}.

Record LocalTCPRouteBackend := { ltb_weight : N; ltb_backend : SimpleLocalBackend }.

(** [policies] is [TCPFilterOrPolicy], whose only field is [backend_tls]. *)
Record LocalTCPRoute := {
  ltr_route_name : option string;
  ltr_rule_name : option string;
  ltr_hostnames : list string;
  ltr_policies : option (option LocalBackendTLS);
  ltr_backends : list LocalTCPRouteBackend
}.

Inductive LocalListenerProtocol := LHTTP | LHTTPS | LTLS | LTCP | LHBONE.

Record LocalListener := {
  ll_name : option string;
  ll_gateway_name : option string;
  ll_hostname : option string;
  ll_protocol : LocalListenerProtocol;
  ll_tls : option LocalTLSServerConfig;
  ll_routes : option (list LocalRoute);
  ll_tcp_routes : option (list LocalTCPRoute)
}.

Record LocalBind := { lb_port : N; lb_listeners : list LocalListener }.

Record LocalConfig := {
  lc_binds : list LocalBind;
  lc_workloads : list DiscoveryStore.LocalWorkload;
  lc_services : list Service.t
}.

Record NormalizedLocalConfig := {
  nc_binds : list Bind;
  nc_policies : list TargetedPolicy;
  nc_backends : list Backend;
  nc_workloads : list DiscoveryStore.LocalWorkload;
  nc_services : list Service.t
}.

Definition default_matches : list RouteMatch :=
  [{| rm_headers := []; rm_path := PathPrefix "/"; rm_method := None; rm_query := [] |}].

(** * Backends *)

Definition SimpleLocalBackend_as_backend (self : SimpleLocalBackend) (name : string) : option Backend :=
  match self with
  | SLService _ _ => None
  | SLOpaque tgt => Some (BOpaque name tgt)
  | SLInvalid => Some BInvalid
  end.

Definition to_simple_backend_and_ref (name : string) (b : SimpleLocalBackend)
    : SimpleBackendReference * option Backend :=
  (match b with
   | SLService name port => SBRService name port
   | SLInvalid => SBRInvalid
   | SLOpaque _ => SBRBackend name
   end, SimpleLocalBackend_as_backend b name).

(** [strng::format!("mcp/{}/{}", name, idx)] *)
Definition mcp_name (name : string) (idx : nat) : string :=
  "mcp/" +:+ name +:+ "/" +:+ Str.display_nat (N.of_nat idx).

(** One target of an MCP backend, with the backend it refers to. *)
Definition mcp_target (name : string) (idx : nat) (t : LocalMcpTarget) : McpTarget * list Backend :=
  let '(spec, be) :=
    match lmt_spec t with
    | LSse backend path =>
      let '(bref, be) := to_simple_backend_and_ref (mcp_name name idx) backend in (McpSse bref path, be)
    | LMcp backend path =>
      let '(bref, be) := to_simple_backend_and_ref (mcp_name name idx) backend in (McpMcp bref path, be)
    | LStdio cmd args env => (McpStdio cmd args env, None)
    | LOpenAPI backend schema =>
      let '(bref, be) := to_simple_backend_and_ref name backend in (McpOpenAPI bref schema, be)
    end in
  ({| mt_name := lmt_name t; mt_spec := spec |}, option_list be).

Definition as_backends (self : LocalBackend) (name : string) : list Backend :=
  match self with
  | LBService _ _ => []
  | LBOpaque tgt => [BOpaque name tgt]
  | LBDynamic => [BDynamic]
  | LBMCP tgt =>
    let targets := imap (mcp_target name) (lmb_targets tgt) in
    concat targets.*2 ++ [BMCP name {| mcp_targets := targets.*1 |}]
  | LBAI tgt => [BAI name tgt]
  | LBInvalid => [BInvalid]
  end.

(** The reference of a backend of a route with this key. *)
Definition backend_reference (key : string) (b : LocalBackend) : BackendReference :=
  match b with
  | LBService name port => BRService name port
  | LBInvalid => BRInvalid
  | _ => BRBackend key
  end.

(** * TLS material *)

(** [rustls_pemfile::Item] *)
Inductive PemItem :=
| X509Certificate (der : string) | Pkcs8Key (der : string) | Pkcs1Key (der : string) | OtherItem (der : string).

Inductive ServerVerifier := WebPki | NoServerNameVerification | NoVerifier.

Class TlsLib := {
  read : string → result string string;
  pem_read_all : string → result (list PemItem) string;
  pem_read_one : string → result (option PemItem) string;
  (** [rustls_pemfile::certs] *)
  pem_certs : string → result (list string) string;
  RootCertStore : Type;
  roots_empty : RootCertStore;
  (** [add] refuses a certificate that cannot be a trust anchor;
      [add_parsable_certificates] skips it. *)
  roots_add : RootCertStore → string → option RootCertStore;
  native_certs : list string;
  (** the builders, given the certificate chain with its key, and the protocols *)
  server_config : list string → PemItem → list string → result Handle string;
  client_config : RootCertStore → option (list string * PemItem) → ServerVerifier → list string →
    result Handle string
}.

Section tls.
Context `{!TlsLib}.

Definition parse_cert (cert : string) : result (list string) string :=
  let? parsed := pem_read_all cert in
  try_map (λ p, match p with X509Certificate der => Ok der | _ => Err "no certificate" end) parsed.

Definition parse_key (key : string) : result PemItem string :=
  let? parsed := pem_read_one key in
  let? parsed := ok_or parsed "no key" in
  match parsed with
  | Pkcs8Key c => Ok (Pkcs8Key c)
  | Pkcs1Key c => Ok (Pkcs1Key c)
  | _ => Err "unsupported key"
  end.

Definition convert_tls_server (tls : LocalTLSServerConfig) : result TLSConfig string :=
  let? cert := read (lts_cert tls) in
  let? cert_chain := parse_cert cert in
  let? key := read (lts_key tls) in
  let? private_key := parse_key key in
  let? ccb := server_config cert_chain private_key ["h2"; "http/1.1"] in
  Ok {| tls_config := ccb |}.

Definition load_roots (root : option string) : cres RootCertStore :=
  match root with
  | Some root =>
    let! root := lift (read root) in
    let! certs := lift (pem_certs root) in
    Ret (Ok (foldl (λ r c, default r (roots_add r c)) roots_empty certs))
  | None => roots ← foldM (λ r c, expect (roots_add r c)) native_certs roots_empty; Ret (Ok roots)
  end.

(** [LocalBackendTLS::try_into] *)
Definition LocalBackendTLS_try_into (self : LocalBackendTLS) : cres BackendTLS :=
  let! roots := load_roots (lbt_root self) in
  let! auth :=
    match lbt_cert self, lbt_key self with
    | Some cert, Some key =>
      lift (let? cert := read cert in
            let? cert_chain := parse_cert cert in
            let? key := read key in
            let? private_key := parse_key key in
            Ok (Some (cert_chain, private_key)))
    | _, _ => Ret (Ok None)
    end in
  let verifier := if lbt_insecure_host self then NoServerNameVerification
                  else if lbt_insecure self then NoVerifier else WebPki in
  let! cc := lift (client_config roots auth verifier ["h2"; "http/1.1"]) in
  Ret (Ok {| btls_config := cc |}).
End tls.

(** * Routes *)

(** The policies collected so far, with the counters that name them. *)
Record Pending := mkPending { external_policies : list TargetedPolicy; pol : nat; be_pol : nat }.

Definition policy_name (key : string) (n : nat) : string := key +:+ "/" +:+ Str.display_nat (N.of_nat n).
Definition backend_policy_name (key : string) (n : nat) : string :=
  key +:+ "/backend-" +:+ Str.display_nat (N.of_nat n).

Definition tgt (key : string) (p : Policy) (st : Pending) : Pending :=
  let pol := S (pol st) in
  mkPending (external_policies st ++
      [{| tp_name := policy_name key pol; tp_target := PTRouteRule key; tp_policy := p |}]) pol (be_pol st).

Definition backend_tgt (key : string) (refs : list string) (p : Policy) (st : Pending) : cres Pending :=
  match refs with
  | [be] =>
    let be_pol := S (be_pol st) in
    Ret (Ok (mkPending (external_policies st ++
        [{| tp_name := backend_policy_name key be_pol; tp_target := PTBackend be; tp_policy := p |}])
        (pol st) be_pol))
  | _ => Ret (Err "backend policies currently only work with exactly 1 backend")
  end.

(** [if let Some(p) = o { .. }] *)
Definition if_some {A} (o : option A) (f : A → Pending → cres Pending) (st : Pending) : cres Pending :=
  match o with Some p => f p st | None => Ret (Ok st) end.

Section convert.
Context `{!TlsLib, !Jwt.JwtLib}.
(** Loading the keys of a token issuer, the parser of URIs, and the [Arc] of a
    key. *)
Context (load_jwks : Jwt.FileInlineOrRemote → result (list Jwt.JwkSpec) string).
Context (show_jwk_error : Jwt.JwkError → string) (parse_uri : string → result Uri string).
Context (arc : Jwt.Jwk → Handle).

Definition as_jwt (self : McpAuthentication) : result Jwt.LocalJwtConfig string :=
  let? url :=
    match provider self with
    | None | Some Auth0 => parse_uri (issuer self +:+ "/.well-known/jwks.json")
    | Some Keycloak => parse_uri (issuer self +:+ "/protocol/openid-connect/certs")
    end in
  Ok {| Jwt.lj_issuer := issuer self; Jwt.lj_audiences := [audience self]; Jwt.lj_jwks := Jwt.Remote url |}.

Definition load_jwt (p : Jwt.LocalJwtConfig) : cres AgentTypes.Jwt :=
  lift (let? keys := map_err show_jwk_error (Jwt.try_into load_jwks p) in Ok {| jwt_keys := arc <$> keys |}).

Definition filters_of (key : string) (p : FilterOrPolicy) : list RouteFilter * list Backend :=
  let mirror := (λ m, (to_simple_backend_and_ref (key +:+ "/mirror") (lrm_backend m), lrm_percentage m))
    <$> fp_request_mirror p in
  (option_list (RFRequestHeaderModifier <$> fp_request_header_modifier p) ++
   option_list (RFResponseHeaderModifier <$> fp_response_header_modifier p) ++
   option_list (RFRequestRedirect <$> fp_request_redirect p) ++
   option_list (RFUrlRewrite <$> fp_url_rewrite p) ++
   option_list ((λ m, RFRequestMirror {| mirror_backend := m.1.1; percentage := m.2 |}) <$> mirror) ++
   option_list (RFDirectResponse <$> fp_direct_response p) ++
   option_list (RFCORS <$> fp_cors p),
   option_list (m ← mirror; m.1.2)).

Definition policies_of_rule (key : string) (refs : list string) (p : FilterOrPolicy) : cres Pending :=
  let be := backend_tgt key refs in
  let! st := if_some (fp_mcp_authorization p) (λ x, be (PMcpAuthorization x)) (mkPending [] 0 0) in
  let! st := if_some (fp_mcp_authentication p) (λ x st,
      let! jp := lift (as_jwt x) in
      let! st := be (PMcpAuthentication x) st in
      let! j := load_jwt jp in
      Ret (Ok (tgt key (PJwtAuth j) st))) st in
  let! st := if_some (fp_a2a p) (λ x, be (PA2a x)) st in
  let! st := if_some (fp_ai p) (λ x, be (PAI x)) st in
  let! st := if_some (fp_backend_tls p) (λ x st,
      let! t := LocalBackendTLS_try_into x in be (PBackendTLS t) st) st in
  let! st := if_some (fp_backend_auth p) (λ x, be (PBackendAuth x)) st in
  let! st := if_some (fp_jwt_auth p) (λ x st,
      let! j := load_jwt x in Ret (Ok (tgt key (PJwtAuth j) st))) st in
  let! st := if_some (fp_transformations p) (λ x st, Ret (Ok (tgt key (PTransformation x) st))) st in
  let! st := if_some (fp_ext_authz p) (λ x st, Ret (Ok (tgt key (PExtAuthz x) st))) st in
  let st := if decide (fp_local_rate_limit p = []) then st
            else tgt key (PLocalRateLimit (fp_local_rate_limit p)) st in
  if_some (fp_remote_rate_limit p) (λ x st, Ret (Ok (tgt key (PRemoteRateLimit x) st))) st.

Definition default_timeout : TimeoutPolicy := {| request_timeout := None; backend_request_timeout := None |}.

Definition traffic_policy_of (p : option FilterOrPolicy) : TrafficPolicy :=
  {| tp_timeout := default default_timeout (p ← p; fp_timeout p); tp_retry := (p ← p; fp_retry p) |}.

(** [format!("{listener_key}/{route_name}/{rule_name}")] *)
Definition rule_key (listener_key route_name : string) (rule_name : option string) : string :=
  listener_key +:+ "/" +:+ route_name +:+ "/" +:+ default "default" rule_name.

Definition local_route_name (lr : LocalRoute) (idx : nat) : string :=
  default ("route" +:+ Str.display_nat (N.of_nat idx)) (lr_route_name lr).

Definition local_route_key (listener_key : string) (idx : nat) (lr : LocalRoute) : string :=
  rule_key listener_key (local_route_name lr idx) (lr_rule_name lr).

Definition convert_route (lr : LocalRoute) (idx : nat) (listener_key : string)
    : cres (Route * list TargetedPolicy * list Backend) :=
  let key := local_route_key listener_key idx lr in
  let refs := (λ b, {| rbr_weight := lrb_weight b; rbr_backend := backend_reference key (lrb_backend b);
                       rbr_filters := [] |}) <$> lr_backends lr in
  let external_backends := concat ((λ b,
      as_backends (lrb_backend b) (BackendReference_name (backend_reference key (lrb_backend b))))
      <$> lr_backends lr) in
  let '(filters, mirror) :=
    match lr_policies lr with Some p => filters_of key p | None => ([], []) end in
  let! st :=
    match lr_policies lr with
    | Some p => policies_of_rule key ((λ r, BackendReference_name (rbr_backend r)) <$> refs) p
    | None => Ret (Ok (mkPending [] 0 0))
    end in
  Ret (Ok ({| route_key := key;
              route_name := local_route_name lr idx;
              route_rule_name := lr_rule_name lr;
              route_hostnames := lr_hostnames lr;
              route_matches := lr_matches lr;
              route_filters := filters;
              route_backends := refs;
              route_policies := Some (traffic_policy_of (lr_policies lr)) |},
           external_policies st, external_backends ++ mirror)).

(** The field [backends] of the route is [todo!()]: there is no result. *)
Definition convert_tcp_route (lr : LocalTCPRoute) (idx : nat) (listener_key : string)
    : cres (TCPRoute * list TargetedPolicy) :=
  let key := rule_key listener_key
    (default ("tcproute" +:+ Str.display_nat (N.of_nat idx)) (ltr_route_name lr)) (ltr_rule_name lr) in
  let refs := (λ b, SimpleBackendReference_name (to_simple_backend_and_ref key (ltb_backend b)).1)
    <$> ltr_backends lr in
  let! _ :=
    match ltr_policies lr with
    | Some (Some p) =>
      let! t := LocalBackendTLS_try_into p in backend_tgt key refs (PBackendTLS t) (mkPending [] 0 0)
    | _ => Ret (Ok (mkPending [] 0 0))
    end in
  Panic.

(** * Listeners and binds *)

Fixpoint convert_routes (listener_key : string) (idx : nat) (l : list LocalRoute)
    (acc : RouteSet.t * list TargetedPolicy * list Backend)
    : cres (RouteSet.t * list TargetedPolicy * list Backend) :=
  match l with
  | [] => Ret (Ok acc)
  | lr :: l =>
    let '(rs, all_policies, all_backends) := acc in
    let! (route, policies, backends) := convert_route lr idx listener_key in
    rs ← RouteSet.insert rs route;
    convert_routes listener_key (S idx) l (rs, all_policies ++ policies, all_backends ++ backends)
  end.

Fixpoint convert_tcp_routes (listener_key : string) (idx : nat) (l : list LocalTCPRoute)
    (acc : TCPRouteSet.t * list TargetedPolicy) : cres (TCPRouteSet.t * list TargetedPolicy) :=
  match l with
  | [] => Ret (Ok acc)
  | lr :: l =>
    let! (route, policies) := convert_tcp_route lr idx listener_key in
    trs ← TCPRouteSet.insert acc.1 route;
    convert_tcp_routes listener_key (S idx) l (trs, acc.2 ++ policies)
  end.

Definition convert_protocol (l : LocalListener) : result ListenerProtocol string :=
  match ll_protocol l with
  | LHTTP => if decide (ll_routes l = None) then Err "protocol HTTP requires 'routes'" else Ok LPHTTP
  | LHTTPS =>
    if decide (ll_routes l = None) then Err "protocol HTTPS requires 'routes'"
    else let? t := ok_or (ll_tls l) "HTTPS listener requires 'tls'" in
         let? t := convert_tls_server t in Ok (LPHTTPS t)
  | LTLS =>
    if decide (ll_tcp_routes l = None) then Err "protocol TLS requires 'tcpRoutes'"
    else let? t := ok_or (ll_tls l) "TLS listener requires 'tls'" in
         let? t := convert_tls_server t in Ok (LPTLS t)
  | LTCP => if decide (ll_tcp_routes l = None) then Err "protocol TCP requires 'tcpRoutes'" else Ok LPTCP
  | LHBONE => Ok LPHBONE
  end.

Definition local_listener_name (l : LocalListener) (idx : nat) : string :=
  default ("listener" +:+ Str.display_nat (N.of_nat idx)) (ll_name l).
Definition local_gateway_name (l : LocalListener) (bind_name : string) : string :=
  default bind_name (ll_gateway_name l).
Definition local_listener_key (bind_name : string) (idx : nat) (l : LocalListener) : string :=
  local_listener_name l idx +:+ "/" +:+ local_gateway_name l bind_name.

Definition convert_listener (bind_name : string) (idx : nat) (l : LocalListener)
    : cres (Listener * list TargetedPolicy * list Backend) :=
  let! protocol := lift (convert_protocol l) in
  if bool_decide (is_Some (ll_tcp_routes l) ∧ is_Some (ll_routes l)) then
    Ret (Err "only 'routes' or 'tcpRoutes' may be set")
  else
    let key := local_listener_key bind_name idx l in
    let! (rs, policies, backends) :=
      convert_routes key 0 (default [] (ll_routes l)) (RouteSet.default_set, [], []) in
    let! (trs, tcp_policies) :=
      convert_tcp_routes key 0 (default [] (ll_tcp_routes l)) (TCPRouteSet.default_set, []) in
    Ret (Ok ({| l_key := key;
                l_name := local_listener_name l idx;
                l_gateway_name := local_gateway_name l bind_name;
                l_hostname := default "" (ll_hostname l);
                l_protocol := protocol;
                l_routes := rs;
                l_tcp_routes := trs |}, policies ++ tcp_policies, backends)).

Fixpoint convert_listeners (bind_name : string) (idx : nat) (l : list LocalListener)
    (acc : ListenerSet.t * list TargetedPolicy * list Backend)
    : cres (ListenerSet.t * list TargetedPolicy * list Backend) :=
  match l with
  | [] => Ret (Ok acc)
  | ll :: l =>
    let '(ls, all_policies, all_backends) := acc in
    let! (lis, pol, backends) := convert_listener bind_name idx ll in
    convert_listeners bind_name (S idx) l
      (ListenerSet.insert ls lis, all_policies ++ pol, all_backends ++ backends)
  end.

Definition bind_name_of (b : LocalBind) : string := "bind/" +:+ Str.display_nat (lb_port b).

(** [Ipv6Addr::UNSPECIFIED] *)
Definition unspecified : IpAddr := V6 (String.concat "" (replicate 16 (octet 0))).

Fixpoint convert_binds (l : list LocalBind) (acc : list Bind * list TargetedPolicy * list Backend)
    : cres (list Bind * list TargetedPolicy * list Backend) :=
  match l with
  | [] => Ret (Ok acc)
  | b :: l =>
    let '(all_binds, all_policies, all_backends) := acc in
    let! (ls, all_policies, all_backends) :=
      convert_listeners (bind_name_of b) 0 (lb_listeners b) (∅, all_policies, all_backends) in
    let bind := {| b_key := bind_name_of b;
                   b_address := {| sa_ip := unspecified; sa_port := lb_port b |};
                   b_listeners := ls |} in
    convert_binds l (all_binds ++ [bind], all_policies, all_backends)
  end.

Definition convert (i : LocalConfig) : cres NormalizedLocalConfig :=
  let! (all_binds, all_policies, all_backends) := convert_binds (lc_binds i) ([], [], []) in
  Ret (Ok {| nc_binds := all_binds; nc_policies := all_policies; nc_backends := all_backends;
             nc_workloads := lc_workloads i; nc_services := lc_services i |}).

(** ** Loading *)

(** [shellexpand::full] and [serdes::yamlviajson::from_str]. *)
Context (shellexpand_full : string → result string string).
Context (from_str : string → result LocalConfig string).

Definition NormalizedLocalConfig_from (s : string) : cres NormalizedLocalConfig :=
  let s := Str.replace "# yaml-language-server: $schema" "#" s in
  let! s := lift (shellexpand_full s) in
  let! config := lift (from_str s) in
  convert config.

Record Stores := { st_binds : BindStore.t; st_discovery : DiscoveryStore.t }.
Record PreviousState := { prev_binds : BindStore.PreviousState; prev_discovery : DiscoveryStore.PreviousState }.

Context `{!HashIter string Bind, !HashIter string Listener, !HashIter string Route}.
Context `{!SetIter string, !SetIter NamespacedHostname.t}.
Context `{!HashIter string Endpoint.t, !HashIter string (list Proto.Port), !HashIter N N}.

(** [LocalClient::reload_config], given what the file holds. *)
Definition reload_config (s : Stores) (prev : PreviousState) (content : result string string)
    : comp (Stores * result PreviousState string) :=
  config ← (let! content := lift content in NormalizedLocalConfig_from content);
  match config with
  | Err e => Ret (s, Err e)
  | Ok config =>
    '(b, next_binds) ← BindStore.sync_local (st_binds s) (nc_binds config) (nc_policies config)
                         (nc_backends config) (prev_binds prev);
    let '(d, next_discovery) := DiscoveryStore.sync_local (st_discovery s) (nc_services config)
                                  (nc_workloads config) (prev_discovery prev) in
    Ret ({| st_binds := b; st_discovery := d |},
         Ok {| prev_binds := next_binds; prev_discovery := next_discovery |})
  end.

(** ** Watching *)

(** [notify::EventKind] *)
Inductive EventKind := Modify | Create | OtherEvent.
Definition content_changed (events : list EventKind) : bool :=
  existsb (λ e, match e with Modify | Create => true | OtherEvent => false end) events.

(** Where the task of [watch_config_file] is after the reports it was given. *)
Inductive WatchEnd :=
| Watching (next_state : PreviousState)
| WatcherFailed
| TaskPanicked.

(** The task of [watch_config_file]: what the watcher reports, and what the file
    holds when it is read then.  An error of the watcher ends the loop, which drops
    the watcher.  A conversion that panics, which it does before the stores are
    touched, ends the task. *)
Fixpoint watch (reports : list (result (list EventKind) () * result string string)) (s : Stores)
    (next_state : PreviousState) : comp (Stores * WatchEnd) :=
  match reports with
  | [] => Ret (s, Watching next_state)
  | (Err _, _) :: _ => Ret (s, WatcherFailed)
  | (Ok events, content) :: reports =>
    if content_changed events then
      match (let! content := lift content in NormalizedLocalConfig_from content) with
      | Panic => Ret (s, TaskPanicked)
      | Ret _ =>
        '(s, r) ← reload_config s next_state content;
        watch reports s (match r with Ok nxt => nxt | Err _ => next_state end)
      end
    else watch reports s next_state
  end.

(** The first load must succeed. *)
Definition watch_config_file (s : Stores) (prev : PreviousState) (content : result string string)
    (reports : list (result (list EventKind) () * result string string))
    : comp (Stores * result WatchEnd string) :=
  '(s, r) ← reload_config s prev content;
  match r with
  | Err e => Ret (s, Err e)
  | Ok next_state => '(s, w) ← watch reports s next_state; Ret (s, Ok w)
  end.
End convert.

(** * Names *)

(** The last segment of a name. *)
Lemma last_segment_inj k1 k2 s1 s2 :
  Str.contains_char "/" s1 = false → Str.contains_char "/" s2 = false →
  k1 +:+ String "/" s1 = k2 +:+ String "/" s2 → k1 = k2 ∧ s1 = s2.
Proof.
  intros H1 H2 Heq. apply (f_equal (Str.split "/")) in Heq.
  rewrite !Str.split_app_sep, (Str.split_no_sep _ s1), (Str.split_no_sep _ s2) in Heq by done.
  apply app_inj_tail in Heq as [Hk ->]. split; [|done].
  by rewrite <-(Str.join_split "/" k1), Hk, Str.join_split.
Qed.

(** The suffixes of the names of a route's policies. *)
Inductive policy_suffix : nat + nat → string → Prop :=
| suffix_rule n : policy_suffix (inl n) (Str.display_nat (N.of_nat n))
| suffix_backend n : policy_suffix (inr n) ("backend-" +:+ Str.display_nat (N.of_nat n)).

Lemma policy_suffix_no_slash x s : policy_suffix x s → Str.contains_char "/" s = false.
Proof.
  destruct 1; [by apply Str.display_nat_digits|]. rewrite !Str.app_cons, !Str.contains_char_cons. simpl.
  by apply Str.display_nat_digits.
Qed.

Lemma policy_suffix_inj x y s : policy_suffix x s → policy_suffix y s → x = y.
Proof.
  assert (∀ n m, Str.display_nat n ≠ "backend-" +:+ Str.display_nat m) as Hne.
  { intros n m Heq. apply (f_equal (Str.contains_char "b")) in Heq.
    rewrite Str.display_nat_digits in Heq by done. by rewrite Str.app_cons, Str.contains_char_cons in Heq. }
  destruct 1 as [n|n]; inversion 1 as [m Heq Hm|m Heq Hm].
  - apply Str.display_nat_inj in Hm. f_equal. lia.
  - by destruct (Hne _ _ (eq_sym Hm)).
  - by destruct (Hne _ _ Hm).
  - apply (Str.display_nat_inj (N.of_nat m) (N.of_nat n)) in Hm. f_equal. lia.
Qed.

(** * The policies of a route *)

(** A policy with the name and the target that a route with this key gives. *)
Definition named_for (key : string) (p : TargetedPolicy) (x : nat + nat) : Prop :=
  ∃ s, policy_suffix x s ∧ tp_name p = key +:+ String "/" s ∧
    match x with inl _ => tp_target p = PTRouteRule key | inr _ => ∃ be, tp_target p = PTBackend be end.

(** The counters bound the suffixes in use, each of which is used once. *)
Record pending_ok (key : string) (st : Pending) : Prop := {
  pok_ids : ∃ ids, Forall2 (named_for key) (external_policies st) ids ∧ NoDup ids ∧
    Forall (λ x, match x with inl n => n ≤ pol st | inr n => n ≤ be_pol st end) ids
}.

(** The policies on the route itself. *)
Definition on_rule (key : string) (l : list TargetedPolicy) : list Policy :=
  omap (λ p, if decide (tp_target p = PTRouteRule key) then Some (tp_policy p) else None) l.

Lemma tgt_ok key p st :
  pending_ok key st →
  pending_ok key (tgt key p st) ∧
  on_rule key (external_policies (tgt key p st)) = on_rule key (external_policies st) ++ [p].
Proof.
  intros [(ids & Hids & Hnd & Hb)]. split.
  - split. exists (ids ++ [inl (S (pol st))]). simpl. split_and!.
    + apply Forall2_app; [done|]. constructor; [|done].
      exists (Str.display_nat (N.of_nat (S (pol st)))). split_and!; [constructor|done|done].
    + apply NoDup_app. split_and!; [done| |apply NoDup_singleton].
      intros x Hx ->%list_elem_of_singleton. rewrite Forall_forall in Hb. specialize (Hb _ Hx). simpl in Hb. lia.
    + apply Forall_app. split; [|constructor; [lia|done]].
      eapply Forall_impl; [exact Hb|]. intros [n|n]; simpl; lia.
  - unfold on_rule. simpl. rewrite omap_app. simpl. by rewrite decide_True.
Qed.

Lemma backend_tgt_ok key refs p st st' :
  backend_tgt key refs p st = Ret (Ok st') → pending_ok key st →
  pending_ok key st' ∧ on_rule key (external_policies st') = on_rule key (external_policies st).
Proof.
  unfold backend_tgt. intros Hst [(ids & Hids & Hnd & Hb)].
  destruct refs as [|be [|]]; simplify_eq. split.
  - split. exists (ids ++ [inr (S (be_pol st))]). simpl. split_and!.
    + apply Forall2_app; [done|]. constructor; [|done].
      exists ("backend-" +:+ Str.display_nat (N.of_nat (S (be_pol st)))).
      split_and!; [constructor|done|by eexists].
    + apply NoDup_app. split_and!; [done| |apply NoDup_singleton].
      intros x Hx ->%list_elem_of_singleton. rewrite Forall_forall in Hb. specialize (Hb _ Hx). simpl in Hb. lia.
    + apply Forall_app. split; [|constructor; [lia|done]].
      eapply Forall_impl; [exact Hb|]. intros [n|n]; simpl; lia.
  - unfold on_rule. simpl. rewrite omap_app. simpl. by rewrite app_nil_r.
Qed.

(** A step of [policies_of_rule] that adds the policies [ps] to the route. *)
Definition adds (key : string) (f : Pending → cres Pending) (ps : list Policy) : Prop :=
  ∀ st st', f st = Ret (Ok st') → pending_ok key st →
    pending_ok key st' ∧ on_rule key (external_policies st') = on_rule key (external_policies st) ++ ps.

Lemma adds_backend key refs p : adds key (backend_tgt key refs p) [].
Proof. intros st st' H Hok. rewrite app_nil_r. by apply (backend_tgt_ok _ refs p). Qed.

Lemma adds_rule key p : adds key (λ st, Ret (Ok (tgt key p st))) [p].
Proof. intros st st' [= <-] Hok. by apply tgt_ok. Qed.

Lemma adds_if_some {A} key (o : option A) f ps :
  (∀ x, o = Some x → adds key (f x) ps) → (o = None → ps = []) → adds key (if_some o f) ps.
Proof.
  intros Hs Hn st st' H Hok. destruct o as [x|]; [by apply (Hs x)|]. injection H as <-.
  by rewrite (Hn eq_refl), app_nil_r.
Qed.

Lemma adds_load {A} key (c : cres A) (g : A → Pending → cres Pending) ps :
  (∀ x, c = Ret (Ok x) → adds key (g x) ps) → adds key (λ st, let! x := c in g x st) ps.
Proof. intros Hg st st' (x & Hx & H)%cbind_Ok Hok. by apply (Hg x Hx). Qed.

Section rules.
Context {TL : TlsLib} {JL : Jwt.JwtLib}.
Context (load_jwks : Jwt.FileInlineOrRemote → result (list Jwt.JwkSpec) string).
Context (show_jwk_error : Jwt.JwkError → string) (parse_uri : string → result Uri string).
Context (arc : Jwt.Jwk → Handle).

Abbreviation load_jwt := (load_jwt load_jwks show_jwk_error arc).
Abbreviation as_jwt := (as_jwt parse_uri).
Abbreviation policies_of_rule := (policies_of_rule load_jwks show_jwk_error parse_uri arc).
Abbreviation convert_route := (convert_route load_jwks show_jwk_error parse_uri arc).

(** The validators a rule configures: the one of the MCP authentication, and its
    own. *)
Definition mcp_jwt_of (p : FilterOrPolicy) (o : option AgentTypes.Jwt) : Prop :=
  match fp_mcp_authentication p with
  | None => o = None
  | Some m => ∃ cfg j, as_jwt m = Ok cfg ∧ load_jwt cfg = Ret (Ok j) ∧ o = Some j
  end.
Definition jwt_of (p : FilterOrPolicy) (o : option AgentTypes.Jwt) : Prop :=
  match fp_jwt_auth p with
  | None => o = None
  | Some cfg => ∃ j, load_jwt cfg = Ret (Ok j) ∧ o = Some j
  end.

Definition rule_policies (p : FilterOrPolicy) (mcp_jwt jwt : option AgentTypes.Jwt) : list Policy :=
  (PJwtAuth <$> option_list mcp_jwt ++ option_list jwt) ++
  (PTransformation <$> option_list (fp_transformations p)) ++
  (PExtAuthz <$> option_list (fp_ext_authz p)) ++
  (if decide (fp_local_rate_limit p = []) then [] else [PLocalRateLimit (fp_local_rate_limit p)]) ++
  (PRemoteRateLimit <$> option_list (fp_remote_rate_limit p)).

Lemma adds_option {A} key (o : option A) (f : A → Policy) :
  adds key (if_some o (λ x st, Ret (Ok (tgt key (f x) st)))) (f <$> option_list o).
Proof.
  apply adds_if_some; [|by intros ->]. intros x ->. apply adds_rule.
Qed.

Lemma adds_backend_option {A} key refs (o : option A) (f : A → Policy) :
  adds key (if_some o (λ x, backend_tgt key refs (f x))) [].
Proof. apply adds_if_some; [|done]. intros x _. apply adds_backend. Qed.

Lemma policies_of_rule_ok key refs p st :
  policies_of_rule key refs p = Ret (Ok st) →
  pending_ok key st ∧ ∃ mcp_jwt jwt, mcp_jwt_of p mcp_jwt ∧ jwt_of p jwt ∧
    on_rule key (external_policies st) = rule_policies p mcp_jwt jwt.
Proof.
  assert (pending_ok key (mkPending [] 0 0)) as K0.
  { split. exists []. repeat constructor. }
  unfold LocalConfig.policies_of_rule.
  intros (s1 & H1 & (s2 & H2 & (s3 & H3 & (s4 & H4 & (s5 & H5 & (s6 & H6 & (s7 & H7 & (s8 & H8 &
    (s9 & H9 & H10)%cbind_Ok)%cbind_Ok)%cbind_Ok)%cbind_Ok)%cbind_Ok)%cbind_Ok)%cbind_Ok)%cbind_Ok)%cbind_Ok.
  destruct (adds_backend_option _ _ _ _ _ _ H1 K0) as [K1 E1].
  assert (∃ mcp_jwt, mcp_jwt_of p mcp_jwt ∧ pending_ok key s2 ∧
    on_rule key (external_policies s2) = PJwtAuth <$> option_list mcp_jwt) as (mj & Hmj & K2 & E2).
  { unfold mcp_jwt_of. destruct (fp_mcp_authentication p) as [m|]; cbn [if_some] in H2.
    - apply cbind_Ok in H2 as (cfg & Hcfg & (st1 & Hb & (j & Hj & Hst)%cbind_Ok)%cbind_Ok).
      destruct (adds_backend _ _ _ _ _ Hb K1) as [Kb Eb]. injection Hst as <-.
      destruct (tgt_ok _ (PJwtAuth j) _ Kb) as [Kt Et]. exists (Some j).
      split; [injection Hcfg as Hcfg; eauto|]. split; [done|]. by rewrite Et, Eb, E1.
    - injection H2 as <-. exists None. by rewrite E1. }
  destruct (adds_backend_option _ _ _ _ _ _ H3 K2) as [K3 E3].
  destruct (adds_backend_option _ _ _ _ _ _ H4 K3) as [K4 E4].
  assert (adds key (if_some (fp_backend_tls p) (λ x st,
      let! t := LocalBackendTLS_try_into x in backend_tgt key refs (PBackendTLS t) st)) []) as A5
    by (apply adds_if_some; [intros x _; apply adds_load; intros t _; apply adds_backend|done]).
  destruct (A5 _ _ H5 K4) as [K5 E5].
  destruct (adds_backend_option _ _ _ _ _ _ H6 K5) as [K6 E6].
  assert (∃ jwt, jwt_of p jwt ∧ pending_ok key s7 ∧
    on_rule key (external_policies s7) = on_rule key (external_policies s6) ++ (PJwtAuth <$> option_list jwt))
    as (j & Hj & K7 & E7).
  { unfold jwt_of. destruct (fp_jwt_auth p) as [cfg|]; cbn [if_some] in H7.
    - apply cbind_Ok in H7 as (j & Hj & Hst). injection Hst as <-.
      destruct (tgt_ok _ (PJwtAuth j) _ K6) as [Kt Et]. exists (Some j). eauto.
    - injection H7 as <-. exists None. by rewrite app_nil_r. }
  destruct (adds_option _ _ _ _ _ H8 K7) as [K8 E8]. destruct (adds_option _ _ _ _ _ H9 K8) as [K9 E9].
  edestruct (adds_option _ _ _ _ _ H10) as [K10 E10].
  { destruct (decide _); [done|]. by apply tgt_ok. }
  split; [done|]. exists mj, j. split_and!; [done..|].
  rewrite E10. unfold rule_policies. rewrite fmap_app, !app_assoc. f_equal.
  destruct (decide _); [|rewrite (proj2 (tgt_ok _ _ _ K9)); f_equal];
    by rewrite ?app_nil_r, E9, E8, E7, E6, E5, E4, E3, E2, !app_nil_r.
Qed.

(** * The rules of a configuration, with their keys *)

Abbreviation convert_routes := (convert_routes load_jwks show_jwk_error parse_uri arc).
Abbreviation convert_listener := (convert_listener load_jwks show_jwk_error parse_uri arc).
Abbreviation convert_listeners := (convert_listeners load_jwks show_jwk_error parse_uri arc).
Abbreviation convert_binds := (convert_binds load_jwks show_jwk_error parse_uri arc).
Abbreviation convert := (convert load_jwks show_jwk_error parse_uri arc).

Definition route_rules (listener_key : string) (idx : nat) (l : list LocalRoute) : list (string * LocalRoute) :=
  imap (λ i lr, (local_route_key listener_key (idx + i) lr, lr)) l.

Definition listener_rules (bind_name : string) (idx : nat) (l : LocalListener) : list (string * LocalRoute) :=
  route_rules (local_listener_key bind_name idx l) 0 (default [] (ll_routes l)).

Definition bind_rules (b : LocalBind) : list (string * LocalRoute) :=
  concat (imap (listener_rules (bind_name_of b)) (lb_listeners b)).

Definition config_rules (c : LocalConfig) : list (string * LocalRoute) := concat (bind_rules <$> lc_binds c).

(** The policies [ps] of a rule: none without a policy, else what
    [policies_of_rule] makes of it. *)
Definition rule_converted (r : string * LocalRoute) (ps : list TargetedPolicy) : Prop :=
  match lr_policies r.2 with
  | None => ps = []
  | Some p => ∃ refs st, policies_of_rule r.1 refs p = Ret (Ok st) ∧ ps = external_policies st
  end.

(** The policies of [rules], appended to [P]. *)
Definition extends (rules : list (string * LocalRoute)) (P P' : list TargetedPolicy) : Prop :=
  ∃ pss, P' = P ++ concat pss ∧ Forall2 rule_converted rules pss.

Lemma extends_nil P : extends [] P P.
Proof. exists []. by rewrite app_nil_r. Qed.

Lemma extends_app r1 r2 P1 P2 P3 : extends r1 P1 P2 → extends r2 P2 P3 → extends (r1 ++ r2) P1 P3.
Proof.
  intros (l1 & -> & H1) (l2 & -> & H2). exists (l1 ++ l2).
  by rewrite concat_app, app_assoc; split; [|apply Forall2_app].
Qed.

Lemma convert_route_extends lr idx key route ps bes P :
  convert_route lr idx key = Ret (Ok (route, ps, bes)) →
  extends [(local_route_key key idx lr, lr)] P (P ++ ps).
Proof.
  intros H. exists [ps]. simpl. rewrite app_nil_r. split; [done|]. constructor; [|done].
  unfold LocalConfig.convert_route, rule_converted in *. simpl. destruct (lr_policies lr) as [p|].
  - destruct (filters_of _ p) as [filters mirror]. apply cbind_Ok in H as (st & Hst & H).
    injection H as _ <- _. eauto.
  - by injection H as _ <- _.
Qed.

Lemma convert_routes_extends key idx l rs P B rs' P' B' :
  convert_routes key idx l (rs, P, B) = Ret (Ok (rs', P', B')) → extends (route_rules key idx l) P P'.
Proof.
  revert idx rs P B. induction l as [|lr l IH]; intros idx rs P B; cbn [LocalConfig.convert_routes].
  - intros [= _ <- _]. apply extends_nil.
  - intros ([[route ps] bes] & Hr & (rs1 & _ & H)%comp_bind_Ret)%cbind_Ok. apply IH in H.
    unfold route_rules. simpl. rewrite Nat.add_0_r.
    apply (extends_app [_] _ _ _ _ (convert_route_extends _ _ _ _ _ _ P Hr)).
    unfold route_rules in H. erewrite imap_ext; [exact H|]. intros i x _. simpl. by rewrite Nat.add_succ_r.
Qed.

Lemma convert_tcp_routes_nil key idx l acc trs :
  convert_tcp_routes key idx l acc = Ret (Ok trs) → l = [] ∧ trs = acc.
Proof.
  destruct l as [|lr l]; simpl; [by intros [= ->]|].
  intros (x & H & _)%cbind_Ok. unfold convert_tcp_route in H. by apply cbind_Ok in H as (y & _ & H).
Qed.

Lemma convert_listener_extends bind_name idx l lis ps bes P :
  convert_listener bind_name idx l = Ret (Ok (lis, ps, bes)) →
  extends (listener_rules bind_name idx l) P (P ++ ps).
Proof.
  unfold LocalConfig.convert_listener. intros (proto & _ & H)%cbind_Ok. case_bool_decide; [done|].
  apply cbind_Ok in H as ([[rs policies] backends] & Hr & ([trs tcp] & Ht & H)%cbind_Ok).
  apply convert_tcp_routes_nil in Ht as [_ Ht]. simplify_eq. rewrite app_nil_r.
  apply convert_routes_extends in Hr as (pss & -> & Hpss). by exists pss.
Qed.

Lemma convert_listeners_extends bind_name idx l ls P B ls' P' B' :
  convert_listeners bind_name idx l (ls, P, B) = Ret (Ok (ls', P', B')) →
  extends (concat (imap (λ i, listener_rules bind_name (idx + i)) l)) P P'.
Proof.
  revert idx ls P B. induction l as [|ll l IH]; intros idx ls P B; cbn [LocalConfig.convert_listeners].
  - intros [= _ <- _]. apply extends_nil.
  - intros ([[lis ps] bes] & Hl & H)%cbind_Ok. apply IH in H. simpl. rewrite Nat.add_0_r.
    eapply extends_app; [by apply (convert_listener_extends _ _ _ _ _ _ P) in Hl|].
    erewrite imap_ext; [exact H|]. intros i x _. simpl. by rewrite Nat.add_succ_r.
Qed.

Lemma convert_binds_extends l bs P B bs' P' B' :
  convert_binds l (bs, P, B) = Ret (Ok (bs', P', B')) → extends (concat (bind_rules <$> l)) P P'.
Proof.
  revert bs P B. induction l as [|b l IH]; intros bs P B; cbn [LocalConfig.convert_binds].
  - intros [= _ <- _]. apply extends_nil.
  - intros ([[ls ps] bes] & Hl & H)%cbind_Ok. apply IH in H. simpl.
    by eapply extends_app; [apply (convert_listeners_extends _ 0) in Hl|].
Qed.

Lemma convert_extends c n :
  convert c = Ret (Ok n) → extends (config_rules c) [] (nc_policies n).
Proof.
  unfold LocalConfig.convert. intros ([[bs ps] bes] & Hb & H)%cbind_Ok. injection H as <-.
  by apply convert_binds_extends in Hb.
Qed.
End rules.
