(* ===== verification/LocalReload.v ===== *)
(** LocalReload: what loading a configuration file gives: the stores after any
    sequence of reloads ([LocalClient] of [state_manager.rs] with the [sync_local]
    of [store/binds.rs]), the policies that a request meets under them, and what
    becomes of the backends and of TCP routes. *)
From S2P Require Import Prelude Strs Json Http DiscoveryTypes IpParse AgentTypes RouteSet Routing Discovery BindStore BindPolicies Auth LocalConfig.

(** * The bind store after a synchronization *)

Section sync.
Context `{!HashIter string Bind, !HashIter string Listener, !HashIter string Route, !SetIter string}.

(** The store holds exactly these binds, policies and backends, and nothing waits
    to be installed. *)
Record holds (s : BindStore.t) (binds : gmap string Bind) (pols : gmap string TargetedPolicy)
    (backends : gmap string Backend) : Prop := {
  h_binds : BindStore.by_name s = binds;
  h_policies : BindStore.policies_by_name s = pols;
  h_backends : BindStore.backends_by_name s = backends;
  h_index : policies_wf s;
  h_staged : BindStore.staged_listeners s = ∅
}.

Lemma holds_insert_binds l s binds pols bes :
  holds s binds pols bes →
  ∃ s', foldM BindStore.insert_bind l s = Ret s' ∧ holds s' (load_map b_key l binds) pols bes.
Proof.
  revert s binds. induction l as [|b l IH]; intros s binds [Hb Hp Hbe Hi Hs]; simpl; [eauto using Build_holds|].
  unfold BindStore.insert_bind. rewrite Hs, lookup_empty. simpl. 
  assert (hm_iter (∅ : gmap string Listener) = []) as ->.
  { apply Permutation_nil_r. by rewrite hm_iter_perm, map_to_list_empty. }
  simpl. apply IH. split; simpl; [by rewrite Hb|done..| |by rewrite delete_empty].
  destruct Hi as [Hn Hi]. by split.
Qed.

Lemma holds_insert_backends l s binds pols bes :
  holds s binds pols bes → holds (foldl BindStore.insert_backend s l) binds pols (load_map Backend_name l bes).
Proof.
  revert s bes. induction l as [|b l IH]; intros s bes [Hb Hp Hbe [Hn Hi] Hs]; simpl; [done|].
  apply IH. split; simpl; [done|done|by rewrite Hbe|by split|done].
Qed.

Lemma holds_insert_policies l s binds pols bes :
  holds s binds pols bes → holds (foldl BindStore.insert_policy s l) binds (load_map tp_name l pols) bes.
Proof.
  revert s pols. induction l as [|p l IH]; intros s pols [Hb Hp Hbe Hi Hs]; simpl; [done|].
  apply IH. destruct (insert_policy_spec s p Hi) as [Hi' Hp']. split; [done|by rewrite Hp', Hp|done..].
Qed.

Lemma holds_remove_binds l s binds pols bes :
  holds s binds pols bes → holds (foldl BindStore.remove_bind s l) (foldl (λ m k, delete k m) binds l) pols bes.
Proof.
  revert s binds. induction l as [|k l IH]; intros s binds [Hb Hp Hbe [Hn Hi] Hs]; simpl; [done|].
  apply IH. unfold BindStore.remove_bind. destruct (_ !! k) as [b|] eqn:E.
  - split; simpl; [by rewrite Hb|done|done|by split|done].
  - split; [|done|done|by split|done]. by rewrite delete_id; rewrite <-Hb.
Qed.

Lemma holds_remove_policies l s binds pols bes :
  holds s binds pols bes → holds (foldl BindStore.remove_policy s l) binds (foldl (λ m k, delete k m) pols l) bes.
Proof.
  revert s pols. induction l as [|k l IH]; intros s pols [Hb Hp Hbe Hi Hs]; simpl; [done|].
  apply IH. destruct (remove_policy_spec s k Hi) as [Hi' Hp'].
  assert (BindStore.by_name (BindStore.remove_policy s k) = BindStore.by_name s ∧
    BindStore.backends_by_name (BindStore.remove_policy s k) = BindStore.backends_by_name s ∧
    BindStore.staged_listeners (BindStore.remove_policy s k) = BindStore.staged_listeners s) as (E1 & E2 & E3).
  { unfold BindStore.remove_policy. by destruct (_ !! k). }
  split; [by rewrite E1|by rewrite Hp', Hp|by rewrite E2|done|by rewrite E3].
Qed.

Lemma holds_remove_backends l s binds pols bes :
  holds s binds pols bes → holds (foldl BindStore.remove_backend s l) binds pols (foldl (λ m k, delete k m) bes l).
Proof.
  revert s bes. induction l as [|k l IH]; intros s bes [Hb Hp Hbe [Hn Hi] Hs]; simpl; [done|].
  apply IH. split; simpl; [done|done|by rewrite Hbe|by split|done].
Qed.

(** The names that [prev] lists cover what the store holds. *)
Definition covers (prev : BindStore.PreviousState) (binds : gmap string Bind)
    (pols : gmap string TargetedPolicy) (bes : gmap string Backend) : Prop :=
  dom binds ⊆ BindStore.ps_binds prev ∧ dom pols ⊆ BindStore.ps_policies prev ∧
  dom bes ⊆ BindStore.ps_backends prev.

Lemma sync_local_replaces s binds pols bes prev nb np nbe :
  holds s binds pols bes → covers prev binds pols bes →
  ∃ s' prev', BindStore.sync_local s nb np nbe prev = Ret (s', prev') ∧
    holds s' (load_map b_key nb ∅) (load_map tp_name np ∅) (load_map Backend_name nbe ∅) ∧
    covers prev' (load_map b_key nb ∅) (load_map tp_name np ∅) (load_map Backend_name nbe ∅).
Proof.
  intros Hs (Hb & Hp & Hbe). unfold BindStore.sync_local.
  destruct (holds_insert_binds nb s binds pols bes Hs) as (s1 & -> & Hs1). simpl.
  eexists _, _. split; [done|]. split.
  - rewrite <-(replace_table b_key (BindStore.ps_binds prev) nb binds Hb),
      <-(replace_table tp_name (BindStore.ps_policies prev) np pols Hp),
      <-(replace_table Backend_name (BindStore.ps_backends prev) nbe bes Hbe).
    by apply holds_remove_backends, holds_remove_policies, holds_remove_binds, holds_insert_policies,
      holds_insert_backends.
  - split_and!; simpl; apply dom_load_map.
Qed.
End sync.

(** * The policies of a configuration in the store *)

Lemma Forall2_elem_of_l {A B} (R : A → B → Prop) l k x : Forall2 R l k → x ∈ l → ∃ y, y ∈ k ∧ R x y.
Proof. induction 1; [set_solver|]. intros [->|?]%elem_of_cons; set_solver. Qed.

Lemma Forall2_elem_of_r {A B} (R : A → B → Prop) l k y : Forall2 R l k → y ∈ k → ∃ x, x ∈ l ∧ R x y.
Proof. intros Hf. apply (Forall2_elem_of_l (flip R)). by apply Forall2_flip. Qed.

Lemma Forall2_NoDup {A B C} (R : A → B → Prop) (f : A → C) l ids :
  (∀ p x p' x', R p x → R p' x' → f p = f p' → x = x') →
  Forall2 R l ids → NoDup ids → NoDup (f <$> l).
Proof.
  intros Hinj. induction 1 as [|p x l ids Hp Hl IH]; csimpl; [constructor|].
  intros [Hx Hnd]%NoDup_cons. apply NoDup_cons. split; [|by apply IH].
  intros (p' & Heq & Hp')%list_elem_of_fmap. destruct (Forall2_elem_of_l _ _ _ _ Hl Hp') as (x' & Hin & HR).
  by rewrite (Hinj _ _ _ _ Hp HR Heq) in Hx.
Qed.

Lemma named_for_inj k1 k2 p1 p2 x1 x2 :
  named_for k1 p1 x1 → named_for k2 p2 x2 → tp_name p1 = tp_name p2 → k1 = k2 ∧ x1 = x2.
Proof.
  intros (s1 & H1 & N1 & _) (s2 & H2 & N2 & _) Heq. rewrite N1, N2 in Heq.
  apply last_segment_inj in Heq as [-> ->]; [|by eapply policy_suffix_no_slash..].
  split; [done|]. by eapply policy_suffix_inj.
Qed.

Lemma find_map_omap {A B} (f : A → option B) l L :
  (∀ b, b ∈ omap f l ↔ b ∈ L) → match find_map f l with Some b => b ∈ L | None => L = [] end.
Proof.
  intros HL. destruct (find_map f l) as [b|] eqn:E.
  - apply find_map_Some in E as (l1 & x & l2 & -> & Hx & _). apply HL, list_elem_of_omap. exists x. set_solver.
  - rewrite find_map_None in E. destruct L as [|b L]; [done|].
    assert (b ∈ omap f l) as (x & Hx & Hb)%list_elem_of_omap by (apply HL; set_solver).
    by rewrite (E x Hx) in Hb.
Qed.

Section policies.
Context {TL : TlsLib} {JL : Jwt.JwtLib}.
Context (load_jwks : Jwt.FileInlineOrRemote → result (list Jwt.JwkSpec) string).
Context (show_jwk_error : Jwt.JwkError → string) (parse_uri : string → result Uri string).
Context (arc : Jwt.Jwk → Handle).

Abbreviation rule_converted := (rule_converted load_jwks show_jwk_error parse_uri arc).
Abbreviation extends := (extends load_jwks show_jwk_error parse_uri arc).

Lemma rule_converted_names r ps :
  rule_converted r ps → ∃ ids, Forall2 (named_for r.1) ps ids ∧ NoDup ids.
Proof.
  unfold LocalConfig.rule_converted. destruct (lr_policies r.2) as [p|].
  - intros (refs & st & Hst & ->). apply policies_of_rule_ok in Hst as [[(ids & ? & ? & _)] _]. eauto.
  - intros ->. exists []. by repeat constructor.
Qed.

Lemma rule_converted_named r ps p : rule_converted r ps → p ∈ ps → ∃ x, named_for r.1 p x.
Proof.
  intros (ids & Hids & _)%rule_converted_names Hp.
  destruct (Forall2_elem_of_l _ _ _ _ Hids Hp) as (x & _ & ?). eauto.
Qed.

Lemma extends_elem rules P p : extends rules [] P → p ∈ P → ∃ r x, r ∈ rules ∧ named_for r.1 p x.
Proof.
  intros (pss & -> & Hpss) (ps & Hp & Hps)%elem_of_concat.
  destruct (Forall2_elem_of_r _ _ _ _ Hpss Hps) as (r & Hr & Hc).
  destruct (rule_converted_named r ps p Hc Hp) as [x ?]. eauto.
Qed.

Lemma extends_names rules P : NoDup rules.*1 → extends rules [] P → NoDup (tp_name <$> P).
Proof.
  intros Hnd (pss & -> & Hpss). simpl. revert Hnd. induction Hpss as [|r ps rules pss Hr Hpss IH]; csimpl.
  { constructor. }
  intros [Hk Hnd]%NoDup_cons. rewrite fmap_app. apply NoDup_app. split_and!; [| |by apply IH].
  - apply rule_converted_names in Hr as (ids & Hids & Hnd').
    eapply Forall2_NoDup; [|exact Hids|exact Hnd']. intros q x q' x' Hq Hq' Heq.
    by apply (named_for_inj _ _ _ _ _ _ Hq Hq').
  - intros n (p & -> & Hp)%list_elem_of_fmap (q & Heq & Hq)%list_elem_of_fmap. apply Hk.
    destruct (rule_converted_named _ _ _ Hr Hp) as [x Hx].
    destruct (extends_elem rules (concat pss) q) as (r' & y & Hr' & Hy); [by exists pss|done|].
    destruct (named_for_inj _ _ _ _ _ _ Hx Hy Heq) as [-> _]. by apply list_elem_of_fmap_2.
Qed.

Lemma on_rule_other r ps key : rule_converted r ps → r.1 ≠ key → on_rule key ps = [].
Proof.
  intros Hr Hne. unfold on_rule. destruct (omap _ ps) as [|q l] eqn:E; [done|].
  assert (q ∈ q :: l) as Hq by set_solver. rewrite <-E in Hq.
  apply list_elem_of_omap in Hq as (p & Hp & Hq). destruct (rule_converted_named _ _ _ Hr Hp) as [[n|n] (s & _ & _ & Ht)].
  - rewrite Ht in Hq. case_decide; simplify_eq.
  - destruct Ht as [be Ht]. rewrite Ht in Hq. by case_decide.
Qed.

(** What a configuration puts on a rule. *)
Lemma extends_on_rule rules P r :
  NoDup rules.*1 → extends rules [] P → r ∈ rules →
  ∃ ps, rule_converted r ps ∧ on_rule r.1 P = on_rule r.1 ps.
Proof.
  intros Hnd (pss & -> & Hpss). simpl. revert Hnd.
  induction Hpss as [|r' ps rules pss Hr Hpss IH]; csimpl; [set_solver|].
  intros [Hk Hnd]%NoDup_cons Hin. unfold on_rule. rewrite omap_app. fold (on_rule r.1 ps) (on_rule r.1 (concat pss)).
  apply elem_of_cons in Hin as [->|Hin].
  - exists ps. split; [done|]. destruct (on_rule r'.1 (concat pss)) as [|q l] eqn:E; [by rewrite app_nil_r|].
    exfalso. apply Hk. assert (q ∈ q :: l) as Hq by set_solver. rewrite <-E in Hq.
    apply list_elem_of_omap in Hq as (p & Hp & Hq).
    destruct (extends_elem rules (concat pss) p) as (r & x & Hr' & s & _ & _ & Ht); [by exists pss|done|].
    destruct x as [n|n]; [|destruct Ht as [be Ht]]; rewrite Ht in Hq; case_decide; simplify_eq.
    rewrite <-H. by apply list_elem_of_fmap_2.
  - destruct (IH Hnd Hin) as (ps' & Hps' & ->). exists ps'. split; [done|].
    rewrite (on_rule_other r' ps); [done|done|]. intros Heq. apply Hk. rewrite Heq. by apply list_elem_of_fmap_2.
Qed.
End policies.

(** * Theorems *)

(** The elements before the first one with a property are determined. *)
Lemma before_first_unique {A} (P : A → Prop) f1 r1 f2 r2 :
  f1 ++ r1 = f2 ++ r2 → Forall (λ x, ¬ P x) f1 → Forall (λ x, ¬ P x) f2 →
  (∀ x, head r1 = Some x → P x) → (∀ x, head r2 = Some x → P x) → f1 = f2.
Proof.
  intros Heq H1. revert f2 Heq. induction H1 as [|x f1 Hx H1 IH]; intros [|y f2] Heq H2 Hr1 Hr2; simpl in Heq.
  - done.
  - subst r1. apply Forall_cons in H2 as [Hy _]. by destruct (Hy (Hr1 y eq_refl)).
  - subst r2. by destruct (Hx (Hr2 x eq_refl)).
  - injection Heq as <- Heq. apply Forall_cons in H2 as [_ H2]. f_equal. by eapply IH.
Qed.

Section reload.
Context {TL : TlsLib} {JL : Jwt.JwtLib}.
Context (load_jwks : Jwt.FileInlineOrRemote → result (list Jwt.JwkSpec) string).
Context (show_jwk_error : Jwt.JwkError → string) (parse_uri : string → result Uri string).
Context (arc : Jwt.Jwk → Handle).
Context (shellexpand_full : string → result string string) (from_str : string → result LocalConfig string).
Context `{!HashIter string Bind, !HashIter string Listener, !HashIter string Route}.
Context `{!SetIter string, !SetIter NamespacedHostname.t}.
Context `{!HashIter string Endpoint.t, !HashIter string (list Proto.Port), !HashIter N N}.

Abbreviation convert := (convert load_jwks show_jwk_error parse_uri arc).
Abbreviation reload_config := (reload_config load_jwks show_jwk_error parse_uri arc shellexpand_full from_str).
Abbreviation watch := (watch load_jwks show_jwk_error parse_uri arc shellexpand_full from_str).
Abbreviation watch_config_file :=
  (watch_config_file load_jwks show_jwk_error parse_uri arc shellexpand_full from_str).

(** What a version of the file is converted to. *)
Definition loaded (content : result string string) : cres NormalizedLocalConfig :=
  let! content := lift content in
  NormalizedLocalConfig_from load_jwks show_jwk_error parse_uri arc shellexpand_full from_str content.

(** A report of the watcher and what the file holds when it is read then. *)
Abbreviation Report := (result (list EventKind) () * result string string)%type.

(** The version a report announces, if it announces one that can be converted. *)
Definition version (r : Report) : option NormalizedLocalConfig :=
  match r with
  | (Ok events, content) =>
    if content_changed events then match loaded content with Ret (Ok n) => Some n | _ => None end else None
  | (Err _, _) => None
  end.

(** Reports after which the file is no longer followed: errors of the watcher, and
    changes to a version whose conversion panics. *)
Definition stops (r : Report) : Prop :=
  match r with
  | (Ok events, content) => content_changed events = true ∧ loaded content = Panic
  | (Err _, _) => True
  end.

(** The bind store holds the binds, policies and backends of a configuration; of
    several with one name, the last. *)
Definition holds_config (s : BindStore.t) (n : NormalizedLocalConfig) : Prop :=
  holds s (load_map b_key (nc_binds n) ∅) (load_map tp_name (nc_policies n) ∅)
    (load_map Backend_name (nc_backends n) ∅).

Definition covers_config (prev : BindStore.PreviousState) (n : NormalizedLocalConfig) : Prop :=
  covers prev (load_map b_key (nc_binds n) ∅) (load_map tp_name (nc_policies n) ∅)
    (load_map Backend_name (nc_backends n) ∅).

Lemma reload_step s prev content n :
  holds_config (st_binds s) n → covers_config (prev_binds prev) n → loaded content ≠ Panic →
  ∃ s' r, reload_config s prev content = Ret (s', r) ∧
    match loaded content with
    | Ret (Ok n') => holds_config (st_binds s') n' ∧ ∃ prev', r = Ok prev' ∧ covers_config (prev_binds prev') n'
    | _ => s' = s ∧ ∃ e, r = Err e
    end.
Proof.
  intros Hs Hprev Hload. unfold LocalConfig.reload_config. fold (loaded content).
  destruct (loaded content) as [[n'|e]|] eqn:E; [|by eexists _, _; eauto|done]. simpl.
  destruct (sync_local_replaces _ _ _ _ _ (nc_binds n') (nc_policies n') (nc_backends n') Hs Hprev)
    as (b & prev' & -> & Hb & Hc). simpl.
  destruct (DiscoveryStore.sync_local (st_discovery s) (nc_services n') (nc_workloads n') (prev_discovery prev)) as [d nd].
  eexists _, _. split; [done|]. split; [exact Hb|]. eexists. split; [done|]. exact Hc.
Qed.

Lemma watch_holds reports s prev n :
  holds_config (st_binds s) n → covers_config (prev_binds prev) n →
  ∃ followed rest s' w, reports = followed ++ rest ∧ Forall (λ r, ¬ stops r) followed ∧
    watch reports s prev = Ret (s', w) ∧
    holds_config (st_binds s') (default n (last (omap version followed))) ∧
    match w with
    | Watching _ => rest = []
    | WatcherFailed => ∃ content after, rest = (Err (), content) :: after
    | TaskPanicked => ∃ events content after, rest = (Ok events, content) :: after ∧ stops (Ok events, content)
    end.
Proof.
  revert s prev n. induction reports as [|[[events|[]] content] reports IH]; intros s prev n Hs Hprev;
    cbn [LocalConfig.watch].
  { by eexists [], [], s, (Watching prev). }
  2:{ exists [], ((Err (), content) :: reports), s, WatcherFailed. split_and!; [done..|eauto]. }
  assert (∀ s1 prev1 n1, holds_config (st_binds s1) n1 → covers_config (prev_binds prev1) n1 →
    ¬ stops (Ok events, content) → n1 = default n (version (Ok events, content)) →
    ∃ followed rest s' w, (Ok events, content) :: reports = followed ++ rest ∧ Forall (λ r, ¬ stops r) followed ∧
      watch reports s1 prev1 = Ret (s', w) ∧
      holds_config (st_binds s') (default n (last (omap version followed))) ∧
      match w with
      | Watching _ => rest = []
      | WatcherFailed => ∃ content after, rest = (Err (), content) :: after
      | TaskPanicked => ∃ events content after, rest = (Ok events, content) :: after ∧ stops (Ok events, content)
      end) as Hnext.
  { intros s1 prev1 n1 Hs1 Hp1 Hns Hn1. destruct (IH s1 prev1 n1 Hs1 Hp1) as (fl & rest & s' & w & -> & Hf & Hw & Hh & Hr).
    exists ((Ok events, content) :: fl), rest, s', w. split_and!; [done|by constructor|done| |done].
    cbn [omap list_omap]. destruct (version (Ok events, content)); simpl in Hn1; subst n1; [|done].
    rewrite last_cons. by destruct (last (omap version fl)). }
  destruct (content_changed events) eqn:Hch.
  2:{ apply (Hnext s prev n Hs Hprev); unfold version, stops; rewrite Hch; [by intros [??]|done]. }
  fold (loaded content). destruct (loaded content) as [c|] eqn:E.
  2:{ exists [], ((Ok events, content) :: reports), s, TaskPanicked. split_and!; [done..|].
      exists events, content, reports. done. }
  destruct (reload_step s prev content n Hs Hprev) as (s' & r & -> & H); [by rewrite E|].
  cbn [mbind comp_mbind]. rewrite E in H. destruct c as [n'|e].
  - destruct H as (Hs' & prev' & -> & Hc'). apply (Hnext s' prev' n' Hs' Hc'); unfold version, stops; rewrite Hch, E;
      [by intros [??]|done].
  - destruct H as (-> & e' & ->). apply (Hnext s prev n Hs Hprev); unfold version, stops; rewrite Hch, E;
      [by intros [??]|done].
Qed.

(** C16: the file and the stores, in a process whose only source is the file. The
    file is followed up to the first report that is an error of the watcher or
    announces a version whose conversion panics; after that it is no longer followed.
    Of the versions announced till then and that can be converted, the bind store holds
    exactly the binds, policies and backends of the last one, or of the first load if
    there is none: what later versions dropped is gone, and a version that cannot be
    converted changes nothing. A first version that cannot be converted is an error
    and leaves the stores empty, and one whose conversion panics panics. *)
Theorem local_reload discovery prev content reports :
  let s0 := {| st_binds := BindStore.new; st_discovery := discovery |} in
  match loaded content with
  | Panic => watch_config_file s0 prev content reports = Panic
  | Ret (Err e) => ∃ e, watch_config_file s0 prev content reports = Ret (s0, Err e)
  | Ret (Ok n) =>
    ∃ followed rest s' w, reports = followed ++ rest ∧ Forall (λ r, ¬ stops r) followed ∧
      watch_config_file s0 prev content reports = Ret (s', Ok w) ∧
      holds_config (st_binds s') (default n (last (omap version followed))) ∧
      match w with
      | Watching _ => rest = []
      | WatcherFailed => ∃ content after, rest = (Err (), content) :: after
      | TaskPanicked => ∃ events content after, rest = (Ok events, content) :: after ∧ stops (Ok events, content)
      end
  end.
Proof.
  intros s0. unfold LocalConfig.watch_config_file.
  set (empty := {| nc_binds := []; nc_policies := []; nc_backends := []; nc_workloads := []; nc_services := [] |}).
  assert (holds_config (st_binds s0) empty) as Hs by (split; try done; apply policies_wf_new).
  assert (covers_config (prev_binds prev) empty) as Hp by (split_and!; simpl; set_solver).
  destruct (loaded content) as [c|] eqn:E.
  2:{ unfold LocalConfig.reload_config. fold (loaded content). by rewrite E. }
  destruct (reload_step s0 prev content empty Hs Hp) as (s' & r & -> & H); [by rewrite E|]. cbn [mbind comp_mbind].
  rewrite E in H. destruct c as [n'|e].
  - destruct H as (Hs' & prev' & -> & Hc').
    destruct (watch_holds reports s' prev' n' Hs' Hc') as (fl & rest & s2 & w & ? & ? & -> & ? & ?).
    exists fl, rest, s2, w. done.
  - destruct H as (-> & e' & ->). eauto.
Qed.

End reload.

(** ** The policies of a route *)


(** The policies of each kind on a rule. *)
Lemma omap_rule_policies p mj j :
  omap (λ q, match q with PJwtAuth x => Some x | _ => None end) (rule_policies p mj j) =
    option_list mj ++ option_list j ∧
  omap (λ q, match q with PTransformation x => Some x | _ => None end) (rule_policies p mj j) =
    option_list (fp_transformations p) ∧
  omap (λ q, match q with PExtAuthz x => Some x | _ => None end) (rule_policies p mj j) =
    option_list (fp_ext_authz p) ∧
  omap (λ q, match q with PLocalRateLimit x => Some x | _ => None end) (rule_policies p mj j) =
    option_list (if decide (fp_local_rate_limit p = []) then None else Some (fp_local_rate_limit p)) ∧
  omap (λ q, match q with PRemoteRateLimit x => Some x | _ => None end) (rule_policies p mj j) =
    option_list (fp_remote_rate_limit p).
Proof.
  unfold rule_policies. destruct mj, j, (fp_transformations p), (fp_ext_authz p), (fp_remote_rate_limit p),
    (decide (fp_local_rate_limit p = [])); done.
Qed.


Section config.
Context {TL : TlsLib} {JL : Jwt.JwtLib}.
Context (load_jwks : Jwt.FileInlineOrRemote → result (list Jwt.JwkSpec) string).
Context (show_jwk_error : Jwt.JwkError → string) (parse_uri : string → result Uri string).
Context (arc : Jwt.Jwk → Handle).
Context `{!SetIter string}.

Abbreviation convert := (convert load_jwks show_jwk_error parse_uri arc).

Lemma holds_config_policies c n s p :
  convert c = Ret (Ok n) → NoDup (config_rules c).*1 → holds_config s n →
  BindStore.policies_by_name s !! tp_name p = Some p ↔ p ∈ nc_policies n.
Proof.
  intros Hc Hnd Hs. rewrite (h_policies _ _ _ _ Hs). apply convert_extends in Hc.
  split; [by intros [_ ?]%load_map_Some|]. intros Hp. apply load_map_elem; [|done].
  by eapply extends_names.
Qed.

(** The policies that the store gives for a rule are those that the configuration
    puts on it. *)
Lemma policies_of_config c n s key lr rname gw q :
  convert c = Ret (Ok n) → NoDup (config_rules c).*1 → holds_config s n → (key, lr) ∈ config_rules c →
  q ∈ tp_policy <$> BindStore.policies_of s (PTRouteRule key) ++ BindStore.policies_of s (PTRoute rname) ++
    BindStore.policies_of s (PTGateway gw) ↔ q ∈ on_rule key (nc_policies n).
Proof.
  intros Hc Hnd Hs Hin. pose proof (convert_extends _ _ _ _ _ _ Hc) as He.
  assert (∀ tgt p, p ∈ BindStore.policies_of s tgt ↔ p ∈ nc_policies n ∧ tp_target p = tgt) as Hof.
  { intros tgt p. rewrite (elem_of_policies_of s tgt p (h_index _ _ _ _ Hs)).
    by rewrite (holds_config_policies c n s p Hc Hnd Hs). }
  assert (∀ tgt p, p ∈ BindStore.policies_of s tgt →
    match tgt with PTRoute _ | PTGateway _ => False | _ => True end) as Hno.
  { intros tgt p [Hp <-]%Hof. destruct (extends_elem _ _ _ _ _ _ _ He Hp) as (r & [m|m] & _ & t & _ & _ & Ht);
      [|destruct Ht as [be Ht]]; by rewrite Ht. }
  rewrite list_elem_of_fmap. setoid_rewrite elem_of_app. setoid_rewrite elem_of_app.
  unfold on_rule. rewrite list_elem_of_omap. split.
  - intros (p & -> & [Hp|[Hp|Hp]]); [|by apply Hno in Hp..]. apply Hof in Hp as [Hp Ht].
    exists p. by rewrite decide_True.
  - intros (p & Hp & Hq). case_decide as Ht; [|done]. injection Hq as <-. exists p. split; [done|].
    left. by apply Hof.
Qed.

(** From the file to the request. When the store holds a configuration whose rules
    have distinct keys, a request that is routed to one of its rules meets exactly the
    policies that were written for that rule, whatever the route and the gateway are
    called: the rate limits, the external authorization, the transformation, and the
    validator of tokens. A rule with both a validator of its own and one for MCP
    authentication has either of them, by the order of a hash table. *)
Theorem local_route_policies c n s key lr rname gw :
  convert c = Ret (Ok n) → NoDup (config_rules c).*1 → holds_config s n → (key, lr) ∈ config_rules c →
  let rp := BindStore.route_policies s key rname gw in
  match lr_policies lr with
  | None => rp = {| rp_local_rate_limit := []; rp_remote_rate_limit := None; rp_jwt := None;
                    rp_ext_authz := None; rp_transformation := None |}
  | Some p =>
    rp_local_rate_limit rp = fp_local_rate_limit p ∧ rp_remote_rate_limit rp = fp_remote_rate_limit p ∧
    rp_ext_authz rp = fp_ext_authz p ∧ rp_transformation rp = fp_transformations p ∧
    ∃ mcp_jwt jwt, mcp_jwt_of load_jwks show_jwk_error parse_uri arc p mcp_jwt ∧
      jwt_of load_jwks show_jwk_error arc p jwt ∧
      match mcp_jwt, jwt with
      | Some a, Some b => rp_jwt rp = Some a ∨ rp_jwt rp = Some b
      | _, _ => rp_jwt rp = or mcp_jwt jwt
      end
  end.
Proof.
  intros Hc Hnd Hs Hin rp. pose proof (convert_extends _ _ _ _ _ _ Hc) as He.
  destruct (extends_on_rule _ _ _ _ _ _ _ Hnd He Hin) as (ps & Hps & Hon). simpl in Hon.
  set (l := BindStore.policies_of s (PTRouteRule key) ++ BindStore.policies_of s (PTRoute rname) ++
    BindStore.policies_of s (PTGateway gw)).
  assert (∀ q, q ∈ tp_policy <$> l ↔ q ∈ on_rule key ps) as Hl.
  { intros q. unfold l. rewrite (policies_of_config c n s key lr rname gw q Hc Hnd Hs Hin). by rewrite Hon. }
  assert (∀ A (sel : Policy → option A),
    match find_map (λ p, sel (tp_policy p)) l with
    | Some a => a ∈ omap sel (on_rule key ps) | None => omap sel (on_rule key ps) = [] end) as Hfind.
  { intros A sel. apply find_map_omap. intros a. rewrite !list_elem_of_omap. split.
    - intros (p & Hp & Ha). exists (tp_policy p). split; [|done]. apply Hl. by apply list_elem_of_fmap_2.
    - intros (q & (p & -> & Hp)%Hl%list_elem_of_fmap & Ha). eauto. }
  assert (∀ A (sel : Policy → option A) o, omap sel (on_rule key ps) = option_list o →
    find_map (λ p, sel (tp_policy p)) l = o) as Hone.
  { intros A sel o Ho. specialize (Hfind A sel). rewrite Ho in Hfind.
    destruct (find_map _ l), o; simpl in Hfind; try done; [|set_solver]. f_equal. set_solver. }
  unfold LocalConfig.rule_converted in Hps. simpl in Hps.
  unfold rp, BindStore.route_policies. fold l. destruct (lr_policies lr) as [p|].
  - destruct Hps as (refs & st & Hst & ->). apply policies_of_rule_ok in Hst as (_ & mj & j & Hmj & Hj & E).
    rewrite E in Hone, Hfind. simpl. split_and!.
    + etrans; [apply (f_equal (default [])), (Hone _ (λ q, match q with PLocalRateLimit x => Some x | _ => None end)),
        omap_rule_policies|]. by destruct (decide _).
    + apply (Hone _ (λ q, match q with PRemoteRateLimit x => Some x | _ => None end)).
      apply omap_rule_policies.
    + apply (Hone _ (λ q, match q with PExtAuthz x => Some x | _ => None end)), omap_rule_policies.
    + apply (Hone _ (λ q, match q with PTransformation x => Some x | _ => None end)), omap_rule_policies.
    + exists mj, j. split_and!; [done..|].
      specialize (Hfind _ (λ q, match q with PJwtAuth x => Some x | _ => None end)).
      specialize (Hone _ (λ q, match q with PJwtAuth x => Some x | _ => None end)).
      rewrite (proj1 (omap_rule_policies _ _ _)) in Hone, Hfind.
      destruct mj as [a|], j as [b|]; simpl in *; [|by apply Hone..].
      destruct (find_map _ l) as [x|]; [|done]. set_solver.
  - subst ps. assert (∀ A (sel : Policy → option A), find_map (λ p, sel (tp_policy p)) l = None) as Hnone
      by (intros A sel; by apply Hone).
    f_equal; [|by apply (Hnone _ (λ q, match q with PRemoteRateLimit x => Some x | _ => None end))
              |by apply (Hnone _ (λ q, match q with PJwtAuth x => Some x | _ => None end))
              |by apply (Hnone _ (λ q, match q with PExtAuthz x => Some x | _ => None end))
              |by apply (Hnone _ (λ q, match q with PTransformation x => Some x | _ => None end))].
    apply (f_equal (default []) (Hnone _ (λ q, match q with PLocalRateLimit x => Some x | _ => None end))).
Qed.

(** ** Backends *)

Abbreviation convert_route := (convert_route load_jwks show_jwk_error parse_uri arc).

(** What a backend of a route stores under the route's key. *)
Definition inline_backend (key : string) (b : LocalBackend) : option Backend :=
  match b with
  | LBOpaque t => Some (BOpaque key t)
  | LBMCP m => Some (BMCP key {| mcp_targets := (imap (mcp_target key) (lmb_targets m)).*1 |})
  | LBAI a => Some (BAI key a)
  | LBService _ _ | LBDynamic | LBInvalid => None
  end.

Lemma as_backends_stored key b m :
  key ≠ "dynamic" → key ≠ "invalid" →
  load_map Backend_name (as_backends b (BackendReference_name (backend_reference key b))) m !! key =
    match inline_backend key b with Some x => Some x | None => m !! key end.
Proof.
  intros Hd Hi. destruct b as [n p|t| |mb|a|]; simpl;
    rewrite ?lookup_insert_eq, ?lookup_insert_ne by done; try done.
  rewrite load_map_app. simpl. by rewrite lookup_insert_eq.
Qed.

Lemma route_backends_stored key l m :
  key ≠ "dynamic" → key ≠ "invalid" →
  load_map Backend_name (concat ((λ b, as_backends (lrb_backend b)
    (BackendReference_name (backend_reference key (lrb_backend b)))) <$> l)) m !! key =
    match last (omap (λ b, inline_backend key (lrb_backend b)) l) with
    | Some b => Some b
    | None => m !! key
    end.
Proof.
  intros Hd Hi. revert m. induction l as [|b l IH]; intros m; csimpl; [done|].
  rewrite load_map_app, IH, as_backends_stored by done.
  destruct (inline_backend _ _) as [x|]; [|done]. rewrite last_cons. by destruct (last _).
Qed.

Lemma insert_backends_map l s :
  BindStore.backends_by_name (foldl BindStore.insert_backend s l) =
  load_map Backend_name l (BindStore.backends_by_name s).
Proof. revert s. induction l as [|b l IH]; intros s; simpl; [done|]. by rewrite IH. Qed.

(** A mirror has a name of its own. *)
Lemma mirror_name key p b :
  key ≠ "invalid" → b ∈ (filters_of key p).2 → Backend_name b ≠ key.
Proof.
  intros Hi. unfold filters_of. destruct (fp_request_mirror p) as [[[n po|t|] pc]|]; simpl; try set_solver.
  intros ->%list_elem_of_singleton Heq. simpl in Heq.
  apply (f_equal Str.len) in Heq. rewrite Str.len_app in Heq. simpl in Heq. lia.
Qed.

Lemma has_segments a b s : Str.contains_char "/" s = false → a +:+ String "/" b ≠ s.
Proof.
  intros Hs <-. apply Str.split_no_sep, (f_equal List.length) in Hs.
  rewrite Str.split_app_sep, length_app in Hs. pose proof (Str.split_nonempty "/" a).
  pose proof (Str.split_nonempty "/" b). destruct (Str.split "/" a), (Str.split "/" b); try done. simpl in Hs. lia.
Qed.

Lemma route_key_segments lk idx lr :
  local_route_key lk idx lr ≠ "dynamic" ∧ local_route_key lk idx lr ≠ "invalid".
Proof.
  split; by apply (has_segments lk (local_route_name lr idx +:+ "/" +:+ default "default" (lr_rule_name lr))).
Qed.

(** The backends that are written inside a route. All of them are referred to, and
    stored, under the key of the route: after the route's backends are stored, every
    such reference leads to the last of them, whatever the weights say. A dynamic
    backend is stored under another name than the one its reference has, so that its
    reference leads to nothing if it is the only one. *)
Theorem local_backends_shared lr idx lk route ps bes s :
  convert_route lr idx lk = Ret (Ok (route, ps, bes)) →
  let key := local_route_key lk idx lr in
  (rbr_backend <$> route_backends route) = (λ b, backend_reference key (lrb_backend b)) <$> lr_backends lr ∧
  BindStore.backend (foldl BindStore.insert_backend s bes) key =
    match last (omap (λ b, inline_backend key (lrb_backend b)) (lr_backends lr)) with
    | Some b => Some b
    | None => BindStore.backend s key
    end.
Proof.
  intros Hc key. unfold LocalConfig.convert_route in Hc. fold key in Hc.
  destruct (match lr_policies lr with Some p => filters_of key p | None => ([], []) end)
    as [filters mirror] eqn:Em.
  apply cbind_Ok in Hc as (st & _ & Hc). injection Hc as <- _ <-. simpl.
  split; [by rewrite <-list_fmap_compose|].
  destruct (route_key_segments lk idx lr) as [Hd Hi]. fold key in Hd, Hi.
  unfold BindStore.backend. rewrite insert_backends_map, load_map_app, load_map_other.
  - by apply route_backends_stored.
  - intros (b & Hb & Hin)%list_elem_of_fmap. destruct (lr_policies lr) as [p|]; [|simplify_eq; set_solver].
    apply (mirror_name key p b); [done|by rewrite Em|done].
Qed.

(** An MCP target given by an API description. Its reference has the name of the
    route, which is the name of the MCP backend itself: when that is the route's only
    backend, the reference leads to the MCP backend, which is none that can be called. *)
Theorem local_openapi_unresolved lr idx lk route ps bes s w m name tgt schema :
  convert_route lr idx lk = Ret (Ok (route, ps, bes)) →
  lr_backends lr = [{| lrb_weight := w; lrb_backend := LBMCP m |}] →
  {| lmt_name := name; lmt_spec := LOpenAPI (SLOpaque tgt) schema |} ∈ lmb_targets m →
  let key := local_route_key lk idx lr in
  ∃ b, BindStore.backend (foldl BindStore.insert_backend s bes) key = Some (BMCP key b) ∧
    {| mt_name := name; mt_spec := McpOpenAPI (SBRBackend key) schema |} ∈ mcp_targets b ∧
    SimpleBackend_try_from (BMCP key b) = Err "unsupported backend type".
Proof.
  intros Hc Hb Hin key. unfold LocalConfig.convert_route in Hc. fold key in Hc.
  destruct (match lr_policies lr with Some p => filters_of key p | None => ([], []) end)
    as [filters mirror] eqn:Em.
  apply cbind_Ok in Hc as (st & _ & Hc). injection Hc as <- _ <-.
  destruct (route_key_segments lk idx lr) as [Hd Hi]. fold key in Hd, Hi.
  exists {| mcp_targets := (imap (mcp_target key) (lmb_targets m)).*1 |}. split_and!; [| |done].
  - unfold BindStore.backend. rewrite insert_backends_map, load_map_app, load_map_other.
    + rewrite route_backends_stored by done. by rewrite Hb.
    + intros (b & Hn & Hm)%list_elem_of_fmap. destruct (lr_policies lr) as [p|]; [|simplify_eq; set_solver].
      apply (mirror_name key p b); [done|by rewrite Em|done].
  - apply list_elem_of_lookup in Hin as [i Hi'].
    assert (mcp_target key i {| lmt_name := name; lmt_spec := LOpenAPI (SLOpaque tgt) schema |} ∈
      imap (mcp_target key) (lmb_targets m)) as Hm by (apply elem_of_lookup_imap; eauto).
    by apply (list_elem_of_fmap_2 fst) in Hm.
Qed.

(** ** TCP routes *)

Abbreviation convert_listener := (convert_listener load_jwks show_jwk_error parse_uri arc).
Abbreviation convert_listeners := (convert_listeners load_jwks show_jwk_error parse_uri arc).
Abbreviation convert_binds := (convert_binds load_jwks show_jwk_error parse_uri arc).

Lemma convert_listener_tcp bind_name idx l x :
  convert_listener bind_name idx l = Ret (Ok x) → default [] (ll_tcp_routes l) = [].
Proof.
  unfold LocalConfig.convert_listener. intros (proto & _ & Hl)%cbind_Ok. case_bool_decide; [done|].
  apply cbind_Ok in Hl as ([[rs policies] backends] & _ & (y & Ht & _)%cbind_Ok).
  by apply convert_tcp_routes_nil in Ht as [-> _].
Qed.

Lemma convert_listeners_tcp bind_name idx l acc x :
  convert_listeners bind_name idx l acc = Ret (Ok x) → Forall (λ l, default [] (ll_tcp_routes l) = []) l.
Proof.
  revert idx acc. induction l as [|ll l IH]; intros idx [[ls P] B]; cbn [LocalConfig.convert_listeners]; [done|].
  intros ([[lis ps] bes] & Hl & Hr)%cbind_Ok. constructor; [|by eapply IH].
  by eapply convert_listener_tcp.
Qed.

Lemma convert_binds_tcp l acc x :
  convert_binds l acc = Ret (Ok x) → Forall (λ b, Forall (λ l, default [] (ll_tcp_routes l) = []) (lb_listeners b)) l.
Proof.
  revert acc. induction l as [|b l IH]; intros [[bs P] B]; cbn [LocalConfig.convert_binds]; [done|].
  intros ([[ls P'] B'] & Hl & Hr)%cbind_Ok. constructor; [|by eapply IH].
  by eapply convert_listeners_tcp.
Qed.

(** TCP routes in the file. A configuration with a TCP route is never loaded; when
    nothing before it is wrong, a listener with a TCP route without policies makes the
    conversion panic. *)
Theorem local_tcp_routes_panic :
  (∀ c n b l, convert c = Ret (Ok n) → b ∈ lc_binds c → l ∈ lb_listeners b → default [] (ll_tcp_routes l) = []) ∧
  (∀ bind_name idx l r rs, ll_tcp_routes l = Some (r :: rs) → ll_routes l = None → ltr_policies r = None →
     is_ok (convert_protocol l) = true → convert_listener bind_name idx l = Panic).
Proof.
  split.
  - intros c n b l Hc Hb Hl. unfold LocalConfig.convert in Hc. apply cbind_Ok in Hc as ([[bs P] B] & Hc & _).
    apply convert_binds_tcp in Hc. rewrite Forall_forall in Hc. specialize (Hc b Hb). simpl in Hc.
    rewrite Forall_forall in Hc. by apply Hc.
  - intros bind_name idx l r rs Ht Hr Hp Hok. unfold LocalConfig.convert_listener, lift.
    destruct (convert_protocol l) as [proto|e]; [|done]. rewrite Ht, Hr. simpl.
    unfold convert_tcp_route. by rewrite Hp.
Qed.
End config.

(** * Examples *)

Module ReloadExample.

#[local] Instance no_tls : TlsLib := {|
  read f := Err "no such file";
  pem_read_all _ := Ok [];
  pem_read_one _ := Ok None;
  pem_certs _ := Ok [];
  RootCertStore := unit;
  roots_empty := tt;
  roots_add _ _ := None;
  native_certs := [];
  server_config _ _ _ := Ok 1%N;
  client_config _ _ _ _ := Ok 2%N
|}.
#[local] Existing Instance AuthExample.lib.
#[local] Existing Instance hm_iter_default.
#[local] Existing Instance hs_iter_default.

Definition no_policies : FilterOrPolicy :=
  {| fp_request_header_modifier := None; fp_response_header_modifier := None; fp_request_redirect := None;
     fp_url_rewrite := None; fp_request_mirror := None; fp_direct_response := None; fp_cors := None;
     fp_mcp_authorization := None; fp_mcp_authentication := None; fp_a2a := None; fp_ai := None;
     fp_backend_tls := None; fp_backend_auth := None;
     fp_local_rate_limit := [{| ratelimit := 7%N; limit_type := Requests |}]; fp_remote_rate_limit := None;
     fp_jwt_auth := Some AuthExample.config; fp_ext_authz := None; fp_transformations := None;
     fp_timeout := None; fp_retry := None |}.

Definition host (h : string) : LocalRouteBackend :=
  {| lrb_weight := 1; lrb_backend := LBOpaque (TgtHostname h 80) |}.

Definition route (backends : list LocalRouteBackend) : LocalRoute :=
  {| lr_route_name := Some "r"; lr_rule_name := None; lr_hostnames := []; lr_matches := default_matches;
     lr_policies := Some no_policies; lr_backends := backends |}.

Definition config (backends : list LocalRouteBackend) : LocalConfig :=
  {| lc_binds := [{| lb_port := 80; lb_listeners :=
       [{| ll_name := Some "l"; ll_gateway_name := Some "gw"; ll_hostname := None; ll_protocol := LHTTP;
           ll_tls := None; ll_routes := Some [route backends]; ll_tcp_routes := None |}] |}];
     lc_workloads := []; lc_services := [] |}.

Definition from_str (s : string) : result LocalConfig string :=
  if Str.eqb s "v1" then Ok (config [host "a"]) else if Str.eqb s "v2" then Ok (config [host "b"]) else Err "yaml".
Definition load_jwks (_ : Jwt.FileInlineOrRemote) : result (list Jwt.JwkSpec) string := Ok AuthExample.jwks.
Definition parse_uri (_ : string) : result Uri string := Err "uri".

Definition loaded := loaded load_jwks (λ _, "") parse_uri (λ _, 3%N) (λ s, Ok s) from_str.
Definition convert := convert load_jwks (λ _, "") parse_uri (λ _, 3%N).

Definition empty_discovery : DiscoveryStore.t := DiscoveryStore.new.

(** The second version of the file cannot be read; the third one is loaded; after an
    error of the watcher the fourth is not. *)
Definition reports : list (result (list EventKind) () * result string string) :=
  [(Ok [Modify], Err "locked"); (Ok [OtherEvent], Ok ""); (Ok [Create], Ok "v2"); (Err (), Ok ""); (Ok [Modify], Ok "v1")].

Lemma local_reload_witness :
  ∃ s', watch_config_file load_jwks (λ _, "") parse_uri (λ _, 3%N) (λ s, Ok s) from_str
      {| st_binds := BindStore.new; st_discovery := empty_discovery |}
      {| prev_binds := {| BindStore.ps_binds := ∅; BindStore.ps_policies := ∅; BindStore.ps_backends := ∅ |};
         prev_discovery := {| DiscoveryStore.ps_workloads := ∅; DiscoveryStore.ps_services := ∅ |} |}
      (Ok "v1") reports = Ret (s', Ok WatcherFailed) ∧
    BindStore.backends_by_name (st_binds s') !! "l/gw/r/default" = Some (BOpaque "l/gw/r/default" (TgtHostname "b" 80)).
Proof.
  pose proof (local_reload load_jwks (λ _, "") parse_uri (λ _, 3%N) (λ s, Ok s) from_str empty_discovery
    {| prev_binds := {| BindStore.ps_binds := ∅; BindStore.ps_policies := ∅; BindStore.ps_backends := ∅ |};
       prev_discovery := {| DiscoveryStore.ps_workloads := ∅; DiscoveryStore.ps_services := ∅ |} |}
    (Ok "v1") reports) as H. cbv zeta in H.
  destruct (LocalReload.loaded _ _ _ _ _ _ (Ok "v1")) as [[n|e]|] eqn:E; [|vm_compute in E; discriminate E..].
  destruct H as (fl & rest & s' & w & Hr & Hf & Hw & Hs & Hend).
  assert (fl = take 3 reports) as ->.
  { eapply (before_first_unique (stops load_jwks (λ _, "") parse_uri (λ _, 3%N) (λ s, Ok s) from_str)
      _ _ _ (drop 3 reports)); [rewrite take_drop; symmetry; exact Hr|exact Hf| | |intros x [= <-]; exact I].
    - repeat constructor; intros [H1 H2]; vm_compute in H1, H2; discriminate.
    - intros x Hx. destruct w as [p| |]; [by subst rest|..].
      + destruct Hend as (? & ? & ->). injection Hx as <-. exact I.
      + destruct Hend as (? & ? & ? & -> & Hst). injection Hx as <-. exact Hst. }
  rewrite <-(take_drop 3 reports) in Hr at 1. apply app_inv_head in Hr. subst rest.
  exists s'. destruct w as [p| |]; [discriminate Hend| |destruct Hend as (? & ? & ? & Heq & _); discriminate Heq].
  split; [exact Hw|]. rewrite (h_backends _ _ _ _ Hs). vm_compute. reflexivity.
Defined.

Definition normalized : NormalizedLocalConfig :=
  match convert (config [host "a"]) with Ret (Ok n) => n | _ =>
    {| nc_binds := []; nc_policies := []; nc_backends := []; nc_workloads := []; nc_services := [] |} end.

Definition store : BindStore.t :=
  match BindStore.sync_local BindStore.new (nc_binds normalized) (nc_policies normalized) (nc_backends normalized)
    {| BindStore.ps_binds := ∅; BindStore.ps_policies := ∅; BindStore.ps_backends := ∅ |} with
  | Ret (s, _) => s | Panic => BindStore.new end.

Lemma store_holds : holds_config store normalized.
Proof.
  destruct (sync_local_replaces BindStore.new ∅ ∅ ∅
    {| BindStore.ps_binds := ∅; BindStore.ps_policies := ∅; BindStore.ps_backends := ∅ |}
    (nc_binds normalized) (nc_policies normalized) (nc_backends normalized)) as (s' & prev' & Hs & Hh & _).
  - split; try done. apply policies_wf_new.
  - split_and!; set_solver.
  - unfold store. by rewrite Hs.
Qed.

Lemma local_route_policies_witness :
  rp_local_rate_limit (BindStore.route_policies store "l/gw/r/default" "any" "other") =
    [{| ratelimit := 7%N; limit_type := Requests |}].
Proof.
  apply (local_route_policies load_jwks (λ _, "") parse_uri (λ _, 3%N) (config [host "a"]) normalized store
    "l/gw/r/default" (route [host "a"]) "any" "other").
  - vm_compute. reflexivity.
  - apply (bool_decide_unpack _). vm_compute. exact I.
  - exact store_holds.
  - vm_compute. left.
Defined.

Definition two_hosts : LocalRoute := route [host "a"; host "b"].
Definition without_jwt (r : LocalRoute) : LocalRoute :=
  {| lr_route_name := lr_route_name r; lr_rule_name := None; lr_hostnames := []; lr_matches := lr_matches r;
     lr_policies := None; lr_backends := lr_backends r |}.

Lemma local_backends_shared_witness : ∃ route ps bes,
  convert_route load_jwks (λ _, "") parse_uri (λ _, 3%N) two_hosts 0 "l/gw" = Ret (Ok (route, ps, bes)) ∧
  (rbr_backend <$> route_backends route) = [BRBackend "l/gw/r/default"; BRBackend "l/gw/r/default"] ∧
  BindStore.backend (foldl BindStore.insert_backend BindStore.new bes) "l/gw/r/default" =
    Some (BOpaque "l/gw/r/default" (TgtHostname "b" 80)).
Proof.
  eexists _, _, _. split; [vm_compute; reflexivity|].
  apply (local_backends_shared (TL := no_tls) (JL := AuthExample.lib) load_jwks (λ _, "") parse_uri (λ _, 3%N) two_hosts 0 "l/gw" _ _ _ BindStore.new
    (ltac:(vm_compute; reflexivity))).
Defined.

Definition mcp : LocalRoute :=
  without_jwt (route [{| lrb_weight := 1; lrb_backend := LBMCP {| lmb_targets :=
    [{| lmt_name := "api"; lmt_spec := LOpenAPI (SLOpaque (TgtHostname "a" 80)) 5%N |}] |} |}]).

Lemma local_openapi_unresolved_witness : ∃ route ps bes b,
  convert_route load_jwks (λ _, "") parse_uri (λ _, 3%N) mcp 0 "l/gw" = Ret (Ok (route, ps, bes)) ∧
  BindStore.backend (foldl BindStore.insert_backend BindStore.new bes) "l/gw/r/default" =
    Some (BMCP "l/gw/r/default" b).
Proof.
  eexists _, _, _.
  destruct (local_openapi_unresolved (TL := no_tls) (JL := AuthExample.lib) load_jwks (λ _, "") parse_uri (λ _, 3%N) mcp 0 "l/gw" _ _ _ BindStore.new
    1 _ "api" (TgtHostname "a" 80) 5%N (ltac:(vm_compute; reflexivity)) eq_refl (ltac:(left)))
    as (b & Hb & _). exists b. split; [vm_compute; reflexivity|exact Hb].
Defined.

Lemma local_tcp_routes_panic_witness :
  convert_listener load_jwks (λ _, "") parse_uri (λ _, 3%N) "bind/80" 0
    {| ll_name := None; ll_gateway_name := None; ll_hostname := None; ll_protocol := LTCP; ll_tls := None;
       ll_routes := None; ll_tcp_routes := Some [{| ltr_route_name := None; ltr_rule_name := None;
         ltr_hostnames := []; ltr_policies := None; ltr_backends := [] |}] |} = Panic.
Proof.
  eapply (proj2 (local_tcp_routes_panic load_jwks (λ _, "") parse_uri (λ _, 3%N))); reflexivity.
Defined.
End ReloadExample.
