(* ===== verification/RequestPath.v ===== *)
(** RequestPath: one HTTP request from the connection to the backend and back
    ([HTTPProxy::proxy], [proxy_internal], [attempt_upstream], [make_backend_call],
    [build_transport], [handle_upgrade] and [send_mirror] of [proxy/httpproxy.rs],
    [InferencePoolRouter] of [http/ext_proc.rs]), put together from the components
    of the other files.

    What the network and the crates answer is one interface ([Externals]).  A limiter
    check that needs more readings than its clock has does not return; like a panic
    it yields no response. *)
From S2P Require Import Prelude Strs Json Http DiscoveryTypes AgentTypes Discovery RouteSet Routing Filters Cel.
From S2P Require Import Transformation A2a TraceParent LlmTypes LlmGuard Replay RateLimit BindStore HttpProxy.
From S2P Require Import HttpHeaders Client Auth Llm PolicyChain.

(** * What is outside *)

Class Externals `{!HeaderMapOps, !Jwt.JwtLib} := {
  (** the [http], [headers], [mime], [form_urlencoded] and [serde_json] crates *)
  x_to_str : string → option string;
  x_value_from_bytes : string → option string;
  x_from_utf8 : string → option string;
  x_to_vec : Value → option string;
  x_parse_json : string → option Value;
  x_mime : string → option (string * string);
  x_form_urlencoded : string → list (string * string);
  x_uri_from_parts : option string → option string → option string → result Uri string;
  x_parse_addr : string → option SocketAddr;
  x_bearer : list string → option string;
  x_connection : HeaderMap → option (string → bool);
  x_params_ok : A2aRequest → bool;
  (** keys and credentials *)
  x_key_of : Handle → Jwt.Jwk;
  x_token_error : Jwt.TokenError → string;
  x_gcp : result (option HeaderMap) string;
  x_sign : SignableRequest → result (list (string * string)) string;
  x_system_trust : BackendTLS;
  (** the certificate authority: [None] without one, [Some None] when it has no
      identity, otherwise the TLS configuration for a peer *)
  x_ca : option (option (Identity.t → result BackendTLS string));
  (** the services that policies call *)
  x_authz : Target → CheckRequest → option CheckResponse;
  x_rate_limit : Target → list (string * string) → option RateLimitResponse;
  x_webhook : Target → HeaderMap → list SimpleMessage → result RequestAction string;
  x_epp_request : Target → Request → result Request string;
  x_epp_response : Target → Response → result Response string;
  (** recognizers and tokens *)
  x_regex : string → string → list (nat * nat);
  x_phone : string → string → bool;
  x_tokenizer : string → option Tokenizer;
  x_encode_len : CoreBPE → string → N;
  (** the network, the relay, and the upgrade that a response carries *)
  x_resolve : string → option IpAddr;
  x_exchange : PoolKey → Request → result Response string;
  x_mcp : string → McpBackend → Request → Response;
  x_upgraded : Response → result () string;
  (** the clock, in milliseconds and seconds *)
  x_now_ms : N;
  x_now : Z
}.

(** * The state of a request *)

(** The parts of [RequestLog] that the path writes. *)
Record Log `{!HeaderMapOps} := mkLog {
  lg_cel : ContextBuilder;
  lg_endpoint : option Target;
  lg_a2a_method : option string;
  lg_llm_request : option LLMRequest;
  lg_llm_response : option LLMResponse;
  lg_grpc_status : option N;
  lg_inference_pool : option SocketAddr
}.

(** What attempts share: the limiters, the log and the upgrade of the client's
    connection. *)
Record World `{!HeaderMapOps} := mkWorld {
  w_limiters : Limiters;
  w_log : option Log;
  w_upgrade : option (string * Handle)
}.

Section world.
Context `{!HeaderMapOps}.

Definition set_limiters (w : World) (l : Limiters) : World := mkWorld _ l (w_log w) (w_upgrade w).
Definition set_log (w : World) (l : option Log) : World := mkWorld _ (w_limiters w) l (w_upgrade w).
(** [log.add(..)] *)
Definition add_log (w : World) (f : Log → Log) : World := set_log w (f <$> w_log w).

Definition log_cel (c : ContextBuilder) (l : Log) : Log :=
  mkLog _ c (lg_endpoint l) (lg_a2a_method l) (lg_llm_request l) (lg_llm_response l) (lg_grpc_status l)
    (lg_inference_pool l).
Definition log_endpoint (t : Target) (l : Log) : Log :=
  mkLog _ (lg_cel l) (Some t) (lg_a2a_method l) (lg_llm_request l) (lg_llm_response l) (lg_grpc_status l)
    (lg_inference_pool l).
Definition log_a2a (m : string) (l : Log) : Log :=
  mkLog _ (lg_cel l) (lg_endpoint l) (Some m) (lg_llm_request l) (lg_llm_response l) (lg_grpc_status l)
    (lg_inference_pool l).
Definition log_llm_request (r : LLMRequest) (l : Log) : Log :=
  mkLog _ (lg_cel l) (lg_endpoint l) (lg_a2a_method l) (Some r) (lg_llm_response l) (lg_grpc_status l)
    (lg_inference_pool l).
Definition log_llm_response (r : option LLMResponse) (l : Log) : Log :=
  mkLog _ (lg_cel l) (lg_endpoint l) (lg_a2a_method l) (lg_llm_request l) r (lg_grpc_status l)
    (lg_inference_pool l).
Definition log_grpc_status (s : option N) (l : Log) : Log :=
  mkLog _ (lg_cel l) (lg_endpoint l) (lg_a2a_method l) (lg_llm_request l) (lg_llm_response l) s
    (lg_inference_pool l).
Definition log_inference_pool (a : option SocketAddr) (l : Log) : Log :=
  mkLog _ (lg_cel l) (lg_endpoint l) (lg_a2a_method l) (lg_llm_request l) (lg_llm_response l) (lg_grpc_status l) a.
End world.

(** * Calling a backend *)

Section calls.
Context `{!HeaderMapOps, !HttpParsers, !BodyReader, !LlmSerde, !Jwt.JwtLib, !Rng}.
Context `{!HashIter string Endpoint.t, !HashIter string TargetedPolicy}.
Context {X : Externals}.

Definition build_transport (c : BackendCall) (backend_tls : option BackendTLS) : result Transport ProxyError :=
  match transport_override c, backend_tls, x_ca with
  | Some (LegacyIstioMtls, ident), None, Some ca =>
    match ca with
    | Some legacy_mtls => let? t := map_err Processing (legacy_mtls ident) in Ok (Transport_from (Some t))
    | None => Ok Plaintext
    end
  | Some (HBONE, ident), btls, Some ca =>
    match ca with Some _ => Ok (Hbone btls ident) | None => Ok Plaintext end
  | _, pol, _ => Ok (Transport_from pol)
  end.

(** The version that the backend's port prescribes. *)
Definition override_version (c : BackendCall) (version : Version) (req : Request) : Version * Request :=
  match http_version_override c with
  | Some HTTP_2 => (HTTP_2, with_headers req (hdr_remove (req_headers req) "transfer-encoding"))
  | Some HTTP_11 => (HTTP_11, req)
  | _ => (version, req)
  end.

(** A call that is ready to be made, and what is done with the response. *)
Record Prepared := {
  p_call : Call;
  p_version : Version;
  p_a2a : option A2aPolicy;
  p_a2a_type : RequestType;
  p_llm : option (AIProvider * LLMRequest);
  p_include_completion : bool;
  p_rate_limit : list RateLimit
}.

(** What the future will do: the exchange, the relay's answer, or the answer of the
    prompt guard, which is there at once. *)
Inductive Outcome := Exchange (p : Prepared) | Relayed (resp : Response) | Answered (resp : Response).

Definition is_answered (o : Outcome) : bool := match o with Answered _ => true | _ => false end.

(** The LLM part: guards, counts and translates the prompt, and charges the limits. *)
Definition prepare_llm (clock : nat → list Z) (route_policies : LLMRoutePolicies) (policies : BackendPolicies)
    (req : Request) (w : World)
    : comp (World * result (Request * option (AIProvider * LLMRequest) + Response) ProxyError) :=
  match bp_llm_provider policies with
  | None => Ret (w, Ok (inl (req, None)))
  | Some (llm, _) =>
    '(cel, r) ← process_request x_tokenizer x_encode_len x_regex x_phone x_webhook llm (bp_llm policies) req
                  (lg_cel <$> w_log w);
    let w := match cel with Some c => add_log w (log_cel c) | None => w end in
    match r with
    | Err _ => Ret (w, Err (Processing "llm"))
    | Ok (Rejected dr) => Ret (w, Ok (inr dr))
    | Ok (Success req llm_request) =>
      r ← apply_llm_request_policies clock route_policies llm_request (w_limiters w);
      '(lims, r) ← expect r;
      let w := set_limiters w lims in
      Ret (match r with
           | Err e => (w, Err e)
           | Ok _ => (add_log w (log_llm_request llm_request), Ok (inl (req, Some (llm, llm_request))))
           end)
    end
  end.

(** [make_backend_call], up to the future it returns. [local_port] is the port of the
    connection. *)
Definition make_backend_call (stores : Stores) (clock : nat → list Z) (route_policies : LLMRoutePolicies)
    (override_dest : option SocketAddr) (backend : Backend) (default_policies : option BackendPolicies)
    (local_port : option N) (version : Version) (claims : option Claims) (req : Request) (w : World)
    : comp (World * result Outcome ProxyError) :=
  plan ← backend_call x_system_trust (DiscoveryStore.workloads (st_discovery stores)) override_dest backend
           default_policies req local_port;
  match plan with
  | Err e => Ret (w, Err e)
  | Ok (PlanMcp name b) => _ ← expect (w_log w); Ret (w, Ok (Relayed (x_mcp name b req)))
  | Ok (PlanCall c) =>
    let '(version, req) := override_version c version req in
    let w := add_log w (log_endpoint (target c)) in
    let policies := call_policies (st_binds stores) backend (HttpProxy.default_policies c) in
    let s := mkReqState _ req claims ContextBuilder_new None in
    match apply_backend_auth x_gcp (bp_backend_auth policies) s with
    | (_, Err e) => Ret (w, Err (BackendAuthenticationFailed e))
    | (s, Ok _) =>
      let '(req, a2a_type) := apply_to_request x_to_str x_mime x_parse_json x_params_ok (bp_a2a policies) (rs_req s) in
      let w := match a2a_type with A2a.Call m => add_log w (log_a2a m) | _ => w end in
      match (match bp_llm_provider policies with
             | Some (llm, true) => map_err Processing (setup_request x_uri_from_parts x_bearer llm req)
             | _ => Ok req
             end) with
      | Err e => Ret (w, Err e)
      | Ok req =>
        '(w, r) ← prepare_llm clock route_policies policies req w;
        Ret (w,
          match r with
          | Err e => Err e
          | Ok (inr dr) => Ok (Answered dr)
          | Ok (inl (req, llm)) =>
            let? req := map_err BackendAuthenticationFailed
                          (apply_late_backend_auth x_from_utf8 x_sign (bp_backend_auth policies) req) in
            let? transport := build_transport c (bp_backend_tls policies) in
            Ok (Exchange {| p_call := {| call_req := req; call_target := target c; call_transport := transport |};
                            p_version := version; p_a2a := bp_a2a policies; p_a2a_type := a2a_type;
                            p_llm := llm;
                            p_include_completion := default false (needs_llm_completion ∘ lg_cel <$> w_log w);
                            p_rate_limit := llm_local_rate_limit route_policies |})
          end)
      end
    end
  end.

(** The future: the exchange and what is done with its response. *)
Definition exchange (p : Prepared) (w : World)
    : comp (World * result (Response * option StreamReader) ProxyError) :=
  r ← call x_uri_from_parts x_resolve x_exchange (p_version p) (p_call p);
  match r with
  | Err e => Ret (w, Err e)
  | Ok resp =>
    match apply_to_response x_parse_json x_to_vec (p_a2a p) (p_a2a_type p) resp with
    | (_, Err _) => Ret (w, Err (Processing "a2a"))
    | (resp, Ok _) =>
      match p_llm p with
      | None => Ret (w, Ok (resp, None))
      | Some (llm, llm_request) =>
        log ← expect (w_log w);
        let '(stored, lims, r) :=
          process_response x_now_ms x_now llm llm_request (p_rate_limit p) (p_include_completion p) resp
            (lg_llm_response log) (w_limiters w) in
        Ret (add_log (set_limiters w lims) (log_llm_response stored), map_err (λ _, Processing "llm") r)
      end
    end
  end.

(** ** The inference router *)

(** [InferencePoolRouter::build_ext_proc]: the picker of the endpoint. *)
Definition build_ext_proc (backend : Backend) : option Target :=
  match backend with
  | BService svc _ =>
    if Str.ends_with ".inference.cluster.local" (Service.hostname svc) then
      '(name, _) ← Str.split_once "." (Service.hostname svc); Some (Target_from (name +:+ "-epp") 9002)
    else None
  | _ => None
  end.

Definition DESTINATION_HEADER : string := "x-gateway-destination-endpoint".

(** [mutate_request]: the request of the picker, and the endpoint it names. *)
Definition mutate_request (ext_proc : option Target) (req : Request)
    : result (Request * option SocketAddr) ProxyError :=
  match ext_proc with
  | None => Ok (req, None)
  | Some t =>
    let? req := map_err Processing (x_epp_request t req) in
    match hdr_get (req_headers req) DESTINATION_HEADER ≫= x_to_str with
    | None => Ok (req, None)
    | Some v =>
      let? dest := ok_or (x_parse_addr v) (Processing "EPP returned invalid address") in Ok (req, Some dest)
    end
  end.

Definition mutate_response (ext_proc : option Target) (resp : Response) : result Response ProxyError :=
  match ext_proc with None => Ok resp | Some t => map_err Processing (x_epp_response t resp) end.

(** ** Upgrades and statuses *)

Definition SWITCHING_PROTOCOLS : Z := 101.

(** The upgrade that is left, and the answer. *)
Definition handle_upgrade (upgrade : option (string * Handle)) (resp : Response)
    : option (string * Handle) * result Response ProxyError :=
  (None,
   match upgrade with
   | None => Err (UpgradeFailed None None)
   | Some (ty, _) =>
     let resp_ty := upgrade_type x_connection (resp_headers resp) in
     if decide (Some ty ≠ resp_ty) then Err (UpgradeFailed (Some ty) resp_ty)
     else let? _ := map_err ProcessingString (x_upgraded resp) in Ok resp
   end).

(** [s.parse::<u8>()] of the header, if it is there. *)
Definition maybe_set_grpc_status (resp : Response) (w : World) : World :=
  match hdr_get (resp_headers resp) "grpc-status" with
  | None => w
  | Some s => add_log w (log_grpc_status (x_from_utf8 s ≫= Str.parse_uint 255))
  end.
End calls.

(** * Attempts *)

Section attempt.
Context `{!HeaderMapOps, !HttpParsers, !BodyReader, !LlmSerde, !Jwt.JwtLib, !Rng, !CelEngine}.
Context `{!HashIter string Endpoint.t, !HashIter string TargetedPolicy}.
Context {X : Externals}.

(** A backend of a route, resolved. *)
Record RouteBackend := { rb_weight : N; rb_backend : Backend; rb_filters : list RouteFilter }.

Definition resolve_route_backend (b : RouteBackendReference) (pi : Stores) : result RouteBackend ProxyError :=
  let? backend := resolve_backend (rbr_backend b) pi in
  Ok {| rb_weight := rbr_weight b; rb_backend := backend; rb_filters := rbr_filters b |}.

(** The filters and policies on a response. *)
Definition process_response_headers (route : Route) (backend : RouteBackend) (policies : ResponsePolicies)
    (resp : Response) (w : World) : World * result Response ProxyError :=
  match apply_response_filters (route_filters route) resp with
  | (_, Err e) => (w, Err (PFilterError e))
  | (resp, Ok _) =>
    match apply_response_filters (rb_filters backend) resp with
    | (_, Err e) => (w, Err (PFilterError e))
    | (resp, Ok _) =>
      match ResponsePolicies_apply x_value_from_bytes x_to_vec policies resp
              (default ContextBuilder_new (lg_cel <$> w_log w)) with
      | (_, Err e) => (w, Err e)
      | (resp, Ok _) => (maybe_set_grpc_status resp w, Ok resp)
      end
    end
  end.

(** Whether the route has a deadline that passes before the call is over; the call
    is then dropped before anything is done with its response. *)
Definition timed_out (route : Route) (late : bool) : bool :=
  match AgentTypes.route_policies route ≫= (λ p, effective_timeout (tp_timeout p)) with
  | Some _ => late
  | None => false
  end.

(** [attempt_upstream]; [late] tells whether a deadline would pass. *)
Definition attempt_upstream (stores : Stores) (clock : nat → list Z) (late : bool)
    (llm_policies : LLMRoutePolicies) (backend : RouteBackend) (route : Route) (policies : ResponsePolicies)
    (local_port : option N) (version : Version) (claims : option Claims) (req : Request) (w : World)
    : comp (World * result (Response * option StreamReader) ProxyError) :=
  let ext_proc := build_ext_proc (rb_backend backend) in
  match mutate_request ext_proc req with
  | Err e => Ret (w, Err e)
  | Ok (req, override_dest) =>
    let w := add_log w (log_inference_pool override_dest) in
    '(w, r) ← make_backend_call stores clock llm_policies override_dest (rb_backend backend) None local_port
                version claims req w;
    match r with
    | Err e => Ret (w, Err e)
    | Ok outcome =>
      if timed_out route late && negb (is_answered outcome) then Ret (w, Err RequestTimeout)
      else
        '(w, r) ← match outcome with
                  | Exchange p => exchange p w
                  | Relayed resp | Answered resp => Ret (w, Ok (resp, None))
                  end;
        match r with
        | Err e => Ret (w, Err e)
        | Ok (resp, reader) =>
          if decide (resp_status resp = SWITCHING_PROTOCOLS) then
            let '(upgrade, r) := handle_upgrade (w_upgrade w) resp in
            Ret (mkWorld _ (w_limiters w) (w_log w) upgrade, let? resp := r in Ok (resp, reader))
          else
            match mutate_response ext_proc resp with
            | Err e => Ret (w, Err e)
            | Ok resp =>
              let '(w, r) := process_response_headers route backend policies resp w in
              Ret (w, let? resp := r in Ok (resp, reader))
            end
        end
    end
  end.

(** [send_mirror], on a client without a log. *)
Definition send_mirror (stores : Stores) (clock : nat → list Z) (mirror : RequestMirror) (local_port : option N)
    (version : Version) (claims : option Claims) (req : Request) (lims : Limiters)
    : comp (result () ProxyError) :=
  let req := with_headers req (hdr_remove (req_headers req) "content-length") in
  match resolve_simple_backend (mirror_backend mirror) stores with
  | Err e => Ret (Err e)
  | Ok backend =>
    '(w, r) ← make_backend_call stores clock {| llm_local_rate_limit := [] |} None (Backend_from backend) None
                local_port version claims req (mkWorld _ lims None None);
    match r with
    | Err e => Ret (Err e)
    | Ok (Relayed _) | Ok (Answered _) => Ret (Ok ())
    | Ok (Exchange p) => '(_, r) ← exchange p w; Ret (let? _ := r in Ok ())
    end
  end.
End attempt.

(** * The path *)

(** [HTTPProxy] with its inputs: the tracer is the list of its expressions. *)
Record HTTPProxy := {
  px_bind_name : string;
  px_selected_listener : option Listener;
  px_target_address : SocketAddr;
  px_network : string;
  px_self_addr : option string;
  px_tracer : option (list Expression);
  px_stores : Stores
}.

(** An incoming request: its connection, version, the upgrade of its connection, the
    number for a new span and, per attempt, whether a deadline would pass. *)
Record Incoming `{!HeaderMapOps} := {
  in_conn : ConnInfo;
  in_local_port : N;
  in_version : Version;
  in_on_upgrade : option Handle;
  in_span : N;
  in_late : nat → bool;
  in_req : Request
}.

Section path.
Context `{!HeaderMapOps, !HttpParsers, !BodyReader, !LlmSerde, !Jwt.JwtLib, !Rng, !CelEngine}.
Context `{!HashIter string Endpoint.t, !HashIter string TargetedPolicy, !HashIter string Listener}.
Context `{!HashIter string Descriptor, !SetIter string}.
Context {X : Externals}.

(** ** Routing *)

(** A request with a span gets one of its own. *)
Definition start_span (px : HTTPProxy) (id : N) (req : Request) (cel : ContextBuilder)
    : comp (Request * ContextBuilder) :=
  tp ← from_request x_to_str req;
  Ret match tp with
      | None => (req, cel)
      | Some tp =>
        (insert_header (new_span tp id) req,
         match px_tracer px with Some es => foldl register_expression cel es | None => cel end)
      end.

(** [with_request], and the body if an expression wants it. *)
Definition record_request (cel : ContextBuilder) (req : Request) : ContextBuilder * Request :=
  let '(cel, needs_body) := with_request cel req in
  if needs_body then
    match inspect_raw_body (req_body req) with
    | (b, Some body) => (with_request_body cel body, A2a.with_body req b)
    | (b, None) => (cel, A2a.with_body req b)
    end
  else (cel, req).

Record Routed := {
  rt_req : Request;
  rt_cel : ContextBuilder;
  rt_upgrade : option (string * Handle);
  rt_listener : Listener;
  rt_route : Route;
  rt_path_match : PathMatch
}.

(** The request from the connection to its route. *)
Definition route_request (px : HTTPProxy) (inc : Incoming) (cel : ContextBuilder)
    : comp (result Routed ProxyError) :=
  match BindStore.listeners (st_binds (px_stores px)) (px_bind_name px) with
  | None => Ret (Err BindNotFound)
  | Some listeners =>
    match normalize_uri x_to_str x_uri_from_parts (in_version inc) (ci_tls (in_conn inc)) (in_req inc) with
    | (_, Err e) => Ret (Err (Processing e))
    | (req, Ok _) =>
      let '(req, upgrade) := hop_by_hop_headers x_to_str x_connection req (in_on_upgrade inc) in
      '(req, cel) ← start_span px (in_span inc) req cel;
      host ← get_host req;
      match host with
      | Err _ => Ret (Err PInvalidRequest)
      | Ok host =>
        let '(cel, req) := record_request cel req in
        match or (px_selected_listener px) (ListenerSet.best_match listeners host) with
        | None => Ret (Err ListenerNotFound)
        | Some listener =>
          route ← select_best_route x_to_str x_form_urlencoded
                    (DiscoveryStore.services (st_discovery (px_stores px))) (px_network px) (px_self_addr px)
                    (px_target_address px) listener req;
          Ret match route with
              | None => Err RouteNotFound
              | Some (route, path_match) =>
                Ok {| rt_req := req; rt_cel := cel; rt_upgrade := upgrade; rt_listener := listener;
                      rt_route := route; rt_path_match := path_match |}
              end
        end
      end
    end
  end.

(** ** Policies and filters *)

(** The policies of the route, with their expressions registered before the request is
    recorded once more. *)
Definition policies_of_route (px : HTTPProxy) (r : Routed) : RoutePolicies :=
  BindStore.route_policies (st_binds (px_stores px)) (route_key (rt_route r)) (route_name (rt_route r))
    (l_gateway_name (rt_listener r)).

Definition policy_state (px : HTTPProxy) (r : Routed) : ReqState :=
  let '(cel, req) := record_request (register_cel_expressions (policies_of_route px r) (rt_cel r)) (rt_req r) in
  mkReqState _ req None cel None.

Record Ready := {
  rd_req : Request;
  rd_backend : RouteBackend;
  rd_policies : ResponsePolicies
}.

(** The filters of the route and of the chosen backend. [inr] is a response that ends
    the request. *)
Definition filter_request (px : HTTPProxy) (r : Routed) (policies : ResponsePolicies) (req : Request)
    : comp (result (Ready + Response) ProxyError) :=
  '(req, o) ← apply_request_filters (route_filters (rt_route r)) (rt_path_match r) req;
  match o with
  | Err e => Ret (Err (PFilterError e))
  | Ok (Some resp, _) => Ret (Ok (inr resp))
  | Ok (None, headers) =>
    let policies := add_response_headers policies headers in
    match (let? b := ok_or (select_backend (rt_route r)) NoValidBackends in
           resolve_route_backend b (px_stores px)) with
    | Err e => Ret (Err e)
    | Ok backend =>
      '(req, o) ← apply_request_filters (rb_filters backend) (rt_path_match r) req;
      Ret match o with
          | Err e => Err (PFilterError e)
          | Ok (Some resp, _) => Ok (inr resp)
          | Ok (None, headers) =>
            Ok (inl {| rd_req := req; rd_backend := backend;
                       rd_policies := add_response_headers policies headers |})
          end
    end
  end.

(** The mirrored copies: no body. [chosen] is the random choice. *)
Definition mirrors_of (chosen : RequestMirror → bool) (r : Routed) (d : Ready) : list (RequestMirror * Request) :=
  (λ m, (m, A2a.with_body (rd_req d) "")) <$>
    filter (λ m, chosen m = true)
      (get_mirrors (route_filters (rt_route r)) ++ get_mirrors (rb_filters (rd_backend d))).

(** ** The whole path *)

Context {E : Type}.
Local Abbreviation Bodies := (@ReplayBody.Sys HeaderMap E).
(** The frames of a body with its size hint, and what sending does to the bodies. *)
Context (frames : Request → list (@ReplayBody.Inner HeaderMap E) * nat) (consume : nat → Bodies → Bodies).
Context (chosen : RequestMirror → bool).
Local Abbreviation State := (World * option StreamReader)%type.

Record Served := {
  sv_state : State;
  sv_trace : list (Request * (State * Bodies) * result Response ProxyError);
  sv_mirrors : list (RequestMirror * Request);
  sv_result : result Response ProxyError
}.

(** An answer without a call to a backend. *)
Definition served (w : World) (r : result Response ProxyError) : Served :=
  {| sv_state := (w, None); sv_trace := []; sv_mirrors := []; sv_result := r |}.

(** Attempt [n] of the loop in [send_request]. *)
Definition attempt (px : HTTPProxy) (inc : Incoming) (clock : nat → nat → list Z) (r : Routed) (d : Ready)
    (llm : LLMRoutePolicies) (claims : option Claims) (n : nat) (req : Request) (st : State * Bodies)
    : comp (State * Bodies * result Response ProxyError) :=
  '(w, res) ← attempt_upstream (px_stores px) (clock n) (in_late inc n) llm (rd_backend d) (rt_route r)
                (rd_policies d) (Some (in_local_port inc)) (in_version inc) claims req st.1.1;
  Ret ((w, match res with Ok (_, reader) => reader | Err _ => None end), consume n st.2,
       let? x := res in Ok x.1).

Definition retries_of (r : Route) : option RetryPolicy := AgentTypes.route_policies r ≫= tp_retry.

(** [proxy_internal]: [clock] gives the readings of the checks of the requests' limits
    (0) and of the token limits of each attempt. *)
Definition proxy_internal (px : HTTPProxy) (inc : Incoming) (clock : nat → nat → list Z) (cel : ContextBuilder)
    (lims : Limiters) : comp Served :=
  let w0 := mkWorld _ lims (Some (mkLog _ cel None None None None None None)) None in
  routed ← route_request px inc cel;
  match routed with
  | Err e => Ret (served w0 (Err e))
  | Ok r =>
    let pols := policies_of_route px r in
    o ← apply_request_policies x_to_str x_value_from_bytes x_to_vec x_bearer x_key_of x_token_error x_authz
          x_rate_limit pols (in_conn inc) (clock 0) lims (policy_state px r);
    '(lims, s, outcome) ← expect o;
    let w := mkWorld _ lims (Some (mkLog _ (rs_cel s) None None None None None None)) (rt_upgrade r) in
    match outcome with
    | Err e => Ret (served w (Err e))
    | Ok p =>
      match direct_response p with
      | Some dr => Ret (served w (Ok dr))
      | None =>
        let rp := add_response_headers (ResponsePolicies_from (rp_transformation pols)) (response_headers p) in
        f ← filter_request px r rp (rs_req s);
        match f with
        | Err e => Ret (served w (Err e))
        | Ok (inr resp) => Ret (served w (Ok resp))
        | Ok (inl d) =>
          let '(inner, hint) := frames (rd_req d) in
          '(st, trace, res) ←
            send_request (attempt px inc (λ n, clock (S n)) r d (LLMRoutePolicies_from pols) (rs_claims s))
              (retries_of (rt_route r)) (rd_req d) inner hint (w, None);
          Ret {| sv_state := st; sv_trace := trace; sv_mirrors := mirrors_of chosen r d; sv_result := res |}
        end
      end
    end
  end.

(** [ProxyError::as_response], given the text of the error. *)
Definition as_response (show : ProxyError → string) (e : ProxyError) : Response :=
  {| resp_status := as_status e; resp_headers := hdr_insert hdr_new "content-type" "text/plain";
     resp_body := show e |}.

(** [proxy]: the response that is sent; the log learns its status. *)
Definition proxy (show : ProxyError → string) (px : HTTPProxy) (inc : Incoming) (clock : nat → nat → list Z)
    (cel : ContextBuilder) (lims : Limiters) : comp (Served * Response) :=
  sv ← proxy_internal px inc clock cel lims;
  let resp := match sv_result sv with Ok resp => resp | Err e => as_response show e end in
  let w := add_log (sv_state sv).1 (λ l, log_cel (with_response (lg_cel l) resp) l) in
  Ret ({| sv_state := (w, (sv_state sv).2); sv_trace := sv_trace sv; sv_mirrors := sv_mirrors sv;
          sv_result := sv_result sv |}, resp).
End path.

(** * Theorems *)

(** ** Transports *)

(** A TLS policy and the transport. With a TLS policy for the backend, the connection
    is encrypted with it, in a tunnel where the workload asks for one, except that the
    connection is in plain text when the workload asks for a tunnel and the
    certificate authority has no identity at hand. *)
Theorem backend_tls_kept `{!HeaderMapOps, !Jwt.JwtLib} {X : Externals} c tls t :
  build_transport c (Some tls) = Ok t →
  t = TlsTransport tls ∧ (x_ca = None ∨ ∀ id, transport_override c ≠ Some (HBONE, id)) ∨
  (∃ id, t = Hbone (Some tls) id ∧ transport_override c = Some (HBONE, id)) ∨
  (t = Plaintext ∧ x_ca = Some None ∧ ∃ id, transport_override c = Some (HBONE, id)).
Proof.
  unfold build_transport. destruct (transport_override c) as [[[] id]|], x_ca as [[ca|]|]; intros [= <-];
    naive_solver.
Qed.

(** ** Upgrades *)

Section upgrade_facts.
Context `{!HeaderMapOps, !HttpParsers, !BodyReader, !LlmSerde, !Jwt.JwtLib, !Rng, !CelEngine}.
Context `{!HashIter string Endpoint.t, !HashIter string TargetedPolicy}.
Context {X : Externals}.

Lemma add_log_upgrade w f : w_upgrade (add_log w f) = w_upgrade w.
Proof. done. Qed.

Lemma prepare_llm_upgrade clock rp pols req w w' r :
  prepare_llm clock rp pols req w = Ret (w', r) → w_upgrade w' = w_upgrade w.
Proof.
  unfold prepare_llm. destruct (bp_llm_provider pols) as [[llm d]|]; [|by intros [= <- <-]].
  destruct (process_request _ _ _ _ _ _ _ _ _) as [[cel o]|]; [|done]. cbn [mbind comp_mbind].
  destruct o as [[req' info|dr]|e]; [|by destruct cel; intros [= <- <-]..].
  destruct (apply_llm_request_policies _ _ _ _) as [[[lims o]|]|]; cbn; [|done|done].
  destruct o; intros [= <- <-]; by destruct cel.
Qed.

Lemma make_backend_call_upgrade stores clock rp od b dp port v claims req w w' r :
  make_backend_call stores clock rp od b dp port v claims req w = Ret (w', r) → w_upgrade w' = w_upgrade w.
Proof.
  unfold make_backend_call. destruct (backend_call _ _ _ _ _ _ _) as [[[c|name m]|e]|]; cbn [mbind comp_mbind];
    [| |by intros [= <- <-]|done].
  2:{ destruct (w_log w); [|done]. by intros [= <- <-]. }
  destruct (override_version c v req) as [v' req1].
  destruct (apply_backend_auth _ _ _) as [s [[]|e]]; [|by intros [= <- <-]].
  destruct (apply_to_request _ _ _ _ _ _) as [req2 ty].
  set (w1 := match ty with A2a.Call m => _ | _ => _ end).
  assert (w_upgrade w1 = w_upgrade w) as Hw1 by (unfold w1; by destruct ty). clearbody w1.
  destruct (match bp_llm_provider _ with Some _ => _ | None => _ end) as [req3|e]; [|by intros [= <- <-]].
  destruct (prepare_llm _ _ _ _ _) as [[w2 o]|] eqn:Hp; cbn [mbind comp_mbind]; [|done]. intros [= <- <-].
  rewrite <-Hw1. by eapply prepare_llm_upgrade.
Qed.

Lemma exchange_upgrade p w w' r : exchange p w = Ret (w', r) → w_upgrade w' = w_upgrade w.
Proof.
  unfold exchange. destruct (call _ _ _ _ _) as [[resp|e]|]; cbn [mbind comp_mbind]; [|by intros [= <- <-]|done].
  destruct (apply_to_response _ _ _ _ _) as [resp' [[]|e]]; [|by intros [= <- <-]].
  destruct (p_llm p) as [[llm info]|]; [|by intros [= <- <-]].
  destruct (w_log w); [|done]. cbn [expect mbind comp_mbind].
  destruct (process_response _ _ _ _ _ _ _ _ _) as [[log lims] o]. by intros [= <- <-].
Qed.

Lemma response_filters_status filters resp resp' r :
  apply_response_filters filters resp = (resp', r) → resp_status resp' = resp_status resp.
Proof.
  unfold apply_response_filters. revert resp. induction filters as [|f filters IH]; intros resp; cbn [try_each].
  { by intros [= <- <-]. }
  assert (resp_status (response_filter resp f).1 = resp_status resp) as Hf.
  { unfold response_filter. destruct f; try done. by destruct (HeaderModifier_apply _ _). }
  destruct (response_filter resp f) as [resp1 [[]|e]]; simpl in Hf; [|by intros [= <- <-]].
  intros Hr. rewrite <-Hf. by apply IH.
Qed.

Lemma process_response_headers_status route b pols resp w w' resp' :
  process_response_headers route b pols resp w = (w', Ok resp') → resp_status resp' = resp_status resp.
Proof.
  unfold process_response_headers.
  destruct (apply_response_filters _ resp) as [r1 [[]|e]] eqn:Hf1; [|done]. apply response_filters_status in Hf1.
  destruct (apply_response_filters _ r1) as [r2 [[]|e]] eqn:Hf2; [|done]. apply response_filters_status in Hf2.
  unfold ResponsePolicies_apply.
  destruct (rsp_transformation pols) as [t|]; [|intros [= <- <-]; simpl; congruence].
  destruct (apply_response _ _ t r2 _) as [r3 [[]|e]] eqn:Hf3; [|done].
  assert (resp_status r3 = resp_status r2) as Hf4.
  { unfold apply_response in Hf3. destruct (apply _ _ _ _ _ _) as [[??]?]. by simplify_eq. }
  intros [= <- <-]. simpl. congruence.
Qed.

(** A response that switches protocols. It reaches the client only if the client had
    asked for an upgrade, the backend answered with the same protocol and both
    connections were upgraded; the client's upgrade is used up by the attempt. *)
Theorem upgrade_forwarded stores clock late rp b route pols port v claims req w w' resp reader :
  build_ext_proc (rb_backend b) = None →
  attempt_upstream stores clock late rp b route pols port v claims req w = Ret (w', Ok (resp, reader)) →
  resp_status resp = SWITCHING_PROTOCOLS →
  ∃ ty h, w_upgrade w = Some (ty, h) ∧ upgrade_type x_connection (resp_headers resp) = Some ty ∧
    x_upgraded resp = Ok () ∧ w_upgrade w' = None.
Proof.
  intros Hext. unfold attempt_upstream. rewrite Hext. cbn [mutate_request].
  destruct (make_backend_call _ _ _ _ _ _ _ _ _ _ _) as [[w1 o]|] eqn:Hm; cbn [mbind comp_mbind]; [|done].
  apply make_backend_call_upgrade in Hm. rewrite add_log_upgrade in Hm.
  destruct o as [outcome|e]; [|by intros [= ]]. destruct (timed_out route late && _); [by intros [= ]|].
  assert (∀ w2 o2, match outcome with
                   | Exchange p => exchange p w1
                   | Relayed resp | Answered resp => Ret (w1, Ok (resp, None))
                   end = Ret (w2, o2) → w_upgrade w2 = w_upgrade w1) as Hout.
  { intros w2 o2. destruct outcome; [apply exchange_upgrade|by intros [= <- <-]..]. }
  destruct (match outcome with Exchange _ => _ | Relayed _ => _ | Answered _ => _ end) as [[w2 o2]|];
    cbn [mbind comp_mbind]; [|done]. specialize (Hout w2 o2 eq_refl).
  destruct o2 as [[resp2 reader2]|e]; [|by intros [= ]]. case_decide as Hst.
  - unfold handle_upgrade. rewrite Hout, Hm. destruct (w_upgrade w) as [[ty h]|]; [|by intros [= ]].
    case_decide as Hty; [by intros [= ]|]. destruct (x_upgraded resp2) as [[]|e] eqn:Hx; [|by intros [= ]].
    intros [= <- <- <-] _. exists ty, h. done.
  - cbn [mutate_response]. destruct (process_response_headers _ _ _ _ _) as [w3 [resp3|e]] eqn:Hp; [|by intros [= ]].
    intros [= <- <- <-] Hs. apply process_response_headers_status in Hp. congruence.
Qed.
End upgrade_facts.

(** ** The whole path *)

Section path_facts.
Context `{!HeaderMapOps, !HttpParsers, !BodyReader, !LlmSerde, !Jwt.JwtLib, !Rng, !CelEngine}.
Context `{!HashIter string Endpoint.t, !HashIter string TargetedPolicy, !HashIter string Listener}.
Context `{!HashIter string Descriptor, !SetIter string}.
Context {X : Externals} {E : Type}.
Context (frames : Request → list (@ReplayBody.Inner HeaderMap E) * nat).
Context (consume : nat → @ReplayBody.Sys HeaderMap E → @ReplayBody.Sys HeaderMap E).
Context (chosen : RequestMirror → bool).

Lemma route_request_error px inc cel e :
  route_request px inc cel = Ret (Err e) → as_status e ∈ [400; 404; 503]%Z.
Proof.
  assert (400%Z ∈ [400; 404; 503]%Z ∧ 404%Z ∈ [400; 404; 503]%Z ∧ 503%Z ∈ [400; 404; 503]%Z) as (H400 & H404 & H503)
    by set_solver.
  unfold route_request. destruct (BindStore.listeners _ _) as [ls|]; [|by intros [= <-]].
  destruct (normalize_uri _ _ _ _ _) as [req [[]|e0]]; [|by intros [= <-]].
  destruct (hop_by_hop_headers _ _ _ _) as [req1 up].
  destruct (start_span _ _ _ _) as [[req2 cel2]|]; cbn [mbind comp_mbind]; [|done].
  destruct (get_host req2) as [[host|[]]|]; cbn [mbind comp_mbind]; [|by intros [= <-]|done].
  destruct (record_request cel2 req2) as [cel3 req3].
  destruct (or _ _) as [l|]; [|by intros [= <-]].
  destruct (select_best_route _ _ _ _ _ _ _ _) as [[[route pm]|]|]; cbn [mbind comp_mbind]; [done|by intros [= <-]|done].
Qed.

(** C11: nothing reaches a backend unless it is routed and let through. A request that is
    not routed is answered with 400, 404 or 503, takes nothing from any limiter, and
    neither it nor a mirrored copy is sent anywhere. A request that is sent to a
    backend or mirrored has been admitted by the policies of its route: where tokens are
    checked, the bearer token it carries was verified by a configured key (a request
    without a token is let through), and the authorization service, if there is one,
    allowed it. An error is answered with its status. *)
Theorem proxy_guarded show px inc clock cel lims sv resp :
  proxy frames consume chosen show px inc clock cel lims = Ret (sv, resp) →
  match route_request px inc cel with
  | Panic => False
  | Ret (Err e) => resp_status resp = as_status e ∧ as_status e ∈ [400; 404; 503]%Z ∧
      sv_trace sv = [] ∧ sv_mirrors sv = [] ∧ w_limiters (sv_state sv).1 = lims
  | Ret (Ok r) =>
      (sv_trace sv ≠ [] ∨ sv_mirrors sv ≠ [] → ∃ s,
         admitted x_bearer x_key_of x_authz (policies_of_route px r) (policy_state px r) s) ∧
      (∀ e, sv_result sv = Err e → resp_status resp = as_status e)
  end.
Proof.
  unfold proxy, proxy_internal. destruct (route_request px inc cel) as [[r|e]|] eqn:Hr; cbn [mbind comp_mbind]; [| |done].
  2:{ intros [= <- <-]. simpl. split; [done|]. split; [by eapply route_request_error|done]. }
  destruct (apply_request_policies _ _ _ _ _ _ _ _ _ _ _ _ _) as [[[[lims' s] o]|]|] eqn:Hp; cbn [expect mbind comp_mbind];
    [|done|done].
  destruct o as [p|e]; [|by intros [= <- <-]; split; [intros [?|?]|intros ? [= <-]]].
  destruct (direct_response p) as [dr|] eqn:Hd; [by intros [= <- <-]; split; [intros [?|?]|]|].
  assert (∃ s', admitted x_bearer x_key_of x_authz (policies_of_route px r) (policy_state px r) s') as Hadm
    by (eexists; by eapply chain_admitted).
  destruct (filter_request _ _ _ _) as [[[d|resp0]|e]|]; cbn [mbind comp_mbind];
    [|by intros [= <- <-]; split; [intros [?|?]|]|by intros [= <- <-]; split; [intros [?|?]|intros ? [= <-]]|done].
  destruct (frames (rd_req d)) as [inner hint].
  destruct (send_request _ _ _ _ _ _) as [[[st trace] res]|]; cbn [mbind comp_mbind]; [|done].
  intros [= <- <-]. split; [done|]. simpl. by intros e ->.
Qed.
End path_facts.

(** ** Examples *)

Module PathExample.
#[local] Existing Instance gmap_headers.
#[local] Existing Instance gmap_headers_laws.
#[local] Existing Instance example_parsers.
#[local] Existing Instance limited_reader.
#[local] Existing Instance LlmCallExample.serde.
#[local] Existing Instance AuthExample.lib.
#[local] Existing Instance example_rng.
#[local] Existing Instance TransformationExample.engine.
#[local] Existing Instance hm_iter_default.
#[local] Existing Instance hs_iter_default.

(** A network on which every exchange succeeds. *)
Definition outside (ca : option (option (Identity.t → result BackendTLS string))) (status : Z) : Externals := {|
  x_to_str := Some; x_value_from_bytes := Some; x_from_utf8 := Some; x_to_vec _ := None; x_parse_json _ := None;
  x_mime _ := None; x_form_urlencoded _ := []; x_uri_from_parts := ClientExample.from_parts;
  x_parse_addr _ := None; x_bearer := AuthExample.bearer; x_connection h := Some (Str.eqb "upgrade");
  x_params_ok _ := true; x_key_of := ChainExample.key_of; x_token_error _ := "bad token";
  x_gcp := Err ""; x_sign _ := Err ""; x_system_trust := {| btls_config := 0%N |}; x_ca := ca;
  x_authz := ChainExample.allows; x_rate_limit _ _ := None; x_webhook _ _ _ := Err "";
  x_epp_request _ r := Ok r; x_epp_response _ r := Ok r; x_regex := GuardExample.compile;
  x_phone := GuardExample.phones; x_tokenizer _ := None; x_encode_len _ _ := 1%N;
  x_resolve _ := Some (V4 "addr");
  x_exchange _ _ := Ok {| resp_status := status; resp_headers := hdr_insert hdr_new "upgrade" "websocket";
                          resp_body := "hi" |};
  x_mcp _ _ _ := {| resp_status := 200; resp_headers := hdr_new; resp_body := "" |};
  x_upgraded _ := Ok (); x_now_ms := 0; x_now := 0 |}.

Definition tls_policy : BackendTLS := {| btls_config := 3%N |}.
Definition tunnel : BackendCall :=
  {| target := TgtHostname "a.com" 443; http_version_override := None;
     transport_override := Some (HBONE, Identity.Spiffe "td" "ns" "sa"); HttpProxy.default_policies := None |}.

(** A TLS policy and a workload that wants a tunnel, without an identity. *)
Lemma backend_tls_kept_witness :
  let X := outside (Some None) 200 in
  build_transport tunnel (Some tls_policy) = Ok Plaintext ∧ x_ca = Some None.
Proof.
  intros X. assert (build_transport tunnel (Some tls_policy) = Ok Plaintext) as H by reflexivity.
  split; [exact H|]. destruct (backend_tls_kept _ _ _ H) as [[? _]|[(? & ? & _)|(_ & Hca & _)]];
    [discriminate|discriminate|exact Hca].
Defined.

Definition backend : RouteBackend :=
  {| rb_weight := 1; rb_backend := BOpaque "be" (TgtHostname "a.com" 80); rb_filters := [] |}.
Definition route : Route :=
  {| route_key := "r"; route_name := "r"; route_rule_name := None; route_hostnames := [];
     route_matches := [example_match "/"]; route_filters := [];
     route_backends := [{| rbr_weight := 1; rbr_backend := BRBackend "be"; rbr_filters := [] |}];
     AgentTypes.route_policies := None |}.

Definition binds : BindStore.t :=
  match RouteSet.insert RouteSet.default_set route with
  | Panic => BindStore.new
  | Ret rs =>
    BindStore.mk
      {[ "b" := {| b_key := "b"; b_address := example_dst; b_listeners := {[ "l" := example_listener LPHTTP rs ]} |} ]}
      {[ "p" := {| tp_name := "p"; tp_target := PTRoute "r";
                   tp_policy := PJwtAuth {| jwt_keys := {[ "k1" := 9%N ]} |} |} ]}
      {[ PTRoute "r" := {[ "p" ]} ]} {[ "be" := rb_backend backend ]} ∅ ∅ []
  end.
Definition stores : Stores := {| st_discovery := DiscoveryStore.new; st_binds := binds |}.

Definition world : World :=
  mkWorld _ ∅ (Some (mkLog _ ContextBuilder_new None None None None None None)) (Some ("websocket", 1%N)).

(** The backend accepts the upgrade that the client asked for. *)
Lemma upgrade_forwarded_witness :
  let X := outside None 101 in
  ∃ w' resp, attempt_upstream stores (λ _, []) false {| llm_local_rate_limit := [] |} backend route
      (ResponsePolicies_from None) (Some 80%N) HTTP_11 None LlmCallExample.request world = Ret (w', Ok (resp, None)) ∧
    w_upgrade w' = None.
Proof.
  intros X.
  set (o := attempt_upstream stores (λ _, []) false {| llm_local_rate_limit := [] |} backend route
    (ResponsePolicies_from None) (Some 80%N) HTTP_11 None LlmCallExample.request world).
  assert (match o with Ret (_, Ok (resp, None)) => resp_status resp = 101%Z | _ => False end) as Ho
    by (vm_compute; reflexivity).
  destruct o as [[w' [[resp [reader|]]|e]]|] eqn:Heq; [destruct Ho| |destruct Ho|destruct Ho].
  exists w', resp. split; [reflexivity|].
  destruct (upgrade_forwarded stores (λ _, []) false {| llm_local_rate_limit := [] |} backend route
    (ResponsePolicies_from None) (Some 80%N) HTTP_11 None LlmCallExample.request world w' resp None eq_refl Heq Ho)
    as (ty & h & _ & _ & _ & Hw).
  exact Hw.
Defined.

Definition server : HTTPProxy :=
  {| px_bind_name := "b"; px_selected_listener := None; px_target_address := example_dst; px_network := "";
     px_self_addr := None; px_tracer := None; px_stores := stores |}.
Definition incoming : Incoming :=
  {| in_conn := AuthExample.conn; in_local_port := 80; in_version := HTTP_2; in_on_upgrade := None; in_span := 0;
     in_late _ := false; in_req := rs_req (AuthExample.state "Bearer k1:secret") |}.

(** A request with a token reaches its backend: a key has verified the token. *)
Lemma proxy_guarded_witness :
  let X := outside None 200 in
  ∃ sv resp r, proxy (E:=()) (λ _, ([], 0)) (λ _ sys, sys) (λ _, true) (λ _, "") server incoming (λ _ _, [])
      ContextBuilder_new ∅ = Ret (sv, resp) ∧ List.length (sv_trace sv) = 1 ∧
    route_request server incoming ContextBuilder_new = Ret (Ok r) ∧
    ∃ s, admitted x_bearer x_key_of x_authz (policies_of_route server r) (policy_state server r) s.
Proof.
  intros X.
  set (o := proxy (E:=()) (λ _, ([], 0)) (λ _ sys, sys) (λ _, true) (λ _, "") server incoming (λ _ _, [])
    ContextBuilder_new ∅).
  assert (match o with Ret (sv, _) => List.length (sv_trace sv) = 1 | Panic => False end) as Ho
    by (vm_compute; reflexivity).
  assert (match route_request server incoming ContextBuilder_new with Ret (Ok _) => true | _ => false end = true)
    as Hr by (vm_compute; reflexivity).
  destruct o as [[sv resp]|] eqn:Heq; [|destruct Ho].
  pose proof (proxy_guarded (λ _, ([], 0)) (λ _ sys, sys) (λ _, true) (λ _, "") server incoming (λ _ _, [])
    ContextBuilder_new ∅ sv resp Heq) as H.
  destruct (route_request server incoming ContextBuilder_new) as [[r|e]|]; [|discriminate Hr|discriminate Hr].
  exists sv, resp, r. split; [reflexivity|]. split; [exact Ho|]. split; [reflexivity|].
  apply (proj1 H). left. intros Hnil. rewrite Hnil in Ho. discriminate Ho.
Defined.
End PathExample.
