(* ===== verification/TcpProxy.v ===== *)
(** TcpProxy: the decisions of [proxy/tcpproxy.rs]: the route of a connection, its
    backend and the address it is connected to; copying the streams is I/O. *)
From S2P Require Import Prelude Strs DiscoveryTypes AgentTypes Discovery RouteSet Routing.
From S2P Require Import BindStore HttpProxy.

(** The first host-name candidate with a route; without a host name only the
    catch-all. *)
Definition select_tcp_route (host : option string) (listener : Listener) : option TCPRoute :=
  if is_hbone (l_protocol listener) && RouteSet.is_empty (l_routes listener) then None
  else find_map (TCPRouteSet.get_hostname (l_tcp_routes listener))
         (HostnameMatch.all_matches_or_none host).

Definition select_tcp_backend `{Rng} (route : TCPRoute) : option TCPRouteBackendReference :=
  choose_weighted tbr_weight (tcp_backends route).

(** What [proxy_internal] decides before it dials: the address, or the error. A
    host name as target is a [panic!]. *)
Definition tcp_backend_address (b : SimpleBackend) : comp (result SocketAddr ProxyError) :=
  match b with
  | SBService _ _ => Ret (Err (Processing "service is not currently supported for TCPRoute"))
  | SBOpaque _ (TgtAddress addr) => Ret (Ok addr)
  | SBOpaque _ (TgtHostname _ _) => Panic
  | SBInvalid => Ret (Err BackendDoesNotExist)
  end.

Definition tcp_connect `{Rng} (pi : Stores) (sni : option string) (listener : Listener)
    : comp (result SocketAddr ProxyError) :=
  match select_tcp_route sni listener with
  | None => Ret (Err RouteNotFound)
  | Some route =>
    match select_tcp_backend route with
    | None => Ret (Err NoValidBackends)
    | Some b =>
      match resolve_simple_backend (tbr_backend b) pi with
      | Err e => Ret (Err e)
      | Ok backend => tcp_backend_address backend
      end
    end
  end.

(** * Theorems *)

(** The route served for a candidate that some route lists. *)
Lemma tcp_get_hostname_least rs h k r :
  TCPRouteSet.wf rs → TCPRouteSet.all rs !! k = Some r → h ∈ TCPRouteSet.hostname_matchers r →
  ∃ best, TCPRouteSet.get_hostname rs h = Some best.
Proof.
  intros Hwf Hk Hh. destruct (TCPRouteSet.wf_complete rs Hwf k r h Hk Hh) as (v & Hv & Hin).
  destruct (TCPRouteSet.head_least v k) as (k0 & Hk0 & _); [by eapply TCPRouteSet.wf_sorted|done|].
  destruct (TCPRouteSet.wf_entry rs Hwf h v k0 Hv) as [best Hbest].
  { destruct v; simplify_eq/=. set_solver. }
  exists best. unfold TCPRouteSet.get_hostname. rewrite Hv. simpl. by rewrite Hk0.
Qed.

Lemma tcp_get_hostname_best rs h best :
  TCPRouteSet.wf rs → TCPRouteSet.get_hostname rs h = Some best →
  TCPRouteSet.all rs !! tcp_key best = Some best ∧
  ∀ k r, TCPRouteSet.all rs !! k = Some r → h ∈ TCPRouteSet.hostname_matchers r →
    String.compare (tcp_key best) k ≠ Gt.
Proof.
  intros Hwf. unfold TCPRouteSet.get_hostname.
  destruct (TCPRouteSet.inner rs !! h) as [v|] eqn:Hv; [|done]. simpl.
  destruct (head v) as [k0|] eqn:Hk0; [|done]. simpl. intros Hbest.
  pose proof (TCPRouteSet.wf_key rs Hwf _ _ Hbest) as Hkey. rewrite Hkey. split; [done|].
  intros k r Hk Hh. destruct (TCPRouteSet.wf_complete rs Hwf k r h Hk Hh) as (v' & Hv' & Hin).
  assert (v' = v) as -> by congruence.
  destruct (TCPRouteSet.head_least v k) as (k1 & Hk1 & Hle); [by eapply TCPRouteSet.wf_sorted|done|].
  congruence.
Qed.

(** The route of a TCP connection. Over a consistent table it is the route with
    the smallest key among those that list the first candidate of the server name
    (exact, then wildcards from the longest, then any) that any route is filed
    under; without one, no route lists any candidate. *)
Theorem tcp_route_selected host listener :
  TCPRouteSet.wf (l_tcp_routes listener) →
  is_hbone (l_protocol listener) && RouteSet.is_empty (l_routes listener) = false →
  let rs := l_tcp_routes listener in
  let lists r h := ∃ k, TCPRouteSet.all rs !! k = Some r ∧ h ∈ TCPRouteSet.hostname_matchers r in
  match select_tcp_route host listener with
  | Some best => ∃ before h after,
      HostnameMatch.all_matches_or_none host = before ++ h :: after ∧
      TCPRouteSet.all rs !! tcp_key best = Some best ∧
      (∀ r, lists r h → String.compare (tcp_key best) (tcp_key r) ≠ Gt) ∧
      (∀ h' r, h' ∈ before → ¬ lists r h')
  | None => ∀ h r, h ∈ HostnameMatch.all_matches_or_none host → ¬ lists r h
  end.
Proof.
  intros Hwf Hh rs lists. unfold select_tcp_route. rewrite Hh.
  assert (∀ h r, TCPRouteSet.get_hostname rs h = None → ¬ lists r h) as Hno.
  { intros h r Hn (k & Hk & Hr). destruct (tcp_get_hostname_least rs h k r Hwf Hk Hr). congruence. }
  destruct (find_map _ _) as [best|] eqn:Hf.
  - apply find_map_Some in Hf as (before & h & after & Heq & Hbest & Hbefore).
    destruct (tcp_get_hostname_best rs h best Hwf Hbest) as [Hall Hleast].
    exists before, h, after. split_and!; [done|done| |].
    + intros r (k & Hk & Hr). rewrite (TCPRouteSet.wf_key rs Hwf _ _ Hk). by eapply Hleast.
    + intros h' r Hin. apply Hno. rewrite Forall_forall in Hbefore. by apply Hbefore.
  - intros h r Hin. apply Hno. rewrite find_map_None in Hf. by apply Hf.
Qed.

Definition example_tcp_route : TCPRoute :=
  {| tcp_key := "t"; tcp_route_name := "t"; tcp_hostnames := ["*.b.com"]; tcp_rule_name := None;
     tcp_backends := [{| tbr_weight := 1; tbr_backend := SBRBackend "db" |}] |}.

Definition example_tcp_listener : Listener :=
  {| l_key := "l"; l_name := "l"; l_gateway_name := "gw"; l_hostname := ""; l_protocol := LPTCP;
     l_routes := RouteSet.default_set;
     l_tcp_routes := match TCPRouteSet.from_list [example_tcp_route] with
                     | Ret rs => rs
                     | Panic => TCPRouteSet.default_set
                     end |}.

Lemma example_tcp_wf : TCPRouteSet.wf (l_tcp_routes example_tcp_listener).
Proof.
  destruct (TCPRouteSet.insert_wf TCPRouteSet.default_set example_tcp_route TCPRouteSet.tcp_wf_default)
    as (rs & Hrs & _ & Hwf). simpl. unfold TCPRouteSet.from_list. simpl. by rewrite Hrs.
Qed.

Lemma tcp_route_selected_witness :
  select_tcp_route (Some "a.b.com") example_tcp_listener = Some example_tcp_route ∧
  ∃ h, h ∈ HostnameMatch.all_matches_or_none (Some "a.b.com").
Proof.
  assert (select_tcp_route (Some "a.b.com") example_tcp_listener = Some example_tcp_route) as Hs
    by (vm_compute; reflexivity).
  split; [exact Hs|].
  pose proof (tcp_route_selected (Some "a.b.com") example_tcp_listener example_tcp_wf eq_refl) as H.
  cbv zeta in H. rewrite Hs in H. destruct H as (before & h & after & Heq & _).
  exists h. rewrite Heq. set_solver.
Defined.

(** A connection is refused with an error for every backend that is not an
    address, except one: a stored backend with a host name as target, which is a
    valid configuration, makes the connection's task panic. *)
Theorem tcp_connect_panics `{!Rng, !RngLaws} pi sni listener :
  tcp_connect pi sni listener = Panic →
  ∃ route b name name' host port,
    select_tcp_route sni listener = Some route ∧ b ∈ tcp_backends route ∧
    tbr_backend b = SBRBackend name ∧
    BindStore.backend (st_binds pi) name = Some (BOpaque name' (TgtHostname host port)).
Proof.
  unfold tcp_connect. destruct (select_tcp_route sni listener) as [route|]; [|done].
  destruct (select_tcp_backend route) as [b|] eqn:Hb; [|done].
  apply choose_weighted_Some in Hb as [Hb _].
  destruct (tbr_backend b) as [n p|name|] eqn:Href; simpl.
  - by destruct (ServiceStore.get_by_namespaced_host _ _).
  - destruct (BindStore.backend (st_binds pi) name) as [be|] eqn:Hbe; simpl; [|done].
    destruct be as [|name' [a|h p]| | | |]; simpl; try done. intros _.
    exists route, b, name, name', h, p. done.
  - done.
Qed.
