(* ===== verification/Gateway.v ===== *)
(** Gateway: the binds the gateway listens on and what becomes of a connection to one
    ([proxy/gateway.rs]).  The gateway follows the events of the bind store; a connection
    is served in plain text, after a TLS handshake or through a tunnel, as the listeners of
    its bind say.  The life of one bind is in [Drain]. *)
From S2P Require Import Config Prelude Strs DiscoveryTypes IpParse AgentTypes AgentXds RouteSet Routing BindStore BindEvents.

Import BindStore.

(** * Following the store ([Gateway::run]) *)

(** The task of a bind ([run_bind]), and whether it was aborted. *)
Record Task := mkTask { task_bind : Bind; task_aborted : bool }.

(** [active], the tasks of the join set by the number of their handle, and the binds that
    threads of their own run. *)
Record Gateway := mkGateway {
  active : gmap SocketAddr nat;
  js : gmap nat Task;
  next : nat;
  threads : list Bind
}.
Definition idle : Gateway := mkGateway ∅ ∅ 0 [].

Definition abort (h : nat) (g : Gateway) : Gateway :=
  mkGateway (active g) (alter (λ t, mkTask (task_bind t) true) h (js g)) (next g) (threads g).
Definition spawn (b : Bind) (g : Gateway) : Gateway :=
  mkGateway (<[b_address b := next g]> (active g)) (<[next g := mkTask b false]> (js g)) (S (next g)) (threads g).

Definition handle_bind (mode : ThreadingMode) (core_ids : nat) (g : Gateway) (e : Event) : Gateway :=
  match e with
  | EventRemove to_remove =>
    match active g !! b_address to_remove with
    | Some h => abort h (mkGateway (delete (b_address to_remove) (active g)) (js g) (next g) (threads g))
    | None => g
    end
  | EventAdd b =>
    match active g !! b_address b with
    | Some _ => g
    | None =>
      match mode with
      | ThreadPerCore => mkGateway (active g) (js g) (next g) (threads g ++ replicate core_ids b)
      | Multithreaded => spawn b g
      end
    end
  end.

(** What the loop of [run] receives: an event or the report that some were missed, or the
    end of a task. *)
Inductive Received := RxBind (res : result Event nat) | RxJoined (h : nat).

Definition gateway_step (mode : ThreadingMode) (core_ids : nat) (g : Gateway) (r : Received) : Gateway :=
  match r with
  | RxBind (Ok e) => handle_bind mode core_ids g e
  | RxBind (Err _) => g
  | RxJoined h => mkGateway (active g) (delete h (js g)) (next g) (threads g)
  end.

Section run.
Context `{!HashIter string Bind}.
(** [run] up to the drain: the binds of the store at the start, then what is received. *)
Definition gateway_run (mode : ThreadingMode) (core_ids : nat) (s : t) (rs : list Received) : Gateway :=
  foldl (gateway_step mode core_ids) (foldl (handle_bind mode core_ids) idle (EventAdd <$> all s)) rs.
End run.

(** * A connection ([proxy_bind]) *)

Definition is_https (p : ListenerProtocol) : bool := match p with LPHTTPS _ => true | _ => false end.
Definition is_tls (p : ListenerProtocol) : bool := match p with LPTLS _ => true | _ => false end.
Definition is_tcp (p : ListenerProtocol) : bool := match p with LPTCP => true | _ => false end.

Section connection.
Context `{!HashIter string Listener}.

Definition bind_protocol (s : t) (bind : string) : comp BindProtocol :=
  match listeners s bind with
  | None => Panic
  | Some listeners =>
    let any p := existsb (λ l, p (l_protocol l)) (hm_values listeners) in
    Ret (if any is_hbone then hbone
         else if any is_https then https
         else if any is_tls then tls
         else if any is_tcp then tcp
         else http)
  end.

(** What the client does: the server name of its TLS hello, or no hello; whether the
    handshake with a configuration succeeds. *)
Record Client := {
  client_hello : result (option string) string;
  into_stream : Handle → result () string
}.

Definition terminate_tls (s : t) (c : Client) (bind : string) : comp (result Listener string) :=
  match listeners s bind with
  | None => Panic
  | Some listeners =>
    match client_hello c with
    | Err e => Ret (Err e)
    | Ok server_name =>
      match ListenerSet.best_match listeners (default "" server_name) with
      | None => Ret (Err "no TLS listener match")
      | Some best =>
        match ListenerProtocol_tls (l_protocol best) with
        | None => Panic
        | Some cfg => Ret (let? _ := into_stream c cfg in Ok best)
        end
      end
    end
  end.

(** How a connection is served: by [HTTPProxy] or [TCPProxy] with the listener selected
    here, over TLS with a configuration or in plain text; as a tunnel; or not at all. *)
Inductive Served :=
| SHttp (over : option Handle) (selected_listener : option Listener)
| STcp (over : option Handle) (selected_listener : Listener)
| STunnel
| SClosed.

Definition proxy_tcp (s : t) (over : option Handle) (selected_listener : option Listener) (bind : string)
    : comp Served :=
  match selected_listener with
  | Some l => Ret (STcp over l)
  | None =>
    match listeners s bind with
    | None => Panic
    | Some listeners =>
      Ret (match ListenerSet.get_exactly_one listeners with Ok l => STcp over l | Err _ => SClosed end)
    end
  end.

(** [terminate_hbone] up to the tunnel: the outcome of fetching the certificate, when there
    is an authority, and of the handshake with it. *)
Definition terminate_hbone (ca : option (result Handle string)) (c : Client) : Served :=
  match ca with
  | None => SClosed
  | Some cert =>
    match (let? cert := cert in into_stream c cert) with Ok _ => STunnel | Err _ => SClosed end
  end.

(** The store is read for the protocol and again for the listeners. *)
Definition proxy_bind (s s' : t) (ca : option (result Handle string)) (c : Client) (bind : string) : comp Served :=
  p ← bind_protocol s bind;
  match p with
  | http => Ret (SHttp None None)
  | tcp => proxy_tcp s' None None bind
  | tls =>
    r ← terminate_tls s' c bind;
    match r with Ok l => proxy_tcp s' (ListenerProtocol_tls (l_protocol l)) (Some l) bind | Err _ => Ret SClosed end
  | https =>
    r ← terminate_tls s' c bind;
    Ret (match r with Ok l => SHttp (ListenerProtocol_tls (l_protocol l)) (Some l) | Err _ => SClosed end)
  | hbone => Ret (terminate_hbone ca c)
  end.

(** [serve_connect]: a stream of a tunnel, with the text of its URI and whether the answer
    could be sent; the address the proxy serves it for.  Another URI is an [unwrap]. *)
Definition serve_connect (uri : string) (send_response : result () string) : comp (option SocketAddr) :=
  match parse_socket_addr uri with
  | None => Panic
  | Some hbone_addr => Ret (match send_response with Ok _ => Some hbone_addr | Err _ => None end)
  end.
End connection.

(** * Theorems *)

Section listens.
(** Each bind keeps an address of its own. *)
Context (address : string → SocketAddr) (Hinj : ∀ k1 k2, address k1 = address k2 → k1 = k2).

Definition event_bind (e : Event) : Bind := match e with EventAdd b | EventRemove b => b end.
Definition placed (b : Bind) : Prop := b_address b = address (b_key b).

(** The gateway [g] listens for the binds [m]. *)
Record listens (g : Gateway) (m : gmap string Bind) : Prop := {
  li_active : ∀ a h, active g !! a = Some h →
    ∃ b, js g !! h = Some (mkTask b false) ∧ b_address b = a ∧ placed b ∧ is_Some (m !! b_key b);
  li_bind : ∀ k b, m !! k = Some b → b_key b = k ∧ placed b ∧ is_Some (active g !! address k);
  li_task : ∀ h b, js g !! h = Some (mkTask b false) → active g !! b_address b = Some h;
  li_next : ∀ h t, js g !! h = Some t → h < next g
}.

Lemma listens_idle : listens idle ∅.
Proof. split; intros *; simpl; rewrite lookup_empty; done. Qed.

Lemma listens_add g m b :
  listens g m → placed b → listens (handle_bind Multithreaded 0 g (EventAdd b)) (replay m (EventAdd b)).
Proof.
  intros [Ha Hb Ht Hn] Hp. simpl. destruct (active g !! b_address b) as [h0|] eqn:Hact.
  - split; [|clear Ha..]; simpl; try done.
    + intros a h (b' & H1 & H2 & H3 & H4)%Ha. exists b'. split_and!; try done.
      rewrite lookup_insert. case_decide; [eauto|done].
    + intros k b' [[<- <-]|[_ H']]%lookup_insert_Some; [|by apply Hb]. split_and!; [done|done|].
      rewrite <-Hp, Hact. eauto.
  - unfold spawn. split; simpl.
    + intros a h [[<- <-]|[Hne Hah]]%lookup_insert_Some.
      * exists b. rewrite lookup_insert_eq. split_and!; try done. rewrite lookup_insert_eq. eauto.
      * destruct (Ha a h Hah) as (b' & H1 & H2 & H3 & H4). exists b'. rewrite lookup_insert_ne.
        -- split_and!; try done. rewrite lookup_insert. case_decide; eauto.
        -- apply Hn in H1. lia.
    + intros k b' [[<- <-]|[_ H']]%lookup_insert_Some.
      * split_and!; [done|done|]. rewrite <-Hp, lookup_insert_eq. eauto.
      * destruct (Hb k b' H') as (H1 & H2 & H3). split_and!; try done. rewrite lookup_insert. case_decide; eauto.
    + intros h b' [[<- [= <-]]|[_ H']]%lookup_insert_Some; [apply lookup_insert_eq|].
      apply Ht in H'. rewrite lookup_insert_ne; [done|congruence].
    + intros h t' [[<- _]|[_ H']]%lookup_insert_Some; [lia|]. apply Hn in H'. lia.
Qed.

Lemma listens_remove g m b :
  listens g m → placed b → listens (handle_bind Multithreaded 0 g (EventRemove b)) (replay m (EventRemove b)).
Proof.
  intros [Ha Hb Ht Hn] Hp. simpl. destruct (active g !! b_address b) as [h0|] eqn:Hact.
  - destruct (Ha _ _ Hact) as (b0 & Hj0 & Hb0 & Hp0 & _).
    assert (b_key b0 = b_key b) as Hk by (apply Hinj; by rewrite <-Hp0, <-Hp).
    unfold abort. split; simpl.
    + intros a h [Hne Hah]%lookup_delete_Some. destruct (Ha a h Hah) as (b' & H1 & H2 & H3 & H4).
      exists b'. assert (h ≠ h0) by (intros ->; congruence). rewrite lookup_alter_ne by done. split_and!; try done.
      rewrite lookup_delete_ne; [done|]. intros Heq. apply Hne. by rewrite <-H2, H3, <-Heq, Hp.
    + intros k b' [Hne H']%lookup_delete_Some. destruct (Hb k b' H') as (H1 & H2 & H3). split_and!; try done.
      rewrite lookup_delete_ne; [done|]. intros Heq. apply Hne, Hinj. by rewrite <-Hp.
    + intros h b' Hh. destruct (decide (h = h0)) as [->|Hne].
      * rewrite lookup_alter_eq, Hj0 in Hh. done.
      * rewrite lookup_alter_ne in Hh by done. apply Ht in Hh. rewrite lookup_delete_ne; [done|]. congruence.
    + intros h t' Hh. destruct (decide (h = h0)) as [->|Hne]; [by eapply Hn|].
      rewrite lookup_alter_ne in Hh by done. by eapply Hn.
  - split; try done.
    + intros a h Hah. destruct (Ha a h Hah) as (b' & H1 & H2 & H3 & H4). exists b'. split_and!; try done.
      simpl. rewrite lookup_delete_ne; [done|]. intros Heq. assert (b_address b' = b_address b) by by rewrite H3, <-Heq, Hp.
      congruence.
    + intros k b' [Hne H']%lookup_delete_Some. by apply Hb.
Qed.

Lemma listens_event g m e :
  listens g m → placed (event_bind e) → listens (handle_bind Multithreaded 0 g e) (replay m e).
Proof. destruct e; [apply listens_add|apply listens_remove]. Qed.

(** The end of an aborted task. *)
Lemma listens_joined g m h b n :
  listens g m → js g !! h = Some (mkTask b true) → listens (gateway_step Multithreaded n g (RxJoined h)) m.
Proof.
  intros [Ha Hb Ht Hn] Hh. split; simpl.
  - intros a h' Hah. destruct (Ha a h' Hah) as (b' & H1 & ?). exists b'. rewrite lookup_delete_ne; [done|congruence].
  - done.
  - intros h' b' [_ H']%lookup_delete_Some. by apply Ht.
  - intros h' t' [_ H']%lookup_delete_Some. by eapply Hn.
Qed.

(** No event was missed and only aborted tasks end: no bind fails. *)
Fixpoint undisturbed (n : nat) (g : Gateway) (rs : list Received) : Prop :=
  match rs with
  | [] => True
  | r :: rs =>
    match r with
    | RxBind (Ok _) => True
    | RxBind (Err _) => False
    | RxJoined h => ∃ b, js g !! h = Some (mkTask b true)
    end ∧ undisturbed n (gateway_step Multithreaded n g r) rs
  end.
Definition received (rs : list Received) : list Event :=
  omap (λ r, match r with RxBind (Ok e) => Some e | _ => None end) rs.

Lemma listens_undisturbed n rs g m :
  listens g m → undisturbed n g rs → Forall (λ e, placed (event_bind e)) (received rs) →
  listens (foldl (gateway_step Multithreaded n) g rs) (foldl replay m (received rs)).
Proof.
  revert g m. induction rs as [|[[e|k]|h] rs IH]; intros g m Hg; [done| | |]; simpl.
  - intros [_ Hu] [He Hes]%Forall_cons. apply IH; [|done|done]. by apply listens_event.
  - by intros [[] _].
  - intros [[b Hh] Hu] Hes. apply IH; [|done|done]. by apply (listens_joined g m h b n).
Qed.

Lemma listens_adds bs g m :
  listens g m → Forall placed bs →
  listens (foldl (handle_bind Multithreaded 0) g (EventAdd <$> bs)) (load_map b_key bs m).
Proof.
  revert g m. induction bs as [|b bs IH]; intros g m Hg; [done|]. intros [Hb Hbs]%Forall_cons.
  apply IH; [|done]. by apply listens_add.
Qed.

Lemma load_all `{!HashIter string Bind} (s : t) : keys_ok (by_name s) → load_map b_key (all s) ∅ = by_name s.
Proof.
  intros Hk. assert (b_key <$> all s = (hm_iter (by_name s)).*1) as Hkeys.
  { unfold all, hm_values. rewrite <-list_fmap_compose. apply list_fmap_ext. intros i [k b] Hi. simpl.
    apply Hk. apply elem_of_hm_iter. by eapply list_elem_of_lookup_2. }
  apply map_eq. intros k. destruct (by_name s !! k) as [b|] eqn:Hb.
  - rewrite <-(Hk _ _ Hb). apply load_map_elem; [rewrite Hkeys; apply NoDup_hm_iter|]. apply elem_of_hm_values; by exists k.
  - destruct (load_map b_key (all s) ∅ !! k) as [b|] eqn:Hl; [|done].
    apply load_map_Some in Hl as [<- Hl]. apply elem_of_hm_values in Hl as [k Hl]. rewrite <-(Hk _ _ Hl) in Hl. congruence.
Qed.

(** C21: in the multithreaded mode the gateway listens exactly where the configuration says.
    When every bind keeps an address of its own and no bind fails, then after any changes
    of the store, once its events are received, each bind of the store has a task that
    runs at its address, and no other task runs but those that were aborted. With a
    thread per core it does not ([gateway_address_stuck]). *)
Theorem gateway_listens `{!HashIter string Bind, !HashIter string Listener, !HashIter string Route}
    `{!HashIter string TargetedPolicy, !SetIter string, !Crates} (error_text : StoreError → string) n (s0 s1 : t) rs :
  rtc (change error_text) new s0 → rtc (change error_text) s0 s1 → tx s1 = tx s0 ++ received rs →
  (∀ k b, by_name s0 !! k = Some b → placed b) → Forall (λ e, placed (event_bind e)) (received rs) →
  undisturbed n (gateway_run Multithreaded n s0 []) rs →
  let g := gateway_run Multithreaded n s0 rs in
  (∀ k b, by_name s1 !! k = Some b →
     ∃ h b', active g !! b_address b = Some h ∧ js g !! h = Some (mkTask b' false) ∧ b_key b' = k ∧ b_address b' = b_address b) ∧
  (∀ h b', js g !! h = Some (mkTask b' false) → is_Some (by_name s1 !! b_key b')).
Proof.
  intros H0 H1 Htx Hp0 Hps Hu g. destruct (bind_events error_text s0 H0) as [_ Hk0].
  destruct (changes_publish error_text s0 s1 Hk0 H1) as [evs [Ht Hb]].
  assert (evs = received rs) as -> by (apply (app_inv_head (tx s0)); congruence).
  assert (listens g (by_name s1)) as [Ha Hbi Htk _].
  { rewrite Hb. apply listens_undisturbed; [|done|done]. rewrite <-(load_all s0 Hk0).
    apply (listens_adds _ idle ∅ listens_idle). apply Forall_forall. intros b [k Hk]%elem_of_hm_values. by eapply Hp0. }
  split.
  - intros k b Hkb. destruct (Hbi k b Hkb) as (<- & Hpl & [h Hh]). rewrite <-Hpl in Hh.
    destruct (Ha _ h Hh) as (b' & Hj & Hadr & Hpl' & _). exists h, b'. split_and!; try done.
    apply Hinj. by rewrite <-Hpl', <-Hpl.
  - intros h b' Hj. destruct (Ha _ h (Htk h b' Hj)) as (b2 & Hj2 & _ & _ & Hin). by simplify_eq.
Qed.
End listens.

(** An address is listened on until its own bind is removed. A bind that moves to
    another address leaves its listener behind, even when it is removed there; a bind
    whose task has failed is never started again by its updates; and with a thread per
    core every update of a bind starts more threads, which nothing stops. *)
Theorem gateway_address_stuck mode n g a :
  (∀ rs, (∀ e, RxBind (Ok e) ∈ rs → b_address (event_bind e) ≠ a) →
     active (foldl (gateway_step mode n) g rs) !! a = active g !! a) ∧
  (∀ h es, active g !! a = Some h → (∀ e, e ∈ es → ∃ b, e = EventAdd b ∧ b_address b = a) →
     foldl (handle_bind mode n) (gateway_step mode n g (RxJoined h)) es = gateway_step mode n g (RxJoined h)) ∧
  (∀ es, active g = ∅ → threads (foldl (handle_bind ThreadPerCore n) g es) =
     threads g ++ concat ((λ e, match e with EventAdd b => replicate n b | EventRemove _ => [] end) <$> es)).
Proof.
  split; [|split].
  - intros rs. revert g. induction rs as [|r rs IH]; intros g Hrs; [done|]. simpl.
    rewrite IH by (intros e He; apply Hrs; by right). destruct r as [[e|]|h]; simpl; [|done|done].
    assert (b_address (event_bind e) ≠ a) as Hne by (apply Hrs; by left).
    destruct e as [b|b]; simpl in *.
    + destruct (active g !! b_address b); [done|]. destruct mode; [|done]. simpl. by rewrite lookup_insert_ne.
    + destruct (active g !! b_address b); [|done]. simpl. by rewrite lookup_delete_ne.
  - intros h es Ha. induction es as [|e es IH]; intros Hes; [done|]. simpl.
    destruct (Hes e) as (b & -> & Hb); [by left|]. simpl. rewrite Hb, Ha. apply IH. intros e' He'. apply Hes. by right.
  - intros es. revert g. induction es as [|e es IH]; intros g Hg; [by rewrite app_nil_r|]. simpl.
    destruct e as [b|b]; simpl; rewrite Hg, lookup_empty; [|by apply IH].
    rewrite IH; [|done]. simpl. by rewrite app_assoc.
Qed.

Section served.
Context `{!HashIter string Listener}.

Lemma existsb_false {A} (p : A → bool) l : existsb p l = false ↔ ∀ x, x ∈ l → p x = false.
Proof.
  induction l as [|x l IH]; simpl; [split; [intros _ x Hx; set_solver|done]|].
  rewrite orb_false_iff, IH. split.
  - intros [Hx Hl] y [->|Hy]%elem_of_cons; auto.
  - intros Hl. split; [apply Hl; by left|]. intros y Hy. apply Hl. by right.
Qed.

(** The listeners of a kind in a bind. *)
Definition has (p : ListenerProtocol → bool) (ls : ListenerSet.t) : Prop := ∃ k l, ls !! k = Some l ∧ p (l_protocol l) = true.

Lemma any_has p (ls : ListenerSet.t) : existsb (λ l, p (l_protocol l)) (hm_values ls) = true ↔ has p ls.
Proof.
  rewrite existsb_exists. split.
  - intros (l & [k Hk]%list_elem_of_In%elem_of_hm_values & Hp). by exists k, l.
  - intros (k & l & Hk & Hp). exists l. split; [|done]. apply list_elem_of_In, elem_of_hm_values. by exists k.
Qed.

Lemma any_has_not p (ls : ListenerSet.t) : existsb (λ l, p (l_protocol l)) (hm_values ls) = false ↔ ¬ has p ls.
Proof. rewrite <-any_has. by destruct (existsb _ _). Qed.


Lemma bind_protocol_spec (s : t) bind ls :
  listeners s bind = Some ls →
  ∃ p, bind_protocol s bind = Ret p ∧
    match p with
    | hbone => has is_hbone ls
    | https => ¬ has is_hbone ls ∧ has is_https ls
    | tls => ¬ has is_hbone ls ∧ ¬ has is_https ls ∧ has is_tls ls
    | tcp => ¬ has is_hbone ls ∧ ¬ has is_https ls ∧ ¬ has is_tls ls ∧ has is_tcp ls
    | http => ∀ k l, ls !! k = Some l → l_protocol l = LPHTTP
    end.
Proof.
  intros Hls. unfold bind_protocol. rewrite Hls. cbv zeta. eexists. split; [reflexivity|].
  destruct (existsb _ _) eqn:E1; [by apply any_has|]. apply any_has_not in E1.
  destruct (existsb _ _) eqn:E2; [by apply any_has in E2|]. apply any_has_not in E2.
  destruct (existsb _ _) eqn:E3; [by apply any_has in E3|]. apply any_has_not in E3.
  destruct (existsb _ _) eqn:E4; [by apply any_has in E4|]. apply any_has_not in E4.
  intros k l Hl. destruct (l_protocol l) eqn:Hp; [done|..]; exfalso;
    [apply E2|apply E3|apply E4|apply E1]; exists k, l; by rewrite Hp.
Qed.

Lemma terminate_tls_ok (s : t) c bind l :
  terminate_tls s c bind = Ret (Ok l) →
  ∃ ls name cfg, listeners s bind = Some ls ∧ client_hello c = Ok name ∧
    ListenerSet.best_match ls (default "" name) = Some l ∧ ListenerProtocol_tls (l_protocol l) = Some cfg ∧
    into_stream c cfg = Ok ().
Proof.
  unfold terminate_tls. destruct (listeners s bind) as [ls|]; [|done].
  destruct (client_hello c) as [name|e]; [|done]. destruct (ListenerSet.best_match _ _) as [best|] eqn:Hb; [|done].
  destruct (ListenerProtocol_tls _) as [cfg|] eqn:Hc; [|done].
  destruct (into_stream c cfg) as [[]|e] eqn:Hi; simpl; [|done]. intros [= <-]. by exists ls, name, cfg.
Qed.

(** A listener chosen by the server name of the client, over TLS with its configuration. *)
Definition over_tls (s : t) (c : Client) (bind : string) (cfg : Handle) (l : Listener) : Prop :=
  ListenerProtocol_tls (l_protocol l) = Some cfg ∧ into_stream c cfg = Ok () ∧
  ∃ ls name, listeners s bind = Some ls ∧ client_hello c = Ok name ∧ ListenerSet.best_match ls (default "" name) = Some l.

(** C22: nothing that is configured with TLS is served without it. A connection served over
    TLS was accepted with the configuration of the listener that matches the name its
    client asked for; one served as HTTP in plain text is of a bind whose listeners are
    all plain HTTP, one served as TCP in plain text of a bind without TLS and with a
    single listener; a tunnel needs a listener for tunnels and the certificate of the
    gateway. *)
Theorem connection_served (s s' : t) ca c bind r ls :
  listeners s bind = Some ls → proxy_bind s s' ca c bind = Ret r →
  match r with
  | SHttp None sel => sel = None ∧ ∀ k l, ls !! k = Some l → l_protocol l = LPHTTP
  | SHttp (Some cfg) sel => ∃ l, sel = Some l ∧ over_tls s' c bind cfg l
  | STcp (Some cfg) l => over_tls s' c bind cfg l
  | STcp None l => ¬ has is_hbone ls ∧ ¬ has is_https ls ∧ ¬ has is_tls ls ∧
      ∃ ls' k, listeners s' bind = Some ls' ∧ ls' = {[k := l]}
  | STunnel => has is_hbone ls ∧ ∃ cert, ca = Some (Ok cert) ∧ into_stream c cert = Ok ()
  | SClosed => True
  end.
Proof.
  intros Hls. unfold proxy_bind. destruct (bind_protocol_spec s bind ls Hls) as (p & -> & Hp). simpl.
  destruct p.
  - by intros [= <-].
  - destruct (terminate_tls s' c bind) as [[l|e]|] eqn:Ht; [|by intros [= <-]|done]. simpl.
    apply terminate_tls_ok in Ht as (ls' & name & cfg & H1 & H2 & H3 & H4 & H5). rewrite H4. intros [= <-].
    exists l. split; [done|]. split_and!; eauto.
  - unfold terminate_hbone. destruct ca as [[cert|e]|]; simpl; try by intros [= <-].
    destruct (into_stream c cert) as [[]|] eqn:Hi; intros [= <-]; [|done]. split; [done|]. by exists cert.
  - destruct Hp as (H1 & H2 & H3 & H4). unfold proxy_tcp. destruct (listeners s' bind) as [ls'|] eqn:Hls'; [|done].
    destruct (ListenerSet.get_exactly_one ls') as [l|e] eqn:Hone; intros [= <-]; [|done].
    split_and!; try done. exists ls'. revert Hone. unfold ListenerSet.get_exactly_one. case_decide as Hsz; [done|].
    apply size_one_inv in Hsz as (k & l' & ->). exists k. split; [done|].
    rewrite hm_iter_singleton in Hone. by simplify_eq/=.
  - destruct (terminate_tls s' c bind) as [[l|e]|] eqn:Ht; [|by intros [= <-]|done]. simpl.
    apply terminate_tls_ok in Ht as (ls' & name & cfg & H1 & H2 & H3 & H4 & H5). rewrite H4. intros [= <-].
    split_and!; eauto.
Qed.

(** A connection makes the gateway panic exactly when its bind is gone, or when it goes
    through TLS because of some listener and the server name its client asks for selects a
    listener without TLS. *)
Theorem connection_panics (s : t) ca c bind :
  proxy_bind s s ca c bind = Panic ↔
  match listeners s bind with
  | None => True
  | Some ls => (bind_protocol s bind = Ret https ∨ bind_protocol s bind = Ret tls) ∧
      ∃ name l, client_hello c = Ok name ∧ ListenerSet.best_match ls (default "" name) = Some l ∧
        ListenerProtocol_tls (l_protocol l) = None
  end.
Proof.
  unfold proxy_bind. destruct (listeners s bind) as [ls|] eqn:Hls.
  2:{ unfold bind_protocol. by rewrite Hls. }
  assert (terminate_tls s c bind = Panic ↔ ∃ name l, client_hello c = Ok name ∧
    ListenerSet.best_match ls (default "" name) = Some l ∧ ListenerProtocol_tls (l_protocol l) = None) as Ht.
  { unfold terminate_tls. rewrite Hls. destruct (client_hello c) as [name|e]; [|split; [done|naive_solver]].
    destruct (ListenerSet.best_match _ _) as [l|] eqn:Hb; [|split; [done|naive_solver]].
    destruct (ListenerProtocol_tls _) as [cfg|] eqn:Hc; [|naive_solver]. split; [done|].
    intros (name' & l' & [= <-] & Hb' & Hc'). congruence. }
  destruct (bind_protocol_spec s bind ls Hls) as (p & Hp & _). rewrite Hp. simpl. rewrite <-Ht.
  destruct p; simpl.
  - split; [done|]. by intros [[[=]|[=]] _].
  - destruct (terminate_tls s c bind) as [[l|e]|]; simpl; (split; [done|by intros [_ [=]]]) || (split; auto).
  - split; [done|]. by intros [[[=]|[=]] _].
  - unfold proxy_tcp. rewrite Hls. split; [done|]. by intros [[[=]|[=]] _].
  - destruct (terminate_tls s c bind) as [[l|e]|]; simpl; (split; [done|by intros [_ [=]]]) || (split; auto).
Qed.
End served.

(** * Two binds *)

Module GatewayExample.
#[local] Existing Instance hm_iter_default.
#[local] Existing Instance hs_iter_default.

Definition address_at (port : N) : SocketAddr := {| sa_ip := V4 "zzzz"; sa_port := port |}.
Definition cert : TLSConfig := {| tls_config := 7%N |}.
Definition listener (k hostname : string) (p : ListenerProtocol) : Listener :=
  {| l_key := k; l_name := k; l_gateway_name := "gw"; l_hostname := hostname; l_protocol := p;
     l_routes := RouteSet.default_set; l_tcp_routes := TCPRouteSet.default_set |}.
Definition web : Bind := {| b_key := "web"; b_address := address_at 443;
  b_listeners := <["s" := listener "s" "secure" (LPHTTPS cert)]> {["p" := listener "p" "plain" LPHTTP]} |}.
Definition store : t := mk {["web" := web]} ∅ ∅ ∅ ∅ ∅ [EventAdd web].

(** A client that asks for a name and accepts every certificate. *)
Definition client (name : string) : Client := {| client_hello := Ok (Some name); into_stream _ := Ok () |}.

Lemma connection_served_witness : ∃ l, over_tls store (client "secure") "web" 7%N l.
Proof.
  destruct (connection_served store store None (client "secure") "web"
    (SHttp (Some 7%N) (Some (listener "s" "secure" (LPHTTPS cert)))) (b_listeners web)) as (l & _ & Hl);
    [reflexivity|vm_compute; reflexivity|]. by exists l.
Defined.

(** The plain listener of the same bind is asked for over TLS. *)
Example plain_listener_panics : proxy_bind store store None (client "plain") "web" = Panic.
Proof. vm_compute. reflexivity. Qed.

Lemma connection_panics_witness : ∃ l, ListenerSet.best_match (b_listeners web) "plain" = Some l ∧ l_protocol l = LPHTTP.
Proof.
  assert (proxy_bind store store None (client "plain") "web" = Panic) as Hp by (vm_compute; reflexivity).
  apply connection_panics in Hp. destruct Hp as (_ & name & l & [= <-] & Hb & _). exists l. split; [exact Hb|].
  vm_compute in Hb. injection Hb as <-. reflexivity.
Defined.

(** Binds named by the bytes of their addresses. *)
Definition at_name (k : string) : SocketAddr := {| sa_ip := V4 k; sa_port := 443 |}.
Definition named (k : string) : Bind := {| b_key := k; b_address := at_name k; b_listeners := ∅ |}.

#[local] Instance crates : Crates := {|
  tls_config_of _ := Err "tls"; Regex_new _ := None; HeaderName_from_bytes := Some; HeaderValue_from_bytes := Some;
  Scheme_try_from := Some; StatusCode_from_u16 _ := None; Duration_try_from _ := None; ProtoError_text _ := "error"
|}.
Definition text (_ : StoreError) : string := "error".

Definition synced (s : t) (binds : list Bind) (prev : PreviousState) : t :=
  match sync_local s binds [] [] prev with Ret (s', _) => s' | Panic => s end.
Definition none : PreviousState := {| ps_binds := ∅; ps_policies := ∅; ps_backends := ∅ |}.
Definition both : PreviousState := {| ps_binds := {["abcd"; "efgh"]}; ps_policies := ∅; ps_backends := ∅ |}.

(** A file with two binds, then one with the second only. *)
Definition s1 : t := synced new [named "abcd"; named "efgh"] none.
Definition s2 : t := synced s1 [named "efgh"] both.

Lemma synced_change s binds prev :
  match sync_local s binds [] [] prev with Ret _ => true | Panic => false end = true → change text s (synced s binds prev).
Proof.
  unfold synced. destruct (sync_local s binds [] [] prev) as [[s' prev']|] eqn:E; [|done]. intros _. by eapply change_local.
Qed.

Lemma s2_changes : rtc (change text) new s2.
Proof.
  eapply rtc_l; [apply (synced_change new [named "abcd"; named "efgh"] none); vm_compute; reflexivity|].
  apply rtc_once. apply (synced_change s1 [named "efgh"] both). vm_compute. reflexivity.
Qed.

Lemma bind_events_witness : by_name s2 = foldl replay ∅ (tx s2).
Proof. exact (proj1 (bind_events text s2 s2_changes)). Defined.

Definition rs : list Received :=
  [RxBind (Ok (EventAdd (named "abcd"))); RxBind (Ok (EventAdd (named "efgh")));
   RxBind (Ok (EventAdd (named "efgh"))); RxBind (Ok (EventRemove (named "abcd"))); RxJoined 0].

Lemma gateway_listens_witness : ∃ h b', active (gateway_run Multithreaded 1 new rs) !! at_name "efgh" = Some h ∧
  js (gateway_run Multithreaded 1 new rs) !! h = Some (mkTask b' false) ∧ b_key b' = "efgh".
Proof.
  assert (∀ k1 k2, at_name k1 = at_name k2 → k1 = k2) as Hinj by by intros k1 k2 [= ->].
  destruct (gateway_listens at_name Hinj text 1 new s2 rs) as [Hl _].
  - apply rtc_refl.
  - exact s2_changes.
  - vm_compute. reflexivity.
  - intros k b Hb. discriminate Hb.
  - repeat constructor.
  - vm_compute. repeat split. by exists (named "abcd").
  - destruct (Hl "efgh" (named "efgh")) as (h & b' & Ha & Hj & Hk & _); [vm_compute; reflexivity|].
    by exists h, b'.
Defined.

(** A bind moves from one address to another and is removed there: its first listener is
    still active. *)
Lemma gateway_address_stuck_witness :
  let g := spawn (named "abcd") idle in
  let moved := {| b_key := "abcd"; b_address := at_name "efgh"; b_listeners := ∅ |} in
  active (foldl (gateway_step Multithreaded 1) g [RxBind (Ok (EventAdd moved)); RxBind (Ok (EventRemove moved))])
    !! at_name "abcd" = Some 0.
Proof.
  intros g moved. rewrite (proj1 (gateway_address_stuck Multithreaded 1 g (at_name "abcd"))); [reflexivity|].
  intros e [[= ->]|[[= ->]|He]%elem_of_cons]%elem_of_cons; [done|done|]. by apply not_elem_of_nil in He.
Defined.
End GatewayExample.
